(* ===== verification/_CoqProject ===== *)
-Q . S2P
Prelude.v
Words.v
Times.v
Bitmaps.v
ModelChecks.v
OsLocks.v
HaltSemaphores.v
SpinLocks.v
Freds.v
TimerQueues.v
BlockingQueues.v
Semaphores.v
Mutexes.v
RWLocks.v
Sync.v
SpinMutexes.v
Locks.v
Monitors.v
SimpleMutexes.v
Containers.v
LockFreeQueues.v
StubQueues.v
ConditionalQueues.v
TimeoutSemaphores.v
Schedulers.v
IdleManagers.v
Switching.v
Stats.v
EventScopes.v
Pollers.v
Urings.v
WorkerPollers.v
FibreLocals.v
Clusters.v
Barriers.v
Fibres.v
CApi.v
CHandles.v
Bootstrap.v
Forks.v
HandoverManagers.v
