(* ===== verification/Prelude.v ===== *)
(** libfibre: a verification of its runtime

    libfibre runs many fibres (user-level threads) on few processors (pthreads).
    The runtime ([src/runtime]) knows a fibre as a [Fred]: it suspends and resumes
    freds, keeps them in ready queues, balances load between processors, and
    builds timers and synchronization objects from suspension and resumption.  The
    library proper ([src/libfibre]) adds stacks, fibre-local storage, clusters of
    workers, event scopes with I/O and pollers, and a pthread-like interface.

    Paths below are relative to [src/src].  The configuration is the default one
    ([runtime/testoptions.h]): load balancing with the spinning/waiting idle
    manager, cluster poller fibres, one-shot event registrations, no lock
    recursion, assertions as stated in the code.  Urings, WorkerPollers,
    HandoverManagers, TimeoutSemaphores, SimpleMutexes and some modules of
    SpinMutexes and SpinLocks model alternatives that other settings select.

    ** How things are modelled

    A sequential operation is a function on a record that has the object's
    fields; [None] is a failed [RASSERT], [RABORT] or a wild access.  Integers are
    [Z], with the wrap-around of their type where a value can leave it (Words).
    Concurrent code is a function [step : label -> state -> option state]: a label
    names the thread that moves and the choice it makes, a program counter per
    thread says where it is in the source, and each access to a shared atomic word
    is one step, while code inside a lock's critical section is one step.
    [reachable] and [run] (Prelude) are shared by all systems; theorems hold in
    every reachable state for any number of threads, and witnesses run a concrete
    schedule.  Memory is sequentially consistent: the weaker orderings that some
    atomic operations ask for are not modelled.

    ** The files

    - Prelude: assertions, transition systems with the invariant and refinement
      rules, counting of threads, pointwise updates, queues as adjacency, [while].
    - Words ([runtime/Platform.h], [Basics.h]): alignment, masks, [lsb]/[msb] scans,
      [BitString], and that the inline assembly and the portable [multiscan] agree.
      Times ([Basics.h]): [Time] with its conversions and order.  Bitmaps
      ([Bitmap.h]): both bitmaps implement the interface [BitmapLaws];
      [HierarchicalBitmap] is proved against that interface.
    - Containers ([Container.h], [ContainerLink.h]): intrusive stack, queue, ring
      and list over a memory of links, related to lists.  LockFreeQueues and
      StubQueues ([LockFreeQueues.h]): [QueueNemesis] and [QueueStub] are first in,
      first out.  ConditionalQueues ([ConditionalNemesisQueue.h]): freds enter a
      doubly-linked queue without a lock and leave it under one.
    - OsLocks ([libfibre/OsLocks.h], [syscall_macro.h]): the wrappers of the
      system's locks and semaphores over any answers of the system, errors
      included.  HaltSemaphores: what a halting processor ([halt] and [wake] in
      [BaseProcessor.h]) relies on, as the class [HaltSemaphore], and its default
      instance.
    - SpinLocks ([SpinLocks.h]): five locks, instances of the interface
      [Exclusive]; the MCS and ticket locks also hand over in order.
    - Freds ([Fred.h], [Fred.cc], [Suspender] in [BlockingSync.h]): the [runState]
      and [resumeInfo] race of one fred against all its resumers: one activation
      per suspension, no lost wake-up, and the winner's value is returned.
    - TimerQueues, BlockingQueues ([BlockingSync.h]): timeouts and queues of waiting
      freds; Semaphores, Mutexes, RWLocks, Sync: [LockedSemaphore] (refines a
      first-come-first-served counting semaphore), [LockedMutex] and [OwnerMutex],
      [LockedRWLock], [Condition], [LockedBarrier], [SynchronizedFlag] and
      [Joinable], all with timeouts and cancellation.  SpinMutexes: [FredMutex] and
      [FastMutex], which spin first ([Benaphore.h]).  Locks: an abstract lock, the
      class [LockLaws] of its implementations, and [FredMutex] and [FastMutex] as
      instances; SimpleMutexes: [SimpleMutex0] as another one.  Monitors
      ([Condition], [fibre.h]): condition variables over any instance of
      [LockLaws].  Barriers: [FastBarrier] and [SpinBarrier] refine one abstract
      barrier.  TimeoutSemaphores
      ([MCSTimeoutSemaphore.h]): a queue of waiting freds that they can leave
      without a lock; ModelChecks: the exploration of finite systems, proved sound,
      with which the case of two freds is decided.
    - Schedulers ([BaseProcessor.h], [Scheduler.h]): ready queues and the ring of
      processors.  IdleManagers ([BaseProcessor.cc], [Scheduler.h]): searching,
      spinning, halting and waking in the default configuration;
      HandoverManagers: the idle manager that counts freds and hands them over.
      Switching ([Fred.cc]): context switches over
      the ready queues of Schedulers and the run states of Freds; every live fred
      is in exactly one place.
    - EventScopes ([libfibre/EventScope.h]): the descriptor table and the I/O
      wrappers, as programs over the kernel's answers.  Pollers ([Poller.h],
      [Poller.cc]): the poller fibre and the master poller.  Urings
      ([libfibre/IOUring.h]) and WorkerPollers ([Poller.h], [Poller.cc]): the
      I/O ring and the poller of a worker, also as instances of [HaltSemaphore].
      Clusters ([Cluster.h], [Cluster.cc]): workers and the stop-the-world pause.
    - Bootstrap ([libfibre/Bootstrap.cc]): the settings from the environment and
      the processors of the workers.  Forks ([FibreFork], [preFork] and [postFork]
      in [Bootstrap.cc], [EventScope.h], [Cluster.cc], [Poller.cc]): when a process
      may fork, and the pollers of the child.
    - FibreLocals, Fibres ([libfibre/Fibre.h], [fibre.h], [runtime-glue/RuntimeFred.h]):
      fibre-local storage over [BitmapLaws], stacks, the end of a fibre against its
      joiner, attributes and creation.  CApi ([fibre.h], [cfibre.cc]): mutex types.
      CHandles: the synchronization objects and attributes of the C interface,
      whose handles are pointers in memory, refine those of the C++ interface.
    - Stats ([Stats.h], [Stats.cc]): statistics, their totals and their printout.

    ** What the theorems show

    - Nothing is lost: wake-ups of freds (Freds), of waiters at mutexes and
      reader-writer locks, ready freds while processors go idle (IdleManagers), I/O
      events (Pollers), wake-ups of halted processors (HaltSemaphores, Urings,
      WorkerPollers), barrier batches, the pause protocol of a cluster.
    - Nothing happens twice or at the wrong time: mutual exclusion of locks and
      mutexes, one activation per suspension, one place per fred, tokens of
      semaphores, timer nodes used only while they live, a fibre deleted only after
      its last access, other workers stopped during a pause.
    - Sequential code computes what it should: bitmaps, scans, time conversions,
      containers, ready queues, expiry of timers, statistics, storage keys,
      attribute conversions; and it ends.
    - Where the code does something else than its comments or POSIX say, a closed
      theorem shows it on a concrete run ([hb_findnext_misses],
      [rwlock_reader_stranded], [ready_fred_stranded], [output_error_lost],
      [reconnect_fails], [fcntl_changes_mode], [variance_overflow],
      [key_reuse_stale], [clearSpecific_lowest], [spin_barrier_wraps],
      [detach_after_end], [mutex_type], [stub_empty_correct],
      [unblock_stops_at_front], [tryPushEmpty_strands],
      [leaving_fred_uses_dead_node], [early_relink_fails], [stale_errno_accepted],
      [unsubmitted_read_blocks], [sem_trywait_code], [fork_leaks_pollers],
      [fork_child_stuck], [prefork_misses_waiting]).

    ** Loops and fuel

    A loop whose end is not structural takes fuel, and a theorem or lemma shows
    that the fuel given is enough: [hb_findnext] twice the number of levels plus
    one (up and down once); [while] in Prelude any fuel above a decreasing measure
    ([while_ends]): at most 64 doublings for storage keys; [StatsPrint] two per
    object plus two, since every iteration takes an object out of the map; the
    retry loops of EventScopes one more than the kernel's remaining answers, since
    each round uses one; [clearSpecific] 65, more than there are keys;
    [getWorkerSysIDs] one more than the array's size; [parse_loop] the length of
    the string, of which each iteration takes at least one character; [spin_loop]
    of the system's locks 64 doublings, more than a start value of [int] allows;
    [explore] 9000 states, with a result that says whether they were enough.
    Spinning loops of concurrent code need no fuel: each round is a step.

    ** What is not modelled

    - Weak memory, preemption ([RuntimePreemption.h] is empty by default) and the
      assembly of stack switches, floating-point state and stack frames.
    - Code that is not in the repository is a parameter or an environment step:
      [mmap], epoll, pthread semaphores, timer hardware, the kernel's answers.
    - The composition of the alternatives (I/O rings, worker pollers, the MCS
      timeout semaphore, of which only two freds are covered) with the rest, which
      is modelled in the default configuration; split stacks; FreeBSD.
    - Creation of system threads, signal handlers and the abort output; the
      functions of [fibre.h] and [cfibre.cc] on fibres, keys and I/O, which pass
      their arguments on to operations modelled elsewhere; scoped locks, the glue
      for the threads of GCC, the applications; text output.
    - A fork while another thread holds the lock of the timer queue or of a ready
      queue; other fibres that run in the child while it replaces its pollers. *)

From Stdlib Require Export ZArith Lia.
From stdpp Require Export base numbers gmap option.
From stdpp Require Export list.

(** * Notations and tactics *)

Declare Scope rt_scope.
Delimit Scope rt_scope with rt.

(** A checked assertion [RASSERT(b)]: the computation goes on only when [b]
    holds; [None] is the abort of [Runtime::Assert::abort]. *)
Definition rassert (b : bool) : option unit := if b then Some tt else None.

(** Case analysis on the innermost [match] or [if] of the goal or of [H]. *)
Ltac split_match :=
  match goal with
  | |- context [match ?x with _ => _ end] =>
      lazymatch x with context [match _ with _ => _ end] => fail | _ => destruct x eqn:? end
  end.

Ltac split_match_in H :=
  match type of H with
  | context [match ?x with _ => _ end] =>
      lazymatch x with context [match _ with _ => _ end] => fail | _ => destruct x eqn:? end
  end.

(** Turn the boolean tests of executable definitions into propositions. *)
Ltac bool_prop :=
  repeat match goal with
  | H : (_ && _)%bool = true |- _ => apply andb_true_iff in H as [? ?]
  | H : (_ || _)%bool = false |- _ => apply orb_false_iff in H as [? ?]
  | H : negb _ = true |- _ => apply negb_true_iff in H
  | H : negb _ = false |- _ => apply negb_false_iff in H
  | H : bool_decide _ = true |- _ => apply bool_decide_eq_true in H
  | H : bool_decide _ = false |- _ => apply bool_decide_eq_false in H
  | H : Z.eqb _ _ = true |- _ => apply Z.eqb_eq in H
  | H : Z.eqb _ _ = false |- _ => apply Z.eqb_neq in H
  | H : Z.ltb _ _ = true |- _ => apply Z.ltb_lt in H
  | H : Z.ltb _ _ = false |- _ => apply Z.ltb_ge in H
  | H : Z.leb _ _ = true |- _ => apply Z.leb_le in H
  | H : Z.leb _ _ = false |- _ => apply Z.leb_gt in H
  | H : Z.gtb _ _ = true |- _ => rewrite Z.gtb_ltb in H
  | H : Z.gtb _ _ = false |- _ => rewrite Z.gtb_ltb in H
  | H : Nat.eqb _ _ = true |- _ => apply Nat.eqb_eq in H
  | H : Nat.eqb _ _ = false |- _ => apply Nat.eqb_neq in H
  | H : Nat.ltb _ _ = true |- _ => apply Nat.ltb_lt in H
  | H : Nat.ltb _ _ = false |- _ => apply Nat.ltb_ge in H
  | H : Nat.leb _ _ = true |- _ => apply Nat.leb_le in H
  | H : Nat.leb _ _ = false |- _ => apply Nat.leb_gt in H
  end.

(** Split the conjunctions and disjunctions among the hypotheses. *)
Ltac cases :=
  repeat match goal with
  | H : _ /\ _ |- _ => destruct H
  | H : _ \/ _ |- _ => destruct H
  end.

(** * Executable transition systems

    A component whose operations interleave is a function
    [step : label -> state -> option state]: a label names the thread that
    moves (and the nondeterministic choice it makes), [None] says that this
    move is not possible.  Runs are lists of labels, so a concrete run is
    evaluated by [vm_compute]. *)
Section Systems.
Context {S L : Type} (init : S -> Prop) (step : L -> S -> option S).

Inductive reachable : S -> Prop :=
| reach_init s : init s -> reachable s
| reach_step s l s' : reachable s -> step l s = Some s' -> reachable s'.

Fixpoint run (ls : list L) (s : S) : option S :=
  match ls with
  | [] => Some s
  | l :: ls' => s' ← step l s; run ls' s'
  end.

Lemma run_app ls1 ls2 s : run (ls1 ++ ls2) s = (s' ← run ls1 s; run ls2 s').
Proof.
  revert s. induction ls1 as [|l ls1 IH]; intros s; [done|].
  simpl. destruct (step l s); simpl; [apply IH|done].
Qed.

Lemma run_reachable ls s s' : reachable s -> run ls s = Some s' -> reachable s'.
Proof.
  revert s. induction ls as [|l ls IH]; intros s Hs; simpl; [by intros [= <-]|].
  destruct (step l s) as [s1|] eqn:E; simpl; [|done].
  intros H. eapply IH; [|exact H]. by eapply reach_step.
Qed.

(** The state a concrete run ends in. *)
Definition after (s0 : S) (ls : list L) : S := default s0 (run ls s0).

Lemma after_reachable s0 ls : init s0 -> is_Some (run ls s0) -> reachable (after s0 ls).
Proof.
  intros H0 [s Hs]. unfold after. rewrite Hs. apply (run_reachable ls s0); [by apply reach_init|done].
Qed.

(** The same, from a test that evaluates to a boolean. *)
Lemma run_reaches s0 ls : init s0 -> (if run ls s0 then true else false) = true -> reachable (after s0 ls).
Proof. intros H0 H. apply after_reachable; [done|]. by destruct (run ls s0). Qed.

Lemma reachable_run s : reachable s -> exists s0 ls, init s0 /\ run ls s0 = Some s.
Proof.
  induction 1 as [s Hi|s l s' _ (s0 & ls & Hi & Hr) Hs].
  - by exists s, [].
  - exists s0, (ls ++ [l]). split; [done|].
    rewrite run_app, Hr. simpl. by rewrite Hs.
Qed.

(** The invariant rule, with the invariants proved before at hand. *)
Lemma invariant_rule (I : S -> Prop) :
  (forall s, init s -> I s) ->
  (forall s l s', I s -> step l s = Some s' -> I s') ->
  forall s, reachable s -> I s.
Proof. intros H0 H1 s. induction 1; eauto. Qed.

Lemma run_preserves (I : S -> Prop) :
  (forall s l s', I s -> step l s = Some s' -> I s') ->
  forall ls s s', I s -> run ls s = Some s' -> I s'.
Proof.
  intros H1 ls. induction ls as [|l ls IH]; intros s s' Hs; simpl; [by intros [= <-]|].
  destruct (step l s) as [s1|] eqn:E; simpl; [|done]. eauto.
Qed.
End Systems.

(** Refinement: each concrete move is matched by at most one abstract move
    ([alab] gives its label, [None] for a stuttering move). *)
Section Refinement.
Context {S L A B : Type} (cinit : S -> Prop) (cstep : L -> S -> option S).
Context (ainit : A -> Prop) (astep : B -> A -> option A).
Context (I : S -> Prop) (abs : S -> A) (alab : L -> S -> option B).
Hypothesis init_ok : forall s, cinit s -> I s /\ ainit (abs s).
Hypothesis step_ok : forall s l s', I s -> cstep l s = Some s' ->
  I s' /\ match alab l s with
          | Some b => astep b (abs s) = Some (abs s')
          | None => abs s' = abs s
          end.

Lemma refinement_rule s : reachable cinit cstep s -> I s /\ reachable ainit astep (abs s).
Proof.
  induction 1 as [s Hi|s l s' _ [HI Hr] Hs].
  - destruct (init_ok s Hi). split; [done|by apply reach_init].
  - destruct (step_ok s l s' HI Hs) as [HI' Hb]. split; [done|].
    destruct (alab l s); [by eapply reach_step|congruence].
Qed.
End Refinement.

(** * Counting threads

    The threads of a component are a list of program counters indexed by
    thread number; [cnt f l] is the number of threads in a state that [f]
    accepts. *)
Fixpoint cnt {A} (f : A -> bool) (l : list A) : Z :=
  match l with
  | [] => 0
  | x :: l' => Z.b2z (f x) + cnt f l'
  end.

Section Counting.
Context {A : Type}.
Implicit Types (f g : A -> bool) (l : list A).
Local Open Scope Z_scope.

Lemma cnt_nonneg f l : 0 <= cnt f l.
Proof. induction l as [|x l IH]; simpl; [lia|]. destruct (f x); simpl; lia. Qed.

Lemma cnt_app f l1 l2 : cnt f (l1 ++ l2) = cnt f l1 + cnt f l2.
Proof. induction l1; simpl; lia. Qed.

Lemma cnt_insert f l i x y :
  l !! i = Some x -> cnt f (<[i:=y]> l) = cnt f l - Z.b2z (f x) + Z.b2z (f y).
Proof.
  revert i. induction l as [|z l IH]; intros [|i]; simpl; try done.
  - intros [= ->]. lia.
  - intros H. rewrite (IH _ H). lia.
Qed.

Lemma cnt_ext f g l : (forall x, f x = g x) -> cnt f l = cnt g l.
Proof. intros H. induction l as [|x l IH]; simpl; [done|]. rewrite H. lia. Qed.

Lemma cnt_le f g l : (forall x, f x = true -> g x = true) -> cnt f l <= cnt g l.
Proof.
  intros H. induction l as [|x l IH]; simpl; [lia|]. specialize (H x).
  destruct (f x), (g x); simpl; lia.
Qed.

Lemma cnt_lookup f l i x : l !! i = Some x -> f x = true -> 1 <= cnt f l.
Proof.
  revert i. induction l as [|z l IH]; intros [|i]; simpl; try done.
  - intros [= ->] ->. pose proof (cnt_nonneg f l). simpl. lia.
  - intros H Hf. specialize (IH _ H Hf). destruct (f z); simpl; lia.
Qed.

Lemma cnt_two f l i j x y :
  l !! i = Some x -> l !! j = Some y -> i <> j -> f x = true -> f y = true -> 2 <= cnt f l.
Proof.
  revert i j. induction l as [|z l IH]; intros [|i] [|j]; simpl; try done.
  - intros [= ->] Hj _ Hx Hy. pose proof (cnt_lookup f l j y Hj Hy). rewrite Hx. simpl. lia.
  - intros Hi [= ->] _ Hx Hy. pose proof (cnt_lookup f l i x Hi Hx). rewrite Hy. simpl. lia.
  - intros Hi Hj Hne Hx Hy.
    assert (i <> j) by congruence. specialize (IH _ _ Hi Hj H Hx Hy).
    destruct (f z); simpl; lia.
Qed.

Lemma cnt_replicate f n x : cnt f (replicate n x) = Z.of_nat n * Z.b2z (f x).
Proof. induction n as [|n IH]; [done|]. cbn [replicate cnt]. rewrite IH. lia. Qed.

Lemma cnt_pos f l : 0 < cnt f l -> exists i x, l !! i = Some x /\ f x = true.
Proof.
  induction l as [|z l IH]; simpl; [lia|]. intros H. destruct (f z) eqn:E.
  - by exists 0%nat, z.
  - destruct IH as (i & x & Hi & Hx); [simpl in H; lia|]. by exists (S i), x.
Qed.

Lemma cnt_none f l : (forall i x, l !! i = Some x -> f x = false) -> cnt f l = 0.
Proof.
  intros H. pose proof (cnt_nonneg f l). destruct (decide (cnt f l = 0)) as [|Hc]; [done|].
  destruct (cnt_pos f l) as (i & x & Hi & Hx); [lia|]. by rewrite (H i x Hi) in Hx.
Qed.

Lemma cnt_zero f l i x : cnt f l = 0 -> l !! i = Some x -> f x = false.
Proof.
  intros H0 Hi. destruct (f x) eqn:E; [|done].
  pose proof (cnt_lookup f l i x Hi E). lia.
Qed.
End Counting.

Lemma cnt_ext_elem {A} (f g : A -> bool) l : (forall x, x ∈ l -> f x = g x) -> cnt f l = cnt g l.
Proof.
  induction l as [|x l IH]; intros H; simpl; [done|]. rewrite (H x) by left. f_equal. apply IH.
  intros y Hy. apply H. by right.
Qed.

Lemma cnt_elem {A} (f : A -> bool) l x : x ∈ l -> (Z.b2z (f x) <= cnt f l)%Z.
Proof.
  intros [i Hi]%list_elem_of_lookup. destruct (f x) eqn:E; simpl; [by eapply cnt_lookup|apply cnt_nonneg].
Qed.

(** Sums over a list. *)
Fixpoint weight {A} (g : A -> Z) (l : list A) : Z := match l with [] => 0%Z | x :: l' => (g x + weight g l')%Z end.

Lemma weight_insert {A} (g : A -> Z) l i x y : l !! i = Some x -> weight g (<[i := y]> l) = (weight g l - g x + g y)%Z.
Proof.
  revert i. induction l as [|z l IH]; intros [|i]; simpl; try done.
  - intros [= ->]. lia.
  - intros H. rewrite (IH _ H). lia.
Qed.

Lemma weight_nonneg {A} (g : A -> Z) l : (forall x, 0 <= g x)%Z -> (0 <= weight g l)%Z.
Proof. intros H. induction l as [|x l IH]; simpl; [lia|]. specialize (H x). lia. Qed.

Lemma weight_zero {A} (g : A -> Z) l : (forall x, 0 <= g x)%Z -> weight g l = 0%Z -> forall x, x ∈ l -> g x = 0%Z.
Proof.
  intros H. induction l as [|y l IH]; simpl; intros H0 x Hx; [by apply elem_of_nil in Hx|].
  pose proof (weight_nonneg g l H). pose proof (H y). apply elem_of_cons in Hx as [->|Hx]; [lia|]. apply IH; [lia|done].
Qed.

Lemma cnt_member {A} (f : A -> bool) l i x : l !! i = Some x -> (Z.b2z (f x) <= cnt f l)%Z.
Proof.
  intros Hi. destruct (f x) eqn:E; simpl; [by eapply cnt_lookup|apply cnt_nonneg].
Qed.

(** [counts]: rewrite the counts of a thread list in which one thread moved,
    and bring in that every count is at least 0, and at least 1 when the thread
    at hand is counted. *)
Definition seen {A} (x : A) : Prop := True.
Ltac counts :=
  repeat match goal with
  | H : ?l !! ?i = Some ?x |- context [cnt ?f (<[?i:=?y]> ?l)] =>
      rewrite (cnt_insert f l i x y H)
  | H : ?l !! ?i = Some ?x, H' : context [cnt ?f (<[?i:=?y]> ?l)] |- _ =>
      rewrite (cnt_insert f l i x y H) in H'
  | H : ?l !! ?i = Some ?x |- context [cnt ?f ?l] =>
      lazymatch goal with
      | _ : seen (f, i) |- _ => fail
      | _ => assert (seen (f, i)) by exact I; pose proof (cnt_member f l i x H)
      end
  | |- context [cnt ?f ?l] =>
      lazymatch goal with
      | _ : seen f |- _ => fail
      | _ => assert (seen f) by exact I; pose proof (cnt_nonneg f l)
      end
  end; repeat match goal with H : seen _ |- _ => clear H end.

Create HintDb rt discriminated.
#[export] Hint Constants Opaque : rt.
#[export] Hint Resolve cnt_nonneg reach_init reach_step : rt.

(** A thread list after one thread moved: lookups of the others. *)
Lemma lookup_moved {A} (l : list A) (i j : nat) (x y z : A) :
  l !! i = Some x -> <[i:=y]> l !! j = Some z -> (i = j /\ z = y) \/ (i <> j /\ l !! j = Some z).
Proof.
  intros Hi Hj. destruct (decide (i = j)) as [<-|Hne].
  - left. split; [done|].
    rewrite list_lookup_insert_eq in Hj by (by eapply lookup_lt_Some). congruence.
  - right. by rewrite list_lookup_insert_ne in Hj.
Qed.

(** Function update, for memories that are total maps from addresses. *)
Definition upd {K V} `{EqDecision K} (f : K -> V) (k : K) (v : V) : K -> V :=
  fun k' => if decide (k = k') then v else f k'.

Lemma upd_eq {K V} `{EqDecision K} (f : K -> V) k v : upd f k v k = v.
Proof. unfold upd. by rewrite decide_True. Qed.

Lemma upd_ne {K V} `{EqDecision K} (f : K -> V) k k' v : k <> k' -> upd f k v k' = f k'.
Proof. intros. unfold upd. by rewrite decide_False. Qed.

Lemma cnt_two_elem {A} (f : A -> bool) l x y :
  x ∈ l -> y ∈ l -> x <> y -> f x = true -> f y = true -> (2 <= cnt f l)%Z.
Proof.
  intros [i Hi]%list_elem_of_lookup [j Hj]%list_elem_of_lookup Hne Hx Hy.
  eapply (cnt_two f l i j); try done. intros ->. congruence.
Qed.

Lemma cnt_change {A} `{EqDecision A} (g g' : A -> bool) k l :
  NoDup l -> k ∈ l -> (forall x, x <> k -> g' x = g x) ->
  cnt g' l = (cnt g l - Z.b2z (g k) + Z.b2z (g' k))%Z.
Proof.
  intros Hn Hk Hg. induction l as [|x l IH]; [by apply elem_of_nil in Hk|]. apply NoDup_cons in Hn as [Hx Hn]. simpl.
  destruct (decide (x = k)) as [->|Hne].
  - rewrite (cnt_ext_elem g' g l); [lia|]. intros y Hy. apply Hg. by intros ->.
  - apply elem_of_cons in Hk as [->|Hk]; [done|]. rewrite (IH Hn Hk), Hg by done. lia.
Qed.

(** Counting a list without duplicates after one element has changed. *)
Lemma cnt_upd {K V} `{EqDecision K} (p : V -> bool) (f : K -> V) k v l :
  NoDup l -> k ∈ l -> cnt (fun x => p (upd f k v x)) l = (cnt (fun x => p (f x)) l - Z.b2z (p (f k)) + Z.b2z (p v))%Z.
Proof.
  induction l as [|x l IH]; intros Hn Hk; [by apply elem_of_nil in Hk|]. apply NoDup_cons in Hn as [Hx Hn]. simpl.
  destruct (decide (x = k)) as [->|Hne].
  - rewrite upd_eq, (cnt_ext_elem _ (fun x => p (f x)) l); [lia|]. intros y Hy. rewrite upd_ne; [done|]. by intros ->.
  - apply elem_of_cons in Hk as [->|Hk]; [done|]. rewrite (IH Hn Hk), upd_ne by done. lia.
Qed.

Lemma compose_upd {K V B} `{EqDecision K} (h : V -> B) (f : K -> V) k v :
  pointwise_relation K eq (h ∘ upd f k v) (upd (h ∘ f) k (h v)).
Proof. intros k'. unfold compose, upd. by destruct (decide (k = k')). Qed.

(** A fact about thread [g] after thread [f] moved: the same thread, or another. *)
Ltac at_fred g f :=
  destruct (decide (f = g)) as [<-|];
  [rewrite ?upd_eq in *|rewrite ?upd_ne in * by done].

(** [tracks h p pc]: [h] names the one thread whose program counter satisfies
    [p], if any. *)
Definition tracks {K V} (h : option K) (p : V -> bool) (pc : K -> V) : Prop :=
  forall g, h = Some g <-> p (pc g) = true.

Section Tracks.
Context {K V : Type} `{EqDecision K}.
Implicit Types (h : option K) (p : V -> bool) (pc : K -> V).

Lemma tracks_same h p pc f c : tracks h p pc -> p c = p (pc f) -> tracks h p (upd pc f c).
Proof. intros Ht Hc g. at_fred g f; [by rewrite Hc|apply Ht]. Qed.

Lemma tracks_gain p pc f c : tracks None p pc -> p c = true -> tracks (Some f) p (upd pc f c).
Proof.
  intros Ht Hc g. at_fred g f; [done|]. split; [congruence|]. intros Hg. by apply Ht in Hg.
Qed.

Lemma tracks_lose p pc f c : tracks (Some f) p pc -> p c = false -> tracks None p (upd pc f c).
Proof.
  intros Ht Hc g. split; [done|]. at_fred g f; [congruence|]. intros Hg. apply Ht in Hg. congruence.
Qed.

Lemma tracks_unique h p pc f g : tracks h p pc -> p (pc f) = true -> p (pc g) = true -> f = g.
Proof. intros Ht Hf%Ht Hg%Ht. congruence. Qed.
End Tracks.

Create Rewrite HintDb upd.
#[export] Hint Rewrite @upd_eq : upd.

(** * Neighbours in a list *)
Section Adjacent.
Context {A : Type}.
Implicit Types (q : list A) (p n : A).

(** [n] comes directly after [p]. *)
Definition adj q p n : Prop := exists k, q !! k = Some p /\ q !! S k = Some n.

Lemma adj_pred q p p' n : NoDup q -> adj q p n -> adj q p' n -> p = p'.
Proof.
  intros Hn (k & Hp & Hk) (k' & Hp' & Hk'). assert (S k = S k') by (by eapply NoDup_lookup). simplify_eq. done.
Qed.
Lemma adj_succ q p n n' : NoDup q -> adj q p n -> adj q p n' -> n = n'.
Proof.
  intros Hn (k & Hp & Hk) (k' & Hp' & Hk'). assert (k = k') by (by eapply NoDup_lookup). simplify_eq. done.
Qed.
Lemma adj_last q p n : NoDup q -> adj q p n -> last q <> Some p.
Proof.
  intros Hn (k & Hp & Hk). rewrite last_lookup. intros Hl.
  assert (k = pred (length q)) by (by eapply NoDup_lookup). apply lookup_lt_Some in Hk. lia.
Qed.
Lemma adj_head q p n : NoDup q -> adj q p n -> head q <> Some n.
Proof.
  intros Hn (k & Hp & Hk). rewrite head_lookup. intros Hl.
  assert (S k = 0%nat) by (by eapply NoDup_lookup). done.
Qed.
Lemma adj_in q p n : adj q p n -> p ∈ q /\ n ∈ q.
Proof. intros (k & Hp & Hk). split; by eapply list_elem_of_lookup_2. Qed.
Lemma adj_snoc q i p n : adj (q ++ [i]) p n <-> adj q p n \/ last q = Some p /\ n = i.
Proof.
  split.
  - intros (k & Hp & Hk). apply lookup_app_Some in Hk as [Hk|[Hlen Hk]].
    + left. exists k. split; [|done]. rewrite lookup_app_l in Hp; [done|]. apply lookup_lt_Some in Hk. lia.
    + right. apply list_lookup_singleton_Some in Hk as [Hlen' ->]. split; [|done].
      rewrite last_lookup. rewrite lookup_app_l in Hp by lia. rewrite <- Hp. f_equal. lia.
  - intros [(k & Hp & Hk)|[Hl ->]].
    + exists k. split; by apply lookup_app_l_Some.
    + rewrite last_lookup in Hl. pose proof (lookup_lt_Some _ _ _ Hl). exists (pred (length q)).
      split; [by apply lookup_app_l_Some|]. rewrite lookup_app_r by lia.
      replace (S (pred (length q)) - length q)%nat with 0%nat by lia. done.
Qed.
Lemma adj_tail q p n : adj (list.tail q) p n -> adj q p n.
Proof. destruct q as [|h q]; [done|]. intros (k & Hp & Hk). by exists (S k). Qed.
Lemma in_queue q i : i ∈ q -> head q = Some i \/ exists p, adj q p i.
Proof.
  intros [k Hk]%list_elem_of_lookup_1. destruct k as [|k]; [left; by rewrite head_lookup|].
  right. destruct (lookup_lt_is_Some_2 q k) as [p Hp]; [apply lookup_lt_Some in Hk; lia|]. by exists p, k.
Qed.

Lemma adj_app q1 q2 p n :
  adj (q1 ++ q2) p n <-> adj q1 p n \/ (last q1 = Some p /\ head q2 = Some n) \/ adj q2 p n.
Proof.
  induction q2 as [|x q2 IH] using rev_ind.
  - rewrite app_nil_r. split; [by left|]. intros [?|[[_ ?]|(k & ? & _)]]; done.
  - rewrite app_assoc, !adj_snoc, IH, last_app. destruct q2 as [|y q2]; simpl.
    + split; [|intros [?|[[? [= ->]]|[(k & ? & _)|[? ->]]]]; auto; done].
      intros [[?|[[? ?]|(k & ? & _)]]|[? ->]]; auto; done.
    + destruct (last_is_Some (y :: q2)) as [_ [z Hz]]; [done|]. rewrite Hz. naive_solver.
Qed.
End Adjacent.

(** [while (c(x)) x = f(x);] with fuel; [None] when the fuel runs out. *)
Fixpoint while {A} (fuel : nat) (c : A -> bool) (f : A -> A) (x : A) : option A :=
  match fuel with
  | O => None
  | S n => if c x then while n c f (f x) else Some x
  end.

(** A loop whose measure decreases ends, in a state where its invariant holds
    and its condition does not. *)
Lemma while_ends {A} (c : A -> bool) (f : A -> A) (I : A -> Prop) (m : A -> nat) :
  (forall x, I x -> c x = true -> I (f x) /\ (m (f x) < m x)%nat) ->
  forall fuel x, I x -> (m x < fuel)%nat ->
  exists y, while fuel c f x = Some y /\ I y /\ c y = false.
Proof.
  intros Hstep. induction fuel as [|fuel IH]; intros x Hx Hm; [lia|]. simpl.
  destruct (c x) eqn:E; [|by exists x].
  destruct (Hstep x Hx E) as [HI Hlt]. apply IH; [done|lia].
Qed.

Lemma filter_ext_elem {A} (P Q : A -> Prop) `{forall x, Decision (P x)} `{forall x, Decision (Q x)} (l : list A) :
  (forall x, x ∈ l -> P x <-> Q x) -> base.filter P l = base.filter Q l.
Proof.
  induction l as [|x l IH]; intros Hl; [done|].
  assert (IH' : base.filter P l = base.filter Q l).
  { apply IH. intros y Hy. apply Hl. by right. }
  destruct (decide (P x)) as [HP|HP].
  - rewrite !filter_cons_True; [by rewrite IH'|apply Hl; [by left|done]|done].
  - rewrite !filter_cons_False; [done|intros HQ; apply HP, Hl; [by left|done]|done].
Qed.

Lemma filter_none {A} (P : A -> Prop) `{forall x, Decision (P x)} (l : list A) :
  (forall x, x ∈ l -> ~ P x) -> base.filter P l = [].
Proof.
  induction l as [|x l IH]; intros Hl; [done|].
  rewrite filter_cons_False by (apply Hl; by left). apply IH. intros y Hy. apply Hl. by right.
Qed.

Lemma filter_all {A} (P : A -> Prop) `{forall x, Decision (P x)} (l : list A) :
  (forall x, x ∈ l -> P x) -> base.filter P l = l.
Proof.
  induction l as [|x l IH]; intros Hl; [done|].
  rewrite filter_cons_True by (apply Hl; by left). f_equal. apply IH. intros y Hy. apply Hl. by right.
Qed.

Lemma length_filter_out {A} `{EqDecision A} (l : list A) x :
  NoDup l -> x ∈ l -> S (length (base.filter (fun y => y <> x) l)) = length l.
Proof.
  induction l as [|y l IH]; intros Hn Hx; [by apply elem_of_nil in Hx|].
  apply NoDup_cons in Hn as [Hy Hn]. destruct (decide (y = x)) as [->|Hne].
  - rewrite filter_cons_False by (intros H; by apply H). simpl.
    f_equal. f_equal. apply filter_all. by intros z Hz ->.
  - rewrite filter_cons_True by done. simpl. f_equal. apply IH; [done|].
    apply elem_of_cons in Hx as [->|?]; done.
Qed.

(** Properties of all numbers of a range, by evaluation. *)
Lemma range_check (n : nat) (f : Z -> bool) :
  forallb f (seqZ 0 (Z.of_nat n)) = true -> forall j, (0 <= j < Z.of_nat n)%Z -> f j = true.
Proof.
  intros Hf j Hj. rewrite forallb_forall in Hf. apply Hf.
  apply list_elem_of_In, elem_of_seqZ. lia.
Qed.
