(* ===== verification/Words.v ===== *)
(** Machine words: the constants and bit tricks of src/src/runtime/Platform.h
    on unsigned integer types of [w] bits (the template parameter [T], with
    [w = bitsize<T>()]), the bit fields of [BitString] (Basics.h), and the
    multi-word scans.  A word is a [Z] in [0, 2^w); every C++ operation that
    can leave the range is followed by the wrap-around of the type. *)

From S2P Require Import Prelude.
Local Open Scope Z_scope.

(** [wrap w z]: conversion of [z] to an unsigned type of [w] bits. *)
Definition wrap (w z : Z) : Z := z mod 2 ^ w.

(** The same [w] bits read as a two's complement number. *)
Definition sword (w x : Z) : Z := if x <? 2 ^ (w - 1) then x else x - 2 ^ w.

(** [to_int z]: conversion of a result to [int] (32 bit, two's complement). *)
Definition to_int (z : Z) : Z :=
  let r := z mod 2 ^ 32 in if r <? 2 ^ 31 then r else r - 2 ^ 32.

Definition word (w z : Z) : Prop := 0 <= z < 2 ^ w.

Section Types.
Variable w : Z.   (* bitsize<T>() *)

(** [~x] on the type [T]. *)
Definition wnot (x : Z) : Z := wrap w (Z.lnot x).

Definition limit : Z := wnot 0.
Definition slimit : Z := Z.shiftr limit 1.
Definition pow2 (x : Z) : Z := wrap w (Z.shiftl 1 x).
Definition ispow2 (x : Z) : bool := Z.land x (wrap w (x - 1)) =? 0.
Definition align_up (x a : Z) : Z := Z.land (wrap w (x + a - 1)) (wnot (wrap w (a - 1))).
Definition align_down (x a : Z) : Z := Z.land x (wnot (wrap w (a - 1))).
Definition aligned (x a : Z) : bool := Z.land x (wrap w (a - 1)) =? 0.
Definition divup (n d : Z) : Z := wrap w (wrap w (n - 1) / d + 1).

(** [bitmask<T>(Width)] and [bitmask<T>(Pos, Width)] *)
Definition bitmask (width : Z) : Z :=
  if width =? w then limit else wrap w (pow2 width - 1).
Definition bitmask_at (pos width : Z) : Z := wrap w (Z.shiftl (bitmask width) pos).
End Types.

(** [__builtin_ctzl], [__builtin_clzl], [__builtin_popcountl]: number of
    trailing zeros, of leading zeros and of one bits; the first two are only
    called on a nonzero argument. *)
Fixpoint pos_ctz (p : positive) : Z :=
  match p with
  | xO p' => 1 + pos_ctz p'
  | _ => 0
  end.
Definition builtin_ctz (x : Z) : Z := match x with Zpos p => pos_ctz p | _ => 0 end.

Definition builtin_clz (w x : Z) : Z := w - 1 - Z.log2 x.

Fixpoint pos_popcount (p : positive) : Z :=
  match p with
  | xH => 1
  | xO p' => pos_popcount p'
  | xI p' => 1 + pos_popcount p'
  end.
Definition builtin_popcount (x : Z) : Z := match x with Zpos p => pos_popcount p | _ => 0 end.

Section Scans.
Variable w : Z.

Definition lsb_alt (x alt : Z) : Z := if x =? 0 then to_int alt else builtin_ctz x.
Definition lsb (x : Z) : Z := lsb_alt x w.
Definition msb_alt (x alt : Z) : Z :=
  if x =? 0 then to_int alt else w - 1 - builtin_clz w x.
Definition msb (x : Z) : Z := msb_alt x w.
Definition popcount (x : Z) : Z := builtin_popcount x.
Definition floorlog2 (x : Z) : Z := msb x.
Definition ceilinglog2 (x : Z) : Z := msb_alt (wrap w (x - 1)) (limit w) + 1.
Definition alignment (x : Z) : Z := lsb x.
End Scans.

(** [mword] is [uint64_t]: [W = bitsize<mword>()]. *)
Abbreviation W := 64%Z.
Abbreviation mword := (word W).

(** [data[i]] of an array of words. *)
Definition word_at (data : list Z) (i : Z) : Z := nth (Z.to_nat i) data 0.

(** The datafield a scan looks at: [findset ? data[i] : ~data[i]]. *)
Definition field (findset : bool) (x : Z) : Z := if findset then x else wnot W x.

(** The loop of [multiscan_next], over the words from [i] on: the first
    datafield is the masked one, the following ones are whole words. *)
Fixpoint multiscan_loop (rest : list Z) (findset : bool) (datafield result : Z) : Z :=
  let b := lsb W datafield in
  let result' := wrap W (result + b) in
  if b <? W then result'
  else match rest with
       | [] => result'                       (* i == N *)
       | x :: rest' => multiscan_loop rest' findset (field findset x) result'
       end.

Definition multiscan_next (data : list Z) (idx : Z) (findset : bool) : Z :=
  let n := Z.of_nat (length data) in
  if n * W <=? idx then n * W
  else
    let i := idx / W in
    let result := align_down W idx W in
    let datafield := Z.land (field findset (word_at data i))
                            (wnot W (bitmask W (idx mod W))) in
    multiscan_loop (skipn (Z.to_nat i + 1) data) findset datafield result.

(** [multiscan] for x86-64: the three instructions of the inline assembly.
    [bsfq src, dst] sets ZF when [src] is zero (and leaves [dst] undefined,
    here [undef]), otherwise clears ZF and stores the index of the lowest set
    bit; [cmovzq], [cmovnzq] move on ZF and on not ZF. *)
Definition asm_scan_step (bs : Z -> Z) (undef onzero datafield newmask : Z) : Z * Z :=
  let zf := datafield =? 0 in
  let scan := if zf then undef else bs datafield in
  let scan := if zf then onzero else scan in            (* cmovz %3, %0 *)
  let newmask := if zf then newmask else 0 in           (* cmovnz %4, %1 *)
  (scan, newmask).

Fixpoint multiscan_asm (undef : Z) (data : list Z) (findset : bool) (result mask newmask : Z) : Z :=
  match data with
  | [] => result
  | x :: data' =>
      let '(scan, newmask') := asm_scan_step builtin_ctz undef W (field findset x) newmask in
      let result' := wrap W (result + Z.land scan mask) in
      multiscan_asm undef data' findset result' newmask' newmask'
  end.

Definition multiscan (undef : Z) (data : list Z) (findset : bool) : Z :=
  multiscan_asm undef data findset 0 (wnot W 0) (wnot W 0).

(** [multiscan_rev] for x86-64 walks the words downwards with [bsrq]. *)
Fixpoint multiscan_rev_asm (undef : Z) (rdata : list Z) (findset : bool)
    (result mask newmask : Z) : Z :=
  match rdata with
  | [] => result
  | x :: rdata' =>
      let '(scan, newmask') := asm_scan_step Z.log2 undef 0 (field findset x) newmask in
      let result' := wrap W (result + wrap W (Z.land scan mask + Z.land W (wnot W mask))) in
      multiscan_rev_asm undef rdata' findset result' newmask' newmask'
  end.

Definition multiscan_rev (undef : Z) (data : list Z) (findset : bool) : Z :=
  multiscan_rev_asm undef (rev data) findset 0 (wnot W 0) (wnot W 0).

(** [BitString<T,Pos,Width>] of Basics.h. *)
Section BitString.
Variables (w pos width : Z).

Definition bs_mask : Z := bitmask_at w pos width.
Definition bs_put (f : Z) : Z := wrap w (Z.shiftl (Z.land f (bitmask w width)) pos).
Definition bs_get (f : Z) : Z := Z.land (Z.shiftr f pos) (bitmask w width).
Definition bs_excl (f : Z) : Z := Z.land f (wnot w (bitmask_at w pos width)).
End BitString.

(** * Bits of words *)

Lemma word_wrap w z : 0 <= w -> word w (wrap w z).
Proof. intros. unfold word, wrap. apply Z.mod_pos_bound. lia. Qed.

Lemma wrap_small w z : word w z -> wrap w z = z.
Proof. apply Z.mod_small. Qed.

Lemma wrap_bits w z i : 0 <= w -> 0 <= i -> Z.testbit (wrap w z) i = (i <? w) && Z.testbit z i.
Proof.
  intros Hw Hi. unfold wrap. destruct (Z.ltb_spec i w) as [H|H]; simpl.
  - by apply Z.mod_pow2_bits_low.
  - by apply Z.mod_pow2_bits_high.
Qed.

Lemma wnot_bits w x i :
  0 <= w -> 0 <= i -> Z.testbit (wnot w x) i = (i <? w) && negb (Z.testbit x i).
Proof. intros. unfold wnot. by rewrite wrap_bits, Z.lnot_spec. Qed.

Lemma word_bits_high w x i : word w x -> w <= i -> 0 <= w -> Z.testbit x i = false.
Proof.
  intros Hx Hi Hw. rewrite <- (wrap_small w x Hx). rewrite wrap_bits by lia.
  destruct (Z.ltb_spec i w); [lia|done].
Qed.

Lemma word_of_bits w x :
  0 <= w -> 0 <= x -> (forall i, w <= i -> Z.testbit x i = false) -> word w x.
Proof.
  intros Hw Hx H. split; [done|].
  destruct (Z.lt_ge_cases x (2 ^ w)) as [?|Hge]; [done|].
  assert (Hl : w <= Z.log2 x) by (apply Z.log2_le_pow2; lia).
  pose proof (Z.bit_log2 x). rewrite H in * by done. lia.
Qed.

Lemma word_land w x y : 0 <= w -> word w x -> 0 <= y -> word w (Z.land x y).
Proof.
  intros Hw Hx Hy. apply word_of_bits; [done| |].
  - apply Z.land_nonneg. by left; destruct Hx.
  - intros i Hi. rewrite Z.land_spec, (word_bits_high w x) by done. done.
Qed.

Lemma word_wnot w x : 0 <= w -> word w (wnot w x).
Proof. intros. by apply word_wrap. Qed.

Lemma limit_ones w : 0 <= w -> limit w = Z.ones w.
Proof.
  intros. apply Z.bits_inj'. intros i Hi. unfold limit.
  rewrite wnot_bits, Z.testbit_0_l, andb_true_r, Z.testbit_ones by done.
  destruct (Z.leb_spec 0 i); [done|lia].
Qed.

(** [pow2<T>(k) - 1], the mask of the [k] lowest bits. *)
Lemma pow2_below w k : 0 <= k < w -> pow2 w k = 2 ^ k.
Proof.
  intros. unfold pow2. rewrite Z.shiftl_1_l. apply wrap_small.
  split; [lia|]. apply Z.pow_lt_mono_r; lia.
Qed.

Lemma bitmask_ones w k : 0 <= k <= w -> bitmask w k = Z.ones k.
Proof.
  intros. unfold bitmask. destruct (Z.eqb_spec k w) as [->|?].
  - apply limit_ones. lia.
  - rewrite pow2_below, Z.ones_equiv by lia. apply wrap_small.
    pose proof (Z.pow_pos_nonneg 2 k). pose proof (Z.pow_lt_mono_r 2 k w). unfold word. lia.
Qed.

Lemma wnot_ones_bits w k i :
  0 <= k <= w -> 0 <= i -> Z.testbit (wnot w (Z.ones k)) i = (k <=? i) && (i <? w).
Proof.
  intros Hk Hi. rewrite wnot_bits, Z.testbit_ones by lia.
  destruct (Z.ltb_spec i w), (Z.ltb_spec i k), (Z.leb_spec 0 i), (Z.leb_spec k i); simpl; lia.
Qed.

(** * Alignment *)

(** Alignments are powers of two: [a = 2^k] fits in the type. *)
Lemma align_down_ones w x k :
  0 <= k < w -> word w x -> align_down w x (2 ^ k) = Z.land x (wnot w (Z.ones k)).
Proof.
  intros Hk Hx. unfold align_down. do 2 f_equal. rewrite Z.ones_equiv. apply wrap_small.
  pose proof (Z.pow_pos_nonneg 2 k). pose proof (Z.pow_lt_mono_r 2 k w). unfold word. lia.
Qed.

Lemma land_wnot_ones w x k :
  0 <= k <= w -> word w x -> Z.land x (wnot w (Z.ones k)) = x - x mod 2 ^ k.
Proof.
  intros Hk Hx.
  assert (Z.land x (wnot w (Z.ones k)) = Z.shiftl (Z.shiftr x k) k) as ->.
  { apply Z.bits_inj'. intros i Hi.
    rewrite Z.land_spec, wnot_ones_bits, Z.shiftl_spec by lia.
    destruct (Z.leb_spec k i); simpl.
    - rewrite Z.shiftr_spec by lia. replace (i - k + k) with i by lia.
      destruct (Z.ltb_spec i w); [apply andb_true_r|].
      rewrite (word_bits_high w x) by (done || lia). done.
    - rewrite (Z.testbit_neg_r _ (i - k)) by lia. apply andb_false_r. }
  rewrite Z.shiftr_div_pow2, Z.shiftl_mul_pow2 by lia.
  pose proof (Z.div_mod x (2 ^ k)). pose proof (Z.pow_pos_nonneg 2 k). lia.
Qed.

Lemma align_down_spec w x k :
  0 <= k < w -> word w x -> align_down w x (2 ^ k) = x - x mod 2 ^ k.
Proof. intros. rewrite align_down_ones by done. apply land_wnot_ones; [lia|done]. Qed.

Lemma align_up_spec w x k :
  0 <= k < w -> word w x -> x + 2 ^ k - 1 < 2 ^ w ->
  align_up w x (2 ^ k) = (x + 2 ^ k - 1) - (x + 2 ^ k - 1) mod 2 ^ k.
Proof.
  intros Hk [Hx0 Hx1] Hov. pose proof (Z.pow_pos_nonneg 2 k).
  unfold align_up. rewrite (wrap_small w (x + _ - 1)) by (unfold word; lia).
  fold (align_down w (x + 2 ^ k - 1) (2 ^ k)). apply align_down_spec; [done|unfold word; lia].
Qed.

Lemma aligned_spec w x k :
  0 <= k < w -> word w x -> aligned w x (2 ^ k) = (x mod 2 ^ k =? 0).
Proof.
  intros Hk Hx. unfold aligned. rewrite wrap_small.
  - rewrite Z.sub_1_r, <- Z.ones_equiv, Z.land_ones by lia. done.
  - pose proof (Z.pow_pos_nonneg 2 k). pose proof (Z.pow_lt_mono_r 2 k w). unfold word. lia.
Qed.

Lemma divup_spec w n d :
  0 <= w -> 0 < n < 2 ^ w -> 1 < d -> divup w n d = (n + d - 1) / d.
Proof.
  intros Hw Hn Hd. unfold divup. rewrite (wrap_small w (n - 1)) by (unfold word; lia).
  replace (n + d - 1) with (n - 1 + 1 * d) by lia. rewrite Z.div_add by lia.
  apply wrap_small. split.
  - pose proof (Z.div_pos (n - 1) d). lia.
  - assert ((n - 1) / d <= n - 1) by (apply Z.div_le_upper_bound; nia). lia.
Qed.

(** The subtraction wraps for [n = 0]. *)
Lemma divup_zero w d : 0 < w -> 0 < d -> divup w 0 d = wrap w ((2 ^ w - 1) / d + 1).
Proof.
  intros. unfold divup. do 3 f_equal. unfold wrap.
  rewrite <- (Z.mod_add _ 1) by lia. rewrite Z.mod_small; lia.
Qed.

(** * Scans *)

Lemma pos_ctz_spec p :
  0 <= pos_ctz p /\ Z.testbit (Zpos p) (pos_ctz p) = true /\
  forall i, 0 <= i < pos_ctz p -> Z.testbit (Zpos p) i = false.
Proof.
  induction p as [p IH|p IH|]; simpl pos_ctz.
  - split; [lia|]. split; [done|]. lia.
  - destruct IH as (H0 & Ht & Hl). split; [lia|]. rewrite Pos2Z.inj_xO. split.
    + rewrite (Z.add_comm 1), Z.add_1_r, Z.testbit_even_succ; done.
    + intros i Hi. destruct (Z.eq_dec i 0) as [->|Hne]; [apply Z.testbit_even_0|].
      replace i with (Z.succ (i - 1)) by lia. rewrite Z.testbit_even_succ by lia.
      apply Hl. lia.
  - split; [lia|]. split; [done|]. lia.
Qed.

Lemma ctz_spec x : 0 < x ->
  0 <= builtin_ctz x /\ Z.testbit x (builtin_ctz x) = true /\
  forall i, 0 <= i < builtin_ctz x -> Z.testbit x i = false.
Proof. intros Hx. destruct x as [|p|p]; try lia. apply pos_ctz_spec. Qed.

Lemma ctz_lt w x : 0 <= w -> 0 < x -> word w x -> builtin_ctz x < w.
Proof.
  intros Hw Hx Hword. destruct (ctz_spec x Hx) as (_ & Ht & _).
  destruct (Z.lt_ge_cases (builtin_ctz x) w); [done|].
  by rewrite (word_bits_high w x) in Ht.
Qed.

Lemma to_int_small z : 0 <= z < 2 ^ 31 -> to_int z = z.
Proof.
  intros. unfold to_int. rewrite Z.mod_small by lia.
  destruct (Z.ltb_spec z (2 ^ 31)); lia.
Qed.

Lemma lsb_spec x : mword x ->
  0 <= lsb W x <= W /\
  (forall i, 0 <= i < lsb W x -> Z.testbit x i = false) /\
  (lsb W x < W <-> x <> 0) /\
  (x <> 0 -> Z.testbit x (lsb W x) = true).
Proof.
  intros Hx. unfold lsb, lsb_alt. destruct (Z.eqb_spec x 0) as [->|Hne].
  - rewrite to_int_small by lia. split; [lia|].
    split; [intros; apply Z.testbit_0_l|]. split; [lia|done].
  - destruct Hx as [Hx0 Hx1]. destruct (ctz_spec x) as (H0 & H1 & H2); [lia|].
    pose proof (ctz_lt W x ltac:(lia) ltac:(lia) (conj Hx0 Hx1)).
    split; [lia|]. split; [done|]. split; [|done]. split; lia.
Qed.

Lemma msb_spec x : mword x -> x <> 0 ->
  0 <= msb W x < W /\ Z.testbit x (msb W x) = true /\
  forall i, msb W x < i -> Z.testbit x i = false.
Proof.
  intros [Hx0 Hx1] Hne. unfold msb, msb_alt, builtin_clz.
  destruct (Z.eqb_spec x 0); [done|].
  replace (W - 1 - (W - 1 - Z.log2 x)) with (Z.log2 x) by lia.
  split; [split; [apply Z.log2_nonneg|]|split].
  - destruct (Z.lt_ge_cases (Z.log2 x) W) as [?|Hge]; [done|].
    apply Z.log2_le_pow2 in Hge; lia.
  - apply Z.bit_log2. lia.
  - intros. apply Z.bits_above_log2; lia.
Qed.

(** The reference scan: position of the first one bit of an array, counted
    word by word; the size of the array in bits if there is none. *)
Fixpoint scan_first (l : list Z) : Z :=
  match l with
  | [] => 0
  | x :: l' => if x =? 0 then W + scan_first l' else builtin_ctz x
  end.

(** Bit [i] of an array of words. *)
Definition array_bit (l : list Z) (i : Z) : bool := Z.testbit (word_at l (i / W)) (i mod W).

Lemma word_at_cons_0 x l i : 0 <= i < W -> word_at (x :: l) (i / W) = x.
Proof. intros. unfold word_at. by rewrite Z.div_small. Qed.

Lemma array_bit_head x l i : 0 <= i < W -> array_bit (x :: l) i = Z.testbit x i.
Proof. intros. unfold array_bit. by rewrite word_at_cons_0, Z.mod_small. Qed.

Lemma array_bit_tail x l i : W <= i -> array_bit (x :: l) i = array_bit l (i - W).
Proof.
  intros Hi. unfold array_bit, word_at.
  replace (i / W) with ((i - W) / W + 1)
    by (rewrite <- (Z.div_add (i - W) 1 W) by lia; f_equal; lia).
  replace (i mod W) with ((i - W) mod W)
    by (rewrite <- (Z.mod_add (i - W) 1 W) by lia; f_equal; lia).
  assert (0 <= (i - W) / W) by (apply Z.div_pos; lia).
  by rewrite Z2Nat.inj_add, Nat.add_1_r by lia.
Qed.

Definition words (l : list Z) : Prop := Forall mword l.

Lemma scan_first_range l : words l -> 0 <= scan_first l <= Z.of_nat (length l) * W.
Proof.
  induction 1 as [|x l Hx _ IH]; simpl; [lia|].
  destruct (Z.eqb_spec x 0); [lia|]. destruct Hx as [Hx0 Hx1].
  destruct (ctz_spec x) as (H0 & _ & _); [lia|].
  pose proof (ctz_lt W x ltac:(lia) ltac:(lia) (conj Hx0 Hx1)). lia.
Qed.

Lemma scan_first_spec l : words l ->
  (forall i, 0 <= i < scan_first l -> array_bit l i = false) /\
  (scan_first l < Z.of_nat (length l) * W -> array_bit l (scan_first l) = true).
Proof.
  induction 1 as [|x l Hx Hl [IH0 IH1]]; simpl; [split; lia|].
  pose proof (scan_first_range l Hl). destruct (Z.eqb_spec x 0) as [->|Hne].
  - split.
    + intros i Hi. destruct (Z.lt_ge_cases i W).
      * rewrite array_bit_head by lia. apply Z.testbit_0_l.
      * rewrite array_bit_tail by done. apply IH0. lia.
    + intros. rewrite array_bit_tail by lia.
      replace (W + scan_first l - W) with (scan_first l) by lia. apply IH1. lia.
  - destruct Hx as [Hx0 Hx1]. destruct (ctz_spec x) as (H0 & H1 & H2); [lia|].
    pose proof (ctz_lt W x ltac:(lia) ltac:(lia) (conj Hx0 Hx1)). split.
    + intros i Hi. rewrite array_bit_head by lia. apply H2. lia.
    + intros. rewrite array_bit_head by lia. done.
Qed.

Lemma field_word fs x : mword x -> mword (field fs x).
Proof. destruct fs; [done|]. intros _. apply word_wnot. lia. Qed.

Lemma field_words fs l : words l -> words (map (field fs) l).
Proof. induction 1; constructor; [by apply field_word|done]. Qed.

Lemma multiscan_loop_eq rest fs df base :
  words rest -> mword df -> 0 <= base ->
  base + (1 + Z.of_nat (length rest)) * W < 2 ^ W ->
  multiscan_loop rest fs df base = base + scan_first (df :: map (field fs) rest).
Proof.
  revert df base. induction rest as [|x rest IH]; intros df base Hr Hdf Hb Hov;
    cbn [multiscan_loop scan_first map];
    destruct (lsb_spec df Hdf) as ([Hl0 Hl1] & _ & Hz & _);
    rewrite (wrap_small W (base + _)) by (unfold word; cbn [length] in Hov; lia).
  - unfold lsb, lsb_alt in *. destruct (Z.eqb_spec df 0).
    + rewrite to_int_small by lia. by destruct (Z.ltb_spec W W).
    + by destruct (Z.ltb_spec (builtin_ctz df) W).
  - inversion Hr as [|? ? Hx Hr']; subst.
    destruct (Z.ltb_spec (lsb W df) W) as [Hlt|Hge].
    + apply Hz in Hlt as Hne. unfold lsb, lsb_alt in *. by destruct (Z.eqb_spec df 0).
    + assert (df = 0) as -> by (destruct (Z.eq_dec df 0) as [|n]; [done|apply Hz in n; lia]).
      replace (lsb W 0) with W in * by done. cbn [length] in Hov.
      rewrite IH; [|done|by apply field_word|lia|lia].
      cbn [scan_first map]. rewrite Z.eqb_refl. lia.
Qed.

Lemma word_at_nil i : word_at [] i = 0.
Proof. unfold word_at. by destruct (Z.to_nat i). Qed.

Lemma array_bit_skipn n l k :
  0 <= k -> array_bit l (W * Z.of_nat n + k) = array_bit (skipn n l) k.
Proof.
  revert l. induction n as [|n IH]; intros l Hk; [done|].
  destruct l as [|x l].
  - unfold array_bit. by rewrite skipn_nil, !word_at_nil, !Z.testbit_0_l.
  - simpl skipn. rewrite array_bit_tail by lia.
    rewrite <- IH by done. f_equal. lia.
Qed.

(** What a scan returns: the first position at or above [idx] whose bit is
    [findset], or the size of the array when there is none. *)
Definition first_from (data : list Z) (findset : bool) (idx r : Z) : Prop :=
  idx <= r <= Z.of_nat (length data) * W /\
  (forall i, idx <= i < r -> array_bit (map (field findset) data) i = false) /\
  (r < Z.of_nat (length data) * W -> array_bit (map (field findset) data) r = true).

Lemma first_from_unique data fs idx r1 r2 :
  first_from data fs idx r1 -> first_from data fs idx r2 -> r1 = r2.
Proof.
  intros (Hr1 & Hf1 & Ht1) (Hr2 & Hf2 & Ht2).
  destruct (Z.lt_total r1 r2) as [H|[?|H]]; [|done|].
  - rewrite (Hf2 r1) in Ht1 by lia. assert (false = true) by (apply Ht1; lia). done.
  - rewrite (Hf1 r2) in Ht2 by lia. assert (false = true) by (apply Ht2; lia). done.
Qed.

Lemma array_bit_field data fs i : words data -> 0 <= i < Z.of_nat (length data) * W ->
  array_bit (map (field fs) data) i = Bool.eqb fs (array_bit data i).
Proof.
  intros _ Hi. unfold array_bit, word_at.
  assert (0 <= i / W < Z.of_nat (length data)) by
    (split; [apply Z.div_pos; lia | apply Z.div_lt_upper_bound; lia]).
  rewrite nth_indep with (d' := field fs 0) by (rewrite length_map; lia).
  rewrite (map_nth (field fs)). pose proof (Z.mod_pos_bound i W ltac:(lia)).
  destruct fs; unfold field; [by destruct (Z.testbit _ _)|].
  rewrite wnot_bits by lia. destruct (Z.ltb_spec (i mod W) W); [|lia].
  by destruct (Z.testbit _ _).
Qed.

Lemma array_bit_masked x y l m k :
  0 <= m < W -> (forall i, 0 <= i < W -> Z.testbit y i = (m <=? i) && Z.testbit x i) ->
  0 <= k -> array_bit (y :: l) k = (m <=? k) && array_bit (x :: l) k.
Proof.
  intros Hm Hy Hk. destruct (Z.lt_ge_cases k W).
  - by rewrite !array_bit_head, Hy by lia.
  - rewrite !array_bit_tail by done. destruct (Z.leb_spec m k); [done|lia].
Qed.

Lemma word_at_skipn (l : list Z) i : 0 <= i < Z.of_nat (length l) ->
  skipn (Z.to_nat i) l = word_at l i :: skipn (Z.to_nat i + 1) l.
Proof.
  intros Hi. unfold word_at.
  assert (Z.to_nat i < length l)%nat as Hlt by lia.
  revert Hlt. generalize (Z.to_nat i). clear. intros n. revert l.
  induction n as [|n IH]; intros [|x l] H; simpl in *; try lia; [done|].
  apply IH. lia.
Qed.

Lemma words_skipn n l : words l -> words (skipn n l).
Proof. unfold words. intros. by apply Forall_drop. Qed.

Lemma words_word_at l i : words l -> mword (word_at l i).
Proof.
  intros Hl. unfold word_at. destruct (nth_in_or_default (Z.to_nat i) l 0) as [Hin|Heq].
  - eapply List.Forall_forall in Hin; [done|]. exact Hl.
  - rewrite Heq. unfold word. lia.
Qed.

(** Splitting a position into its word and its bit. *)
Lemma split_pos i n : 0 <= i < n * W ->
  0 <= i / W < n /\ 0 <= i mod W < W /\ i = W * (i / W) + i mod W.
Proof. intros. Z.to_euclidean_division_equations; lia. Qed.

(** The scanned words of [multiscan_next]: the masked word of [idx], then the
    rest of the array; and the same words unmasked. *)
Definition masked_word (data : list Z) (findset : bool) (idx : Z) : Z :=
  Z.land (field findset (word_at data (idx / W))) (wnot W (bitmask W (idx mod W))).

Definition rest_words (data : list Z) (idx : Z) : list Z :=
  skipn (Z.to_nat (idx / W) + 1) data.

Section MaskedScan.
Context (data : list Z) (findset : bool) (idx : Z).
Context (Hd : words data) (Hidx : 0 <= idx < Z.of_nat (length data) * W).
Let base := W * (idx / W).
Let scanned := masked_word data findset idx :: map (field findset) (rest_words data idx).

Lemma masked_word_word : mword (masked_word data findset idx).
Proof using Hd.
  apply word_land; [lia| |apply word_wnot; lia]. by apply field_word, words_word_at.
Qed.

Lemma scanned_words : words scanned.
Proof using Hd. constructor; [apply masked_word_word|]. by apply field_words, words_skipn. Qed.

Lemma scanned_length : Z.of_nat (length scanned) = Z.of_nat (length data) - idx / W.
Proof using Hidx.
  destruct (split_pos idx _ Hidx) as (Hi & _ & _).
  unfold scanned, rest_words. cbn [length]. rewrite length_map, length_skipn. lia.
Qed.

Lemma scanned_bit k : 0 <= k ->
  array_bit scanned k = (idx mod W <=? k) && array_bit (map (field findset) data) (base + k).
Proof using Hidx.
  intros Hk. destruct (split_pos idx _ Hidx) as (Hi & Hm & _). unfold scanned, base.
  replace (W * (idx / W)) with (W * Z.of_nat (Z.to_nat (idx / W))) by lia.
  rewrite array_bit_skipn, skipn_map, word_at_skipn by lia. cbn [map].
  apply array_bit_masked; [done| |done]. intros j Hj.
  unfold masked_word. rewrite bitmask_ones, Z.land_spec, wnot_ones_bits by lia.
  destruct (Z.ltb_spec j W); [|lia]. rewrite andb_true_r. apply andb_comm.
Qed.

Lemma masked_scan : first_from data findset idx (base + scan_first scanned).
Proof using Hd Hidx.
  pose proof scanned_words as HL. pose proof scanned_length as Hlen.
  pose proof (scan_first_range scanned HL) as Hrange.
  destruct (scan_first_spec scanned HL) as [Hf Ht]. rewrite Hlen in Ht, Hrange.
  destruct (split_pos idx _ Hidx) as (Hi & Hm & Hidx').
  assert (idx mod W <= scan_first scanned) as Hge.
  { destruct (Z.lt_ge_cases (scan_first scanned) (idx mod W)) as [Hl|?]; [|done].
    rewrite scanned_bit in Ht by lia.
    destruct (Z.leb_spec (idx mod W) (scan_first scanned)); [lia|].
    assert (false = true) by (apply Ht; lia). done. }
  unfold base in *. split; [lia|split].
  - intros k Hk. replace k with (W * (idx / W) + (k - W * (idx / W))) by lia.
    specialize (Hf (k - W * (idx / W)) ltac:(lia)). rewrite scanned_bit in Hf by lia.
    destruct (Z.leb_spec (idx mod W) (k - W * (idx / W))); [done|lia].
  - intros Hr. specialize (Ht ltac:(lia)). rewrite scanned_bit in Ht by lia.
    by apply andb_true_iff in Ht as [_ Ht].
Qed.

Lemma multiscan_next_eq :
  Z.of_nat (length data) * W < 2 ^ W -> multiscan_next data idx findset = base + scan_first scanned.
Proof using Hd Hidx.
  intros Hov. destruct (split_pos idx _ Hidx) as (Hi & Hm & Hidx').
  unfold multiscan_next.
  destruct (Z.leb_spec (Z.of_nat (length data) * W) idx); [lia|].
  change (align_down W idx W) with (align_down W idx (2 ^ 6)).
  rewrite align_down_spec by (unfold word; lia). change (2 ^ 6) with W.
  replace (idx - idx mod W) with base by (unfold base; lia).
  pose proof scanned_length as Hl. unfold scanned in Hl. cbn [length] in Hl.
  rewrite length_map in Hl. fold (rest_words data idx). unfold base in *.
  rewrite multiscan_loop_eq; [done|by apply words_skipn|apply masked_word_word|lia|lia].
Qed.
End MaskedScan.

(** [multiscan_next]: on every array whose bit count fits in a word, the
    scan from [idx] returns the lowest position at or above [idx] that holds a
    bit equal to [findset], and the number of bits of the array when there is
    no such position or when [idx] is past the end. *)
Theorem multiscan_next_spec (data : list Z) (idx : Z) (findset : bool) :
  words data -> Z.of_nat (length data) * W < 2 ^ W -> mword idx ->
  let n := Z.of_nat (length data) * W in
  if idx <? n then first_from data findset idx (multiscan_next data idx findset)
  else multiscan_next data idx findset = n.
Proof.
  intros Hd Hov [Hidx0 _] n. destruct (Z.ltb_spec idx n) as [Hlt|Hge].
  - rewrite multiscan_next_eq by done. by apply masked_scan.
  - unfold multiscan_next. fold n. destruct (Z.leb_spec n idx); [done|lia].
Qed.

Lemma land_full x : mword x -> Z.land x (wnot W 0) = x.
Proof.
  intros Hx. change (wnot W 0) with (limit W). rewrite limit_ones, Z.land_ones by lia.
  by apply Z.mod_small.
Qed.

Lemma multiscan_asm_done undef data fs result :
  mword result -> multiscan_asm undef data fs result 0 0 = result.
Proof.
  revert result. induction data as [|x data IH]; intros result Hr; [done|].
  cbn [multiscan_asm]. unfold asm_scan_step.
  rewrite Z.land_0_r, Z.add_0_r, wrap_small by done.
  by destruct (field fs x =? 0); apply IH.
Qed.

Lemma multiscan_asm_eq undef data fs result :
  words data -> 0 <= result -> result + Z.of_nat (length data) * W < 2 ^ W ->
  multiscan_asm undef data fs result (wnot W 0) (wnot W 0)
  = result + scan_first (map (field fs) data).
Proof.
  intros Hd. revert result.
  induction Hd as [|x data Hx Hd IH]; intros result Hr Hov; cbn [multiscan_asm map scan_first].
  - lia.
  - cbn [length] in Hov. unfold asm_scan_step. destruct (Z.eqb_spec (field fs x) 0) as [He|Hne].
    + change (Z.land W (wnot W 0)) with W. rewrite wrap_small by (unfold word; lia).
      rewrite IH by lia. lia.
    + pose proof (field_word fs x Hx) as Hf. pose proof (proj1 Hf) as Hf0.
      destruct (ctz_spec (field fs x)) as (H0 & _ & _); [lia|].
      pose proof (ctz_lt W (field fs x) ltac:(lia) ltac:(lia) Hf).
      rewrite land_full by (unfold word; lia). rewrite wrap_small by (unfold word; lia).
      apply multiscan_asm_done. unfold word. lia.
Qed.

(** The x86-64 assembly version of [multiscan] computes what the portable
    definition ([multiscan_next] from 0, the version of the other
    architectures) computes, whatever value [bsfq] leaves in its destination
    for a zero source. *)
Theorem multiscan_asm_portable (undef : Z) (data : list Z) (findset : bool) :
  words data -> Z.of_nat (length data) * W < 2 ^ W ->
  multiscan undef data findset = multiscan_next data 0 findset.
Proof.
  intros Hd Hov. unfold multiscan. rewrite multiscan_asm_eq by (done || lia).
  destruct data as [|x data]; [done|]. inversion Hd; subst.
  assert (0 <= 0 < Z.of_nat (length (x :: data)) * W) by (cbn [length]; lia).
  rewrite multiscan_next_eq by done.
  unfold masked_word, rest_words. change (0 / W) with 0. change (0 mod W) with 0.
  change (bitmask W 0) with 0. change (word_at (x :: data) 0) with x.
  rewrite land_full by (by apply field_word). done.
Qed.

(** The downward scan. *)
Fixpoint scan_last (rl : list Z) : Z :=
  match rl with
  | [] => 0
  | x :: rl' => if x =? 0 then scan_last rl' else Z.of_nat (length rl') * W + Z.log2 x
  end.

Lemma multiscan_rev_asm_done undef rdata fs result :
  0 <= result -> result + Z.of_nat (length rdata) * W < 2 ^ W ->
  multiscan_rev_asm undef rdata fs result 0 0 = result + Z.of_nat (length rdata) * W.
Proof.
  revert result. induction rdata as [|x rdata IH]; intros result Hr Hov; cbn [length] in *.
  - simpl. lia.
  - cbn [multiscan_rev_asm]. unfold asm_scan_step. rewrite Z.land_0_r.
    change (0 + Z.land W (wnot W 0)) with W. rewrite (wrap_small W W) by (unfold word; lia).
    rewrite wrap_small by (unfold word; lia).
    destruct (field fs x =? 0); rewrite IH; lia.
Qed.

Lemma log2_word x : mword x -> x <> 0 -> 0 <= Z.log2 x < W.
Proof.
  intros Hx Hne. destruct (msb_spec x Hx Hne) as (H & _ & _).
  unfold msb, msb_alt, builtin_clz in H. destruct (Z.eqb_spec x 0); [done|lia].
Qed.

Lemma multiscan_rev_asm_eq undef rdata fs :
  words rdata -> Z.of_nat (length rdata) * W < 2 ^ W ->
  multiscan_rev_asm undef rdata fs 0 (wnot W 0) (wnot W 0) = scan_last (map (field fs) rdata).
Proof.
  intros Hd Hov. induction Hd as [|x rdata Hx Hd IH]; cbn [map scan_last]; [done|].
  cbn [length multiscan_rev_asm] in *. unfold asm_scan_step.
  change (Z.land W (wnot W (wnot W 0))) with 0. rewrite Z.add_0_r, Z.add_0_l.
  destruct (Z.eqb_spec (field fs x) 0) as [He|Hne].
  - change (wrap W (wrap W (Z.land 0 (wnot W 0)))) with 0. apply IH. lia.
  - pose proof (field_word fs x Hx) as Hf. pose proof (log2_word _ Hf Hne).
    assert (mword (Z.log2 (field fs x))) by (unfold word; lia).
    rewrite land_full, !(wrap_small W (Z.log2 _)) by done.
    rewrite multiscan_rev_asm_done, length_map by lia. lia.
Qed.

(** What the downward scan returns: the highest position that holds
    [findset], and 0 when no position does. *)
Definition last_set (data : list Z) (findset : bool) (r : Z) : Prop :=
  let n := Z.of_nat (length data) * W in
  let bit := array_bit (map (field findset) data) in
  (forall i, r < i < n -> bit i = false) /\
  (0 <= r < n /\ bit r = true \/ r = 0 /\ forall i, 0 <= i < n -> bit i = false).

Lemma array_bit_app l1 l2 k : 0 <= k ->
  array_bit (l1 ++ l2) (Z.of_nat (length l1) * W + k) = array_bit l2 k.
Proof.
  intros. replace (Z.of_nat (length l1) * W + k) with (W * Z.of_nat (length l1) + k) by lia.
  by rewrite array_bit_skipn, skipn_app, skipn_all, Nat.sub_diag by done.
Qed.

Lemma array_bit_app_l l1 l2 k : 0 <= k < Z.of_nat (length l1) * W ->
  array_bit (l1 ++ l2) k = array_bit l1 k.
Proof.
  intros Hk. destruct (split_pos k _ Hk) as (Hi & _ & _).
  unfold array_bit, word_at. rewrite app_nth1 by lia. done.
Qed.

Lemma scan_last_range rl : words rl ->
  0 <= scan_last rl /\ (rl <> [] -> scan_last rl < Z.of_nat (length rl) * W).
Proof.
  induction 1 as [|x rl Hx Hl IH]; cbn [scan_last length]; [split; [lia|done]|].
  destruct (Z.eqb_spec x 0).
  - split; [tauto|]. intros _. destruct rl; [simpl; lia|].
    assert (scan_last (z :: rl) < Z.of_nat (length (z :: rl)) * W) by (apply IH; done). lia.
  - pose proof (log2_word x Hx ltac:(done)). lia.
Qed.

Lemma scan_last_spec rl : words rl ->
  let bit := array_bit (rev rl) in
  let n := Z.of_nat (length rl) * W in
  (forall i, scan_last rl < i < n -> bit i = false) /\
  (0 <= scan_last rl < n /\ bit (scan_last rl) = true \/
   scan_last rl = 0 /\ forall i, 0 <= i < n -> bit i = false).
Proof.
  induction 1 as [|x rl Hx Hl [IH0 IH1]]; cbn [scan_last rev length]; cbn zeta;
    [split; [lia|right; split; [done|lia]]|].
  pose proof (length_rev rl) as Hlen. pose proof (scan_last_range rl Hl) as [Hr0 _].
  assert (Hhi : forall k, 0 <= k < W ->
    array_bit (rev rl ++ [x]) (Z.of_nat (length rl) * W + k) = Z.testbit x k).
  { intros k Hk. rewrite <- Hlen, array_bit_app by lia. by apply array_bit_head. }
  assert (Hlo : forall k, 0 <= k < Z.of_nat (length rl) * W ->
    array_bit (rev rl ++ [x]) k = array_bit (rev rl) k).
  { intros k Hk. apply array_bit_app_l. lia. }
  assert (Hsplit : forall k, Z.of_nat (length rl) * W <= k ->
    k = Z.of_nat (length rl) * W + (k - Z.of_nat (length rl) * W)) by lia.
  destruct (Z.eqb_spec x 0) as [->|Hne].
  - assert (Hzero : forall k, Z.of_nat (length rl) * W <= k < Z.of_nat (S (length rl)) * W ->
      array_bit (rev rl ++ [0]) k = false).
    { intros k Hk. rewrite (Hsplit k), Hhi by lia. apply Z.testbit_0_l. }
    split.
    + intros i Hi. destruct (Z.lt_ge_cases i (Z.of_nat (length rl) * W)).
      * rewrite Hlo by lia. apply IH0. lia.
      * apply Hzero. lia.
    + destruct IH1 as [[Hr Hb]|[Hr Hb]]; [left|right].
      * split; [lia|]. by rewrite Hlo.
      * split; [done|]. intros i Hi. destruct (Z.lt_ge_cases i (Z.of_nat (length rl) * W)).
        -- rewrite Hlo by lia. apply Hb. lia.
        -- apply Hzero. lia.
  - pose proof (log2_word x Hx Hne) as Hlog. destruct Hx as [Hx0 Hx1]. split.
    + intros i Hi. rewrite (Hsplit i), Hhi by lia. apply Z.bits_above_log2; lia.
    + left. split; [lia|]. rewrite Hhi by lia. apply Z.bit_log2. lia.
Qed.

(** [multiscan_rev] returns the position of the highest bit equal to
    [findset]; it returns 0 both when that is bit 0 and when no bit qualifies. *)
Theorem multiscan_rev_spec (undef : Z) (data : list Z) (findset : bool) :
  words data -> Z.of_nat (length data) * W < 2 ^ W ->
  last_set data findset (multiscan_rev undef data findset).
Proof.
  intros Hd Hov. assert (Hrd : words (rev data)) by (by apply Forall_rev).
  unfold multiscan_rev. rewrite multiscan_rev_asm_eq by (rewrite ?length_rev; done).
  pose proof (scan_last_spec (map (field findset) (rev data)) ltac:(by apply field_words)) as H.
  rewrite <- map_rev, rev_involutive, length_map, length_rev in H. exact H.
Qed.

Lemma multiscan_next_spec_witness :
  words [0; 5] /\ first_from [0; 5] true 3 (multiscan_next [0; 5] 3 true).
Proof.
  assert (words [0; 5]) as Hw by (repeat apply Forall_cons_2; [unfold word; lia..|apply Forall_nil_2]).
  split; [exact Hw|]. apply (multiscan_next_spec [0; 5] 3 true Hw); unfold word; simpl; lia.
Defined.

Lemma multiscan_asm_portable_witness : multiscan 7 [0; 5] true = multiscan_next [0; 5] 0 true.
Proof.
  apply (multiscan_asm_portable 7 [0; 5] true); [|simpl; lia].
  repeat apply Forall_cons_2; [unfold word; lia..|apply Forall_nil_2].
Defined.

Lemma multiscan_rev_spec_witness : last_set [0; 5] true (multiscan_rev 7 [0; 5] true).
Proof.
  apply (multiscan_rev_spec 7 [0; 5] true); [|simpl; lia].
  repeat apply Forall_cons_2; [unfold word; lia..|apply Forall_nil_2].
Defined.
