(* ===== verification/Times.v ===== *)
(** [Time], the [timespec] subclass of src/src/runtime/Basics.h: seconds and
    nanoseconds as signed 64-bit numbers ([Z] here; signed overflow is
    undefined in C++ and excluded by the magnitude of the values), conversions
    with C++ division, which truncates towards zero ([Z.quot], [Z.rem]), sums,
    differences and the lexicographic comparisons. *)

From S2P Require Import Prelude.
Local Open Scope Z_scope.

Record Time := mkTime { tv_sec : Z; tv_nsec : Z }.

#[export] Instance Time_eq_dec : EqDecision Time.
Proof. solve_decision. Defined.

Definition NSEC : Z := 1000000000.

Definition zero : Time := mkTime 0 0.
Definition fromMS (ms : Z) : Time := mkTime (Z.quot ms 1000) (Z.rem ms 1000 * 1000000).
Definition toMS (t : Time) : Z := 1000 * tv_sec t + Z.quot (tv_nsec t) 1000000.
Definition fromUS (us : Z) : Time := mkTime (Z.quot us 1000000) (Z.rem us 1000000 * 1000).
Definition toUS (t : Time) : Z := 1000000 * tv_sec t + Z.quot (tv_nsec t) 1000.
Definition fromNS (ns : Z) : Time := mkTime (Z.quot ns 1000000000) (Z.rem ns 1000000000).
Definition toNS (t : Time) : Z := 1000000000 * tv_sec t + tv_nsec t.

(** [operator+=] and [operator+] *)
Definition time_add_assign (this t : Time) : Time :=
  let s := tv_sec this + tv_sec t in
  let n := tv_nsec this + tv_nsec t in
  if NSEC <? n then mkTime (s + 1) (n - NSEC) else mkTime s n.

Definition time_add (this t : Time) : Time :=
  let v := mkTime (tv_sec this + tv_sec t) (tv_nsec this + tv_nsec t) in
  if NSEC <? tv_nsec v then mkTime (tv_sec v + 1) (tv_nsec v - NSEC) else v.

(** [operator-=] and [operator-] *)
Definition time_sub_assign (this t : Time) : Time :=
  let n := tv_nsec this - tv_nsec t in
  let s := tv_sec this - tv_sec t in
  if n <? 0 then mkTime (s - 1) (n + NSEC) else mkTime s n.

Definition time_sub (this t : Time) : Time :=
  let v := mkTime (tv_sec this - tv_sec t) (tv_nsec this - tv_nsec t) in
  if tv_nsec v <? 0 then mkTime (tv_sec v - 1) (tv_nsec v + NSEC) else v.

Definition time_eqb (a t : Time) : bool := (tv_sec a =? tv_sec t) && (tv_nsec a =? tv_nsec t).
Definition time_ltb (a t : Time) : bool :=
  if tv_sec a =? tv_sec t then tv_nsec a <? tv_nsec t else tv_sec a <? tv_sec t.
Definition time_leb (a t : Time) : bool :=
  if tv_sec a =? tv_sec t then tv_nsec a <=? tv_nsec t else tv_sec a <=? tv_sec t.
Definition time_gtb (a t : Time) : bool :=
  if tv_sec a =? tv_sec t then tv_nsec t <? tv_nsec a else tv_sec t <? tv_sec a.
Definition time_geb (a t : Time) : bool :=
  if tv_sec a =? tv_sec t then tv_nsec t <=? tv_nsec a else tv_sec t <=? tv_sec a.

(** A normalised time, as the system calls require it. *)
Definition normal (t : Time) : Prop := 0 <= tv_nsec t < NSEC.

Ltac time_cases :=
  unfold normal, toNS, NSEC in *; simpl in *;
  repeat match goal with
  | |- context [Z.eqb ?a ?b] => destruct (Z.eqb_spec a b)
  | |- context [Z.ltb ?a ?b] => destruct (Z.ltb_spec a b)
  | |- context [Z.leb ?a ?b] => destruct (Z.leb_spec a b)
  end; simpl in *.

Lemma time_ltb_lex a b :
  time_ltb a b = true <-> tv_sec a < tv_sec b \/ tv_sec a = tv_sec b /\ tv_nsec a < tv_nsec b.
Proof. unfold time_ltb. time_cases; split; intros; try done; lia. Qed.

Lemma time_leb_lex a b :
  time_leb a b = true <-> tv_sec a < tv_sec b \/ tv_sec a = tv_sec b /\ tv_nsec a <= tv_nsec b.
Proof. unfold time_leb. time_cases; split; intros; try done; lia. Qed.

(** [operator<] is a strict weak order on all times, normalised or not: what
    [std::multimap<Time, Node*>] requires of its key type. *)
Lemma time_ltb_irrefl a : time_ltb a a = false.
Proof. unfold time_ltb. rewrite Z.eqb_refl. apply Z.ltb_irrefl. Qed.

Lemma time_ltb_trans a b c :
  time_ltb a b = true -> time_ltb b c = true -> time_ltb a c = true.
Proof. rewrite !time_ltb_lex. lia. Qed.

Lemma time_ltb_total a b : time_ltb a b = true \/ a = b \/ time_ltb b a = true.
Proof.
  rewrite !time_ltb_lex. destruct a as [s n], b as [s' n']; simpl.
  destruct (Z.lt_total s s') as [?|[->|?]]; [lia| |lia].
  destruct (Z.lt_total n n') as [?|[->|?]]; [lia|auto|lia].
Qed.

Lemma time_leb_negb a b : time_leb a b = negb (time_ltb b a).
Proof. unfold time_leb, time_ltb. time_cases; lia. Qed.

Lemma time_gtb_ltb a b : time_gtb a b = time_ltb b a.
Proof. unfold time_gtb, time_ltb. time_cases; lia. Qed.

Lemma time_geb_leb a b : time_geb a b = time_leb b a.
Proof. unfold time_geb, time_leb. time_cases; lia. Qed.

(** On normalised times every comparison operator decides the comparison
    of the instants in nanoseconds. *)
Theorem comparisons_instants (a b : Time) : normal a -> normal b ->
  time_ltb a b = (toNS a <? toNS b) /\ time_leb a b = (toNS a <=? toNS b) /\
  time_gtb a b = (toNS b <? toNS a) /\ time_geb a b = (toNS b <=? toNS a) /\
  time_eqb a b = (toNS a =? toNS b).
Proof.
  intros Ha Hb. rewrite time_gtb_ltb, time_geb_leb.
  unfold time_ltb, time_leb, time_eqb. repeat split; time_cases; lia.
Qed.

Lemma comparisons_instants_witness :
  time_ltb (mkTime 1 5) (mkTime 2 3) = (toNS (mkTime 1 5) <? toNS (mkTime 2 3)).
Proof. apply (comparisons_instants (mkTime 1 5) (mkTime 2 3)); unfold normal, NSEC; simpl; lia. Defined.

(** A difference of normalised times is the normalised time of the
    difference of the instants, for both operators. *)
Theorem time_sub_instants (a b : Time) : normal a -> normal b ->
  toNS (time_sub a b) = toNS a - toNS b /\ normal (time_sub a b) /\
  time_sub_assign a b = time_sub a b.
Proof. intros Ha Hb. unfold time_sub, time_sub_assign. time_cases; repeat split; lia. Qed.

Lemma time_sub_instants_witness :
  toNS (time_sub (mkTime 2 3) (mkTime 1 5)) = toNS (mkTime 2 3) - toNS (mkTime 1 5).
Proof. apply (time_sub_instants (mkTime 2 3) (mkTime 1 5)); unfold normal, NSEC; simpl; lia. Defined.

(** A sum of normalised times denotes the sum of the instants, but the
    carry test is [tv_nsec > NSEC]: the result is normalised exactly when the
    nanoseconds do not add up to one second precisely; in that case it holds
    [tv_nsec = NSEC]. *)
Theorem time_add_instants (a b : Time) : normal a -> normal b ->
  toNS (time_add a b) = toNS a + toNS b /\ time_add_assign a b = time_add a b /\
  (normal (time_add a b) <-> tv_nsec a + tv_nsec b <> NSEC) /\
  (tv_nsec a + tv_nsec b = NSEC -> tv_nsec (time_add a b) = NSEC).
Proof.
  intros Ha Hb. unfold time_add, time_add_assign. time_cases; repeat split; intros; try lia.
Qed.

Lemma time_add_instants_witness :
  tv_nsec (time_add (mkTime 0 500000000) (mkTime 0 500000000)) = NSEC.
Proof.
  apply (time_add_instants (mkTime 0 500000000) (mkTime 0 500000000));
    unfold normal, NSEC; simpl; lia.
Defined.

(** Such a sum compares as earlier than the same instant written normally. *)
Example add_half_seconds :
  let t := time_add (mkTime 0 500000000) (mkTime 0 500000000) in
  toNS t = toNS (mkTime 1 0) /\ time_ltb t (mkTime 1 0) = true.
Proof. done. Qed.

(** Milliseconds, microseconds and nanoseconds survive the conversion to
    a [Time] and back, negative values included; a normalised nonnegative time
    survives the conversion to nanoseconds. *)
Theorem time_roundtrips (v : Z) (t : Time) :
  toMS (fromMS v) = v /\ toUS (fromUS v) = v /\ toNS (fromNS v) = v /\
  (normal t -> 0 <= tv_sec t -> fromNS (toNS t) = t).
Proof.
  unfold toMS, fromMS, toUS, fromUS, toNS, fromNS; cbn [tv_sec tv_nsec].
  rewrite !Z.quot_mul by lia.
  pose proof (Z.quot_rem' v 1000). pose proof (Z.quot_rem' v 1000000).
  pose proof (Z.quot_rem' v 1000000000). repeat split; try lia.
  intros Hn Hs. destruct t as [s n]; unfold normal, NSEC in *; cbn [tv_sec tv_nsec] in *.
  rewrite Z.quot_div_nonneg, Z.rem_mod_nonneg by lia.
  f_equal; Z.to_euclidean_division_equations; lia.
Qed.

(** Times made from nonnegative counts are normalised. *)
Lemma from_normal v : 0 <= v -> normal (fromMS v) /\ normal (fromUS v) /\ normal (fromNS v).
Proof.
  intros. unfold normal, fromMS, fromUS, fromNS, NSEC; cbn [tv_nsec].
  rewrite !Z.rem_mod_nonneg by lia. Z.to_euclidean_division_equations; lia.
Qed.

Lemma time_roundtrips_witness : toMS (fromMS 1234) = 1234 /\ fromNS (toNS (mkTime 3 7)) = mkTime 3 7.
Proof.
  destruct (time_roundtrips 1234 (mkTime 3 7)) as (H1 & _ & _ & H4).
  split; [exact H1|]. apply H4; unfold normal, NSEC; simpl; lia.
Defined.
