(* ===== verification/Bitmaps.v ===== *)
(** Bitmaps: src/src/runtime/Bitmap.h.  [Bitmap<B>] is an array of words,
    [Bitmap<64>] (the specialisation) one word, [HierarchicalBitmap<W,B>] a
    tree of bitmaps in which bit [j] of a level says that bitmap [j] of the
    level below is not empty.  The class [BitmapLaws] is what a bitmap promises
    to the hierarchical one: both elementary bitmaps implement it. *)

From S2P Require Import Prelude Words.
Local Open Scope Z_scope.

(** * Bits of one word: [bit_set], [bit_clr], [bit_flp], [bit_tst] *)

Definition bit_set (a idx : Z) : Z := let b := wrap W (Z.shiftl 1 idx) in Z.lor a b.
Definition bit_clr (a idx : Z) : Z := let b := wnot W (wrap W (Z.shiftl 1 idx)) in Z.land a b.
Definition bit_flp (a idx : Z) : Z := let b := wrap W (Z.shiftl 1 idx) in Z.lxor a b.
Definition bit_tst (a idx : Z) : bool := let b := wrap W (Z.shiftl 1 idx) in negb (Z.land a b =? 0).

Section WordBits.
Context (a idx : Z) (Ha : mword a) (Hidx : 0 <= idx < W).

Lemma shift_one_bits i : 0 <= i -> Z.testbit (wrap W (Z.shiftl 1 idx)) i = (i =? idx).
Proof using Hidx.
  intros Hi. rewrite wrap_bits, Z.shiftl_1_l by lia. rewrite Z.pow2_bits_eqb by lia.
  destruct (Z.ltb_spec i W), (Z.eqb_spec idx i), (Z.eqb_spec i idx); simpl; lia.
Qed.

Lemma bit_set_bits i : 0 <= i -> Z.testbit (bit_set a idx) i = (i =? idx) || Z.testbit a i.
Proof using Hidx.
  intros. unfold bit_set. rewrite Z.lor_spec, shift_one_bits by done. apply orb_comm.
Qed.

Lemma bit_clr_bits i : 0 <= i < W -> Z.testbit (bit_clr a idx) i = negb (i =? idx) && Z.testbit a i.
Proof using Hidx.
  intros. unfold bit_clr. rewrite Z.land_spec, wnot_bits, shift_one_bits by lia.
  destruct (Z.ltb_spec i W); [|lia]. apply andb_comm.
Qed.

Lemma bit_flp_bits i : 0 <= i -> Z.testbit (bit_flp a idx) i = xorb (Z.testbit a i) (i =? idx).
Proof using Hidx. intros. unfold bit_flp. by rewrite Z.lxor_spec, shift_one_bits. Qed.

Lemma bit_tst_testbit : bit_tst a idx = Z.testbit a idx.
Proof using Hidx.
  unfold bit_tst. destruct (Z.eqb_spec (Z.land a (wrap W (Z.shiftl 1 idx))) 0) as [He|Hne]; simpl.
  - assert (Z.testbit (Z.land a (wrap W (Z.shiftl 1 idx))) idx = false) as Ht
      by (rewrite He; apply Z.testbit_0_l).
    rewrite Z.land_spec, shift_one_bits, Z.eqb_refl, andb_true_r in Ht by lia. done.
  - destruct (Z.testbit a idx) eqn:E; [done|]. destruct Hne. apply Z.bits_inj'. intros i Hi.
    rewrite Z.land_spec, shift_one_bits, Z.testbit_0_l by lia.
    destruct (Z.eqb_spec i idx) as [->|]; [by rewrite E|apply andb_false_r].
Qed.

Lemma word_or x : mword x -> mword (Z.lor a x).
Proof using Ha.
  intros Hx. apply word_of_bits; [lia| |].
  - apply Z.lor_nonneg. split; [apply Ha|apply Hx].
  - intros i Hi. rewrite Z.lor_spec, !(word_bits_high W) by (done || lia). done.
Qed.

Lemma word_xor x : mword x -> mword (Z.lxor a x).
Proof using Ha.
  intros Hx. apply word_of_bits; [lia| |].
  - apply Z.lxor_nonneg. split; intros; [apply Hx|apply Ha].
  - intros i Hi. rewrite Z.lxor_spec, !(word_bits_high W) by (done || lia). done.
Qed.

Lemma bit_set_word : mword (bit_set a idx).
Proof using Ha. apply word_or, word_wrap. lia. Qed.
Lemma bit_clr_word : mword (bit_clr a idx).
Proof using Ha. apply word_land; [lia|done|apply word_wnot; lia]. Qed.
Lemma bit_flp_word : mword (bit_flp a idx).
Proof using Ha. apply word_xor, word_wrap. lia. Qed.
End WordBits.

Lemma word_bits_eq a b : mword a -> mword b ->
  (forall i, 0 <= i < W -> Z.testbit a i = Z.testbit b i) -> a = b.
Proof.
  intros Ha Hb H. apply Z.bits_inj'. intros i Hi. destruct (Z.lt_ge_cases i W).
  - apply H. lia.
  - by rewrite !(word_bits_high W) by (done || lia).
Qed.

(** * The elementary bitmap interface *)

Class BitmapOps (bm : Type) := {
  bm_new : bm;                        (* memory cleared, or [Bitmap(0)] *)
  bm_setB : bm -> bm;
  bm_clrB : bm -> bm;
  bm_flpB : bm -> bm;
  bm_set : bm -> Z -> bm;
  bm_clr : bm -> Z -> bm;
  bm_flp : bm -> Z -> bm;
  bm_test : bm -> Z -> bool;
  bm_empty : bm -> bool;
  bm_full : bm -> bool;
  bm_count : bm -> Z;
  bm_find : bm -> bool -> Z;
  bm_findnext : bm -> Z -> bool -> Z;
}.

(** The lowest position at or above [idx] with bit [fs], or [B]. *)
Definition bm_first (B : Z) (test : Z -> bool) (fs : bool) (idx r : Z) : Prop :=
  idx <= r <= B /\ (forall i, idx <= i < r -> test i = negb fs) /\ (r < B -> test r = fs).

Class BitmapLaws (B : Z) (bm : Type) `{BitmapOps bm} := {
  bm_wf : bm -> Prop;
  bm_B_pos : 0 < B;
  bm_wf_new : bm_wf bm_new;
  bm_wf_setB b : bm_wf b -> bm_wf (bm_setB b);
  bm_wf_clrB b : bm_wf b -> bm_wf (bm_clrB b);
  bm_wf_flpB b : bm_wf b -> bm_wf (bm_flpB b);
  bm_wf_set b i : bm_wf b -> 0 <= i < B -> bm_wf (bm_set b i);
  bm_wf_clr b i : bm_wf b -> 0 <= i < B -> bm_wf (bm_clr b i);
  bm_wf_flp b i : bm_wf b -> 0 <= i < B -> bm_wf (bm_flp b i);
  bm_test_new i : 0 <= i < B -> bm_test bm_new i = false;
  bm_test_setB b i : bm_wf b -> 0 <= i < B -> bm_test (bm_setB b) i = true;
  bm_test_clrB b i : bm_wf b -> 0 <= i < B -> bm_test (bm_clrB b) i = false;
  bm_test_flpB b i : bm_wf b -> 0 <= i < B -> bm_test (bm_flpB b) i = negb (bm_test b i);
  bm_test_set b i j : bm_wf b -> 0 <= i < B -> 0 <= j < B ->
    bm_test (bm_set b i) j = (j =? i) || bm_test b j;
  bm_test_clr b i j : bm_wf b -> 0 <= i < B -> 0 <= j < B ->
    bm_test (bm_clr b i) j = negb (j =? i) && bm_test b j;
  bm_test_flp b i j : bm_wf b -> 0 <= i < B -> 0 <= j < B ->
    bm_test (bm_flp b i) j = xorb (bm_test b j) (j =? i);
  bm_empty_spec b : bm_wf b ->
    bm_empty b = true <-> forall i, 0 <= i < B -> bm_test b i = false;
  bm_full_spec b : bm_wf b ->
    bm_full b = true <-> forall i, 0 <= i < B -> bm_test b i = true;
  bm_find_spec b fs : bm_wf b -> bm_first B (bm_test b) fs 0 (bm_find b fs);
  bm_findnext_spec b idx fs : bm_wf b -> 0 <= idx < B ->
    bm_first B (bm_test b) fs idx (bm_findnext b idx fs);
}.

(** * [Bitmap<64>] *)

Record Bitmap64 := mkBitmap64 { bits64 : Z }.

Definition b64_valid (idx : Z) : bool := idx <? W.
Definition b64_filled : Bitmap64 := mkBitmap64 (wnot W 0).

#[export] Instance Bitmap64_ops : BitmapOps Bitmap64 := {
  bm_new := mkBitmap64 0;
  bm_setB b := mkBitmap64 (wnot W 0);
  bm_clrB b := mkBitmap64 0;
  bm_flpB b := mkBitmap64 (wnot W (bits64 b));
  bm_set b idx := mkBitmap64 (bit_set (bits64 b) idx);
  bm_clr b idx := mkBitmap64 (bit_clr (bits64 b) idx);
  bm_flp b idx := mkBitmap64 (bit_flp (bits64 b) idx);
  bm_test b idx := negb (Z.land (bits64 b) (wrap W (Z.shiftl 1 idx)) =? 0);
  bm_empty b := bits64 b =? 0;
  bm_full b := bits64 b =? wnot W 0;
  bm_count b := popcount (bits64 b);
  bm_find b findset := lsb W (if findset then bits64 b else wnot W (bits64 b));
  bm_findnext b idx findset :=
    lsb W (Z.land (if findset then bits64 b else wnot W (bits64 b)) (wnot W (bitmask W idx)));
}.

(** A word scan as a [bm_first]. *)
Lemma lsb_first x : mword x ->
  (0 <= lsb W x <= W) /\ (forall i, 0 <= i < lsb W x -> Z.testbit x i = false) /\
  (lsb W x < W -> Z.testbit x (lsb W x) = true).
Proof.
  intros Hx. destruct (lsb_spec x Hx) as (H0 & H1 & H2 & H3).
  split; [done|]. split; [done|]. intros Hlt. apply H3. by apply H2.
Qed.

Lemma field_bits (fs : bool) x i : 0 <= i < W ->
  Z.testbit (if fs then x else wnot W x) i = Bool.eqb fs (Z.testbit x i).
Proof.
  intros Hi. destruct fs; [by destruct (Z.testbit x i)|].
  rewrite wnot_bits by lia. destruct (Z.ltb_spec i W); [|lia]. by destruct (Z.testbit x i).
Qed.

Lemma lsb_masked_first x idx (fs : bool) : mword x -> 0 <= idx < W ->
  bm_first W (Z.testbit x) fs idx
    (lsb W (Z.land (if fs then x else wnot W x) (wnot W (bitmask W idx)))).
Proof.
  intros Hx Hidx. set (y := Z.land _ _).
  assert (Hy : mword y).
  { apply word_land; [lia| |apply word_wnot; lia]. destruct fs; [done|apply word_wnot; lia]. }
  assert (Hbit : forall i, 0 <= i < W ->
    Z.testbit y i = (idx <=? i) && Bool.eqb fs (Z.testbit x i)).
  { intros i Hi. unfold y. rewrite bitmask_ones, Z.land_spec, wnot_ones_bits, field_bits by lia.
    destruct (Z.ltb_spec i W); [|lia]. rewrite andb_true_r. apply andb_comm. }
  destruct (lsb_first y Hy) as (H0 & H1 & H2). split; [split; [|lia]|split].
  - destruct (Z.lt_ge_cases (lsb W y) idx) as [Hl|?]; [|done].
    rewrite Hbit in H2 by lia. destruct (Z.leb_spec idx (lsb W y)); [lia|].
    assert (false = true) by (apply H2; lia). done.
  - intros i Hi. specialize (H1 i ltac:(lia)). rewrite Hbit in H1 by lia.
    destruct (Z.leb_spec idx i); [|lia]. by destruct fs, (Z.testbit x i).
  - intros Hl. specialize (H2 Hl). rewrite Hbit in H2 by lia.
    by destruct (idx <=? _), fs, (Z.testbit x _).
Qed.

Lemma lsb_find_first x (fs : bool) : mword x ->
  bm_first W (Z.testbit x) fs 0 (lsb W (if fs then x else wnot W x)).
Proof.
  intros Hx. pose proof (lsb_masked_first x 0 fs Hx ltac:(lia)) as H.
  rewrite bitmask_ones in H by lia. change (Z.ones 0) with 0 in H.
  rewrite land_full in H; [done|]. destruct fs; [done|apply word_wnot; lia].
Qed.

Lemma wnot0_bits i : 0 <= i < W -> Z.testbit (wnot W 0) i = true.
Proof. intros. rewrite wnot_bits, Z.testbit_0_l by lia. destruct (Z.ltb_spec i W); [done|lia]. Qed.

Lemma word_zero_iff x : mword x -> (x =? 0) = true <-> forall i, 0 <= i < W -> Z.testbit x i = false.
Proof.
  intros Hx. rewrite Z.eqb_eq. split; [intros ->; intros; apply Z.testbit_0_l|].
  intros H. apply word_bits_eq; [done|unfold word; lia|].
  intros. by rewrite H, Z.testbit_0_l.
Qed.

Lemma word_full_iff x : mword x ->
  (x =? wnot W 0) = true <-> forall i, 0 <= i < W -> Z.testbit x i = true.
Proof.
  intros Hx. rewrite Z.eqb_eq. split; [intros ->; intros; by apply wnot0_bits|].
  intros H. apply word_bits_eq; [done|apply word_wnot; lia|].
  intros. by rewrite H, wnot0_bits.
Qed.

Lemma bm_first_ext B t1 t2 fs idx r : 0 <= idx ->
  (forall i, 0 <= i < B -> t1 i = t2 i) -> bm_first B t1 fs idx r -> bm_first B t2 fs idx r.
Proof.
  intros Hidx He (H0 & H1 & H2). split; [done|]. split.
  - intros i Hi. rewrite <- He by lia. by apply H1.
  - intros Hl. rewrite <- He by lia. by apply H2.
Qed.

Lemma all_bits_ext B (t1 t2 : Z -> bool) (b : bool) :
  (forall i, 0 <= i < B -> t1 i = t2 i) ->
  (forall i, 0 <= i < B -> t1 i = b) <-> (forall i, 0 <= i < B -> t2 i = b).
Proof. intros He. split; intros H i Hi; [rewrite <- He|rewrite He]; auto. Qed.

Lemma b64_test (b : Bitmap64) i : 0 <= i < W -> bm_test b i = Z.testbit (bits64 b) i.
Proof. intros. change (bm_test b i) with (bit_tst (bits64 b) i). by apply bit_tst_testbit. Qed.

#[export] Instance Bitmap64_laws : BitmapLaws W Bitmap64.
Proof.
  refine {| bm_wf := fun b : Bitmap64 => mword (bits64 b) |}; intros; rewrite ?b64_test by done;
    cbn [bits64 bm_new bm_setB bm_clrB bm_flpB bm_set bm_clr bm_flp bm_empty bm_full
         bm_find bm_findnext Bitmap64_ops].
  - lia.
  - unfold word; lia.
  - apply word_wnot; lia.
  - unfold word; lia.
  - apply word_wnot; lia.
  - by apply bit_set_word.
  - by apply bit_clr_word.
  - by apply bit_flp_word.
  - apply Z.testbit_0_l.
  - by apply wnot0_bits.
  - apply Z.testbit_0_l.
  - rewrite wnot_bits by lia. destruct (Z.ltb_spec i W); [done|lia].
  - apply bit_set_bits; lia.
  - apply bit_clr_bits; lia.
  - apply bit_flp_bits; lia.
  - rewrite word_zero_iff by done. apply all_bits_ext. intros. by rewrite b64_test.
  - rewrite word_full_iff by done. apply all_bits_ext. intros. by rewrite b64_test.
  - eapply bm_first_ext; [lia| |by apply lsb_find_first]. intros. by rewrite b64_test.
  - eapply bm_first_ext; [lia| |by apply lsb_masked_first]. intros. by rewrite b64_test.
Defined.

(** * [Bitmap<B>], [N = divup(B, 64)] words *)

Record BitmapN (N : nat) := mkBitmapN { bitsN : list Z }.
Arguments mkBitmapN {N} _.
Arguments bitsN {N} _.

(** The constructor [Bitmap(mword b = 0) : bits{b}]: the first word is [b],
    aggregate initialisation clears the others. *)
Definition bN_make {N} (b : Z) : BitmapN N := mkBitmapN (b :: replicate (N - 1) 0).
Definition bN_valid (N : nat) (idx : Z) : bool := idx <? Z.of_nat N * W.
Definition bN_filled {N} : BitmapN N := bN_make (wnot W 0).

Fixpoint BitmapEmptyHelper (X : nat) (bits : list Z) : Z :=
  match X with
  | O => word_at bits 0
  | S X' => Z.lor (word_at bits (Z.of_nat X)) (BitmapEmptyHelper X' bits)
  end.

Fixpoint BitmapFullHelper (X : nat) (bits : list Z) : Z :=
  match X with
  | O => word_at bits 0
  | S X' => Z.land (word_at bits (Z.of_nat X)) (BitmapFullHelper X' bits)
  end.

Fixpoint BitmapCountHelper (X : nat) (bits : list Z) : Z :=
  match X with
  | O => popcount (word_at bits 0)
  | S X' => wrap W (popcount (word_at bits (Z.of_nat X)) + BitmapCountHelper X' bits)
  end.

(** [bits[idx / 64]] replaced; outside the array (undefined behaviour in the
    source) nothing is written. *)
Definition word_upd (f : Z -> Z -> Z) (bits : list Z) (idx : Z) : list Z :=
  <[Z.to_nat (idx / W) := f (word_at bits (idx / W)) (idx mod W)]> bits.

#[export] Instance BitmapN_ops (N : nat) : BitmapOps (BitmapN N) := {
  bm_new := bN_make 0;
  bm_setB b := mkBitmapN (map (fun _ => wnot W 0) (bitsN b));
  bm_clrB b := mkBitmapN (map (fun _ => 0) (bitsN b));
  bm_flpB b := mkBitmapN (map (wnot W) (bitsN b));
  bm_set b idx := mkBitmapN (word_upd bit_set (bitsN b) idx);
  bm_clr b idx := mkBitmapN (word_upd bit_clr (bitsN b) idx);
  bm_flp b idx := mkBitmapN (word_upd bit_flp (bitsN b) idx);
  bm_test b idx := bit_tst (word_at (bitsN b) (idx / W)) (idx mod W);
  bm_empty b := BitmapEmptyHelper (N - 1) (bitsN b) =? 0;
  bm_full b := BitmapFullHelper (N - 1) (bitsN b) =? wnot W 0;
  bm_count b := BitmapCountHelper (N - 1) (bitsN b);
  bm_find b findset := multiscan 0 (bitsN b) findset;
  bm_findnext b idx findset := multiscan_next (bitsN b) idx findset;
}.

(** [filled()] sets the first word only: with several words it is not full. *)
Example filled_two_words : bm_full (bN_filled : BitmapN 2) = false /\
  bm_full (bm_setB (bN_filled : BitmapN 2)) = true.
Proof. done. Qed.

Section BitmapNLaws.
Context (N : nat) (HN : (1 <= N)%nat) (Hsize : Z.of_nat N * W < 2 ^ W).
Implicit Types (l : list Z).

Definition bN_wf (b : BitmapN N) : Prop := length (bitsN b) = N /\ words (bitsN b).

Lemma word_at_lookup l i : 0 <= i -> l !! Z.to_nat i = Some (word_at l i) \/ word_at l i = 0.
Proof.
  intros. unfold word_at. destruct (l !! Z.to_nat i) eqn:E.
  - left. by rewrite (nth_lookup_Some l _ 0 z).
  - right. rewrite nth_lookup. by rewrite E.
Qed.

Lemma word_at_lt l i : 0 <= i < Z.of_nat (length l) -> l !! Z.to_nat i = Some (word_at l i).
Proof.
  intros. unfold word_at. destruct (lookup_lt_is_Some_2 l (Z.to_nat i)) as [x Hx]; [lia|].
  by rewrite (nth_lookup_Some l _ 0 x).
Qed.

Lemma word_at_insert l i j x : 0 <= i < Z.of_nat (length l) -> 0 <= j ->
  word_at (<[Z.to_nat i := x]> l) j = if i =? j then x else word_at l j.
Proof.
  intros Hi Hj. unfold word_at. rewrite !nth_lookup. destruct (Z.eqb_spec i j) as [->|Hne].
  - by rewrite list_lookup_insert_eq by lia.
  - by rewrite list_lookup_insert_ne by lia.
Qed.

Lemma word_at_map f l i : 0 <= i < Z.of_nat (length l) -> word_at (map f l) i = f (word_at l i).
Proof.
  intros Hi. pose proof (word_at_lt l i Hi) as Hl. unfold word_at at 1.
  rewrite nth_lookup. change (map f l) with (f <$> l). by rewrite list_lookup_fmap, Hl.
Qed.

Lemma word_upd_bits f l i j : words l -> 0 <= i < Z.of_nat (length l) * W ->
  0 <= j < Z.of_nat (length l) * W ->
  array_bit (word_upd f l i) j =
  if i / W =? j / W then Z.testbit (f (word_at l (j / W)) (i mod W)) (j mod W) else array_bit l j.
Proof.
  intros Hl Hi Hj. destruct (split_pos i _ Hi) as (Hi1 & Hi2 & _).
  destruct (split_pos j _ Hj) as (Hj1 & Hj2 & _).
  unfold array_bit, word_upd. rewrite word_at_insert by lia.
  destruct (Z.eqb_spec (i / W) (j / W)) as [->|]; done.
Qed.

Lemma word_upd_wf f (b : BitmapN N) i :
  bN_wf b -> 0 <= i -> (forall x k, mword x -> 0 <= k < W -> mword (f x k)) ->
  bN_wf (mkBitmapN (word_upd f (bitsN b) i)).
Proof.
  intros [Hlen Hw] Hi Hf. split; unfold word_upd; cbn [bitsN].
  - by rewrite length_insert.
  - apply Forall_insert; [done|]. apply Hf; [by apply words_word_at|by apply Z.mod_pos_bound].
Qed.

Lemma bN_test (b : BitmapN N) i : bN_wf b -> 0 <= i -> bm_test b i = array_bit (bitsN b) i.
Proof.
  intros Hb Hi. cbn [bm_test BitmapN_ops]. unfold array_bit.
  apply bit_tst_testbit. apply Z.mod_pos_bound. lia.
Qed.

Lemma helper_empty_bits (l : list Z) X i : 0 <= i -> Z.testbit (BitmapEmptyHelper X l) i = false <->
  forall k, 0 <= k <= Z.of_nat X -> Z.testbit (word_at l k) i = false.
Proof.
  intros Hi. induction X as [|X IH]; cbn [BitmapEmptyHelper].
  - split; [intros H k Hk; by replace k with 0 by lia|intros H; apply H; lia].
  - rewrite Z.lor_spec, orb_false_iff, IH. split.
    + intros [H1 H2] k Hk. destruct (Z.eq_dec k (Z.of_nat (S X))) as [->|]; [done|apply H2; lia].
    + intros H. split; [apply H; lia|]. intros k Hk. apply H. lia.
Qed.

Lemma helper_full_bits (l : list Z) X i : 0 <= i -> Z.testbit (BitmapFullHelper X l) i = true <->
  forall k, 0 <= k <= Z.of_nat X -> Z.testbit (word_at l k) i = true.
Proof.
  intros Hi. induction X as [|X IH]; cbn [BitmapFullHelper].
  - split; [intros H k Hk; by replace k with 0 by lia|intros H; apply H; lia].
  - rewrite Z.land_spec, andb_true_iff, IH. split.
    + intros [H1 H2] k Hk. destruct (Z.eq_dec k (Z.of_nat (S X))) as [->|]; [done|apply H2; lia].
    + intros H. split; [apply H; lia|]. intros k Hk. apply H. lia.
Qed.

Lemma helper_empty_word l X : words l -> mword (BitmapEmptyHelper X l).
Proof.
  intros Hl. induction X as [|X IH]; cbn [BitmapEmptyHelper]; [by apply words_word_at|].
  apply word_or; [by apply words_word_at|done].
Qed.

Lemma helper_full_word l X : words l -> mword (BitmapFullHelper X l).
Proof.
  intros Hl. induction X as [|X IH]; cbn [BitmapFullHelper]; [by apply words_word_at|].
  apply word_land; [lia|by apply words_word_at|apply IH].
Qed.

(** All bits of an array, word by word. *)
Lemma array_bits_all l (b : bool) : (1 <= length l)%nat ->
  (forall i, 0 <= i < W -> forall k, 0 <= k <= Z.of_nat (length l - 1) ->
     Z.testbit (word_at l k) i = b) <->
  (forall i, 0 <= i < Z.of_nat (length l) * W -> array_bit l i = b).
Proof.
  intros Hlen. split; intros H.
  - intros i Hi. destruct (split_pos i _ Hi) as (H1 & H2 & _). apply H; lia.
  - intros i Hi k Hk. specialize (H (W * k + i) ltac:(lia)). unfold array_bit in H.
    replace ((W * k + i) / W) with k in H by (Z.to_euclidean_division_equations; lia).
    replace ((W * k + i) mod W) with i in H by (Z.to_euclidean_division_equations; lia). done.
Qed.

Let B := Z.of_nat N * W.

Lemma bN_test_upd f g (b : BitmapN N) i j :
  bN_wf b -> 0 <= i < B -> 0 <= j < B ->
  (forall x k m, mword x -> 0 <= k < W -> 0 <= m < W -> mword (f x k) /\
     Z.testbit (f x k) m = g (m =? k) (Z.testbit x m)) ->
  (forall t, g false t = t) ->
  bm_test (mkBitmapN (word_upd f (bitsN b) i) : BitmapN N) j = g (j =? i) (bm_test b j).
Proof using HN Hsize.
  intros Hb Hi Hj Hf Hg. unfold B in *.
  assert (Hwf : bN_wf (mkBitmapN (word_upd f (bitsN b) i)))
    by (apply word_upd_wf; [done|lia|]; intros x k Hx Hk; by apply (Hf x k 0)).
  rewrite !bN_test by (done || lia). destruct Hb as [Hlen Hw]. cbn [bitsN].
  rewrite word_upd_bits by (rewrite ?Hlen; done).
  destruct (split_pos i _ Hi) as (Hi1 & Hi2 & Hi3), (split_pos j _ Hj) as (Hj1 & Hj2 & Hj3).
  destruct (Z.eqb_spec (i / W) (j / W)) as [He|Hne].
  - destruct (Hf (word_at (bitsN b) (j / W)) (i mod W) (j mod W)) as [_ ->];
      [by apply words_word_at|done..|].
    f_equal. destruct (Z.eqb_spec (j mod W) (i mod W)), (Z.eqb_spec j i); lia || congruence.
  - destruct (Z.eqb_spec j i) as [->|]; [done|]. by rewrite Hg.
Qed.

Lemma bN_test_map f (b : BitmapN N) i (g : bool -> bool) : bN_wf b -> 0 <= i < B ->
  (forall x k, mword x -> 0 <= k < W -> mword (f x) /\ Z.testbit (f x) k = g (Z.testbit x k)) ->
  bN_wf (mkBitmapN (map f (bitsN b))) /\
  bm_test (mkBitmapN (map f (bitsN b)) : BitmapN N) i = g (bm_test b i).
Proof using HN Hsize.
  intros Hb Hi Hf. unfold B in *.
  assert (Hwf : bN_wf (mkBitmapN (map f (bitsN b)))).
  { destruct Hb as [Hlen Hw]. split; cbn [bitsN]; [by rewrite length_map|].
    apply Forall_fmap. refine (List.Forall_impl _ _ Hw). intros x Hx. by apply (Hf x 0). }
  split; [done|]. rewrite !bN_test by (done || lia). destruct Hb as [Hlen Hw]. cbn [bitsN].
  destruct (split_pos i _ Hi) as (H1 & H2 & _). unfold array_bit.
  rewrite word_at_map by lia. apply Hf; [by apply words_word_at|done].
Qed.

Lemma bN_wf_map f (b : BitmapN N) : bN_wf b -> (forall x, mword x -> mword (f x)) ->
  bN_wf (mkBitmapN (map f (bitsN b))).
Proof using.
  intros [Hlen Hw] Hf. split; cbn [bitsN]; [by rewrite length_map|].
  apply Forall_fmap. exact (List.Forall_impl _ Hf Hw).
Qed.

Lemma bN_first (b : BitmapN N) fs idx r : bN_wf b -> 0 <= idx ->
  first_from (bitsN b) fs idx r -> bm_first B (bm_test b) fs idx r.
Proof using HN Hsize.
  intros Hb Hidx (H0 & H1 & H2). destruct Hb as [Hlen Hw] eqn:E; clear E. unfold B.
  rewrite Hlen in *. split; [done|split].
  - intros i Hi. specialize (H1 i Hi). rewrite array_bit_field in H1 by (done || lia).
    rewrite bN_test by (done || lia). by destruct fs, (array_bit (bitsN b) i).
  - intros Hr. specialize (H2 Hr). rewrite array_bit_field in H2 by (done || lia).
    rewrite bN_test by (done || lia). by destruct fs, (array_bit (bitsN b) r).
Qed.

Lemma bN_wf_new : bN_wf bm_new.
Proof using HN.
  split; cbn; [rewrite length_replicate; lia|].
  constructor; [unfold word; lia|]. apply Forall_replicate. unfold word; lia.
Qed.

Lemma bN_test_new i : 0 <= i < B -> bm_test (bm_new : BitmapN N) i = false.
Proof using HN Hsize.
  intros Hi. unfold B in Hi. rewrite bN_test by (apply bN_wf_new || lia).
  unfold array_bit. replace (word_at _ (i / W)) with 0; [apply Z.testbit_0_l|].
  unfold word_at. cbn. destruct (Z.to_nat (i / W)) as [|n]; [done|]. symmetry.
  apply nth_replicate_eq || (rewrite nth_lookup; destruct (replicate _ _ !! _) eqn:E;
    [by apply lookup_replicate in E as [-> _]|done]).
Qed.

#[export] Instance BitmapN_laws : BitmapLaws B (BitmapN N).
Proof using HN Hsize.
  refine {| bm_wf := bN_wf |}; intros.
  - unfold B; lia.
  - apply bN_wf_new.
  - apply bN_wf_map; [done|]. intros. apply word_wnot; lia.
  - apply bN_wf_map; [done|]. unfold word; lia.
  - apply bN_wf_map; [done|]. intros. apply word_wnot; lia.
  - apply word_upd_wf; [done|lia|]. intros. by apply bit_set_word.
  - apply word_upd_wf; [done|lia|]. intros. by apply bit_clr_word.
  - apply word_upd_wf; [done|lia|]. intros. by apply bit_flp_word.
  - by apply bN_test_new.
  - apply (bN_test_map (fun _ => wnot W 0) b i (fun _ => true)); [done..|].
    intros. split; [apply word_wnot; lia|by apply wnot0_bits].
  - apply (bN_test_map (fun _ => 0) b i (fun _ => false)); [done..|].
    intros. split; [unfold word; lia|apply Z.testbit_0_l].
  - apply (bN_test_map (wnot W) b i negb); [done..|]. intros x k Hx Hk.
    split; [apply word_wnot; lia|]. rewrite wnot_bits by lia.
    destruct (Z.ltb_spec k W); [done|lia].
  - apply (bN_test_upd bit_set orb); [done..| |done]. intros.
    split; [by apply bit_set_word|apply bit_set_bits; lia].
  - apply (bN_test_upd bit_clr (fun e t => negb e && t)); [done..| |done]. intros.
    split; [by apply bit_clr_word|apply bit_clr_bits; lia].
  - rewrite xorb_comm.
    apply (bN_test_upd bit_flp xorb); [done..| |by intros []]. intros.
    split; [by apply bit_flp_word|]. rewrite bit_flp_bits by lia. apply xorb_comm.
  - destruct H as [Hlen Hw] eqn:E; clear E. cbn [bm_empty BitmapN_ops].
    rewrite word_zero_iff by (by apply helper_empty_word).
    setoid_rewrite <- (all_bits_ext B (array_bit (bitsN b))); [|intros; symmetry; apply bN_test; [done|lia]].
    assert (Z.of_nat (length (bitsN b)) * W = B) as <- by (unfold B; by rewrite Hlen).
    rewrite <- array_bits_all by lia. rewrite Hlen.
    split; intros Hb i Hi; apply helper_empty_bits; try lia; auto.
  - destruct H as [Hlen Hw] eqn:E; clear E. cbn [bm_full BitmapN_ops].
    rewrite word_full_iff by (by apply helper_full_word).
    setoid_rewrite <- (all_bits_ext B (array_bit (bitsN b))); [|intros; symmetry; apply bN_test; [done|lia]].
    assert (Z.of_nat (length (bitsN b)) * W = B) as <- by (unfold B; by rewrite Hlen).
    rewrite <- array_bits_all by lia. rewrite Hlen.
    split; intros Hb i Hi; apply helper_full_bits; try lia; auto.
  - cbn [bm_find BitmapN_ops]. destruct H as [Hlen Hw] eqn:E; clear E.
    rewrite multiscan_asm_portable by (rewrite ?Hlen; done).
    apply bN_first; [done|lia|]. rewrite multiscan_next_eq by (rewrite ?Hlen; done || lia).
    apply masked_scan; [done|rewrite Hlen; lia].
  - cbn [bm_findnext BitmapN_ops]. destruct H as [Hlen Hw] eqn:E; clear E. unfold B in H0.
    apply bN_first; [done|lia|]. rewrite multiscan_next_eq by (rewrite ?Hlen; done || lia).
    apply masked_scan; [done|rewrite Hlen; lia].
Defined.
End BitmapNLaws.

(** * [HierarchicalBitmap<W,B>]

    The width parameters are [logw] (the template parameter [W], log2 of the
    maximum width) and [B]; [bitmaps[l]] is the array of bitmaps of level [l],
    level 0 holds the set itself. *)

Record HierarchicalBitmap (bm : Type) := mkHB { bitmaps : list (list bm); maxBucketCount : Z }.
Arguments mkHB {bm} _ _.
Arguments bitmaps {bm} _.
Arguments maxBucketCount {bm} _.

Definition logB (B : Z) : Z := floorlog2 W B.
Definition Levels (logw B : Z) : Z := divup W logw (logB B).

(** [limit<size_t>()], the result of a search that finds nothing. *)
Definition not_found : Z := limit W.

Section Hierarchical.
Context {bm : Type} `{BitmapOps bm} (B : Z).

Local Abbreviation hb := (HierarchicalBitmap bm).

(** [bitmaps[l][i]]; outside the arrays (undefined behaviour in the source)
    reads give an empty bitmap and writes are dropped. *)
Definition get_bm (row : list bm) (i : Z) : bm := default bm_new (row !! Z.to_nat i).
Definition put_bm (row : list bm) (i : Z) (b : bm) : list bm := <[Z.to_nat i := b]> row.

(** [memsize]: number of elementary bitmaps for [bitcount] bits, with the
    bit count the loop ends with (asserted to be 1). *)
Fixpoint memsize_loop (levels : nat) (bitcount mapcount : Z) : Z * Z :=
  match levels with
  | O => (mapcount, bitcount)
  | S n =>
      let bitcount := divup W bitcount B in
      memsize_loop n bitcount (wrap W (mapcount + bitcount))
  end.
Definition memsize (logw bitcount : Z) : option Z :=
  let '(mapcount, bitcount) := memsize_loop (Z.to_nat (Levels logw B)) bitcount 0 in
  rassert (bitcount =? 1);; Some mapcount.

(** [init] on cleared memory. *)
Fixpoint init_loop (levels : nat) (bitcount : Z) : list (list bm) * Z :=
  match levels with
  | O => ([], bitcount)
  | S n =>
      let bitcount := divup W bitcount B in
      let '(rows, last) := init_loop n bitcount in
      (replicate (Z.to_nat bitcount) bm_new :: rows, last)
  end.
Definition hb_init (logw bitcount : Z) : option hb :=
  let '(rows, last) := init_loop (Z.to_nat (Levels logw B)) bitcount in
  rassert (last =? 1);; Some (mkHB rows (divup W bitcount B)).

(** [set] and [clr] from level [botlevel] on: the loop over the levels. *)
Fixpoint set_levels (rows : list (list bm)) (idx : Z) : list (list bm) :=
  match rows with
  | [] => []
  | row :: rows' =>
      let r := idx mod B in
      let idx := idx / B in
      if bm_test (get_bm row idx) r then row :: rows'
      else put_bm row idx (bm_set (get_bm row idx) r) :: set_levels rows' idx
  end.
Definition hb_set (h : hb) (idx : Z) (botlevel : nat) : hb :=
  mkHB (take botlevel (bitmaps h) ++ set_levels (drop botlevel (bitmaps h)) idx)
       (maxBucketCount h).

Fixpoint clr_levels (rows : list (list bm)) (idx : Z) : list (list bm) :=
  match rows with
  | [] => []
  | row :: rows' =>
      let r := idx mod B in
      let idx := idx / B in
      let b := bm_clr (get_bm row idx) r in
      if negb (bm_empty b) then put_bm row idx b :: rows'
      else put_bm row idx b :: clr_levels rows' idx
  end.
Definition hb_clr (h : hb) (idx : Z) (botlevel : nat) : hb :=
  mkHB (take botlevel (bitmaps h) ++ clr_levels (drop botlevel (bitmaps h)) idx)
       (maxBucketCount h).

Definition row_of (h : hb) (l : nat) : list bm := default [] (bitmaps h !! l).

Definition hb_blockset (h : hb) (idx : Z) : hb :=
  let row := row_of h 0 in
  hb_set (mkHB (<[0%nat := put_bm row (idx / B) (bm_setB (get_bm row (idx / B)))]> (bitmaps h))
               (maxBucketCount h)) (idx / B) 1.
Definition hb_blockclr (h : hb) (idx : Z) : hb :=
  let row := row_of h 0 in
  hb_clr (mkHB (<[0%nat := put_bm row (idx / B) (bm_clrB (get_bm row (idx / B)))]> (bitmaps h))
               (maxBucketCount h)) (idx / B) 1.

Definition hb_test (h : hb) (idx : Z) : bool := bm_test (get_bm (row_of h 0) (idx / B)) (idx mod B).
Definition hb_empty (h : hb) : bool := bm_empty (get_bm (row_of h (length (bitmaps h) - 1)) 0).
Definition hb_blockempty (h : hb) (idx : Z) : bool := bm_empty (get_bm (row_of h 0) (idx / B)).
Definition hb_blockfull (h : hb) (idx : Z) : bool := bm_full (get_bm (row_of h 0) (idx / B)).

(** [find]: from the top level down; [None] is the early [return limit]. *)
Fixpoint find_down (down : list (list bm)) (idx : Z) : option Z :=
  match down with
  | [] => Some idx
  | row :: down' =>
      let ldx := bm_find (get_bm row idx) true in
      if ldx =? B then None else find_down down' (idx * B + ldx)
  end.
Definition hb_find (h : hb) : Z := default not_found (find_down (rev (bitmaps h)) 0).

(** [findnext]: the loop with its variables [l], [bidx], [ridx], [mbc];
    [None] when the fuel runs out. *)
Fixpoint findnext_loop (fuel : nat) (h : hb) (l : nat) (bidx ridx mbc : Z) : option Z :=
  match fuel with
  | O => None
  | S fuel =>
      let lidx := bm_findnext (get_bm (row_of h l) bidx) ridx true in
      if lidx =? B then
        if mbc <=? bidx + 1 then Some not_found
        else findnext_loop fuel h (S l) ((bidx + 1) / B) ((bidx + 1) mod B) (mbc / B)
      else
        let bidx := bidx * B + lidx in
        match l with
        | O => Some bidx
        | S l' => findnext_loop fuel h l' bidx 0 (mbc * B)
        end
  end.
Definition hb_findnext (h : hb) (idx : Z) : option Z :=
  findnext_loop (2 * length (bitmaps h) + 1) h 0 (idx / B) (idx mod B) (maxBucketCount h).
End Hierarchical.

Section HierarchicalLaws.
Context {bm : Type} {B : Z} `{HL : BitmapLaws B bm}.
Implicit Types (row : list bm) (rows : list (list bm)) (h : HierarchicalBitmap bm).

Definition hd_row rows : list bm := match rows with [] => [] | row :: _ => row end.

(** Bit [i] of a level. *)
Definition rbit row (i : Z) : bool := bm_test (get_bm row (i / B)) (i mod B).
Definition row_size row : Z := Z.of_nat (length row) * B.

(** The summary invariant, from a level up. *)
Fixpoint hinv rows : Prop :=
  match rows with
  | [] => True
  | row :: rest =>
      Forall bm_wf row /\
      match rest with
      | [] => length row = 1%nat
      | row' :: _ =>
          Z.of_nat (length row) <= row_size row' /\
          forall j, 0 <= j < row_size row' -> rbit row' j = negb (bm_empty (get_bm row j))
      end /\
      hinv rest
  end.
Definition hb_inv h : Prop := bitmaps h <> [] /\ hinv (bitmaps h).

(** The set a hierarchical bitmap represents. *)
Definition hb_size h : Z := row_size (row_of h 0).

Let B_pos : 0 < B := bm_B_pos.

Lemma hpos i n : 0 <= i < n * B ->
  0 <= i / B < n /\ 0 <= i mod B < B /\ i = B * (i / B) + i mod B.
Proof using B_pos.
  intros Hi. split; [split|split].
  - apply Z.div_pos; lia.
  - apply Z.div_lt_upper_bound; lia.
  - by apply Z.mod_pos_bound.
  - apply Z.div_mod. lia.
Qed.

Lemma pos_div_mod q r : 0 <= r < B -> (q * B + r) / B = q /\ (q * B + r) mod B = r.
Proof using B_pos.
  intros. split; symmetry.
  - apply (Z.div_unique_pos _ _ _ r); lia.
  - apply (Z.mod_unique_pos _ _ q); lia.
Qed.

Lemma get_bm_wf row i : Forall bm_wf row -> bm_wf (get_bm row i).
Proof.
  intros Hrow. unfold get_bm. destruct (row !! Z.to_nat i) as [b|] eqn:E; simpl.
  - by eapply Forall_lookup_1.
  - apply bm_wf_new.
Qed.

Lemma put_bm_wf row i b : Forall bm_wf row -> bm_wf b -> Forall bm_wf (put_bm row i b).
Proof. intros. by apply Forall_insert. Qed.

Lemma put_bm_length row i b : length (put_bm row i b) = length row.
Proof. apply length_insert. Qed.

Lemma get_put_bm row i j b : 0 <= i < Z.of_nat (length row) -> 0 <= j ->
  get_bm (put_bm row i b) j = if i =? j then b else get_bm row j.
Proof.
  intros Hi Hj. unfold get_bm, put_bm. destruct (Z.eqb_spec i j) as [->|Hne].
  - by rewrite list_lookup_insert_eq by lia.
  - by rewrite list_lookup_insert_ne by lia.
Qed.

Lemma bm_empty_new : bm_empty bm_new = true.
Proof. apply bm_empty_spec; [apply bm_wf_new|]. apply bm_test_new. Qed.

Lemma get_bm_beyond row j : Z.of_nat (length row) <= j -> get_bm row j = bm_new.
Proof. intros. unfold get_bm. by rewrite lookup_ge_None_2 by lia. Qed.

Lemma nonempty_iff b : bm_wf b ->
  bm_empty b = false <-> exists r, 0 <= r < B /\ bm_test b r = true.
Proof.
  intros Hb. split.
  - intros He. pose proof (bm_find_spec b true Hb) as (H0 & H1 & H2).
    destruct (Z.eq_dec (bm_find b true) B) as [E|].
    + assert (bm_empty b = true); [|congruence].
      apply bm_empty_spec; [done|]. intros i Hi. apply H1. lia.
    + exists (bm_find b true). split; [lia|]. apply H2. lia.
  - intros (r & Hr & Ht). destruct (bm_empty b) eqn:E; [|done].
    rewrite bm_empty_spec in E by done. rewrite E in Ht by done. done.
Qed.

Lemma nonempty_mono b b' : bm_wf b -> bm_wf b' ->
  (forall r, 0 <= r < B -> bm_test b r = true -> bm_test b' r = true) ->
  bm_empty b = false -> bm_empty b' = false.
Proof.
  intros Hb Hb' Hm. rewrite !nonempty_iff by done. intros (r & Hr & Ht). eauto.
Qed.

(** One elementary bitmap replaced. *)
Lemma rbit_put row i b j : 0 <= i < Z.of_nat (length row) -> 0 <= j < row_size row ->
  rbit (put_bm row i b) j = if i =? j / B then bm_test b (j mod B) else rbit row j.
Proof.
  intros Hi Hj. destruct (hpos j _ Hj) as (H1 & _ & _). unfold rbit.
  rewrite get_put_bm by lia. by destruct (Z.eqb_spec i (j / B)).
Qed.

Lemma rbit_set row i j : Forall bm_wf row -> 0 <= i < row_size row -> 0 <= j < row_size row ->
  rbit (put_bm row (i / B) (bm_set (get_bm row (i / B)) (i mod B))) j = (j =? i) || rbit row j.
Proof.
  intros Hw Hi Hj. destruct (hpos i _ Hi) as (Hi1 & Hi2 & Hi3), (hpos j _ Hj) as (Hj1 & Hj2 & Hj3).
  rewrite rbit_put by done. destruct (Z.eqb_spec (i / B) (j / B)) as [He|Hne].
  - rewrite bm_test_set by (done || by apply get_bm_wf). unfold rbit. rewrite <- He. f_equal.
    destruct (Z.eqb_spec (j mod B) (i mod B)), (Z.eqb_spec j i); congruence || nia.
  - destruct (Z.eqb_spec j i) as [->|]; done.
Qed.

Lemma rbit_clr row i j : Forall bm_wf row -> 0 <= i < row_size row -> 0 <= j < row_size row ->
  rbit (put_bm row (i / B) (bm_clr (get_bm row (i / B)) (i mod B))) j = negb (j =? i) && rbit row j.
Proof.
  intros Hw Hi Hj. destruct (hpos i _ Hi) as (Hi1 & Hi2 & Hi3), (hpos j _ Hj) as (Hj1 & Hj2 & Hj3).
  rewrite rbit_put by done. destruct (Z.eqb_spec (i / B) (j / B)) as [He|Hne].
  - rewrite bm_test_clr by (done || by apply get_bm_wf). unfold rbit. rewrite <- He. f_equal.
    destruct (Z.eqb_spec (j mod B) (i mod B)), (Z.eqb_spec j i); congruence || nia.
  - destruct (Z.eqb_spec j i) as [->|]; done.
Qed.

(** A level whose bitmap [k] changed to [b], below a level whose summary bit
    [k] is brought up to date, keeps the invariant. *)
Lemma hinv_update row row' rest rest' k b :
  hinv (row :: row' :: rest) -> 0 <= k < Z.of_nat (length row) -> bm_wf b ->
  hinv rest' ->
  (exists row1 rest1, rest' = row1 :: rest1 /\ length row1 = length row' /\
     forall j, 0 <= j < row_size row' -> rbit row1 j =
       if j =? k then negb (bm_empty b) else rbit row' j) ->
  hinv (put_bm row k b :: rest').
Proof.
  intros (Hw & (Hlen & Hsum) & _) Hk Hb Hr (row1 & rest1 & -> & Hl1 & Hb1).
  split; [by apply put_bm_wf|]. split; [|done].
  assert (row_size row1 = row_size row') as Hs by (unfold row_size; by rewrite Hl1).
  rewrite put_bm_length, Hs. split; [done|]. intros j Hj.
  rewrite Hb1, get_put_bm by lia. rewrite (Z.eqb_sym k j).
  destruct (Z.eqb_spec j k); [done|]. by apply Hsum.
Qed.

(** Setting a bit at the bottom of a stack of levels. *)
Lemma set_levels_spec rows idx :
  hinv rows -> rows <> [] -> 0 <= idx < row_size (hd_row rows) ->
  hinv (set_levels B rows idx) /\
  length <$> set_levels B rows idx = length <$> rows /\
  forall j, 0 <= j < row_size (hd_row rows) ->
    rbit (hd_row (set_levels B rows idx)) j = (j =? idx) || rbit (hd_row rows) j.
Proof.
  revert idx. induction rows as [|row rest IH]; intros idx Hi Hne Hidx; [done|].
  cbn [hd_row] in *. destruct (hpos idx _ Hidx) as (Hq & Hr & Hqr).
  cbn [set_levels]. destruct (bm_test _ _) eqn:Ht; cbn [hd_row].
  { split; [done|]. split; [done|]. intros j Hj. destruct (Z.eqb_spec j idx) as [->|]; [|done].
    exact Ht. }
  set (b := bm_set _ _).
  assert (Hb : bm_wf b) by (apply bm_wf_set; [apply get_bm_wf, Hi|done]).
  assert (Hbit : forall j, 0 <= j < row_size row ->
    rbit (put_bm row (idx / B) b) j = (j =? idx) || rbit row j)
    by (intros; apply rbit_set; [apply Hi|done..]).
  assert (Hbe : bm_empty b = false).
  { apply nonempty_iff; [done|]. exists (idx mod B). split; [done|].
    unfold b. rewrite bm_test_set by (done || apply get_bm_wf, Hi). by rewrite Z.eqb_refl. }
  destruct rest as [|row' rest].
  { split; [|split; [cbn; by rewrite put_bm_length|done]].
    destruct Hi as (Hw & Hl & _). split; [by apply put_bm_wf|].
    split; [by rewrite put_bm_length|done]. }
  pose proof Hi as (Hw & (Hlen & Hsum) & Hrest).
  destruct (IH (idx / B)) as (IH1 & IH2 & IH3); [done|done|split; [lia|]; eapply Z.lt_le_trans; [apply Hq|exact Hlen]|].
  cbn [hd_row] in IH3.
  split; [|split; [cbn [fmap list_fmap]; rewrite put_bm_length; f_equal; exact IH2|done]].
  apply (hinv_update row row' rest); [done..|]. rewrite Hbe.
  destruct (set_levels B (row' :: rest) (idx / B)) as [|row1 rest1] eqn:E;
    [cbn in E; destruct (bm_test _ _); done|].
  exists row1, rest1. split; [done|]. injection IH2 as Hl1 _. split; [done|].
  intros j Hj. rewrite IH3 by done. by destruct (j =? idx / B).
Qed.

Lemma clr_levels_spec rows idx :
  hinv rows -> rows <> [] -> 0 <= idx < row_size (hd_row rows) ->
  hinv (clr_levels B rows idx) /\
  length <$> clr_levels B rows idx = length <$> rows /\
  forall j, 0 <= j < row_size (hd_row rows) ->
    rbit (hd_row (clr_levels B rows idx)) j
    = negb (j =? idx) && rbit (hd_row rows) j.
Proof.
  revert idx. induction rows as [|row rest IH]; intros idx Hi Hne Hidx; [done|].
  cbn [hd_row] in *. destruct (hpos idx _ Hidx) as (Hq & Hr & Hqr).
  cbn [clr_levels]. set (b := bm_clr _ _).
  assert (Hw : Forall bm_wf row) by apply Hi.
  assert (Hb : bm_wf b) by (apply bm_wf_clr; [by apply get_bm_wf|done]).
  assert (Hbit : forall j, 0 <= j < row_size row ->
    rbit (put_bm row (idx / B) b) j = negb (j =? idx) && rbit row j)
    by (intros; by apply rbit_clr).
  destruct rest as [|row' rest].
  { destruct Hi as (_ & Hl & _).
    assert (hinv [put_bm row (idx / B) b])
      by (split; [by apply put_bm_wf|split; [by rewrite put_bm_length|done]]).
    destruct (negb _); cbn [clr_levels]; (split; [done|split; [cbn; by rewrite put_bm_length|done]]). }
  pose proof Hi as (_ & (Hlen & Hsum) & Hrest).
  assert (Hk : 0 <= idx / B < row_size row')
    by (split; [lia|]; eapply Z.lt_le_trans; [apply Hq|exact Hlen]).
  destruct (bm_empty b) eqn:Hbe; cbn [negb hd_row].
  - destruct (IH (idx / B)) as (IH1 & IH2 & IH3); [done..|]. cbn [hd_row] in IH3.
    split; [|split; [cbn [fmap list_fmap]; rewrite put_bm_length; f_equal; exact IH2|done]].
    apply (hinv_update row row' rest); [done..|]. rewrite Hbe.
    destruct (clr_levels B (row' :: rest) (idx / B)) as [|row1 rest1] eqn:E;
      [cbn in E; destruct (negb _); done|].
    exists row1, rest1. split; [done|]. injection IH2 as Hl1 _. split; [done|].
    intros j Hj. rewrite IH3 by done. by destruct (j =? idx / B).
  - split; [|split; [cbn [fmap list_fmap]; by rewrite put_bm_length|done]].
    apply (hinv_update row row' rest); [done..|]. rewrite Hbe. exists row', rest.
    split; [done|]. split; [done|]. intros j Hj.
    destruct (Z.eqb_spec j (idx / B)) as [->|]; [|done]. rewrite Hsum by done.
    apply negb_true_iff. revert Hbe. apply nonempty_mono; [done|by apply get_bm_wf|].
    intros r Hr'. unfold b. rewrite bm_test_clr by (done || by apply get_bm_wf).
    intros Ht. by apply andb_true_iff in Ht as [_ Ht].
Qed.

Lemma find_down_app l1 l2 i :
  find_down B (l1 ++ l2) i = (i' ← find_down B l1 i; find_down B l2 i').
Proof using.
  revert i. induction l1 as [|r l1 IH]; intros i; [done|]. cbn [app find_down].
  destruct (_ =? B); [done|apply IH].
Qed.

(** What a search over a level from position [p] returns. *)
Definition level_first row (p : Z) (o : option Z) : Prop :=
  match o with
  | Some i => p <= i < row_size row /\ rbit row i = true /\ forall j, p <= j < i -> rbit row j = false
  | None => forall j, p <= j < row_size row -> rbit row j = false
  end.

Lemma rbit_bm row q r : 0 <= r < B -> rbit row (q * B + r) = bm_test (get_bm row q) r.
Proof. intros Hr. unfold rbit. by destruct (pos_div_mod q r Hr) as [-> ->]. Qed.

(** Searching one elementary bitmap from its bit [r]. *)
Lemma findnext_bm row q r :
  Forall bm_wf row -> 0 <= q < Z.of_nat (length row) -> 0 <= r < B ->
  let lidx := bm_findnext (get_bm row q) r true in
  r <= lidx <= B /\
  (forall j, q * B + r <= j < q * B + lidx -> rbit row j = false) /\
  (lidx < B -> rbit row (q * B + lidx) = true).
Proof.
  intros Hw Hq Hr. destruct (bm_findnext_spec (get_bm row q) r true) as (H0 & H1 & H2);
    [by apply get_bm_wf|done|]. cbn zeta. split; [done|split].
  - intros j Hj. replace j with (q * B + (j - q * B)) by lia. rewrite rbit_bm by lia.
    apply H1. lia.
  - intros Hl. rewrite rbit_bm by lia. by apply H2.
Qed.

(** Empty bitmaps of a level hold no bits. *)
Lemma summary_zero row row' j :
  Forall bm_wf row -> 0 <= j < row_size row ->
  (forall k, 0 <= k < row_size row' -> rbit row' k = negb (bm_empty (get_bm row k))) ->
  j / B < row_size row' -> rbit row' (j / B) = false -> rbit row j = false.
Proof.
  intros Hw Hj Hsum Hlt Hz. destruct (hpos j _ Hj) as (Hq & Hr & _).
  rewrite Hsum in Hz by (split; [apply Hq|done]). apply negb_false_iff in Hz.
  rewrite bm_empty_spec in Hz by (by apply get_bm_wf). by apply Hz.
Qed.

Lemma level_first_lower row p p' o : level_first row p o -> p' <= p ->
  (forall j, p' <= j < p -> rbit row j = false) -> level_first row p' o.
Proof using.
  intros Ho Hp Hz. destruct o as [i|]; cbn [level_first] in *.
  - destruct Ho as (H1 & H2 & H3). split; [lia|]. split; [done|]. intros j Hj.
    destruct (Z.lt_ge_cases j p); [apply Hz; lia|apply H3; lia].
  - intros j Hj. destruct (Z.lt_ge_cases j p); [apply Hz; lia|apply Ho; lia].
Qed.

(** One step down: from the lowest nonempty bitmap to its lowest bit. *)
Lemma level_first_down row row' p o :
  Forall bm_wf row -> Z.of_nat (length row) <= row_size row' -> 0 <= p ->
  (forall k, 0 <= k < row_size row' -> rbit row' k = negb (bm_empty (get_bm row k))) ->
  level_first row' p o ->
  level_first row (p * B) (i ← o; find_down B [row] i).
Proof.
  intros Hw Hlen Hp Hsum. destruct o as [i|]; cbn [level_first mbind option_bind].
  - intros (Hi & Ht & Hz). rewrite Hsum in Ht by lia. apply negb_true_iff in Ht.
    assert (Hil : i < Z.of_nat (length row)).
    { destruct (Z.lt_ge_cases i (Z.of_nat (length row))); [done|].
      rewrite get_bm_beyond, bm_empty_new in Ht by done. done. }
    pose proof (get_bm_wf row i Hw) as Hwf. cbn [find_down].
    destruct (bm_find_spec (get_bm row i) true Hwf) as (H0 & H1 & H2).
    destruct (Z.eqb_spec (bm_find (get_bm row i) true) B) as [E|Hne].
    { apply nonempty_iff in Ht as (r & Hr & Htr); [|done]. rewrite H1 in Htr by lia. done. }
    set (r := bm_find _ _) in *. cbn [level_first]. split; [unfold row_size in *; nia|].
    split; [rewrite rbit_bm by lia; apply H2; lia|]. intros j Hj.
    destruct (hpos j (Z.of_nat (length row))) as (Hq & Hrr & Hjeq); [unfold row_size in *; nia|].
    destruct (Z.lt_ge_cases (j / B) i) as [Hlt|Hge].
    + apply (summary_zero row row'); [done|unfold row_size in *; nia|done|lia|].
      apply Hz. split; [|done]. apply Z.div_le_lower_bound; lia.
    + assert (j / B = i) as Hji by nia. rewrite Hjeq, Z.mul_comm, rbit_bm, Hji by done.
      apply H1. nia.
  - intros Hz j Hj. assert (0 <= j) by nia. destruct (hpos j _ (conj H0 (proj2 Hj))) as (Hq & _ & _).
    apply (summary_zero row row'); [done|lia|done|lia|]. apply Hz.
    split; [|lia]. apply Z.div_le_lower_bound; lia.
Qed.

(** [find_down] from the top: the lowest bit of the bottom level. *)
Lemma find_down_spec rows : hinv rows -> rows <> [] ->
  level_first (hd_row rows) 0 (find_down B (rev rows) 0).
Proof.
  induction rows as [|row rest IH]; intros Hi Hne; [done|]. cbn [hd_row rev].
  rewrite find_down_app. destruct Hi as (Hw & Hshape & Hrest).
  destruct rest as [|row' rest].
  - cbn [rev find_down mbind option_bind]. pose proof (get_bm_wf row 0 Hw) as Hwf.
    destruct (bm_find_spec (get_bm row 0) true Hwf) as (H0 & H1 & H2).
    assert (Hs : row_size row = B) by (unfold row_size; rewrite Hshape; lia).
    assert (Hb : forall j, 0 <= j < B -> rbit row j = bm_test (get_bm row 0) j)
      by (intros j Hj; replace j with (0 * B + j) at 1 by lia; by apply rbit_bm).
    destruct (Z.eqb_spec (bm_find (get_bm row 0) true) B) as [E|Hne']; cbn [level_first].
    + intros j Hj. rewrite Hb by lia. apply H1. lia.
    + split; [lia|]. split; [rewrite Hb by lia; apply H2; lia|].
      intros j Hj. rewrite Hb by lia. by apply H1.
  - destruct Hshape as [Hlen Hsum].
    apply (level_first_down row row' 0); [done..|]. apply IH; done.
Qed.

(** ** The operations on the represented set *)

Lemma row_of_hd h : row_of h 0 = hd_row (bitmaps h).
Proof using. unfold row_of. by destruct (bitmaps h). Qed.

Lemma hb_test_rbit h i : hb_test B h i = rbit (row_of h 0) i.
Proof using. done. Qed.

Lemma same_lengths rows rows' : length <$> rows' = length <$> rows ->
  row_size (hd_row rows') = row_size (hd_row rows) /\ (rows <> [] -> rows' <> []).
Proof using.
  destruct rows as [|row rows], rows' as [|row' rows']; try done.
  intros [= Hl _]. unfold row_size, hd_row. by rewrite Hl.
Qed.

Lemma hb_update h rows' (f : Z -> bool) :
  hb_inv h -> hinv rows' -> length <$> rows' = length <$> bitmaps h ->
  (forall j, 0 <= j < hb_size h -> rbit (hd_row rows') j = f j) ->
  let h' := mkHB rows' (maxBucketCount h) in
  hb_inv h' /\ hb_size h' = hb_size h /\ forall j, 0 <= j < hb_size h -> hb_test B h' j = f j.
Proof using.
  intros [Hne Hi] Hi' Hl Hf. cbn zeta. unfold hb_inv, hb_size.
  destruct (same_lengths _ _ Hl) as [Hs Hn]. rewrite !row_of_hd. cbn [bitmaps].
  split; [split; [by apply Hn|done]|]. split; [done|]. intros j Hj.
  rewrite hb_test_rbit, row_of_hd. cbn [bitmaps]. apply Hf. unfold hb_size. by rewrite row_of_hd.
Qed.

(** [set] adds its index to the represented set, leaves the other
    indices alone and keeps the summary levels consistent. *)
Theorem hb_set_correct h idx : hb_inv h -> 0 <= idx < hb_size h ->
  hb_inv (hb_set B h idx 0) /\ hb_size (hb_set B h idx 0) = hb_size h /\
  forall j, 0 <= j < hb_size h -> hb_test B (hb_set B h idx 0) j = (j =? idx) || hb_test B h j.
Proof.
  intros [Hne Hi] Hidx. unfold hb_size in Hidx. rewrite row_of_hd in Hidx.
  destruct (set_levels_spec (bitmaps h) idx Hi Hne Hidx) as (H1 & H2 & H3).
  apply hb_update; [done|done|done|]. cbn [take drop app].
  intros j Hj. unfold hb_size in Hj. rewrite row_of_hd in Hj.
  rewrite hb_test_rbit, row_of_hd. by apply H3.
Qed.

(** [clr] removes its index, and clears summary bits exactly as far up
    as bitmaps became empty. *)
Theorem hb_clr_correct h idx : hb_inv h -> 0 <= idx < hb_size h ->
  hb_inv (hb_clr B h idx 0) /\ hb_size (hb_clr B h idx 0) = hb_size h /\
  forall j, 0 <= j < hb_size h -> hb_test B (hb_clr B h idx 0) j = negb (j =? idx) && hb_test B h j.
Proof.
  intros [Hne Hi] Hidx. unfold hb_size in Hidx. rewrite row_of_hd in Hidx.
  destruct (clr_levels_spec (bitmaps h) idx Hi Hne Hidx) as (H1 & H2 & H3).
  apply hb_update; [done|done|done|]. cbn [take drop app].
  intros j Hj. unfold hb_size in Hj. rewrite row_of_hd in Hj.
  rewrite hb_test_rbit, row_of_hd. by apply H3.
Qed.

(** One elementary bitmap of the bottom level replaced and its summary bit
    brought up to date: the shape of [blockset] and [blockclr]. *)
Lemma block_update h idx b rest' :
  hb_inv h -> 0 <= idx < hb_size h -> bm_wf b ->
  (match tl (bitmaps h) with
   | [] => rest' = []
   | row' :: _ => hinv rest' /\ length <$> rest' = length <$> tl (bitmaps h) /\
       forall j, 0 <= j < row_size row' -> rbit (hd_row rest') j =
         if j =? idx / B then negb (bm_empty b) else rbit row' j
   end) ->
  let rows' := put_bm (row_of h 0) (idx / B) b :: rest' in
  hinv rows' /\ length <$> rows' = length <$> bitmaps h /\
  forall j, 0 <= j < hb_size h -> rbit (hd_row rows') j =
    if idx / B =? j / B then bm_test b (j mod B) else hb_test B h j.
Proof using B_pos.
  intros [Hne Hi] Hidx Hb Hrest. unfold hb_size in *. cbn zeta.
  destruct (hpos idx _ Hidx) as (Hq & _ & _).
  destruct (bitmaps h) as [|row rest] eqn:E; [done|]. rewrite row_of_hd in *.
  assert (Hrow : hd_row (bitmaps h) = row) by (by rewrite E). rewrite Hrow in *.
  cbn [tl] in Hrest. cbn [hd_row].
  assert (Hbits : forall j, 0 <= j < row_size row -> rbit (put_bm row (idx / B) b) j =
    if idx / B =? j / B then bm_test b (j mod B) else hb_test B h j)
    by (intros j Hj; rewrite hb_test_rbit, row_of_hd, Hrow; by apply rbit_put).
  destruct rest as [|row' rest].
  - subst rest'. destruct Hi as (Hw & Hl & _).
    split; [split; [by apply put_bm_wf|split; [by rewrite put_bm_length|done]]|].
    split; [cbn; by rewrite put_bm_length|done].
  - destruct Hrest as (Hr1 & Hr2 & Hr3).
    split; [|split; [cbn [fmap list_fmap]; rewrite put_bm_length; f_equal; exact Hr2|done]].
    apply (hinv_update row row' rest); [done..|].
    destruct rest' as [|row1 rest1]; [done|]. exists row1, rest1.
    split; [done|]. injection Hr2 as Hl1 _. split; [done|]. exact Hr3.
Qed.

Lemma hb_tail_inv h : hb_inv h -> hinv (tl (bitmaps h)).
Proof using. intros [Hne Hi]. destruct (bitmaps h); [done|]. apply Hi. Qed.

Lemma hb_bucket h idx : hb_inv h -> 0 <= idx < hb_size h ->
  tl (bitmaps h) <> [] -> 0 <= idx / B < row_size (hd_row (tl (bitmaps h))).
Proof using B_pos.
  intros [Hne Hi] Hidx Ht. unfold hb_size in Hidx. rewrite row_of_hd in Hidx.
  destruct (hpos idx _ Hidx) as (Hq & _ & _).
  destruct (bitmaps h) as [|row [|row' rest]]; [done..|].
  destruct Hi as (_ & (Hlen & _) & _). cbn [tl hd_row] in *. lia.
Qed.

Lemma hb_block_shape h b k (f : list (list bm) -> Z -> list (list bm)) :
  hb_inv h -> f [] k = [] ->
  take 1 (<[0%nat := put_bm (row_of h 0) k b]> (bitmaps h)) ++
    f (drop 1 (<[0%nat := put_bm (row_of h 0) k b]> (bitmaps h))) k
  = put_bm (row_of h 0) k b :: f (tl (bitmaps h)) k.
Proof using. intros [Hne _] Hf. by destruct (bitmaps h). Qed.

(** [blockset] adds, and [blockclr] removes, all indices of the block
    of [idx]; both keep the summary levels consistent. *)
Theorem hb_block_correct h idx : hb_inv h -> 0 <= idx < hb_size h ->
  (hb_inv (hb_blockset B h idx) /\ hb_size (hb_blockset B h idx) = hb_size h /\
   forall j, 0 <= j < hb_size h ->
     hb_test B (hb_blockset B h idx) j = (idx / B =? j / B) || hb_test B h j) /\
  (hb_inv (hb_blockclr B h idx) /\ hb_size (hb_blockclr B h idx) = hb_size h /\
   forall j, 0 <= j < hb_size h ->
     hb_test B (hb_blockclr B h idx) j = negb (idx / B =? j / B) && hb_test B h j).
Proof.
  intros Hh Hidx. pose proof Hh as [Hne Hi].
  assert (Hw : Forall bm_wf (row_of h 0))
    by (rewrite row_of_hd; destruct (bitmaps h); [done|apply Hi]).
  set (old := get_bm (row_of h 0) (idx / B)). pose proof (get_bm_wf _ (idx / B) Hw : bm_wf old) as Hold.
  assert (Hmod : forall j, 0 <= j mod B < B) by (intros; by apply Z.mod_pos_bound).
  split.
  - assert (He : bm_empty (bm_setB old) = false).
    { apply nonempty_iff; [by apply bm_wf_setB|]. exists 0. split; [lia|]. apply bm_test_setB; [done|lia]. }
    destruct (block_update h idx (bm_setB old) (set_levels B (tl (bitmaps h)) (idx / B)))
      as (H1 & H2 & H3); [done|done|by apply bm_wf_setB| |].
    { destruct (tl (bitmaps h)) as [|row' rest] eqn:E; [done|].
      destruct (set_levels_spec (row' :: rest) (idx / B)) as (S1 & S2 & S3);
        [rewrite <- E; by apply hb_tail_inv|done|rewrite <- E; apply hb_bucket; [done|done|by rewrite E]|].
      split; [done|]. split; [done|]. intros j Hj. rewrite S3, He by done. by destruct (j =? idx / B). }
    unfold hb_blockset, hb_set. cbn [bitmaps maxBucketCount]. fold old.
    rewrite (hb_block_shape h _ (idx / B) (set_levels B)) by done.
    apply hb_update; [done|done|done|]. intros j Hj. rewrite H3 by done.
    destruct (idx / B =? j / B); [|done]. by apply bm_test_setB.
  - assert (He : bm_empty (bm_clrB old) = true)
      by (apply bm_empty_spec; [by apply bm_wf_clrB|]; intros; by apply bm_test_clrB).
    destruct (block_update h idx (bm_clrB old) (clr_levels B (tl (bitmaps h)) (idx / B)))
      as (H1 & H2 & H3); [done|done|by apply bm_wf_clrB| |].
    { destruct (tl (bitmaps h)) as [|row' rest] eqn:E; [done|].
      destruct (clr_levels_spec (row' :: rest) (idx / B)) as (S1 & S2 & S3);
        [rewrite <- E; by apply hb_tail_inv|done|rewrite <- E; apply hb_bucket; [done|done|by rewrite E]|].
      split; [done|]. split; [done|]. intros j Hj. rewrite S3, He by done. by destruct (j =? idx / B). }
    unfold hb_blockclr, hb_clr. cbn [bitmaps maxBucketCount]. fold old.
    rewrite (hb_block_shape h _ (idx / B) (clr_levels B)) by done.
    apply hb_update; [done|done|done|]. intros j Hj. rewrite H3 by done.
    destruct (idx / B =? j / B); [|done]. by apply bm_test_clrB.
Qed.

(** [find] returns the lowest index of the set, and [limit<size_t>()]
    when the set is empty; [empty] says which case holds. *)
Theorem hb_find_correct h : hb_inv h ->
  exists o, level_first (row_of h 0) 0 o /\ hb_find B h = default not_found o.
Proof.
  intros [Hne Hi]. exists (find_down B (rev (bitmaps h)) 0).
  rewrite row_of_hd. split; [by apply find_down_spec|done].
Qed.

(** ** [findnext] *)

Lemma find_is_findnext b : bm_wf b -> bm_findnext b 0 true = bm_find b true.
Proof.
  intros Hb. destruct (bm_find_spec b true Hb) as (H0 & H1 & H2).
  destruct (bm_findnext_spec b 0 true Hb) as (K0 & K1 & K2); [lia|].
  destruct (Z.lt_total (bm_find b true) (bm_findnext b 0 true)) as [Hl|[?|Hl]]; [|done|].
  - rewrite K1 in H2 by lia. assert (negb true = true) by (apply H2; lia). done.
  - rewrite H1 in K2 by lia. assert (negb true = true) by (apply K2; lia). done.
Qed.

Lemma take_row_of h l : (l < length (bitmaps h))%nat ->
  rev (take (S l) (bitmaps h)) = row_of h l :: rev (take l (bitmaps h)).
Proof using.
  intros Hl. unfold row_of. destruct (lookup_lt_is_Some_2 (bitmaps h) l Hl) as [row Hrow].
  rewrite (take_S_r _ _ _ Hrow), rev_app_distr, Hrow. done.
Qed.

Lemma hinv_rows_wf rows l : hinv rows -> Forall bm_wf (default [] (rows !! l)).
Proof.
  revert l. induction rows as [|row rest IH]; intros [|l] Hi; cbn; [constructor..|apply Hi|].
  apply IH. apply Hi.
Qed.

(** Going down below a set bit follows the path of [find]. *)
Lemma findnext_down h l q mbc fuel i :
  hinv (bitmaps h) -> (l < length (bitmaps h))%nat -> (l < fuel)%nat ->
  find_down B (rev (take (S l) (bitmaps h))) q = Some i ->
  findnext_loop B fuel h l q 0 mbc = Some i.
Proof.
  intros Hi. revert q mbc fuel. induction l as [|l IH]; intros q mbc [|fuel] Hl Hf; try lia;
    rewrite take_row_of by done; cbn [find_down findnext_loop];
    rewrite find_is_findnext by (apply get_bm_wf, hinv_rows_wf; done);
    destruct (_ =? B); try done.
  apply IH; lia.
Qed.

Lemma hinv_at rows l row : hinv rows -> rows !! l = Some row ->
  Forall bm_wf row /\
  match rows !! S l with
  | None => length row = 1%nat
  | Some row' =>
      Z.of_nat (length row) <= row_size row' /\
      forall j, 0 <= j < row_size row' -> rbit row' j = negb (bm_empty (get_bm row j))
  end.
Proof using.
  revert l. induction rows as [|r rest IH]; intros [|l] Hi Hl; try done.
  - injection Hl as ->. destruct Hi as (Hw & Hs & _). split; [done|]. by destruct rest.
  - apply (IH l); [apply Hi|done].
Qed.

(** A set bit has a path down to the bottom level. *)
Lemma path_down h l i : hinv (bitmaps h) -> (l < length (bitmaps h))%nat ->
  0 <= i < row_size (row_of h l) -> rbit (row_of h l) i = true ->
  exists i0, find_down B (rev (take l (bitmaps h))) i = Some i0.
Proof.
  intros Hi. revert i. induction l as [|l IH]; intros i Hl Hr Ht; [by exists i|].
  rewrite take_row_of by lia. cbn [find_down].
  destruct (lookup_lt_is_Some_2 (bitmaps h) l) as [row Hrow]; [lia|].
  destruct (lookup_lt_is_Some_2 (bitmaps h) (S l)) as [row' Hrow']; [lia|].
  assert (Hd : row_of h (S l) = row') by (unfold row_of; by rewrite Hrow').
  destruct (hinv_at _ _ _ Hi Hrow) as [Hw Hs]. rewrite Hrow' in Hs. destruct Hs as [Hlen Hsum].
  assert (Hrd : row_of h l = row) by (unfold row_of; by rewrite Hrow). rewrite Hrd, Hd in *.
  pose proof (level_first_down row row' i (Some i) Hw Hlen ltac:(lia) Hsum) as Hdown.
  cbn [mbind option_bind find_down level_first] in Hdown.
  destruct (Z.eqb_spec (bm_find (get_bm row i) true) B) as [E|Hne].
  - rewrite Hsum in Ht by done. apply negb_true_iff in Ht.
    apply nonempty_iff in Ht as (r & Hr' & Htr); [|by apply get_bm_wf].
    destruct (bm_find_spec (get_bm row i) true (get_bm_wf row i Hw)) as (_ & H1 & _).
    rewrite H1 in Htr by lia. done.
  - destruct Hdown as (H1 & H2 & _); [split; [lia|split; [done|lia]]|].
    apply IH; [lia|nia|done].
Qed.

(** The bucket counts the loop of [findnext] derives by division are the
    lengths of the levels, for every level that is not the top one. *)
Fixpoint exact_counts rows (mbc : Z) : Prop :=
  match rows with
  | [] => True
  | row :: rest =>
      match rest with
      | [] => mbc <= 1
      | _ => mbc = Z.of_nat (length row) /\ exact_counts rest (mbc / B)
      end
  end.

Lemma findnext_up h n l bidx ridx mbc fuel :
  hinv (bitmaps h) -> (l + n = length (bitmaps h))%nat -> (1 <= n)%nat ->
  (length (bitmaps h) + n <= fuel)%nat ->
  0 <= ridx < B -> 0 <= bidx < Z.of_nat (length (row_of h l)) ->
  exact_counts (drop l (bitmaps h)) mbc ->
  exists o, level_first (row_of h l) (bidx * B + ridx) o /\
    findnext_loop B fuel h l bidx ridx mbc
    = Some (default not_found (i ← o; find_down B (rev (take l (bitmaps h))) i)).
Proof.
  intros Hi. revert l bidx ridx mbc fuel.
  induction n as [|n IH]; intros l bidx ridx mbc fuel Hln Hn Hfuel Hr Hb Hex; [lia|].
  destruct fuel as [|fuel]; [lia|]. cbn [findnext_loop].
  destruct (lookup_lt_is_Some_2 (bitmaps h) l) as [row Hrow]; [lia|].
  assert (Hrd : row_of h l = row) by (unfold row_of; by rewrite Hrow). rewrite Hrd in *.
  destruct (hinv_at _ _ _ Hi Hrow) as [Hw Hs].
  destruct (findnext_bm row bidx ridx Hw Hb Hr) as (H0 & H1 & H2).
  set (lidx := bm_findnext _ _ _) in *.
  rewrite (drop_S _ _ _ Hrow) in Hex.
  destruct (Z.eqb_spec lidx B) as [E|Hne].
  - (* nothing in this bitmap: go up *)
    destruct (bitmaps h !! S l) as [row'|] eqn:Hrow'.
    + rewrite (drop_S _ _ _ Hrow') in Hex. destruct Hex as [-> Hex].
      destruct Hs as [Hlen Hsum].
      assert (Hrd' : row_of h (S l) = row') by (unfold row_of; by rewrite Hrow').
      destruct (Z.leb_spec (Z.of_nat (length row)) (bidx + 1)).
      { exists None. split; [|done]. intros j Hj. apply H1. unfold row_size in Hj. nia. }
      pose proof (lookup_lt_Some _ _ _ Hrow').
      destruct (hpos (bidx + 1) (Z.of_nat (length row'))) as (Hq & Hm & Heq);
        [unfold row_size in Hlen; lia|].
      destruct (IH (S l) ((bidx + 1) / B) ((bidx + 1) mod B) (Z.of_nat (length row) / B) fuel)
        as (o & Ho & Hloop); [lia..|done|by rewrite Hrd'|by rewrite (drop_S _ _ _ Hrow')|].
      rewrite Hrd' in Ho. replace ((bidx + 1) / B * B + (bidx + 1) mod B) with (bidx + 1) in Ho by lia.
      exists (i ← o; find_down B [row] i). split.
      * pose proof (level_first_down row row' (bidx + 1) o Hw Hlen ltac:(lia) Hsum Ho) as Hd.
        apply (level_first_lower row _ _ _ Hd); [nia|]. intros j Hj. apply H1. nia.
      * rewrite Hloop, take_row_of, Hrd by lia. destruct o as [i|]; [|done].
        cbn [mbind option_bind]. do 2 f_equal. exact (find_down_app [row] _ i).
    + assert (n = 0%nat) as -> by (apply lookup_ge_None_1 in Hrow'; lia).
      rewrite drop_ge in Hex by lia. cbn [exact_counts] in Hex. rewrite Hs in *.
      destruct (Z.leb_spec mbc (bidx + 1)); [|lia].
      exists None. split; [|done]. intros j Hj. apply H1. unfold row_size in Hj. rewrite Hs in Hj. nia.
  - (* found: go down *)
    exists (Some (bidx * B + lidx)).
    assert (Hfirst : level_first row (bidx * B + ridx) (Some (bidx * B + lidx))).
    { cbn [level_first]. split; [unfold row_size; nia|]. split; [apply H2; lia|done]. }
    split; [done|]. cbn [mbind option_bind].
    destruct (path_down h l (bidx * B + lidx)) as (i0 & Hi0);
      [done|lia|rewrite Hrd; destruct Hfirst; nia|rewrite Hrd; apply Hfirst|].
    rewrite Hi0. destruct l as [|l]; [by injection Hi0 as ->|].
    apply findnext_down; [done|lia|lia|done].
Qed.

(** C34. [findnext] terminates within [2 * Levels + 1] rounds and returns the
    lowest index of the set at or above [idx], [limit<size_t>()] if there is
    none, provided dividing the bucket count by [B] gives the exact number of
    buckets of every level below the top (it does for up to two levels, and
    for completely filled levels). *)
Theorem hb_findnext_correct h idx : hb_inv h -> 0 <= idx < hb_size h ->
  exact_counts (bitmaps h) (maxBucketCount h) ->
  exists o, level_first (row_of h 0) idx o /\ hb_findnext B h idx = Some (default not_found o).
Proof.
  intros [Hne Hi] Hidx Hex. destruct (hpos idx _ Hidx) as (Hq & Hm & Heq).
  destruct (findnext_up h (length (bitmaps h)) 0 (idx / B) (idx mod B) (maxBucketCount h)
    (2 * length (bitmaps h) + 1)) as (o & Ho & Hloop);
    [done|lia|destruct (bitmaps h); [done|simpl; lia]|lia|done|done|by rewrite drop_0|].
  exists o. replace (idx / B * B + idx mod B) with idx in Ho by lia. split; [done|].
  unfold hb_findnext. rewrite Hloop. cbn [take rev find_down]. by destruct o.
Qed.

(** Two levels always have exact counts. *)
Lemma exact_two_levels row top : 1 < B -> hinv [row; top] ->
  exact_counts [row; top] (Z.of_nat (length row)).
Proof using.
  intros HB (_ & (Hlen & _) & _ & Ht & _). cbn [exact_counts]. split; [done|].
  unfold row_size in Hlen. rewrite Ht in Hlen.
  apply Z.div_le_upper_bound; lia.
Qed.

(** ** [init] *)

Lemma init_loop_inv levels bitcount :
  (1 <= levels)%nat -> 1 < B -> 0 < bitcount < 2 ^ W ->
  let '(rows, last) := init_loop B levels bitcount in
  last = 1 ->
  hinv rows /\ hd_row rows = replicate (Z.to_nat (divup W bitcount B)) bm_new /\
  Forall (fun row => Forall (fun b => b = bm_new) row) rows.
Proof.
  intros Hlev HB Hbc. revert bitcount Hbc. induction levels as [|n IH]; intros bitcount Hbc; [lia|].
  cbn [init_loop]. set (c := divup W bitcount B).
  assert (Hc : c = (bitcount + B - 1) / B) by (apply divup_spec; lia).
  assert (Hc0 : 0 < c < 2 ^ W).
  { rewrite Hc. split; [apply Z.div_str_pos; lia|].
    apply Z.div_lt_upper_bound; nia. }
  assert (Hwf : Forall bm_wf (replicate (Z.to_nat c) bm_new)) by apply Forall_replicate, bm_wf_new.
  assert (Hnew : Forall (fun b => b = bm_new) (replicate (Z.to_nat c) bm_new)) by by apply Forall_replicate.
  destruct n as [|n].
  - cbn [init_loop]. intros ->. split; [|split; [done|by repeat constructor]].
    split; [done|]. split; [by rewrite length_replicate|done].
  - specialize (IH ltac:(lia) c Hc0). destruct (init_loop B (S n) c) as [rows last] eqn:E.
    intros Hl. destruct (IH Hl) as (IH1 & IH2 & IH3).
    split; [|split; [done|by constructor]]. split; [done|]. split; [|done].
    destruct rows as [|row' rest]; [cbn in E; by destruct (init_loop B n _)|].
    cbn [hd_row] in IH2. set (d := divup W c B) in *.
    assert (Hd : d = (c + B - 1) / B) by (apply divup_spec; lia).
    assert (0 < d) by (rewrite Hd; apply Z.div_str_pos; lia).
    assert (c <= d * B).
    { rewrite Hd. pose proof (Z.div_mod (c + B - 1) B). pose proof (Z.mod_pos_bound (c + B - 1) B). lia. }
    unfold row_size. rewrite IH2, !length_replicate. split; [lia|]. intros j Hj.
    assert (Hg : forall m k, get_bm (replicate m bm_new) k = bm_new).
    { intros m k. unfold get_bm. destruct (replicate m bm_new !! _) eqn:El; [|done].
      by apply lookup_replicate in El as [-> _]. }
    unfold rbit. rewrite !Hg, bm_empty_new. apply bm_test_new. by apply Z.mod_pos_bound.
Qed.

(** [init] on cleared memory, when its assertion holds, yields a
    consistent bitmap of at least [bitcount] indices that represents the
    empty set. *)
Theorem hb_init_correct logw bitcount h :
  1 < B -> 0 < bitcount < 2 ^ W -> 1 <= Levels logw B ->
  hb_init B logw bitcount = Some h ->
  hb_inv h /\ bitcount <= hb_size h /\ maxBucketCount h = divup W bitcount B /\
  forall j, 0 <= j < hb_size h -> hb_test B h j = false.
Proof.
  intros HB Hbc Hlev Hinit. unfold hb_init in Hinit.
  pose proof (init_loop_inv (Z.to_nat (Levels logw B)) bitcount ltac:(lia) HB Hbc) as Hl.
  destruct (init_loop B _ bitcount) as [rows last] eqn:E.
  destruct (Z.eqb_spec last 1) as [->|]; [|done]. injection Hinit as <-.
  destruct (Hl eq_refl) as (H1 & H2 & H3).
  assert (Hc : divup W bitcount B = (bitcount + B - 1) / B) by (apply divup_spec; lia).
  assert (0 < divup W bitcount B) by (rewrite Hc; apply Z.div_str_pos; lia).
  unfold hb_inv, hb_size. rewrite row_of_hd. cbn [bitmaps maxBucketCount].
  split; [split; [|done]|split; [|split; [done|]]].
  - intros ->. cbn in H2. destruct (Z.to_nat (divup W bitcount B)) eqn:En; [lia|done].
  - unfold row_size. rewrite H2, length_replicate, Z2Nat.id by lia. rewrite Hc.
    pose proof (Z.div_mod (bitcount + B - 1) B). pose proof (Z.mod_pos_bound (bitcount + B - 1) B). lia.
  - intros j Hj. rewrite hb_test_rbit, row_of_hd. cbn [bitmaps]. rewrite H2. unfold rbit, get_bm.
    destruct (replicate _ bm_new !! _) eqn:El; cbn;
      [apply lookup_replicate in El as [-> _]|]; apply bm_test_new; by apply Z.mod_pos_bound.
Qed.
End HierarchicalLaws.

Arguments hb_size {bm} B h.
Arguments hb_inv {bm} B {_ _} h.
Arguments exact_counts {bm} B rows mbc.
Arguments level_first {bm} B {_} row p o.

(** * [findrange] *)

Section FindRange.
Context {bm : Type} {B : Z} `{HL : BitmapLaws B bm}.
Implicit Types (h : HierarchicalBitmap bm).

(** The three loops of [findrange] from [end = start + 1] on. *)
Definition range_end h (start : Z) : option Z :=
  e1 ← while (Z.to_nat B + 1) (fun e => negb (e mod B =? 0) && hb_test B h e) (fun e => e + 1) (start + 1);
  e2 ← while (Z.to_nat (maxBucketCount h) + 1)
         (fun e => (e / B <? maxBucketCount h) && hb_blockfull B h e) (fun e => e + B) e1;
  while (Z.to_nat B + 1) (fun e => (e / B <? maxBucketCount h) && hb_test B h e) (fun e => e + 1) e2.

(** [findrange(start, max)]: the new value of [start] and the result. *)
Definition hb_findrange h (start max : Z) : option (Z * Z) :=
  start ← hb_findnext B h start;
  if start =? not_found then Some (start, 0)
  else
    e ← range_end h start;
    let e := if max <? e then max else e in
    Some (start, wrap W (e - start)).

Let B_pos : 0 < B := bm_B_pos.

(** [e] is reached from [start] over set indices only. *)
Definition run_to h (start e : Z) : Prop :=
  start < e <= hb_size B h /\ forall j, start <= j < e -> hb_test B h j = true.

Lemma run_to_step h start e : run_to h start e -> e < hb_size B h -> hb_test B h e = true ->
  run_to h start (e + 1).
Proof using B_pos.
  intros [H1 H2] Hlt Ht. split; [lia|]. intros j Hj.
  destruct (Z.eq_dec j e) as [->|]; [done|apply H2; lia].
Qed.

Lemma mod_succ e : 0 <= e -> e mod B + 1 < B -> (e + 1) mod B = e mod B + 1.
Proof using B_pos.
  intros He Hlt. pose proof (Z.mod_pos_bound e B B_pos). symmetry.
  apply (Z.mod_unique_pos _ _ (e / B)); [lia|]. pose proof (Z.div_mod e B). lia.
Qed.

Lemma mod_wrap e : 0 <= e -> e mod B + 1 = B -> (e + 1) mod B = 0.
Proof using B_pos.
  intros He Heq. symmetry. apply (Z.mod_unique_pos _ _ (e / B + 1)); [lia|].
  pose proof (Z.div_mod e B). lia.
Qed.

(** First loop: to the end of the bucket. *)
Lemma range_bucket h start e : run_to h start e -> 0 <= start -> hb_size B h mod B = 0 ->
  exists e1, while (Z.to_nat B + 1) (fun e => negb (e mod B =? 0) && hb_test B h e) (fun e => e + 1) e
             = Some e1 /\ run_to h start e1 /\
             (e1 mod B = 0 \/ hb_test B h e1 = false).
Proof using B_pos.
  intros Hrun Hs Hsz.
  destruct (while_ends (fun e => negb (e mod B =? 0) && hb_test B h e) (fun e => e + 1)
    (run_to h start) (fun e => Z.to_nat (if e mod B =? 0 then 0 else B - e mod B))) with
    (fuel := (Z.to_nat B + 1)%nat) (x := e) as (e1 & H1 & H2 & H3).
  - intros x Hx Hc. apply andb_true_iff in Hc as [Hm Ht]. apply negb_true_iff, Z.eqb_neq in Hm.
    pose proof (Z.mod_pos_bound x B B_pos). destruct Hx as [Hx1 Hx2] eqn:E; clear E.
    assert (x < hb_size B h).
    { destruct (Z.eq_dec x (hb_size B h)) as [->|]; [done|lia]. }
    split; [by apply run_to_step|]. destruct (Z.eqb_spec (x mod B) 0); [done|].
    destruct (Z.eq_dec (x mod B + 1) B).
    + rewrite mod_wrap by lia. simpl. lia.
    + rewrite mod_succ by lia. destruct (Z.eqb_spec (x mod B + 1) 0); lia.
  - done.
  - pose proof (Z.mod_pos_bound e B B_pos). destruct (Z.eqb_spec (e mod B) 0); lia.
  - exists e1. split; [done|]. split; [done|]. apply andb_false_iff in H3 as [H3|H3]; [left|by right].
    by apply negb_false_iff, Z.eqb_eq in H3.
Qed.

Context (h : HierarchicalBitmap bm) (Hh : hb_inv B h).
Context (Hcount : maxBucketCount h = Z.of_nat (length (row_of h 0))).

Lemma size_buckets : hb_size B h = maxBucketCount h * B.
Proof using Hcount. unfold hb_size, row_size. by rewrite Hcount. Qed.

Lemma below_size e : 0 <= e -> e / B < maxBucketCount h <-> e < hb_size B h.
Proof using B_pos Hcount.
  intros He. rewrite size_buckets. split; intros.
  - pose proof (Z.div_mod e B). pose proof (Z.mod_pos_bound e B B_pos). nia.
  - apply Z.div_lt_upper_bound; lia.
Qed.

Lemma row0_wf : Forall bm_wf (row_of h 0).
Proof using Hh. destruct Hh as [Hne Hi]. rewrite row_of_hd. destruct (bitmaps h); [done|apply Hi]. Qed.

Lemma blockfull_bits e : 0 <= e < hb_size B h -> hb_blockfull B h e = true ->
  forall j, j / B = e / B -> hb_test B h j = true.
Proof using Hh.
  intros He Hf j Hj. unfold hb_blockfull in Hf.
  rewrite bm_full_spec in Hf by (apply get_bm_wf, row0_wf).
  unfold hb_test. rewrite Hj. apply Hf. apply Z.mod_pos_bound, bm_B_pos.
Qed.

Lemma not_blockfull e : 0 <= e -> hb_blockfull B h e = false ->
  exists z, z / B = e / B /\ hb_test B h z = false.
Proof using Hh B_pos.
  intros He Hf. unfold hb_blockfull in Hf. pose proof (get_bm_wf _ (e / B) row0_wf) as Hw.
  destruct (bm_find_spec (get_bm (row_of h 0) (e / B)) false Hw) as (H0 & H1 & H2).
  set (r := bm_find _ _) in *. destruct (Z.eq_dec r B) as [E|Hne].
  - exfalso. assert (bm_full (get_bm (row_of h 0) (e / B)) = true); [|congruence].
    apply bm_full_spec; [done|]. intros i Hi. rewrite H1 by lia. done.
  - destruct (pos_div_mod (e / B) r) as [Hd Hm]; [lia|]. exists (e / B * B + r).
    split; [done|]. unfold hb_test. rewrite Hd, Hm. apply H2. lia.
Qed.

(** Second loop: full buckets; third loop: the last bucket. *)
Lemma range_blocks start e : run_to h start e -> 0 <= start ->
  (e mod B = 0 \/ hb_test B h e = false) ->
  exists e2, while (Z.to_nat (maxBucketCount h) + 1)
      (fun e => (e / B <? maxBucketCount h) && hb_blockfull B h e) (fun e => e + B) e = Some e2 /\
    run_to h start e2 /\ (e2 mod B = 0 \/ hb_test B h e2 = false) /\
    (e2 / B < maxBucketCount h -> hb_blockfull B h e2 = false).
Proof using Hh B_pos Hcount.
  intros Hrun Hs He.
  destruct (while_ends (fun e => (e / B <? maxBucketCount h) && hb_blockfull B h e) (fun e => e + B)
    (fun x => run_to h start x /\ (x mod B = 0 \/ hb_test B h x = false))
    (fun x => Z.to_nat (maxBucketCount h - x / B))) with
    (fuel := (Z.to_nat (maxBucketCount h) + 1)%nat) (x := e) as (e2 & H1 & (H2 & H2') & H3).
  - intros x [[Hx1 Hx2] Hx] Hc. apply andb_true_iff in Hc as [Hlt Hf]. apply Z.ltb_lt in Hlt.
    assert (Hxs : 0 <= x < hb_size B h) by (split; [lia|by apply below_size; [lia|]]).
    pose proof (blockfull_bits x Hxs Hf) as Hbits.
    destruct Hx as [Hm|Hx]; [|by rewrite Hbits in Hx].
    pose proof (Z.div_mod x B ltac:(lia)) as Hdm.
    destruct (pos_div_mod (x / B + 1) 0) as [Hd2 Hm2]; [lia|].
    replace ((x / B + 1) * B + 0) with (x + B) in * by lia.
    split; [split; [split|by left]|lia].
    + rewrite size_buckets in *. nia.
    + intros j Hj. destruct (Z.lt_ge_cases j x); [apply Hx2; lia|]. apply Hbits.
      symmetry. apply (Z.div_unique_pos _ _ _ (j - x)); lia.
  - done.
  - destruct Hrun as [Hr _]. pose proof (Z.div_pos e B). lia.
  - exists e2. split; [done|]. split; [done|]. split; [done|]. intros Hlt.
    apply Z.ltb_lt in Hlt. by rewrite Hlt in H3.
Qed.

Lemma range_last start e : run_to h start e -> 0 <= start ->
  (e mod B = 0 \/ hb_test B h e = false) ->
  (e / B < maxBucketCount h -> hb_blockfull B h e = false) ->
  exists e3, while (Z.to_nat B + 1)
      (fun e => (e / B <? maxBucketCount h) && hb_test B h e) (fun e => e + 1) e = Some e3 /\
    run_to h start e3 /\ (e3 < hb_size B h -> hb_test B h e3 = false).
Proof using Hh B_pos Hcount.
  intros Hrun Hs He Hnf. pose proof (proj1 Hrun) as He0.
  (* the position where the loop stops at the latest *)
  assert (exists z, e <= z < e + B /\ (z < hb_size B h -> hb_test B h z = false)) as (z & Hz & Hzt).
  { destruct (Z.lt_ge_cases (e / B) (maxBucketCount h)) as [Hlt|Hge].
    - destruct (not_blockfull e) as (z & Hzd & Hzt); [lia|by apply Hnf|].
      destruct He as [Hm|Ht]; [|exists e; split; [lia|done]]. exists z. split; [|done].
      pose proof (Z.div_mod e B). pose proof (Z.div_mod z B). pose proof (Z.mod_pos_bound z B B_pos). nia.
    - exists e. split; [lia|]. intros Hlt. apply below_size in Hlt; lia. }
  destruct (while_ends (fun e => (e / B <? maxBucketCount h) && hb_test B h e) (fun e => e + 1)
    (fun x => run_to h start x /\ x <= z) (fun x => Z.to_nat (z - x))) with
    (fuel := (Z.to_nat B + 1)%nat) (x := e) as (e3 & H1 & (H2 & H2') & H3).
  - intros x [Hx Hxz] Hc. apply andb_true_iff in Hc as [Hlt Ht]. apply Z.ltb_lt in Hlt.
    pose proof (proj1 Hx). apply below_size in Hlt; [|lia].
    destruct (Z.eq_dec x z) as [->|]; [rewrite Hzt in Ht by done; done|].
    split; [split; [by apply run_to_step|lia]|lia].
  - split; [done|lia].
  - lia.
  - exists e3. split; [done|]. split; [done|]. intros Hlt. apply below_size in Hlt; [|destruct H2; lia].
    apply Z.ltb_lt in Hlt. by rewrite Hlt in H3.
Qed.

(** [findrange] finds the next index [s] of the set at or above
    [start] and returns it with the length of the run of consecutive indices
    that starts there, cut off at [max] (for [s <= max]). *)
Theorem hb_findrange_correct start max :
  0 <= start < hb_size B h -> hb_size B h < not_found ->
  exact_counts B (bitmaps h) (maxBucketCount h) ->
  exists o, level_first B (row_of h 0) start o /\
  match o with
  | None => hb_findrange h start max = Some (not_found, 0)
  | Some s => exists e,
      s < e <= hb_size B h /\ (forall j, s <= j < e -> hb_test B h j = true) /\
      (e < hb_size B h -> hb_test B h e = false) /\
      hb_findrange h start max = Some (s, wrap W (Z.min e max - s))
  end.
Proof using Hh B_pos Hcount.
  intros Hst Hsmall Hex. destruct (hb_findnext_correct h start Hh Hst Hex) as (o & Ho & Hf).
  exists o. split; [done|]. unfold hb_findrange. rewrite Hf. cbn [mbind option_bind].
  destruct o as [s|]; cbn [from_option id].
  - destruct Ho as (Hs & Ht & _). fold (hb_size B h) in Hs.
    destruct (Z.eqb_spec s not_found); [lia|].
    assert (Hrun : run_to h s (s + 1)).
    { split; [lia|]. intros j Hj. by replace j with s by lia. }
    destruct (range_bucket h s (s + 1) Hrun) as (e1 & H1 & R1 & D1);
      [lia|rewrite size_buckets; by apply Z.mod_mul; lia|].
    destruct (range_blocks s e1 R1) as (e2 & H2 & R2 & D2 & F2); [lia|done|].
    destruct (range_last s e2 R2) as (e3 & H3 & R3 & D3); [lia|done|done|].
    exists e3. split; [apply R3|]. split; [apply R3|]. split; [done|].
    unfold range_end. rewrite H1. cbn [mbind option_bind]. rewrite H2. cbn [mbind option_bind].
    rewrite H3. cbn [mbind option_bind]. do 3 f_equal. destruct (Z.ltb_spec max e3); lia.
  - by rewrite Z.eqb_refl.
Qed.
End FindRange.

(** * Concrete bitmaps *)

(** Two levels of [Bitmap<64>], the set {70}. *)
Definition demo : HierarchicalBitmap Bitmap64 :=
  mkHB [[mkBitmap64 0; mkBitmap64 64]; [mkBitmap64 2]] 2.

Lemma b64_wf v : 0 <= v < 2 ^ W -> bm_wf (mkBitmap64 v).
Proof. done. Qed.

Lemma demo_inv : hb_inv W demo.
Proof.
  assert (Hw0 : Forall (bm_wf (B := W)) [mkBitmap64 0; mkBitmap64 64])
    by (repeat apply Forall_cons_2; [apply b64_wf; lia..|apply Forall_nil_2]).
  assert (Hw1 : Forall (bm_wf (B := W)) [mkBitmap64 2])
    by (repeat apply Forall_cons_2; [apply b64_wf; lia..|apply Forall_nil_2]).
  split; [done|]. split; [exact Hw0|]. split; [|split; [exact Hw1|done]].
  split; [unfold row_size; simpl; lia|]. intros j Hj. apply Bool.eqb_prop. revert j Hj.
  apply (range_check 64 (fun j => Bool.eqb (rbit (B := W) [mkBitmap64 2] j)
    (negb (bm_empty (get_bm [mkBitmap64 0; mkBitmap64 64] j))))).
  by vm_compute.
Qed.

Lemma hb_set_correct_witness :
  hb_test W (hb_set W demo 3 0) 3 = (3 =? 3) || hb_test W demo 3.
Proof. apply (hb_set_correct (B := W) demo 3 demo_inv); vm_compute; split; congruence. Defined.

Lemma hb_clr_correct_witness :
  hb_test W (hb_clr W demo 70 0) 70 = negb (70 =? 70) && hb_test W demo 70.
Proof. apply (hb_clr_correct (B := W) demo 70 demo_inv); vm_compute; split; congruence. Defined.

Lemma hb_block_correct_witness :
  hb_test W (hb_blockset W demo 5) 9 = (5 / W =? 9 / W) || hb_test W demo 9.
Proof. apply (hb_block_correct (B := W) demo 5 demo_inv); vm_compute; split; congruence. Defined.

Lemma hb_find_correct_witness :
  exists o, level_first W (row_of demo 0) 0 o /\ hb_find W demo = default not_found o.
Proof. exact (hb_find_correct (B := W) demo demo_inv). Defined.

Lemma hb_findnext_correct_witness :
  exists o, level_first W (row_of demo 0) 1 o /\ hb_findnext W demo 1 = Some (default not_found o).
Proof.
  apply (hb_findnext_correct (B := W) demo 1 demo_inv).
  - vm_compute. split; congruence.
  - split; [done|vm_compute; congruence].
Defined.

Lemma hb_init_correct_witness :
  exists h, hb_init W 12 100 = Some h /\ @hb_inv Bitmap64 W _ _ h /\ 100 <= hb_size W h.
Proof.
  destruct (hb_init W 12 100) as [h|] eqn:E; [|vm_compute in E; discriminate E].
  exists h. split; [reflexivity|].
  destruct (hb_init_correct (B := W) 12 100 h) as (H1 & H2 & _).
  - lia.
  - lia.
  - vm_compute. congruence.
  - exact E.
  - exact (conj H1 H2).
Defined.

Lemma hb_findrange_correct_witness :
  exists o, level_first W (row_of demo 0) 1 o /\
  match o with
  | None => hb_findrange (B := W) demo 1 100 = Some (not_found, 0)
  | Some s => exists e,
      s < e <= hb_size W demo /\ (forall j, s <= j < e -> hb_test W demo j = true) /\
      (e < hb_size W demo -> hb_test W demo e = false) /\
      hb_findrange (B := W) demo 1 100 = Some (s, wrap W (Z.min e 100 - s))
  end.
Proof.
  apply (hb_findrange_correct (B := W) demo demo_inv).
  - reflexivity.
  - vm_compute. split; congruence.
  - vm_compute. reflexivity.
  - split; [done|vm_compute; congruence].
Defined.

(** With three levels and a bucket count that is not a multiple of 64,
    [findnext] misses members: in a bitmap made by [init] for 6400 indices and
    holding 6399, [test] and [find] see 6399, and [findnext(0)] answers
    [limit<size_t>()].  (The bucket count of level 1 is computed as
    [100 / 64 = 1] where [init] allocated [divup(100, 64) = 2] bitmaps.) *)
Theorem hb_findnext_misses :
  exists h : HierarchicalBitmap Bitmap64, hb_init W 18 6400 = Some h /\
  let h' := hb_set W h 6399 0 in
  hb_test W h' 6399 = true /\ hb_find W h' = 6399 /\ hb_findnext W h' 0 = Some not_found.
Proof. eexists. split; [reflexivity|]. vm_compute. done. Qed.
