(* ===== verification/ModelChecks.v ===== *)
(** Exploration of a finite transition system: when [explore] says [true], the
    test holds in every reachable state.  States seen before are looked up by a
    hash; the soundness does not depend on the hash function. *)
From S2P Require Import Prelude.

Section ModelCheck.
Context {S L : Type} `{EqDecision S} (step : L -> S -> option S).
Context (labels : list L) (hash : S -> positive) (good : S -> bool).

(** The table of states seen, a binary trie over the hash values. *)
Inductive table := Leaf | Node (l : table) (b : list S) (r : table).

Fixpoint bucket (V : table) (p : positive) : list S :=
  match V, p with
  | Leaf, _ => []
  | Node _ b _, xH => b
  | Node l _ _, xO p => bucket l p
  | Node _ _ r, xI p => bucket r p
  end.

Fixpoint insert (V : table) (p : positive) (s : S) : table :=
  let '(l, b, r) := match V with Leaf => (Leaf, [], Leaf) | Node l b r => (l, b, r) end in
  match p with
  | xH => Node l (s :: b) r
  | xO p => Node (insert l p s) b r
  | xI p => Node l b (insert r p s)
  end.

Definition seen (V : table) (s : S) : bool := existsb (fun t => bool_decide (s = t)) (bucket V (hash s)).
Definition add (V : table) (s : S) : table := insert V (hash s) s.

(** The successors of [s] by [ls] that are new. *)
Fixpoint visit (ls : list L) (s : S) (V : table) (todo : list S) : table * list S :=
  match ls with
  | [] => (V, todo)
  | l :: ls =>
      match step l s with
      | Some t => if seen V t then visit ls s V todo else visit ls s (add V t) (t :: todo)
      | None => visit ls s V todo
      end
  end.

Fixpoint explore (fuel : nat) (V : table) (todo : list S) : bool :=
  match todo, fuel with
  | [], _ => true
  | s :: todo, Datatypes.S fuel => if good s then let '(V', todo') := visit labels s V todo in explore fuel V' todo' else false
  | _, O => false
  end.

Lemma bucket_insert V p q s : bucket (insert V p s) q = if decide (p = q) then s :: bucket V q else bucket V q.
Proof.
  revert V q. induction p as [p IH|p IH|]; intros [|l b r] [q|q|]; cbn; try rewrite IH; cbn; try done;
    repeat case_decide; try done; naive_solver.
Qed.

Lemma seen_add V s t : seen (add V s) t = true <-> s = t \/ seen V t = true.
Proof.
  unfold seen, add. rewrite bucket_insert. case_decide as E; [|split; [by right|by intros [->|]]].
  cbn. rewrite orb_true_iff, bool_decide_eq_true. naive_solver.
Qed.

Lemma visit_ok ls s V todo V' todo' :
  visit ls s V todo = (V', todo') ->
  (forall t, seen V t = true -> seen V' t = true) /\
  (forall t, seen V' t = true -> seen V t = true \/ t ∈ todo') /\
  (forall t, t ∈ todo -> t ∈ todo') /\
  (forall t, t ∈ todo' -> t ∈ todo \/ seen V' t = true) /\
  (forall l t, l ∈ ls -> step l s = Some t -> seen V' t = true).
Proof.
  revert V todo. induction ls as [|l ls IH]; intros V todo; cbn.
  - intros [= <- <-]. split_and!; try tauto. intros l t Hl. inversion Hl.
  - intros Hv. destruct (step l s) as [t|] eqn:Ht; [destruct (seen V t) eqn:Hs|].
    + destruct (IH _ _ Hv) as (H1 & H2 & H3 & H4 & H5). split_and!; auto.
      intros k u [->|Hk]%elem_of_cons Hu; [|by eapply H5]. apply H1. congruence.
    + destruct (IH _ _ Hv) as (H1 & H2 & H3 & H4 & H5). split_and!.
      * intros u Hu. apply H1, seen_add. by right.
      * intros u Hu. destruct (H2 u Hu) as [[<-|Hu']%seen_add|]; [|by left|by right]. right. apply H3. by left.
      * intros u Hu. apply H3. by right.
      * intros u Hu. destruct (H4 u Hu) as [[->|Hu']%elem_of_cons|]; [|by left|by right]. right. apply H1, seen_add. by left.
      * intros k u [->|Hk]%elem_of_cons Hu; [|by eapply H5]. apply H1, seen_add. left. congruence.
    + destruct (IH _ _ Hv) as (H1 & H2 & H3 & H4 & H5). split_and!; auto.
      intros k u [->|Hk]%elem_of_cons Hu; [congruence|by eapply H5].
Qed.

(** Everything seen is to be visited, or has been, and then its successors are seen. *)
Definition visited (V : table) (s : S) : Prop :=
  good s = true /\ forall l t, l ∈ labels -> step l s = Some t -> seen V t = true.

Lemma explore_ok fuel V todo :
  explore fuel V todo = true ->
  (forall s, seen V s = true -> s ∈ todo \/ visited V s) -> (forall s, s ∈ todo -> seen V s = true) ->
  exists V', (forall s, seen V s = true -> seen V' s = true) /\ forall s, seen V' s = true -> visited V' s.
Proof.
  revert V todo. induction fuel as [|fuel IH]; intros V [|s todo]; cbn; try done.
  - intros _ Hv _. exists V. split; [done|]. intros s Hs. destruct (Hv s Hs) as [H|H]; [inversion H|done].
  - intros _ Hv _. exists V. split; [done|]. intros s Hs. destruct (Hv s Hs) as [H|H]; [inversion H|done].
  - destruct (good s) eqn:Hg; [|done]. destruct (visit labels s V todo) as [V' todo'] eqn:Hvis. intros He Hv Ht.
    destruct (visit_ok _ _ _ _ _ _ Hvis) as (H1 & H2 & H3 & H4 & H5).
    destruct (IH V' todo' He) as (W & HW1 & HW2).
    + intros t Hs. destruct (H2 t Hs) as [Hs'|]; [|by left]. destruct (Hv t Hs') as [[->|Hin]%elem_of_cons|[Hgt Hst]].
      * right. split; [done|]. intros l u Hl Hu. by eapply H5.
      * left. auto.
      * right. split; [done|]. intros l u Hl Hu. apply H1. by eapply Hst.
    + intros t Hin. destruct (H4 t Hin) as [Hin'|]; [|done]. apply H1, Ht. by right.
    + exists W. split; [|done]. auto.
Qed.

Lemma explore_sound fuel s0 s :
  (forall l t u, good t = true -> step l t = Some u -> l ∈ labels) ->
  explore fuel (add Leaf s0) [s0] = true -> reachable (fun t => t = s0) step s -> good s = true.
Proof.
  intros Hl He Hr. destruct (explore_ok _ _ _ He) as (V & H1 & H2).
  - intros t [<-|Ht]%seen_add; [left; by left|done].
  - intros t ->%list_elem_of_singleton. apply seen_add. by left.
  - assert (Hs : seen V s = true); [|by apply H2].
    induction Hr as [t ->|t l u _ IH Hu]; [apply H1, seen_add; by left|].
    destruct (H2 t IH) as [Hg Hsucc]. eapply Hsucc; [by eapply Hl|done].
Qed.
End ModelCheck.
