(* ===== verification/OsLocks.v ===== *)
(** The wrappers of operating-system locks and semaphores in
    [src/libfibre/OsLocks.h], with the macros of [src/libfibre/syscall_macro.h]
    ([WorkerLock] is an [OsLock], [WorkerSemaphore] an [OsSemaphore]).  What
    the system answers is a parameter: the result and the value of [errno]
    after each call. *)
From S2P Require Import Prelude.
Local Open Scope Z_scope.

Definition EINTR : Z := 4.
Definition EAGAIN : Z := 11.
Definition ETIMEDOUT : Z := 110.

(** An answer of the system: the result, and [errno] afterwards. *)
Record answer := mkAnswer { ret : Z; errno : Z }.

(** * [SYSCALL_CMP] with assertions: [None] is the abort *)
Definition SYSCALL_CMP (a : answer) (cmp : Z -> Z -> bool) (expected errcode : Z) : option Z :=
  if cmp (ret a) expected || (ret a =? errcode) || (negb (errcode =? 0) && (errno a =? errcode)) then Some (ret a) else None.
Definition SYSCALL (a : answer) : option Z := SYSCALL_CMP a Z.eqb 0 0.
Definition SYSCALLIO (a : answer) : option Z := SYSCALL_CMP a Z.geb 0 0.
Definition TRY_SYSCALL (a : answer) (code : Z) : option Z := SYSCALL_CMP a Z.eqb 0 code.
Definition TRY_SYSCALLIO (a : answer) (code : Z) : option Z := SYSCALL_CMP a Z.geb 0 code.

(** * [OsSemaphore]: each round of a loop takes one answer; [None]: the answers
    run out (the caller is blocked), [Some None]: an assertion fails *)
Definition result := option (bool * list answer).

Fixpoint tryP (as_ : list answer) : option result :=
  match as_ with
  | [] => None
  | a :: as_ =>
      if ret a =? 0 then Some (Some (true, as_))
      else if errno a =? EAGAIN then Some (Some (false, as_))
      else if errno a =? EINTR then tryP as_ else Some None
  end.
Fixpoint P_wait (as_ : list answer) : option result :=
  match as_ with
  | [] => None
  | a :: as_ =>
      if ret a =? 0 then Some (Some (true, as_)) else if errno a =? EINTR then P_wait as_ else Some None
  end.
Definition P (wait : bool) (as_ : list answer) : option result := if wait then P_wait as_ else tryP as_.
Fixpoint P_timeout (as_ : list answer) : option result :=
  match as_ with
  | [] => None
  | a :: as_ =>
      if ret a =? 0 then Some (Some (true, as_))
      else if errno a =? ETIMEDOUT then Some (Some (false, as_))
      else if errno a =? EINTR then P_timeout as_ else Some None
  end.
(** [val]: what [sem_getvalue] has stored. *)
Definition empty (val : Z) (a : answer) : option bool := _ ← SYSCALL a; Some (0 <=? val).
Definition open (val : Z) (a : answer) : option bool := _ ← SYSCALL a; Some (0 <? val).
Definition V (a : answer) : option unit := _ ← SYSCALL a; Some tt.

(** * [OsLock] and [OsLockRW] *)

(** The attempts of one inner loop, [for (spin = SpinStart; spin < SpinEnd;
    spin += spin)], from attempt [k] on; [inl]: an attempt succeeded.  The loops
    of [OsLockRW] compare with [<=]. *)
Fixpoint spin_loop (fuel : nat) (cmp : Z -> Z -> bool) (spin SpinEnd : Z) (trylock : nat -> Z) (k : nat) : option (nat + nat) :=
  if cmp spin SpinEnd then
    match fuel with
    | O => None
    | S fuel => if trylock k =? 0 then Some (inl k) else spin_loop fuel cmp (spin + spin) SpinEnd trylock (S k)
    end
  else Some (inr k).
Fixpoint count_loop (SpinCount : nat) (cmp : Z -> Z -> bool) (SpinStart SpinEnd : Z) (trylock : nat -> Z) (k : nat) : option (nat + nat) :=
  match SpinCount with
  | O => Some (inr k)
  | S n =>
      r ← spin_loop 64 cmp SpinStart SpinEnd trylock k;
      match r with inl k => Some (inl k) | inr k => count_loop n cmp SpinStart SpinEnd trylock k end
  end.
(** The number of failed attempts, and whether the blocking call was made;
    [None]: it failed, or the loop does not end. *)
Definition spin_then_block (SpinCount : nat) (cmp : Z -> Z -> bool) (SpinStart SpinEnd : Z) (trylock : nat -> Z) (lock : answer) : option (nat * bool) :=
  r ← count_loop SpinCount cmp SpinStart SpinEnd trylock 0;
  match r with
  | inl k => Some (k, false)
  | inr k => _ ← SYSCALL lock; Some (k, true)
  end.
Definition acquire (SpinStart SpinEnd : Z) (SpinCount : nat) := spin_then_block SpinCount Z.ltb SpinStart SpinEnd.
Definition acquireRead (SpinStartRead SpinEndRead : Z) (SpinCountRead : nat) := spin_then_block SpinCountRead Z.leb SpinStartRead SpinEndRead.
Definition acquireWrite (SpinStartWrite SpinEndWrite : Z) (SpinCountWrite : nat) := spin_then_block SpinCountWrite Z.leb SpinStartWrite SpinEndWrite.
Definition tryAcquire (trylock : Z) : bool := trylock =? 0.
Definition acquire_timeout (a : answer) : option bool := r ← TRY_SYSCALL a ETIMEDOUT; Some (r =? 0).
Definition release (a : answer) : option unit := _ ← SYSCALL a; Some tt.

(** * Semaphores *)

(** What a loop on a semaphore owes its caller: it takes interruptions, then one
    decisive answer, and reports that one; [gives_up]: the error that stands for
    [false]. *)
Definition interrupted (a : answer) : Prop := ret a <> 0 /\ errno a = EINTR.
Definition is_error (gives_up : option Z) (a : answer) : bool := match gives_up with Some e => errno a =? e | None => false end.
Definition verdict (gives_up : option Z) (a : answer) (rest : list answer) : result :=
  if ret a =? 0 then Some (true, rest)
  else if is_error gives_up a then Some (false, rest) else None.
Definition waits (gives_up : option Z) (op : list answer -> option result) : Prop :=
  (forall ints, Forall interrupted ints -> op ints = None) /\
  forall ints a rest, Forall interrupted ints -> ~ interrupted a -> op (ints ++ a :: rest) = Some (verdict gives_up a rest).

(** One round decides what the loop does. *)
Lemma waits_intro gives_up op : gives_up <> Some EINTR -> op [] = None ->
  (forall a l, op (a :: l) = if ret a =? 0 then Some (Some (true, l)) else
     if is_error gives_up a then Some (Some (false, l)) else
     if errno a =? EINTR then op l else Some None) -> waits gives_up op.
Proof.
  intros Hg H0 Hop. assert (Hi : forall a l, interrupted a -> op (a :: l) = op l).
  { intros a l [Hr He]. rewrite Hop. apply Z.eqb_neq in Hr as ->.
    unfold is_error. rewrite He. destruct gives_up as [e|]; [|done]. by destruct (Z.eqb_spec EINTR e) as [<-|]. }
  split.
  - induction 1 as [|a ints Ha _ IH]; [done|]. by rewrite Hi.
  - intros ints a rest Hints Ha. induction Hints as [|b ints Hb _ IH]; cbn; [|by rewrite Hi]. rewrite Hop. unfold verdict.
    destruct (Z.eqb_spec (ret a) 0); [done|]. destruct (is_error _ _); [done|]. destruct (Z.eqb_spec (errno a) EINTR); [|done]. by destruct Ha.
Qed.

(** C39. An operation of [OsSemaphore] repeats its system call while it is
    interrupted, and never otherwise; it returns [true] exactly when the last call
    has taken the semaphore, so that none is taken unreported, [false] only when
    the call says that none is there ([tryP]) or that time is up, and asserts on
    any other error. *)
Theorem os_semaphore_correct :
  waits (Some EAGAIN) tryP /\ waits (Some ETIMEDOUT) P_timeout /\ waits None (P true) /\ waits (Some EAGAIN) (P false).
Proof. split_and!; by apply waits_intro. Qed.

(** * Spinning *)

(** The attempt before [n] that succeeds first. *)
Fixpoint first_success (trylock : nat -> Z) (n k : nat) : option nat :=
  match n with O => None | S n => if trylock k =? 0 then Some k else first_success trylock n (S k) end.
Lemma first_success_add trylock n m k :
  first_success trylock (n + m) k = match first_success trylock n k with Some j => Some j | None => first_success trylock m (n + k)%nat end.
Proof. revert k. induction n as [|n IH]; intros k; cbn; [done|]. destruct (trylock k =? 0); [done|]. rewrite IH. by rewrite Nat.add_succ_r. Qed.

(** [n] attempts cover the interval: it is the logarithm of the ratio, rounded up. *)
Definition attempts (SpinStart SpinEnd : Z) (n : nat) : Prop :=
  SpinEnd <= SpinStart * 2 ^ Z.of_nat n /\ forall m, (m < n)%nat -> SpinStart * 2 ^ Z.of_nat m < SpinEnd.
Lemma attempts_ex SpinStart SpinEnd N : 0 < SpinStart -> SpinEnd <= SpinStart * 2 ^ Z.of_nat N ->
  exists n, (n <= N)%nat /\ attempts SpinStart SpinEnd n.
Proof.
  intros Hs. induction N as [|N IH]; intros HN; [by exists 0%nat; split; [lia|split; [done|lia]]|].
  destruct (Z_le_gt_dec SpinEnd (SpinStart * 2 ^ Z.of_nat N)) as [Hle|Hgt].
  - destruct (IH Hle) as (n & ? & ?). exists n. split; [lia|done].
  - exists (S N). split; [lia|]. split; [done|]. intros m Hm. assert (2 ^ Z.of_nat m <= 2 ^ Z.of_nat N) by (apply Z.pow_le_mono_r; lia). nia.
Qed.
Lemma spin_loop_ok n : forall fuel spin SpinEnd trylock k, (n <= fuel)%nat -> attempts spin SpinEnd n ->
  spin_loop fuel Z.ltb spin SpinEnd trylock k = Some (match first_success trylock n k with Some j => inl j | None => inr (n + k)%nat end).
Proof.
  induction n as [|n IH]; intros fuel spin SpinEnd trylock k Hf [Hle Hlt].
  - rewrite Z.mul_1_r in Hle. destruct fuel; cbn; (destruct (Z.ltb_spec spin SpinEnd); [lia|done]).
  - destruct fuel as [|fuel]; [lia|]. cbn. specialize (Hlt 0%nat ltac:(lia)) as H0. destruct (Z.ltb_spec spin SpinEnd); [|lia].
    destruct (trylock k =? 0); [done|]. rewrite (IH fuel (spin + spin)); [by rewrite Nat.add_succ_r|lia|]. split.
    + rewrite Nat2Z.inj_succ, Z.pow_succ_r in Hle by lia. lia.
    + intros m Hm. specialize (Hlt (S m) ltac:(lia)). rewrite Nat2Z.inj_succ, Z.pow_succ_r in Hlt by lia. lia.
Qed.
Lemma count_loop_ok c n SpinStart SpinEnd trylock k : (n <= 64)%nat -> attempts SpinStart SpinEnd n ->
  count_loop c Z.ltb SpinStart SpinEnd trylock k =
    Some (match first_success trylock (c * n) k with Some j => inl j | None => inr (c * n + k)%nat end).
Proof.
  intros Hn Ha. revert k. induction c as [|c IH]; intros k; [done|]. cbn [count_loop]. rewrite (spin_loop_ok n) by done. cbn [mbind option_bind].
  change (S c * n)%nat with (n + c * n)%nat. rewrite first_success_add. destruct (first_success trylock n k); [done|].
  rewrite IH. destruct (first_success trylock (c * n) (n + k)); [done|]. do 2 f_equal. lia.
Qed.

(** C40. [OsLock::acquire] ends: with spin limits that fit an [int] it makes at most
    [SpinCount] times the binary logarithm of the ratio of its limits attempts,
    stops at the first that succeeds, and calls [pthread_mutex_lock] once when all
    fail; the spinning time stays below twice the limit. *)
Theorem os_lock_acquire_bound SpinStart SpinEnd SpinCount : 0 < SpinStart -> SpinEnd <= 2 ^ 30 ->
  exists n, attempts SpinStart SpinEnd n /\ (n <= 30)%nat /\ SpinStart * 2 ^ Z.of_nat n < 2 * Z.max SpinStart SpinEnd /\
  forall trylock lock, acquire SpinStart SpinEnd SpinCount trylock lock =
    match first_success trylock (SpinCount * n) 0 with
    | Some k => Some (k, false)
    | None => _ ← SYSCALL lock; Some ((SpinCount * n)%nat, true)
    end.
Proof.
  intros Hs He. destruct (attempts_ex SpinStart SpinEnd 30) as (n & Hn & Ha); [done|change (2 ^ Z.of_nat 30) with (2 ^ 30); nia|].
  exists n. split_and!; [done|done| |].
  - destruct n as [|n]; [cbn; lia|]. destruct Ha as [_ Hlt]. specialize (Hlt n ltac:(lia)). rewrite Nat2Z.inj_succ, Z.pow_succ_r by lia. lia.
  - intros trylock lock. unfold acquire, spin_then_block. rewrite (count_loop_ok SpinCount n) by (done || lia). cbn [mbind option_bind].
    destruct (first_success _ _ _); [done|]. by rewrite Nat.add_0_r.
Qed.
Lemma os_lock_acquire_bound_witness : exists n, attempts 4 128 n /\ (n <= 30)%nat /\ 4 * 2 ^ Z.of_nat n < 2 * Z.max 4 128 /\
  forall trylock lock, acquire 4 128 3 trylock lock =
    match first_success trylock (3 * n) 0 with Some k => Some (k, false) | None => _ ← SYSCALL lock; Some ((3 * n)%nat, true) end.
Proof. apply (os_lock_acquire_bound 4 128 3); [reflexivity|vm_compute; discriminate]. Defined.
Example acquire_15 : acquire 4 128 3 (fun _ => 16) (mkAnswer 0 0) = Some (15%nat, true).
Proof. reflexivity. Qed.
(** The read and write locks make one more attempt when the limit is reached exactly. *)
Lemma acquireRead_acquire SpinStart SpinEnd c trylock lock :
  acquireRead SpinStart SpinEnd c trylock lock = acquire SpinStart (SpinEnd + 1) c trylock lock.
Proof.
  assert (Hs : forall fuel spin k, spin_loop fuel Z.leb spin SpinEnd trylock k = spin_loop fuel Z.ltb spin (SpinEnd + 1) trylock k).
  { assert (Hc : forall x, (x <=? SpinEnd) = (x <? SpinEnd + 1)) by (intros x; apply eq_bool_prop_intro; rewrite !Is_true_true, Z.leb_le, Z.ltb_lt; lia).
    induction fuel as [|fuel IH]; intros spin k; cbn; rewrite Hc; [done|]. by rewrite IH. }
  unfold acquireRead, acquire, spin_then_block. f_equal. generalize 0%nat. induction c as [|c IH]; intros k; [done|].
  cbn [count_loop]. rewrite Hs. destruct (spin_loop _ _ _ _ _ _) as [[]|]; cbn; done.
Qed.

(** The test of the error code also looks at [errno], which the calls of the
    thread library do not set: an error passes for a timeout when an earlier call
    has left [ETIMEDOUT] there. *)
Lemma stale_errno_accepted : acquire_timeout (mkAnswer 22 ETIMEDOUT) = Some false /\ acquire_timeout (mkAnswer 22 0) = None.
Proof. done. Qed.
