(* ===== verification/HaltSemaphores.v ===== *)
(** What a halting worker relies on, and the default implementation.

    [BaseProcessor::halt] waits on a [HaltSemaphore] ([src/runtime]), which is an
    [OsSemaphore] by default, the worker's ring with [TESTING_WORKER_IO_URING]
    (Urings) and the worker's poller with [TESTING_WORKER_POLLER]
    (WorkerPollers).  The class below is the contract that the three share. *)
From S2P Require Import Prelude OsLocks.
Local Open Scope Z_scope.

Definition HaltSpinMax : nat := 64.

(** * The contract

    Each wake-up puts a token, of which there is at most one, and [halt] returns
    when it takes it. *)
Class HaltSemaphore {S L : Type} (init : S -> Prop) (step : L -> S -> option S) := {
  tokens : S -> Z;
  wakes : L -> bool;          (* this move is V *)
  returns : S -> S -> bool;   (* this move ends halt *)
  tokens_init s : init s -> tokens s = 0;
  tokens_bound s : reachable init step s -> 0 <= tokens s <= 1;
  tokens_step s l s' : reachable init step s -> step l s = Some s' ->
    tokens s' = tokens s + Z.b2z (wakes l) - Z.b2z (returns s s')
}.

Section Client.
Context {S L : Type} (init : S -> Prop) (step : L -> S -> option S) `{!HaltSemaphore init step}.

Fixpoint wakeups (ls : list L) : Z := match ls with [] => 0 | l :: ls => Z.b2z (wakes l) + wakeups ls end.
Fixpoint halts (ls : list L) (s : S) : Z :=
  match ls with
  | [] => 0
  | l :: ls => match step l s with Some s' => Z.b2z (returns s s') + halts ls s' | None => 0 end
  end.

Lemma halts_wakeups ls s s' : reachable init step s -> run step ls s = Some s' -> tokens s' = tokens s + wakeups ls - halts ls s.
Proof.
  revert s. induction ls as [|l ls IH]; intros s Hr; cbn; [intros [= <-]; lia|].
  destruct (step l s) as [t|] eqn:E; [|done]. cbn. intros Ht.
  rewrite (IH t) by (done || by eapply reach_step). rewrite (tokens_step s l t Hr E). lia.
Qed.

(** No wake-up is lost and none is used twice: in every run the worker has
    returned from [halt] as often as it was woken, or once less. *)
Lemma halts_match_wakeups ls s s' : init s -> run step ls s = Some s' -> halts ls s <= wakeups ls <= halts ls s + 1.
Proof.
  intros Hi Hr. pose proof (reach_init init step s Hi) as Hs. pose proof (halts_wakeups ls s s' Hs Hr) as H. rewrite (tokens_init s Hi) in H.
  pose proof (tokens_bound s' (run_reachable init step ls s s' Hs Hr)). lia.
Qed.
End Client.

(** * The default: [OsSemaphore] *)
Module OsHalt.

(** The worker outside of [halt], before the [i]-th [tryP], before [P]. *)
Inductive hpc := Run | Spin (i : nat) | Block.
Record state := mkState { value : Z; pc : hpc; listed : bool; aborted : bool }.
Inductive label :=
| Halt                 (* IdleManager::block: the processor is listed, then halts *)
| Move (ints : nat)    (* the worker: a call that is interrupted so often *)
| Wake.                (* IdleManager::unblock: off the list, then wake *)

(** The answers of a semaphore to a call that is interrupted [n] times; a call
    of [sem_wait] with value 0 does not return. *)
Definition answers (n : nat) (try : bool) (v : Z) : list answer :=
  replicate n (mkAnswer (-1) EINTR) ++ (if 0 <? v then [mkAnswer 0 0] else if try then [mkAnswer (-1) EAGAIN] else []).

Definition halt (ints : nat) (s : state) : option state :=
  match pc s with
  | Run => None
  | Spin i =>
      match OsLocks.P false (answers ints true (value s)) with
      | Some (Some (true, _)) => Some (mkState (value s - 1) Run (listed s) (aborted s))
      | Some (Some (false, _)) => Some (mkState (value s) (if (S i <? HaltSpinMax)%nat then Spin (S i) else Block) (listed s) (aborted s))
      | Some None => Some (mkState (value s) Run (listed s) true)
      | None => None
      end
  | Block =>
      match OsLocks.P true (answers ints false (value s)) with
      | Some (Some _) => Some (mkState (value s - 1) Run (listed s) (aborted s))
      | Some None => Some (mkState (value s) Run (listed s) true)
      | None => None
      end
  end.
Definition step (l : label) (s : state) : option state :=
  match l with
  | Halt => match pc s with Run => Some (mkState (value s) (Spin 0) true (aborted s)) | _ => None end
  | Move n => halt n s
  | Wake => if listed s then Some (mkState (value s + 1) (pc s) false (aborted s)) else None
  end.
Definition init (s : state) : Prop := s = mkState 0 Run false false.

Definition halting (p : hpc) : bool := match p with Run => false | _ => true end.
Record inv (s : state) : Prop := mkInv {
  i_ok : aborted s = false;
  i_value : value s = if halting (pc s) && negb (listed s) then 1 else 0;
  i_listed : listed s = true -> halting (pc s) = true
}.

Lemma answers_interrupted n try v op gives_up : waits gives_up op ->
  op (answers n try v) = if 0 <? v then Some (verdict gives_up (mkAnswer 0 0) [])
                         else if try then Some (verdict gives_up (mkAnswer (-1) EAGAIN) []) else None.
Proof.
  intros [Hnone Hsome]. assert (Hi : Forall interrupted (replicate n (mkAnswer (-1) EINTR))) by (by apply Forall_replicate).
  unfold answers. destruct (0 <? v); [apply Hsome; [done|by intros [? _]]|]. destruct try.
  - apply Hsome; [done|]. by intros [_ ?].
  - rewrite app_nil_r. by apply Hnone.
Qed.
Lemma halt_spin n i s : pc s = Spin i ->
  halt n s = Some (if 0 <? value s then mkState (value s - 1) Run (listed s) (aborted s)
                   else mkState (value s) (if (S i <? HaltSpinMax)%nat then Spin (S i) else Block) (listed s) (aborted s)).
Proof.
  intros Hpc. unfold halt. rewrite Hpc. rewrite (answers_interrupted n true (value s) (OsLocks.P false) (Some EAGAIN)) by (by apply waits_intro).
  by destruct (0 <? value s).
Qed.
Lemma halt_block n s : pc s = Block -> halt n s = if 0 <? value s then Some (mkState (value s - 1) Run (listed s) (aborted s)) else None.
Proof.
  intros Hpc. unfold halt. rewrite Hpc. rewrite (answers_interrupted n false (value s) (OsLocks.P true) None) by (by apply waits_intro).
  by destruct (0 <? value s).
Qed.

Definition halted (s s' : state) : bool := halting (pc s) && negb (halting (pc s')).
Lemma os_halt_step s l s' : inv s -> step l s = Some s' ->
  inv s' /\ value s' = value s + Z.b2z (match l with Wake => true | _ => false end) - Z.b2z (halted s s').
Proof.
  intros [Hok Hv Hl] Hs. unfold halted. destruct l as [|n|]; cbn in Hs.
  - destruct (pc s) eqn:E; try done. injection Hs as <-. cbn in *. split; [by constructor|lia].
  - destruct (pc s) as [|i|] eqn:E; [unfold halt in Hs; by rewrite E in Hs|rewrite (halt_spin n i s E) in Hs|rewrite (halt_block n s E) in Hs];
      cbn in Hv; destruct (listed s) eqn:El; cbn in Hv; rewrite Hv in Hs; cbn in Hs; try done; injection Hs as <-;
      try destruct (i <=? 62)%nat; (split; [by constructor|cbn; lia]).
  - destruct (listed s) eqn:E; [|done]. injection Hs as <-. rewrite (Hl eq_refl) in Hv. cbn in Hv. cbn. rewrite (Hl eq_refl). cbn. split; [|lia].
    constructor; cbn; try done. rewrite (Hl eq_refl). cbn. lia.
Qed.
Lemma os_halt_inv s : reachable init step s -> inv s.
Proof. apply invariant_rule; [by intros ? ->|]. intros t l t' Ht Hs. by apply (os_halt_step t l t'). Qed.

#[export] Instance os_halt : HaltSemaphore init step.
Proof.
  refine (Build_HaltSemaphore _ _ init step value (fun l => match l with Wake => true | _ => false end) halted _ _ _).
  - by intros s ->.
  - intros s Hr. rewrite (i_value s (os_halt_inv s Hr)). destruct (_ && _); lia.
  - intros s l s' Hr Hs. by apply (os_halt_step s l s' (os_halt_inv s Hr)).
Defined.
End OsHalt.
