(* ===== verification/SpinLocks.v ===== *)
(** The spin locks of src/src/runtime/SpinLocks.h, each as the sequence of its
    accesses to shared memory, interleaved over any number of threads, and the
    interface they promise to the code that brackets its critical sections with
    them ([ScopedLock]). *)

From S2P Require Import Prelude Words.
Local Open Scope Z_scope.

(** * The interface: at most one thread is inside *)
Class Exclusive {S L : Type} (init : S -> Prop) (step : L -> S -> option S) (inside : S -> nat -> Prop) : Prop :=
  exclusive s i j : reachable init step s -> inside s i -> inside s j -> i = j.

(** * BinaryLock *)
Module Binary.
Inductive pc := Idle | Test | TAS | AcqTAS (spin : Z) | AcqWait (spin : Z) | Inside.

Record state := mkState { locked : bool; pcs : list pc; aborted : bool }.

Inductive label := TryAcquire (i : nat) | Acquire (i : nat) | Go (i : nat) | Release (i : nat).

(** [__atomic_test_and_set(&locked)]: the old value, and the lock taken. *)
Definition test_and_set (l : bool) : bool * bool := (l, true).

(** The next access of a thread in [tryAcquire] or [acquire]. *)
Definition go (SpinEnd : Z) (c : pc) (l : bool) : option (pc * bool) :=
  match c with
  | Test => Some (if l then (Idle, l) else (TAS, l))
  | TAS => let '(old, l') := test_and_set l in Some (if old then Idle else Inside, l')
  | AcqTAS spin =>
      let '(old, l') := test_and_set l in
      Some (if old then AcqWait (if spin <? SpinEnd then spin + spin else spin) else Inside, l')
  | AcqWait spin => Some (if l then AcqWait spin else AcqTAS spin, l)
  | _ => None
  end.

Definition step (SpinStart SpinEnd : Z) (l : label) (s : state) : option state :=
  let 'mkState lk ps ab := s in
  match l with
  | TryAcquire i => match ps !! i with Some Idle => Some (mkState lk (<[i := Test]> ps) ab) | _ => None end
  | Acquire i => match ps !! i with Some Idle => Some (mkState lk (<[i := AcqTAS SpinStart]> ps) ab) | _ => None end
  | Go i => c ← ps !! i; '(c', lk') ← go SpinEnd c lk; Some (mkState lk' (<[i := c']> ps) ab)
  | Release i =>
      match ps !! i with
      | Some Inside => if lk then Some (mkState false (<[i := Idle]> ps) ab) else Some (mkState lk ps true)
      | _ => None
      end
  end.

Definition init (s : state) : Prop := exists n, s = mkState false (replicate n Idle) false.
Definition is_inside (c : pc) : bool := match c with Inside => true | _ => false end.
Definition inside (s : state) (i : nat) : Prop := pcs s !! i = Some Inside.

Definition inv (s : state) : Prop := cnt is_inside (pcs s) = Z.b2z (locked s) /\ aborted s = false.

Lemma binary_step_inv a b l s s' : inv s -> step a b l s = Some s' -> inv s'.
Proof.
  destruct s as [lk ps ab]. intros [Hc Hab] Hs. cbn in *. subst ab.
  destruct l as [i|i|i|i]; cbn [step] in Hs; destruct (ps !! i) as [c|] eqn:Ei; try done; cbn in Hs.
  - destruct c; simplify_eq. split; cbn [locked pcs aborted]; [|done]. counts. cbn in *. lia.
  - destruct c; simplify_eq. split; cbn [locked pcs aborted]; [|done]. counts. cbn in *. lia.
  - destruct c, lk; cbn in Hs; simplify_eq; (split; cbn [locked pcs aborted]; [|done]); cbn in *; counts; cbn in *; lia.
  - destruct c; try done. pose proof (cnt_member is_inside ps i _ Ei).
    destruct lk; simplify_eq; cbn in *; [|lia]. split; cbn [locked pcs aborted]; [counts; cbn in *; lia|done].
Qed.

Lemma binary_reachable_inv a b s : reachable init (step a b) s -> inv s.
Proof.
  apply invariant_rule; [|intros ? ? ?; apply binary_step_inv]. intros s0 (n & ->).
  split; [|done]. cbn. rewrite cnt_replicate. simpl. lia.
Qed.

#[export] Instance exclusive_lock a b : Exclusive init (step a b) inside.
Proof.
  intros s i j [Hc _]%binary_reachable_inv Hi Hj. destruct (decide (i = j)); [done|].
  pose proof (cnt_two is_inside _ i j _ _ Hi Hj ltac:(done) eq_refl eq_refl). destruct (locked s); simpl in Hc; lia.
Qed.
End Binary.

(** * BinaryOwnerLock: [caller] identifiers are thread numbers, [noOwner] the
    largest word *)
Module Owner.
Definition noOwner : Z := limit W.

Inductive pc := Idle | AcqCAS | TryCAS | Got | Inside.
Record state := mkState { owner : Z; counter : Z; pcs : list pc; aborted : bool }.
Inductive label := TryAcquire (i : nat) | Acquire (i : nat) | Go (i : nat) | Release (full : bool) (i : nat).

(** [_CAS(&owner, noOwner, caller)] *)
Definition cas_owner (o caller : Z) : bool * Z := if o =? noOwner then (true, caller) else (false, o).

Definition step (l : label) (s : state) : option state :=
  let 'mkState o c ps ab := s in
  match l with
  | TryAcquire i =>
      match ps !! i with
      | Some Idle | Some Inside =>
          if o =? Z.of_nat i then Some (mkState o c (<[i := Got]> ps) ab)
          else if o =? noOwner then Some (mkState o c (<[i := TryCAS]> ps) ab)
          else Some s
      | _ => None
      end
  | Acquire i =>
      match ps !! i with
      | Some Idle | Some Inside =>
          Some (mkState o c (<[i := if o =? Z.of_nat i then Got else AcqCAS]> ps) ab)
      | _ => None
      end
  | Go i =>
      match ps !! i with
      | Some TryCAS => let '(ok, o') := cas_owner o (Z.of_nat i) in
                       Some (mkState o' c (<[i := if ok then Got else Idle]> ps) ab)
      | Some AcqCAS => let '(ok, o') := cas_owner o (Z.of_nat i) in
                       Some (mkState o' c (<[i := if ok then Got else AcqCAS]> ps) ab)
      | Some Got => Some (mkState o (wrap W (c + 1)) (<[i := Inside]> ps) ab)
      | _ => None
      end
  | Release full i =>
      match ps !! i with
      | Some Inside =>
          if o =? Z.of_nat i then
            let c' := if full then 0 else wrap W (c - 1) in
            Some (mkState (if c' =? 0 then noOwner else o) c' (<[i := if c' =? 0 then Idle else Inside]> ps) ab)
          else Some (mkState o c ps true)
      | _ => None
      end
  end.

Definition init (s : state) : Prop :=
  exists n, Z.of_nat n < noOwner /\ s = mkState noOwner 0 (replicate n Idle) false.
Definition in_it (c : pc) : bool := match c with Got | Inside => true | _ => false end.
Definition inside (s : state) (i : nat) : Prop := exists c, pcs s !! i = Some c /\ in_it c = true.

Definition inv (s : state) : Prop :=
  Z.of_nat (length (pcs s)) < noOwner /\ aborted s = false /\
  (forall i, inside s i <-> owner s = Z.of_nat i /\ (i < length (pcs s))%nat).

Lemma small_not_free (n i : nat) : Z.of_nat n < noOwner -> (i < n)%nat -> Z.of_nat i <> noOwner.
Proof. lia. Qed.

Lemma inside_moved o c ps ab (i j : nat) x y o' c' :
  ps !! i = Some x ->
  inside (mkState o' c' (<[i := y]> ps) ab) j <->
  (if decide (i = j) then in_it y = true else inside (mkState o c ps ab) j).
Proof.
  intros Hi. unfold inside. cbn [pcs]. destruct (decide (i = j)) as [<-|Hne].
  - rewrite list_lookup_insert_eq by (by eapply lookup_lt_Some). naive_solver.
  - by rewrite list_lookup_insert_ne.
Qed.

Lemma owner_step_inv l s s' : inv s -> step l s = Some s' -> inv s'.
Proof.
  destruct s as [o c ps ab]. intros (Hn & Hab & Ho) Hs. cbn in Hab. subst ab.
  assert (Hgo : forall i x y o' c', ps !! i = Some x ->
    (in_it y = true <-> o' = Z.of_nat i) ->
    (forall j, i <> j -> (j < length ps)%nat -> (o = Z.of_nat j <-> o' = Z.of_nat j)) ->
    inv (mkState o' c' (<[i := y]> ps) false)).
  { intros i x y o' c' Hi Hy Hj. split; [by cbn; rewrite length_insert|]. split; [done|].
    intros j. rewrite (inside_moved o c ps false i j x y o' c' Hi). cbn [owner pcs]. rewrite length_insert.
    destruct (decide (i = j)) as [<-|Hne].
    - rewrite Hy. apply lookup_lt_Some in Hi. tauto.
    - rewrite (Ho j). cbn [owner pcs]. specialize (Hj j Hne). naive_solver. }
  assert (Hsmall : forall i, (i < length ps)%nat -> Z.of_nat i <> noOwner) by (intros i Hi; cbn in Hn; lia).
  assert (Hin : forall i x, ps !! i = Some x -> in_it x = true <-> o = Z.of_nat i).
  { intros i x Hi. pose proof (lookup_lt_Some _ _ _ Hi). specialize (Ho i). cbn in Ho. unfold inside in Ho. cbn in Ho.
    naive_solver. }
  destruct l as [i|i|i|full i]; cbn [step] in Hs; destruct (ps !! i) as [x|] eqn:Ei; try done;
    pose proof (Hin _ _ Ei) as Hx; pose proof (lookup_lt_Some _ _ _ Ei) as Hlt; pose proof (Hsmall i Hlt) as Hni.
  - destruct x; try done; (destruct (o =? Z.of_nat i) eqn:E; [|destruct (o =? noOwner) eqn:E']); bool_prop; simplify_eq;
      try (split; [done|]; split; [done|exact Ho]); (eapply Hgo; [exact Ei| |]; clear Hgo Ho Hin; cbn in *; naive_solver).
  - destruct x; try done; destruct (o =? Z.of_nat i) eqn:E; bool_prop; simplify_eq;
      (eapply Hgo; [exact Ei| |]; clear Hgo Ho Hin; cbn in *; naive_solver).
  - unfold cas_owner in Hs. destruct x; try done; [| |].
    + destruct (o =? noOwner) eqn:E; bool_prop; simplify_eq; (eapply Hgo; [exact Ei| |]; clear Hgo Ho Hin; cbn in *); naive_solver lia.
    + destruct (o =? noOwner) eqn:E; bool_prop; simplify_eq; (eapply Hgo; [exact Ei| |]; clear Hgo Ho Hin; cbn in *); naive_solver lia.
    + simplify_eq. eapply Hgo; [exact Ei| |]; clear Hgo Ho Hin; cbn in *; naive_solver.
  - destruct x; try done. assert (Ho' : o = Z.of_nat i) by (by apply Hx).
    destruct (o =? Z.of_nat i) eqn:E; bool_prop; [|done]. destruct ((if full then 0 else wrap W (c - 1)) =? 0); simplify_eq;
      (eapply Hgo; [exact Ei| |]; clear Hgo Ho Hin; cbn -[wrap] in *).
    + naive_solver.
    + intros j Hne Hj. specialize (Hsmall j Hj). split; [lia|congruence].
    + done.
    + done.
Qed.

Lemma owner_reachable_inv s : reachable init step s -> inv s.
Proof.
  apply invariant_rule; [|intros ? ? ?; apply owner_step_inv]. intros s0 (n & Hn & ->).
  split; [by cbn; rewrite length_replicate|]. split; [done|]. intros i. unfold inside. cbn [pcs owner].
  rewrite length_replicate. split.
  - intros (c & [-> _]%lookup_replicate & ?). done.
  - intros [H Hi]. lia.
Qed.

#[export] Instance exclusive_lock : Exclusive init step inside.
Proof. intros s i j (_ & _ & Ho)%owner_reachable_inv [Hi _]%Ho [Hj _]%Ho. lia. Qed.
End Owner.

(** * TicketLock: [serving] and [ticket] are [size_t]; the system stops before
    the 2^64th ticket, where they would wrap *)
Module Ticket.
Inductive pc := Idle | TryRead | TryCAS (t : Z) | Fetch | Wait (my : Z) | Inside (my : Z).
Record state := mkState { serving : Z; ticket : Z; pcs : list pc; aborted : bool }.
Inductive label := TryAcquire (i : nat) | Acquire (i : nat) | Go (i : nat) | Release (i : nat).

Definition step (l : label) (s : state) : option state :=
  let 'mkState sv tk ps ab := s in
  match l with
  | TryAcquire i =>
      match ps !! i with
      | Some Idle => if sv =? tk then Some (mkState sv tk (<[i := TryRead]> ps) ab) else Some s
      | _ => None
      end
  | Acquire i => match ps !! i with Some Idle => Some (mkState sv tk (<[i := Fetch]> ps) ab) | _ => None end
  | Go i =>
      match ps !! i with
      | Some TryRead => Some (mkState sv tk (<[i := TryCAS sv]> ps) ab)
      | Some (TryCAS t) =>
          if tk =? t then if tk <? 2 ^ 64 - 1 then Some (mkState sv (t + 1) (<[i := Inside t]> ps) ab) else None
          else Some (mkState sv tk (<[i := Idle]> ps) ab)
      | Some Fetch => if tk <? 2 ^ 64 - 1 then Some (mkState sv (tk + 1) (<[i := Wait tk]> ps) ab) else None
      | Some (Wait my) => Some (mkState sv tk (if my =? sv then <[i := Inside my]> ps else ps) ab)
      | _ => None
      end
  | Release i =>
      match ps !! i with
      | Some (Inside my) =>
          if 0 <? sword W (wrap W (tk - sv)) then Some (mkState (wrap W (sv + 1)) tk (<[i := Idle]> ps) ab)
          else Some (mkState sv tk ps true)
      | _ => None
      end
  end.

Definition init (s : state) : Prop := exists n, (Z.of_nat n < 2 ^ 63) /\ s = mkState 0 0 (replicate n Idle) false.
Definition has (m : Z) (c : pc) : bool := match c with Wait t | Inside t => t =? m | _ => false end.
Definition active (c : pc) : bool := match c with Wait _ | Inside _ => true | _ => false end.
Definition inside (s : state) (i : nat) : Prop := exists m, pcs s !! i = Some (Inside m).

Record inv (s : state) : Prop := mkInv {
  i_order : 0 <= serving s <= ticket s /\ ticket s < 2 ^ 64;
  i_one m : cnt (has m) (pcs s) = if (serving s <=? m) && (m <? ticket s) then 1 else 0;
  i_active : cnt active (pcs s) = ticket s - serving s;
  i_threads : Z.of_nat (length (pcs s)) < 2 ^ 63;
  i_inside i m : pcs s !! i = Some (Inside m) -> m = serving s;
  i_try i t : pcs s !! i = Some (TryCAS t) -> t <= serving s;
  i_ab : aborted s = false
}.

Lemma cnt_length {A} (f : A -> bool) (l : list A) : cnt f l <= Z.of_nat (length l).
Proof. induction l as [|x l IH]; simpl; [lia|]. destruct (f x); simpl; lia. Qed.

Lemma range_up sv tk m : sv <= tk ->
  (if (sv <=? m) && (m <? tk + 1) then 1 else 0) =
  (if (sv <=? m) && (m <? tk) then 1 else 0) + Z.b2z (tk =? m).
Proof.
  intros H. destruct (Z.leb_spec sv m), (Z.ltb_spec m (tk + 1)), (Z.ltb_spec m tk), (Z.eqb_spec tk m); simpl; lia.
Qed.

Lemma range_down sv tk m : sv < tk ->
  (if (sv + 1 <=? m) && (m <? tk) then 1 else 0) =
  (if (sv <=? m) && (m <? tk) then 1 else 0) - Z.b2z (sv =? m).
Proof.
  intros H. destruct (Z.leb_spec sv m), (Z.leb_spec (sv + 1) m), (Z.ltb_spec m tk), (Z.eqb_spec sv m); simpl; lia.
Qed.

(** One thread moves from [c] to [y] and the counters become [sv'] and [tk']. *)
Lemma moved sv tk ps i c y sv' tk' :
  inv (mkState sv tk ps false) -> ps !! i = Some c ->
  0 <= sv' <= tk' -> tk' < 2 ^ 64 -> sv <= sv' ->
  (forall m, (if (sv' <=? m) && (m <? tk') then 1 else 0) =
             (if (sv <=? m) && (m <? tk) then 1 else 0) - Z.b2z (has m c) + Z.b2z (has m y)) ->
  tk' - sv' = tk - sv - Z.b2z (active c) + Z.b2z (active y) ->
  (forall m, y = Inside m -> m = sv') ->
  (sv = sv' \/ forall j m, j <> i -> ps !! j <> Some (Inside m)) ->
  (forall t, y = TryCAS t -> t <= sv') ->
  inv (mkState sv' tk' (<[i := y]> ps) false).
Proof.
  intros [Ho H1 Ha Hn Hi Ht _] Ei Hr Hb Hle Hm Hact Hy Hothers Htry. cbn in *.
  split; cbn; rewrite ?length_insert; try done.
  - intros m. rewrite (cnt_insert _ _ _ _ _ Ei), H1, Hm. lia.
  - rewrite (cnt_insert _ _ _ _ _ Ei), Ha. lia.
  - intros j m Hj. destruct (lookup_moved _ _ _ _ _ _ Ei Hj) as [[<- Heq]|[Hne Hj']]; [by apply Hy|].
    destruct Hothers as [<-|Hothers]; [by eapply Hi|]. exfalso. by apply (Hothers j m); [by apply not_eq_sym|].
  - intros j u Hj. destruct (lookup_moved _ _ _ _ _ _ Ei Hj) as [[<- Heq]|[Hne Hj']]; [by apply Htry|].
    specialize (Ht j u Hj'). lia.
Qed.

(** The ticket being served is held by one thread at most. *)
Lemma inside_unique sv tk ps i j m m' :
  inv (mkState sv tk ps false) -> ps !! i = Some (Inside m) -> ps !! j = Some (Inside m') -> i = j.
Proof.
  intros [Ho H1 Ha Hn Hi Ht _] Ei Ej. cbn in *. pose proof (Hi _ _ Ei). pose proof (Hi _ _ Ej). subst.
  destruct (decide (i = j)); [done|].
  pose proof (cnt_two (has sv) ps i j _ _ Ei Ej ltac:(done) ltac:(apply Z.eqb_refl) ltac:(apply Z.eqb_refl)) as H2.
  rewrite H1 in H2. destruct ((sv <=? sv) && (sv <? tk)); lia.
Qed.

Lemma sword_pos x : 0 < x < 2 ^ 63 -> sword W (wrap W x) = x.
Proof.
  intros H. unfold wrap, sword. rewrite Z.mod_small by lia.
  replace (x <? 2 ^ (W - 1)) with true by (symmetry; apply Z.ltb_lt; lia). done.
Qed.

Lemma ticket_step_inv l s s' : inv s -> step l s = Some s' -> inv s'.
Proof.
  destruct s as [sv tk ps ab]. intros Hinv Hs. pose proof Hinv as [Ho H1 Ha Hn Hi Ht Hab]. cbn in *. subst ab.
  destruct l as [i|i|i|i]; cbn [step] in Hs; destruct (ps !! i) as [c|] eqn:Ei; try done.
  - destruct c; try done. destruct (sv =? tk); simplify_eq; [|done].
    eapply (moved sv tk); eauto; try done; try lia; intros; cbn; lia.
  - destruct c; try done. simplify_eq. eapply (moved sv tk); eauto; try done; try lia; intros; cbn; lia.
  - destruct c as [| |u| |my|my]; try done.
    + simplify_eq. eapply (moved sv tk); eauto; try done; try lia; intros; simplify_eq; cbn; lia.
    + pose proof (Ht _ _ Ei). destruct (tk =? u) eqn:E; bool_prop.
      * destruct (tk <? 2 ^ 64 - 1) eqn:E2; [|done]. bool_prop. subst u.
        assert (tk = sv) by lia. subst sv. simplify_eq.
        eapply (moved tk tk); eauto; try done; try lia; intros; simplify_eq; cbn; try lia.
        rewrite range_up by lia. lia.
      * simplify_eq. eapply (moved sv tk); eauto; try done; try lia; intros; cbn; lia.
    + destruct (tk <? 2 ^ 64 - 1) eqn:E2; [|done]. bool_prop. simplify_eq.
      eapply (moved sv tk); eauto; try done; try lia; intros; cbn; try lia. rewrite range_up by lia. lia.
    + destruct (my =? sv) eqn:E; bool_prop; simplify_eq; [|done].
      eapply (moved sv tk); eauto; try done; try lia; intros; simplify_eq; cbn; lia.
  - destruct c as [| |u| |my|my]; try done. pose proof (Hi _ _ Ei) as ->.
    pose proof (cnt_member (has sv) ps i _ Ei) as Hm. rewrite H1 in Hm. cbn in Hm. rewrite Z.eqb_refl in Hm.
    assert (Hlt : sv < tk). { destruct (Z.ltb_spec sv tk); [done|]. rewrite andb_false_r in Hm. simpl in Hm. lia. }
    pose proof (cnt_length active ps) as Hact. rewrite Ha in Hact.
    rewrite sword_pos in Hs by lia. replace (0 <? tk - sv) with true in Hs by (symmetry; apply Z.ltb_lt; lia).
    replace (wrap W (sv + 1)) with (sv + 1) in Hs by (unfold wrap; rewrite Z.mod_small; lia). simplify_eq.
    eapply (moved sv tk); eauto; try done; try lia; try (intros; cbn; lia).
    + intros m. rewrite range_down by lia. cbn. lia.
    + right. intros j m Hne Hj. apply Hne. by eapply inside_unique.
Qed.

Lemma ticket_reachable_inv s : reachable init step s -> inv s.
Proof.
  apply invariant_rule; [|intros ? ? ?; apply ticket_step_inv]. intros s0 (n & Hn & ->).
  split; cbn; rewrite ?cnt_replicate, ?length_replicate; try done; try lia.
  - intros m. rewrite cnt_replicate. simpl. destruct (Z.leb_spec 0 m), (Z.ltb_spec m 0); simpl; lia.
  - simpl. lia.
  - intros i m [? _]%lookup_replicate. done.
  - intros i m [? _]%lookup_replicate. done.
Qed.

#[export] Instance exclusive_lock : Exclusive init step inside.
Proof.
  intros s i j Hr%ticket_reachable_inv [m Hi] [m' Hj]. destruct s as [sv tk ps ab]. pose proof (i_ab _ Hr) as Hab. cbn in Hab.
  subst ab. by eapply inside_unique.
Qed.

(** [TicketLock]: at most one thread is inside, the thread inside has a
    smaller ticket than every thread that waits (first come, first served), two
    waiting threads have different tickets, a waiting thread whose ticket is
    served exists whenever threads wait and nobody is inside, and [release]'s
    assertion holds. *)
Theorem ticket_lock_fair s :
  reachable init step s ->
  aborted s = false /\
  (forall i j, inside s i -> inside s j -> i = j) /\
  (forall i m j m', pcs s !! i = Some (Inside m) -> pcs s !! j = Some (Wait m') -> m < m') /\
  (forall i j m, pcs s !! i = Some (Wait m) -> pcs s !! j = Some (Wait m) -> i = j) /\
  ((exists i m, pcs s !! i = Some (Wait m)) ->
     exists j, pcs s !! j = Some (Inside (serving s)) \/ pcs s !! j = Some (Wait (serving s))).
Proof.
  intros Hr. pose proof (ticket_reachable_inv s Hr) as Hinv. destruct s as [sv tk ps ab].
  pose proof Hinv as [Ho H1 Ha Hn Hi Ht Hab]. cbn in *. subst ab.
  assert (Hrange : forall i m c, ps !! i = Some c -> has m c = true -> sv <= m < tk).
  { intros i m c Ei Hm. pose proof (cnt_lookup _ _ _ _ Ei Hm) as H. rewrite H1 in H.
    destruct (Z.leb_spec sv m), (Z.ltb_spec m tk); simpl in H; lia. }
  assert (Hone : forall i j m c d, ps !! i = Some c -> ps !! j = Some d -> has m c = true -> has m d = true -> i = j).
  { intros i j m c d Ei Ej Hc Hd. destruct (decide (i = j)); [done|].
    pose proof (cnt_two _ _ _ _ _ _ Ei Ej n Hc Hd) as H. rewrite H1 in H. destruct (_ && _); lia. }
  split_and!; [done| | | |].
  - intros i j [m Em] [m' Em']. by eapply inside_unique.
  - intros i m j m' Em Em'. pose proof (Hi _ _ Em) as ->.
    pose proof (Hrange j m' _ Em' (Z.eqb_refl _)) as Hm'. assert (sv <> m'); [|lia]. intros <-.
    pose proof (Hone i j sv _ _ Em Em' (Z.eqb_refl _) (Z.eqb_refl _)). subst. congruence.
  - intros i j m Ei Ej. eapply (Hone i j m); eauto; apply Z.eqb_refl.
  - intros (i & m & Em). pose proof (Hrange i m _ Em (Z.eqb_refl _)) as Hm.
    destruct (cnt_pos (has sv) ps) as (j & c & Ej & Hc).
    { rewrite H1. replace ((sv <=? sv) && (sv <? tk)) with true; [lia|]. symmetry.
      apply andb_true_iff. split; [apply Z.leb_le|apply Z.ltb_lt]; lia. }
    exists j. destruct c; try done; cbn in Hc; bool_prop; subst; auto.
Qed.
End Ticket.

Lemma ticket_lock_fair_witness :
  let s := after Ticket.step (Ticket.mkState 0 0 (replicate 3 Ticket.Idle) false)
             [Ticket.Acquire 0; Ticket.Acquire 2; Ticket.Go 2; Ticket.Go 0; Ticket.Go 0; Ticket.Go 2] in
  Ticket.inside s 2 /\ forall i, Ticket.inside s i -> i = 2%nat.
Proof.
  set (ls := [Ticket.Acquire 0; Ticket.Acquire 2; Ticket.Go 2; Ticket.Go 0; Ticket.Go 0; Ticket.Go 2]).
  set (s0 := Ticket.mkState 0 0 (replicate 3 Ticket.Idle) false).
  assert (Hr : reachable Ticket.init Ticket.step (after Ticket.step s0 ls)).
  { apply after_reachable; [by exists 3%nat|vm_compute; by eexists]. }
  assert (H2 : Ticket.inside (after Ticket.step s0 ls) 2) by (exists 0; reflexivity).
  split; [exact H2|]. intros i Hi. by apply (Ticket.ticket_lock_fair _ Hr).
Defined.

(** * MCSLock: each thread has one node, named by the thread *)
Module MCS.
Inductive pc :=
| Idle
| AcqNull | AcqExch | SetWait (prev : nat) | Link (prev : nat) | Spin
| TryNull | TryTest | TryCAS
| Inside
| RelCAS | RelNext | RelWait (nx : nat).

Record state := mkState {
  tail : option nat;
  next : nat -> option nat;
  wait : nat -> bool;
  pcs : nat -> pc;
  queue : list nat;          (* threads from the exchange of [tail] to the hand-over (ghost) *)
  aborted : bool
}.

Inductive label := TryAcquire (i : nat) | Acquire (i : nat) | Go (i : nat) | Release (i : nat).

Definition step (l : label) (s : state) : option state :=
  let 'mkState tl nx wt pc q ab := s in
  match l with
  | TryAcquire i => match pc i with Idle => Some (mkState tl nx wt (upd pc i TryNull) q ab) | _ => None end
  | Acquire i => match pc i with Idle => Some (mkState tl nx wt (upd pc i AcqNull) q ab) | _ => None end
  | Release i =>
      match pc i with
      | Inside => Some (if bool_decide (tl = None) then mkState tl nx wt pc q true
                        else mkState tl nx wt (upd pc i RelCAS) q ab)
      | _ => None
      end
  | Go i =>
      match pc i with
      | AcqNull => Some (mkState tl (upd nx i None) wt (upd pc i AcqExch) q ab)
      | AcqExch =>
          Some (mkState (Some i) nx wt
                  (upd pc i (match tl with None => Inside | Some prev => SetWait prev end)) (q ++ [i]) ab)
      | SetWait prev => Some (mkState tl nx (upd wt i true) (upd pc i (Link prev)) q ab)
      | Link prev => Some (mkState tl (upd nx prev (Some i)) wt (upd pc i Spin) q ab)
      | Spin => Some (mkState tl nx wt (if wt i then pc else upd pc i Inside) q ab)
      | TryNull => Some (mkState tl (upd nx i None) wt (upd pc i TryTest) q ab)
      | TryTest => Some (mkState tl nx wt (upd pc i (if bool_decide (tl = None) then TryCAS else Idle)) q ab)
      | TryCAS =>
          if bool_decide (tl = None) then Some (mkState (Some i) nx wt (upd pc i Inside) (q ++ [i]) ab)
          else Some (mkState tl nx wt (upd pc i Idle) q ab)
      | RelCAS =>
          if bool_decide (tl = Some i) then Some (mkState None nx wt (upd pc i Idle) (list.tail q) ab)
          else Some (mkState tl nx wt (upd pc i RelNext) q ab)
      | RelNext =>
          Some (match nx i with
                | None => s
                | Some n => mkState tl nx wt (upd pc i (RelWait n)) q ab
                end)
      | RelWait n => Some (mkState tl nx (upd wt n false) (upd pc i Idle) (list.tail q) ab)
      | _ => None
      end
  end.

Definition init (s : state) : Prop :=
  exists nx wt, s = mkState None nx wt (fun _ => Idle) [] false.

(** Has the lock: from the acquisition to the step that hands it over. *)
Definition holding (c : pc) : bool :=
  match c with Inside | RelCAS | RelNext | RelWait _ => true | _ => false end.
Definition queued (c : pc) : bool :=
  match c with SetWait _ | Link _ | Spin => true | _ => holding c end.
Definition inside (s : state) (i : nat) : Prop := holding (pcs s i) = true.

Definition head_ok (s : state) (h : nat) : Prop :=
  match pcs s h with
  | Inside | RelCAS => True
  | RelNext => tail s <> Some h
  | RelWait n => next s h = Some n
  | Spin => wait s h = false
  | _ => False
  end.

Definition link_ok (s : state) (p n : nat) : Prop :=
  match pcs s n with
  | SetWait p' => p' = p /\ next s p = None
  | Link p' => p' = p /\ next s p = None /\ wait s n = true
  | Spin => next s p = Some n /\ wait s n = true
  | _ => False
  end.

Record inv (s : state) : Prop := mkInv {
  i_tail : tail s = last (queue s);
  i_nodup : NoDup (queue s);
  i_queued i : i ∈ queue s <-> queued (pcs s i) = true;
  i_head h : head (queue s) = Some h -> head_ok s h;
  i_link p n : adj (queue s) p n -> link_ok s p n;
  i_last z : last (queue s) = Some z -> next s z = None;
  i_fresh i : pcs s i = AcqExch \/ pcs s i = TryTest \/ pcs s i = TryCAS -> next s i = None;
  i_ab : aborted s = false
}.

Ltac fields := cbn [tail next wait pcs queue aborted] in *.

(** A thread outside the queue does something private. *)
Lemma private_ok tl nx wt pc q i c nx' :
  inv (mkState tl nx wt pc q false) -> queued (pc i) = false -> queued c = false ->
  (forall j, j <> i -> nx' j = nx j) ->
  (c = AcqExch \/ c = TryTest \/ c = TryCAS -> nx' i = None) ->
  inv (mkState tl nx' wt (upd pc i c) q false).
Proof.
  intros [Ht Hn Hq Hh Hl Hz Hf _] Hi Hc Hnx Hfr. fields.
  assert (Hiq : i ∉ q) by (rewrite Hq; congruence).
  assert (Hne : forall j, j ∈ q -> i <> j) by (intros j Hj ->; done).
  split; fields; try done.
  - intros j. at_fred j i; [|apply Hq]. rewrite Hq, Hi, Hc. done.
  - intros h Hhd. specialize (Hh h Hhd). unfold head_ok in *. fields.
    assert (Hhi : i <> h) by (apply Hne; destruct q; simplify_eq/=; by left).
    rewrite upd_ne, Hnx by (done || by apply not_eq_sym). done.
  - intros p n Hadj. specialize (Hl p n Hadj). unfold link_ok in *. fields.
    destruct (adj_in _ _ _ Hadj) as [Hp Hn'].
    rewrite upd_ne, Hnx by (by apply Hne || (apply not_eq_sym; by apply Hne)). done.
  - intros z Hlast. rewrite Hnx; [by apply Hz|]. intros ->. apply Hiq. by apply last_Some_elem_of.
  - intros j. at_fred j i; [apply Hfr|]. intros Hj. rewrite Hnx by (by apply not_eq_sym). by apply Hf.
Qed.

(** The exchange of [tail] (or its compare-and-swap when it is null). *)
Lemma exch_ok tl nx wt pc q i :
  inv (mkState tl nx wt pc q false) -> queued (pc i) = false -> nx i = None ->
  inv (mkState (Some i) nx wt (upd pc i (match tl with None => Inside | Some prev => SetWait prev end)) (q ++ [i]) false).
Proof.
  intros [Ht Hn Hq Hh Hl Hz Hf _] Hi Hnx. fields.
  assert (Hiq : i ∉ q) by (rewrite Hq; congruence).
  assert (Hne : forall j, j ∈ q -> i <> j) by (intros j Hj ->; done).
  set (c := match tl with None => Inside | Some prev => SetWait prev end).
  assert (Hc : queued c = true) by (unfold c; by destruct tl).
  split; fields; try done.
  - by rewrite last_snoc.
  - apply NoDup_app. split_and!; [done| |apply NoDup_singleton]. intros x Hx ->%list_elem_of_singleton. done.
  - intros j. rewrite elem_of_app, list_elem_of_singleton. at_fred j i; [tauto|]. rewrite Hq. naive_solver.
  - intros h Hhd. destruct q as [|h' q].
    + simpl in *. simplify_eq. unfold head_ok. fields. by rewrite upd_eq.
    + simpl in Hhd. simplify_eq. specialize (Hh h eq_refl). unfold head_ok in *. fields.
      rewrite upd_ne by (apply Hne; by left). destruct (pc h); try done. intros [= ->]. apply Hiq. by left.
  - intros p n [Hadj|[Hlast ->]]%adj_snoc.
    + destruct (adj_in _ _ _ Hadj) as [Hp Hn']. specialize (Hl p n Hadj). unfold link_ok in *. fields.
      by rewrite upd_ne by (by apply Hne).
    + unfold link_ok. fields. rewrite upd_eq. unfold c. rewrite Ht, Hlast. split; [done|]. by apply Hz.
  - intros z. rewrite last_snoc. by intros [= <-].
  - intros j. at_fred j i; [by destruct tl; naive_solver|]. apply Hf.
Qed.

(** Only the first of the queue holds the lock. *)
Lemma holding_head s i : inv s -> holding (pcs s i) = true -> head (queue s) = Some i.
Proof.
  intros Hinv Hi. assert (Hq : i ∈ queue s) by (apply (i_queued _ Hinv); unfold queued; by destruct (pcs s i)).
  destruct (in_queue _ _ Hq) as [?|[p Hp]]; [done|]. apply (i_link _ Hinv) in Hp. unfold link_ok in Hp.
  by destruct (pcs s i).
Qed.

(** A thread that is not the first has a predecessor. *)
Lemma has_pred s i : inv s -> i ∈ queue s -> ~ head_ok s i -> exists p, adj (queue s) p i /\ link_ok s p i.
Proof.
  intros Hinv Hq Hh. destruct (in_queue _ _ Hq) as [Hhd|[p Hp]].
  - by apply (i_head _ Hinv) in Hhd.
  - exists p. split; [done|]. by apply (i_link _ Hinv).
Qed.

(** A queued thread moves on within the queue; [nx'] and [wt'] may differ from
    before only as the hypotheses say. *)
Lemma queued_ok tl nx wt pc q i c nx' wt' :
  inv (mkState tl nx wt pc q false) -> queued (pc i) = true -> queued c = true ->
  (forall j, j <> i -> wt' j = wt j) ->
  (forall h, head q = Some h -> h <> i -> head_ok (mkState tl nx wt pc q false) h -> nx' h = nx h \/ pc h = RelNext \/ pc h = Inside \/ pc h = RelCAS \/ pc h = Spin) ->
  (head q = Some i -> head_ok (mkState tl nx' wt' (upd pc i c) q false) i) ->
  (forall p n, adj q p n -> n <> i -> nx' p = nx p) ->
  (forall p, adj q p i -> link_ok (mkState tl nx' wt' (upd pc i c) q false) p i) ->
  (forall z, last q = Some z -> nx' z = None) ->
  (forall j, j ∉ q -> nx' j = nx j) ->
  inv (mkState tl nx' wt' (upd pc i c) q false).
Proof.
  intros [Ht Hn Hq Hh Hl Hz Hf _] Hi Hc Hwt Hhd Hhi Hnx Hli Hlast Hout. fields.
  split; fields; try done.
  - intros j. at_fred j i; [by rewrite Hq, Hi, Hc|apply Hq].
  - intros h Hhead. destruct (decide (h = i)) as [->|Hne]; [by apply Hhi|].
    specialize (Hh h Hhead). specialize (Hhd h Hhead Hne Hh). unfold head_ok in *. fields.
    rewrite upd_ne, Hwt by (done || by apply not_eq_sym). destruct (pc h); try done.
    destruct Hhd as [->|Hhd]; [done|]. naive_solver.
  - intros p n Hadj. destruct (decide (n = i)) as [->|Hne]; [by apply Hli|].
    specialize (Hl p n Hadj). unfold link_ok in *. fields.
    rewrite upd_ne, Hwt, (Hnx p n) by (done || by apply not_eq_sym). done.
  - intros j Hj. rewrite Hout.
    + apply Hf. revert Hj. at_fred j i; [destruct c; naive_solver|done].
    + rewrite Hq. revert Hj. at_fred j i; [by destruct c; naive_solver|]. intros [->|[->| ->]]; done.
Qed.

Lemma set_wait_ok tl nx wt pc q i p :
  inv (mkState tl nx wt pc q false) -> pc i = SetWait p ->
  inv (mkState tl nx (upd wt i true) (upd pc i (Link p)) q false).
Proof.
  intros Hinv Hi. assert (Hq : i ∈ q) by (apply (i_queued _ Hinv); fields; by rewrite Hi).
  destruct (has_pred _ i Hinv Hq) as (p' & Hadj & Hlk); [unfold head_ok; fields; by rewrite Hi; intros []|].
  unfold link_ok in Hlk. fields. rewrite Hi in Hlk. destruct Hlk as [<- Hnx].
  pose proof (i_nodup _ Hinv) as Hn. fields.
  apply (queued_ok tl nx wt); try done; [by rewrite Hi| | | | |].
  - intros j Hj. by rewrite upd_ne by (by apply not_eq_sym).
  - by left.
  - intros Hhd. by apply adj_head in Hadj.
  - intros p2 Hadj2. rewrite (adj_pred _ _ _ _ Hn Hadj2 Hadj). unfold link_ok. fields. by rewrite !upd_eq.
  - apply (i_last _ Hinv).
Qed.

Lemma link_step_ok tl nx wt pc q i p :
  inv (mkState tl nx wt pc q false) -> pc i = Link p ->
  inv (mkState tl (upd nx p (Some i)) wt (upd pc i Spin) q false).
Proof.
  intros Hinv Hi. assert (Hq : i ∈ q) by (apply (i_queued _ Hinv); fields; by rewrite Hi).
  destruct (has_pred _ i Hinv Hq) as (p' & Hadj & Hlk); [unfold head_ok; fields; by rewrite Hi; intros []|].
  unfold link_ok in Hlk. fields. rewrite Hi in Hlk. destruct Hlk as (<- & Hnx & Hw).
  pose proof (i_nodup _ Hinv) as Hn. fields. destruct (adj_in _ _ _ Hadj) as [Hpq _].
  apply (queued_ok tl nx wt); try done; [by rewrite Hi| | | | | |].
  - intros h Hhd Hne Hok. unfold head_ok in Hok. fields. destruct (decide (h = p)) as [->|Hnp].
    + destruct (pc p) eqn:E; try done; auto. congruence.
    + left. by rewrite upd_ne by (by apply not_eq_sym).
  - intros Hhd. by apply adj_head in Hadj.
  - intros p2 n Hadj2 Hne. rewrite upd_ne; [done|]. intros <-. apply Hne. by eapply adj_succ.
  - intros p2 Hadj2. rewrite (adj_pred _ _ _ _ Hn Hadj2 Hadj). unfold link_ok. fields. by rewrite !upd_eq.
  - intros z Hl. rewrite upd_ne; [by apply (i_last _ Hinv)|]. intros <-. by apply (adj_last _ _ _ Hn Hadj).
  - intros j Hj. rewrite upd_ne; [done|]. by intros <-.
Qed.

(** The first of the queue moves on without touching memory. *)
Lemma head_move_ok tl nx wt pc q i c :
  inv (mkState tl nx wt pc q false) -> head q = Some i -> queued (pc i) = true -> queued c = true ->
  head_ok (mkState tl nx wt (upd pc i c) q false) i ->
  inv (mkState tl nx wt (upd pc i c) q false).
Proof.
  intros Hinv Hhd Hi Hc Hok. pose proof (i_nodup _ Hinv) as Hn. fields.
  apply (queued_ok tl nx wt); try done.
  - by left.
  - intros p Hadj. by apply adj_head in Hadj.
  - apply (i_last _ Hinv).
Qed.

Lemma rel_cas_ok tl nx wt pc q i :
  inv (mkState tl nx wt pc q false) -> pc i = RelCAS -> tl = Some i ->
  inv (mkState None nx wt (upd pc i Idle) (list.tail q) false).
Proof.
  intros Hinv Hi Htl. pose proof (holding_head _ i Hinv ltac:(fields; by rewrite Hi)) as Hhd.
  destruct Hinv as [Ht Hn Hq Hh Hl Hz Hf _]. fields. destruct q as [|h q]; [done|]. simplify_eq/=.
  assert (q = []) as ->.
  { destruct q as [|x q]; [done|]. exfalso. apply NoDup_cons in Hn as [Hn _]. apply Hn.
    by apply last_Some_elem_of. }
  split; fields; try done.
  - constructor.
  - intros j. at_fred j i; [split; [intros H; by apply elem_of_nil in H|done]|].
    rewrite <- Hq. rewrite list_elem_of_singleton. split; [intros H; by apply elem_of_nil in H|]. intros ->. done.
  - intros p n (k & Hp & _). done.
  - intros j. at_fred j i; [naive_solver|]. apply Hf.
Qed.

Lemma rel_wait_ok tl nx wt pc q i n :
  inv (mkState tl nx wt pc q false) -> pc i = RelWait n ->
  inv (mkState tl nx (upd wt n false) (upd pc i Idle) (list.tail q) false).
Proof.
  intros Hinv Hi. pose proof (holding_head _ i Hinv ltac:(fields; by rewrite Hi)) as Hhd.
  destruct Hinv as [Ht Hn Hq Hh Hl Hz Hf _]. fields.
  pose proof (Hh i Hhd) as Hok. unfold head_ok in Hok. fields. rewrite Hi in Hok.
  destruct q as [|h q]; [done|]. simplify_eq/=. destruct q as [|m q]; [by rewrite Hz in Hok|].
  assert (Hadj : adj (i :: m :: q) i m) by by exists 0%nat.
  pose proof (Hl _ _ Hadj) as Hlk. unfold link_ok in Hlk. fields.
  assert (Hm : pc m = Spin /\ m = n) by (destruct (pc m); naive_solver). destruct Hm as [Hm <-].
  apply NoDup_cons in Hn as [Hni Hn]. assert (Hne : i <> m) by (intros ->; apply Hni; by left).
  split; fields; try done.
  - intros j. specialize (Hq j). rewrite elem_of_cons in Hq. at_fred j i; [by split|]. naive_solver.
  - intros h [= <-]. unfold head_ok. fields. by rewrite upd_ne, Hm, upd_eq.
  - intros p x Hpx. pose proof (adj_head _ _ _ Hn Hpx) as Hx. cbn in Hx.
    assert (Hxi : i <> x) by (intros <-; apply Hni; by apply adj_in in Hpx as [_ ?]).
    assert (Hpx' : adj (i :: m :: q) p x) by (by apply adj_tail).
    specialize (Hl _ _ Hpx'). unfold link_ok in *. fields. rewrite (upd_ne pc), (upd_ne wt) by congruence. done.
  - intros j. at_fred j i; [naive_solver|]. apply Hf.
Qed.

Lemma mcs_step_inv l s s' : inv s -> step l s = Some s' -> inv s'.
Proof.
  destruct s as [tl nx wt pc q ab]. intros Hinv Hs. pose proof (i_ab _ Hinv) as Hab. cbn in Hab. subst ab.
  assert (Hpriv : forall i c nx', queued (pc i) = false -> queued c = false -> (forall j, j <> i -> nx' j = nx j) ->
    (c = AcqExch \/ c = TryTest \/ c = TryCAS -> nx' i = None) -> inv (mkState tl nx' wt (upd pc i c) q false))
    by (intros; by eapply private_ok).
  destruct l as [i|i|i|i]; cbn [step] in Hs; destruct (pc i) as [| | |p|p| | | | | | | |n] eqn:Ei; try done; simplify_eq.
  - apply Hpriv; try done; [by rewrite Ei|naive_solver].
  - apply Hpriv; try done; [by rewrite Ei|naive_solver].
  - apply Hpriv; try done; [by rewrite Ei| |by rewrite upd_eq]. intros j Hj. by rewrite upd_ne by (by apply not_eq_sym).
  - apply exch_ok; [done|by rewrite Ei|]. apply (i_fresh _ Hinv). auto.
  - by apply set_wait_ok.
  - by apply link_step_ok.
  - destruct (wt i) eqn:Ew; [done|]. 
    assert (Hq : i ∈ q) by (apply (i_queued _ Hinv); cbn; by rewrite Ei).
    assert (Hhd : head q = Some i).
    { destruct (in_queue _ _ Hq) as [?|[p Hp]]; [done|]. apply (i_link _ Hinv) in Hp. unfold link_ok in Hp. fields.
      rewrite Ei in Hp. destruct Hp. congruence. }
    apply head_move_ok; try done; [by rewrite Ei|]. unfold head_ok. fields. by rewrite upd_eq.
  - apply Hpriv; try done; [by rewrite Ei| |by rewrite upd_eq]. intros j Hj. by rewrite upd_ne by (by apply not_eq_sym).
  - apply Hpriv; try done; [by rewrite Ei|by case_bool_decide|]. intros _. apply (i_fresh _ Hinv). auto.
  - case_bool_decide as Htl; simplify_eq.
    + apply (exch_ok None); [done|by rewrite Ei|]. apply (i_fresh _ Hinv). auto.
    + apply Hpriv; try done; [by rewrite Ei|naive_solver].
  - pose proof (holding_head _ i Hinv ltac:(fields; by rewrite Ei)) as Hhd. fields.
    case_bool_decide as Htl; simplify_eq; [by eapply rel_cas_ok|].
    apply head_move_ok; try done; [by rewrite Ei|]. unfold head_ok. fields. by rewrite upd_eq.
  - pose proof (holding_head _ i Hinv ltac:(fields; by rewrite Ei)) as Hhd. fields.
    destruct (nx i) as [n|] eqn:En; simplify_eq; [|done].
    apply head_move_ok; try done; [by rewrite Ei|]. unfold head_ok. fields. by rewrite upd_eq.
  - by apply rel_wait_ok.
  - pose proof (holding_head _ i Hinv ltac:(fields; by rewrite Ei)) as Hhd. fields.
    case_bool_decide as Htl; simplify_eq.
    + pose proof (i_tail _ Hinv) as Ht. fields. symmetry in Ht. apply last_None in Ht. by subst q.
    + apply head_move_ok; try done; [by rewrite Ei|]. unfold head_ok. fields. by rewrite upd_eq.
Qed.

Lemma mcs_reachable_inv s : reachable init step s -> inv s.
Proof.
  apply invariant_rule; [|intros ? ? ?; apply mcs_step_inv]. intros s0 (nx & wt & ->).
  split; fields; try done.
  - constructor.
  - intros i. split; [intros H; by apply elem_of_nil in H|done].
  - intros p n (k & Hp & _). done.
  - intros i [?|[?|?]]; done.
Qed.

#[export] Instance exclusive_lock : Exclusive init step inside.
Proof.
  intros s i j Hr%mcs_reachable_inv Hi Hj. apply holding_head in Hi, Hj; try done. congruence.
Qed.

(** C10. [MCSLock]: at most one thread has the lock and it is the first of the
    threads in the order of their exchanges of [tail]; the first thread always
    has the lock or has been told to go in; a releasing thread that waits for
    its successor's link has a successor that is about to write it; [release]'s
    assertion holds. *)
Theorem mcs_lock_correct s :
  reachable init step s ->
  aborted s = false /\
  (forall i, inside s i -> head (queue s) = Some i) /\
  (forall i j, inside s i -> inside s j -> i = j) /\
  (queue s <> [] -> exists h, head (queue s) = Some h /\
     (inside s h \/ pcs s h = Spin /\ wait s h = false)) /\
  (forall i, pcs s i = RelNext -> next s i = None ->
     exists n, adj (queue s) i n /\ (pcs s n = SetWait i \/ pcs s n = Link i)).
Proof.
  intros Hr%mcs_reachable_inv. pose proof Hr as [Ht Hn Hq Hh Hl Hz Hf Hab]. split_and!; [done| | | |].
  - intros i Hi. by apply holding_head.
  - intros i j Hi Hj. apply holding_head in Hi, Hj; try done. congruence.
  - destruct (queue s) as [|h q] eqn:E; [done|]. intros _. exists h. split; [done|].
    specialize (Hh h eq_refl). unfold head_ok, inside in *. destruct (pcs s h); simpl; auto.
  - intros i Hi Hnx. pose proof (holding_head s i Hr ltac:(by rewrite Hi)) as Hhd.
    pose proof (Hh i Hhd) as Hok. unfold head_ok in Hok. rewrite Hi, Ht in Hok.
    destruct (queue s) as [|h [|n q]] eqn:E; simplify_eq/=. exists n.
    assert (Hadj : adj (i :: n :: q) i n) by by exists 0%nat. split; [done|].
    specialize (Hl _ _ Hadj). unfold link_ok in Hl. rewrite Hnx in Hl. destruct (pcs s n); naive_solver.
Qed.
End MCS.

Definition mcs_run : list MCS.label :=
  [MCS.Acquire 0; MCS.Go 0; MCS.Go 0; MCS.Acquire 1; MCS.Go 1; MCS.Go 1; MCS.Release 0; MCS.Go 0;
   MCS.Go 1; MCS.Go 1; MCS.Go 0; MCS.Go 0; MCS.Go 1].
Definition mcs_start : MCS.state := MCS.mkState None (fun _ => None) (fun _ => false) (fun _ => MCS.Idle) [] false.

Lemma mcs_lock_correct_witness :
  let s := after MCS.step mcs_start mcs_run in
  MCS.inside s 1 /\ (forall i, MCS.inside s i -> i = 1%nat).
Proof.
  assert (Hr : reachable MCS.init MCS.step (after MCS.step mcs_start mcs_run)).
  { apply after_reachable; [by exists (fun _ => None), (fun _ => false)|vm_compute; by eexists]. }
  assert (H1 : MCS.inside (after MCS.step mcs_start mcs_run) 1) by reflexivity.
  split; [exact H1|]. intros i Hi. by apply (MCS.mcs_lock_correct _ Hr).
Defined.

(** * SpinLockRW *)
Module RW.
Inductive pc := Idle | ReadCAS (spin : bool) (s : Z) | WriteCAS (spin : bool) (s : Z)
| ReadAgain | WriteAgain | Reading | Writing.
Record state := mkState { rw : Z; pcs : list pc; aborted : bool }.
(** [TryRead false i] is one [tryAcquireRead]; [acquireRead] repeats it. *)
Inductive label := TryRead (spin : bool) (i : nat) | TryWrite (spin : bool) (i : nat) | Go (i : nat) | Release (i : nat).

Definition cas (cell expected desired : Z) : bool * Z :=
  if cell =? expected then (true, desired) else (false, cell).

(** [s = state] and the test that follows. *)
Definition load_read (spin : bool) (st : Z) : pc :=
  if 0 <=? st then ReadCAS spin st else if spin then ReadAgain else Idle.
Definition load_write (spin : bool) (st : Z) : pc :=
  if st =? 0 then WriteCAS spin st else if spin then WriteAgain else Idle.

Definition step (l : label) (s : state) : option state :=
  let 'mkState st ps ab := s in
  match l with
  | TryRead spin i => match ps !! i with Some Idle => Some (mkState st (<[i := load_read spin st]> ps) ab) | _ => None end
  | TryWrite spin i => match ps !! i with Some Idle => Some (mkState st (<[i := load_write spin st]> ps) ab) | _ => None end
  | Go i =>
      match ps !! i with
      | Some (ReadCAS spin e) =>
          let '(ok, st') := cas st e (e + 1) in
          Some (mkState st' (<[i := if ok then Reading else if spin then ReadAgain else Idle]> ps) ab)
      | Some (WriteCAS spin e) =>
          let '(ok, st') := cas st e (e - 1) in
          Some (mkState st' (<[i := if ok then Writing else if spin then WriteAgain else Idle]> ps) ab)
      | Some ReadAgain => Some (mkState st (<[i := load_read true st]> ps) ab)
      | Some WriteAgain => Some (mkState st (<[i := load_write true st]> ps) ab)
      | _ => None
      end
  | Release i =>
      match ps !! i with
      | Some Reading | Some Writing =>
          if st =? 0 then Some (mkState st ps true)
          else Some (mkState (if st <? 0 then st + 1 else st - 1) (<[i := Idle]> ps) ab)
      | _ => None
      end
  end.

Definition init (s : state) : Prop := exists n, s = mkState 0 (replicate n Idle) false.
Definition reads (c : pc) : bool := match c with Reading => true | _ => false end.
Definition writes (c : pc) : bool := match c with Writing => true | _ => false end.

Definition inv (s : state) : Prop :=
  aborted s = false /\
  (rw s = cnt reads (pcs s) /\ cnt writes (pcs s) = 0 \/
   rw s = -1 /\ cnt writes (pcs s) = 1 /\ cnt reads (pcs s) = 0) /\
  forall i c, pcs s !! i = Some c ->
    match c with ReadCAS _ e => 0 <= e | WriteCAS _ e => e = 0 | _ => True end.

Lemma spinrw_step_inv l s s' : inv s -> step l s = Some s' -> inv s'.
Proof.
  destruct s as [st ps ab]. intros (Hab & Hc & Hp) Hs. cbn in Hab. subst ab. cbn [rw pcs] in *.
  pose proof (cnt_nonneg reads ps). pose proof (cnt_nonneg writes ps).
  assert (Hmove : forall i c c' st', ps !! i = Some c ->
    match c' with ReadCAS _ e => 0 <= e | WriteCAS _ e => e = 0 | _ => True end ->
    (let r := cnt reads ps - Z.b2z (reads c) + Z.b2z (reads c') in
     let w := cnt writes ps - Z.b2z (writes c) + Z.b2z (writes c') in
     st' = r /\ w = 0 \/ st' = -1 /\ w = 1 /\ r = 0) ->
    inv (mkState st' (<[i := c']> ps) false)).
  { intros i c c' st' Ei Hc' Hcnt. split; [done|]. cbn [rw pcs].
    rewrite !(cnt_insert _ _ _ _ _ Ei). split; [exact Hcnt|].
    intros j x Hj. destruct (lookup_moved _ _ _ _ _ _ Ei Hj) as [[<- ->]|[_ Hj']]; [done|by apply (Hp j)]. }
  destruct l as [spin i|spin i|i|i]; cbn [step] in Hs; destruct (ps !! i) as [c|] eqn:Ei; try done;
    pose proof (Hp i c Ei) as Hpi; pose proof (cnt_member reads ps i c Ei); pose proof (cnt_member writes ps i c Ei);
    destruct c as [|sp e|sp e| | | |]; try done; cbn in Hs; simplify_eq; unfold load_read, load_write, cas in *;
    repeat split_match_in Hs; simplify_eq; bool_prop; cbn in *; try lia;
    (eapply Hmove; [exact Ei| |]); repeat case_match; bool_prop; cbn in *; simplify_eq; try done; try lia.
Qed.

Lemma spinrw_reachable_inv s : reachable init step s -> inv s.
Proof.
  apply invariant_rule; [|intros ? ? ?; apply spinrw_step_inv]. intros s0 (n & ->).
  split; [done|]. cbn [rw pcs]. rewrite !cnt_replicate. split; [simpl; lia|].
  by intros i c [-> _]%lookup_replicate.
Qed.

Definition reader_or_writer (s : state) : Prop :=
  forall i j, pcs s !! i = Some Writing -> pcs s !! j = Some Reading \/ pcs s !! j = Some Writing -> i = j.

Lemma spin_rw_exclusive s : reachable init step s -> reader_or_writer s /\ aborted s = false.
Proof.
  intros (Hab & Hc & _)%spinrw_reachable_inv. split; [|done]. intros i j Hi Hj. destruct (decide (i = j)) as [|Hne]; [done|].
  pose proof (cnt_lookup writes _ _ _ Hi eq_refl). destruct Hj as [Hj|Hj].
  - pose proof (cnt_lookup reads _ _ _ Hj eq_refl). lia.
  - pose proof (cnt_two writes _ _ _ _ _ Hi Hj Hne eq_refl eq_refl). lia.
Qed.
End RW.
