(* ===== verification/Freds.v ===== *)
(** Suspending and resuming a fred: the run state and the resume race of
    src/src/runtime/Fred.h and Fred.cc, used through [Suspender]
    (BlockingSync.h).  Each definition of the first section is one indivisible
    access of the source to the two shared words [runState] and [resumeInfo]
    with the decision that follows it; the system of the second section
    interleaves the suspending fred with any number of resumers. *)

From S2P Require Import Prelude Words.
Local Open Scope Z_scope.

(** [enum RunState] *)
Definition Parked : Z := 0.
Definition Running : Z := 1.
Definition ResumedEarly : Z := 2.

(** Pointers used as resume information; [nullptr] is 0. *)
Abbreviation ptr := Z (only parsing).
Definition nullptr : ptr := 0.

Record Shared := mkShared { runState : Z; resumeInfo : ptr }.

#[export] Instance Shared_eq_dec : EqDecision Shared.
Proof. solve_decision. Defined.

(** What a resumption or a suspension has to do next: [resumeInternal()],
    nothing, or abort ([RASSERT] failed). *)
Inductive outcome := Enqueue | Nothing | AssertFailed.

(** One round of the loop of [suspend()]: the compare-and-swap of
    [ResumedEarly] for [Running]; [true] returns without suspending. *)
Definition suspend_try (sh : Shared) : bool * Shared :=
  if runState sh =? ResumedEarly then (true, mkShared Running (resumeInfo sh)) else (false, sh).

(** [postSuspend(prevFred)], run on the next fred's stack. *)
Definition postSuspend (sh : Shared) : outcome * Shared :=
  let prev := runState sh in
  let sh' := mkShared (wrap W (prev - 1)) (resumeInfo sh) in
  if prev =? ResumedEarly then (Enqueue, sh')          (* ResumedEarly -> Running *)
  else if prev =? Running then (Nothing, sh')          (* Running -> Parked *)
  else (AssertFailed, sh').

(** [resume()] *)
Definition resume (sh : Shared) : outcome * Shared :=
  let prev := runState sh in
  let sh' := mkShared (wrap W (prev + 1)) (resumeInfo sh) in
  if prev =? Parked then (Enqueue, sh')                (* Parked -> Running *)
  else if prev =? Running then (Nothing, sh')          (* Running -> ResumedEarly *)
  else (AssertFailed, sh').

Definition cancelEarlyResume (sh : Shared) : Shared := mkShared Running (resumeInfo sh).

(** [prepareResumeRace()]; [false]: its assertion fails. *)
Definition prepareResumeRace (sh : Shared) : bool * Shared :=
  (runState sh =? Running, mkShared (runState sh) nullptr).

(** [cancelRunningResumeRace()] returns the winner so far. *)
Definition cancelRunningResumeRace (sh : Shared) : ptr * Shared :=
  (resumeInfo sh, mkShared (runState sh) 1).

Definition raceResume (ri : ptr) (sh : Shared) : bool * Shared :=
  if resumeInfo sh =? nullptr then (true, mkShared (runState sh) ri) else (false, sh).

(** * The suspension protocol

    The fred prepares a race, publishes itself (queue node, timer) and
    suspends; it may also withdraw with [cancelRunningResumeRace], and when
    somebody has won already it suspends once more to absorb that resumption
    (as [MCSTimeoutQueue] does).  A resumer that wins the race calls [resume]. *)
Section Protocol.
Context (SpinStart SpinEnd : Z).

Inductive fred_pc :=
| FRun (result : option ptr)             (* on a processor; result of the last suspension *)
| FPrepared                              (* race prepared, published *)
| FWithdrawn (won : ptr)                 (* cancelled too late: [won] has won the race *)
| FTry (spin : Z) (won : option ptr)     (* in the loop of suspend() *)
| FSwitch (won : option ptr)             (* suspendInternal(): before postSuspend *)
| FPost (won : option ptr)               (* postSuspend decided to enqueue *)
| FOff (won : option ptr).               (* parked, or waiting in a ready queue *)

Inductive resumer_pc :=
| RIdle
| RWon                                   (* raceResume() returned true *)
| REnqueue.                              (* resume() found Parked: resumeInternal() *)

Record state := mkState {
  shared : Shared;
  fred : fred_pc;
  resumers : list resumer_pc;
  ready : Z;                             (* entries for the fred in ready queues *)
  winner : option ptr;                   (* who won the current race (ghost) *)
  aborted : bool
}.

Inductive label :=
| Prepare | Withdraw | Suspend | TryOnce | Switch | PostEnqueue | Dispatch
| Race (i : nat) (p : ptr) | Resume (i : nat) | ResumeInternal (i : nat).

(** What [suspend()] returns to its caller: [resumeInfo], or the winner the
    caller kept from the withdrawal. *)
Definition suspend_result (won : option ptr) (sh : Shared) : option ptr :=
  Some (default (resumeInfo sh) won).

Definition step (l : label) (s : state) : option state :=
  let 'mkState sh f rs rdy win ab := s in
  if ab then None else
  match l, f with
  | Prepare, FRun _ =>
      let '(ok, sh') := prepareResumeRace sh in
      Some (mkState sh' FPrepared rs rdy None (negb ok))
  | Withdraw, FPrepared =>
      let '(w, sh') := cancelRunningResumeRace sh in
      Some (mkState sh' (if w =? nullptr then FRun (Some nullptr) else FWithdrawn w) rs rdy win ab)
  | Suspend, FPrepared => Some (mkState sh (FTry SpinStart None) rs rdy win ab)
  | Suspend, FWithdrawn w => Some (mkState sh (FTry SpinStart (Some w)) rs rdy win ab)
  | TryOnce, FTry spin k =>
      let '(early, sh') := suspend_try sh in
      if early then Some (mkState sh' (FRun (suspend_result k sh')) rs rdy win ab)
      else if SpinEnd <? spin then Some (mkState sh' (FSwitch k) rs rdy win ab)
      else Some (mkState sh' (FTry (wrap W (spin + spin)) k) rs rdy win ab)
  | Switch, FSwitch k =>
      match postSuspend sh with
      | (Enqueue, sh') => Some (mkState sh' (FPost k) rs rdy win ab)
      | (Nothing, sh') => Some (mkState sh' (FOff k) rs rdy win ab)
      | (AssertFailed, sh') => Some (mkState sh' (FOff k) rs rdy win true)
      end
  | PostEnqueue, FPost k => Some (mkState sh (FOff k) rs (rdy + 1) win ab)
  | Dispatch, FOff k =>
      if 1 <=? rdy then Some (mkState sh (FRun (suspend_result k sh)) rs (rdy - 1) win ab) else None
  | Race i p, _ =>
      match rs !! i with
      | Some RIdle =>
          if p =? nullptr then None else
          let '(won, sh') := raceResume p sh in
          Some (mkState sh' f (if won then <[i := RWon]> rs else rs) rdy
                  (if won then Some p else win) ab)
      | _ => None
      end
  | Resume i, _ =>
      match rs !! i with
      | Some RWon =>
          match resume sh with
          | (Enqueue, sh') => Some (mkState sh' f (<[i := REnqueue]> rs) rdy win ab)
          | (Nothing, sh') => Some (mkState sh' f (<[i := RIdle]> rs) rdy win ab)
          | (AssertFailed, sh') => Some (mkState sh' f (<[i := RIdle]> rs) rdy win true)
          end
      | _ => None
      end
  | ResumeInternal i, _ =>
      match rs !! i with
      | Some REnqueue => Some (mkState sh f (<[i := RIdle]> rs) (rdy + 1) win ab)
      | _ => None
      end
  | _, _ => None
  end.

(** A fred starts running ([runState(Running)] in the constructor), known to
    nobody; [resumeInfo] is not initialised, any value but [nullptr]. *)
Definition init (s : state) : Prop :=
  exists ri n, ri <> nullptr /\
    s = mkState (mkShared Running ri) (FRun None) (replicate n RIdle) 0 None false.

Definition is_won (r : resumer_pc) : bool := match r with RWon => true | _ => false end.
Definition is_enq (r : resumer_pc) : bool := match r with REnqueue => true | _ => false end.

(** On its way into suspension: either nobody has won the race, or the winner
    is about to resume, or has resumed early. *)
Definition suspending (won : option ptr) (rs ri w : Z) (win : option ptr) : Prop :=
  (won = None /\ ri = nullptr /\ win = None /\ w = 0 /\ rs = Running) \/
  (ri <> nullptr /\ win = Some (default ri won) /\
   (w = 1 /\ rs = Running \/ w = 0 /\ rs = ResumedEarly)).

Definition parked (won : option ptr) (rs ri w e rdy : Z) (win : option ptr) : Prop :=
  (won = None /\ ri = nullptr /\ win = None /\ w = 0 /\ e = 0 /\ rdy = 0 /\ rs = Parked) \/
  (ri <> nullptr /\ win = Some (default ri won) /\
   (w = 1 /\ e = 0 /\ rdy = 0 /\ rs = Parked \/
    w = 0 /\ e = 1 /\ rdy = 0 /\ rs = Running \/
    w = 0 /\ e = 0 /\ rdy = 1 /\ rs = Running)).

Definition inv (s : state) : Prop :=
  let 'mkState (mkShared rs ri) f rl rdy win ab := s in
  let w := cnt is_won rl in
  let e := cnt is_enq rl in
  ab = false /\ win <> Some nullptr /\
  match f with
  | FRun res => rs = Running /\ ri <> nullptr /\ w = 0 /\ e = 0 /\ rdy = 0 /\
                (forall r, res = Some r -> win = if r =? nullptr then None else Some r)
  | FPrepared => e = 0 /\ rdy = 0 /\ suspending None rs ri w win
  | FWithdrawn k => e = 0 /\ rdy = 0 /\ ri <> nullptr /\ suspending (Some k) rs ri w win
  | FTry _ k | FSwitch k => e = 0 /\ rdy = 0 /\ suspending k rs ri w win
  | FPost k => rs = Running /\ ri <> nullptr /\ w = 0 /\ e = 0 /\ rdy = 0 /\
               win = Some (default ri k)
  | FOff k => parked k rs ri w e rdy win
  end.

Lemma fred_init_inv s : init s -> inv s.
Proof.
  intros (ri & n & Hri & ->). unfold inv. rewrite !cnt_replicate. simpl.
  repeat split; try done; lia.
Qed.

Ltac run_words :=
  change (wrap W (1 - 1)) with 0 in *; change (wrap W (2 - 1)) with 1 in *;
  change (wrap W (0 + 1)) with 1 in *; change (wrap W (1 + 1)) with 2 in *.

Ltac settle :=
  cases; simplify_eq/=; run_words;
  solve [done | lia | split_and?; (done || lia || naive_solver lia) | naive_solver lia].

Lemma fred_step_inv l s s' : inv s -> step l s = Some s' -> inv s'.
Proof.
  destruct s as [[rs ri] f rl rdy win ab]. unfold inv at 1. intros (-> & Hw & HI).
  unfold step, suspend_try, postSuspend, resume, raceResume, suspend_result, default in *.
  destruct l; cbn -[wrap]; intros Hs; repeat split_match_in Hs; simplify_eq/=; bool_prop;
    unfold suspending, parked, Parked, Running, ResumedEarly, nullptr, default in *; counts;
    cbn [is_won is_enq Z.b2z] in *.
  all: try settle.
  all: try (destruct f; settle).
  all: cases; simplify_eq/=; split_and?; try (done || lia).
  all: intros ? [= <-]; case_match; bool_prop; naive_solver.
Qed.

Lemma fred_reachable_inv s : reachable init step s -> inv s.
Proof. apply invariant_rule; [apply fred_init_inv|]. intros ? ? ?. apply fred_step_inv. Qed.

(** The numbers of entries the fred has, or is about to get, in ready queues. *)
Definition posting (s : state) : Z := match fred s with FPost _ => 1 | _ => 0 end.
Definition off_stack (s : state) : Prop := exists k, fred s = FOff k.

(** C2. However suspensions and resumptions interleave, no assertion of the
    protocol fails, [runState] is one of its three values, the fred is
    scheduled at most once, and only after it left its stack. *)
Theorem single_activation s :
  reachable init step s ->
  aborted s = false /\ 0 <= runState (shared s) <= 2 /\
  posting s + cnt is_enq (resumers s) + ready s <= 1 /\
  (ready s <> 0 -> off_stack s /\ ready s = 1 /\ runState (shared s) = Running).
Proof.
  intros H%fred_reachable_inv. destruct s as [[rs ri] f rl rdy win ab].
  unfold inv, posting, off_stack, suspending, parked, Parked, Running, ResumedEarly in *.
  cbn in *. counts. destruct H as (-> & Hw & H).
  destruct f; cbn; cases; split_and?; try lia; intros ?; try lia; (split; [by eexists|lia]).
Qed.

(** C29. A suspension returns the pointer that won the race ([nullptr]: it was
    withdrawn and nobody has won); the race of one suspension has one winner,
    and later attempts change nothing. *)
Theorem suspend_returns_winner s :
  reachable init step s ->
  (forall r, fred s = FRun (Some r) -> winner s = if r =? nullptr then None else Some r) /\
  (forall l s' p, winner s = Some p -> step l s = Some s' ->
     (l <> Prepare -> winner s' = Some p) /\
     (forall i q, l = Race i q -> s' = s)).
Proof.
  intros H%fred_reachable_inv. destruct s as [[rs ri] f rl rdy win ab].
  destruct H as (-> & Hw & H). cbn -[step]. split.
  - intros r ->. destruct H as (_ & _ & _ & _ & _ & Hr). by apply Hr.
  - intros l s' p -> Hs.
    assert (Hri : ri <> nullptr) by (unfold suspending, parked in H; destruct f; naive_solver).
    apply Z.eqb_neq in Hri. unfold step, raceResume in Hs. cbn -[wrap] in Hs.
    destruct l; repeat split_match_in Hs; naive_solver.
Qed.
(** ** No lost wake-up *)
Definition in_suspend (f : fred_pc) : bool :=
  match f with FTry _ _ | FSwitch _ | FPost _ | FOff _ => true | _ => false end.

(** [wakes s w]: without any further attempt to win the race, the system can
    bring the fred back from suspension with [w]. *)
Definition wakes (s : state) (w : ptr) : Prop :=
  exists ls s', run step ls s = Some s' /\ fred s' = FRun (Some w).

Lemma wakes_step s l s' w : step l s = Some s' -> wakes s' w -> wakes s w.
Proof.
  intros Hs (ls & s2 & Hr & Hf). exists (l :: ls), s2. split; [|done].
  cbn [run]. rewrite Hs. exact Hr.
Qed.

Lemma wakes_here s l s' w : step l s = Some s' -> fred s' = FRun (Some w) -> wakes s w.
Proof. intros Hs Hf. apply (wakes_step s l s' w Hs). by exists [], s'. Qed.

Lemma ready_wakes rs ri k rl win :
  wakes (mkState (mkShared rs ri) (FOff k) rl 1 win false) (default ri k).
Proof. by eapply (wakes_here _ Dispatch). Qed.

Lemma enq_wakes rs ri k rl win :
  cnt is_enq rl = 1 ->
  wakes (mkState (mkShared rs ri) (FOff k) rl 0 win false) (default ri k).
Proof.
  intros He. destruct (cnt_pos is_enq rl) as (i & [] & Hi & ?); [lia|done|done|].
  eapply (wakes_step _ (ResumeInternal i)); [cbn; by rewrite Hi|apply ready_wakes].
Qed.

Lemma won_wakes ri k rl win :
  cnt is_won rl = 1 -> cnt is_enq rl = 0 ->
  wakes (mkState (mkShared Parked ri) (FOff k) rl 0 win false) (default ri k).
Proof.
  intros Hw He. destruct (cnt_pos is_won rl) as (i & [] & Hi & ?); [lia|done| |done].
  eapply (wakes_step _ (Resume i)); [cbn; by rewrite Hi|].
  apply enq_wakes. counts. cbn in *. lia.
Qed.

Lemma off_wakes s k w : inv s -> fred s = FOff k -> winner s = Some w -> wakes s w.
Proof.
  destruct s as [[rs ri] f rl rdy win ab]. intros (-> & Hw & H). cbn. intros -> ->.
  destruct H as [H|(Hri & [= ->] & H)]; [naive_solver|].
  destruct H as [(Hwon & He & -> & ->)|[(Hwon & He & -> & ->)|(Hwon & He & -> & ->)]];
    [by apply won_wakes|by apply enq_wakes|apply ready_wakes].
Qed.

Lemma post_wakes s k w : inv s -> fred s = FPost k -> winner s = Some w -> wakes s w.
Proof.
  intros Hi Hf Hw. pose proof Hi as Hi'.
  destruct s as [[rs ri] f rl rdy win ab]. destruct Hi as (-> & _). cbn in Hf, Hw. subst f.
  eapply (wakes_step _ PostEnqueue); [done|].
  eapply off_wakes; [by eapply (fred_step_inv PostEnqueue)|done|done].
Qed.

Lemma switch_wakes s k w : inv s -> fred s = FSwitch k -> winner s = Some w -> wakes s w.
Proof.
  intros Hi Hf Hw. pose proof Hi as Hi'.
  destruct s as [[rs ri] f rl rdy win ab]. destruct Hi as (-> & _ & H). cbn in Hf, Hw. subst f.
  destruct H as (_ & _ & [H|(_ & _ & [(_ & ->)|(_ & ->)])]); [naive_solver| |];
    (eapply (wakes_step _ Switch); [done|]).
  - eapply off_wakes; [by eapply (fred_step_inv Switch)|done|done].
  - eapply post_wakes; [by eapply (fred_step_inv Switch)|done|done].
Qed.

(** The spin loop of [suspend()] ends: the number of pauses doubles. *)
Lemma try_wakes n : SpinEnd < 2 ^ 63 -> forall s k w spin,
  inv s -> fred s = FTry spin k -> winner s = Some w ->
  0 < spin -> SpinEnd - spin < Z.of_nat n -> wakes s w.
Proof.
  intros HE. induction n as [|n IH]; intros s k w spin Hi Hf Hw Hpos Hn; pose proof Hi as Hi';
    destruct s as [[rs ri] f rl rdy win ab]; destruct Hi as (-> & _ & H); cbn in Hf, Hw; subst f;
    destruct H as (_ & _ & [H|(_ & [= Hk] & [(_ & ->)|(_ & ->)])]); try naive_solver.
  - assert (Hs : (SpinEnd <? spin) = true) by (apply Z.ltb_lt; lia).
    eapply (wakes_step _ TryOnce); [cbn; by rewrite Hs|].
    eapply switch_wakes; [|done|done]. eapply (fred_step_inv TryOnce); [exact Hi'|]. cbn. by rewrite Hs.
  - eapply (wakes_here _ TryOnce); [done|]. unfold suspend_result. naive_solver.
  - destruct (SpinEnd <? spin) eqn:Hs.
    + eapply (wakes_step _ TryOnce); [cbn; by rewrite Hs|].
      eapply switch_wakes; [|done|done]. eapply (fred_step_inv TryOnce); [exact Hi'|]. cbn. by rewrite Hs.
    + apply Z.ltb_ge in Hs as Hs'.
      assert (Hwr : wrap W (spin + spin) = spin + spin)
        by (unfold wrap; apply Z.mod_small; lia).
      eapply (wakes_step _ TryOnce); [cbn -[wrap]; by rewrite Hs|].
      eapply (IH _ k w (spin + spin)); cbn -[wrap]; rewrite ?Hwr; try done; try lia.
  - eapply (wakes_here _ TryOnce); [done|]. unfold suspend_result. naive_solver.
Qed.

Definition spin_pos (s : state) : Prop := match fred s with FTry spin _ => 0 < spin | _ => True end.

Lemma reachable_spin_pos s :
  0 < SpinStart -> SpinEnd < 2 ^ 63 -> reachable init step s -> spin_pos s.
Proof.
  intros H0 HE. apply invariant_rule.
  - by intros ? (ri & n & _ & ->).
  - intros [[rs ri] f rl rdy win ab] l s' HI Hs. unfold step in Hs. cbn -[wrap] in Hs.
    destruct l; cbn -[wrap] in Hs; repeat split_match_in Hs; simplify_eq/=; bool_prop; unfold spin_pos in *; cbn -[wrap] in *;
      try done.
    unfold wrap. rewrite Z.mod_small; lia.
Qed.

(** C1. No wake-up is lost and none is invented: a fred that is suspending,
    or suspended, and whose race has a winner comes back with the winner's
    pointer; while nobody has won, no processor can dispatch it. *)
Theorem no_lost_wakeup s :
  0 < SpinStart -> SpinEnd < 2 ^ 63 -> reachable init step s -> in_suspend (fred s) = true ->
  (forall w, winner s = Some w -> wakes s w) /\
  (winner s = None -> step Dispatch s = None /\ step PostEnqueue s = None).
Proof.
  intros H0 HE Hr Hf. pose proof (fred_reachable_inv s Hr) as Hi. pose proof (reachable_spin_pos s H0 HE Hr) as Hp.
  split.
  - intros w Hw. destruct (fred s) as [| | |spin k|k|k|k] eqn:Ef; try done.
    + unfold spin_pos in Hp. rewrite Ef in Hp.
      by apply (try_wakes (Z.to_nat (SpinEnd - spin + 1)) HE s k w spin); try lia.
    + by eapply switch_wakes.
    + by eapply post_wakes.
    + by eapply off_wakes.
  - destruct s as [[rs ri] f rl rdy win ab]. cbn in *. intros ->.
    destruct Hi as (-> & _ & Hi). unfold parked in Hi.
    destruct f; try done; cases; simplify_eq; done.
Qed.
End Protocol.

(** ** Concrete runs: a resumption that overtakes the suspension, and one
    that finds the fred parked while a second resumer loses the race. *)
Definition start : state := mkState (mkShared Running 5) (FRun None) (replicate 2 RIdle) 0 None false.

Definition run_from_start ls : option state := run (step 1 0) ls start.

Definition freds_after ls : state := default start (run_from_start ls).

Lemma start_init : init start.
Proof. by exists 5, 2%nat. Qed.

Lemma freds_after_reachable ls s : run_from_start ls = Some s -> reachable init (step 1 0) s.
Proof. apply run_reachable, reach_init, start_init. Qed.

Definition early_run : list label :=
  [Prepare; Suspend; TryOnce; Race 1 77; Resume 1; Switch; PostEnqueue; Dispatch].
Definition parked_run : list label :=
  [Prepare; Suspend; TryOnce; Race 0 77; Switch; Race 1 88; Resume 0; ResumeInternal 0].

Example early_run_result : fred (freds_after early_run) = FRun (Some 77).
Proof. reflexivity. Qed.

Lemma single_activation_witness :
  ready (freds_after parked_run) = 1 /\ aborted (freds_after parked_run) = false /\
  (ready (freds_after parked_run) <> 0 -> off_stack (freds_after parked_run)).
Proof.
  assert (H : reachable init (step 1 0) (freds_after parked_run))
    by (apply (freds_after_reachable parked_run); vm_compute; reflexivity).
  pose proof (single_activation 1 0 _ H) as (Ha & _ & _ & Hr).
  split; [vm_compute; reflexivity|]. split; [exact Ha|]. intros Hn. apply Hr, Hn.
Defined.

Lemma suspend_returns_winner_witness :
  fred (freds_after early_run) = FRun (Some 77) /\ winner (freds_after early_run) = Some 77.
Proof.
  assert (H : reachable init (step 1 0) (freds_after early_run))
    by (apply (freds_after_reachable early_run); vm_compute; reflexivity).
  pose proof (suspend_returns_winner 1 0 _ H) as (Hr & _).
  split; [vm_compute; reflexivity|]. rewrite (Hr 77); vm_compute; reflexivity.
Defined.

Lemma no_lost_wakeup_witness :
  let s := freds_after (take 5 parked_run) in winner s = Some 77 /\ wakes 1 0 s 77.
Proof.
  assert (H : reachable init (step 1 0) (freds_after (take 5 parked_run)))
    by (apply (freds_after_reachable (take 5 parked_run)); vm_compute; reflexivity).
  split; [vm_compute; reflexivity|].
  apply (no_lost_wakeup 1 0); [lia|lia|exact H|vm_compute; reflexivity|vm_compute; reflexivity].
Defined.
