(* ===== verification/TimerQueues.v ===== *)
(** The timer queue of src/src/runtime/BlockingSync.h: [class TimerQueue] and
    [sleepFred].  The first part gives every method as a function of the
    queue, the nodes' [expired] flags and the freds' [resumeInfo] words; the
    second part interleaves freds that block with a timeout, other parties
    that resume them, and the processor that runs [checkExpiry]. *)

From Stdlib Require Import Sorted.
From S2P Require Import Prelude Words Times Freds.
Local Open Scope Z_scope.

Abbreviation fid := nat (only parsing).

(** The queue and what its methods touch.  A [Node] lives on the stack of the
    fred that blocks, so it is named by that fred; [queue] is the multimap in
    iteration order. *)
Record TimerQueue := mkTQ {
  queue : list (Time * fid);
  expired : fid -> bool;              (* Node::expired *)
  resumes : fid -> ptr;               (* Fred::resumeInfo *)
  resumed : list fid;                 (* calls of Fred::resume, latest first *)
  timeouts : list Time                (* calls of Timer::newTimeout, latest first *)
}.

Definition set_queue (q : list (Time * fid)) (s : TimerQueue) : TimerQueue :=
  mkTQ q (expired s) (resumes s) (resumed s) (timeouts s).
Definition newTimeout (t : Time) (s : TimerQueue) : TimerQueue :=
  mkTQ (queue s) (expired s) (resumes s) (resumed s) (t :: timeouts s).

(** [queue.insert({t, &node})]: after the entries with an equal key. *)
Fixpoint multimap_insert (t : Time) (f : fid) (q : list (Time * fid)) : list (Time * fid) :=
  match q with
  | [] => [(t, f)]
  | (t', f') :: q' => if time_ltb t t' then (t, f) :: q else (t', f') :: multimap_insert t f q'
  end.

(** [queue.erase(handle)]: the handle is the entry of the node. *)
Definition multimap_erase (f : fid) (q : list (Time * fid)) : list (Time * fid) :=
  base.filter (fun e => e.2 <> f) q.

Definition in_queue (f : fid) (q : list (Time * fid)) : bool := bool_decide (f ∈ q.*2).

Section Queue.
Context (self : ptr).                 (* &queue *)

(** The body of the loop of [checkExpiry] for one due node. *)
Definition expire_node (f : fid) (s : TimerQueue) : TimerQueue :=
  if resumes s f =? nullptr
  then mkTQ (queue s) (expired s) (upd (resumes s) f self) (f :: resumed s) (timeouts s)
  else mkTQ (queue s) (upd (expired s) f true) (resumes s) (resumed s) (timeouts s).

Fixpoint expiry_loop (now : Time) (q : list (Time * fid)) (s : TimerQueue) (cnt : Z) : TimerQueue * Z :=
  match q with
  | [] => (set_queue [] s, cnt)
  | (t, f) :: q' =>
      if time_gtb t now then (newTimeout t (set_queue q s), cnt)
      else expiry_loop now q' (expire_node f s) (cnt + 1)
  end.

Definition checkExpiry (now : Time) (s : TimerQueue) : TimerQueue * Z :=
  expiry_loop now (queue s) s 0.

Definition enqueue (f : fid) (absTimeout : Time) (s : TimerQueue) : TimerQueue :=
  let q := multimap_insert absTimeout f (queue s) in
  let s' := set_queue q s in
  if bool_decide (head (q.*2) = Some f) then newTimeout absTimeout s' else s'.

(** [erase(handle, node)], and its two parts: the test without the lock, and
    the rest under the lock. *)
Definition erase_locked (f : fid) (s : TimerQueue) : TimerQueue :=
  if expired s f then s else set_queue (multimap_erase f (queue s)) s.
Definition erase (f : fid) (s : TimerQueue) : TimerQueue :=
  if expired s f then s else erase_locked f s.

(** [blockTimeout]: its start (node and enqueue), and what it does and
    returns after the suspension. *)
Definition blockTimeout_start (f : fid) (absTimeout : Time) (s : TimerQueue) : TimerQueue :=
  enqueue f absTimeout (mkTQ (queue s) (upd (expired s) f false) (resumes s) (resumed s) (timeouts s)).
Definition blockTimeout_end (f : fid) (winner : ptr) (s : TimerQueue) : ptr * TimerQueue :=
  if winner =? self then (nullptr, s) else (winner, erase f s).

Definition didExpireAfterLosingRace (f : fid) (s : TimerQueue) : bool := expired s f.

(** [sleepFred(timeout)]: deadline, and result from the suspension's winner. *)
Definition sleepFred_start (f : fid) (now timeout : Time) (s : TimerQueue) : TimerQueue :=
  blockTimeout_start f (time_add now timeout)
    (mkTQ (queue s) (expired s) (upd (resumes s) f nullptr) (resumed s) (timeouts s)).
Definition sleepFred_end (f : fid) (winner : ptr) (s : TimerQueue) : bool * TimerQueue :=
  let '(w, s') := blockTimeout_end f winner s in (w =? nullptr, s').

(** * The methods one at a time *)
Definition le_entry (a b : Time * fid) : Prop := time_leb a.1 b.1 = true.
Definition sorted (q : list (Time * fid)) : Prop := StronglySorted le_entry q.
Definition due (now : Time) (e : Time * fid) : Prop := time_leb e.1 now = true.

#[export] Instance due_dec now e : Decision (due now e).
Proof. unfold due. apply _. Defined.

Lemma time_leb_trans a b c : time_leb a b = true -> time_leb b c = true -> time_leb a c = true.
Proof. rewrite !time_leb_lex. lia. Qed.

Lemma time_ltb_leb a b : time_ltb a b = true -> time_leb a b = true.
Proof. rewrite time_ltb_lex, time_leb_lex. lia. Qed.

Lemma time_nltb_leb a b : time_ltb a b = false -> time_leb b a = true.
Proof. intros H. by rewrite time_leb_negb, H. Qed.

(** An entry that is not due keeps all later ones from being due. *)
Lemma not_due_after now e q :
  StronglySorted le_entry (e :: q) -> ~ due now e -> base.filter (due now) (e :: q) = [].
Proof.
  intros Hs He. apply StronglySorted_inv in Hs as [_ Hs].
  rewrite filter_cons_False by done.
  induction Hs as [|e' q Hle _ IH]; [done|].
  rewrite filter_cons_False; [exact IH|].
  intros Hd. apply He. unfold due, le_entry in *. by eapply time_leb_trans.
Qed.

Lemma all_kept now q :
  base.filter (due now) q = [] -> base.filter (fun e => ~ due now e) q = q.
Proof.
  induction q as [|e q IH]; [done|]. destruct (decide (due now e)) as [He|He].
  - by rewrite filter_cons_True.
  - rewrite filter_cons_False by done. intros H. rewrite filter_cons_True by done. by rewrite IH.
Qed.

Lemma sorted_filter (P : Time * fid -> Prop) `{forall x, Decision (P x)} q :
  sorted q -> sorted (base.filter P q).
Proof.
  induction 1 as [|e q Hq IH Hle]; [constructor|]. destruct (decide (P e)) as [He|He].
  - rewrite filter_cons_True by done. constructor; [done|].
    apply Forall_forall. intros x Hx.
    apply list_elem_of_filter in Hx as [_ Hx].
    rewrite Forall_forall in Hle. by apply Hle.
  - by rewrite filter_cons_False.
Qed.

Lemma filter_upd_notin (g : fid -> ptr) (f : fid) v (d : list fid) :
  f ∉ d -> base.filter (fun x => upd g f v x = nullptr) d = base.filter (fun x => g x = nullptr) d.
Proof.
  intros Hf. apply filter_ext_elem. intros x Hx.
  rewrite upd_ne; [done|]. by intros ->.
Qed.

Lemma in_cons_eq (f : fid) (d : list fid) : bool_decide (f ∈ f :: d) = true.
Proof. apply bool_decide_eq_true_2. by left. Qed.

Lemma in_cons_ne (x f : fid) (d : list fid) : x <> f -> bool_decide (x ∈ f :: d) = bool_decide (x ∈ d).
Proof. intros Hne. apply bool_decide_ext. rewrite elem_of_cons. naive_solver. Qed.

Ltac due_upd x f :=
  destruct (decide (x = f)) as [->|Hne];
  [rewrite ?upd_eq, ?in_cons_eq, ?(bool_decide_eq_false_2 (f ∈ _)) by done
  |rewrite ?(upd_ne _ f x) by (by apply not_eq_sym); rewrite ?in_cons_ne by done];
  repeat match goal with H : _ = nullptr |- _ => rewrite H in * | H : _ <> nullptr |- _ => apply Z.eqb_neq in H; rewrite H in * end;
  try done.

(** One pass over the due entries: who is resumed, who learns that the timer
    lost, and what stays. *)
Lemma expiry_loop_spec now q : sorted q -> NoDup q.*2 -> forall s cnt s' cnt',
  expiry_loop now q s cnt = (s', cnt') ->
  let d := (base.filter (due now) q).*2 in
  queue s' = base.filter (fun e => ~ due now e) q /\
  cnt' = cnt + Z.of_nat (length d) /\
  resumed s' = rev (base.filter (fun f => resumes s f = nullptr) d) ++ resumed s /\
  (forall f, resumes s' f = if bool_decide (f ∈ d) && (resumes s f =? nullptr) then self else resumes s f) /\
  (forall f, expired s' f = if bool_decide (f ∈ d) && negb (resumes s f =? nullptr) then true else expired s f) /\
  timeouts s' = match base.filter (fun e => ~ due now e) q with (t, _) :: _ => t :: timeouts s | [] => timeouts s end.
Proof.
  intros Hs. induction Hs as [|[t f] q Hq IH Hle]; intros Hnd s cnt s' cnt'; simpl.
  - intros [= <- <-]. repeat split; simpl; lia.
  - rewrite time_gtb_ltb. destruct (time_ltb now t) eqn:E.
    + assert (Hnot : ~ due now (t, f)).
      { unfold due; simpl. rewrite time_leb_negb, E. done. }
      intros [= <- <-].
      pose proof (not_due_after now _ q ltac:(by constructor) Hnot) as Hd.
      pose proof (all_kept now _ Hd) as Hk. rewrite Hd, Hk. simpl.
      repeat split; simpl; lia.
    + assert (Hdue : due now (t, f)) by (unfold due; simpl; by rewrite time_leb_negb, E).
      intros H. inversion Hnd as [|? ? Hnin Hnd']; subst.
      specialize (IH Hnd' _ _ _ _ H). cbn zeta in IH.
      rewrite !(filter_cons_True (due now)) by done.
      rewrite !(filter_cons_False (fun e => ~ due now e)) by (intros Hn; by apply Hn).
      set (d := (base.filter (due now) q).*2) in *.
      assert (Hfd : f ∉ d).
      { intros Hin. apply Hnin. unfold d in Hin. apply list_elem_of_fmap in Hin as (x & -> & [_ Hx]%list_elem_of_filter).
        by apply list_elem_of_fmap_2. }
      destruct IH as (Hqu & Hc & Hr & Hres & Hex & Ht).
      rewrite fmap_cons. fold d. cbn [snd length]. unfold expire_node in Hr, Hres, Hex, Ht |- *.
      destruct (resumes s f =? nullptr) eqn:E0; cbn in Hr, Hres, Hex, Ht; bool_prop.
      * rewrite filter_cons_True by done. rewrite filter_upd_notin in Hr by done.
        split_and!; [done|rewrite Hc; cbn; lia| |intros x; rewrite Hres|intros x; rewrite Hex|done].
        { rewrite Hr. cbn [rev]. by rewrite <- app_assoc. }
        all: due_upd x f.
      * rewrite filter_cons_False by done.
        split_and!; [done|rewrite Hc; cbn; lia|done|intros x; rewrite Hres|intros x; rewrite Hex|done].
        all: due_upd x f.
Qed.

Lemma expiry_sorted now s s' cnt :
  sorted (queue s) -> NoDup (queue s).*2 -> checkExpiry now s = (s', cnt) -> sorted (queue s').
Proof.
  intros Hs Hn H. destruct (expiry_loop_spec now _ Hs Hn _ _ _ _ H) as (-> & _).
  by apply sorted_filter.
Qed.

Lemma insert_perm t f q : multimap_insert t f q ≡ₚ (t, f) :: q.
Proof.
  induction q as [|[t' f'] q IH]; simpl; [done|]. destruct (time_ltb t t'); [done|].
  rewrite IH. apply Permutation_swap.
Qed.

Lemma insert_sorted t f q : sorted q -> sorted (multimap_insert t f q).
Proof.
  induction 1 as [|[t' f'] q Hq IH Hle]; simpl; [repeat constructor|].
  destruct (time_ltb t t') eqn:E.
  - constructor; [by constructor|]. constructor; [by apply time_ltb_leb|].
    eapply List.Forall_impl; [|exact Hle]. intros [t2 f2]. unfold le_entry. simpl.
    apply time_leb_trans, time_ltb_leb, E.
  - constructor; [done|]. apply Forall_forall. intros e He.
    rewrite insert_perm in He. apply elem_of_cons in He as [->|He].
    + by apply time_nltb_leb.
    + rewrite Forall_forall in Hle. by apply Hle.
Qed.

(** The new entry comes first exactly when no entry is due at or before it. *)
Lemma insert_head t f q :
  sorted q -> f ∉ q.*2 ->
  head (multimap_insert t f q).*2 = Some f <-> forall e, e ∈ q -> time_ltb t e.1 = true.
Proof.
  intros Hs Hf. destruct q as [|[t' f'] q]; simpl.
  - split; [intros _ e He; inversion He|done].
  - destruct (time_ltb t t') eqn:E; simpl.
    + split; [intros _|done]. intros e [->|He]%elem_of_cons; [done|].
      apply StronglySorted_inv in Hs as [_ Hle]. rewrite Forall_forall in Hle.
      specialize (Hle _ He). unfold le_entry in Hle. simpl in Hle.
      rewrite time_leb_lex in Hle. rewrite time_ltb_lex in *. lia.
    + split.
      * intros [= ->]. destruct Hf. by left.
      * intros H. specialize (H (t', f')). simpl in H. rewrite H in E; [done|by left].
Qed.

Lemma insert_filter t f e q :
  sorted q -> base.filter (fun x => x.1 = e) (multimap_insert t f q) =
              base.filter (fun x => x.1 = e) (q ++ [(t, f)]).
Proof.
  intros Hs. rewrite filter_app. induction Hs as [|[t' f'] q Hq IH Hle]; simpl; [done|].
  destruct (time_ltb t t') eqn:E.
  - destruct (decide (t = e)) as [->|Hne].
    + assert (Hno : base.filter (fun x => x.1 = e) ((t', f') :: q) = []).
      { apply filter_none. intros [t2 f2] He. simpl. intros ->.
        apply elem_of_cons in He as [[= <- <-]|He]; [by rewrite time_ltb_irrefl in E|].
        rewrite Forall_forall in Hle. specialize (Hle _ He).
        unfold le_entry in Hle. simpl in Hle. rewrite time_leb_negb, E in Hle. done. }
      rewrite (filter_cons_True _ (e, f) (_ :: _)) by done.
      rewrite Hno, filter_cons_True by done. done.
    + rewrite (filter_cons_False _ (t, f) _), (filter_cons_False _ (t, f) []) by done.
      by rewrite app_nil_r.
  - destruct (decide (t' = e)) as [->|Hne].
    + rewrite !filter_cons_True by done. by rewrite IH.
    + by rewrite !filter_cons_False by done.
Qed.

Lemma erase_absent f q : f ∉ q.*2 -> multimap_erase f q = q.
Proof.
  intros Hf. apply filter_all. intros x Hx <-. by apply Hf, list_elem_of_fmap_2.
Qed.

Lemma erase_insert t f q : f ∉ q.*2 -> multimap_erase f (multimap_insert t f q) = q.
Proof.
  induction q as [|[t' f'] q IH]; simpl; intros Hf.
  - unfold multimap_erase. rewrite filter_cons_False; [done|by intros H; apply H].
  - apply not_elem_of_cons in Hf as [Hne Hf]. destruct (time_ltb t t').
    + unfold multimap_erase. rewrite filter_cons_False by (by intros H; apply H).
      apply (erase_absent f ((t', f') :: q)). by apply not_elem_of_cons.
    + unfold multimap_erase in *. rewrite filter_cons_True by done. by rewrite IH.
Qed.

(** C31. One call of [checkExpiry(now)] on an ordered queue removes exactly the
    entries that are due, in order, and counts them; it wins the race of every
    due fred that nobody has resumed and resumes it once, tells every other due
    node that it expired, touches nobody else, and arms the timer for the
    earliest entry that remains. *)
Theorem checkExpiry_correct now s s' cnt :
  sorted (queue s) -> NoDup (queue s).*2 -> checkExpiry now s = (s', cnt) ->
  let d := (base.filter (due now) (queue s)).*2 in
  queue s' = base.filter (fun e => ~ due now e) (queue s) /\ sorted (queue s') /\
  cnt = Z.of_nat (length d) /\
  resumed s' = rev (base.filter (fun f => resumes s f = nullptr) d) ++ resumed s /\
  (forall f, resumes s' f = if bool_decide (f ∈ d) && (resumes s f =? nullptr) then self else resumes s f) /\
  (forall f, expired s' f = if bool_decide (f ∈ d) && negb (resumes s f =? nullptr) then true else expired s f) /\
  timeouts s' = match queue s' with (t, _) :: _ => t :: timeouts s | [] => timeouts s end.
Proof.
  intros Hs Hn H. pose proof (expiry_sorted _ _ _ _ Hs Hn H) as Hs'.
  pose proof (expiry_loop_spec now _ Hs Hn _ _ _ _ H) as (Hq & Hc & Hr & Hres & Hex & Ht).
  rewrite <- Hq in Ht. by split_and!.
Qed.

(** [enqueue] keeps the queue ordered by deadline, first come first served
    among equal deadlines, and arms the timer exactly when the new deadline is
    the earliest; [erase] removes an entry that has not expired. *)
Theorem enqueue_correct f t s :
  sorted (queue s) -> f ∉ (queue s).*2 ->
  let s' := enqueue f t s in
  sorted (queue s') /\ queue s' ≡ₚ (t, f) :: queue s /\
  (forall e, base.filter (fun x => x.1 = e) (queue s') =
             base.filter (fun x => x.1 = e) (queue s ++ [(t, f)])) /\
  (timeouts s' = t :: timeouts s <-> forall e, e ∈ queue s -> time_ltb t e.1 = true) /\
  (expired s f = false -> queue (erase f s') = queue s).
Proof.
  intros Hs Hf. cbn zeta.
  assert (Hq : queue (enqueue f t s) = multimap_insert t f (queue s)).
  { unfold enqueue. by case_bool_decide. }
  split_and!.
  - rewrite Hq. by apply insert_sorted.
  - rewrite Hq. apply insert_perm.
  - intros e. rewrite Hq. by apply insert_filter.
  - rewrite <- (insert_head t f (queue s)) by done. unfold enqueue.
    case_bool_decide as Hd; split; try done. simpl. intros Heq.
    apply (f_equal length) in Heq. simpl in Heq. lia.
  - intros He. unfold erase, erase_locked.
    replace (expired (enqueue f t s) f) with false by (unfold enqueue; by case_bool_decide).
    simpl. rewrite Hq. by apply erase_insert.
Qed.
End Queue.

(** * Blocking with a timeout, interleaved

    Any number of freds run [blockTimeout]; other parties try to resume them
    at any moment; one processor at a time runs [checkExpiry] under the lock.
    The loop of [checkExpiry] is cut between the access to a node and the
    removal of its entry, where other freds run without the lock. *)
Section Protocol.
Context (self : ptr).

Inductive tpc :=
| TIdle                              (* no node *)
| TPrepared (t : Time)               (* race prepared, node built *)
| TWaiting                           (* entry in the queue, suspended *)
| TErase.                            (* woken by somebody else: erase() *)

(** Who holds the lock: [checkExpiry(now)], and whether it has just accessed
    the first node and not yet removed its entry. *)
Record state := mkState {
  tq : TimerQueue;
  pcs : fid -> tpc;
  holder : option (Time * bool);
  bad : bool                         (* a node was accessed after its lifetime,
                                        or a missing entry was erased *)
}.

Inductive label :=
| Prep (f : fid) (t : Time) | Enq (f : fid) | Other (p : ptr) (f : fid) | Wake (f : fid)
| EraseFast (f : fid) | EraseLocked (f : fid)
| Begin (now : Time) | Touch | EraseHead | Finish.

Definition alive (c : tpc) : bool := match c with TIdle => false | _ => true end.

Definition set_resume (f : fid) (p : ptr) (s : TimerQueue) : TimerQueue :=
  mkTQ (queue s) (expired s) (upd (resumes s) f p) (resumed s) (timeouts s).
Definition set_expired (f : fid) (b : bool) (s : TimerQueue) : TimerQueue :=
  mkTQ (queue s) (upd (expired s) f b) (resumes s) (resumed s) (timeouts s).

Definition step (l : label) (s : state) : option state :=
  let 'mkState q pc h b := s in
  match l with
  | Prep f t =>
      match pc f with
      | TIdle => Some (mkState (set_expired f false (set_resume f nullptr q)) (upd pc f (TPrepared t)) h b)
      | _ => None
      end
  | Enq f =>
      match pc f, h with
      | TPrepared t, None => Some (mkState (enqueue f t q) (upd pc f TWaiting) h b)
      | _, _ => None
      end
  | Other p f =>
      if (p =? nullptr) || (p =? self) then None
      else Some (mkState (if resumes q f =? nullptr then set_resume f p q else q) pc h b)
  | Wake f =>
      match pc f with
      | TWaiting =>
          if resumes q f =? nullptr then None
          else Some (mkState q (upd pc f (if resumes q f =? self then TIdle else TErase)) h b)
      | _ => None
      end
  | EraseFast f =>
      match pc f with
      | TErase => if expired q f then Some (mkState q (upd pc f TIdle) h b) else None
      | _ => None
      end
  | EraseLocked f =>
      match pc f, h with
      | TErase, None =>
          Some (mkState (erase_locked f q) (upd pc f TIdle) h
                  (b || negb (expired q f) && negb (in_queue f (queue q))))
      | _, _ => None
      end
  | Begin now => match h with None => Some (mkState q pc (Some (now, false)) b) | _ => None end
  | Touch =>
      match h, queue q with
      | Some (now, false), (t, f) :: _ =>
          if time_gtb t now then None
          else Some (mkState (expire_node self f q) pc (Some (now, true)) (b || negb (alive (pc f))))
      | _, _ => None
      end
  | EraseHead =>
      match h with
      | Some (now, true) => Some (mkState (set_queue (tail (queue q)) q) pc (Some (now, false)) b)
      | _ => None
      end
  | Finish =>
      match h, queue q with
      | Some (now, false), [] => Some (mkState q pc None b)
      | Some (now, false), (t, _) :: _ =>
          if time_gtb t now then Some (mkState (newTimeout t q) pc None b) else None
      | _, _ => None
      end
  end.

Definition init (s : state) : Prop :=
  exists r, (forall f, r f <> nullptr) /\
    s = mkState (mkTQ [] (fun _ => false) r [] []) (fun _ => TIdle) None false.

(** The entries whose nodes may still be accessed. *)
Definition live (s : state) : list (Time * fid) :=
  match holder s with Some (_, true) => tail (queue (tq s)) | _ => queue (tq s) end.

(** What holds of one fred: [lv], its entry is in the queue and not being
    removed; [r] and [e], its [resumeInfo] and [expired]. *)
Definition fred_ok (lv : Prop) (r : ptr) (e : bool) (c : tpc) : Prop :=
  match c with
  | TIdle => ~ lv /\ r <> nullptr
  | TPrepared _ => ~ lv /\ r <> self /\ e = false
  | TWaiting =>
      (r = nullptr -> lv) /\ (lv -> r <> self /\ e = false) /\ (r <> self -> ~ lv -> e = true)
  | TErase => r <> nullptr /\ r <> self /\ (lv <-> e = false)
  end.

Definition inv (s : state) : Prop :=
  let lv := (live s).*2 in
  sorted (queue (tq s)) /\ NoDup lv /\ bad s = false /\
  forall f, fred_ok (f ∈ lv) (resumes (tq s) f) (expired (tq s) f) (pcs s f).

Hypothesis self_not_null : self <> nullptr.

Lemma in_insert t f q g : g ∈ (multimap_insert t f q).*2 <-> g = f \/ g ∈ q.*2.
Proof. rewrite insert_perm. simpl. by rewrite elem_of_cons. Qed.

Lemma in_erase f q g : g ∈ (multimap_erase f q).*2 <-> g <> f /\ g ∈ q.*2.
Proof.
  unfold multimap_erase. rewrite !list_elem_of_fmap. split.
  - intros (x & -> & [Hx Hin]%list_elem_of_filter). naive_solver.
  - intros (Hne & x & -> & Hin). exists x. split; [done|]. by apply list_elem_of_filter.
Qed.

Lemma nodup_erase f q : NoDup q.*2 -> NoDup (multimap_erase f q).*2.
Proof.
  intros Hn. unfold multimap_erase. induction q as [|[t g] q IH]; simpl; [done|].
  inversion Hn; subst. destruct (decide (g = f)) as [->|Hne].
  - rewrite filter_cons_False by (intros H; by apply H). by apply IH.
  - rewrite filter_cons_True by done. simpl. constructor; [|by apply IH].
    rewrite (in_erase f q). tauto.
Qed.

Lemma enqueue_fields f t s :
  queue (enqueue f t s) = multimap_insert t f (queue s) /\
  expired (enqueue f t s) = expired s /\ resumes (enqueue f t s) = resumes s.
Proof. unfold enqueue. by case_bool_decide. Qed.

Lemma timer_init_inv s : init s -> inv s.
Proof.
  intros (r & Hr & ->). unfold inv, live, fred_ok. simpl.
  repeat split; try constructor; try done. intros H. inversion H.
Qed.

Lemma expire_node_fields f s :
  queue (expire_node self f s) = queue s /\
  resumes (expire_node self f s) = (if resumes s f =? nullptr then upd (resumes s) f self else resumes s) /\
  expired (expire_node self f s) = (if resumes s f =? nullptr then expired s else upd (expired s) f true).
Proof. unfold expire_node. by destruct (resumes s f =? nullptr). Qed.

Lemma fred_ok_iff (P Q : Prop) r e c : (P <-> Q) -> fred_ok P r e c -> fred_ok Q r e c.
Proof. intros H. unfold fred_ok. destruct c; rewrite H; done. Qed.

Lemma wait_erase (lv : Prop) r e : Decision lv ->
  fred_ok lv r e TWaiting -> r <> nullptr -> r <> self -> fred_ok lv r e TErase.
Proof.
  intros Hd (H1 & H2 & H3) Hn Hs. split_and!; [done|done|]. split; [apply H2|].
  intros ->. destruct (decide lv); [done|]. by specialize (H3 Hs n).
Qed.

Lemma timer_step_inv l s s' : inv s -> step l s = Some s' -> inv s'.
Proof.
  destruct s as [q pc h b]. unfold inv. simpl. intros (Hs & Hnd & -> & Hok) Hst.
  destruct l; simpl in Hst; repeat split_match_in Hst; simplify_eq/=; bool_prop; unfold live in *; cbn in *.
  - (* Prep *)
    split_and!; try done. intros g. specialize (Hok g). at_fred g f; [|done].
    rewrite Heqt0 in Hok. simpl in *. naive_solver.
  - (* Enq *)
    destruct (enqueue_fields f t q) as (-> & -> & ->).
    pose proof (Hok f) as Hf. rewrite Heqt in Hf. destruct Hf as (Hin & Hr & He).
    split_and!; [by apply insert_sorted| |done|].
    + rewrite insert_perm. simpl. by constructor.
    + intros g. eapply fred_ok_iff; [symmetry; apply in_insert|]. specialize (Hok g). at_fred g f.
      * simpl. split_and!; tauto.
      * eapply fred_ok_iff; [|exact Hok]. naive_solver.
  - (* Other *)
    split_and!; try done. intros g. specialize (Hok g). at_fred g f; [|done].
    destruct (pc f); simpl in *; naive_solver.
  - by split_and!.
  - (* Wake *)
    split_and!; try done. intros g. specialize (Hok g). at_fred g f; [|done].
    rewrite Heqt in Hok. simpl in *. naive_solver.
  - split_and!; try done. intros g. specialize (Hok g). at_fred g f; [|done].
    rewrite Heqt in Hok. by apply wait_erase; [apply _| | |].
  - (* EraseFast *)
    split_and!; try done. intros g. specialize (Hok g). at_fred g f; [|done].
    rewrite Heqt in Hok. simpl in *. rewrite Heqb in Hok. naive_solver.
  - (* EraseLocked *)
    pose proof (Hok f) as Hf. rewrite Heqt in Hf. destruct Hf as (Hr0 & Hrs & Hin).
    unfold erase_locked, in_queue. destruct (expired q f) eqn:He; cbn.
    + split_and!; try done. intros g. specialize (Hok g). at_fred g f; [|done]. simpl. naive_solver.
    + split_and!; [by apply sorted_filter|by apply nodup_erase|by rewrite bool_decide_eq_true_2 by (by apply Hin)|].
      intros g. eapply fred_ok_iff; [symmetry; apply in_erase|]. specialize (Hok g). at_fred g f.
      * simpl. naive_solver.
      * eapply fred_ok_iff; [|exact Hok]. naive_solver.
  - by split_and!.
  - (* Touch *)
    rename n into f. pose proof (Hok f) as Hf.
    destruct (expire_node_fields f q) as (-> & -> & ->). rewrite Heql in *. cbn in *.
    apply NoDup_cons in Hnd as [Hnin Hnd].
    assert (Hal : alive (pc f) = true).
    { destruct (pc f); try done. destruct Hf as [Hf _]. destruct Hf. by left. }
    rewrite Hal. split_and!; try done.
    intros g. specialize (Hok g). destruct (decide (f = g)) as [<-|Hne].
    + assert (Hl : f ∈ f :: l.*2) by by left. cbn in Hok.
      destruct (resumes q f =? nullptr) eqn:E; bool_prop; rewrite ?upd_eq;
        destruct (pc f); simpl in *; naive_solver.
    + eapply (fred_ok_iff (g ∈ f :: l.*2)); [rewrite elem_of_cons; naive_solver|].
      destruct (resumes q f =? nullptr); rewrite ?upd_ne by done; exact Hok.
  - (* EraseHead *)
    split_and!; try done. destruct (queue q); [constructor|]. by apply StronglySorted_inv in Hs as [? _].
  - (* Finish *)
    rewrite <- Heql in Hs. by split_and!.
  - rewrite <- Heql in Hs. by split_and!.
Qed.

Lemma timer_reachable_inv s : reachable init step s -> inv s.
Proof. apply invariant_rule; [apply timer_init_inv|]. intros ? ? ?. apply timer_step_inv. Qed.

End Protocol.

(** ** Concrete runs *)
Definition at_ms (n : Z) : Time := fromMS n.

Definition three_sleepers : TimerQueue :=
  enqueue 2 (at_ms 30) (enqueue 1 (at_ms 10) (enqueue 0 (at_ms 20)
    (mkTQ [] (fun _ => false) (upd (fun _ => nullptr) 1%nat 77) [] []))).

Example three_sleepers_expire :
  let '(s, cnt) := checkExpiry 9 (at_ms 20) three_sleepers in
  queue s = [(at_ms 30, 2%nat)] /\ cnt = 2 /\ resumed s = [0%nat] /\ expired s 1 = true /\
  resumes s 0 = 9 /\ timeouts s = [at_ms 30; at_ms 10; at_ms 20].
Proof. by vm_compute. Qed.

Ltac sorted_closed := repeat (constructor; [|repeat (constructor; [vm_compute; reflexivity|]); constructor]); constructor.

Lemma checkExpiry_correct_witness :
  queue (checkExpiry 9 (at_ms 20) three_sleepers).1 = [(at_ms 30, 2%nat)].
Proof.
  destruct (checkExpiry 9 (at_ms 20) three_sleepers) as [s cnt] eqn:E.
  assert (Hs : sorted (queue three_sleepers)) by (vm_compute; sorted_closed).
  assert (Hn : NoDup (queue three_sleepers).*2) by (apply (bool_decide_unpack _); vm_compute; exact I).
  destruct (checkExpiry_correct 9 (at_ms 20) three_sleepers s cnt Hs Hn E) as [Hq _].
  cbn [fst]. rewrite Hq. vm_compute. reflexivity.
Defined.

Lemma enqueue_correct_witness :
  timeouts (enqueue 5 (at_ms 5) three_sleepers) = at_ms 5 :: timeouts three_sleepers.
Proof.
  assert (Hs : sorted (queue three_sleepers)) by (vm_compute; sorted_closed).
  assert (Hn : 5%nat ∉ (queue three_sleepers).*2)
    by (apply (bool_decide_unpack _); vm_compute; exact I).
  destruct (enqueue_correct 5 (at_ms 5) three_sleepers Hs Hn) as (_ & _ & _ & H & _).
  apply H. apply Forall_forall. vm_compute.
  repeat (constructor; [reflexivity|]). constructor.
Defined.

Definition sleeper_run : list label :=
  [Prep 0 (at_ms 10); Prep 1 (at_ms 5); Enq 0; Enq 1; Begin (at_ms 7); Other 77 1; Wake 1;
   Touch; EraseFast 1; Prep 1 (at_ms 20); EraseHead; Finish; Enq 1].
Definition sleeper_start : state :=
  mkState (mkTQ [] (fun _ => false) (fun _ => 1) [] []) (fun _ => TIdle) None false.

