(* ===== verification/BlockingQueues.v ===== *)
(** [class BlockingQueue] of src/src/runtime/BlockingSync.h: freds waiting in
    order of arrival, resumed by the owner of the queue or cancelled by somebody
    else (a timer), and the facts about it that every primitive built on it
    uses.  The queue's methods run under the lock of the primitive; a fred's
    [resumeInfo] word decides between the queue and the canceller. *)

From S2P Require Import Prelude Words Times Freds.
Local Open Scope Z_scope.

Abbreviation fid := nat (only parsing).

(** The list of nodes (a node lives on the stack of the fred that blocks and
    is named by it) and the [resumeInfo] words of all freds. *)
Record BlockingQueue := mkBQ { nodes : list fid; resumes : fid -> ptr }.

Section BlockingQueue.
Context (self : ptr).                 (* &queue *)

(** [blockInternal] before the suspension: prepare the race, append the node
    (then the lock is released and the fred suspends). *)
Definition block_enter (f : fid) (q : BlockingQueue) : BlockingQueue :=
  mkBQ (nodes q ++ [f]) (upd (resumes q) f nullptr).

(** After the suspension: [true], the queue won; otherwise [block_cleanup]
    runs under the lock and [block] returns [false]. *)
Definition block_won (winner : ptr) : bool := winner =? self.
Definition block_cleanup (f : fid) (q : BlockingQueue) : BlockingQueue :=
  mkBQ (base.filter (fun g => g <> f) (nodes q)) (resumes q).

Definition empty (q : BlockingQueue) : bool := match nodes q with [] => true | _ => false end.

(** How a call of [block] may wait: [block(lock, wait)] and
    [block(lock, timeout)]. *)
Inductive wait_arg := Wait (wait : bool) | Until (timeout : Time).

(** Does the call suspend at all?  Otherwise it returns [false] at once. *)
Definition block_suspends (a : wait_arg) (now : Time) : bool :=
  match a with Wait w => w | Until t => time_gtb t now end.

(** What a primitive's attempt under its lock comes to: it has what it wants,
    it returns [false] at once, or it suspends in the queue. *)
Inductive attempt := Acquired | NotNow | Suspended.

(** [unblock]: resume the first waiter whose race is still open. *)
Fixpoint unblock_nodes (l : list fid) (r : fid -> ptr) : option fid * BlockingQueue :=
  match l with
  | [] => (None, mkBQ [] r)
  | f :: l' =>
      if r f =? nullptr then (Some f, mkBQ l' (upd r f self))
      else let '(n, q) := unblock_nodes l' r in (n, mkBQ (f :: nodes q) (resumes q))
  end.

Definition unblock (q : BlockingQueue) : option fid * BlockingQueue :=
  unblock_nodes (nodes q) (resumes q).

(** [raceResume(p)] by somebody who is not the queue. *)
Definition cancel_race (f : fid) (p : ptr) (q : BlockingQueue) : BlockingQueue :=
  if resumes q f =? nullptr then mkBQ (nodes q) (upd (resumes q) f p) else q.

(** * Facts *)

(** The freds that [unblock] can still resume, in order. *)
Definition waiting (q : BlockingQueue) : list fid :=
  base.filter (fun f => resumes q f = nullptr) (nodes q).

Lemma unblock_none q : waiting q = [] -> unblock q = (None, q).
Proof.
  destruct q as [l r]. unfold unblock, waiting. simpl.
  induction l as [|f l IH]; simpl; [done|]. intros H.
  destruct (decide (r f = nullptr)) as [Hf|Hf].
  - by rewrite filter_cons_True in H.
  - rewrite filter_cons_False in H by done. apply Z.eqb_neq in Hf. rewrite Hf.
    by rewrite (IH H).
Qed.

Lemma unblock_some q f ws : waiting q = f :: ws ->
  exists l1 l2, nodes q = l1 ++ f :: l2 /\ resumes q f = nullptr /\
    (forall g, g ∈ l1 -> resumes q g <> nullptr) /\
    unblock q = (Some f, mkBQ (l1 ++ l2) (upd (resumes q) f self)).
Proof.
  destruct q as [l r]. unfold unblock, waiting. simpl.
  induction l as [|g l IH]; simpl; [done|].
  destruct (decide (r g = nullptr)) as [Hg|Hg].
  - rewrite filter_cons_True by done. intros [= -> _].
    exists [], l. rewrite Hg. split_and!; try done. intros g Hin. inversion Hin.
  - rewrite filter_cons_False by done. intros H.
    destruct (IH H) as (l1 & l2 & -> & Hf & Hl1 & Hu). apply Z.eqb_neq in Hg as Hg'.
    exists (g :: l1), l2. rewrite Hg', Hu. split_and!; try done.
    intros x [->|Hx]%elem_of_cons; [done|by apply Hl1].
Qed.

Lemma unblock_waiting q f ws : self <> nullptr -> NoDup (nodes q) -> waiting q = f :: ws ->
  waiting (unblock q).2 = ws.
Proof.
  intros Hself Hn Hw. destruct (unblock_some q f ws Hw) as (l1 & l2 & Hq & Hf & Hl1 & ->).
  unfold waiting in *. simpl. rewrite Hq in Hw, Hn.
  apply NoDup_app in Hn as (_ & Hd & Hn2%NoDup_cons). destruct Hn2 as [Hn2 _].
  rewrite filter_app in Hw |- *. rewrite (filter_none _ l1) in Hw by done.
  rewrite filter_cons_True in Hw by done. simplify_eq/=.
  rewrite (filter_none _ l1).
  - simpl. apply filter_ext_elem. intros x Hx. rewrite upd_ne; [done|]. by intros ->.
  - intros x Hx. rewrite upd_ne; [by apply Hl1|]. intros ->. apply (Hd x Hx). by left.
Qed.

(** How a fred stands with respect to the queue. *)
Inductive stand := Away | Blocked | Cancelled.

(** Consistency of the queue with the freds' program counters (seen as
    [stand]s): nodes are there exactly as long as needed. *)
Record consistent (v : fid -> stand) (q : BlockingQueue) : Prop := mkConsistent {
  con_nodup : NoDup (nodes q);
  con_away f : v f = Away -> f ∉ nodes q;
  con_blocked f : v f = Blocked -> (f ∈ nodes q <-> resumes q f <> self);
  con_cancelled f : v f = Cancelled -> f ∈ nodes q /\ resumes q f <> nullptr
}.

#[global] Instance consistent_proper : Proper (pointwise_relation fid eq ==> eq ==> iff) consistent.
Proof.
  intros v v' Hv q ? <-. split; intros [H1 H2 H3 H4]; split; try done; intros f Hf;
    [rewrite <- Hv in Hf|rewrite <- Hv in Hf|rewrite <- Hv in Hf
    |rewrite Hv in Hf|rewrite Hv in Hf|rewrite Hv in Hf]; auto.
Qed.

Hypothesis self_not_null : self <> nullptr.

Lemma consistent_init v r : (forall f, v f = Away) -> consistent v (mkBQ [] r).
Proof.
  intros Hv. split; simpl; try (intros f Hf; rewrite Hv in Hf; done); [constructor|].
  intros f _ H. inversion H.
Qed.

Lemma consistent_enter v q f : v f = Away -> consistent v q ->
  consistent (upd v f Blocked) (block_enter f q).
Proof.
  intros Hf [Hn Ha Hb Hc]. split; simpl.
  - apply NoDup_app. split_and!; [done| |apply NoDup_singleton].
    intros g Hg ->%list_elem_of_singleton. by apply (Ha f).
  - intros g. rewrite elem_of_app, list_elem_of_singleton. at_fred g f; [done|]. naive_solver.
  - intros g. rewrite elem_of_app, list_elem_of_singleton. at_fred g f; naive_solver.
  - intros g. rewrite elem_of_app, list_elem_of_singleton. at_fred g f; naive_solver.
Qed.

(** [unblock] resumes the longest waiting fred whose race is open, if any. *)
Lemma unblock_ok v q : consistent v q ->
  match unblock q with
  | (None, q') => q' = q /\ waiting q = []
  | (Some f, q') => v f = Blocked /\ resumes q f = nullptr /\ resumes q' = upd (resumes q) f self /\
                    waiting q = f :: waiting q' /\ consistent v q'
  end.
Proof.
  intros [Hn Ha Hb Hc]. destruct (waiting q) as [|f ws] eqn:Hw.
  - by rewrite unblock_none.
  - pose proof (unblock_waiting q f ws self_not_null Hn Hw) as Hws.
    destruct (unblock_some q f ws Hw) as (l1 & l2 & Hq & Hf & Hl1 & Hu). rewrite Hu in Hws |- *.
    assert (Hin : f ∈ nodes q) by (rewrite Hq; apply elem_of_app; right; by left).
    assert (Hv : v f = Blocked).
    { destruct (v f) eqn:E; [by apply Ha in E|done|]. apply Hc in E. naive_solver. }
    assert (Hmem : forall g, g ∈ l1 ++ l2 <-> g <> f /\ g ∈ nodes q).
    { rewrite Hq in Hn |- *. apply NoDup_app in Hn as (_ & Hd & [Hn2 _]%NoDup_cons).
      intros g. specialize (Hd g). rewrite !elem_of_app, elem_of_cons in *. naive_solver. }
    split_and!; try done; [by rewrite <- Hws|]. split; cbn [nodes resumes].
    + rewrite Hq in Hn. rewrite <- Permutation_middle in Hn. by apply NoDup_cons in Hn as [_ Hn].
    + intros g Hg. rewrite Hmem. intros [_ Hin']. by apply (Ha g).
    + intros g Hg. rewrite Hmem. specialize (Hb g Hg). at_fred g f; naive_solver.
    + intros g Hg. rewrite Hmem. specialize (Hc g Hg). at_fred g f; naive_solver.
Qed.

Lemma consistent_cancel v q f p : p <> nullptr -> p <> self ->
  consistent v q -> consistent v (cancel_race f p q).
Proof.
  intros Hp Hps [Hn Ha Hb Hc]. unfold cancel_race. destruct (resumes q f =? nullptr) eqn:E; [|done].
  bool_prop. split; simpl; try done; intros g Hg.
  - rewrite (Hb g Hg). at_fred g f; [naive_solver|done].
  - split; [by apply Hc|]. at_fred g f; [done|]. by apply Hc.
Qed.

Lemma waiting_cancel q f p : p <> nullptr ->
  waiting (cancel_race f p q) = base.filter (fun g => g <> f) (waiting q).
Proof.
  intros Hp. unfold cancel_race, waiting. destruct (resumes q f =? nullptr) eqn:E; bool_prop; simpl.
  - rewrite list_filter_filter. apply list_filter_iff. intros g. at_fred g f; naive_solver.
  - rewrite list_filter_filter. apply list_filter_iff. naive_solver.
Qed.

Lemma consistent_wake v q f : v f = Blocked -> resumes q f <> nullptr -> consistent v q ->
  consistent (upd v f (if resumes q f =? self then Away else Cancelled)) q.
Proof.
  intros Hf Hr [Hn Ha Hb Hc]. pose proof (Hb f Hf) as Hbf.
  destruct (resumes q f =? self) eqn:E; bool_prop; split; try done; intros g; at_fred g f; naive_solver.
Qed.

Lemma elem_of_cleanup q f g : g ∈ nodes (block_cleanup f q) <-> g <> f /\ g ∈ nodes q.
Proof. unfold block_cleanup. simpl. by rewrite list_elem_of_filter. Qed.

Lemma consistent_cleanup v q f : v f = Cancelled -> consistent v q ->
  consistent (upd v f Away) (block_cleanup f q).
Proof.
  intros Hf [Hn Ha Hb Hc]. split; [by apply NoDup_filter|..]; intros g; rewrite elem_of_cleanup;
    cbn [resumes block_cleanup]; at_fred g f; naive_solver.
Qed.

Lemma waiting_cleanup v q f : v f = Cancelled -> consistent v q ->
  waiting (block_cleanup f q) = waiting q.
Proof.
  intros Hf [Hn Ha Hb Hc]. destruct (Hc f Hf) as [_ Hr]. unfold waiting. simpl.
  rewrite list_filter_filter. apply list_filter_iff. naive_solver.
Qed.

Lemma waiting_enter v q f : v f = Away -> consistent v q ->
  waiting (block_enter f q) = waiting q ++ [f].
Proof.
  intros Hf [Hn Ha _ _]. specialize (Ha f Hf). unfold waiting. simpl.
  rewrite filter_app, filter_cons_True by apply upd_eq. f_equal.
  apply filter_ext_elem. intros x Hx. rewrite upd_ne; [done|]. by intros ->.
Qed.

Lemma waiting_blocked v q f : consistent v q -> f ∈ waiting q <-> v f = Blocked /\ resumes q f = nullptr.
Proof.
  intros [Hn Ha Hb Hc]. unfold waiting. rewrite list_elem_of_filter. specialize (Ha f).
  specialize (Hb f). specialize (Hc f).
  destruct (v f).
  - split; [intros [_ ?]; by destruct Ha|by intros [? _]].
  - split; [by intros [? _]|]. intros [_ Hr]. split; [done|]. apply Hb; [done|]. congruence.
  - split; [intros [? _]; by destruct (Hc eq_refl)|by intros [? _]].
Qed.

(** The [resumeInfo] of a fred that does not stand in this queue is of no
    interest to it (it blocks elsewhere). *)
Lemma consistent_elsewhere v q f p : v f = Away -> consistent v q ->
  consistent v (mkBQ (nodes q) (upd (resumes q) f p)).
Proof.
  intros Hf [Hn Ha Hb Hc]. split; simpl; try done; intros g Hg; (rewrite upd_ne by (intros <-; congruence)); auto.
Qed.

Lemma waiting_elsewhere v q f p : v f = Away -> consistent v q ->
  waiting (mkBQ (nodes q) (upd (resumes q) f p)) = waiting q.
Proof.
  intros Hf [Hn Ha _ _]. unfold waiting. simpl. apply filter_ext_elem. intros g Hg.
  rewrite upd_ne; [done|]. intros ->. by apply (Ha g).
Qed.
End BlockingQueue.
