(* ===== verification/Semaphores.v ===== *)
(** [LockedSemaphore] of src/src/runtime/BlockingSync.h.  Each definition of
    the first section is the part of a method that runs under the semaphore's
    lock; what follows the lock's release is [f->resume()] of the fred that was
    dequeued, whose race is already decided (see Freds.v).  The second section
    interleaves calls of any number of freds, timeouts and cancellations, and
    relates them to an abstract first-come-first-served counting semaphore. *)

From S2P Require Import Prelude Words Times Freds BlockingQueues.
Local Open Scope Z_scope.

Inductive SemaphoreResult := SemaphoreTimeout | SemaphoreSuccess | SemaphoreWasOpen.

(** [Lock] is held during each definition; [counter] is an [ssize_t] that moves
    by one per call. *)
Record LockedSemaphore := mkSem { counter : Z; bq : BlockingQueue }.

Section LockedSemaphore.
Context (self : ptr) (Binary : bool).   (* &bq, and the template argument *)

(** [internalP(args)]: the result when the call does not suspend. *)
Definition internalP (f : fid) (a : wait_arg) (now : Time) (s : LockedSemaphore)
    : option SemaphoreResult * LockedSemaphore :=
  if counter s <? 1
  then if block_suspends a now then (None, mkSem (counter s) (block_enter f (bq s)))
       else (Some SemaphoreTimeout, s)
  else (Some SemaphoreWasOpen, mkSem (counter s - 1) (bq s)).

(** What [P] returns after a suspension won by [winner]. *)
Definition P_result (winner : ptr) : SemaphoreResult :=
  if block_won self winner then SemaphoreSuccess else SemaphoreTimeout.

Definition tryP (f : fid) (now : Time) (s : LockedSemaphore) := internalP f (Wait false) now s.

(** [wait(args)]: condition/signal semantics. *)
Definition wait (f : fid) (a : wait_arg) (now : Time) (s : LockedSemaphore)
    : option (option SemaphoreResult * LockedSemaphore) :=
  rassert Binary;; rassert (0 <=? counter s);;
  Some (internalP f a now (mkSem 0 (bq s))).

Definition V (s : LockedSemaphore) : option fid * LockedSemaphore :=
  match unblock self (bq s) with
  | (Some next, q) => (Some next, mkSem (counter s) q)
  | (None, q) => (None, mkSem (if Binary then 1 else counter s + 1) q)
  end.

Definition tryV (s : LockedSemaphore) : option fid * LockedSemaphore :=
  let '(next, q) := unblock self (bq s) in (next, mkSem (counter s) q).

Definition reset (c : Z) (s : LockedSemaphore) : option LockedSemaphore :=
  rassert (empty (bq s));; Some (mkSem c (bq s)).

(** * The semaphore in use *)
Inductive spc := SIdle | SBlocked | SCancelled.

Record state := mkState {
  sem : LockedSemaphore;
  pcs : fid -> spc;
  given : list fid;     (* granted by V, not yet returned from P (ghost) *)
  taken : Z;            (* successful returns of P (ghost) *)
  posted : Z;           (* calls of V, and of tryV that found a waiter (ghost) *)
  aborted : bool
}.

Inductive label :=
| DoP (f : fid) (a : wait_arg) (now : Time)
| DoWait (f : fid) (a : wait_arg) (now : Time)
| DoV | DoTryV
| Cancel (f : fid) (p : ptr)      (* a timer or another party wins the race *)
| Wake (f : fid)                  (* the fred runs again *)
| Cleanup (f : fid).              (* its node is removed, under the lock *)

Definition after_P (f : fid) (r : option SemaphoreResult * LockedSemaphore) (s : state) : state :=
  let '(res, s') := r in
  mkState s' (match res with None => upd (pcs s) f SBlocked | _ => pcs s end) (given s)
    (match res with Some SemaphoreWasOpen => taken s + 1 | _ => taken s end) (posted s) (aborted s).

Definition step (l : label) (s : state) : option state :=
  let 'mkState sm pc gv tk po ab := s in
  match l with
  | DoP f a now => match pc f with SIdle => Some (after_P f (internalP f a now sm) s) | _ => None end
  | DoWait f a now =>
      match pc f with
      | SIdle => match wait f a now sm with
                 | Some r => Some (after_P f r s)
                 | None => Some (mkState sm pc gv tk po true)
                 end
      | _ => None
      end
  | DoV => let '(n, sm') := V sm in
           Some (mkState sm' pc (match n with Some f => f :: gv | None => gv end) tk (po + 1) ab)
  | DoTryV => let '(n, sm') := tryV sm in
              Some (mkState sm' pc (match n with Some f => f :: gv | None => gv end) tk
                      (match n with Some _ => po + 1 | None => po end) ab)
  | Cancel f p =>
      if (p =? nullptr) || (p =? self) then None
      else Some (mkState (mkSem (counter sm) (cancel_race f p (bq sm))) pc gv tk po ab)
  | Wake f =>
      match pc f with
      | SBlocked =>
          if resumes (bq sm) f =? nullptr then None else
          Some (match P_result (resumes (bq sm) f) with
                | SemaphoreSuccess => mkState sm (upd pc f SIdle) (base.filter (fun g => g <> f) gv) (tk + 1) po ab
                | _ => mkState sm (upd pc f SCancelled) gv tk po ab
                end)
      | _ => None
      end
  | Cleanup f =>
      match pc f with
      | SCancelled => Some (mkState (mkSem (counter sm) (block_cleanup f (bq sm))) (upd pc f SIdle) gv tk po ab)
      | _ => None
      end
  end.

Context (c0 : Z).

Definition init (s : state) : Prop :=
  exists r, s = mkState (mkSem c0 (mkBQ [] r)) (fun _ => SIdle) [] 0 0 false.

(** * The abstract semaphore *)
Record spec := mkSpec { value : Z; fifo : list fid }.

Inductive spec_label := Take (f : fid) | Join (f : fid) | Clear | ClearJoin (f : fid)
| Post | Grant (f : fid) | Leave (f : fid).

Definition spec_step (l : spec_label) (s : spec) : option spec :=
  match l with
  | Take f => if 1 <=? value s then Some (mkSpec (value s - 1) (fifo s)) else None
  | Join f => if value s <? 1 then Some (mkSpec (value s) (fifo s ++ [f])) else None
  | Clear => Some (mkSpec 0 (fifo s))
  | ClearJoin f => Some (mkSpec 0 (fifo s ++ [f]))
  | Post => match fifo s with [] => Some (mkSpec (if Binary then 1 else value s + 1) []) | _ => None end
  | Grant f => match fifo s with g :: q => if decide (f = g) then Some (mkSpec (value s) q) else None | [] => None end
  | Leave f => Some (mkSpec (value s) (base.filter (fun g => g <> f) (fifo s)))
  end.

Definition spec_init (s : spec) : Prop := s = mkSpec c0 [].

Definition abs (s : state) : spec := mkSpec (counter (sem s)) (waiting (bq (sem s))).

(** The abstract step of a concrete one. *)
Definition abs_label (l : label) (s : state) : option spec_label :=
  match l with
  | DoP f a now =>
      if counter (sem s) <? 1 then if block_suspends a now then Some (Join f) else None else Some (Take f)
  | DoWait f a now =>
      match wait f a now (sem s) with
      | Some (None, _) => Some (ClearJoin f) | Some (Some _, _) => Some Clear | None => None
      end
  | DoV => match waiting (bq (sem s)) with [] => Some Post | f :: _ => Some (Grant f) end
  | DoTryV => match waiting (bq (sem s)) with [] => None | f :: _ => Some (Grant f) end
  | Cancel f p => Some (Leave f)
  | Wake _ | Cleanup _ => None
  end.

Definition stand_of (c : spc) : stand :=
  match c with SIdle => Away | SBlocked => Blocked | SCancelled => Cancelled end.

Record inv (s : state) : Prop := mkInv {
  inv_bq : consistent self (stand_of ∘ pcs s) (bq (sem s));
  inv_given f : f ∈ given s <-> pcs s f = SBlocked /\ resumes (bq (sem s)) f = self;
  inv_nodup : NoDup (given s);
  inv_counter : 0 <= counter (sem s);
  inv_binary : Binary = true -> counter (sem s) <= Z.max 1 c0;
  inv_waiting : waiting (bq (sem s)) <> [] -> counter (sem s) = 0;
  inv_tokens : counter (sem s) + taken s + Z.of_nat (length (given s)) <= c0 + posted s;
  inv_exact : Binary = false -> counter (sem s) + taken s + Z.of_nat (length (given s)) = c0 + posted s;
  inv_aborted : aborted s = true -> Binary = false
}.

Hypothesis self_not_null : self <> nullptr.
Hypothesis c0_nonneg : 0 <= c0.

Definition matched (l : label) (s s' : state) : Prop :=
  match abs_label l s with
  | Some b => spec_step b (abs s) = Some (abs s')
  | None => abs s' = abs s
  end.

Lemma init_ok s : init s -> inv s /\ spec_init (abs s).
Proof.
  intros (r & ->). split; [|done]. split; simpl; try done; try lia.
  - by apply consistent_init.
  - intros f. split; [intros H; inversion H|by intros [? _]].
  - constructor.
Qed.

Ltac tokens :=
  try done;
  try solve [intros;
    repeat match goal with H : ?P -> _, H' : ?P |- _ => specialize (H H') end; (done || lia)].

(** Calls of [P] and [wait] (which clears the counter first). *)
Lemma internalP_ok f a now (c : Z) s :
  inv s -> pcs s f = SIdle -> 0 <= c <= counter (sem s) ->
  (Binary = false -> c = counter (sem s)) ->
  inv (after_P f (internalP f a now (mkSem c (bq (sem s)))) s).
Proof.
  intros [Hbq Hg Hnd Hc Hbin Hw Htk Hex Hab] Hf Hc' HB. unfold internalP. cbn [counter bq].
  assert (Hv : (stand_of ∘ pcs s) f = Away) by (unfold compose; by rewrite Hf).
  destruct (c <? 1) eqn:E; [destruct (block_suspends a now)|]; bool_prop; cbn.
  - split; cbn [sem pcs given taken posted aborted bq counter]; tokens.
    + rewrite compose_upd. by apply consistent_enter.
    + intros g. rewrite Hg. unfold block_enter. cbn [resumes]. at_fred g f; [|done].
      rewrite Hf. split; [by intros [? _]|]. intros [_ ?]. congruence.
  - split; cbn [sem pcs given taken posted aborted bq counter]; tokens.
  - split; cbn [sem pcs given taken posted aborted bq counter]; tokens.
Qed.

(** [V] and [tryV] when a fred waits: the baton is passed. *)
Lemma grant_ok s f q :
  inv s -> unblock self (bq (sem s)) = (Some f, q) ->
  inv (mkState (mkSem (counter (sem s)) q) (pcs s) (f :: given s) (taken s) (posted s + 1) (aborted s)).
Proof.
  intros [Hbq Hg Hnd Hc Hbin Hw Htk Hex Hab] Hu.
  pose proof (unblock_ok self self_not_null _ _ Hbq) as Hok. rewrite Hu in Hok.
  destruct Hok as (Hv & Hr & Hres & Hwait & Hcon).
  assert (Hpc : pcs s f = SBlocked) by (unfold compose in Hv; by destruct (pcs s f)).
  split; cbn [sem pcs given taken posted aborted bq counter length]; tokens.
  - intros g. rewrite Hres, elem_of_cons, Hg. at_fred g f; [tauto|]. naive_solver.
  - constructor; [|done]. rewrite Hg. intros [_ ?]. congruence.
  - intros _. apply Hw. by rewrite Hwait.
Qed.

Lemma post_ok s :
  inv s -> waiting (bq (sem s)) = [] ->
  inv (mkState (mkSem (if Binary then 1 else counter (sem s) + 1) (bq (sem s))) (pcs s) (given s) (taken s)
         (posted s + 1) (aborted s)).
Proof.
  intros [Hbq Hg Hnd Hc Hbin Hw Htk Hex Hab] Hw0.
  split; cbn [sem pcs given taken posted aborted bq counter]; destruct Binary; tokens.
Qed.

Lemma sem_wake_ok s f :
  inv s -> pcs s f = SBlocked -> resumes (bq (sem s)) f <> nullptr ->
  inv (match P_result (resumes (bq (sem s)) f) with
       | SemaphoreSuccess => mkState (sem s) (upd (pcs s) f SIdle) (base.filter (fun g => g <> f) (given s))
                               (taken s + 1) (posted s) (aborted s)
       | _ => mkState (sem s) (upd (pcs s) f SCancelled) (given s) (taken s) (posted s) (aborted s)
       end).
Proof.
  intros [Hbq Hg Hnd Hc Hbin Hw Htk Hex Hab] Hf Hr.
  assert (Hv : (stand_of ∘ pcs s) f = Blocked) by (unfold compose; by rewrite Hf).
  pose proof (consistent_wake self self_not_null _ _ _ Hv Hr Hbq) as Hcw.
  unfold P_result, block_won. destruct (resumes (bq (sem s)) f =? self) eqn:E; bool_prop.
  - assert (Hlen : Z.of_nat (length (base.filter (fun g => g <> f) (given s))) = Z.of_nat (length (given s)) - 1).
    { rewrite <- (length_filter_out (given s) f) by (done || by apply Hg). lia. }
    split; cbn [sem pcs given taken posted aborted bq counter]; tokens.
    + by rewrite compose_upd.
    + intros g. rewrite list_elem_of_filter, Hg. at_fred g f; naive_solver.
    + by apply NoDup_filter.
  - split; cbn [sem pcs given taken posted aborted bq counter]; tokens.
    + by rewrite compose_upd.
    + intros g. rewrite Hg. at_fred g f; naive_solver.
Qed.

Lemma sem_cancel_ok s f p :
  inv s -> p <> nullptr -> p <> self ->
  inv (mkState (mkSem (counter (sem s)) (cancel_race f p (bq (sem s)))) (pcs s) (given s) (taken s)
         (posted s) (aborted s)).
Proof.
  intros [Hbq Hg Hnd Hc Hbin Hw Htk Hex Hab] Hp Hps.
  split; cbn [sem pcs given taken posted aborted bq counter]; tokens.
  - by apply consistent_cancel.
  - intros g. rewrite Hg. unfold cancel_race. destruct (resumes (bq (sem s)) f =? nullptr) eqn:E; [|done].
    bool_prop. cbn [resumes]. at_fred g f; [|done]. split; intros [? ?]; congruence.
  - rewrite waiting_cancel by done. intros Hne. apply Hw. by intros E; rewrite E in Hne.
Qed.

Lemma sem_cleanup_ok s f :
  inv s -> pcs s f = SCancelled ->
  inv (mkState (mkSem (counter (sem s)) (block_cleanup f (bq (sem s)))) (upd (pcs s) f SIdle) (given s)
         (taken s) (posted s) (aborted s)).
Proof.
  intros [Hbq Hg Hnd Hc Hbin Hw Htk Hex Hab] Hf.
  assert (Hv : (stand_of ∘ pcs s) f = Cancelled) by (unfold compose; by rewrite Hf).
  split; cbn [sem pcs given taken posted aborted bq counter]; tokens.
  - rewrite compose_upd. by apply consistent_cleanup.
  - intros g. rewrite Hg. cbn [resumes block_cleanup]. at_fred g f; [|done].
    rewrite Hf. split; by intros [? _].
  - by rewrite (waiting_cleanup self _ _ _ Hv Hbq).
Qed.

Lemma wait_spec f a now s r :
  wait f a now s = Some r -> Binary = true /\ r = internalP f a now (mkSem 0 (bq s)).
Proof.
  unfold wait, rassert. destruct Binary; [|done]. simpl.
  destruct (0 <=? counter s); [|done]. simpl. by intros [= <-].
Qed.

Lemma wait_aborts f a now s : inv s -> wait f a now (sem s) = None -> Binary = false.
Proof.
  intros Hi. unfold wait, rassert. destruct Binary; [|done]. simpl.
  destruct (0 <=? counter (sem s)) eqn:E; [done|]. bool_prop. destruct Hi. lia.
Qed.

Lemma sem_step_inv l s s' : inv s -> step l s = Some s' -> inv s'.
Proof.
  intros Hi Hs. pose proof Hi as Hi'. destruct Hi' as [Hbq Hg Hnd Hc _ _ _ _ _].
  pose proof (unblock_ok self self_not_null _ _ Hbq) as Hu.
  destruct s as [sm pc gv tk po ab]. cbn [sem pcs given taken posted aborted] in *.
  destruct l as [f a now|f a now| | |f p|f|f]; cbn [step] in Hs.
  - destruct (pc f) eqn:Hf; simplify_eq.
    destruct sm as [c q]. by apply (internalP_ok f a now c (mkState (mkSem c q) pc gv tk po ab)).
  - destruct (pc f) eqn:Hf; simplify_eq. destruct (wait f a now sm) as [r|] eqn:Ew; simplify_eq.
    + apply wait_spec in Ew as [HB ->].
      apply (internalP_ok f a now 0 (mkState sm pc gv tk po ab)); simpl; try done; try lia. congruence.
    + apply (wait_aborts _ _ _ _ Hi) in Ew. destruct Hi. by split.
  - unfold V in Hs. destruct (unblock self (bq sm)) as [[f|] q] eqn:E; simplify_eq/=.
    + by apply (grant_ok (mkState sm pc gv tk po ab)).
    + destruct Hu as [-> Hu]. by apply (post_ok (mkState sm pc gv tk po ab)).
  - unfold tryV in Hs. destruct (unblock self (bq sm)) as [[f|] q] eqn:E; simplify_eq/=.
    + by apply (grant_ok (mkState sm pc gv tk po ab)).
    + destruct Hu as [-> Hu]. by destruct sm.
  - destruct ((p =? nullptr) || (p =? self)) eqn:E; simplify_eq. bool_prop.
    by apply (sem_cancel_ok (mkState sm pc gv tk po ab)).
  - destruct (pc f) eqn:Hf; simplify_eq. destruct (resumes (bq sm) f =? nullptr) eqn:E; simplify_eq.
    bool_prop. by apply (sem_wake_ok (mkState sm pc gv tk po ab)).
  - destruct (pc f) eqn:Hf; simplify_eq. by apply (sem_cleanup_ok (mkState sm pc gv tk po ab)).
Qed.

Lemma step_matched l s s' : inv s -> step l s = Some s' -> matched l s s'.
Proof.
  intros Hi Hs. pose proof Hi as Hi'. destruct Hi' as [Hbq Hg Hnd Hc _ _ _ _ _].
  pose proof (unblock_ok self self_not_null _ _ Hbq) as Hu.
  destruct s as [sm pc gv tk po ab]. unfold matched, abs. cbn [sem pcs given taken posted aborted] in *.
  destruct l as [f a now|f a now| | |f p|f|f]; cbn [step] in Hs; cbn [abs_label sem].
  - destruct (pc f) eqn:Hf; simplify_eq.
    assert (Hv : (stand_of ∘ pc) f = Away) by (unfold compose; by rewrite Hf).
    unfold internalP. destruct (counter sm <? 1) eqn:E; [destruct (block_suspends a now)|]; cbn.
    + rewrite E. do 2 f_equal. symmetry. exact (waiting_enter self _ _ _ Hv Hbq).
    + done.
    + assert (Hle : (1 <=? counter sm) = true) by (bool_prop; lia). by rewrite Hle.
  - destruct (pc f) eqn:Hf; simplify_eq.
    assert (Hv : (stand_of ∘ pc) f = Away) by (unfold compose; by rewrite Hf).
    destruct (wait f a now sm) as [r|] eqn:Ew; simplify_eq; [|done].
    apply wait_spec in Ew as [HB ->]. unfold internalP. cbn. destruct (block_suspends a now); cbn; [|done].
    do 2 f_equal. symmetry. exact (waiting_enter self _ _ _ Hv Hbq).
  - unfold V in Hs. destruct (unblock self (bq sm)) as [[f|] q] eqn:E; simplify_eq/=.
    + destruct Hu as (_ & _ & _ & -> & _). cbn. by rewrite decide_True.
    + destruct Hu as [-> Hu]. by rewrite Hu.
  - unfold tryV in Hs. destruct (unblock self (bq sm)) as [[f|] q] eqn:E; simplify_eq/=.
    + destruct Hu as (_ & _ & _ & -> & _). cbn. by rewrite decide_True.
    + destruct Hu as [-> Hu]. by rewrite Hu.
  - destruct ((p =? nullptr) || (p =? self)) eqn:E; simplify_eq. bool_prop. cbn.
    by rewrite waiting_cancel.
  - destruct (pc f) eqn:Hf; simplify_eq. destruct (resumes (bq sm) f =? nullptr) eqn:E; simplify_eq.
    by destruct (P_result _).
  - destruct (pc f) eqn:Hf; simplify_eq.
    assert (Hv : (stand_of ∘ pc) f = Cancelled) by (unfold compose; by rewrite Hf).
    f_equal. exact (waiting_cleanup self _ _ _ Hv Hbq).
Qed.

Lemma sem_reachable_inv s : reachable init step s -> inv s.
Proof. apply invariant_rule; [intros ? ?; by apply init_ok|]. intros ? ? ?. apply sem_step_inv. Qed.


(** No token is lost or made up: for a counting semaphore the value, the
    completed [P]s and the grants on their way add up to the initial value and
    the [V]s (a binary one never has more); nobody waits while the value is
    positive; a binary semaphore's value is at most 1; exactly the freds that
    were granted a token return success from a suspension; the assertions of
    [wait] hold on a binary semaphore. *)
Theorem semaphore_tokens s :
  reachable init step s ->
  let total := counter (sem s) + taken s + Z.of_nat (length (given s)) in
  0 <= counter (sem s) /\ total <= c0 + posted s /\ (Binary = false -> total = c0 + posted s) /\
  (Binary = true -> counter (sem s) <= Z.max 1 c0 /\ aborted s = false) /\
  (0 < counter (sem s) -> forall f, f ∉ waiting (bq (sem s))) /\
  (forall f, pcs s f = SBlocked ->
     (P_result (resumes (bq (sem s)) f) = SemaphoreSuccess <-> f ∈ given s)).
Proof.
  intros [Hbq Hg Hnd Hc Hbin Hw Htk Hex Hab]%sem_reachable_inv. cbn zeta. split_and!; try done.
  - intros HB. split; [by apply Hbin|]. destruct (aborted s); [|done]. specialize (Hab eq_refl). congruence.
  - intros Hpos f Hin. rewrite Hw in Hpos; [lia|]. intros E. rewrite E in Hin. by apply elem_of_nil in Hin.
  - intros f Hf. rewrite Hg. unfold P_result, block_won.
    destruct (resumes (bq (sem s)) f =? self) eqn:E; bool_prop; [done|]. split; [done|]. by intros [_ ?].
Qed.
End LockedSemaphore.

(** ** Concrete runs: two freds wait, the first gives up, [V] serves the other. *)
Definition sem_run : list label :=
  [DoP 1 (Wait true) zero; DoP 2 (Wait true) zero; Cancel 1 55; DoV; Wake 2; Wake 1; Cleanup 1; DoV;
   DoP 3 (Wait false) zero; DoP 3 (Wait false) zero].
Definition sem_start : state := mkState (mkSem 0 (mkBQ [] (fun _ => 1))) (fun _ => SIdle) [] 0 0 false.

Lemma sem_run_reachable Binary ls s :
  run (step 9 Binary) ls sem_start = Some s -> reachable (init 0) (step 9 Binary) s.
Proof. apply run_reachable, reach_init. by exists (fun _ => 1). Qed.


Lemma semaphore_tokens_witness :
  exists s, run (step 9 false) sem_run sem_start = Some s /\
    counter (sem s) = 0 /\ taken s = 2 /\ posted s = 2 /\
    counter (sem s) + taken s + Z.of_nat (length (given s)) = 0 + posted s.
Proof.
  eexists. split; [reflexivity|]. do 3 (split; [reflexivity|]).
  apply (semaphore_tokens 9 false 0); [discriminate|lia| |reflexivity].
  apply (sem_run_reachable false sem_run). reflexivity.
Defined.
