(* ===== verification/Mutexes.v ===== *)
(** [LockedMutex] (both variants of its [Fifo] argument) and the recursive
    wrapper [OwnerMutex] of src/src/runtime/BlockingSync.h.  The parts of
    [internalAcquire] and [release] that run under the inner lock are one
    definition each; the system interleaves any number of freds with timeouts. *)

From S2P Require Import Prelude Words Times Freds BlockingQueues.
Local Open Scope Z_scope.

Record LockedMutex := mkMutex { owner : option fid; bq : BlockingQueue }.

Section LockedMutex.
Context (self : ptr) (Fifo : bool).     (* &bq, and the template argument *)

(** [internalAcquire<OwnerLock>]: the tests before the loop.  [Some true]:
    already owned; [None]: the assertion fails; [Some false]: go on. *)
Definition acquire_entry (OwnerLock : bool) (cf : fid) (m : LockedMutex) : option bool :=
  if OwnerLock && bool_decide (owner m = Some cf) then Some true
  else rassert (bool_decide (owner m <> Some cf));; Some false.

(** One pass through the loop, under the lock: acquired, timed out at once, or
    suspended in the queue. *)
Definition acquire_attempt (cf : fid) (a : wait_arg) (now : Time) (m : LockedMutex)
    : attempt * LockedMutex :=
  match owner m with
  | None => (Acquired, mkMutex (Some cf) (bq m))
  | Some _ => if block_suspends a now then (Suspended, mkMutex (owner m) (block_enter cf (bq m)))
              else (NotNow, m)
  end.

(** [release]: the fred to resume, if any; [None] when the assertion fails. *)
Definition release (cf : fid) (m : LockedMutex) : option (option fid * LockedMutex) :=
  rassert (bool_decide (owner m = Some cf));;
  let '(next, q) := unblock self (bq m) in
  Some (next, mkMutex (if Fifo then next else None) q).

Definition reset (m : LockedMutex) : option LockedMutex :=
  rassert (bool_decide (owner m = None));; rassert (empty (bq m));; Some m.

(** * [OwnerMutex] *)
Record OwnerMutex := mkOwner { base : LockedMutex; counter : Z; recursion : bool }.

(** [return ++counter] of [acquire] after success ([counter] is a [size_t]). *)
Definition count_up (m : OwnerMutex) : Z * OwnerMutex :=
  let c := wrap W (counter m + 1) in (c, mkOwner (base m) c (recursion m)).

(** [release()]: the count that remains and the fred to resume. *)
Definition owner_release (cf : fid) (m : OwnerMutex) : option (Z * option fid * OwnerMutex) :=
  let c := wrap W (counter m - 1) in
  if 0 <? c then Some (c, None, mkOwner (base m) c (recursion m))
  else '(next, b) ← release cf (base m); Some (0, next, mkOwner b c (recursion m)).

(** * The mutex in use *)
Inductive mpc :=
| MIdle
| MTry (a : wait_arg)        (* at the top of the loop *)
| MBlocked (a : wait_arg)
| MCancelled
| MGot                       (* internalAcquire returned true *)
| MCrit (depth : Z).         (* in the critical section, so deep *)

Record state := mkState { mutex : OwnerMutex; pcs : fid -> mpc; aborted : bool }.

Inductive label :=
| Acquire (f : fid) (a : wait_arg) | Attempt (f : fid) (now : Time) | Wake (f : fid) | Cleanup (f : fid)
| Count (f : fid) | Release (f : fid) | Cancel (f : fid) (p : ptr).

Definition with_base (m : OwnerMutex) (b : LockedMutex) : OwnerMutex := mkOwner b (counter m) (recursion m).
Definition with_bq (m : OwnerMutex) (q : BlockingQueue) : OwnerMutex :=
  with_base m (mkMutex (owner (base m)) q).

Definition step (l : label) (s : state) : option state :=
  let 'mkState m pc ab := s in
  let q := bq (base m) in
  match l with
  | Acquire f a =>
      match pc f with
      | MIdle | MCrit _ =>
          match acquire_entry (recursion m) f (base m) with
          | None => Some (mkState m pc true)
          | Some true => Some (mkState m (upd pc f MGot) ab)
          | Some false => Some (mkState m (upd pc f (MTry a)) ab)
          end
      | _ => None
      end
  | Attempt f now =>
      match pc f with
      | MTry a =>
          let '(r, b) := acquire_attempt f a now (base m) in
          let c := match r with Acquired => MGot | NotNow => MIdle | Suspended => MBlocked a end in
          Some (mkState (with_base m b) (upd pc f c) ab)
      | _ => None
      end
  | Wake f =>
      match pc f with
      | MBlocked a =>
          if resumes q f =? nullptr then None else
          let c := if block_won self (resumes q f) then (if Fifo then MGot else MTry a) else MCancelled in
          Some (mkState m (upd pc f c) ab)
      | _ => None
      end
  | Cleanup f =>
      match pc f with
      | MCancelled => Some (mkState (with_bq m (block_cleanup f q)) (upd pc f MIdle) ab)
      | _ => None
      end
  | Count f =>
      match pc f with
      | MGot => if counter m <? 2 ^ 64 - 1       (* nesting deeper than this is not considered *)
                then let '(n, m') := count_up m in Some (mkState m' (upd pc f (MCrit n)) ab)
                else None
      | _ => None
      end
  | Release f =>
      match pc f with
      | MCrit _ =>
          match owner_release f m with
          | None => Some (mkState m pc true)
          | Some (n, next, m') => Some (mkState m' (upd pc f (if 0 <? n then MCrit n else MIdle)) ab)
          end
      | _ => None
      end
  | Cancel f p =>
      if (p =? nullptr) || (p =? self) then None
      else Some (mkState (with_bq m (cancel_race f p q)) pc ab)
  end.

Context (rec : bool).

Definition init (s : state) : Prop :=
  exists r, s = mkState (mkOwner (mkMutex None (mkBQ [] r)) 0 rec) (fun _ => MIdle) false.

Definition stand_of (c : mpc) : stand :=
  match c with MBlocked _ => Blocked | MCancelled => Cancelled | _ => Away end.

(** The fred holds the mutex: it has acquired it, or it is being handed over to
    it ([Fifo]). *)
Definition holds (s : state) (f : fid) : Prop :=
  match pcs s f with
  | MGot | MCrit _ => True
  | MBlocked _ => Fifo = true /\ resumes (bq (base (mutex s))) f = self
  | _ => False
  end.

(** A fred that is going to find the mutex free. *)
Definition coming (s : state) (f : fid) : Prop :=
  match pcs s f with
  | MTry _ => True
  | MBlocked _ => resumes (bq (base (mutex s))) f = self
  | _ => False
  end.

Record inv (s : state) : Prop := mkInv {
  inv_bq : consistent self (stand_of ∘ pcs s) (bq (base (mutex s)));
  inv_owner f : owner (base (mutex s)) = Some f <-> holds s f;
  inv_depth f d : pcs s f = MCrit d -> counter (mutex s) = d /\ 0 < d;
  inv_zero : owner (base (mutex s)) = None -> counter (mutex s) = 0;
  inv_handed f a : owner (base (mutex s)) = Some f -> pcs s f = MBlocked a -> counter (mutex s) = 0;
  inv_count : 0 <= counter (mutex s) < 2 ^ 64;
  inv_coming : owner (base (mutex s)) = None -> waiting (bq (base (mutex s))) <> [] ->
    Fifo = false /\ exists f, coming s f;
  inv_rec : recursion (mutex s) = rec;
  inv_aborted : rec = true -> aborted s = false
}.

Hypothesis self_not_null : self <> nullptr.

Lemma mutex_init_inv s : init s -> inv s.
Proof.
  intros (r & ->). split; simpl; try done.
  by apply consistent_init.
Qed.

(** The effect of a move of [f] on the queue's view of the freds. *)
Lemma moved_bq s f c q :
  consistent self (upd (stand_of ∘ pcs s) f (stand_of c)) q -> consistent self (stand_of ∘ upd (pcs s) f c) q.
Proof. by rewrite compose_upd. Qed.

Lemma moved_same s f c : 
  stand_of c = stand_of (pcs s f) ->
  consistent self (stand_of ∘ pcs s) (bq (base (mutex s))) ->
  consistent self (stand_of ∘ upd (pcs s) f c) (bq (base (mutex s))).
Proof.
  intros Hc. rewrite compose_upd, Hc. intros H. eapply consistent_proper; [|reflexivity|exact H].
  intros g. by at_fred g f.
Qed.

Ltac fields := cbn [mutex pcs aborted base counter recursion owner bq with_base with_bq resumes nodes] in *.

(** Facts about one fred after [f] moved. *)
Ltac one_fred f :=
  let g := fresh "g" in
  intros g; unfold holds, coming in *; fields; intros; at_fred g f; simplify_eq; try done; try lia.

Lemma mutex_try_ok m pc ab f a now :
  inv (mkState m pc ab) -> pc f = MTry a ->
  let '(r, b) := acquire_attempt f a now (base m) in
  inv (mkState (with_base m b)
    (upd pc f (match r with Acquired => MGot | NotNow => MIdle | Suspended => MBlocked a end)) ab).
Proof.
  intros [Hbq Ho Hd Hz Hh Hc Hco Hr Ha] Hf. unfold acquire_attempt.
  assert (Hv : (stand_of ∘ pc) f = Away) by (unfold compose; by rewrite Hf).
  pose proof (Ho f) as Hof. unfold holds in Hof. fields. rewrite Hf in Hof.
  destruct (owner (base m)) as [o|] eqn:Eo; [destruct (block_suspends a now)|].
  - split; fields; try done.
    + apply (moved_bq (mkState m pc ab)). by apply consistent_enter.
    + intros g. rewrite Ho. unfold holds, block_enter. fields. at_fred g f; [|done]. rewrite Hf.
      split; [done|]. intros [_ ?]. congruence.
    + one_fred f; by eapply Hd.
    + one_fred f; [by exfalso; apply Hof|by eapply Hh].
  - split; fields; rewrite ?Eo; try done.
    + apply (moved_same (mkState m pc ab)); [simpl; by rewrite Hf|done].
    + intros g. rewrite Ho. unfold holds. fields. at_fred g f; [|done]. by rewrite Hf.
    + one_fred f; by eapply Hd.
    + one_fred f; by eapply Hh.
  - split; fields; try done.
    + apply (moved_same (mkState m pc ab)); [simpl; by rewrite Hf|done].
    + intros g. unfold holds. fields. at_fred g f; [done|]. split; [congruence|].
      intros Hg. apply (Ho g) in Hg. done.
    + one_fred f; by eapply Hd.
    + intros g a' [= <-]. rewrite upd_eq. done.
Qed.

Lemma holds_owner m pc ab f : inv (mkState m pc ab) ->
  match pc f with MGot | MCrit _ => owner (base m) = Some f | MTry _ | MIdle | MCancelled => owner (base m) <> Some f | _ => True end.
Proof.
  intros Hi. pose proof (inv_owner _ Hi f) as Ho. unfold holds in Ho. fields.
  destruct (pc f); try done; first [by apply Ho|intros ?; by apply Ho].
Qed.

Lemma entry_ok m pc ab f a :
  inv (mkState m pc ab) -> (match pc f with MIdle | MCrit _ => True | _ => False end) ->
  match acquire_entry (recursion m) f (base m) with
  | None => recursion m = false
  | Some b => inv (mkState m (upd pc f (if b then MGot else MTry a)) ab)
  end.
Proof.
  intros Hi Hf. pose proof (holds_owner m pc ab f Hi) as How.
  destruct Hi as [Hbq Ho Hd Hz Hh Hc Hco Hr Ha]. unfold acquire_entry, rassert. fields.
  destruct (decide (owner (base m) = Some f)) as [Eo|Eo].
  - assert (Hcrit : exists d, pc f = MCrit d) by (destruct (pc f); try done; by eexists).
    destruct Hcrit as [d Hd']. rewrite !bool_decide_eq_true_2 by done.
    rewrite bool_decide_eq_false_2 by (intros H; by apply H).
    destruct (recursion m) eqn:Er; simpl; [|done]. split; fields; try done; try congruence.
    + apply (moved_same (mkState m pc ab)); [simpl; by rewrite Hd'|done].
    + intros g. unfold holds. fields. at_fred g f; [done|]. apply (Ho g).
    + one_fred f; by eapply Hd.
    + one_fred f; by eapply Hh.
  - rewrite (bool_decide_eq_false_2 _ Eo), (bool_decide_eq_true_2 _ Eo), andb_false_r. simpl.
    assert (Hidle : pc f = MIdle) by (destruct (pc f); done).
    split; fields; try done.
    + apply (moved_same (mkState m pc ab)); [simpl; by rewrite Hidle|done].
    + intros g. unfold holds. fields. at_fred g f; [done|]. apply (Ho g).
    + one_fred f; by eapply Hd.
    + one_fred f; by eapply Hh.
    + intros H1 H2. destruct (Hco H1 H2) as [Hfi [g Hg]]. split; [done|]. exists g. unfold coming in *. fields.
      by at_fred g f.
Qed.

Lemma mutex_wake_ok m pc ab f a :
  inv (mkState m pc ab) -> pc f = MBlocked a -> resumes (bq (base m)) f <> nullptr ->
  inv (mkState m (upd pc f
    (if block_won self (resumes (bq (base m)) f) then (if Fifo then MGot else MTry a) else MCancelled)) ab).
Proof.
  intros [Hbq Ho Hd Hz Hh Hc Hco Hr Ha] Hf Hres.
  assert (Hv : (stand_of ∘ pc) f = Blocked) by (unfold compose; by rewrite Hf).
  pose proof (consistent_wake self self_not_null _ _ _ Hv Hres Hbq) as Hcw.
  pose proof (Ho f) as Hof. unfold holds, block_won in *. fields. rewrite Hf in Hof.
  split; fields; try done.
  - apply (moved_bq (mkState m pc ab)). by destruct (_ =? self), Fifo.
  - intros g. rewrite Ho. unfold holds. fields. at_fred g f; [|done]. rewrite Hf.
    destruct (resumes (bq (base m)) f =? self) eqn:E; bool_prop; destruct Fifo; naive_solver.
  - one_fred f; [|by eapply Hd]. by destruct (_ =? self), Fifo.
  - one_fred f; [|by eapply Hh]. by destruct (_ =? self), Fifo.
  - intros H1 H2. destruct (Hco H1 H2) as [Hfi [g Hg]]. split; [done|]. exists g. unfold coming in *. fields. at_fred g f; [|done].
    rewrite Hf in Hg. apply Z.eqb_eq in Hg as Hg'. rewrite Hg'. destruct Fifo; [|done]. naive_solver.
Qed.

Lemma mutex_cleanup_ok m pc ab f :
  inv (mkState m pc ab) -> pc f = MCancelled ->
  inv (mkState (with_bq m (block_cleanup f (bq (base m)))) (upd pc f MIdle) ab).
Proof.
  intros [Hbq Ho Hd Hz Hh Hc Hco Hr Ha] Hf.
  assert (Hv : (stand_of ∘ pc) f = Cancelled) by (unfold compose; by rewrite Hf). fields.
  split; fields; try done.
  - apply (moved_bq (mkState m pc ab)). by apply consistent_cleanup.
  - intros g. rewrite Ho. unfold holds. fields. cbn. at_fred g f; [|done]. by rewrite Hf.
  - one_fred f; by eapply Hd.
  - one_fred f; by eapply Hh.
  - rewrite (waiting_cleanup self _ _ _ Hv Hbq). intros H1 H2. destruct (Hco H1 H2) as [Hfi [g Hg]].
    split; [done|]. exists g. unfold coming in *. fields. cbn. at_fred g f; [|done]. by rewrite Hf in Hg.
Qed.

Lemma mutex_cancel_ok m pc ab f p :
  inv (mkState m pc ab) -> p <> nullptr -> p <> self ->
  inv (mkState (with_bq m (cancel_race f p (bq (base m)))) pc ab).
Proof.
  intros [Hbq Ho Hd Hz Hh Hc Hco Hr Ha] Hp Hps. fields.
  assert (Hsame : forall g, resumes (cancel_race f p (bq (base m))) g = self <-> resumes (bq (base m)) g = self).
  { intros g. unfold cancel_race. destruct (resumes (bq (base m)) f =? nullptr) eqn:E; [|done].
    bool_prop. cbn. at_fred g f; [|done]. split; congruence. }
  split; fields; try done.
  - by apply consistent_cancel.
  - intros g. rewrite Ho. unfold holds. fields. destruct (pc g); try done. by rewrite Hsame.
  - rewrite waiting_cancel by done. intros H1 H2. destruct (Hco H1) as [Hfi [g Hg]].
    { intros E. by rewrite E in H2. }
    split; [done|]. exists g. unfold coming in *. fields. destruct (pc g); try done. by rewrite Hsame.
Qed.

Lemma count_ok m pc ab f :
  inv (mkState m pc ab) -> pc f = MGot -> counter m < 2 ^ 64 - 1 ->
  inv (mkState (count_up m).2 (upd pc f (MCrit (count_up m).1)) ab).
Proof.
  intros Hi Hf Hlt. pose proof (holds_owner m pc ab f Hi) as How. rewrite Hf in How.
  destruct Hi as [Hbq Ho Hd Hz Hh Hc Hco Hr Ha]. unfold count_up. fields.
  assert (Hw : wrap W (counter m + 1) = counter m + 1) by (unfold wrap; apply Z.mod_small; lia).
  rewrite Hw. cbn [fst snd].
  assert (Honly : forall g, holds (mkState m pc ab) g -> g = f) by (intros g Hg; apply Ho in Hg; fields; congruence).
  unfold holds in Honly. fields.
  split; fields; try done; try congruence; try lia.
  - apply (moved_same (mkState m pc ab)); [simpl; by rewrite Hf|done].
  - intros g. rewrite Ho. unfold holds. fields. at_fred g f; [|done]. by rewrite Hf.
  - one_fred f. specialize (Honly g). rewrite H in Honly. naive_solver.
  - one_fred f; apply Ho in H; unfold holds in H; fields; exfalso; naive_solver.
Qed.

(** The outermost [release]. *)
Lemma base_release_ok m pc ab f :
  inv (mkState m pc ab) -> owner (base m) = Some f -> counter m = 1 -> (exists d, pc f = MCrit d) ->
  let '(next, q) := unblock self (bq (base m)) in
  inv (mkState (mkOwner (mkMutex (if Fifo then next else None) q) 0 (recursion m)) (upd pc f MIdle) ab).
Proof.
  intros [Hbq Ho Hd Hz Hh Hc Hco Hr Ha] Hof Hcnt [d Hf].
  pose proof (unblock_ok self self_not_null _ _ Hbq) as Hu.
  assert (Hnot : forall g, g <> f -> ~ holds (mkState m pc ab) g) by (intros g Hg Hg'; apply Ho in Hg'; fields; congruence).
  unfold holds in Hnot. fields.
  destruct (unblock self (bq (base m))) as [[g|] q] eqn:E.
  - destruct Hu as (Hv & Hres & Hres' & Hw & Hcon).
    assert (Hg : exists a, pc g = MBlocked a) by (unfold compose in Hv; destruct (pc g); try done; by eexists).
    destruct Hg as [a Hg]. assert (Hne : g <> f) by (intros ->; congruence).
    assert (Hcon' : consistent self (stand_of ∘ upd pc f MIdle) q).
    { rewrite compose_upd. eapply consistent_proper; [|reflexivity|exact Hcon].
      intros x. at_fred x f; [|done]. unfold compose. by rewrite Hf. }
    split; fields; try done.
    + intros x. unfold holds. fields. rewrite Hres'. at_fred x f.
      { destruct Fifo; split; try done; congruence. }
      specialize (Hnot x). at_fred x g; [rewrite Hg; destruct Fifo; naive_solver|].
      destruct Fifo, (pc x); naive_solver.
    + one_fred f. exfalso. apply (Hnot g0); [done|]. by rewrite H.
    + intros Hn _. destruct Fifo; [done|]. split; [done|]. exists g. unfold coming. fields. rewrite Hres', upd_ne by done. by rewrite Hg, upd_eq.
  - destruct Hu as [-> Hw].
    split; fields; try done.
    + apply (moved_same (mkState m pc ab)); [simpl; by rewrite Hf|done].
    + intros x. unfold holds. fields. replace (if Fifo then None else None) with (@None fid) by (by destruct Fifo).
      at_fred x f; [done|]. split; [done|]. intros Hx. by destruct (Hnot x).
    + one_fred f. exfalso. apply (Hnot g); [done|]. by rewrite H.
Qed.

Lemma mutex_release_ok m pc ab f d :
  inv (mkState m pc ab) -> pc f = MCrit d ->
  exists n next m', owner_release f m = Some (n, next, m') /\
    inv (mkState m' (upd pc f (if 0 <? n then MCrit n else MIdle)) ab).
Proof.
  intros Hi Hf. pose proof (holds_owner m pc ab f Hi) as How. rewrite Hf in How.
  pose proof (inv_depth _ Hi f d Hf) as [Hcd Hpos]. pose proof (inv_count _ Hi) as Hb. fields.
  assert (Hw : wrap W (counter m - 1) = counter m - 1) by (unfold wrap; apply Z.mod_small; lia).
  unfold owner_release. rewrite Hw. destruct (0 <? counter m - 1) eqn:E; bool_prop.
  - do 3 eexists. split; [done|]. assert (E' : (0 <? counter m - 1) = true) by (apply Z.ltb_lt; lia). rewrite E'.
    assert (Hnot : forall g, g <> f -> ~ holds (mkState m pc ab) g)
      by (intros g Hg Hg'; apply (inv_owner _ Hi) in Hg'; fields; congruence).
    unfold holds in Hnot. fields.
    destruct Hi as [Hbq Ho _ Hz Hh Hc Hco Hr Ha]. fields.
    split; fields; try done; try lia; try congruence.
    + apply (moved_same (mkState m pc ab)); [simpl; by rewrite Hf|done].
    + intros g. rewrite Ho. unfold holds. fields. at_fred g f; [|done]. by rewrite Hf.
    + one_fred f. exfalso. apply (Hnot g); [done|]. by rewrite H.
    + one_fred f; congruence.
  - unfold release, rassert. rewrite bool_decide_eq_true_2 by done. cbn [mbind option_bind].
    pose proof (base_release_ok m pc ab f Hi How ltac:(lia) ltac:(by eexists)) as Hok.
    destruct (unblock self (bq (base m))) as [next q]. do 3 eexists. split; [done|].
    replace (counter m - 1) with 0 in * by lia. exact Hok.
Qed.

Lemma mutex_step_inv l s s' : inv s -> step l s = Some s' -> inv s'.
Proof.
  destruct s as [m pc ab]. intros Hi Hs. destruct l as [f a|f now|f|f|f|f|f p]; cbn [step] in Hs.
  - pose proof (entry_ok m pc ab f a Hi) as He.
    assert (Hent : match acquire_entry (recursion m) f (base m) with
                   | None => Some (mkState m pc true)
                   | Some true => Some (mkState m (upd pc f MGot) ab)
                   | Some false => Some (mkState m (upd pc f (MTry a)) ab) end = Some s' ->
                   (match pc f with MIdle | MCrit _ => True | _ => False end) -> inv s').
    { intros Hs' Hf. specialize (He Hf).
      destruct (acquire_entry _ _ _) as [[]|]; simplify_eq; try exact He.
      destruct Hi. split; try done. fields. intros ->. congruence. }
    destruct (pc f) eqn:Hf; try done; by apply Hent.
  - destruct (pc f) eqn:Hf; try done. pose proof (mutex_try_ok m pc ab f a now Hi Hf) as Ht.
    destruct (acquire_attempt f a now (base m)) as [r b]. by simplify_eq.
  - destruct (pc f) eqn:Hf; try done. destruct (_ =? nullptr) eqn:E; simplify_eq. bool_prop.
    by apply mutex_wake_ok.
  - destruct (pc f) eqn:Hf; simplify_eq. by apply mutex_cleanup_ok.
  - destruct (pc f) eqn:Hf; try done. destruct (_ <? _) eqn:E; [|done]. bool_prop.
    pose proof (count_ok m pc ab f Hi Hf E) as Hok. destruct (count_up m). by simplify_eq.
  - destruct (pc f) eqn:Hf; try done.
    destruct (mutex_release_ok m pc ab f depth Hi Hf) as (n & next & m' & Hrel & Hok). rewrite Hrel in Hs. by simplify_eq.
  - destruct ((p =? nullptr) || (p =? self)) eqn:E; simplify_eq. bool_prop. by apply mutex_cancel_ok.
Qed.

Lemma mutex_reachable_inv s : reachable init step s -> inv s.
Proof. apply invariant_rule; [apply mutex_init_inv|]. intros ? ? ?. apply mutex_step_inv. Qed.

(** Mutual exclusion and exact nesting: at most one fred has the mutex,
    the [owner] field names it, and the count is its nesting depth; with
    recursion enabled no assertion ever fails. *)
Theorem mutex_exclusive s :
  reachable init step s ->
  (forall f g, holds s f -> holds s g -> f = g) /\
  (forall f d, pcs s f = MCrit d -> owner (base (mutex s)) = Some f /\ counter (mutex s) = d /\ 0 < d) /\
  (forall f, owner (base (mutex s)) = Some f -> holds s f) /\
  (rec = true -> aborted s = false).
Proof.
  intros Hi%mutex_reachable_inv. destruct Hi as [Hbq Ho Hd Hz Hh Hc Hco Hr Ha]. split_and!; try done.
  - intros f g Hf%Ho Hg%Ho. congruence.
  - intros f d Hf. split; [|by eapply Hd]. apply Ho. unfold holds. by rewrite Hf.
  - intros f. apply Ho.
Qed.

(** C5. No wake-up is lost: whenever the mutex is free and some fred waits for
    it, another fred is on its way to take it, and in the [Fifo] variant the
    mutex is then never free; [release] resumes the fred that has waited longest,
    and the [Fifo] variant hands the mutex to it. *)
Theorem mutex_no_lost_wakeup s :
  reachable init step s -> waiting (bq (base (mutex s))) <> [] ->
  (owner (base (mutex s)) = None ->
     Fifo = false /\ exists f, coming s f /\ f ∉ waiting (bq (base (mutex s)))) /\
  (forall f r m', release f (base (mutex s)) = Some (r, m') ->
     r = head (waiting (bq (base (mutex s)))) /\ (Fifo = true -> owner m' = r)).
Proof.
  intros Hi%mutex_reachable_inv Hw. destruct Hi as [Hbq Ho Hd Hz Hh Hc Hco Hr Ha]. split.
  - intros Hn. destruct (Hco Hn Hw) as [Hfi [f Hf]]. split; [done|]. exists f. split; [done|].
    rewrite (waiting_blocked self self_not_null _ _ f Hbq). unfold coming, compose in *. intros [H1 H2].
    destruct (pcs s f); try done. congruence.
  - intros f r m'. unfold release, rassert. destruct (bool_decide _); [|done]. cbn [mbind option_bind].
    pose proof (unblock_ok self self_not_null _ _ Hbq) as Hu.
    destruct (unblock self (bq (base (mutex s)))) as [[g|] q].
    + destruct Hu as (_ & _ & _ & -> & _). intros [= <- <-]. split; [done|]. by intros ->.
    + by destruct Hu.
Qed.
End LockedMutex.

(** ** Concrete runs: freds 1 and 2 contend for the mutex, which 1 has taken
    twice; 3 tries and fails; 1 leaves and 2 gets it. *)
Definition mutex_start (rec : bool) : state :=
  mkState (mkOwner (mkMutex None (mkBQ [] (fun _ => 1))) 0 rec) (fun _ => MIdle) false.
Definition mutex_run : list label :=
  [Acquire 1 (Wait true); Attempt 1 zero; Count 1; Acquire 2 (Wait true); Attempt 2 zero;
   Acquire 1 (Wait true); Count 1; Acquire 3 (Wait false); Attempt 3 zero; Release 1; Release 1; Wake 2].

Lemma mutex_start_init rec : init rec (mutex_start rec).
Proof. by exists (fun _ => 1). Qed.

Example recursion_off_aborts :
  aborted <$> run (step 9 true) (take 6 mutex_run) (mutex_start false) = Some true.
Proof. reflexivity. Qed.

Definition mutex_after (Fifo : bool) (n : nat) : state := after (step 9 Fifo) (mutex_start true) (take n mutex_run).

Lemma mutex_exclusive_witness :
  let s := mutex_after true 9 in
  owner (base (mutex s)) = Some 1%nat /\ counter (mutex s) = 2 /\ (forall g, holds 9 true s g -> g = 1%nat).
Proof.
  assert (Hr : reachable (init true) (step 9 true) (mutex_after true 9))
    by (apply after_reachable; [apply mutex_start_init|vm_compute; by eexists]).
  destruct (mutex_exclusive 9 true true ltac:(discriminate) _ Hr) as (Hx & Hd & _).
  split; [reflexivity|]. split; [reflexivity|]. intros g Hg. apply Hx; [exact Hg|vm_compute; exact I].
Defined.

Lemma mutex_no_lost_wakeup_witness :
  let s := mutex_after false 10 in
  exists r m', release 9 false 1 (base (mutex s)) = Some (r, m') /\ r = Some 2%nat.
Proof.
  assert (Hr : reachable (init true) (step 9 false) (mutex_after false 10))
    by (apply after_reachable; [apply mutex_start_init|vm_compute; by eexists]).
  assert (Hw : waiting (bq (base (mutex (mutex_after false 10)))) = [2%nat]) by (vm_compute; reflexivity).
  destruct (mutex_no_lost_wakeup 9 false true ltac:(discriminate) _ Hr) as [_ Hrel];
    [rewrite Hw; discriminate|].
  cbv zeta. eexists. eexists. split; [reflexivity|].
  erewrite (proj1 (Hrel 1%nat _ _ eq_refl)). rewrite Hw. reflexivity.
Defined.
