(* ===== verification/RWLocks.v ===== *)
(** [LockedRWLock] of src/src/runtime/BlockingSync.h: the parts of
    [internalAR], [internalAW] and [release] that run under the inner lock, one
    definition each, and the system of freds that call them, with timeouts. *)

From S2P Require Import Prelude Words Times Freds BlockingQueues.
Local Open Scope Z_scope.

(** [state]: -1 writer, 0 open, > 0 readers.  The two queues share the freds'
    [resumeInfo] words. *)
Record LockedRWLock := mkRW {
  rwstate : Z; nodesR : list fid; nodesW : list fid; resumeInfos : fid -> ptr
}.

Definition bqR (l : LockedRWLock) : BlockingQueue := mkBQ (nodesR l) (resumeInfos l).
Definition bqW (l : LockedRWLock) : BlockingQueue := mkBQ (nodesW l) (resumeInfos l).
Definition with_R (l : LockedRWLock) (q : BlockingQueue) : LockedRWLock :=
  mkRW (rwstate l) (nodes q) (nodesW l) (resumes q).
Definition with_W (l : LockedRWLock) (q : BlockingQueue) : LockedRWLock :=
  mkRW (rwstate l) (nodesR l) (nodes q) (resumes q).
Definition add_state (d : Z) (l : LockedRWLock) : LockedRWLock :=
  mkRW (rwstate l + d) (nodesR l) (nodesW l) (resumeInfos l).

Section LockedRWLock.
Context (qr qw : ptr).                 (* &bqR, &bqW *)

(** [internalAR] up to the suspension. *)
Definition acquire_read (f : fid) (a : wait_arg) (now : Time) (l : LockedRWLock) : attempt * LockedRWLock :=
  if (0 <=? rwstate l) && empty (bqW l) then (Acquired, add_state 1 l)
  else if block_suspends a now then (Suspended, with_R l (block_enter f (bqR l)))
  else (NotNow, l).

Definition unblock_reader (l : LockedRWLock) : option fid * LockedRWLock :=
  let '(next, q) := unblock qr (bqR l) in (next, with_R l q).
Definition unblock_writer (l : LockedRWLock) : option fid * LockedRWLock :=
  let '(next, q) := unblock qw (bqW l) in (next, with_W l q).

(** The rest of [internalAR]: a resumed reader lets the next one in. *)
Definition barge (l : LockedRWLock) : option fid * LockedRWLock :=
  match unblock_reader l with
  | (Some next, l') => (Some next, add_state 1 l')
  | (None, l') => (None, l')
  end.

Definition acquire_write (f : fid) (a : wait_arg) (now : Time) (l : LockedRWLock) : attempt * LockedRWLock :=
  if rwstate l =? 0 then (Acquired, add_state (-1) l)
  else if block_suspends a now then (Suspended, with_W l (block_enter f (bqW l)))
  else (NotNow, l).

(** [release] by the last reader: a writer next; by a writer: readers next. *)
Definition writer_first (l : LockedRWLock) : option fid * LockedRWLock :=
  match unblock_writer l with
  | (Some next, l') => (Some next, add_state (-1) l')
  | (None, l') =>
      match unblock_reader l' with
      | (Some next, l'') => (Some next, add_state 1 l'')
      | (None, l'') => (None, l'')
      end
  end.

Definition reader_first (l : LockedRWLock) : option fid * LockedRWLock :=
  match unblock_reader l with
  | (Some next, l') => (Some next, add_state 1 l')
  | (None, l') =>
      match unblock_writer l' with
      | (Some next, l'') => (Some next, add_state (-1) l'')
      | (None, l'') => (None, l'')
      end
  end.

Definition release (l : LockedRWLock) : option (option fid * LockedRWLock) :=
  rassert (negb (rwstate l =? 0));;
  if 0 <? rwstate l then
    let l' := add_state (-1) l in
    if 0 <? rwstate l' then Some (None, l') else Some (writer_first l')
  else
    rassert (rwstate l =? -1);; Some (reader_first (add_state 1 l)).

Definition reset (l : LockedRWLock) : option LockedRWLock :=
  rassert (rwstate l =? 0);; rassert (empty (bqR l));; rassert (empty (bqW l));; Some l.

(** * The lock in use *)
Inductive rwpc :=
| RIdle
| RWaitR | RCancR            (* waiting as a reader; cancelled *)
| RWaitW | RCancW
| RBarge                     (* resumed as a reader, about to let others in *)
| RReading | RWriting.

Record state := mkState { lck : LockedRWLock; pcs : fid -> rwpc; aborted : bool }.

Inductive label :=
| AcqR (f : fid) (a : wait_arg) (now : Time) | AcqW (f : fid) (a : wait_arg) (now : Time)
| Wake (f : fid) | Cleanup (f : fid) | Barge (f : fid) | Release (f : fid)
| Cancel (f : fid) (p : ptr).

Definition after_attempt (f : fid) (r : attempt * LockedRWLock) (got blocked : rwpc) (s : state) : state :=
  mkState r.2 (upd (pcs s) f (match r.1 with Acquired => got | NotNow => RIdle | Suspended => blocked end))
    (aborted s).

Definition step (l : label) (s : state) : option state :=
  let 'mkState k pc ab := s in
  match l with
  | AcqR f a now =>
      match pc f with
      | RIdle => Some (after_attempt f (acquire_read f a now k) RReading RWaitR s) | _ => None end
  | AcqW f a now =>
      match pc f with
      | RIdle => Some (after_attempt f (acquire_write f a now k) RWriting RWaitW s) | _ => None end
  | Wake f =>
      if resumeInfos k f =? nullptr then None else
      match pc f with
      | RWaitR => Some (mkState k (upd pc f (if block_won qr (resumeInfos k f) then RBarge else RCancR)) ab)
      | RWaitW => Some (mkState k (upd pc f (if block_won qw (resumeInfos k f) then RWriting else RCancW)) ab)
      | _ => None
      end
  | Cleanup f =>
      match pc f with
      | RCancR => Some (mkState (with_R k (block_cleanup f (bqR k))) (upd pc f RIdle) ab)
      | RCancW => Some (mkState (with_W k (block_cleanup f (bqW k))) (upd pc f RIdle) ab)
      | _ => None
      end
  | Barge f =>
      match pc f with
      | RBarge => Some (mkState (barge k).2 (upd pc f RReading) ab)
      | _ => None
      end
  | Release f =>
      match pc f with
      | RReading | RWriting =>
          match release k with
          | Some (_, k') => Some (mkState k' (upd pc f RIdle) ab)
          | None => Some (mkState k pc true)
          end
      | _ => None
      end
  | Cancel f p =>
      if (p =? nullptr) || (p =? qr) || (p =? qw) then None
      else Some (mkState (with_R k (cancel_race f p (bqR k))) pc ab)
  end.

Definition init (s : state) : Prop :=
  exists r, s = mkState (mkRW 0 [] [] r) (fun _ => RIdle) false.

Definition standR (c : rwpc) : stand := match c with RWaitR => Blocked | RCancR => Cancelled | _ => Away end.
Definition standW (c : rwpc) : stand := match c with RWaitW => Blocked | RCancW => Cancelled | _ => Away end.

(** Who has the lock: shared, or exclusively; a fred that was granted the lock
    while it was waiting has it already. *)
Definition reads (k : LockedRWLock) (pc : fid -> rwpc) (f : fid) : Prop :=
  match pc f with
  | RBarge | RReading => True
  | RWaitR => resumeInfos k f = qr
  | _ => False
  end.
Definition writes (k : LockedRWLock) (pc : fid -> rwpc) (f : fid) : Prop :=
  match pc f with
  | RWriting => True
  | RWaitW => resumeInfos k f = qw
  | _ => False
  end.

(** The queues agree with the program counters, and [rs], [ws] are the readers
    and writers; [counted]: the state word counts them. *)
Record core (k : LockedRWLock) (pc : fid -> rwpc) (rs ws : list fid) : Prop := mkCore {
  core_R : consistent qr (standR ∘ pc) (bqR k);
  core_W : consistent qw (standW ∘ pc) (bqW k);
  core_nodup_R : NoDup rs;
  core_nodup_W : NoDup ws;
  core_reads f : f ∈ rs <-> reads k pc f;
  core_writes f : f ∈ ws <-> writes k pc f
}.

Definition counted (z : Z) (rs ws : list fid) : Prop :=
  match ws with
  | [] => z = Z.of_nat (length rs)
  | [_] => rs = [] /\ z = -1
  | _ => False
  end.

Definition inv (s : state) : Prop :=
  aborted s = false /\ exists rs ws, core (lck s) (pcs s) rs ws /\ counted (rwstate (lck s)) rs ws.

Hypothesis qr_not_null : qr <> nullptr.
Hypothesis qw_not_null : qw <> nullptr.
Hypothesis q_different : qr <> qw.

Ltac fields := cbn [block_enter block_cleanup rwstate nodesR nodesW resumeInfos bqR bqW with_R with_W add_state nodes resumes lck pcs aborted] in *.

Lemma rw_init_inv s : init s -> inv s.
Proof.
  intros (r & ->). split; [done|]. exists [], []. split; [|done].
  split; fields; try by apply consistent_init.
  - constructor.
  - constructor.
  - intros f. split; [intros H; inversion H|done].
  - intros f. split; [intros H; inversion H|done].
Qed.

Lemma core_state k pc rs ws z :
  core k pc rs ws -> core (add_state z k) pc rs ws.
Proof. intros [H1 H2 H3 H4 H5 H6]. by split. Qed.

(** Where a blocked reader or writer stands in the other queue. *)
Lemma blocked_R (pc : fid -> rwpc) f : (standR ∘ pc) f = Blocked -> pc f = RWaitR /\ (standW ∘ pc) f = Away.
Proof. unfold compose. by destruct (pc f). Qed.
Lemma blocked_W (pc : fid -> rwpc) f : (standW ∘ pc) f = Blocked -> pc f = RWaitW /\ (standR ∘ pc) f = Away.
Proof. unfold compose. by destruct (pc f). Qed.

Lemma grant_reader k pc rs ws :
  core k pc rs ws ->
  match unblock_reader k with
  | (Some f, k') => core k' pc (f :: rs) ws /\ rwstate k' = rwstate k /\ nodesW k' = nodesW k /\
                    waiting (bqR k) = f :: waiting (bqR k') /\ waiting (bqW k') = waiting (bqW k)
  | (None, k') => k' = k /\ waiting (bqR k) = []
  end.
Proof.
  intros [HR HW HnR HnW Hr Hw]. unfold unblock_reader. pose proof (unblock_ok qr qr_not_null _ _ HR) as Hu.
  destruct (unblock qr (bqR k)) as [[f|] q].
  - destruct Hu as (Hv & Hres & Hres' & Hwt & Hcon). destruct (blocked_R _ _ Hv) as [Hf HfW].
    assert (HqW : bqW (with_R k q) = mkBQ (nodes (bqW k)) (upd (resumes (bqW k)) f qr))
      by (unfold bqW, with_R; fields; by rewrite Hres').
    split_and!; try done.
    + split; try done.
      * by destruct q.
      * rewrite HqW. by apply consistent_elsewhere.
      * constructor; [|done]. rewrite Hr. unfold reads. rewrite Hf. intros H. fields. congruence.
      * intros g. rewrite elem_of_cons, Hr. unfold reads. fields. rewrite Hres'. at_fred g f.
        { rewrite Hf. tauto. } naive_solver.
      * intros g. rewrite Hw. unfold writes. fields. rewrite Hres'. at_fred g f; [by rewrite Hf|done].
    + by rewrite HqW, (waiting_elsewhere qw _ _ _ _ HfW HW).
  - destruct Hu as [-> Hu]. split; [by destruct k|done].
Qed.

Lemma grant_writer k pc rs ws :
  core k pc rs ws ->
  match unblock_writer k with
  | (Some f, k') => core k' pc rs (f :: ws) /\ rwstate k' = rwstate k /\
                    waiting (bqW k) = f :: waiting (bqW k') /\ waiting (bqR k') = waiting (bqR k)
  | (None, k') => k' = k /\ waiting (bqW k) = []
  end.
Proof.
  intros [HR HW HnR HnW Hr Hw]. unfold unblock_writer. pose proof (unblock_ok qw qw_not_null _ _ HW) as Hu.
  destruct (unblock qw (bqW k)) as [[f|] q].
  - destruct Hu as (Hv & Hres & Hres' & Hwt & Hcon). destruct (blocked_W _ _ Hv) as [Hf HfW].
    assert (HqW : bqR (with_W k q) = mkBQ (nodes (bqR k)) (upd (resumes (bqR k)) f qw))
      by (unfold bqR, with_W; fields; by rewrite Hres').
    split_and!; try done.
    + split; try done.
      * rewrite HqW. by apply consistent_elsewhere.
      * by destruct q.
      * constructor; [|done]. rewrite Hw. unfold writes. rewrite Hf. intros H. fields. congruence.
      * intros g. rewrite Hr. unfold reads. fields. rewrite Hres'. at_fred g f; [by rewrite Hf|done].
      * intros g. rewrite elem_of_cons, Hw. unfold writes. fields. rewrite Hres'. at_fred g f.
        { rewrite Hf. tauto. } naive_solver.
    + by rewrite HqW, (waiting_elsewhere qr _ _ _ _ HfW HR).
  - destruct Hu as [-> Hu]. split; [by destruct k|done].
Qed.

(** One fred [f] moves to [c], and nobody else's standing changes. *)
Lemma core_move k k' pc rs ws rs' ws' f c :
  core k pc rs ws ->
  consistent qr (upd (standR ∘ pc) f (standR c)) (bqR k') ->
  consistent qw (upd (standW ∘ pc) f (standW c)) (bqW k') ->
  NoDup rs' -> NoDup ws' ->
  (f ∈ rs' <-> reads k' (upd pc f c) f) -> (f ∈ ws' <-> writes k' (upd pc f c) f) ->
  (forall g, g <> f -> resumeInfos k' g = resumeInfos k g /\ (g ∈ rs' <-> g ∈ rs) /\ (g ∈ ws' <-> g ∈ ws)) ->
  core k' (upd pc f c) rs' ws'.
Proof.
  intros [HR HW HnR HnW Hr Hw] HR' HW' Hn1 Hn2 Hfr Hfw Ho. split; try done.
  - by rewrite compose_upd.
  - by rewrite compose_upd.
  - intros g. destruct (decide (g = f)) as [->|Hne]; [done|]. destruct (Ho g Hne) as (E & -> & _).
    rewrite Hr. unfold reads. by rewrite upd_ne, E by done.
  - intros g. destruct (decide (g = f)) as [->|Hne]; [done|]. destruct (Ho g Hne) as (E & _ & ->).
    rewrite Hw. unfold writes. by rewrite upd_ne, E by done.
Qed.

Lemma upd_id {V} (v : fid -> V) f : pointwise_relation fid eq (upd v f (v f)) v.
Proof. intros g. by at_fred g f. Qed.

Lemma consistent_stay q v (f : fid) c l : c = v f -> consistent q v l -> consistent q (upd v f c) l.
Proof. intros -> H. by rewrite upd_id. Qed.

Ltac stands Hf := unfold compose; rewrite Hf; done.
Ltac idle_absent Hc Hf :=
  match type of Hf with ?pc ?f = _ =>
  match type of Hc with core _ _ ?rs ?ws =>
    assert (HnR : f ∉ rs) by (rewrite (core_reads _ _ _ _ Hc); unfold reads; rewrite Hf; intros []);
    assert (HnW : f ∉ ws) by (rewrite (core_writes _ _ _ _ Hc); unfold writes; rewrite Hf; intros [])
  end end.
Ltac others := intros g Hne; split_and!; fields; rewrite ?elem_of_cons, ?list_elem_of_filter, ?upd_ne by done; (done || naive_solver).

(** A fred takes the lock at once. *)
Lemma take_read k pc rs ws f z : core k pc rs ws -> pc f = RIdle ->
  core (add_state z k) (upd pc f RReading) (f :: rs) ws.
Proof.
  intros Hc Hf. idle_absent Hc Hf.
  pose proof Hc as [HR HW ? ? _ _]. eapply core_move; [exact Hc|..]; try done.
  - apply consistent_stay; [stands Hf|done].
  - apply consistent_stay; [stands Hf|done].
  - constructor; [done|done].
  - unfold reads. rewrite upd_eq. split; [done|]. by left.
  - unfold writes. rewrite upd_eq. by split.
  - others.
Qed.

Lemma take_write k pc rs ws f z : core k pc rs ws -> pc f = RIdle ->
  core (add_state z k) (upd pc f RWriting) rs (f :: ws).
Proof.
  intros Hc Hf. idle_absent Hc Hf.
  pose proof Hc as [HR HW ? ? _ _]. eapply core_move; [exact Hc|..]; try done.
  - apply consistent_stay; [stands Hf|done].
  - apply consistent_stay; [stands Hf|done].
  - constructor; [done|done].
  - unfold reads. rewrite upd_eq. by split.
  - unfold writes. rewrite upd_eq. split; [done|]. by left.
  - others.
Qed.

(** A fred suspends. *)
Lemma enter_read k pc rs ws f : core k pc rs ws -> pc f = RIdle ->
  core (with_R k (block_enter f (bqR k))) (upd pc f RWaitR) rs ws.
Proof.
  intros Hc Hf. idle_absent Hc Hf.
  pose proof Hc as [HR HW ? ? _ _]. eapply core_move; [exact Hc|..]; try done.
  - apply consistent_enter; [done|stands Hf|done].
  - apply consistent_stay; [stands Hf|]. apply (consistent_elsewhere qw _ (bqW k)); [stands Hf|done].
  - unfold reads. fields. rewrite !upd_eq. split; [done|congruence].
  - unfold writes. rewrite upd_eq. by split.
  - others.
Qed.

Lemma enter_write k pc rs ws f : core k pc rs ws -> pc f = RIdle ->
  core (with_W k (block_enter f (bqW k))) (upd pc f RWaitW) rs ws.
Proof.
  intros Hc Hf. idle_absent Hc Hf.
  pose proof Hc as [HR HW ? ? _ _]. eapply core_move; [exact Hc|..]; try done.
  - apply consistent_stay; [stands Hf|]. apply (consistent_elsewhere qr _ (bqR k)); [stands Hf|done].
  - apply consistent_enter; [done|stands Hf|done].
  - unfold reads. rewrite upd_eq. by split.
  - unfold writes. fields. rewrite !upd_eq. split; [done|congruence].
  - others.
Qed.

(** A fred runs again after its suspension. *)
Lemma wake_read k pc rs ws f : core k pc rs ws -> pc f = RWaitR -> resumeInfos k f <> nullptr ->
  core k (upd pc f (if block_won qr (resumeInfos k f) then RBarge else RCancR)) rs ws.
Proof.
  intros Hc Hf Hres. pose proof Hc as [HR HW ? ? Hr Hw].
  specialize (Hr f). specialize (Hw f). unfold reads in Hr. unfold writes in Hw. rewrite Hf in Hr, Hw.
  assert (Hv : (standR ∘ pc) f = Blocked) by (unfold compose; by rewrite Hf).
  pose proof (consistent_wake qr qr_not_null _ (bqR k) f Hv Hres HR) as Hcw. unfold block_won. fields.
  destruct (resumeInfos k f =? qr) eqn:E; bool_prop; (eapply core_move; [exact Hc|..]); try done.
  1, 4: apply consistent_stay; [stands Hf|done].
  all: try others; unfold reads, writes; rewrite !upd_eq; tauto.
Qed.

Lemma wake_write k pc rs ws f : core k pc rs ws -> pc f = RWaitW -> resumeInfos k f <> nullptr ->
  core k (upd pc f (if block_won qw (resumeInfos k f) then RWriting else RCancW)) rs ws.
Proof.
  intros Hc Hf Hres. pose proof Hc as [HR HW ? ? Hr Hw].
  specialize (Hr f). specialize (Hw f). unfold reads in Hr. unfold writes in Hw. rewrite Hf in Hr, Hw.
  assert (Hv : (standW ∘ pc) f = Blocked) by (unfold compose; by rewrite Hf).
  pose proof (consistent_wake qw qw_not_null _ (bqW k) f Hv Hres HW) as Hcw. unfold block_won. fields.
  destruct (resumeInfos k f =? qw) eqn:E; bool_prop; (eapply core_move; [exact Hc|..]); try done.
  1, 4: apply consistent_stay; [stands Hf|done].
  all: try others; unfold reads, writes; rewrite !upd_eq; tauto.
Qed.

(** A cancelled fred leaves its queue. *)
Lemma leave_R k pc rs ws f : core k pc rs ws -> pc f = RCancR ->
  core (with_R k (block_cleanup f (bqR k))) (upd pc f RIdle) rs ws.
Proof.
  intros Hc Hf. idle_absent Hc Hf. pose proof Hc as [HR HW ? ? _ _]. eapply core_move; [exact Hc|..]; try done.
  - apply (consistent_cleanup qr qr_not_null _ (bqR k)); [stands Hf|done].
  - apply consistent_stay; [stands Hf|done].
  - unfold reads. rewrite upd_eq. by split.
  - unfold writes. rewrite upd_eq. by split.
Qed.

Lemma leave_W k pc rs ws f : core k pc rs ws -> pc f = RCancW ->
  core (with_W k (block_cleanup f (bqW k))) (upd pc f RIdle) rs ws.
Proof.
  intros Hc Hf. idle_absent Hc Hf. pose proof Hc as [HR HW ? ? _ _]. eapply core_move; [exact Hc|..]; try done.
  - apply consistent_stay; [stands Hf|done].
  - apply (consistent_cleanup qw qw_not_null _ (bqW k)); [stands Hf|done].
  - unfold reads. rewrite upd_eq. by split.
  - unfold writes. rewrite upd_eq. by split.
Qed.

(** Moves that change nobody's standing. *)
Lemma stay_put k pc rs ws f c : core k pc rs ws ->
  pc f = RIdle /\ c = RIdle \/ pc f = RBarge /\ c = RReading ->
  core k (upd pc f c) rs ws.
Proof.
  intros Hc Hf. pose proof Hc as [HR HW ? ? Hr Hw]. specialize (Hr f). specialize (Hw f).
  unfold reads, writes in *. eapply core_move; [exact Hc|..]; try done.
  1, 2: apply consistent_stay; [unfold compose; destruct Hf as [[-> ->]|[-> ->]]; done|done].
  1, 2: unfold reads, writes; rewrite upd_eq; destruct Hf as [[Hf ->]|[Hf ->]]; rewrite Hf in *; tauto.
Qed.

(** A reader or writer gives the lock back. *)
Lemma leave_lock k pc rs ws f z : core k pc rs ws -> pc f = RReading \/ pc f = RWriting ->
  core (add_state z k) (upd pc f RIdle) (base.filter (fun g => g <> f) rs) (base.filter (fun g => g <> f) ws).
Proof.
  intros Hc Hf. pose proof Hc as [HR HW ? ? _ _]. eapply core_move; [exact Hc|..].
  1, 2: apply consistent_stay; [unfold compose; destruct Hf as [-> | ->]; done|done].
  1, 2: by apply NoDup_filter.
  1, 2: rewrite list_elem_of_filter; unfold reads, writes; rewrite upd_eq; tauto.
  others.
Qed.

Lemma cancel_core k pc rs ws f p : core k pc rs ws -> p <> nullptr -> p <> qr -> p <> qw ->
  core (with_R k (cancel_race f p (bqR k))) pc rs ws.
Proof.
  intros [HR HW H1 H2 Hr Hw] Hp Hpr Hpw.
  assert (Hsame : forall g q, q <> nullptr -> q <> p ->
    resumeInfos (with_R k (cancel_race f p (bqR k))) g = q <-> resumeInfos k g = q).
  { intros g q Hq Hqp. unfold cancel_race. fields. destruct (resumeInfos k f =? nullptr) eqn:E; [|done].
    bool_prop. fields. at_fred g f; [|done]. split; congruence. }
  split; try done.
  - pose proof (consistent_cancel qr qr_not_null _ _ f p Hp Hpr HR) as Hcc. unfold cancel_race in *. fields.
    by destruct (resumeInfos k f =? nullptr).
  - pose proof (consistent_cancel qw qw_not_null _ _ f p Hp Hpw HW) as Hcc. unfold cancel_race in *. fields.
    by destruct (resumeInfos k f =? nullptr).
  - intros g. rewrite Hr. unfold reads. destruct (pc g); try done. by rewrite Hsame.
  - intros g. rewrite Hw. unfold writes. destruct (pc g); try done. by rewrite Hsame.
Qed.

(** ** The state word *)
Lemma counted_read rs ws z f : counted z rs ws -> 0 <= z -> counted (z + 1) (f :: rs) ws.
Proof. unfold counted. destruct ws as [|? []]; simpl; lia. Qed.

Lemma counted_write rs ws f : counted 0 rs ws -> counted (-1) rs (f :: ws).
Proof. unfold counted. destruct ws as [|? []], rs; simpl; try lia; naive_solver lia. Qed.

Lemma counted_shared rs ws z f : counted z rs ws -> f ∈ rs -> ws = [] /\ 0 < z.
Proof.
  unfold counted. intros H Hf. destruct ws as [|? []]; [|by destruct H as [-> _]; apply elem_of_nil in Hf|done].
  destruct rs; [by apply elem_of_nil in Hf|]. simpl in H. split; [done|lia].
Qed.

Lemma counted_exclusive rs ws z f : counted z rs ws -> f ∈ ws -> ws = [f] /\ rs = [] /\ z = -1.
Proof.
  unfold counted. intros H Hf. destruct ws as [|? []]; [by apply elem_of_nil in Hf| |done].
  apply list_elem_of_singleton in Hf as ->. naive_solver.
Qed.

Lemma writer_first_ok k pc rs ws : core k pc rs ws -> counted (rwstate k) rs ws -> rwstate k = 0 ->
  exists rs' ws', core (writer_first k).2 pc rs' ws' /\ counted (rwstate (writer_first k).2) rs' ws'.
Proof.
  intros Hc Hz H0. unfold writer_first. pose proof (grant_writer _ _ _ _ Hc) as Hw.
  destruct (unblock_writer k) as [[f|] k'].
  - destruct Hw as (Hc' & Hs & _). exists rs, (f :: ws). split; [by apply core_state|].
    cbn. rewrite Hs, H0. rewrite H0 in Hz. by apply counted_write.
  - destruct Hw as [-> _]. pose proof (grant_reader _ _ _ _ Hc) as Hr. destruct (unblock_reader k) as [[f|] k''].
    + destruct Hr as (Hc' & Hs & _). exists (f :: rs), ws. split; [by apply core_state|].
      cbn. rewrite Hs. apply counted_read; [done|lia].
    + destruct Hr as [-> _]. by exists rs, ws.
Qed.

Lemma reader_first_ok k pc rs ws : core k pc rs ws -> counted (rwstate k) rs ws -> rwstate k = 0 ->
  exists rs' ws', core (reader_first k).2 pc rs' ws' /\ counted (rwstate (reader_first k).2) rs' ws'.
Proof.
  intros Hc Hz H0. unfold reader_first. pose proof (grant_reader _ _ _ _ Hc) as Hr.
  destruct (unblock_reader k) as [[f|] k'].
  - destruct Hr as (Hc' & Hs & _). exists (f :: rs), ws. split; [by apply core_state|].
    cbn. rewrite Hs. apply counted_read; [done|lia].
  - destruct Hr as [-> _]. pose proof (grant_writer _ _ _ _ Hc) as Hw. destruct (unblock_writer k) as [[f|] k''].
    + destruct Hw as (Hc' & Hs & _). exists rs, (f :: ws). split; [by apply core_state|].
      cbn. rewrite Hs, H0. rewrite H0 in Hz. by apply counted_write.
    + destruct Hw as [-> _]. by exists rs, ws.
Qed.

(** [release] by a fred that has the lock succeeds and keeps everything in
    order. *)
Lemma rw_release_ok k pc rs ws f :
  core k pc rs ws -> counted (rwstate k) rs ws -> pc f = RReading \/ pc f = RWriting ->
  exists n k' rs' ws', release k = Some (n, k') /\ core k' (upd pc f RIdle) rs' ws' /\
    counted (rwstate k') rs' ws'.
Proof.
  intros Hc Hz Hf. unfold release, rassert. 
  pose proof (fun z => leave_lock k pc rs ws f z Hc Hf) as Hl. pose proof Hc as [_ _ HnR HnW Hr Hw].
  destruct Hf as [Hf|Hf].
  - assert (Hin : f ∈ rs) by (rewrite Hr; unfold reads; by rewrite Hf).
    destruct (counted_shared _ _ _ _ Hz Hin) as [-> Hpos]. simpl in Hz.
    pose proof (length_filter_out rs f HnR Hin) as Hlen. rewrite filter_nil in Hl.
    assert (Hz' : counted (rwstate k - 1) (base.filter (fun g => g <> f) rs) []) by (simpl; lia).
    replace (rwstate k =? 0) with false by (symmetry; apply Z.eqb_neq; lia).
    replace (0 <? rwstate k) with true by (symmetry; apply Z.ltb_lt; lia).
    cbn [negb mbind option_bind]. destruct (0 <? rwstate (add_state (-1) k)) eqn:E; bool_prop.
    + do 4 eexists. split; [done|]. split; [apply Hl|exact Hz'].
    + destruct (writer_first_ok _ _ _ _ (Hl (-1)) Hz') as (rs' & ws' & Hc' & Hz2).
      { cbn in *. lia. }
      destruct (writer_first (add_state (-1) k)) as [n k']. by exists n, k', rs', ws'.
  - assert (Hin : f ∈ ws) by (rewrite Hw; unfold writes; by rewrite Hf).
    destruct (counted_exclusive _ _ _ _ Hz Hin) as (-> & -> & Hk). rewrite Hk. cbn [negb Z.eqb Z.ltb Z.compare Pos.eqb mbind option_bind].
    rewrite filter_cons_False in Hl by (intros H; by apply H). rewrite filter_nil in Hl.
    destruct (reader_first_ok _ _ _ _ (Hl 1)) as (rs' & ws' & Hc' & Hz2); [by cbn; rewrite Hk|by cbn; rewrite Hk|].
    destruct (reader_first (add_state 1 k)) as [n k']. by exists n, k', rs', ws'.
Qed.

Lemma rw_step_inv l s s' : inv s -> step l s = Some s' -> inv s'.
Proof.
  destruct s as [k pc ab]. intros (Hab & rs & ws & Hc & Hz) Hs. unfold inv. cbn [lck pcs aborted] in *. subst ab.
  destruct l as [f a now|f a now|f|f|f|f|f p]; cbn [step] in Hs.
  - destruct (pc f) eqn:Hf; simplify_eq. unfold acquire_read, after_attempt. cbn [pcs aborted].
    destruct ((0 <=? rwstate k) && empty (bqW k)) eqn:E; [|destruct (block_suspends a now)]; cbn [fst snd lck pcs aborted].
    + apply andb_true_iff in E as [E _]. bool_prop. split; [done|]. exists (f :: rs), ws.
      split; [by apply take_read|by apply counted_read].
    + split; [done|]. exists rs, ws. split; [by apply enter_read|done].
    + split; [done|]. exists rs, ws. split; [apply stay_put; by auto|done].
  - destruct (pc f) eqn:Hf; simplify_eq. unfold acquire_write, after_attempt. cbn [pcs aborted].
    destruct (rwstate k =? 0) eqn:E; [|destruct (block_suspends a now)]; cbn [fst snd lck pcs aborted].
    + bool_prop. split; [done|]. exists rs, (f :: ws). split; [by apply take_write|].
      cbn. rewrite E in *. by apply counted_write.
    + split; [done|]. exists rs, ws. split; [by apply enter_write|done].
    + split; [done|]. exists rs, ws. split; [apply stay_put; by auto|done].
  - destruct (resumeInfos k f =? nullptr) eqn:E; [done|]. bool_prop.
    destruct (pc f) eqn:Hf; simplify_eq; (split; [done|]); exists rs, ws; split; try done.
    + by apply wake_read.
    + by apply wake_write.
  - destruct (pc f) eqn:Hf; simplify_eq; (split; [done|]); exists rs, ws; split; try done.
    + by apply leave_R.
    + by apply leave_W.
  - destruct (pc f) eqn:Hf; simplify_eq. split; [done|]. cbn [lck pcs].
    assert (Hin : f ∈ rs) by (rewrite (core_reads _ _ _ _ Hc); unfold reads; by rewrite Hf).
    destruct (counted_shared _ _ _ _ Hz Hin) as [_ Hpos].
    pose proof (stay_put _ _ _ _ f RReading Hc ltac:(by auto)) as Hc'. unfold barge.
    pose proof (grant_reader _ _ _ _ Hc') as Hg. destruct (unblock_reader k) as [[g|] k']; cbn [snd].
    + destruct Hg as (Hc2 & Hs & _). exists (g :: rs), ws. split; [by apply core_state|].
      cbn. rewrite Hs. apply counted_read; [done|lia].
    + destruct Hg as [-> _]. by exists rs, ws.
  - assert (Hrel : pc f = RReading \/ pc f = RWriting -> 
      match release k with Some (_, k') => Some (mkState k' (upd pc f RIdle) false) | None => Some (mkState k pc true) end = Some s' ->
      aborted s' = false /\ exists rs ws, core (lck s') (pcs s') rs ws /\ counted (rwstate (lck s')) rs ws).
    { intros Hf Hs'. destruct (rw_release_ok k pc rs ws f Hc Hz Hf) as (n & k' & rs' & ws' & Hrel & Hc' & Hz').
      rewrite Hrel in Hs'. simplify_eq. split; [done|]. by exists rs', ws'. }
    destruct (pc f) eqn:Hf; try done; apply Hrel; auto.
  - destruct ((p =? nullptr) || (p =? qr) || (p =? qw)) eqn:E; simplify_eq. bool_prop.
    split; [done|]. exists rs, ws. split; [by apply cancel_core|done].
Qed.

Lemma rw_reachable_inv s : reachable init step s -> inv s.
Proof. apply invariant_rule; [apply rw_init_inv|]. intros ? ? ?. apply rw_step_inv. Qed.

(** C8. Readers share, writers exclude: in every reachable state the freds that
    have the lock (a grant to a waiting fred counts) are any number of readers
    or one writer, [state] says how many and which, and no assertion fails. *)
Theorem rwlock_exclusive s :
  reachable init step s ->
  aborted s = false /\
  exists rs ws, NoDup rs /\ (forall f, f ∈ rs <-> reads (lck s) (pcs s) f) /\
    (forall f, f ∈ ws <-> writes (lck s) (pcs s) f) /\
    (ws = [] /\ rwstate (lck s) = Z.of_nat (length rs) \/
     (exists w, ws = [w]) /\ rs = [] /\ rwstate (lck s) = -1).
Proof.
  intros (Hab & rs & ws & [_ _ HnR _ Hr Hw] & Hz)%rw_reachable_inv. split; [done|]. exists rs, ws.
  split_and!; try done. unfold counted in Hz. destruct ws as [|w []]; [by left| |done].
  right. destruct Hz. split; [by eexists|done].
Qed.

(** ** No lost wake-up, when writers wait without a timeout *)
Definition step_patient (l : label) (s : state) : option state :=
  match l with
  | Cancel f _ => match pcs s f with RWaitW => None | _ => step l s end
  | _ => step l s
  end.

Lemma patient_step l s s' : step_patient l s = Some s' -> step l s = Some s'.
Proof. unfold step_patient. destruct l; try done. by destruct (pcs s f). Qed.

Definition writers_open (k : LockedRWLock) : Prop := forall g, g ∈ nodesW k -> resumeInfos k g = nullptr.
Definition idle_empty (k : LockedRWLock) : Prop :=
  rwstate k = 0 -> waiting (bqR k) = [] /\ nodesW k = [].

Lemma open_waiting k : writers_open k -> waiting (bqW k) = nodesW k.
Proof. intros H. unfold waiting. by apply filter_all. Qed.

Lemma open_reader k pc rs ws : core k pc rs ws -> writers_open k ->
  forall n k', unblock_reader k = (n, k') -> writers_open k'.
Proof.
  intros Hc Ho n k' E. pose proof (grant_reader _ _ _ _ Hc) as Hg. rewrite E in Hg.
  destruct n as [f|]; [|by destruct Hg as [-> _]]. destruct Hg as (_ & _ & HW & _ & Hwait).
  intros g Hg. rewrite HW in Hg.
  assert (Hin : g ∈ waiting (bqW k')) by (rewrite Hwait, open_waiting by done; done).
  by apply list_elem_of_filter in Hin as [? _].
Qed.

Lemma open_writer k pc rs ws : core k pc rs ws -> writers_open k ->
  forall n k', unblock_writer k = (n, k') -> writers_open k'.
Proof.
  intros [_ HW _ _ _ _] Ho n k' E. unfold unblock_writer in E.
  destruct (unblock qw (bqW k)) as [m q] eqn:Eu. simplify_eq.
  destruct (waiting (bqW k)) as [|f ws'] eqn:Hw.
  - rewrite unblock_none in Eu by done. by simplify_eq.
  - destruct (unblock_some qw _ _ _ Hw) as (l1 & l2 & Hq & _ & _ & Eu'). rewrite Eu in Eu'. simplify_eq.
    pose proof (con_nodup _ _ _ HW) as Hn. fields. rewrite Hq in Hn.
    intros g. unfold with_W. fields. rewrite elem_of_app. intros Hg.
    rewrite upd_ne; [apply Ho; rewrite Hq, elem_of_app, elem_of_cons; tauto|].
    intros <-. apply NoDup_app in Hn as (_ & Hd & [Hn _]%NoDup_cons).
    destruct Hg as [Hg|Hg]; [|done]. apply (Hd f Hg). by left.
Qed.

Lemma first_ok k pc rs ws : core k pc rs ws -> writers_open k -> rwstate k = 0 ->
  (writers_open (writer_first k).2 /\ idle_empty (writer_first k).2) /\
  (writers_open (reader_first k).2 /\ idle_empty (reader_first k).2).
Proof.
  intros Hc Ho H0. unfold writer_first, reader_first.
  pose proof (open_reader _ _ _ _ Hc Ho) as HoR. pose proof (open_writer _ _ _ _ Hc Ho) as HoW.
  pose proof (grant_reader _ _ _ _ Hc) as HgR. pose proof (grant_writer _ _ _ _ Hc) as HgW.
  destruct (unblock_reader k) as [n k1] eqn:ER. destruct (unblock_writer k) as [m k2] eqn:EW.
  specialize (HoR _ _ eq_refl). specialize (HoW _ _ eq_refl).
  destruct n as [f|], m as [g|]; cases; subst; rewrite ?ER, ?EW; cbn [snd]; unfold idle_empty; cbn [add_state rwstate];
    split_and!; try done; try (intros Hz; exfalso; lia).
  all: intros _; split; [done|by rewrite <- open_waiting].
Qed.

Definition patient_inv (s : state) : Prop := inv s /\ writers_open (lck s) /\ idle_empty (lck s).

Lemma not_queued_W k pc rs ws f : core k pc rs ws -> standW (pc f) = Away -> f ∉ nodesW k.
Proof. intros [_ HW _ _ _ _] Hf. by apply (con_away _ _ _ HW). Qed.

(** The lock changed so that the writers' queue is as it was, and every change
    of [resumeInfo] is outside it. *)
Lemma open_kept k k' : writers_open k -> nodesW k' = nodesW k ->
  (forall g, g ∈ nodesW k -> resumeInfos k' g = resumeInfos k g) -> writers_open k'.
Proof. intros Ho Hn Hr g Hg. rewrite Hn in Hg. rewrite Hr by done. by apply Ho. Qed.

Lemma patient_acquire_read k pc rs ws f a now : core k pc rs ws -> pc f = RIdle ->
  writers_open k -> idle_empty k ->
  let k' := (acquire_read f a now k).2 in writers_open k' /\ idle_empty k'.
Proof.
  intros Hc Hf Ho Hi. pose proof (not_queued_W _ _ _ _ f Hc ltac:(by rewrite Hf)) as Hn.
  unfold acquire_read. destruct ((0 <=? rwstate k) && empty (bqW k)) eqn:E; [|destruct (block_suspends a now)];
    cbn [snd]; try done.
  - split; [done|]. intros H. cbn in H. bool_prop. lia.
  - split.
    + apply (open_kept k); [done|done|]. intros g Hg. fields. rewrite upd_ne; [done|]. by intros ->.
    + intros H0. fields. destruct (Hi H0) as [_ HW]. rewrite H0 in E. unfold empty, bqW in E. fields. by rewrite HW in E.
Qed.

Lemma patient_acquire_write k pc rs ws f a now : core k pc rs ws -> pc f = RIdle ->
  writers_open k -> idle_empty k ->
  let k' := (acquire_write f a now k).2 in writers_open k' /\ idle_empty k'.
Proof.
  intros Hc Hf Ho Hi. pose proof (not_queued_W _ _ _ _ f Hc ltac:(by rewrite Hf)) as Hn.
  unfold acquire_write. destruct (rwstate k =? 0) eqn:E; [|destruct (block_suspends a now)]; bool_prop;
    cbn [snd]; try done.
  - split; [done|]. intros H. cbn in H. lia.
  - split.
    + intros g Hg. fields. apply elem_of_app in Hg as [Hg| ->%list_elem_of_singleton]; [|apply upd_eq].
      rewrite upd_ne; [by apply Ho|]. by intros ->.
    + by intros H0.
Qed.

Lemma patient_release k pc rs ws f n k' : core k pc rs ws -> counted (rwstate k) rs ws ->
  pc f = RReading \/ pc f = RWriting -> writers_open k -> release k = Some (n, k') ->
  writers_open k' /\ idle_empty k'.
Proof.
  intros Hc Hz Hf Ho. pose proof (fun z => first_ok _ _ _ _ (core_state _ _ _ _ z Hc) Ho) as Hfirst.
  unfold release, rassert. destruct (rwstate k =? 0) eqn:E0; [done|]. cbn [negb mbind option_bind].
  destruct (0 <? rwstate k) eqn:E1.
  - destruct (0 <? rwstate (add_state (-1) k)) eqn:E2; intros [= H]; bool_prop.
    + subst k'. split; [done|]. intros H0. lia.
    + destruct (Hfirst (-1)) as [[H1 H2] _]; [cbn in *; lia|]. by rewrite H in H1, H2.
  - destruct (rwstate k =? -1) eqn:E2; [|done]. intros [= H]. bool_prop.
    destruct (Hfirst 1) as [_ [H1 H2]]; [cbn; lia|]. by rewrite H in H1, H2.
Qed.

Lemma patient_cancel k pc rs ws f p : core k pc rs ws -> pc f <> RWaitW -> p <> nullptr ->
  writers_open k -> idle_empty k ->
  let k' := with_R k (cancel_race f p (bqR k)) in writers_open k' /\ idle_empty k'.
Proof.
  intros Hc Hf Hp Ho Hi. split.
  - apply (open_kept k); [done|done|]. intros g Hg. unfold cancel_race. fields.
    destruct (resumeInfos k f =? nullptr) eqn:E; [|done]. bool_prop. fields. rewrite upd_ne; [done|].
    intros ->. pose proof Hc as [_ HW _ _ _ _]. destruct (pc g) eqn:Hg'; try done;
      try (by apply (not_queued_W _ _ _ _ g Hc); [by rewrite Hg'|]).
    destruct (con_cancelled _ _ _ HW g) as [_ ?]; [by unfold compose; rewrite Hg'|]. done.
  - intros H0. fields. destruct (Hi H0) as [HR HW]. split; [|done].
    assert (Hw : waiting (cancel_race f p (bqR k)) = []) by (by rewrite waiting_cancel, HR).
    exact Hw.
Qed.

Lemma patient_step_inv l s s' : patient_inv s -> step_patient l s = Some s' -> patient_inv s'.
Proof.
  intros (Hinv & Ho & Hi) Hs. pose proof (patient_step _ _ _ Hs) as Hst.
  split; [by eapply rw_step_inv|]. destruct Hinv as (_ & rs & ws & Hc & Hz). destruct s as [k pc ab].
  cbn [lck pcs aborted] in *. destruct l as [f a now|f a now|f|f|f|f|f p]; cbn [step] in Hst.
  - destruct (pc f) eqn:Hf; simplify_eq. by eapply patient_acquire_read.
  - destruct (pc f) eqn:Hf; simplify_eq. by eapply patient_acquire_write.
  - destruct (resumeInfos k f =? nullptr); [done|]. by destruct (pc f); simplify_eq.
  - destruct (pc f) eqn:Hf; simplify_eq; cbn [lck].
    + split; [exact Ho|]. intros H0. fields. destruct (Hi H0) as [HR HW]. split; [|done].
      pose proof Hc as [HcR _ _ _ _ _]. rewrite <- HR. exact (waiting_cleanup qr (standR ∘ pc) (bqR k) f ltac:(stands Hf) HcR).
    + split; [intros g [_ Hg]%list_elem_of_filter; by apply Ho|]. intros H0. fields. destruct (Hi H0) as [HR HW].
      split; [done|]. by rewrite HW.
  - destruct (pc f) eqn:Hf; simplify_eq. cbn [lck].
    assert (Hin : f ∈ rs) by (rewrite (core_reads _ _ _ _ Hc); unfold reads; by rewrite Hf).
    destruct (counted_shared _ _ _ _ Hz Hin) as [_ Hpos]. unfold barge.
    pose proof (open_reader _ _ _ _ Hc Ho) as HoR. pose proof (grant_reader _ _ _ _ Hc) as Hg.
    destruct (unblock_reader k) as [[g|] k']; cbn [snd].
    + split; [exact (HoR _ _ eq_refl)|]. destruct Hg as (_ & Hg & _). intros H. cbn in H. lia.
    + by destruct Hg as [-> _].
  - destruct (release k) as [[n k']|] eqn:E.
    + destruct (pc f) eqn:Hf; simplify_eq; cbn [lck]; eapply patient_release; eauto.
    + by destruct (pc f); simplify_eq.
  - destruct ((p =? nullptr) || (p =? qr) || (p =? qw)) eqn:E; simplify_eq. bool_prop.
    eapply patient_cancel; try done. intros Hf. cbn [step_patient pcs] in Hs. by rewrite Hf in Hs.
Qed.

(** C30. When no writer gives up waiting, no wake-up is lost: while the lock is
    open no reader and no writer waits. *)
Theorem rwlock_no_lost_wakeup s f :
  reachable init step_patient s -> rwstate (lck s) = 0 ->
  (pcs s f = RWaitR -> resumeInfos (lck s) f <> nullptr) /\
  (pcs s f = RWaitW -> resumeInfos (lck s) f <> nullptr).
Proof.
  intros Hr H0. assert (Hp : patient_inv s).
  { revert s Hr H0. intros s Hr _. revert s Hr. apply invariant_rule.
    - intros s Hs. split; [by apply rw_init_inv|]. destruct Hs as (r & ->). split; [|done].
      intros g Hg. inversion Hg.
    - intros s l s'. apply patient_step_inv. }
  destruct Hp as ((_ & rs & ws & [HcR HcW _ _ _ _] & _) & Ho & Hi). destruct (Hi H0) as [HR HW].
  split; intros Hf Hres.
  - assert (Hin : f ∈ waiting (bqR (lck s))) by (apply (waiting_blocked qr qr_not_null _ _ f HcR); split; [stands Hf|done]).
    rewrite HR in Hin. by apply elem_of_nil in Hin.
  - assert (Hin : f ∈ waiting (bqW (lck s))) by (apply (waiting_blocked qw qw_not_null _ _ f HcW); split; [stands Hf|done]).
    rewrite open_waiting, HW in Hin by done. by apply elem_of_nil in Hin.
Qed.
End LockedRWLock.

(** ** Concrete runs *)
Definition rw_start : state := mkState (mkRW 0 [] [] (fun _ => 1)) (fun _ => RIdle) false.
Definition forever : wait_arg := Wait true.
Definition for_1s : wait_arg := Until (fromMS 1000).

Lemma rw_start_init : init rw_start.
Proof. by exists (fun _ => 1). Qed.

(** Two readers share, a writer waits, a third reader queues behind it. *)
Definition rw_run : list label :=
  [AcqR 1 forever zero; AcqR 2 forever zero; AcqW 3 forever zero; AcqR 4 forever zero; Release 1; Release 2].

Lemma rwlock_exclusive_witness :
  let s := after (step 8 9) rw_start rw_run in
  rwstate (lck s) = -1 /\ writes 9 (lck s) (pcs s) 3 /\ aborted s = false.
Proof.
  assert (Hr : reachable init (step 8 9) (after (step 8 9) rw_start rw_run))
    by (apply after_reachable; [apply rw_start_init|vm_compute; by eexists]).
  destruct (rwlock_exclusive 8 9 ltac:(discriminate) ltac:(discriminate) ltac:(discriminate) _ Hr) as [Ha _].
  split; [reflexivity|]. split; [vm_compute; reflexivity|exact Ha].
Defined.

Lemma rwlock_no_lost_wakeup_witness :
  let s := after (step_patient 8 9) rw_start (rw_run ++ [Wake 3; Release 3]) in
  rwstate (lck s) = 1 /\
  let s' := after (step_patient 8 9) rw_start (rw_run ++ [Wake 3; Release 3; Wake 4; Barge 4; Release 4]) in
  (pcs s' 4 = RWaitR -> resumeInfos (lck s') 4 <> nullptr).
Proof.
  set (ls := rw_run ++ [Wake 3; Release 3; Wake 4; Barge 4; Release 4]).
  assert (Hr : reachable init (step_patient 8 9) (after (step_patient 8 9) rw_start ls))
    by (apply after_reachable; [apply rw_start_init|vm_compute; by eexists]).
  split; [reflexivity|].
  apply (rwlock_no_lost_wakeup 8 9 ltac:(discriminate) ltac:(discriminate) ltac:(discriminate) _ 4 Hr). reflexivity.
Defined.

(** A reader meets the node that a timed-out writer has not removed yet. *)
Definition lost_reader_run : list label :=
  [AcqW 1 forever zero; AcqW 0 for_1s zero; Cancel 0 77; Release 1; AcqR 2 forever zero; Wake 0; Cleanup 0].

(** With a timed writer a wake-up can be lost: [acquireRead] tests
    [bqW.empty()], which counts the node of a writer whose timeout has already
    fired.  A reader that arrives before that node is removed suspends although
    the lock is open and nobody waits; afterwards the lock is open, everybody
    else is idle, and nothing but a new acquisition (or a timeout of the reader)
    can happen. *)
Theorem rwlock_reader_stranded :
  exists s, reachable init (step 8 9) s /\
    rwstate (lck s) = 0 /\ nodesW (lck s) = [] /\ nodesR (lck s) = [2%nat] /\
    pcs s 2 = RWaitR /\ resumeInfos (lck s) 2 = nullptr /\ (forall f, f <> 2%nat -> pcs s f = RIdle) /\
    (forall l s', step 8 9 l s = Some s' ->
       exists f a now p, l = AcqR f a now \/ l = AcqW f a now \/ l = Cancel f p).
Proof.
  exists (after (step 8 9) rw_start lost_reader_run). split.
  { apply after_reachable; [apply rw_start_init|vm_compute; by eexists]. }
  assert (Hidle : forall f, f <> 2%nat -> pcs (after (step 8 9) rw_start lost_reader_run) f = RIdle).
  { intros f Hf. do 3 (destruct f as [|f]; [by vm_compute|]). by vm_compute. }
  split_and!; try reflexivity; [exact Hidle|].
  intros l s'. destruct l as [f a now|f a now|f|f|f|f|f p]; intros Hs; try (exists f, forever, zero, 0; by auto 6);
    try (exists f, a, now, 0; by auto 6); try (exists f, forever, zero, p; by auto 6).
  all: exfalso; destruct (decide (f = 2%nat)) as [->|Hf]; [vm_compute in Hs; discriminate|].
  all: specialize (Hidle f Hf); revert Hs Hidle; set (s := after _ _ _); destruct s as [k pc ab]; simpl;
    intros Hs Hidle; rewrite Hidle in Hs; repeat split_match_in Hs; discriminate.
Qed.
