(* ===== verification/Sync.v ===== *)
(** The other locked primitives of src/src/runtime/BlockingSync.h:
    [Condition], [LockedBarrier], and the flag family [SynchronizedFlag],
    [Joinable] and [SyncPoint]. *)

From S2P Require Import Prelude Words Times Freds BlockingQueues.
Local Open Scope Z_scope.

(** * Condition *)
Section Condition.
Context (self : ptr).

(** [signal<Broadcast>()]: the freds it resumes, in order.  A broadcast goes on
    until [unblock] finds nobody; the queue's length bounds the rounds. *)
Fixpoint signal_loop (fuel : nat) (Broadcast : bool) (q : BlockingQueue) : list fid * BlockingQueue :=
  match fuel with
  | O => ([], q)
  | S n =>
      match unblock self q with
      | (None, q') => ([], q')
      | (Some f, q') => if Broadcast then let '(fs, q'') := signal_loop n Broadcast q' in (f :: fs, q'')
                        else ([f], q')
      end
  end.

Definition signal (Broadcast : bool) (q : BlockingQueue) : list fid * BlockingQueue :=
  signal_loop (S (length (nodes q))) Broadcast q.

(** [wait(lock)] and [wait(lock, timeout)] are [block] on the queue. *)
Definition condition_wait (f : fid) (a : wait_arg) (now : Time) (q : BlockingQueue) : option BlockingQueue :=
  if block_suspends a now then Some (block_enter f q) else None.

Hypothesis self_not_null : self <> nullptr.

Lemma signal_loop_all v q n : consistent self v q -> (length (waiting q) < n)%nat ->
  (signal_loop n true q).1 = waiting q /\ waiting (signal_loop n true q).2 = [] /\
  consistent self v (signal_loop n true q).2.
Proof.
  revert q. induction n as [|n IH]; intros q Hc Hl; [lia|]. simpl.
  pose proof (unblock_ok self self_not_null _ _ Hc) as Hu.
  destruct (unblock self q) as [[f|] q'].
  - destruct Hu as (_ & _ & _ & Hw & Hc'). rewrite Hw in Hl |- *. simpl in Hl.
    destruct (IH q' Hc' ltac:(lia)) as (H1 & H2 & H3).
    destruct (signal_loop n true q') as [fs q'']. simpl in *. by rewrite H1.
  - destruct Hu as [-> Hw]. rewrite Hw. by split_and!.
Qed.

Lemma signal_ok v q : consistent self v q ->
  (signal false q).1 = take 1 (waiting q) /\
  (signal true q).1 = waiting q /\ waiting (signal true q).2 = [] /\
  consistent self v (signal false q).2 /\ consistent self v (signal true q).2.
Proof.
  intros Hc. assert (Hlen : (length (waiting q) < S (length (nodes q)))%nat).
  { unfold waiting. pose proof (length_filter (fun f => resumes q f = nullptr) (nodes q)). lia. }
  destruct (signal_loop_all v q _ Hc Hlen) as (H1 & H2 & H3).
  unfold signal. split_and!; try done; simpl.
  - pose proof (unblock_ok self self_not_null _ _ Hc) as Hu.
    destruct (unblock self q) as [[f|] q'].
    + by destruct Hu as (_ & _ & _ & -> & _).
    + by destruct Hu as [_ ->].
  - pose proof (unblock_ok self self_not_null _ _ Hc) as Hu.
    destruct (unblock self q) as [[f|] q'].
    + by destruct Hu as (_ & _ & _ & _ & Hc').
    + by destruct Hu as [-> _].
Qed.

Lemma signal_resumes v q bc : consistent self v q ->
  forall g, resumes (signal bc q).2 g = if decide (g ∈ (signal bc q).1) then self else resumes q g.
Proof.
  unfold signal. generalize (S (length (nodes q))). intros n Hc. revert q Hc. induction n as [|n IH]; intros q Hc g; [done|].
  simpl. pose proof (unblock_ok self self_not_null _ _ Hc) as Hu. destruct (unblock self q) as [[f|] q'].
  - destruct Hu as (_ & _ & Hr & _ & Hc'). destruct bc.
    + specialize (IH q' Hc' g). destruct (signal_loop n true q') as [fs q'']. simpl in *. rewrite IH, Hr.
      destruct (decide (g = f)) as [->|Hne]; [rewrite upd_eq, (decide_True (P := f ∈ f :: fs)) by (by left); by destruct (decide _)|].
      rewrite upd_ne by done. apply decide_ext. rewrite elem_of_cons. naive_solver.
    + simpl. rewrite Hr. destruct (decide (g = f)) as [->|Hne]; [rewrite upd_eq, decide_True by (by left); done|].
      rewrite upd_ne, decide_False by (done || by intros ?%list_elem_of_singleton). done.
  - by destruct Hu as [-> _].
Qed.

(** [signal] resumes the fred that has waited longest and is not cancelled,
    a broadcast resumes all such freds in order of arrival, and the loop ends. *)
Theorem signal_correct v q : consistent self v q ->
  (signal false q).1 = take 1 (waiting q) /\
  (signal true q).1 = waiting q /\ waiting (signal true q).2 = [] /\
  consistent self v (signal false q).2 /\ consistent self v (signal true q).2.
Proof. apply signal_ok. Qed.
End Condition.

(** Three freds wait, the second is cancelled. *)
Definition three_waiters : BlockingQueue :=
  cancel_race 1 77 (block_enter 2 (block_enter 1 (block_enter 3 (mkBQ [] (fun _ => 5))))).

Lemma three_waiters_consistent :
  consistent 9 (upd (upd (upd (fun _ => Away) 3%nat Blocked) 1%nat Blocked) 2%nat Blocked) three_waiters.
Proof.
  apply consistent_cancel; [discriminate|discriminate|discriminate|].
  do 3 (apply consistent_enter; [discriminate|reflexivity|]). by apply consistent_init.
Qed.

Lemma signal_correct_witness : (signal 9 true three_waiters).1 = [3%nat; 2%nat].
Proof.
  destruct (signal_correct 9 ltac:(discriminate) _ _ three_waiters_consistent) as (_ & H & _).
  rewrite H. vm_compute. reflexivity.
Defined.

(** * LockedBarrier *)
Record LockedBarrier := mkBarrier { target : Z; counter : Z; bq : BlockingQueue }.

Section Barrier.
Context (self : ptr).

(** [for ( ;counter > 0; counter -= 1) bq.unblock<true>();] *)
Fixpoint release_loop (n : nat) (q : BlockingQueue) : BlockingQueue :=
  match n with O => q | S n' => release_loop n' (unblock self q).2 end.

(** [wait()] under the lock: [true], the last of a round; otherwise the fred
    suspends and [wait] returns [false] afterwards. *)
Definition barrier_wait (f : fid) (b : LockedBarrier) : bool * LockedBarrier :=
  let c := counter b + 1 in
  if c =? target b then (true, mkBarrier (target b) 0 (release_loop (Z.to_nat c) (bq b)))
  else (false, mkBarrier (target b) c (block_enter f (bq b))).

Definition barrier_reset (b : LockedBarrier) : option unit := rassert (empty (bq b)).

(** The barrier in use: [arrivals] counts all calls, [ticket f] is the number of
    [f]'s latest call. *)
Inductive bpc := BIdle | BBlocked.

Record bstate := mkBState {
  barrier : LockedBarrier; bpcs : fid -> bpc; arrivals : Z; ticket : fid -> Z
}.

Inductive blabel := Arrive (f : fid) | Resumed (f : fid).

Definition bstep (l : blabel) (s : bstate) : option bstate :=
  let 'mkBState b pc n tk := s in
  match l with
  | Arrive f =>
      match pc f with
      | BIdle => let '(last, b') := barrier_wait f b in
                 Some (mkBState b' (if last then pc else upd pc f BBlocked) (n + 1) (upd tk f n))
      | _ => None
      end
  | Resumed f =>
      match pc f with
      | BBlocked => if block_won self (resumes (bq b) f) then Some (mkBState b (upd pc f BIdle) n tk) else None
      | _ => None
      end
  end.

Context (t0 : Z).

Definition binit (s : bstate) : Prop :=
  exists r tk, s = mkBState (mkBarrier t0 0 (mkBQ [] r)) (fun _ => BIdle) 0 tk.

Definition bstand (c : bpc) : stand := match c with BIdle => Away | BBlocked => Blocked end.

Record binv (s : bstate) : Prop := mkBInv {
  b_bq : consistent self (bstand ∘ bpcs s) (bq (barrier s));
  b_target : target (barrier s) = t0;
  b_counter : counter (barrier s) = Z.of_nat (length (waiting (bq (barrier s))));
  b_less : 0 <= counter (barrier s) < t0;
  b_arrivals : arrivals s mod t0 = counter (barrier s);
  b_won f : bpcs s f = BBlocked -> resumes (bq (barrier s)) f <> nullptr ->
            resumes (bq (barrier s)) f = self /\ ticket s f / t0 < arrivals s / t0;
  b_waiting f : f ∈ waiting (bq (barrier s)) -> ticket s f / t0 = arrivals s / t0
}.

Hypothesis self_not_null : self <> nullptr.
Hypothesis target_positive : 0 < t0.

Lemma release_loop_ok v n q : consistent self v q -> (length (waiting q) <= n)%nat ->
  consistent self v (release_loop n q) /\ waiting (release_loop n q) = [] /\
  (forall f, resumes (release_loop n q) f = if decide (f ∈ waiting q) then self else resumes q f).
Proof.
  revert q. induction n as [|n IH]; intros q Hc Hl; simpl.
  - destruct (waiting q); [|simpl in Hl; lia]. split_and!; try done.
  - pose proof (unblock_ok self self_not_null _ _ Hc) as Hu.
    destruct (unblock self q) as [[f|] q']; simpl.
    + destruct Hu as (_ & Hf & Hr & Hw & Hc'). rewrite Hw in Hl |- *. simpl in Hl.
      destruct (IH q' Hc' ltac:(lia)) as (H1 & H2 & H3). split_and!; try done.
      intros g. rewrite H3, Hr. destruct (decide (g = f)) as [->|Hne].
      * rewrite upd_eq, (decide_True (P := f ∈ f :: waiting q')) by (by left). by destruct (decide _).
      * rewrite upd_ne by (by apply not_eq_sym). apply decide_ext. rewrite elem_of_cons. naive_solver.
    + destruct Hu as [-> Hw]. apply IH; [done|]. rewrite Hw. simpl. lia.
Qed.

Lemma binit_inv s : binit s -> binv s.
Proof.
  intros (r & tk & ->). split; simpl; try done; try lia.
  - by apply consistent_init.
  - intros f Hf. by apply elem_of_nil in Hf.
Qed.

(** The arrival number of the next round. *)
Lemma next_round n : n mod t0 + 1 = t0 -> (n + 1) mod t0 = 0 /\ (n + 1) / t0 = n / t0 + 1.
Proof.
  intros H. pose proof (Z.div_mod n t0 ltac:(lia)) as Hd.
  assert (He : n + 1 = (n / t0 + 1) * t0) by nia. rewrite He.
  split; [apply Z.mod_mul; lia|apply Z.div_mul; lia].
Qed.

Lemma same_round n : n mod t0 + 1 < t0 -> (n + 1) mod t0 = n mod t0 + 1 /\ (n + 1) / t0 = n / t0.
Proof.
  intros H. pose proof (Z.div_mod n t0 ltac:(lia)) as Hd. pose proof (Z.mod_pos_bound n t0 ltac:(lia)) as Hb.
  split; symmetry; [apply (Z.mod_unique_pos _ _ (n / t0))|apply (Z.div_unique_pos _ _ _ (n mod t0 + 1))]; lia.
Qed.

Lemma barrier_last s f :
  binv s -> bpcs s f = BIdle -> counter (barrier s) + 1 = t0 ->
  binv (mkBState (mkBarrier t0 0 (release_loop (Z.to_nat t0) (bq (barrier s)))) (bpcs s)
          (arrivals s + 1) (upd (ticket s) f (arrivals s))).
Proof.
  intros [Hbq Ht Hc Hl Ha Hw Hwt] Hf Hlast.
  destruct (release_loop_ok _ (Z.to_nat t0) _ Hbq) as (Hbq' & Hnone & Hres); [lia|].
  destruct (next_round (arrivals s)) as [Hm Hd]; [lia|].
  split; cbn [barrier bpcs arrivals ticket target counter bq]; try done; try lia.
  - by rewrite Hnone.
  - intros g Hg. rewrite Hres, Hd. assert (Hne : f <> g) by congruence. rewrite upd_ne by done.
    pose proof (waiting_blocked self self_not_null _ _ g Hbq) as Hwb.
    destruct (decide (g ∈ waiting (bq (barrier s)))) as [Hin|Hin].
    + intros _. split; [done|]. rewrite (Hwt g Hin). lia.
    + intros Hr. destruct (Hw g Hg Hr). split; [done|lia].
  - intros g. rewrite Hnone. intros Hg. by apply elem_of_nil in Hg.
Qed.

Lemma barrier_waits s f :
  binv s -> bpcs s f = BIdle -> counter (barrier s) + 1 <> t0 ->
  binv (mkBState (mkBarrier t0 (counter (barrier s) + 1) (block_enter f (bq (barrier s))))
          (upd (bpcs s) f BBlocked) (arrivals s + 1) (upd (ticket s) f (arrivals s))).
Proof.
  intros [Hbq Ht Hc Hl Ha Hw Hwt] Hf Hlast.
  assert (Hv : (bstand ∘ bpcs s) f = Away) by (unfold compose; by rewrite Hf).
  pose proof (waiting_enter self _ _ _ Hv Hbq) as Hwe.
  destruct (same_round (arrivals s)) as [Hm Hd]; [lia|].
  split; cbn [barrier bpcs arrivals ticket target counter bq]; try done; try lia.
  - rewrite compose_upd. by apply consistent_enter.
  - rewrite Hwe, length_app. simpl. lia.
  - intros g. unfold block_enter. cbn [resumes]. rewrite Hd. at_fred g f; [done|]. apply Hw.
  - intros g. rewrite Hwe, Hd, elem_of_app, list_elem_of_singleton. at_fred g f; [done|]. naive_solver.
Qed.

Lemma bstep_inv l s s' : binv s -> bstep l s = Some s' -> binv s'.
Proof.
  intros Hi Hs. destruct s as [b pc n tk]. destruct l as [f|f]; cbn [bstep] in Hs.
  - destruct (pc f) eqn:Hf; [|done]. pose proof (b_target _ Hi) as Ht. cbn in Ht.
    unfold barrier_wait in Hs. rewrite Ht in Hs. destruct (counter b + 1 =? t0) eqn:E; bool_prop; simplify_eq/=.
    + rewrite E. by apply (barrier_last _ f Hi).
    + by apply (barrier_waits _ f Hi).
  - destruct (pc f) eqn:Hf; [done|]. destruct (block_won self (resumes (bq b) f)) eqn:E; [|done]. simplify_eq.
    unfold block_won in E. bool_prop.
    destruct Hi as [Hbq Ht Hc Hl Ha Hw Hwt]. cbn [barrier bpcs arrivals ticket] in *.
    assert (Hv : (bstand ∘ pc) f = Blocked) by (unfold compose; by rewrite Hf).
    split; cbn [barrier bpcs arrivals ticket]; try done.
    + rewrite compose_upd. pose proof (consistent_wake self self_not_null _ (bq b) f Hv ltac:(congruence) Hbq) as H.
      by rewrite E, Z.eqb_refl in H.
    + intros g. at_fred g f; [done|]. apply Hw.
Qed.

(** A barrier lets freds through in rounds of [target]: a fred comes back
    from its wait only after its own round is complete (every round earlier than
    the current one has had [target] arrivals); [true] goes to the arrival that
    completes a round; the freds of a complete round have all been resumed. *)
Theorem barrier_rounds s f :
  reachable binit bstep s ->
  (bpcs s f = BBlocked -> forall s', bstep (Resumed f) s = Some s' -> (ticket s f / t0 + 1) * t0 <= arrivals s) /\
  (bpcs s f = BIdle -> (barrier_wait f (barrier s)).1 = true <-> (arrivals s + 1) mod t0 = 0) /\
  (bpcs s f = BBlocked -> ticket s f / t0 < arrivals s / t0 -> resumes (bq (barrier s)) f = self).
Proof.
  intros Hr. assert (Hi : binv s).
  { revert s Hr. apply invariant_rule; [apply binit_inv|]. intros ? ? ?. apply bstep_inv. }
  destruct Hi as [Hbq Ht Hc Hl Ha Hw Hwt]. split_and!.
  - intros Hf s' Hs. destruct s as [b pc n tk]. cbn [bstep barrier bpcs ticket arrivals] in *. rewrite Hf in Hs.
    destruct (block_won self (resumes (bq b) f)) eqn:E; [|done]. unfold block_won in E. bool_prop.
    destruct (Hw f Hf ltac:(congruence)) as [_ Hlt].
    pose proof (Z.div_mod n t0 ltac:(lia)). pose proof (Z.mod_pos_bound n t0 ltac:(lia)). nia.
  - intros Hf. unfold barrier_wait. rewrite Ht. destruct (counter (barrier s) + 1 =? t0) eqn:E; bool_prop; simpl.
    + split; [intros _|done]. apply next_round. lia.
    + split; [done|]. destruct (same_round (arrivals s)) as [Hm _]; [lia|]. lia.
  - intros Hf Hlt. destruct (decide (resumes (bq (barrier s)) f = nullptr)) as [Hn|Hn]; [|by apply Hw].
    assert (Hin : f ∈ waiting (bq (barrier s))).
    { apply (waiting_blocked self self_not_null _ _ f Hbq). unfold compose. by rewrite Hf. }
    specialize (Hwt f Hin). lia.
Qed.
End Barrier.

Definition barrier_start : bstate := mkBState (mkBarrier 2 0 (mkBQ [] (fun _ => 1))) (fun _ => BIdle) 0 (fun _ => 0).

Lemma barrier_rounds_witness :
  let s := after (bstep 9) barrier_start [Arrive 4; Arrive 5; Arrive 6] in
  resumes (bq (barrier s)) 4 = 9 /\ bpcs s 6 = BBlocked.
Proof.
  assert (Hr : reachable (binit 2) (bstep 9) (after (bstep 9) barrier_start [Arrive 4; Arrive 5; Arrive 6])).
  { apply after_reachable; [by exists (fun _ => 1), (fun _ => 0)|vm_compute; by eexists]. }
  split; [|reflexivity].
  apply (barrier_rounds 9 2 ltac:(discriminate) ltac:(lia) _ 4 Hr); reflexivity.
Defined.

(** * SynchronizedFlag, Joinable, SyncPoint

    The union of [waiter] and [state] is one word: the address of the waiting
    fred, or one of the states. *)
Module Flag.
Definition Running : Z := 0.
Definition Dummy : Z := 1.
Definition Posted : Z := 2.
Definition Detached : Z := 4.
Definition Invalid : Z := Dummy.

Definition posted (w : Z) : bool := w =? Posted.
Definition detached (w : Z) : bool := w =? Detached.

(** [wait] before the suspension: [None] when it goes on at once to test the
    state. *)
Definition wait_begin (cf : ptr) (w : Z) : option Z := if w =? Running then Some cf else None.

(** [wait] after it: [false], detached; [None], [RABORT]. *)
Definition wait_end (w : Z) : option bool :=
  if w =? Posted then Some true else if w =? Detached then Some false else None.

(** [post()]: the result, the fred to resume and the new word. *)
Definition post (w : Z) : option (bool * option ptr * Z) :=
  rassert (negb (w =? Posted));;
  if w =? Detached then Some (false, None, w)
  else Some (true, (if w =? Running then None else Some w), Posted).

Definition detach (w : Z) : option (option ptr * Z) :=
  rassert (negb (w =? Detached) && negb (w =? Posted));;
  Some ((if w =? Running then None else Some w), Detached).
End Flag.

(** [Joinable<Runner, Result>]: the second union holds the runner until a
    result is stored. *)
Record Joinable := mkJoinable { flag : Z; runner_or_result : Z }.

(** The value [wait(bl, r)] delivers, and what it returns. *)
Definition join_end (j : Joinable) : option (bool * Z) :=
  b ← Flag.wait_end (flag j); Some (b, if (b : bool) then runner_or_result j else 0).

Definition join_post (r : Z) (j : Joinable) : option (bool * option ptr * Joinable) :=
  '(ok, next, w) ← Flag.post (flag j);
  Some (ok, next, mkJoinable w (if (ok : bool) then r else runner_or_result j)).

Definition join_detach (j : Joinable) : option (option ptr * Joinable) :=
  '(next, w) ← Flag.detach (flag j); Some (next, mkJoinable w (runner_or_result j)).

(** One runner that posts its result once, one joiner, and somebody who may
    detach instead (before the post, as [pthread_detach] demands).  Each call
    holds the lock except while the joiner is suspended. *)
Section Join.
Context (joiner : ptr).

Inductive jpc := JStart | JSuspended | JTest | JDone (res : bool * Z).

Record jstate := mkJState {
  join : Joinable; jp : jpc;
  resumed : bool;              (* resume() was called for the joiner *)
  posted : option Z;           (* the result the runner posted *)
  jaborted : bool
}.

Inductive jlabel := WaitBegin | Awake | WaitEnd | Post (r : Z) | Detach.

Definition jstep (l : jlabel) (s : jstate) : option jstate :=
  let 'mkJState j p re po ab := s in
  match l, p with
  | WaitBegin, JStart =>
      match Flag.wait_begin joiner (flag j) with
      | Some w => Some (mkJState (mkJoinable w (runner_or_result j)) JSuspended re po ab)
      | None => Some (mkJState j JTest re po ab)
      end
  | Awake, JSuspended => if re then Some (mkJState j JTest re po ab) else None
  | WaitEnd, JTest =>
      match join_end j with
      | Some r => Some (mkJState j (JDone r) re po ab)
      | None => Some (mkJState j p re po true)
      end
  | Post r, _ =>
      match po with
      | Some _ => None
      | None =>
          match join_post r j with
          | Some (ok, next, j') => Some (mkJState j' p (re || bool_decide (next = Some joiner)) (Some r) ab)
          | None => Some (mkJState j p re po true)
          end
      end
  | Detach, _ =>
      if Flag.posted (flag j) || Flag.detached (flag j) then None else
      match join_detach j with
      | Some (next, j') => Some (mkJState j' p (re || bool_decide (next = Some joiner)) po ab)
      | None => Some (mkJState j p re po true)
      end
  | _, _ => None
  end.

Definition jinit (s : jstate) : Prop :=
  exists runner, s = mkJState (mkJoinable Flag.Running runner) JStart false None false.

Definition jinv (s : jstate) : Prop :=
  let w := flag (join s) in
  jaborted s = false /\
  (w = Flag.Running /\ posted s = None /\ resumed s = false /\ jp s = JStart \/
   w = joiner /\ posted s = None /\ resumed s = false /\ jp s = JSuspended \/
   w = Flag.Posted /\ posted s = Some (runner_or_result (join s)) /\
     (jp s = JSuspended -> resumed s = true) /\
     (forall b r, jp s = JDone (b, r) -> b = true /\ posted s = Some r) \/
   w = Flag.Detached /\ (jp s = JSuspended -> resumed s = true) /\
     (forall b r, jp s = JDone (b, r) -> b = false /\ r = 0)).

Hypothesis joiner_address : joiner <> Flag.Running /\ joiner <> Flag.Posted /\ joiner <> Flag.Detached.

Lemma jstep_inv l s s' : jinv s -> jstep l s = Some s' -> jinv s'.
Proof.
  destruct joiner_address as (H0 & H2 & H4).
  destruct s as [[w x] p re po ab]. unfold jinv. cbn. intros [-> Hi] Hs.
  unfold jstep, Flag.wait_begin, join_end, Flag.wait_end, join_post, Flag.post, join_detach, Flag.detach,
    Flag.posted, Flag.detached, rassert in Hs. cbn in Hs.
  assert (Hw : w = Flag.Running \/ w = joiner \/ w = Flag.Posted \/ w = Flag.Detached) by naive_solver.
  unfold Flag.Running, Flag.Posted, Flag.Detached in *.
  apply Z.eqb_neq in H0 as E0, H2 as E2, H4 as E4.
  destruct Hw as [-> |[-> |[-> | ->]]]; rewrite ?E0, ?E2, ?E4 in Hs; cbn in Hs.
  all: destruct l; repeat split_match_in Hs; simplify_eq/=; rewrite ?(bool_decide_eq_true_2 (Some joiner = _)) by done;
    naive_solver.
Qed.

(** Joining: the joiner's [wait] returns [true] with exactly the result the
    runner posted, or [false] and 0 when the runner was detached; it is resumed
    as soon as one of the two has happened and not before; no [RABORT] and no
    assertion is reached. *)
Theorem join_correct s :
  reachable jinit jstep s ->
  jaborted s = false /\
  (forall b r, jp s = JDone (b, r) ->
     b = true /\ posted s = Some r \/ b = false /\ r = 0 /\ flag (join s) = Flag.Detached) /\
  (jp s = JSuspended ->
     (resumed s = true <-> flag (join s) = Flag.Posted \/ flag (join s) = Flag.Detached) /\
     (is_Some (posted s) -> resumed s = true)).
Proof.
  intros Hr. assert (Hi : jinv s).
  { revert s Hr. apply invariant_rule; [|intros ? ? ?; apply jstep_inv]. intros s (runner & ->).
    split; [done|]. by left. }
  destruct joiner_address as (H0 & H2 & H4). destruct Hi as [Hab Hi]. split_and!; [done| |].
  - intros b r Hj. destruct Hi as [(_ & _ & _ & E)|[(_ & _ & _ & E)|[(Hw & _ & _ & Hd)|(Hw & _ & Hd)]]];
      [congruence|congruence| |].
    + left. by apply Hd.
    + right. destruct (Hd b r Hj) as [-> ->]. by split_and!.
  - intros Hj. destruct Hi as [(_ & _ & _ & E)|[(Hw & Hp & Hre & _)|[(Hw & Hp & Hre & _)|(Hw & Hre & _)]]];
      [congruence| | |].
    + rewrite Hw, Hp, Hre. split; [|by intros [? ?]]. split; [done|]. by intros [?|?].
    + rewrite (Hre Hj). split; [|done]. split; [by left|done].
    + rewrite (Hre Hj). split; [|done]. split; [by right|done].
Qed.
End Join.

Definition jstart : jstate := mkJState (mkJoinable Flag.Running 4096) JStart false None false.

Lemma join_correct_witness :
  let s := after (jstep 8192) jstart [WaitBegin; Post 42; Awake; WaitEnd] in
  jp s = JDone (true, 42) /\ posted s = Some 42.
Proof.
  assert (Hr : reachable jinit (jstep 8192) (after (jstep 8192) jstart [WaitBegin; Post 42; Awake; WaitEnd])).
  { apply after_reachable; [by exists 4096|vm_compute; by eexists]. }
  split; [reflexivity|].
  destruct (join_correct 8192 ltac:(split_and!; discriminate) _ Hr) as (_ & Hd & _).
  destruct (Hd true 42 eq_refl) as [[_ H]|[H _]]; [exact H|discriminate].
Defined.
