(* ===== verification/SpinMutexes.v ===== *)
(** The mutexes that spin before they block, src/src/runtime/BlockingSync.h:
    the loop [Spin], [ConditionalQueue] with [SpinCondMutex] (the library's
    [FredMutex]), [Benaphore] (Benaphore.h), [FredBenaphore],
    [LimitedSemaphore0] with [SpinSemMutex] (the library's [FastMutex]).  The
    accesses to shared words are single steps; any number of freds. *)

From S2P Require Import Prelude Words Times Freds BlockingQueues.
Local Open Scope Z_scope.

(** * Spin: counters of the loop; one round calls [tryLock] once *)
Record Spinning := mkSpin { spin : Z; scnt : Z; ycnt : Z }.

Section Spin.
Context (SpinStart SpinEnd SpinCount YieldCount : Z).

Definition spin_start : Spinning := mkSpin SpinStart 0 0.

(** After a failed [tryLock]: another round, or [return false]. *)
Definition spin_next (s : Spinning) : option Spinning :=
  if scnt s <? SpinCount then
    Some (if spin s <? SpinEnd then mkSpin (spin s + spin s) (scnt s) (ycnt s)
          else mkSpin (spin s) (scnt s + 1) (ycnt s))
  else if ycnt s <? YieldCount then Some (mkSpin (spin s) (scnt s) (ycnt s + 1))
  else None.

(** The rounds left when every [tryLock] fails. *)
Fixpoint spin_rounds (fuel : nat) (s : Spinning) : option nat :=
  match fuel with
  | O => None
  | S n => match spin_next s with
           | None => Some 1%nat
           | Some s' => k ← spin_rounds n s'; Some (S k)
           end
  end.

Definition spin_measure (s : Spinning) : Z :=
  Z.max 0 (SpinEnd - spin s) + Z.max 0 (SpinCount - scnt s) + Z.max 0 (YieldCount - ycnt s).

Lemma spin_next_measure s s' : 0 < spin s -> spin_next s = Some s' ->
  0 < spin s' /\ spin_measure s' < spin_measure s.
Proof.
  unfold spin_next, spin_measure. intros Hp Hs. repeat split_match_in Hs; simplify_eq/=; bool_prop; lia.
Qed.

Lemma spin_ends s n : 0 < spin s -> spin_measure s < Z.of_nat n -> exists k, spin_rounds n s = Some k.
Proof.
  revert s. induction n as [|n IH]; intros s Hp Hm; [unfold spin_measure in Hm; lia|]. simpl.
  destruct (spin_next s) as [s'|] eqn:E; [|by eexists].
  destruct (spin_next_measure _ _ Hp E) as [Hp' Hlt]. destruct (IH s' Hp' ltac:(lia)) as [k ->]. by eexists.
Qed.
End Spin.

(** The library's parameters: 4, 1024, 16, 0. *)
Example fast_mutex_rounds : spin_rounds 1024 16 0 30 (spin_start 4) = Some 25%nat.
Proof. reflexivity. Qed.

(** * SpinCondMutex over ConditionalQueue *)
Module Cond.
Section Cond.
Context (self : ptr).                               (* the queue's address *)
Context (SpinStart SpinEnd SpinCount YieldCount : Z).

(** What a fred is doing; [a] says how it may wait. *)
Inductive pc :=
| Idle
| TryOnly                                           (* tryAcquire(): one tryLock1 *)
| Try1 (spin : Z) (a : wait_arg)                    (* the first spin loop *)
| Try2 (st : Spinning) (a : wait_arg)               (* in Spin<...>(tryLock2) *)
| QTest (a : wait_arg)                              (* queue.block(): about to lock and test *)
| QPush (a : wait_arg)                              (* value was 2; queue locked *)
| Blocked (a : wait_arg)
| Cancelled                                         (* about to remove its node *)
| Try3 (a : wait_arg)                               (* tryLock2 after the queue *)
| SetOwner                                          (* has the mutex, owner not yet written *)
| Inside
| ClearOwner | SwapOut                              (* in release() *)
| Unblock.                                          (* released; about to call queue.unblock *)

Record state := mkState {
  value : Z; owner : option fid;
  bq : BlockingQueue; qlock : option fid;
  pcs : fid -> pc; holder : option fid;             (* who has the mutex (ghost) *)
  aborted : bool
}.

Inductive label :=
| Acquire (f : fid) (a : wait_arg) | Go (f : fid) | Timed (f : fid) (now : Time)
| Release (f : fid) | Cancel (f : fid) (p : ptr).

(** [tryLock1]: compare-and-swap of 1 for 0; the value seen. *)
Definition tryLock1 (v : Z) : Z * Z := if v =? 0 then (0, 1) else (v, v).
(** [tryLock2]: exchange with 2. *)
Definition tryLock2 (v : Z) : Z * Z := (v, 2).

(** What comes after a failed first attempt. *)
Definition after_try1 (spn exp : Z) (a : wait_arg) : pc :=
  if exp =? 2 then Try2 (spin_start SpinStart) a
  else if spn <? SpinEnd then Try1 (spn + spn) a else Try2 (spin_start SpinStart) a.

Definition step (l : label) (s : state) : option state :=
  let 'mkState v o q ql pc hd ab := s in
  let goto f c := mkState v o q ql (upd pc f c) hd ab in
  let got f v' := mkState v' o q ql (upd pc f SetOwner) (Some f) ab in
  match l with
  | Acquire f a =>
      match pc f with
      | Idle =>
          if bool_decide (o = Some f) then Some (mkState v o q ql pc hd true)
          else Some (goto f (match a with Wait false => TryOnly | _ => Try1 SpinStart a end))
      | _ => None
      end
  | Go f =>
      match pc f with
      | TryOnly => let '(e, v') := tryLock1 v in Some (if e =? 0 then got f v' else goto f Idle)
      | Try1 spn a => let '(e, v') := tryLock1 v in Some (if e =? 0 then got f v' else goto f (after_try1 spn e a))
      | Try2 st a =>
          let '(e, v') := tryLock2 v in
          Some (if e =? 0 then got f v'
                else mkState v' o q ql (upd pc f (match spin_next SpinEnd SpinCount YieldCount st with
                                                  | Some st' => Try2 st' a | None => QTest a end)) hd ab)
      | QTest a =>
          match ql with
          | Some _ => None
          | None => if v =? 2 then Some (mkState v o q (Some f) (upd pc f (QPush a)) hd ab)
                    else Some (goto f (Try3 a))
          end
      | Blocked a =>
          if resumes q f =? nullptr then None
          else Some (goto f (if block_won self (resumes q f) then Try3 a else Cancelled))
      | Cancelled =>
          match ql with
          | None => Some (mkState v o (block_cleanup f q) ql (upd pc f Idle) hd ab)
          | Some _ => None
          end
      | Try3 a =>
          let '(e, v') := tryLock2 v in
          Some (if e =? 0 then got f v' else mkState v' o q ql (upd pc f (QTest a)) hd ab)
      | SetOwner => Some (mkState v (Some f) q ql (upd pc f Inside) hd ab)
      | ClearOwner => Some (mkState v None q ql (upd pc f SwapOut) hd ab)
      | SwapOut => Some (mkState 0 o q ql (upd pc f (if v =? 1 then Idle else Unblock)) None ab)
      | Unblock =>
          match ql with
          | None => Some (mkState v o (unblock self q).2 ql (upd pc f Idle) hd ab)
          | Some _ => None
          end
      | _ => None
      end
  | Timed f now =>                                  (* BlockingQueue::block under the queue's lock *)
      match pc f with
      | QPush a => Some (if block_suspends a now
                         then mkState v o (block_enter f q) None (upd pc f (Blocked a)) hd ab
                         else mkState v o q None (upd pc f Idle) hd ab)
      | _ => None
      end
  | Release f =>
      match pc f with
      | Inside => Some (if 0 <? v then goto f ClearOwner else mkState v o q ql pc hd true)
      | _ => None
      end
  | Cancel f p =>
      if (p =? nullptr) || (p =? self) then None
      else Some (mkState v o (cancel_race f p q) ql pc hd ab)
  end.

Definition init (s : state) : Prop :=
  exists r, s = mkState 0 None (mkBQ [] r) None (fun _ => Idle) None false.

Definition stand_of (c : pc) : stand :=
  match c with Blocked _ => BlockingQueues.Blocked | Cancelled => BlockingQueues.Cancelled | _ => Away end.

(** Has the mutex, from the winning access to the exchange in [release]. *)
Definition has (c : pc) : bool :=
  match c with SetOwner | Inside | ClearOwner | SwapOut => true | _ => false end.
Definition owns (c : pc) : bool := match c with Inside | ClearOwner => true | _ => false end.

Definition pushing (c : pc) : bool := match c with QPush _ => true | _ => false end.

(** A fred that will look after the waiting ones: it will call [unblock], or it
    will mark the mutex contended. *)
Definition carer (s : state) (f : fid) : Prop :=
  match pcs s f with
  | Unblock | Try3 _ => True
  | Blocked _ => resumes (bq s) f = self
  | _ => False
  end.

Record inv (s : state) : Prop := mkInv {
  i_bq : consistent self (stand_of ∘ pcs s) (bq s);
  i_holder : tracks (holder s) has (pcs s);
  i_value : 0 <= value s <= 2 /\ (value s = 0 <-> holder s = None);
  i_owner : tracks (owner s) owns (pcs s);
  i_qlock : tracks (qlock s) pushing (pcs s);
  i_push f : pushing (pcs s f) = true -> value s = 2 \/ exists g, pcs s g = Unblock;
  i_care : waiting (bq s) <> [] -> value s = 2 \/ exists g, carer s g;
  i_ab : aborted s = false
}.

Hypothesis self_not_null : self <> nullptr.
Hypothesis spin_positive : 0 < SpinStart.

Ltac fields := cbn [value owner bq qlock pcs holder aborted] in *.

Lemma cond_init_inv s : init s -> inv s.
Proof.
  intros (r & ->). split; fields; try done; try lia. by apply consistent_init.
Qed.

(** [f] moves to [c] without touching the queue. *)
Lemma cond_move_ok v o q ql pc hd f c v' o' ql' hd' :
  inv (mkState v o q ql pc hd false) -> stand_of c = stand_of (pc f) ->
  0 <= v' <= 2 /\ (v' = 0 <-> hd' = None) ->
  tracks hd' has (upd pc f c) -> tracks o' owns (upd pc f c) -> tracks ql' pushing (upd pc f c) ->
  (v = 2 -> v' = 2 \/ c = Unblock) ->
  (pc f = Unblock -> False) -> (pushing c = true -> v' = 2) ->
  (forall a, pc f = Try3 a -> v' = 2) ->
  (forall a, pc f <> Blocked a) ->
  inv (mkState v' o' q ql' (upd pc f c) hd' false).
Proof.
  intros [Hbq Hh Hv Ho Hql Hp Hca _] Hc Hv' Hh' Ho' Hql' Hval Hunb Hpush Htry Hblk. fields.
  assert (Hkeep : forall g, g <> f -> upd pc f c g = pc g) by (intros g Hg; by rewrite upd_ne by (by apply not_eq_sym)).
  split; fields; try done.
  - rewrite compose_upd, Hc. eapply consistent_proper; [|reflexivity|exact Hbq]. intros g. by at_fred g f.
  - intros g. destruct (decide (g = f)) as [->|Hne].
    + rewrite upd_eq. intros H. left. by apply Hpush.
    + rewrite Hkeep by done. intros H. destruct (Hp g H) as [H2|[u Hu]].
      * destruct (Hval H2) as [?|Hc2]; [by left|]. right. exists f. by rewrite upd_eq, Hc2.
      * right. exists u. rewrite Hkeep; [done|]. by intros ->.
  - intros Hw. destruct (Hca Hw) as [H2|[u Hu]].
    + destruct (Hval H2) as [?|Hc2]; [by left|]. right. exists f. unfold carer. fields. by rewrite upd_eq, Hc2.
    + unfold carer in Hu. fields. destruct (decide (u = f)) as [->|Hne].
      * destruct (pc f) eqn:E; try done; [by destruct (Hblk a)|]. left. by eapply Htry.
      * right. exists u. unfold carer. fields. by rewrite Hkeep.
Qed.

(** [f] moves to [c] and the queue changes to [q']. *)
Lemma queue_ok v o q ql pc hd f c q' ql' :
  inv (mkState v o q ql pc hd false) ->
  consistent self (upd (stand_of ∘ pc) f (stand_of c)) q' ->
  has c = has (pc f) -> owns c = owns (pc f) -> tracks ql' pushing (upd pc f c) -> pushing c = false ->
  (forall g, g <> f -> resumes q g = self -> resumes q' g = self) ->
  (pc f = Unblock -> (forall g, pushing (pc g) = false) /\ (waiting q' = [] \/ exists g a, g <> f /\ pc g = Blocked a /\ resumes q' g = self)) ->
  (waiting q' <> [] -> waiting q <> [] \/ v = 2 \/ exists g, g <> f /\ carer (mkState v o q ql pc hd false) g) ->
  (carer (mkState v o q ql pc hd false) f -> pc f = Unblock \/ exists a, c = Try3 a) ->
  inv (mkState v o q' ql' (upd pc f c) hd false).
Proof.
  intros [Hbq Hh Hv Ho Hql Hp Hca _] Hcon Hhas Howns Htr Hpc Hres Hunb Hwait Hcarer. fields.
  assert (Hkeep : forall g, g <> f -> upd pc f c g = pc g) by (intros g Hg; by rewrite upd_ne by (by apply not_eq_sym)).
  assert (Hold : forall g, g <> f -> carer (mkState v o q ql pc hd false) g -> carer (mkState v o q' ql' (upd pc f c) hd false) g).
  { intros g Hg Hc. unfold carer in *. fields. rewrite Hkeep by done. destruct (pc g); try done. by apply Hres. }
  split; fields; try done.
  - by rewrite compose_upd.
  - by apply tracks_same.
  - by apply tracks_same.
  - intros g Hg. destruct (decide (g = f)) as [->|Hne]; [rewrite upd_eq in Hg; congruence|].
    rewrite Hkeep in Hg by done. destruct (Hp g Hg) as [?|[u Hu]]; [by left|]. right. exists u.
    rewrite Hkeep; [done|]. intros ->. destruct (Hunb Hu) as [Hno _]. by rewrite Hno in Hg.
  - intros Hw. assert (Hcase : v = 2 \/ exists g, carer (mkState v o q ql pc hd false) g).
    { destruct (Hwait Hw) as [Hw'|[?|(g & _ & Hg)]]; [by apply Hca|by left|right; by exists g]. }
    destruct Hcase as [?|[g Hg]]; [by left|]. right. destruct (decide (g = f)) as [->|Hne]; [|exists g; by apply Hold].
    destruct (Hcarer Hg) as [Hu|[a Ha]].
    + destruct (Hunb Hu) as [_ [Hnil|(x & a & Hx & Hpx & Hrx)]]; [done|]. exists x. unfold carer. fields.
      by rewrite Hkeep, Hpx.
    + exists f. unfold carer. fields. by rewrite upd_eq, Ha.
Qed.

Lemma qlock_free v o q pc hd f : inv (mkState v o q None pc hd false) -> pushing (pc f) = false.
Proof.
  intros Hi. pose proof (i_qlock _ Hi f) as H. fields. destruct (pushing (pc f)); [|done]. by destruct H as [_ H]; discriminate H.
Qed.

Lemma enter_ok v o q ql pc hd f a :
  inv (mkState v o q ql pc hd false) -> pc f = QPush a ->
  inv (mkState v o (block_enter f q) None (upd pc f (Blocked a)) hd false).
Proof.
  intros Hi Hf. pose proof Hi as [Hbq Hh Hv Ho Hql Hp Hca _]. fields.
  assert (Hst : (stand_of ∘ pc) f = Away) by (unfold compose; by rewrite Hf).
  assert (Hlk : ql = Some f) by (apply Hql; by rewrite Hf).
  eapply (queue_ok v o q ql); [exact Hi|..]; rewrite ?Hf; try done.
  - by apply consistent_enter.
  - apply (tracks_lose _ _ f); [by rewrite <- Hlk|done].
  - intros g Hg. unfold block_enter. cbn [resumes]. by rewrite upd_ne by (by apply not_eq_sym).
  - intros _. destruct (Hp f) as [?|[u Hu]]; [by rewrite Hf|by right; left|]. right; right. exists u.
    split; [congruence|]. unfold carer. fields. by rewrite Hu.
  - unfold carer. fields. by rewrite Hf.
Qed.

Lemma cond_wake_ok v o q ql pc hd f a :
  inv (mkState v o q ql pc hd false) -> pc f = Blocked a -> resumes q f <> nullptr ->
  inv (mkState v o q ql (upd pc f (if block_won self (resumes q f) then Try3 a else Cancelled)) hd false).
Proof.
  intros Hi Hf Hr. pose proof Hi as [Hbq Hh Hv Ho Hql Hp Hca _]. fields.
  assert (Hst : (stand_of ∘ pc) f = BlockingQueues.Blocked) by (unfold compose; by rewrite Hf).
  pose proof (consistent_wake self self_not_null _ q f Hst Hr Hbq) as Hcw.
  unfold block_won. eapply (queue_ok v o q ql); [exact Hi|..]; rewrite ?Hf; try done.
  - by destruct (resumes q f =? self).
  - by destruct (resumes q f =? self).
  - by destruct (resumes q f =? self).
  - apply tracks_same; [done|]. rewrite Hf. by destruct (resumes q f =? self).
  - by destruct (resumes q f =? self).
  - intros Hw. by left.
  - unfold carer. fields. rewrite Hf. intros Hs. right. apply Z.eqb_eq in Hs. rewrite Hs. by exists a.
Qed.

Lemma cond_cleanup_ok v o q pc hd f :
  inv (mkState v o q None pc hd false) -> pc f = Cancelled ->
  inv (mkState v o (block_cleanup f q) None (upd pc f Idle) hd false).
Proof.
  intros Hi Hf. pose proof Hi as [Hbq Hh Hv Ho Hql Hp Hca _]. fields.
  assert (Hst : (stand_of ∘ pc) f = BlockingQueues.Cancelled) by (unfold compose; by rewrite Hf).
  eapply (queue_ok v o q None); [exact Hi|..]; rewrite ?Hf; try done.
  - by apply consistent_cleanup.
  - apply tracks_same; [done|]. by rewrite Hf.
  - rewrite (waiting_cleanup self _ _ _ Hst Hbq). by left.
  - unfold carer. fields. by rewrite Hf.
Qed.

Lemma unblock_step_ok v o q pc hd f :
  inv (mkState v o q None pc hd false) -> pc f = Unblock ->
  inv (mkState v o (unblock self q).2 None (upd pc f Idle) hd false).
Proof.
  intros Hi Hf. pose proof Hi as [Hbq Hh Hv Ho Hql Hp Hca _]. fields.
  pose proof (unblock_ok self self_not_null _ _ Hbq) as Hu.
  assert (Hsame : forall q', consistent self (stand_of ∘ pc) q' -> consistent self (upd (stand_of ∘ pc) f Away) q').
  { intros q' H. eapply consistent_proper; [|reflexivity|exact H]. intros g. at_fred g f; [|done].
    unfold compose. by rewrite Hf. }
  destruct (unblock self q) as [[g|] q'].
  - destruct Hu as (Hv' & Hr & Hr' & Hw & Hc'). assert (Hg : exists a, pc g = Blocked a) by
      (unfold compose in Hv'; destruct (pc g); try done; by eexists). destruct Hg as [a Hg].
    eapply (queue_ok v o q None); [exact Hi|..]; rewrite ?Hf; try done.
    + by apply Hsame.
    + apply tracks_same; [done|]. by rewrite Hf.
    + intros x _. cbn. rewrite Hr'. at_fred x g; done.
    + intros _. split; [intros x; by eapply qlock_free|]. right. exists g, a. cbn. rewrite Hr', upd_eq.
      split_and!; try done. intros ->. congruence.
    + intros _. left. by rewrite Hw.
    + intros _. by left.
  - destruct Hu as [-> Hw]. eapply (queue_ok v o q None); [exact Hi|..]; rewrite ?Hf; try done.
    + by apply Hsame.
    + apply tracks_same; [done|]. by rewrite Hf.
    + intros _. split; [intros x; by eapply qlock_free|]. by left.
    + intros _. by left.
Qed.

Lemma cond_cancel_ok v o q ql pc hd f p :
  inv (mkState v o q ql pc hd false) -> p <> nullptr -> p <> self ->
  inv (mkState v o (cancel_race f p q) ql pc hd false).
Proof.
  intros [Hbq Hh Hv Ho Hql Hp Hca _] Hpn Hps. fields. split; fields; try done.
  - by apply consistent_cancel.
  - rewrite waiting_cancel by done. intros Hne. destruct Hca as [?|[g Hg]]; [|by left|].
    + intros E. by rewrite E in Hne.
    + right. exists g. unfold carer in *. fields. destruct (pc g); try done.
      unfold cancel_race. destruct (resumes q f =? nullptr) eqn:E; [|done]. bool_prop. cbn.
      at_fred g f; [congruence|done].
Qed.

(** A fred outside the mutex and the queue moves on, [value] changing to [v']
    at most by becoming 2. *)
Lemma outside_ok v o q ql pc hd f c v' :
  inv (mkState v o q ql pc hd false) ->
  stand_of (pc f) = Away -> has (pc f) = false -> pushing (pc f) = false -> pc f <> Unblock ->
  stand_of c = Away -> has c = false -> pushing c = false ->
  (v' = v \/ v' = 2 /\ v <> 0) -> (forall a, pc f = Try3 a -> v' = 2) ->
  inv (mkState v' o q ql (upd pc f c) hd false).
Proof.
  intros Hi Hs Hh Hp Hu Hs' Hh' Hp' Hv' Ht. pose proof Hi as [Hbq Hhd Hv Ho Hql Hpu Hca _]. fields.
  apply (cond_move_ok v o q ql pc hd); try done.
  - by rewrite Hs, Hs'.
  - destruct Hv' as [->|[-> Hn]]; [done|]. split; [lia|]. split; [done|]. intros Hn2. destruct Hv as [_ [_ Hv]]. by apply Hv in Hn2.
  - apply tracks_same; [done|]. by rewrite Hh, Hh'.
  - apply tracks_same; [done|]. destruct (pc f), c; done.
  - apply tracks_same; [done|]. by rewrite Hp, Hp'.
  - destruct Hv' as [->|[-> _]]; by left.
  - by rewrite Hp'.
  - intros a Ha. by rewrite Ha in Hs.
Qed.

(** A fred finds [value] 0 and takes the mutex. *)
Lemma got_ok v o q ql pc hd f v' :
  inv (mkState v o q ql pc hd false) -> v = 0 -> v' = 1 \/ v' = 2 ->
  stand_of (pc f) = Away -> has (pc f) = false -> pushing (pc f) = false -> pc f <> Unblock ->
  (forall a, pc f = Try3 a -> v' = 2) ->
  inv (mkState v' o q ql (upd pc f SetOwner) (Some f) false).
Proof.
  intros Hi -> Hv' Hs Hh Hp Hu Ht. pose proof Hi as [Hbq Hhd Hv Ho Hql Hpu Hca _]. fields.
  assert (Hnone : hd = None) by (by apply Hv). subst hd.
  apply (cond_move_ok 0 o q ql pc None); try done; try lia.
  - split; [lia|]. split; [lia|done].
  - by apply tracks_gain.
  - apply tracks_same; [done|]. by destruct (pc f).
  - apply tracks_same; [done|]. by rewrite Hp.
  - intros a Ha. by rewrite Ha in Hs.
Qed.

Ltac outside Ei := eapply outside_ok; [eassumption|..]; rewrite ?Ei; try done; auto.

Lemma inside_ok v o q ql pc hd f c o' :
  inv (mkState v o q ql pc hd false) -> has (pc f) = true -> has c = true ->
  tracks o' owns (upd pc f c) ->
  inv (mkState v o' q ql (upd pc f c) hd false).
Proof.
  intros Hi Hh Hc Ho'. pose proof Hi as [Hbq Hhd Hv Ho Hql Hpu Hca _]. fields.
  apply (cond_move_ok v o q ql pc hd); try done.
  - by destruct (pc f), c.
  - apply tracks_same; [done|]. by rewrite Hh, Hc.
  - apply tracks_same; [done|]. by destruct (pc f), c.
  - by left.
  - by destruct (pc f).
  - by destruct c.
  - intros a Ha. by rewrite Ha in Hh.
  - intros a Ha. by rewrite Ha in Hh.
Qed.

Lemma swap_out_ok v o q ql pc hd f :
  inv (mkState v o q ql pc hd false) -> pc f = SwapOut ->
  inv (mkState 0 o q ql (upd pc f (if v =? 1 then Idle else Unblock)) None false).
Proof.
  intros Hi Hf. pose proof Hi as [Hbq Hhd Hv Ho Hql Hpu Hca _]. fields.
  assert (Hhold : hd = Some f) by (apply Hhd; by rewrite Hf). subst hd.
  assert (Hv0 : v <> 0) by (intros H; by apply Hv in H).
  apply (cond_move_ok v o q ql pc (Some f)); rewrite ?Hf; try done.
  - by destruct (v =? 1).
  - apply (tracks_lose _ _ f); [done|]. by destruct (v =? 1).
  - apply tracks_same; [done|]. rewrite Hf. by destruct (v =? 1).
  - apply tracks_same; [done|]. rewrite Hf. by destruct (v =? 1).
  - intros ->. by right.
  - by destruct (v =? 1).
Qed.

Lemma cond_step_inv l s s' : inv s -> step l s = Some s' -> inv s'.
Proof.
  destruct s as [v o q ql pc hd ab]. intros Hi Hs. pose proof (i_ab _ Hi) as Hab. cbn in Hab. subst ab.
  pose proof Hi as [Hbq Hhd Hv Ho Hql Hpu Hca _]. fields.
  destruct l as [f a|f|f now|f|f p]; cbn [step] in Hs.
  - destruct (pc f) eqn:Ef; try done. case_bool_decide as Hown; simplify_eq.
    + pose proof (proj1 (Ho f) eq_refl) as H. by rewrite Ef in H.
    + destruct a as [[]|]; outside Ef.
  - destruct (pc f) as [| |spn a|st a|a|a|a| |a| | | | |] eqn:Ef; try done; unfold tryLock1, tryLock2 in Hs.
    + destruct (v =? 0) eqn:E; bool_prop; cbn in Hs.
      * simplify_eq. apply (got_ok 0 o q ql pc hd f 1); rewrite ?Ef; auto; done.
      * replace (v =? 0) with false in Hs by (symmetry; by apply Z.eqb_neq). simplify_eq. outside Ef.
    + destruct (v =? 0) eqn:E; bool_prop; cbn in Hs.
      * simplify_eq. apply (got_ok 0 o q ql pc hd f 1); rewrite ?Ef; auto; done.
      * replace (v =? 0) with false in Hs by (symmetry; by apply Z.eqb_neq). simplify_eq.
        unfold after_try1. destruct (v =? 2); [|destruct (spn <? SpinEnd)]; outside Ef.
    + destruct (v =? 0) eqn:E; bool_prop; simplify_eq.
      * apply (got_ok 0 o q ql pc hd f 2); rewrite ?Ef; auto; done.
      * destruct (spin_next _ _ _ st); outside Ef.
    + destruct ql; [done|]. destruct (v =? 2) eqn:E; bool_prop; simplify_eq; [|outside Ef].
      apply (cond_move_ok 2 o q None pc hd); rewrite ?Ef; try done.
      * apply tracks_same; [done|]. by rewrite Ef.
      * apply tracks_same; [done|]. by rewrite Ef.
      * by apply tracks_gain.
      * by left.
    + destruct (resumes q f =? nullptr) eqn:E; simplify_eq. bool_prop. by apply cond_wake_ok.
    + destruct ql; simplify_eq. by apply cond_cleanup_ok.
    + destruct (v =? 0) eqn:E; bool_prop; simplify_eq.
      * apply (got_ok 0 o q ql pc hd f 2); rewrite ?Ef; auto; done.
      * outside Ef.
    + simplify_eq. apply (inside_ok v o q _ pc hd); rewrite ?Ef; try done.
      assert (Hh : hd = Some f) by (apply Hhd; by rewrite Ef).
      assert (o = None) as ->.
      { destruct o as [g|]; [|done]. pose proof (proj1 (Ho g) eq_refl) as Hg.
        assert (hd = Some g) by (apply Hhd; by destruct (pc g)). assert (g = f) by congruence. subst g.
        by rewrite Ef in Hg. }
      by apply tracks_gain.
    + simplify_eq. apply (inside_ok v o q _ pc hd); rewrite ?Ef; try done.
      assert (Hof : o = Some f) by (apply Ho; by rewrite Ef). subst o. by apply (tracks_lose _ _ f).
    + simplify_eq. by eapply swap_out_ok.
    + destruct ql; simplify_eq. by apply unblock_step_ok.
  - destruct (pc f) eqn:Ef; try done. destruct (block_suspends a now); simplify_eq; [by eapply enter_ok|].
    assert (Hl : ql = Some f) by (apply Hql; by rewrite Ef). subst ql.
    apply (cond_move_ok v o q (Some f) pc hd); rewrite ?Ef; try done.
    + apply tracks_same; [done|]. by rewrite Ef.
    + apply tracks_same; [done|]. by rewrite Ef.
    + by apply (tracks_lose _ _ f).
    + by left.
  - destruct (pc f) eqn:Ef; try done. destruct (0 <? v) eqn:E; bool_prop; simplify_eq.
    + apply (inside_ok v o q _ pc hd); rewrite ?Ef; try done. apply tracks_same; [done|]. by rewrite Ef.
    + assert (Hh : hd = Some f) by (apply Hhd; by rewrite Ef). subst hd.
      destruct Hv as [Hb [Hv _]]. assert (H0 : v = 0) by lia. by apply Hv in H0.
  - destruct ((p =? nullptr) || (p =? self)) eqn:E; simplify_eq. bool_prop. by apply cond_cancel_ok.
Qed.

Lemma cond_reachable_inv s : reachable init step s -> inv s.
Proof. apply invariant_rule; [apply cond_init_inv|]. intros ? ? ?. apply cond_step_inv. Qed.

(** C7. [SpinCondMutex] over [ConditionalQueue]: at most one fred has the mutex,
    [value] is 0 exactly when nobody has it, the [owner] field never names a
    fred that is about to acquire or release, no assertion fails; and no wake-up
    is lost: whenever a fred waits unresumed in the queue, the mutex is marked
    contended (its holder will call [unblock]) or some fred is about to call
    [unblock] or to mark the mutex itself. *)
Theorem spin_cond_mutex_correct s :
  reachable init step s ->
  aborted s = false /\
  (forall f g, has (pcs s f) = true -> has (pcs s g) = true -> f = g) /\
  (value s = 0 <-> forall f, has (pcs s f) = false) /\
  (forall f, owner s = Some f -> pcs s f = Inside \/ pcs s f = ClearOwner) /\
  (waiting (bq s) <> [] -> value s = 2 /\ (exists f, has (pcs s f) = true) \/ exists g, carer s g).
Proof.
  intros [Hbq Hh Hv Ho Hql Hp Hca Hab]%cond_reachable_inv. split_and!; [done| | | |].
  - intros f g Hf Hg. exact (tracks_unique _ _ _ _ _ Hh Hf Hg).
  - destruct Hv as [_ ->]. split.
    + intros Hn f. destruct (has (pcs s f)) eqn:E; [|done]. apply Hh in E. congruence.
    + intros Hn. destruct (holder s) as [f|] eqn:E; [|done]. pose proof (proj1 (Hh f) eq_refl) as H. by rewrite Hn in H.
  - intros f Hf%Ho. destruct (pcs s f); auto; done.
  - intros Hw. destruct (Hca Hw) as [H2|Hg]; [|by right]. left. split; [done|].
    destruct (holder s) as [f|]; [exists f; by apply Hh|]. destruct Hv as [_ [_ Hv]]. specialize (Hv eq_refl). lia.
Qed.
End Cond.
End Cond.

Definition cond_start : Cond.state :=
  Cond.mkState 0 None (mkBQ [] (fun _ => 1)) None (fun _ => Cond.Idle) None false.

(** Fred 1 takes the mutex; fred 2 gives up spinning, marks it contended and
    suspends; 1 releases and wakes 2. *)
Definition cond_run : list Cond.label :=
  [Cond.Acquire 1 (Wait true); Cond.Go 1; Cond.Go 1; Cond.Acquire 2 (Wait true)] ++ replicate 3 (Cond.Go 2) ++
  [Cond.Timed 2 zero; Cond.Release 1; Cond.Go 1; Cond.Go 1].

Lemma spin_cond_mutex_correct_witness :
  let s := after (Cond.step 9 1 0 0 0) cond_start cond_run in
  waiting (Cond.bq s) = [2%nat] /\ (exists g, Cond.carer 9 s g).
Proof.
  set (s := after (Cond.step 9 1 0 0 0) cond_start cond_run).
  assert (Hr : reachable Cond.init (Cond.step 9 1 0 0 0) s).
  { apply after_reachable; [by exists (fun _ => 1)|vm_compute; by eexists]. }
  assert (Hw : waiting (Cond.bq s) = [2%nat]) by (vm_compute; reflexivity).
  cbv zeta. split; [exact Hw|].
  destruct (Cond.spin_cond_mutex_correct 9 1 0 0 0 ltac:(discriminate) s Hr) as (_ & _ & _ & _ & H).
  destruct H as [[H _]|H]; [rewrite Hw; discriminate|vm_compute in H; discriminate|exact H].
Defined.

(** * Benaphore: each operation is one access, or a loop of accesses *)
Definition ben_P (c : Z) : bool * Z := (0 <? c, c - 1).
Definition ben_tryP (seen c : Z) : bool * Z :=      (* [seen]: the value read first *)
  if (1 <=? seen) && (c =? seen) then (true, c - 1) else (false, c).
Definition ben_V (c : Z) : bool * Z := (0 <? c + 1, c + 1).

(** One compare-and-swap of the binary [V], which expects [e]: done with a
    result, another round with the value seen, or an assertion failed. *)
Inductive ben_round := Done (r : bool) | Again (e : Z) | Failed.
Definition ben_V_binary (e c : Z) : ben_round * Z :=
  if c =? e
  then ((if e =? 0 then Done true else if e <? 0 then Done false else Failed), e + 1)
  else ((if c =? 1 then Done true else if c <? 1 then Again c else Failed), c).

(** * SpinSemMutex over FredBenaphore<LimitedSemaphore0, true> *)
Module Sem.
Section Sem.
Context (SpinStart SpinEnd SpinCount YieldCount : Z).

Inductive pc :=
| Idle
| TryOnly                   (* tryAcquire() *)
| Try (st : Spinning)       (* in Spin<...>(tryLock) *)
| BenP                      (* sem.P(): about to call ben.P() *)
| Push                      (* about to push itself on the semaphore's queue *)
| Queued                    (* pushed; suspends *)
| Granted                   (* popped by V; will be resumed *)
| Relock                    (* tryLock after sem.P() *)
| Inside
| BenV (e : Z)              (* released; in ben.V() *)
| Pop.                      (* in LimitedSemaphore0::V() *)

Record state := mkState {
  owner : option nat; ben : Z; queue : list nat; pcs : list pc; aborted : bool
}.

Inductive label := Acquire (i : nat) | TryAcquire (i : nat) | Go (i : nat) | Release (i : nat).

(** [tryLock]: compare-and-swap of [cf] for null. *)
Definition tryLock (o : option nat) (cf : nat) : bool * option nat :=
  match o with None => (true, Some cf) | Some _ => (false, o) end.

(** One access of fred [i] in state [c]: what it is at next, and the shared
    words; the fred that [V] pops is made [Granted]. *)
Definition go (i : nat) (c : pc) (s : state) : option state :=
  let 'mkState o b q ps ab := s in
  let goto c' := mkState o b q (<[i := c']> ps) ab in
  let locked c' := let '(ok, o') := tryLock o i in
                   Some (mkState o' b q (<[i := if ok then Inside else c']> ps) ab) in
  match c with
  | TryOnly => locked Idle
  | Try st => locked (match spin_next SpinEnd SpinCount YieldCount st with Some st' => Try st' | None => BenP end)
  | BenP => let '(ok, b') := ben_P b in Some (mkState o b' q (<[i := if ok then Relock else Push]> ps) ab)
  | Push => Some (mkState o b (q ++ [i]) (<[i := Queued]> ps) ab)
  | Granted => Some (goto Relock)
  | Relock => locked BenP
  | BenV e =>
      match ben_V_binary e b with
      | (Done r, b') => Some (mkState o b' q (<[i := if r then Idle else Pop]> ps) ab)
      | (Again e', b') => Some (mkState o b' q (<[i := BenV e']> ps) ab)
      | (Failed, b') => Some (mkState o b' q ps true)
      end
  | Pop =>
      match q with
      | [] => Some s
      | f :: q' => Some (mkState o b q' (<[f := Granted]> (<[i := Idle]> ps)) ab)
      end
  | _ => None
  end.

Definition step (l : label) (s : state) : option state :=
  let 'mkState o b q ps ab := s in
  match l with
  | Acquire i =>
      match ps !! i with
      | Some Idle => Some (if bool_decide (o = Some i) then mkState o b q ps true
                           else mkState o b q (<[i := Try (spin_start SpinStart)]> ps) ab)
      | _ => None
      end
  | TryAcquire i =>
      match ps !! i with
      | Some Idle => Some (if bool_decide (o = Some i) then mkState o b q ps true
                           else mkState o b q (<[i := TryOnly]> ps) ab)
      | _ => None
      end
  | Go i => c ← ps !! i; go i c s
  | Release i =>
      match ps !! i with
      | Some Inside => Some (if bool_decide (o = Some i) then mkState None b q (<[i := BenV 0]> ps) ab
                             else mkState o b q ps true)
      | _ => None
      end
  end.

Definition init (s : state) : Prop := exists n, s = mkState None 1 [] (replicate n Idle) false.

Definition blocked (c : pc) : bool := match c with Push | Queued => true | _ => false end.
Definition popping (c : pc) : bool := match c with Pop => true | _ => false end.
Definition queued (c : pc) : bool := match c with Queued => true | _ => false end.
Definition has (c : pc) : bool := match c with Inside => true | _ => false end.
Definition caring (c : pc) : bool := match c with BenV _ | Pop | Granted | Relock => true | _ => false end.

Definition at_ (ps : list pc) (i : nat) : pc := default Idle (ps !! i).

Record inv (s : state) : Prop := mkInv {
  i_owner : tracks (owner s) has (at_ (pcs s));
  i_ben : ben s <= 1;
  i_count : cnt blocked (pcs s) - cnt popping (pcs s) = Z.max 0 (- ben s);
  i_queue i : i ∈ queue s <-> queued (at_ (pcs s) i) = true;
  i_nodup : NoDup (queue s);
  i_benv i e : pcs s !! i = Some (BenV e) -> e <= 0;
  i_care : ben s <= 0 -> owner s <> None \/ 0 < cnt caring (pcs s);
  i_ab : aborted s = false
}.

Lemma at_insert ps i c x : ps !! i = Some x -> pointwise_relation nat eq (at_ (<[i := c]> ps)) (upd (at_ ps) i c).
Proof.
  intros Hi j. unfold at_. at_fred j i.
  - by rewrite list_lookup_insert_eq by (by eapply lookup_lt_Some).
  - by rewrite list_lookup_insert_ne.
Qed.

Lemma at_lookup ps i c : ps !! i = Some c -> at_ ps i = c.
Proof. intros H. unfold at_. by rewrite H. Qed.

Lemma at_busy ps i c : at_ ps i = c -> c <> Idle -> ps !! i = Some c.
Proof. unfold at_. destruct (ps !! i); simpl; congruence. Qed.

#[local] Instance tracks_proper {K V} (h : option K) (p : V -> bool) :
  Proper (pointwise_relation K eq ==> iff) (tracks h p).
Proof. intros f g Hfg. unfold tracks. split; intros H k; [rewrite <- Hfg|rewrite Hfg]; apply H. Qed.

(** Fred [i] moves from [x] to [c], its queue entry unchanged. *)
Lemma fast_move_ok o b q ps i x c o' b' :
  inv (mkState o b q ps false) -> ps !! i = Some x ->
  tracks o' has (upd (at_ ps) i c) -> b' <= 1 ->
  Z.max 0 (- b) - Z.b2z (blocked x) + Z.b2z (blocked c) + Z.b2z (popping x) - Z.b2z (popping c) = Z.max 0 (- b') ->
  queued c = queued x -> (forall e, c = BenV e -> e <= 0) ->
  (b' <= 0 -> o' <> None \/ caring c = true \/ caring x = false /\ b <= 0 /\ o = o') ->
  inv (mkState o' b' q (<[i := c]> ps) false).
Proof.
  intros [Ho Hb Hc Hq Hn He Hca _] Hi Ho' Hb' Hcount Hqu Hbe Hcare. cbn in *.
  pose proof (at_insert ps i c x Hi) as Hat. split; cbn; try done.
  - by rewrite Hat.
  - rewrite !(cnt_insert _ _ _ _ _ Hi). lia.
  - intros j. rewrite (Hat j), (Hq j). at_fred j i; [|done]. by rewrite Hqu, (at_lookup _ _ _ Hi).
  - intros j e Hj. destruct (lookup_moved _ _ _ _ _ _ Hi Hj) as [[<- Hbv]|[_ Hj']]; [by apply Hbe|by eapply He].
  - intros H0. rewrite (cnt_insert _ _ _ _ _ Hi). pose proof (cnt_member caring ps i x Hi).
    destruct (Hcare H0) as [?|[Hcc|(Hcx & H1 & H2)]]; [by left| |].
    + right. rewrite Hcc. destruct (caring x); simpl in *; lia.
    + destruct (Hca H1) as [H3|H3]; [left; congruence|]. right. rewrite Hcx. simpl. destruct (caring c); simpl; lia.
Qed.

Lemma push_ok o b q ps i :
  inv (mkState o b q ps false) -> ps !! i = Some Push ->
  inv (mkState o b (q ++ [i]) (<[i := Queued]> ps) false).
Proof.
  intros [Ho Hb Hc Hq Hn He Hca _] Hi. cbn in *. pose proof (at_insert ps i Queued _ Hi) as Hat.
  assert (Hiq : i ∉ q) by (rewrite Hq, (at_lookup _ _ _ Hi); done).
  split; cbn; try done; try lia.
  - rewrite Hat. apply tracks_same; [done|]. by rewrite (at_lookup _ _ _ Hi).
  - rewrite !(cnt_insert _ _ _ _ _ Hi). cbn. lia.
  - intros j. rewrite (Hat j), elem_of_app, list_elem_of_singleton, (Hq j). at_fred j i; [tauto|]. naive_solver.
  - apply NoDup_app. split_and!; [done| |apply NoDup_singleton]. intros y Hy ->%list_elem_of_singleton. done.
  - intros j e Hj. destruct (lookup_moved _ _ _ _ _ _ Hi Hj) as [[<- ?]|[_ Hj']]; [done|by eapply He].
  - intros H0. rewrite (cnt_insert _ _ _ _ _ Hi). cbn. destruct (Hca H0); [by left|right; lia].
Qed.

Lemma pop_ok o b f q ps i :
  inv (mkState o b (f :: q) ps false) -> ps !! i = Some Pop ->
  inv (mkState o b q (<[f := Granted]> (<[i := Idle]> ps)) false).
Proof.
  intros [Ho Hb Hc Hq Hn He Hca _] Hi. cbn in *.
  assert (Hf : ps !! f = Some Queued).
  { apply at_busy; [|done]. specialize (Hq f). destruct (at_ ps f); try done; destruct Hq as [Hq _]; by discriminate (Hq ltac:(by left)). }
  assert (Hne : i <> f) by congruence.
  assert (Hf' : <[i := Idle]> ps !! f = Some Queued) by (by rewrite list_lookup_insert_ne).
  pose proof (at_insert _ f Granted _ Hf') as Hat. pose proof (at_insert ps i Idle _ Hi) as Hat'.
  apply NoDup_cons in Hn as [Hfq Hn].
  split; cbn; try done; try lia.
  - rewrite Hat. apply tracks_same; [|by rewrite (Hat' f), upd_ne, (at_lookup _ _ _ Hf)].
    rewrite Hat'. apply tracks_same; [done|]. by rewrite (at_lookup _ _ _ Hi).
  - rewrite !(cnt_insert _ _ _ _ _ Hf'), !(cnt_insert _ _ _ _ _ Hi). cbn. lia.
  - intros j. rewrite (Hat j). at_fred j f; [split; done|]. rewrite (Hat' j). specialize (Hq j). rewrite elem_of_cons in Hq.
    at_fred j i; [|naive_solver]. rewrite (at_lookup _ _ _ Hi) in Hq. naive_solver.
  - intros j e Hj. destruct (lookup_moved _ _ _ _ _ _ Hf' Hj) as [[<- ?]|[_ Hj']]; [done|].
    destruct (lookup_moved _ _ _ _ _ _ Hi Hj') as [[<- ?]|[_ Hj2]]; [done|by eapply He].
  - intros _. right. rewrite (cnt_insert _ _ _ _ _ Hf'), (cnt_insert _ _ _ _ _ Hi). cbn.
    pose proof (cnt_member caring ps i _ Hi). cbn in *. lia.
Qed.

Ltac move Hi x := eapply (fast_move_ok _ _ _ _ _ x); [eassumption|exact Hi|..]; cbn; try done; try lia; auto.

Lemma same_owner o ps i x c : tracks o has (at_ ps) -> ps !! i = Some x -> has c = has x -> tracks o has (upd (at_ ps) i c).
Proof. intros Ho Hi Hc. apply tracks_same; [done|]. by rewrite (at_lookup _ _ _ Hi). Qed.

(** [tryLock] from a state [x] in which it is called. *)
Lemma fast_try_ok o b q ps i x c :
  inv (mkState o b q ps false) -> ps !! i = Some x ->
  has x = false -> blocked x = false -> popping x = false ->
  has c = false -> blocked c = false -> popping c = false -> caring c = false ->
  (caring x = true -> c = BenP) ->
  inv (mkState (tryLock o i).2 b q (<[i := if (tryLock o i).1 then Inside else c]> ps) false).
Proof.
  intros Hi Hx H1 H2 H3 H4 H5 H6 H7 H8. pose proof Hi as [Ho Hb Hc Hq Hn He Hca _]. cbn in *.
  unfold tryLock. destruct o as [f|]; cbn.
  - eapply fast_move_ok; [exact Hi|exact Hx|..]; try done; rewrite ?H2, ?H3, ?H5, ?H6; try (simpl; lia).
    + eapply same_owner; eauto.
    + by destruct x, c.
    + intros e ->. done.
    + by left.
  - eapply fast_move_ok; [exact Hi|exact Hx|..]; try done; rewrite ?H2, ?H3; try (simpl; lia).
    + by apply tracks_gain.
    + by destruct x.
    + by left.
Qed.

Lemma benV_ok o b q ps i e :
  inv (mkState o b q ps false) -> ps !! i = Some (BenV e) ->
  match ben_V_binary e b with
  | (Done r, b') => inv (mkState o b' q (<[i := if r then Idle else Pop]> ps) false)
  | (Again e', b') => inv (mkState o b' q (<[i := BenV e']> ps) false)
  | (Failed, b') => False
  end.
Proof.
  intros Hi Hx. pose proof Hi as [Ho Hb Hc Hq Hn He Hca _]. cbn in *. pose proof (He i e Hx) as He0.
  unfold ben_V_binary. destruct (b =? e) eqn:E; bool_prop.
  - subst e. destruct (b =? 0) eqn:E0; [|destruct (b <? 0) eqn:E1]; bool_prop; [| |lia].
    + eapply fast_move_ok; [exact Hi|exact Hx|..]; try done; try (simpl; lia); try (by eapply same_owner; eauto).
    + eapply fast_move_ok; [exact Hi|exact Hx|..]; try done; try (simpl; lia); try (by eapply same_owner; eauto); try (intros _; right; by left).
  - destruct (b =? 1) eqn:E0; [|destruct (b <? 1) eqn:E1]; bool_prop; [| |lia].
    + eapply fast_move_ok; [exact Hi|exact Hx|..]; try done; try (simpl; lia); try (by eapply same_owner; eauto).
    + eapply fast_move_ok; [exact Hi|exact Hx|..]; try done; try (simpl; lia); try (by eapply same_owner; eauto); try (intros _; right; by left).
      intros e' [= <-]. lia.
Qed.

(** A fred that only moves on. *)
Lemma idle_move o b q ps i x c :
  inv (mkState o b q ps false) -> ps !! i = Some x ->
  has c = has x -> blocked c = blocked x -> popping c = popping x -> queued c = queued x ->
  (forall e, c <> BenV e) -> caring c = true \/ caring x = false ->
  inv (mkState o b q (<[i := c]> ps) false).
Proof.
  intros Hi Hx H1 H2 H3 H4 H5 H6. pose proof Hi as [Ho Hb Hc Hq Hn He Hca _]. cbn in *.
  eapply fast_move_ok; [exact Hi|exact Hx|..]; try done.
  - by eapply same_owner.
  - rewrite H2, H3. lia.
  - intros e ->. by destruct (H5 e).
  - intros H0. right. destruct H6; [by left|by right].
Qed.

(** A fred that takes or fails to take the semaphore's count. *)
Lemma benP_ok o b q ps i :
  inv (mkState o b q ps false) -> ps !! i = Some BenP ->
  inv (mkState o (ben_P b).2 q (<[i := if (ben_P b).1 then Relock else Push]> ps) false).
Proof.
  intros Hi Hx. pose proof Hi as [Ho Hb Hc Hq Hn He Hca _]. cbn in *. unfold ben_P. cbn.
  destruct (0 <? b) eqn:E; bool_prop; (eapply fast_move_ok; [exact Hi|exact Hx|..]; try done; try (simpl; lia));
    try (by eapply same_owner); auto.
Qed.

Lemma fast_step_inv l s s' : inv s -> step l s = Some s' -> inv s'.
Proof.
  destruct s as [o b q ps ab]. intros Hi Hs. pose proof (i_ab _ Hi) as Hab. cbn in Hab. subst ab.
  pose proof (i_owner _ Hi) as Ho. cbn in Ho.
  assert (Hno : forall i, ps !! i = Some Idle -> o <> Some i).
  { intros i Hx Ho'. apply Ho in Ho'. by rewrite (at_lookup _ _ _ Hx) in Ho'. }
  destruct l as [i|i|i|i]; cbn [step] in Hs.
  - destruct (ps !! i) as [[]|] eqn:Hx; try done. rewrite bool_decide_eq_false_2 in Hs by (by apply Hno). simplify_eq.
    eapply idle_move; eauto; done.
  - destruct (ps !! i) as [[]|] eqn:Hx; try done. rewrite bool_decide_eq_false_2 in Hs by (by apply Hno). simplify_eq.
    eapply idle_move; eauto; done.
  - destruct (ps !! i) as [x|] eqn:Hx; [|done]. cbn [mbind option_bind go] in Hs.
    destruct x as [| |st| | | | | | |e|]; try done.
    + pose proof (fast_try_ok _ _ _ _ i _ Idle Hi Hx eq_refl eq_refl eq_refl eq_refl eq_refl eq_refl eq_refl ltac:(done)) as H.
      destruct (tryLock o i). by simplify_eq.
    + set (c := match spin_next SpinEnd SpinCount YieldCount st with Some st' => Try st' | None => BenP end) in *.
      assert (Hc : has c = false /\ blocked c = false /\ popping c = false /\ caring c = false)
        by (unfold c; by destruct (spin_next _ _ _ _)).
      destruct Hc as (H1 & H2 & H3 & H4).
      pose proof (fast_try_ok _ _ _ _ i _ c Hi Hx eq_refl eq_refl eq_refl H1 H2 H3 H4 ltac:(done)) as H.
      destruct (tryLock o i). by simplify_eq.
    + pose proof (benP_ok _ _ _ _ _ Hi Hx) as H. destruct (ben_P b). by simplify_eq.
    + simplify_eq. by apply push_ok.
    + simplify_eq. eapply idle_move; eauto; done.
    + pose proof (fast_try_ok _ _ _ _ i _ BenP Hi Hx eq_refl eq_refl eq_refl eq_refl eq_refl eq_refl eq_refl ltac:(done)) as H.
      destruct (tryLock o i). by simplify_eq.
    + pose proof (benV_ok _ _ _ _ _ e Hi Hx) as H. destruct (ben_V_binary e b) as [[] b']; by simplify_eq.
    + destruct q as [|f q]; simplify_eq; [done|]. by apply pop_ok.
  - destruct (ps !! i) as [[]|] eqn:Hx; try done.
    assert (Hown : o = Some i) by (apply Ho; by rewrite (at_lookup _ _ _ Hx)). subst o.
    rewrite bool_decide_eq_true_2 in Hs by done. simplify_eq.
    eapply fast_move_ok; [exact Hi|exact Hx|..]; try done; try (simpl; lia).
    + by apply (tracks_lose _ _ i).
    + apply (i_ben _ Hi).
    + intros e [= <-]. lia.
Qed.

Lemma fast_reachable_inv s : reachable init step s -> inv s.
Proof.
  apply invariant_rule; [|intros ? ? ?; apply fast_step_inv]. intros s0 (n & ->).
  split; cbn; rewrite ?cnt_replicate; try done; try (cbn; lia).
  - intros i. unfold at_. destruct (replicate n Idle !! i) as [c|] eqn:E; [|done].
    apply lookup_replicate in E as [-> _]. done.
  - intros i. unfold at_. split; [intros H; by apply elem_of_nil in H|].
    destruct (replicate n Idle !! i) as [c|] eqn:E; [|done]. apply lookup_replicate in E as [-> _]. done.
  - constructor.
  - intros i e H. by apply lookup_replicate in H as [? _].
Qed.

(** C6. [SpinSemMutex] over a binary [FredBenaphore] of [LimitedSemaphore0]
    ([FastMutex]): [owner] names the one fred inside and no assertion fails, not
    even those of the binary [V]; the count is at most 1, and its negation is
    the number of freds that wait and are not yet to be popped, so every pop
    finds a fred; no wake-up is lost: while the count is 0 or below, either a
    fred is inside (and will call [V]) or some fred is in [V], or resumed and
    about to try again. *)
Theorem fast_mutex_correct s :
  reachable init step s ->
  aborted s = false /\
  (forall i, owner s = Some i <-> pcs s !! i = Some Inside) /\
  ben s <= 1 /\ cnt blocked (pcs s) = Z.max 0 (- ben s) + cnt popping (pcs s) /\
  (ben s <= 0 -> owner s <> None \/ exists i c, pcs s !! i = Some c /\ caring c = true).
Proof.
  intros [Ho Hb Hc Hq Hn He Hca Hab]%fast_reachable_inv. split_and!; try done; [|lia|].
  - intros i. rewrite (Ho i). split.
    + intros H. apply at_busy; [by destruct (at_ (pcs s) i)|done].
    + intros H. by rewrite (at_lookup _ _ _ H).
  - intros H0. destruct (Hca H0) as [?|H]; [by left|]. right. by apply cnt_pos.
Qed.
End Sem.
End Sem.

Definition sem_start : Sem.state := Sem.mkState None 1 [] (replicate 3 Sem.Idle) false.
Definition fast_run : list Sem.label :=
  [Sem.Acquire 0; Sem.Go 0; Sem.Acquire 1; Sem.Go 1; Sem.Go 1; Sem.Go 1; Sem.Go 1; Sem.Go 1; Sem.Release 0].

Lemma fast_mutex_correct_witness :
  let s := after (Sem.step 1 0 0 0) sem_start fast_run in
  Sem.ben s = -1 /\ Sem.owner s = None /\ cnt Sem.blocked (Sem.pcs s) = 1 /\
  exists i c, Sem.pcs s !! i = Some c /\ Sem.caring c = true.
Proof.
  set (s := after (Sem.step 1 0 0 0) sem_start fast_run).
  assert (Hr : reachable Sem.init (Sem.step 1 0 0 0) s)
    by (apply after_reachable; [by exists 3%nat|vm_compute; by eexists]).
  destruct (Sem.fast_mutex_correct 1 0 0 0 s Hr) as (_ & _ & _ & Hc & Hw).
  split; [reflexivity|]. split; [reflexivity|]. split; [rewrite Hc; reflexivity|].
  destruct Hw as [H|H]; [vm_compute; discriminate|destruct H; reflexivity|exact H].
Defined.
