(* ===== verification/Locks.v ===== *)
(** What a mutex promises to its users, and that [FredMutex] and [FastMutex]
    keep it: an abstract lock as a transition system, a class of
    implementations that refine it step by step, and the instances for
    [SpinCondMutex] and [SpinSemMutex]. *)
From S2P Require Import Prelude Words Times Freds BlockingQueues SpinMutexes.
From Stdlib Require Import FunctionalExtensionality.
Local Open Scope Z_scope.

(** * The abstract lock *)
Module AbstractLock.

(** Where a fred stands: outside, in a call of [acquire] that may or may not
    fail, with the lock but not yet returned, inside, in a call of [release]. *)
Inductive phase := Out | Trying (fallible : bool) | Won | In | Leaving.

Record state := mkState { owner : option fid; phases : fid -> phase }.

Inductive label :=
| Begin (f : fid) (fallible : bool)        (* calls [acquire] *)
| Got (f : fid) (inside : bool)            (* takes the lock; [inside]: and returns *)
| Enter (f : fid)                          (* [acquire] returns [true] *)
| Fail (f : fid)                           (* [acquire] returns [false] *)
| Release (f : fid) (free : bool)          (* calls [release]; [free]: and the lock is free *)
| Free (f : fid) (out : bool)              (* the lock is free; [out]: [release] returns *)
| Done (f : fid).                          (* [release] returns *)

Definition step (l : label) (s : state) : option state :=
  let 'mkState o ph := s in
  match l with
  | Begin f b => match ph f with Out => Some (mkState o (upd ph f (Trying b))) | _ => None end
  | Got f b =>
      match ph f, o with
      | Trying _, None => Some (mkState (Some f) (upd ph f (if b then In else Won)))
      | _, _ => None
      end
  | Enter f => match ph f with Won => Some (mkState o (upd ph f In)) | _ => None end
  | Fail f => match ph f with Trying true => Some (mkState o (upd ph f Out)) | _ => None end
  | Release f b => match ph f with In => Some (mkState (if b then None else o) (upd ph f Leaving)) | _ => None end
  | Free f b =>
      match ph f with
      | Leaving => if bool_decide (o = Some f) then Some (mkState None (upd ph f (if b then Out else Leaving))) else None
      | _ => None
      end
  | Done f =>
      match ph f with
      | Leaving => if bool_decide (o = Some f) then None else Some (mkState o (upd ph f Out))
      | _ => None
      end
  end.

Definition init (s : state) : Prop := s = mkState None (fun _ => Out).

Record inv (s : state) : Prop := mkInv {
  i_owner f : phases s f = Won \/ phases s f = In -> owner s = Some f;
  i_in f : owner s = Some f -> phases s f = Won \/ phases s f = In \/ phases s f = Leaving
}.

Lemma lock_reachable_inv s : reachable init step s -> inv s.
Proof.
  apply invariant_rule; clear s.
  - intros s ->. split; cbn; [naive_solver|done].
  - intros [o ph] l s' [Ho Hi] Hs. cbn in *. destruct l as [f b|f b|f|f|f b|f b|f]; cbn in Hs;
      destruct (ph f) as [|[]| | |] eqn:Hf; try done; try case_bool_decide; try destruct o as [g0|]; try done; simplify_eq;
      pose proof (Ho f); pose proof (Hi f);
      split; cbn; intros g; specialize (Ho g); specialize (Hi g); at_fred g f; try (destruct b); try naive_solver;
      intros Hg; destruct (Hi Hg) as [?|[?|?]]; congruence.
Qed.

(** Mutual exclusion. *)
Lemma lock_exclusive s f g :
  reachable init step s -> phases s f = In -> phases s g = In -> f = g.
Proof.
  intros [Ho _]%lock_reachable_inv Hf Hg. assert (owner s = Some f) by auto. assert (owner s = Some g) by auto. congruence.
Qed.
End AbstractLock.

(** * Implementations *)
Class LockOps (M L : Type) := {
  li_init : M -> Prop;
  li_step : L -> M -> option M;
  li_acquire : fid -> bool -> L;           (* a call of [acquire] that may fail, or not *)
  li_release : fid -> L;                   (* a call of [release] *)
  li_abs : M -> AbstractLock.state;
  li_event : L -> M -> option AbstractLock.label
}.

(** The call of [acquire] or [release] that a move of the lock is, if any. *)
Definition call_of {M L} `{LockOps M L} (l : L) (m : M) : option fid :=
  match li_event l m with
  | Some (AbstractLock.Begin f _) | Some (AbstractLock.Release f _) => Some f
  | _ => None
  end.

Class LockLaws (M L : Type) `{LockOps M L} := {
  li_inv : M -> Prop;
  li_init_ok m : li_init m -> li_inv m /\ AbstractLock.init (li_abs m);
  li_step_ok m l m' : li_inv m -> li_step l m = Some m' ->
    li_inv m' /\ match li_event l m with
                 | Some b => AbstractLock.step b (li_abs m) = Some (li_abs m')
                 | None => li_abs m' = li_abs m
                 end;
  li_acquire_event m f b : li_inv m -> is_Some (li_step (li_acquire f b) m) ->
    li_event (li_acquire f b) m = Some (AbstractLock.Begin f b);
  li_release_event m f : li_inv m -> is_Some (li_step (li_release f) m) ->
    exists b, li_event (li_release f) m = Some (AbstractLock.Release f b);
  li_release_enabled m f : li_inv m -> AbstractLock.phases (li_abs m) f = AbstractLock.In -> is_Some (li_step (li_release f) m)
}.

Lemma li_refines {M L} `{LockLaws M L} m :
  reachable li_init li_step m -> li_inv m /\ reachable AbstractLock.init AbstractLock.step (li_abs m).
Proof.
  apply (refinement_rule li_init li_step AbstractLock.init AbstractLock.step li_inv li_abs li_event).
  - apply li_init_ok.
  - intros s l s'. apply li_step_ok.
Qed.

Lemma upd_compose {B C} (h : B -> C) (f : fid -> B) k v : (fun x => h (upd f k v x)) = upd (fun x => h (f x)) k (h v).
Proof. apply functional_extensionality. intros x. by at_fred x k. Qed.
Lemma upd_same {B} (f : fid -> B) k v : f k = v -> upd f k v = f.
Proof. intros <-. apply functional_extensionality. intros x. by at_fred x k. Qed.

(** * [SpinCondMutex] *)
Section CondLock.
Context (self : ptr) (SpinStart SpinEnd SpinCount YieldCount : Z).

(** Only the timer of a call with a time limit cancels a fred that waits. *)
Definition cond_step (l : Cond.label) (s : Cond.state) : option Cond.state :=
  match l with
  | Cond.Cancel f _ =>
      match Cond.pcs s f with
      | Cond.Blocked (Until _) => Cond.step self SpinStart SpinEnd SpinCount YieldCount l s
      | _ => None
      end
  | _ => Cond.step self SpinStart SpinEnd SpinCount YieldCount l s
  end.

Definition fallible (a : wait_arg) : bool := match a with Wait w => negb w | Until _ => true end.

Definition cond_phase (c : Cond.pc) : AbstractLock.phase :=
  match c with
  | Cond.Idle => AbstractLock.Out
  | Cond.TryOnly | Cond.Cancelled => AbstractLock.Trying true
  | Cond.Try1 _ a | Cond.Try2 _ a | Cond.QTest a | Cond.QPush a | Cond.Blocked a | Cond.Try3 a => AbstractLock.Trying (fallible a)
  | Cond.SetOwner => AbstractLock.Won
  | Cond.Inside => AbstractLock.In
  | Cond.ClearOwner | Cond.SwapOut | Cond.Unblock => AbstractLock.Leaving
  end.

Definition cond_abs (s : Cond.state) : AbstractLock.state :=
  AbstractLock.mkState (Cond.holder s) (fun f => cond_phase (Cond.pcs s f)).

Definition cond_event (l : Cond.label) (s : Cond.state) : option AbstractLock.label :=
  match l with
  | Cond.Acquire f a => Some (AbstractLock.Begin f (fallible a))
  | Cond.Release f => Some (AbstractLock.Release f false)
  | Cond.Cancel _ _ => None
  | Cond.Timed f now =>
      match Cond.pcs s f with
      | Cond.QPush a => if block_suspends a now then None else Some (AbstractLock.Fail f)
      | _ => None
      end
  | Cond.Go f =>
      let free := Cond.value s =? 0 in
      match Cond.pcs s f with
      | Cond.TryOnly => Some (if free then AbstractLock.Got f false else AbstractLock.Fail f)
      | Cond.Try1 _ _ | Cond.Try2 _ _ | Cond.Try3 _ => if free then Some (AbstractLock.Got f false) else None
      | Cond.Cancelled => Some (AbstractLock.Fail f)
      | Cond.SetOwner => Some (AbstractLock.Enter f)
      | Cond.SwapOut => Some (AbstractLock.Free f (Cond.value s =? 1))
      | Cond.Unblock => Some (AbstractLock.Done f)
      | _ => None
      end
  end.

(** A timed call has a time limit; [acquire()] and [acquire(true)] have none. *)
Definition cond_arg (b : bool) : wait_arg := if b then Until (fromMS 0) else Wait true.

Definition cond_lock_inv (s : Cond.state) : Prop :=
  Cond.inv self s /\
  forall f w, Cond.pcs s f = Cond.Blocked (Wait w) ->
    w = true /\ (resumes (Cond.bq s) f = nullptr \/ resumes (Cond.bq s) f = self).

#[local] Instance cond_lock_ops : LockOps Cond.state Cond.label := {|
  li_init := Cond.init;
  li_step := cond_step;
  li_acquire f b := Cond.Acquire f (cond_arg b);
  li_release := Cond.Release;
  li_abs := cond_abs;
  li_event := cond_event
|}.

Hypothesis self_not_null : self <> nullptr.

Ltac cfields := cbn [Cond.value Cond.owner Cond.bq Cond.qlock Cond.pcs Cond.holder Cond.aborted] in *.

Lemma cond_step_base l s s' : cond_step l s = Some s' -> Cond.step self SpinStart SpinEnd SpinCount YieldCount l s = Some s'.
Proof. unfold cond_step. destruct l; try done. destruct (Cond.pcs s f) as [| | | | | |[]| | | | | | |]; done. Qed.

(** Who waits without a time limit is woken by the queue only. *)
Lemma cond_patient l s s' : cond_lock_inv s -> cond_step l s = Some s' ->
  forall f w, Cond.pcs s' f = Cond.Blocked (Wait w) ->
    w = true /\ (resumes (Cond.bq s') f = nullptr \/ resumes (Cond.bq s') f = self).
Proof.
  intros [Hi Hw] Hs. pose proof (Cond.i_bq _ _ Hi) as Hbq. destruct s as [v o q ql pc hd ab].
  destruct l as [f a|f|f now|f|f p]; cbn [cond_step] in Hs; cfields.
  - cbn in Hs. destruct (pc f) eqn:Hf; try done. case_bool_decide; simplify_eq; [done|]. cfields.
    intros g w. at_fred g f; [by destruct a as [[]|]|apply Hw].
  - cbn in Hs. destruct (pc f) eqn:Hf; try done; try (unfold Cond.tryLock1, Cond.tryLock2 in Hs); repeat split_match_in Hs; simplify_eq; cfields; try done;
      intros g w; try (at_fred g f; [try done|try apply Hw]); try (unfold Cond.after_try1; repeat case_match; done).
    pose proof (unblock_ok self self_not_null _ _ Hbq) as Hu. destruct (unblock self q) as [[g'|] q'].
    + destruct Hu as (_ & Hg & Hr & _). cbn. rewrite Hr. intros Hb. destruct (Hw _ _ Hb) as [-> Hr']. split; [done|].
        destruct (decide (g' = g)) as [->|]; [rewrite upd_eq; by right|by rewrite upd_ne].
    + destruct Hu as [-> _]. apply Hw.
  - cbn in Hs. destruct (pc f) eqn:Hf; try done. simplify_eq. destruct (block_suspends a now) eqn:Hb; cfields; intros g w.
    + cbn. at_fred g f; [|apply Hw]. intros [= ->]. cbn in Hb. split; [done|by left].
    + at_fred g f; [done|apply Hw].
  - cbn in Hs. destruct (pc f) eqn:Hf; try done. destruct (0 <? v); simplify_eq; cfields; [|done]. intros g w. at_fred g f; [done|apply Hw].
  - destruct (pc f) as [| | | | | |[|t]| | | | | | |] eqn:Hf; try done. cbn in Hs. destruct ((p =? nullptr) || (p =? self)); simplify_eq. cfields.
    intros g w Hg. destruct (Hw g w Hg) as [-> Hr]. split; [done|]. unfold cancel_race. destruct (resumes q f =? nullptr); [|done].
    cbn. rewrite upd_ne; [done|]. intros ->. congruence.
Qed.

Lemma cond_move_event (s : Cond.state) f c h :
  cond_abs (Cond.mkState (Cond.value s) (Cond.owner s) (Cond.bq s) (Cond.qlock s) (upd (Cond.pcs s) f c) h (Cond.aborted s)) =
  AbstractLock.mkState h (upd (fun g => cond_phase (Cond.pcs s g)) f (cond_phase c)).
Proof. unfold cond_abs. cbn. by rewrite upd_compose. Qed.

Lemma after_try1_phase spn e a : cond_phase (Cond.after_try1 SpinStart SpinEnd spn e a) = AbstractLock.Trying (fallible a).
Proof. unfold Cond.after_try1. by repeat case_match. Qed.

Lemma cond_event_ok l s s' : cond_lock_inv s -> cond_step l s = Some s' ->
  match cond_event l s with
  | Some b => AbstractLock.step b (cond_abs s) = Some (cond_abs s')
  | None => cond_abs s' = cond_abs s
  end.
Proof.
  intros [Hi Hw] Hs. pose proof (Cond.i_bq _ _ Hi) as Hbq. pose proof (Cond.i_value _ _ Hi) as [Hv0 Hv].
  pose proof (Cond.i_owner _ _ Hi) as Ho. pose proof (Cond.i_holder _ _ Hi) as Hh. destruct s as [v o q ql pc hd ab]. cfields.
  destruct l as [f a|f|f now|f|f p]; cbn [cond_step] in Hs; cfields.
  - cbn in Hs |- *. destruct (pc f) eqn:Hf; try done. case_bool_decide as Hof; simplify_eq.
    + pose proof (proj1 (Ho f) eq_refl) as E. by rewrite Hf in E.
    + cbn. do 2 f_equal. unfold cond_abs. cbn. rewrite upd_compose. do 2 f_equal. by destruct a as [[]|].
  - assert (Hnone : v = 0 -> hd = None) by by rewrite Hv.
    assert (Hhas : Cond.has (pc f) = true -> hd = Some f) by (intros; by apply Hh).
    assert (Hno : Cond.has (pc f) = false -> hd <> Some f).
    { intros E ->. pose proof (proj1 (Hh f) eq_refl). congruence. }
    cbn [cond_event Cond.pcs Cond.value]. cbn [Cond.step] in Hs. unfold Cond.tryLock1, Cond.tryLock2 in Hs.
    destruct (Z.eqb_spec v 0) as [Hz|Hz]; [pose proof (Hnone Hz) as ->; subst v|apply Z.eqb_neq in Hz];
      destruct (pc f) eqn:Hf; try done; try specialize (Hhas eq_refl); try specialize (Hno eq_refl); try done;
      rewrite ?Hz in Hs; cbn in Hs; repeat split_match_in Hs; simplify_eq; unfold cond_abs; cbn; rewrite ?upd_compose, ?Hf; cbn; try done;
      try (rewrite upd_same; [done|by rewrite Hf, ?after_try1_phase]).
    3-4: by rewrite bool_decide_eq_true_2.
    3: by rewrite bool_decide_eq_false_2.
    all: rewrite upd_same; [done|]; rewrite Hf; cbn; destruct a as [w|]; [|done]; unfold block_won in *;
      destruct (Hw f w Hf) as [_ [E|E]]; rewrite E, Z.eqb_refl in *; done.
  - cbn in Hs |- *. destruct (pc f) eqn:Hf; try done. simplify_eq. destruct (block_suspends a now) eqn:Hb.
    + unfold cond_abs. cbn. rewrite upd_compose. rewrite upd_same; [done|]. by rewrite Hf.
    + cbn. rewrite Hf. cbn. assert (fallible a = true) as -> by (destruct a; cbn in *; [by rewrite Hb|done]).
      f_equal. unfold cond_abs. cbn. by rewrite upd_compose.
  - cbn in Hs |- *. destruct (pc f) eqn:Hf; try done. destruct (Z.ltb_spec 0 v); simplify_eq; cbn.
    + f_equal. unfold cond_abs. cbn. by rewrite upd_compose.
    + assert (v = 0) as Hz by lia. apply Hv in Hz. pose proof (proj2 (Hh f)) as E. rewrite Hf in E. specialize (E eq_refl). congruence.
  - cbn in Hs |- *. destruct (pc f) as [| | | | | |[|t]| | | | | | |] eqn:Hf; try done. cbn in Hs. destruct ((p =? nullptr) || (p =? self)); by simplify_eq.
Qed.

#[local] Instance cond_lock_laws : LockLaws Cond.state Cond.label.
Proof.
  refine {| li_inv := cond_lock_inv |}; cbn [li_init li_step li_abs li_event li_acquire li_release cond_lock_ops].
  - intros m Hm. pose proof Hm as [r ->]. split; [|done]. split; [by apply Cond.cond_init_inv|done].
  - intros m l m' Hi Hs. split; [split|by apply cond_event_ok].
    + eapply Cond.cond_step_inv; [done|apply (proj1 Hi)|by apply cond_step_base].
    + by eapply cond_patient.
  - intros m f b _ _. by destruct b.
  - intros m f _ _. by eexists.
  - intros m f [Hi _] Hf. destruct m as [v o q ql pc hd ab]. cbn in Hf. cbn. by destruct (pc f) eqn:Hpc.
Defined.

End CondLock.

(** * [SpinSemMutex] *)
Section SemLock.
Context (SpinStart SpinEnd SpinCount YieldCount : Z).

Definition sem_phase (c : Sem.pc) : AbstractLock.phase :=
  match c with
  | Sem.Idle => AbstractLock.Out
  | Sem.TryOnly => AbstractLock.Trying true
  | Sem.Try _ | Sem.BenP | Sem.Push | Sem.Queued | Sem.Granted | Sem.Relock => AbstractLock.Trying false
  | Sem.Inside => AbstractLock.In
  | Sem.BenV _ | Sem.Pop => AbstractLock.Leaving
  end.

Definition sem_abs (s : Sem.state) : AbstractLock.state :=
  AbstractLock.mkState (Sem.owner s) (fun f => sem_phase (Sem.at_ (Sem.pcs s) f)).

Definition sem_event (l : Sem.label) (s : Sem.state) : option AbstractLock.label :=
  match l with
  | Sem.Acquire f => Some (AbstractLock.Begin f false)
  | Sem.TryAcquire f => Some (AbstractLock.Begin f true)
  | Sem.Release f => Some (AbstractLock.Release f true)
  | Sem.Go f =>
      let free := bool_decide (Sem.owner s = None) in
      match Sem.at_ (Sem.pcs s) f with
      | Sem.TryOnly => Some (if free then AbstractLock.Got f true else AbstractLock.Fail f)
      | Sem.Try _ | Sem.Relock => if free then Some (AbstractLock.Got f true) else None
      | Sem.BenV e => match ben_V_binary e (Sem.ben s) with (Done true, _) => Some (AbstractLock.Done f) | _ => None end
      | Sem.Pop => match Sem.queue s with [] => None | _ => Some (AbstractLock.Done f) end
      | _ => None
      end
  end.

#[local] Instance sem_lock_ops : LockOps Sem.state Sem.label := {|
  li_init := Sem.init;
  li_step := Sem.step SpinStart SpinEnd SpinCount YieldCount;
  li_acquire f b := if b then Sem.TryAcquire f else Sem.Acquire f;
  li_release := Sem.Release;
  li_abs := sem_abs;
  li_event := sem_event
|}.


Lemma sem_at_insert ps i c x : ps !! i = Some x -> Sem.at_ (<[i := c]> ps) = upd (Sem.at_ ps) i c.
Proof. intros Hi. apply functional_extensionality. by eapply Sem.at_insert. Qed.

Lemma sem_phases ps i c x : ps !! i = Some x ->
  (fun f => sem_phase (Sem.at_ (<[i := c]> ps) f)) = upd (fun f => sem_phase (Sem.at_ ps f)) i (sem_phase c).
Proof. intros Hi. erewrite sem_at_insert by done. apply upd_compose. Qed.

Lemma sem_event_ok l s s' : Sem.inv s -> Sem.inv s' -> Sem.step SpinStart SpinEnd SpinCount YieldCount l s = Some s' ->
  match sem_event l s with
  | Some b => AbstractLock.step b (sem_abs s) = Some (sem_abs s')
  | None => sem_abs s' = sem_abs s
  end.
Proof.
  intros Hi Hi' Hs. pose proof (Sem.i_ab _ Hi') as Hab. pose proof (Sem.i_owner _ Hi) as Ho. destruct s as [o b q ps ab].
  destruct l as [f|f|f|f]; cbn [Sem.step sem_event] in *; cbn in Ho.
  - destruct (ps !! f) as [[]|] eqn:Hf; try done. case_bool_decide; simplify_eq.
    unfold sem_abs. cbn. by rewrite (sem_phases _ _ _ _ Hf), (Sem.at_lookup _ _ _ Hf).
  - destruct (ps !! f) as [[]|] eqn:Hf; try done. case_bool_decide; simplify_eq.
    unfold sem_abs. cbn. by rewrite (sem_phases _ _ _ _ Hf), (Sem.at_lookup _ _ _ Hf).
  - destruct (ps !! f) as [c|] eqn:Hf; [|done]. cbn in Hs. cbn [Sem.pcs Sem.owner Sem.ben Sem.queue]. rewrite (Sem.at_lookup _ _ _ Hf).
    destruct c as [| |st| | | | | | |e|]; try done; cbn in Hs.
    all: assert (Hmv : forall c', (fun g => sem_phase (Sem.at_ (<[f := c']> ps) g)) = upd (fun g => sem_phase (Sem.at_ ps g)) f (sem_phase c'))
      by (intros; by eapply sem_phases).
    all: assert (Hat : sem_phase (Sem.at_ ps f) = sem_phase (Sem.at_ ps f)) by done; rewrite (Sem.at_lookup _ _ _ Hf) in Hat at 2.
    all: assert (Hno : Sem.has (Sem.at_ ps f) = false -> o <> Some f) by (intros E ->; pose proof (proj1 (Ho f) eq_refl); congruence).
    all: rewrite (Sem.at_lookup _ _ _ Hf) in Hno; try specialize (Hno eq_refl).
    1, 2, 6: destruct o as [g|]; cbn in Hs |- *; simplify_eq; unfold sem_abs; cbn; rewrite ?Hmv, ?Hat; try done;
      rewrite upd_same; try done; rewrite Hat; by try case_match.
    1: simplify_eq; unfold sem_abs; cbn; destruct (0 <? b); rewrite Hmv, upd_same; done.
    1, 2: simplify_eq; unfold sem_abs; cbn; rewrite Hmv, upd_same; done.
    + destruct (ben_V_binary e b) as [[[]|e'|] b']; simplify_eq; unfold sem_abs; cbn; rewrite ?Hmv, ?Hat; try done.
      * by rewrite bool_decide_eq_false_2.
      * by rewrite upd_same.
      * by rewrite upd_same.
    + destruct q as [|g q]; simplify_eq; [done|]. unfold sem_abs. cbn. rewrite Hat, bool_decide_eq_false_2 by done.
      assert (Hg : Sem.at_ ps g = Sem.Queued).
      { pose proof (proj1 (Sem.i_queue _ Hi g) ltac:(by left)) as Hg. cbn in Hg. by destruct (Sem.at_ ps g). }
      assert (Hfg : f <> g) by (intros ->; rewrite (Sem.at_lookup _ _ _ Hf) in Hg; done).
      do 2 f_equal. rewrite (sem_phases _ g _ Sem.Queued).
      * rewrite (Hmv Sem.Idle). symmetry. apply upd_same. by rewrite upd_ne, Hg.
      * rewrite list_lookup_insert_ne by done. by apply Sem.at_busy.
  - destruct (ps !! f) as [[]|] eqn:Hf; try done. case_bool_decide; simplify_eq.
    unfold sem_abs. cbn. by rewrite (sem_phases _ _ _ _ Hf), (Sem.at_lookup _ _ _ Hf).
Qed.

#[local] Instance sem_lock_laws : LockLaws Sem.state Sem.label.
Proof.
  refine {| li_inv := Sem.inv |}; cbn [li_init li_step li_abs li_event li_acquire li_release sem_lock_ops].
  - intros m Hm. pose proof Hm as [n ->]. split; [apply Sem.fast_reachable_inv with SpinStart SpinEnd SpinCount YieldCount; by apply reach_init|].
    unfold sem_abs, AbstractLock.init. cbn. f_equal. apply functional_extensionality. intros f. unfold Sem.at_.
    destruct (replicate n Sem.Idle !! f) as [c|] eqn:E; [|done]. apply lookup_replicate in E as [-> _]. done.
  - intros m l m' Hi Hs. assert (Hi' : Sem.inv m') by (by eapply Sem.fast_step_inv). split; [done|by apply sem_event_ok].
  - intros m f b _ _. by destruct b.
  - intros m f _ _. by eexists.
  - intros m f Hi Hf. destruct m as [o b q ps ab]. cbn in Hf. destruct (Sem.at_ ps f) eqn:Hat; try done.
    cbn. by rewrite (Sem.at_busy _ _ _ Hat) by done.
Defined.
End SemLock.


