(* ===== verification/Monitors.v ===== *)
(** Condition variables with a mutex: [fibre_cond_wait], [fibre_cond_timedwait],
    [fibre_cond_signal] and [fibre_cond_broadcast] of [src/libfibre/fibre.h]
    (and the [fibre_fastcond_] variants) over any implementation of the lock
    interface of [Locks] and the blocking queue of [Condition]. *)
From S2P Require Import Prelude Words Times Freds BlockingQueues Sync SpinMutexes Locks.
Local Open Scope Z_scope.

Definition ETIMEDOUT : Z := 110.

Section Monitor.
Context {M L : Type} `{Hlaws : LockLaws M L}.
Context (self : ptr).                       (* the condition's queue *)

(** Where a fred is in [fibre_cond_wait(cond, mutex)] or
    [fibre_cond_timedwait(cond, mutex, abstime)]; [a] is the time limit. *)
Inductive pc :=
| Outside                                   (* not waiting: may use the mutex *)
| Entered (sleep : bool) (a : wait_arg)     (* in [block]: about to call [lock.release()] *)
| Left (sleep : bool) (a : wait_arg)        (* in [lock.release()] *)
| Asleep (a : wait_arg)                     (* suspended *)
| Expired (a : wait_arg)                    (* not resumed by the queue: about to lock again *)
| Locking (a : wait_arg)                    (* in [lock.acquire()] of the [ScopedLock] *)
| Cleaned (a : wait_arg)                    (* its node removed: about to release *)
| Unlocking (a : wait_arg)
| Retry (r : Z) (a : wait_arg)              (* about to call [mutex->acquire()] *)
| Reacquiring (r : Z) (a : wait_arg).       (* in it *)

Record state := mkState {
  mutex : M;
  queue : BlockingQueue;
  pcs : fid -> pc;
  ret : fid -> option (wait_arg * Z);       (* the latest wait's time limit and result *)
  signalled : fid -> bool                   (* ghost: picked by [signal] since its latest call of wait *)
}.

Definition phase (s : state) (f : fid) : AbstractLock.phase := AbstractLock.phases (li_abs (mutex s)) f.
Definition inside (s : state) (f : fid) : bool := match phase s f with AbstractLock.In => true | _ => false end.
Definition outside (s : state) (f : fid) : bool := match phase s f with AbstractLock.Out => true | _ => false end.

Inductive label :=
| Lock (f : fid) (b : bool)                 (* a client calls [acquire], with a time limit or [tryAcquire]: [b] *)
| Unlock (f : fid)
| Inner (l : L)                             (* the mutex at work *)
| Wait (f : fid) (a : wait_arg) (now : Time)
| Signal (f : fid) (Broadcast : bool)
| Timer (f : fid) (p : ptr)
| Go (f : fid).

Definition at_pc (s : state) (f : fid) (c : pc) : state :=
  mkState (mutex s) (queue s) (upd (pcs s) f c) (ret s) (signalled s).
Definition with_mutex (s : state) (m : M) : state := mkState m (queue s) (pcs s) (ret s) (signalled s).

(** [fibre_cond_wait] and [fibre_cond_timedwait] up to the release of the lock. *)
Definition start_wait (s : state) (f : fid) (a : wait_arg) (now : Time) : state :=
  let sleep := block_suspends a now in
  mkState (mutex s) (if sleep then block_enter f (queue s) else queue s) (upd (pcs s) f (Entered sleep a))
    (upd (ret s) f None) (upd (signalled s) f false).

(** [fibre_cond_signal] and [fibre_cond_broadcast], called with the mutex. *)
Definition do_signal (s : state) (Broadcast : bool) : state :=
  let '(fs, q) := signal self Broadcast (queue s) in
  mkState (mutex s) q (pcs s) (ret s) (fun g => signalled s g || bool_decide (g ∈ fs)).

(** The next step of a fred that waits. *)
Definition go (s : state) (f : fid) : option state :=
  match pcs s f with
  | Outside => None
  | Entered sleep a => m ← li_step (li_release f) (mutex s); Some (with_mutex (at_pc s f (Left sleep a)) m)
  | Left sleep a => if outside s f then Some (at_pc s f (if sleep then Asleep a else Retry ETIMEDOUT a)) else None
  | Asleep a =>
      if resumes (queue s) f =? nullptr then None
      else Some (at_pc s f (if block_won self (resumes (queue s) f) then Retry 0 a else Expired a))
  | Expired a => m ← li_step (li_acquire f false) (mutex s); Some (with_mutex (at_pc s f (Locking a)) m)
  | Locking a =>
      if inside s f
      then Some (mkState (mutex s) (block_cleanup f (queue s)) (upd (pcs s) f (Cleaned a)) (ret s) (signalled s)) else None
  | Cleaned a => m ← li_step (li_release f) (mutex s); Some (with_mutex (at_pc s f (Unlocking a)) m)
  | Unlocking a => if outside s f then Some (at_pc s f (Retry ETIMEDOUT a)) else None
  | Retry r a => m ← li_step (li_acquire f false) (mutex s); Some (with_mutex (at_pc s f (Reacquiring r a)) m)
  | Reacquiring r a =>
      if inside s f
      then Some (mkState (mutex s) (queue s) (upd (pcs s) f Outside) (upd (ret s) f (Some (a, r))) (signalled s)) else None
  end.

Definition is_outside (c : pc) : bool := match c with Outside => true | _ => false end.
Definition may_wait (a : wait_arg) : bool := match a with BlockingQueues.Wait w => w | Until _ => true end.

Definition step (l : label) (s : state) : option state :=
  match l with
  | Lock f b => if is_outside (pcs s f) then m ← li_step (li_acquire f b) (mutex s); Some (with_mutex s m) else None
  | Unlock f => if is_outside (pcs s f) then m ← li_step (li_release f) (mutex s); Some (with_mutex s m) else None
  | Inner x => match call_of x (mutex s) with
               | None => m ← li_step x (mutex s); Some (with_mutex s m)
               | Some _ => None
               end
  | Wait f a now => if is_outside (pcs s f) && inside s f && may_wait a then Some (start_wait s f a now) else None
  | Signal f bc => if is_outside (pcs s f) && inside s f then Some (do_signal s bc) else None
  | Timer f p =>
      match pcs s f with
      | Asleep (Until _) => if (p =? nullptr) || (p =? self) then None
                            else Some (mkState (mutex s) (cancel_race f p (queue s)) (pcs s) (ret s) (signalled s))
      | _ => None
      end
  | Go f => go s f
  end.

Definition init (s : state) : Prop :=
  li_init (mutex s) /\ nodes (queue s) = [] /\ (forall f, pcs s f = Outside) /\ (forall f, ret s f = None).

Definition stand_of (c : pc) : stand :=
  match c with
  | Entered true _ | Left true _ | Asleep _ => Blocked
  | Expired _ | Locking _ => Cancelled
  | _ => Away
  end.

(** Where the fred is in the mutex while it waits. *)
Definition phase_ok (c : pc) (ph : AbstractLock.phase) : Prop :=
  match c with
  | Outside => True
  | Entered _ _ | Cleaned _ => ph = AbstractLock.In
  | Left _ _ | Unlocking _ => ph = AbstractLock.Leaving \/ ph = AbstractLock.Out
  | Asleep _ | Expired _ | Retry _ _ => ph = AbstractLock.Out
  | Locking _ | Reacquiring _ _ => ph = AbstractLock.Trying false \/ ph = AbstractLock.Won \/ ph = AbstractLock.In
  end.

Definition timed (a : wait_arg) : Prop := match a with Until _ => True | _ => False end.

(** What a wait that is on its way will return, [sg]: picked by a signal, [r]:
    its race. *)
Definition result_ok (c : pc) (sg : bool) (r : ptr) : Prop :=
  match c with
  | Outside => True
  | Entered true a | Left true a | Asleep a => (sg = true <-> r = self) /\ (timed a \/ r = nullptr \/ r = self)
  | Entered false a | Left false a => sg = false /\ timed a
  | Expired a | Locking a | Cleaned a | Unlocking a => sg = false /\ timed a
  | Retry x a | Reacquiring x a => x = 0 /\ sg = true \/ x = ETIMEDOUT /\ sg = false /\ timed a
  end.

Record inv (s : state) : Prop := mkInv {
  i_mutex : li_inv (mutex s) /\ reachable AbstractLock.init AbstractLock.step (li_abs (mutex s));
  i_queue : consistent self (stand_of ∘ pcs s) (queue s);
  i_phase f : phase_ok (pcs s f) (phase s f);
  i_result f : result_ok (pcs s f) (signalled s f) (resumes (queue s) f);
  i_ret f a r : ret s f = Some (a, r) -> pcs s f = Outside /\ (r = 0 /\ signalled s f = true \/ r = ETIMEDOUT /\ signalled s f = false /\ timed a)
}.

Hypothesis self_not_null : self <> nullptr.
Ltac fields := cbn [mutex queue pcs ret signalled at_pc with_mutex] in *.

(** A step of the mutex that is not a call moves nobody who waits. *)
Lemma inner_phase l m m' f c :
  li_inv m -> li_step l m = Some m' -> call_of l m = None ->
  phase_ok c (AbstractLock.phases (li_abs m) f) -> phase_ok c (AbstractLock.phases (li_abs m') f).
Proof.
  intros Hi Hs Hc Hp. destruct (li_step_ok m l m' Hi Hs) as [_ He]. unfold call_of in Hc.
  destruct (li_event l m) as [b|]; [|by rewrite He]. destruct (li_abs m) as [o ph], (li_abs m') as [o' ph']. cbn in *.
  destruct b as [g b|g b|g|g|g b|g b|g]; try done; cbn in He;
    destruct (ph g) as [|[]| | |] eqn:Hg; try done; try case_bool_decide; try destruct o; try done; simplify_eq;
    (destruct (decide (g = f)) as [->|]; [rewrite upd_eq; rewrite Hg in Hp|by rewrite upd_ne]); try (destruct b);
    destruct c as [|[] a|[] a|a|a|a|a|a|r a|r a]; cbn in *; naive_solver.
Qed.

(** A call moves the caller only. *)
Lemma call_phase l m m' f b :
  li_inv m -> li_step l m = Some m' -> li_event l m = Some b ->
  (exists x, b = AbstractLock.Begin f x) \/ (exists x, b = AbstractLock.Release f x) ->
  AbstractLock.phases (li_abs m') =
    upd (AbstractLock.phases (li_abs m)) f
      (match b with AbstractLock.Begin _ x => AbstractLock.Trying x | _ => AbstractLock.Leaving end) /\
  AbstractLock.phases (li_abs m) f = match b with AbstractLock.Begin _ _ => AbstractLock.Out | _ => AbstractLock.In end.
Proof.
  intros Hi Hs He Hb. destruct (li_step_ok m l m' Hi Hs) as [_ Ha]. rewrite He in Ha. destruct (li_abs m) as [o ph], (li_abs m') as [o' ph'].
  destruct Hb as [[x ->]|[x ->]]; cbn in Ha |- *; destruct (ph f); try done; by simplify_eq.
Qed.

Lemma mutex_ok l m m' :
  li_step l m = Some m' ->
  li_inv m /\ reachable AbstractLock.init AbstractLock.step (li_abs m) ->
  li_inv m' /\ reachable AbstractLock.init AbstractLock.step (li_abs m').
Proof.
  intros Hs [Hi Hr]. destruct (li_step_ok m l m' Hi Hs) as [Hi' He]. split; [done|].
  destruct (li_event l m); [by eapply reach_step|by rewrite He].
Qed.

(** A fred's call of [acquire] or [release], and its new place. *)
Lemma call_ok s f l m b c :
  inv s -> li_step l (mutex s) = Some m -> li_event l (mutex s) = Some b ->
  (exists x, b = AbstractLock.Begin f x) \/ (exists x, b = AbstractLock.Release f x) ->
  stand_of c = stand_of (pcs s f) ->
  phase_ok c (match b with AbstractLock.Begin _ x => AbstractLock.Trying x | _ => AbstractLock.Leaving end) ->
  result_ok c (signalled s f) (resumes (queue s) f) ->
  (c = Outside \/ pcs s f <> Outside) ->
  inv (with_mutex (at_pc s f c) m).
Proof.
  intros [Hm Hq Hp Hr Hret] Hs He Hb Hst Hph Hres Hc. destruct (call_phase _ _ _ _ _ (proj1 Hm) Hs He Hb) as [Hphs _].
  split; fields; try done.
  - by eapply mutex_ok.
  - eapply consistent_proper; [|reflexivity|exact Hq]. intros g. cbn. at_fred g f; [by rewrite Hst|done].
  - intros g. unfold phase. fields. rewrite Hphs. at_fred g f; [done|apply Hp].
  - intros g. at_fred g f; [done|apply Hr].
  - intros g a r Hg. destruct (Hret g a r Hg) as [Hgo ?]. split; [|done]. at_fred g f; [|done]. naive_solver.
Qed.

(** A fred that waits moves on without the mutex. *)
Lemma move_ok s f c q :
  inv s -> consistent self (stand_of ∘ upd (pcs s) f c) q -> resumes q = resumes (queue s) ->
  phase_ok c (phase s f) -> result_ok c (signalled s f) (resumes (queue s) f) -> pcs s f <> Outside ->
  inv (mkState (mutex s) q (upd (pcs s) f c) (ret s) (signalled s)).
Proof.
  intros [Hm Hq Hp Hr Hret] Hq' Hrs Hph Hres Hc. split; fields; try done.
  - intros g. at_fred g f; [done|apply Hp].
  - intros g. rewrite Hrs. at_fred g f; [done|apply Hr].
  - intros g a r Hg. destruct (Hret g a r Hg) as [Hgo ?]. split; [|done]. at_fred g f; [|done]. naive_solver.
Qed.

Lemma same_stand s f c : inv s -> stand_of c = stand_of (pcs s f) -> consistent self (stand_of ∘ upd (pcs s) f c) (queue s).
Proof.
  intros Hi Hc. eapply consistent_proper; [|reflexivity|apply (i_queue _ Hi)]. intros g. cbn. at_fred g f; [by rewrite Hc|done].
Qed.

Lemma upd_stand s f c d : stand_of c = d -> pointwise_relation fid eq (stand_of ∘ upd (pcs s) f c) (upd (stand_of ∘ pcs s) f d).
Proof. intros <- g. cbn. by at_fred g f. Qed.

Lemma inside_phase s f : inside s f = true <-> phase s f = AbstractLock.In.
Proof. unfold inside. by destruct (phase s f). Qed.
Lemma outside_phase s f : outside s f = true <-> phase s f = AbstractLock.Out.
Proof. unfold outside. by destruct (phase s f). Qed.

Lemma stay s f m : pcs s f = Outside -> with_mutex s m = with_mutex (at_pc s f Outside) m.
Proof. intros Hf. unfold with_mutex, at_pc. cbn. by rewrite upd_same. Qed.

Lemma acquire_ok s f b m c :
  inv s -> li_step (li_acquire f b) (mutex s) = Some m -> stand_of c = stand_of (pcs s f) ->
  phase_ok c (AbstractLock.Trying b) -> result_ok c (signalled s f) (resumes (queue s) f) -> (c = Outside \/ pcs s f <> Outside) ->
  inv (with_mutex (at_pc s f c) m).
Proof.
  intros Hi Hs Hst Hp Hr Hc. pose proof (li_acquire_event _ f b (proj1 (i_mutex _ Hi)) ltac:(by eexists)) as He.
  eapply call_ok; [done|done|exact He|left; by eexists|done..].
Qed.

Lemma release_ok s f m c :
  inv s -> li_step (li_release f) (mutex s) = Some m -> stand_of c = stand_of (pcs s f) ->
  phase_ok c AbstractLock.Leaving -> result_ok c (signalled s f) (resumes (queue s) f) -> (c = Outside \/ pcs s f <> Outside) ->
  inv (with_mutex (at_pc s f c) m).
Proof.
  intros Hi Hs Hst Hp Hr Hc. destruct (li_release_event _ f (proj1 (i_mutex _ Hi)) ltac:(by eexists)) as [b He].
  eapply call_ok; [done|done|exact He|right; by eexists|done..].
Qed.

Lemma start_wait_ok s f a now :
  inv s -> pcs s f = Outside -> phase s f = AbstractLock.In -> may_wait a = true -> inv (start_wait s f a now).
Proof.
  intros [Hm Hq Hp Hr Hret] Hf Hin Ha. unfold start_wait. set (sl := block_suspends a now). split; fields; try done.
  - rewrite upd_stand by reflexivity. assert (Haw : (stand_of ∘ pcs s) f = Away) by (cbn; by rewrite Hf).
    destruct sl; cbn; [by apply consistent_enter|]. rewrite <- (upd_same (stand_of ∘ pcs s) f Away Haw) in Hq. done.
  - intros g. unfold phase. fields. at_fred g f; [exact Hin|apply Hp].
  - intros g. unfold block_enter. at_fred g f.
    + destruct sl eqn:Hsl; cbn.
      * rewrite upd_eq. split; [|by right; left]. split; [done|]. intros E. by rewrite E in self_not_null.
      * split; [done|]. destruct a; [|done]. cbn in Ha. unfold sl in Hsl. cbn in Hsl. congruence.
    + destruct sl; cbn; [rewrite upd_ne by done|]; apply Hr.
  - intros g a' r. at_fred g f; [done|]. apply Hret.
Qed.

Lemma signal_step_ok s bc : inv s -> inv (do_signal s bc).
Proof.
  intros [Hm Hq Hp Hr Hret]. unfold do_signal.
  destruct (signal_ok self self_not_null _ _ Hq) as (H1 & H2 & _ & Hc1 & Hc2).
  pose proof (signal_resumes self self_not_null _ _ bc Hq) as Hrs.
  assert (Hin : forall g, g ∈ (signal self bc (queue s)).1 -> g ∈ waiting (queue s)).
  { intros g. destruct bc; [by rewrite H2|rewrite H1]. destruct (waiting (queue s)); [done|]. intros ->%list_elem_of_singleton. by left. }
  assert (Hc : consistent self (stand_of ∘ pcs s) (signal self bc (queue s)).2) by (by destruct bc).
  destruct (signal self bc (queue s)) as [fs q]. cbn in *. split; fields; try done.
  - intros g. rewrite Hrs. destruct (decide (g ∈ fs)) as [Hg|Hg].
    + rewrite bool_decide_eq_true_2, orb_true_r by done. apply Hin, (waiting_blocked self self_not_null _ _ g Hq) in Hg as [Hb Hnull].
      specialize (Hr g). cbn in Hb. destruct (pcs s g) as [|[] a|[] a|a|a|a|a|a|r a|r a]; try done; cbn in Hr |- *; tauto.
    + rewrite bool_decide_eq_false_2, orb_false_r by done. apply Hr.
  - intros g a r Hg. destruct (Hret g a r Hg) as [Ho Hg']. split; [done|].
    assert (g ∉ fs) as Hn. { intros Hin'%Hin. apply (waiting_blocked self self_not_null _ _ g Hq) in Hin' as [Hb _]. cbn in Hb. by rewrite Ho in Hb. }
    by rewrite bool_decide_eq_false_2, orb_false_r.
Qed.

Lemma go_ok s f s' : inv s -> go s f = Some s' -> inv s'.
Proof.
  intros Hi Hs. pose proof (i_phase _ Hi f) as Hp. pose proof (i_result _ Hi f) as Hr. pose proof (i_queue _ Hi) as Hq. unfold go in Hs.
  destruct (pcs s f) as [|sl a|sl a|a|a|a|a|a|r a|r a] eqn:Hf; [done|..].
  - destruct (li_step _ _) as [m|] eqn:Hm; cbn in Hs; simplify_eq.
    apply (release_ok _ _ _ _ Hi Hm); [by rewrite Hf; destruct sl|by left|done|right; congruence].
  - destruct (outside s f) eqn:Ho; simplify_eq. apply outside_phase in Ho.
    apply (move_ok s f _ (queue s) Hi); [|done|by destruct sl| |congruence].
    + apply same_stand; [done|]. rewrite Hf. by destruct sl.
    + destruct sl; [done|]. right. cbn in Hr. tauto.
  - destruct (Z.eqb_spec (resumes (queue s) f) nullptr) as [|Hn]; [done|]. simplify_eq. unfold block_won. cbn in Hr.
    apply (move_ok s f _ (queue s) Hi); try done; [|by destruct (_ =? _)| |congruence].
    + rewrite upd_stand by reflexivity. assert (Hb : (stand_of ∘ pcs s) f = Blocked) by (cbn; by rewrite Hf).
      pose proof (consistent_wake self self_not_null _ _ _ Hb Hn Hq) as Hw.
      destruct (_ =? _); exact Hw.
    + destruct (Z.eqb_spec (resumes (queue s) f) self) as [E|E]; cbn.
      * left. tauto.
      * destruct Hr as [Hr1 [Ht|[?|?]]]; try done. split; [|done]. destruct (signalled s f); [|done]. by apply Hr1 in E || (destruct E; by apply Hr1).
  - destruct (li_step _ _) as [m|] eqn:Hm; cbn in Hs; simplify_eq.
    apply (acquire_ok _ _ _ _ _ Hi Hm); [by rewrite Hf|by left|done|right; congruence].
  - destruct (inside s f) eqn:Hin; simplify_eq. apply inside_phase in Hin.
    apply (move_ok s f _ _ Hi); try done; [|congruence].
    rewrite upd_stand by reflexivity. assert (Hb : (stand_of ∘ pcs s) f = Cancelled) by (cbn; by rewrite Hf).
    by first [apply consistent_cleanup|apply (consistent_cleanup self self_not_null)].
  - destruct (li_step _ _) as [m|] eqn:Hm; cbn in Hs; simplify_eq.
    apply (release_ok _ _ _ _ Hi Hm); [by rewrite Hf|by left|done|right; congruence].
  - destruct (outside s f) eqn:Ho; simplify_eq. apply outside_phase in Ho.
    apply (move_ok s f _ (queue s) Hi); try done; [apply same_stand; [done|by rewrite Hf]|right; cbn in Hr; tauto|congruence].
  - destruct (li_step _ _) as [m|] eqn:Hm; cbn in Hs; simplify_eq.
    apply (acquire_ok _ _ _ _ _ Hi Hm); [by rewrite Hf|by left|done|right; congruence].
  - destruct (inside s f) eqn:Hin; simplify_eq. apply inside_phase in Hin. destruct Hi as [Hm Hq' Hp' Hr' Hret]. split; fields; try done.
    + eapply consistent_proper; [|reflexivity|exact Hq]. intros g. cbn. at_fred g f; [by rewrite Hf|done].
    + intros g. unfold phase. fields. at_fred g f; [done|apply Hp'].
    + intros g. at_fred g f; [done|apply Hr'].
    + intros g a' r'. at_fred g f; [intros [= <- <-]; split; [done|exact Hr]|apply Hret].
Qed.

Lemma monitor_step_inv l s s' : inv s -> step l s = Some s' -> inv s'.
Proof.
  intros Hi Hs. destruct l as [f b|f|x|f a now|f bc|f p|f]; cbn [step] in Hs.
  - destruct (is_outside (pcs s f)) eqn:Ho; [|done]. destruct (pcs s f) eqn:Hf; try done.
    destruct (li_step _ _) as [m|] eqn:Hm; cbn in Hs; simplify_eq. rewrite (stay s f) by done.
    apply (acquire_ok _ _ _ _ _ Hi Hm); [by rewrite Hf|done|done|by left].
  - destruct (is_outside (pcs s f)) eqn:Ho; [|done]. destruct (pcs s f) eqn:Hf; try done.
    destruct (li_step _ _) as [m|] eqn:Hm; cbn in Hs; simplify_eq. rewrite (stay s f) by done.
    apply (release_ok _ _ _ _ Hi Hm); [by rewrite Hf|done|done|by left].
  - destruct (call_of x (mutex s)) eqn:Hc; [done|]. destruct (li_step _ _) as [m|] eqn:Hm; cbn in Hs; simplify_eq.
    destruct Hi as [Hmu Hq Hp Hr Hret]. split; fields; try done; [by eapply mutex_ok|].
    intros f. eapply inner_phase; [apply Hmu|done|done|apply Hp].
  - destruct (is_outside (pcs s f)) eqn:Ho; [|done]. destruct (inside s f) eqn:Hin; [|done]. destruct (may_wait a) eqn:Ha; [|done].
    cbn in Hs. simplify_eq. apply start_wait_ok; [done|by destruct (pcs s f)|by apply inside_phase|done].
  - destruct (is_outside (pcs s f) && inside s f); [|done]. simplify_eq. by apply signal_step_ok.
  - destruct (pcs s f) as [| | |[|t]| | | | | |] eqn:Hf; try done. destruct ((p =? nullptr) || (p =? self)) eqn:Hps; [done|]. simplify_eq.
    apply orb_false_iff in Hps as [Hp1 Hp2]. bool_prop. destruct Hi as [Hmu Hq Hp Hr Hret]. split; fields; try done.
    + by apply consistent_cancel.
    + intros g. specialize (Hr g). unfold cancel_race. destruct (resumes (queue s) f =? nullptr) eqn:E; [|done]. bool_prop. cbn.
      destruct (decide (f = g)) as [<-|]; [|by rewrite upd_ne]. rewrite upd_eq, Hf in *. cbn in *. naive_solver.
  - by eapply go_ok.
Qed.

Lemma monitor_reachable_inv s : reachable init step s -> inv s.
Proof.
  apply invariant_rule; [|intros s0 l s' Hi Hs; by eapply monitor_step_inv].
  intros s0 (Hm & Hq & Hp & Hr). destruct (li_init_ok _ Hm) as [Hi Ha]. split.
  - split; [done|by apply reach_init].
  - destruct (queue s0) as [l r]. cbn in Hq. subst l. apply consistent_init. intros f. cbn. by rewrite Hp.
  - intros f. by rewrite Hp.
  - intros f. by rewrite Hp.
  - intros f a r. by rewrite Hr.
Qed.

(** The fred that makes a step itself, outside the mutex's own work. *)
Definition actor (l : label) : option fid :=
  match l with
  | Lock f _ | Unlock f | Wait f _ _ | Signal f _ | Go f => Some f
  | Inner _ | Timer _ _ => None
  end.

(** The queue's nodes change under the mutex only. *)
Lemma queue_step l s s' : step l s = Some s' ->
  nodes (queue s') = nodes (queue s) \/ exists f, actor l = Some f /\ inside s f = true.
Proof.
  intros Hs. destruct l as [f b|f|x|f a now|f bc|f p|f]; cbn [step] in Hs.
  - destruct (is_outside (pcs s f)); [|done]. destruct (li_step _ _); cbn in Hs; simplify_eq. by left.
  - destruct (is_outside (pcs s f)); [|done]. destruct (li_step _ _); cbn in Hs; simplify_eq. by left.
  - destruct (call_of x (mutex s)); [done|]. destruct (li_step _ _); cbn in Hs; simplify_eq. by left.
  - destruct (inside s f) eqn:Hin; [right; by eauto|]. by rewrite andb_false_r in Hs.
  - destruct (inside s f) eqn:Hin; [right; by eauto|]. by rewrite andb_false_r in Hs.
  - left. repeat split_match_in Hs; simplify_eq. cbn. unfold cancel_race. by destruct (resumes _ _ =? _).
  - unfold go in Hs. destruct (pcs s f); repeat split_match_in Hs; simplify_eq; try by left.
    all: try (destruct (li_step _ _); cbn in Hs; simplify_eq; by left).
    right. by eauto.
Qed.

(** A result appears when the fred returns with the mutex. *)
Lemma ret_step l s s' f a r : step l s = Some s' -> ret s f = None -> ret s' f = Some (a, r) ->
  l = Go f /\ pcs s f = Reacquiring r a /\ inside s' f = true.
Proof.
  intros Hs Hn Hr. destruct l as [g b|g|x|g a' now|g bc|g p|g]; cbn [step] in Hs.
  1-2: destruct (is_outside (pcs s g)); [|done]; destruct (li_step _ _); cbn in Hs; simplify_eq; cbn in Hr; congruence.
  - destruct (call_of x (mutex s)); [done|]. destruct (li_step _ _); cbn in Hs; simplify_eq. cbn in Hr. congruence.
  - repeat split_match_in Hs; simplify_eq. cbn in Hr. at_fred f g; congruence.
  - repeat split_match_in Hs; simplify_eq. unfold do_signal in Hr. destruct (signal _ _ _). cbn in Hr. congruence.
  - repeat split_match_in Hs; simplify_eq. cbn in Hr. congruence.
  - unfold go in Hs. destruct (pcs s g) eqn:Hg; try (destruct (li_step _ _)); cbn in Hs; repeat split_match_in Hs; simplify_eq;
      cbn in Hr; try congruence. at_fred f g; [|congruence]. by simplify_eq.
Qed.

(** What [signal] does in a run. *)
Lemma do_signal_picks s bc : inv s ->
  let w := waiting (queue s) in
  waiting (queue (do_signal s bc)) = (if bc then [] else drop 1 w) /\
  forall g, signalled (do_signal s bc) g = signalled s g || bool_decide (g ∈ (if bc then w else take 1 w)).
Proof.
  intros Hi. pose proof (i_queue _ Hi) as Hq. destruct (signal_ok self self_not_null _ _ Hq) as (H1 & H2 & H3 & _).
  pose proof (unblock_ok self self_not_null _ _ Hq) as Hu. unfold do_signal. destruct bc.
  - destruct (signal self true (queue s)) as [fs q]. cbn in *. by rewrite H2, H3.
  - unfold signal in *. cbn in *. destruct (unblock self (queue s)) as [[f|] q]; cbn in *.
    + destruct Hu as (_ & _ & _ & -> & _). done.
    + by destruct Hu as [-> ->].
Qed.

End Monitor.

(** Fred 0 waits without a time limit and fred 1 with one, on a
    [fibre_fastmutex_t]; fred 2 signals; 0 returns with 0, and 1 times out. *)
Definition fast_step := @step Sem.state Sem.label (sem_lock_ops 1 0 0 0) 9.
Definition enter (f : fid) : list (label (L := Sem.label)) := [Lock f false; Inner (Sem.Go f)].
Definition leave (f : fid) : list (label (L := Sem.label)) := [Inner (Sem.Go f)].
Definition monitor_start : state (M := Sem.state) :=
  mkState sem_start (mkBQ [] (fun _ => 1)) (fun _ => Outside) (fun _ => None) (fun _ => false).
Definition monitor_run : list (label (L := Sem.label)) :=
  enter 0 ++ [Wait 0 (BlockingQueues.Wait true) zero; Go 0] ++ leave 0 ++ [Go 0] ++
  enter 1 ++ [Wait 1 (Until (fromMS 5)) zero; Go 1] ++ leave 1 ++ [Go 1; Timer 1 3; Go 1] ++
  enter 2 ++ [Signal 2 false; Unlock 2] ++ leave 2 ++
  [Go 0; Go 0; Inner (Sem.Go 0)].

