(* ===== verification/SimpleMutexes.v ===== *)
(** [SimpleMutex0] in [src/runtime/BlockingSync.h]: a [Benaphore] ([Benaphore.h])
    that counts, with a [LimitedSemaphore0] on which freds wait.  It hands the
    mutex over to the fred that it wakes.  Each access to a shared word is a step;
    any number of freds. *)
From S2P Require Import Prelude Words Times Freds BlockingQueues SpinMutexes Locks.
From Stdlib Require Import FunctionalExtensionality.
Local Open Scope Z_scope.

Module Simple.

Inductive pc :=
| Idle
| TryLoad                 (* tryAcquire(): ben.tryP(), before the load *)
| TryCas (c : Z)          (* before the compare-and-swap of c-1 for c *)
| BenP                    (* acquire(): ben.P() *)
| Push                    (* sem.P(): before the push on the queue *)
| Queued                  (* pushed; suspends *)
| Granted                 (* taken off the queue by V, not yet resumed *)
| Woken                   (* resumed; returns from acquire() *)
| Inside
| BenV                    (* release(): ben.V() *)
| Pop                     (* in sem.V<false>(): takes the next fred off the queue *)
| Resume (g : nat).       (* before the resumption of that fred *)

Record state := mkState {
  ben : Z; queue : list nat; pcs : list pc;
  owner : option nat      (* who has the mutex (ghost) *)
}.
Inductive label := Acquire (i : nat) | TryAcquire (i : nat) | Go (i : nat) | Release (i : nat).

Definition go (i : nat) (c : pc) (s : state) : option state :=
  let 'mkState b q ps o := s in
  let goto c' := mkState b q (<[i := c']> ps) o in
  match c with
  | TryLoad => Some (goto (if 1 <=? b then TryCas b else Idle))
  | TryCas c => Some (if b =? c then mkState (c - 1) q (<[i := Inside]> ps) (Some i) else goto Idle)
  | BenP => let '(ok, b') := ben_P b in Some (mkState b' q (<[i := if ok then Inside else Push]> ps) (if ok then Some i else o))
  | Push => Some (mkState b (q ++ [i]) (<[i := Queued]> ps) o)
  | Woken => Some (goto Inside)
  | BenV => let '(ok, b') := ben_V b in Some (mkState b' q (<[i := if ok then Idle else Pop]> ps) None)
  | Pop =>
      match q with
      | [] => Some s                                     (* spins or yields *)
      | g :: q' => Some (mkState b q' (<[g := Granted]> (<[i := Resume g]> ps)) (Some g))
      end
  | Resume g =>
      match ps !! g with
      | Some Granted => Some (mkState b q (<[g := Woken]> (<[i := Idle]> ps)) o)
      | _ => None
      end
  | _ => None
  end.
Definition step (l : label) (s : state) : option state :=
  let 'mkState b q ps o := s in
  match l with
  | Acquire i => match ps !! i with Some Idle => Some (mkState b q (<[i := BenP]> ps) o) | _ => None end
  | TryAcquire i => match ps !! i with Some Idle => Some (mkState b q (<[i := TryLoad]> ps) o) | _ => None end
  | Go i => c ← ps !! i; go i c s
  | Release i => match ps !! i with Some Inside => Some (mkState b q (<[i := BenV]> ps) o) | _ => None end
  end.
Definition init (s : state) : Prop := exists n, s = mkState 1 [] (replicate n Idle) None.
(** [reset()]: nobody has the mutex, nobody waits. *)
Definition reset (s : state) : option unit := _ ← rassert (ben s =? 1); rassert (match queue s with [] => true | _ => false end).

(** * The invariant *)
Definition at_ (ps : list pc) (i : nat) : pc := default Idle (ps !! i).
Definition has (c : pc) : bool := match c with Granted | Woken | Inside | BenV => true | _ => false end.
Definition waits (c : pc) : bool := match c with Push | Queued => true | _ => false end.
Definition pops (c : pc) : bool := match c with Pop => true | _ => false end.
Definition queued (c : pc) : bool := match c with Queued => true | _ => false end.
Definition granted (c : pc) : bool := match c with Granted => true | _ => false end.
Definition resuming (c : pc) : bool := match c with Resume _ => true | _ => false end.
Definition held (o : option nat) : Z := match o with Some _ => 1 | None => 0 end.

Record inv (s : state) : Prop := mkInv {
  i_owner : tracks (owner s) has (at_ (pcs s));
  i_count : ben s = 1 - held (owner s) - cnt waits (pcs s);
  i_one : held (owner s) + cnt pops (pcs s) = Z.min 1 (1 - ben s);
  i_queue i : i ∈ queue s <-> queued (at_ (pcs s) i) = true;
  i_nodup : NoDup (queue s);
  i_granted : cnt resuming (pcs s) = cnt granted (pcs s);
  i_resume i g : pcs s !! i = Some (Resume g) -> pcs s !! g = Some Granted;
  i_cas i c : pcs s !! i = Some (TryCas c) -> 1 <= c
}.

Lemma simple_at_insert ps i c x : ps !! i = Some x -> at_ (<[i := c]> ps) = upd (at_ ps) i c.
Proof.
  intros Hi. apply functional_extensionality. intros j. unfold at_. at_fred j i.
  - by rewrite list_lookup_insert_eq by (by eapply lookup_lt_Some).
  - by rewrite list_lookup_insert_ne.
Qed.
Lemma simple_at_lookup ps i c : ps !! i = Some c -> at_ ps i = c.
Proof. intros H. unfold at_. by rewrite H. Qed.
Lemma simple_at_busy ps i c : at_ ps i = c -> c <> Idle -> ps !! i = Some c.
Proof. unfold at_. destruct (ps !! i); simpl; congruence. Qed.

Lemma simple_init_inv s : init s -> inv s.
Proof.
  intros [n ->]. assert (Hat : forall i, at_ (replicate n Idle) i = Idle).
  { intros i. unfold at_. destruct (_ !! i) as [c|] eqn:E; [|done]. by apply lookup_replicate in E as [-> _]. }
  constructor; cbn; rewrite ?cnt_replicate; cbn; try lia; try done.
  - intros i. by rewrite Hat.
  - intros i. rewrite Hat. split; [by intros ?%elem_of_nil|done].
  - constructor.
  - intros i g H. by apply lookup_replicate in H as [? _].
  - intros i c H. by apply lookup_replicate in H as [? _].
Qed.

(** Fred [i] moves from [x] to [c] without touching the queue or another fred. *)
Lemma simple_move_ok b q ps o i x c b' o' : inv (mkState b q ps o) -> ps !! i = Some x ->
  tracks o' has (upd (at_ ps) i c) ->
  b' - b = held o - held o' + Z.b2z (waits x) - Z.b2z (waits c) ->
  held o' + (cnt pops ps - Z.b2z (pops x) + Z.b2z (pops c)) = Z.min 1 (1 - b') ->
  queued c = queued x -> granted c = granted x -> resuming c = false -> resuming x = false -> (forall e, c = TryCas e -> 1 <= e) -> granted x = false ->
  inv (mkState b' q (<[i := c]> ps) o').
Proof.
  intros [Ho Hc H1 Hq Hn Hg Hr Ht] Hi Ho' Hb Hp Hqu Hgr Hrc Hrx Hcas Hgx. cbn in *. pose proof (simple_at_insert ps i c x Hi) as Hat.
  constructor; cbn; try done.
  - by rewrite Hat.
  - rewrite (cnt_insert _ _ _ _ _ Hi). lia.
  - rewrite (cnt_insert _ _ _ _ _ Hi). lia.
  - intros j. rewrite Hat, (Hq j). at_fred j i; [|done]. by rewrite Hqu, (simple_at_lookup _ _ _ Hi).
  - rewrite !(cnt_insert _ _ _ _ _ Hi), Hgr, Hrc, Hrx. lia.
  - intros j g Hj. destruct (lookup_moved _ _ _ _ _ _ Hi Hj) as [[<- E]|[_ Hj']]; [by rewrite <- E in Hrc|].
    apply Hr in Hj'. rewrite list_lookup_insert_ne; [done|]. intros ->. rewrite Hi in Hj'. injection Hj' as ->. done.
  - intros j e Hj. destruct (lookup_moved _ _ _ _ _ _ Hi Hj) as [[<- E]|[_ Hj']]; [by apply Hcas|by eapply Ht].
Qed.

Lemma simple_push_ok b q ps o i : inv (mkState b q ps o) -> ps !! i = Some Push -> inv (mkState b (q ++ [i]) (<[i := Queued]> ps) o).
Proof.
  intros [Ho Hc H1 Hq Hn Hg Hr Ht] Hi. cbn in *. pose proof (simple_at_insert ps i Queued _ Hi) as Hat.
  assert (Hiq : i ∉ q) by (rewrite Hq, (simple_at_lookup _ _ _ Hi); done).
  constructor; cbn; try done.
  - rewrite Hat. apply tracks_same; [done|]. by rewrite (simple_at_lookup _ _ _ Hi).
  - rewrite (cnt_insert _ _ _ _ _ Hi). cbn. lia.
  - rewrite (cnt_insert _ _ _ _ _ Hi). cbn. lia.
  - intros j. rewrite Hat, elem_of_app, list_elem_of_singleton, (Hq j). at_fred j i; [tauto|]. naive_solver.
  - apply NoDup_app. split_and!; [done| |apply NoDup_singleton]. intros y Hy ->%list_elem_of_singleton. done.
  - rewrite !(cnt_insert _ _ _ _ _ Hi). cbn. lia.
  - intros j g Hj. destruct (lookup_moved _ _ _ _ _ _ Hi Hj) as [[<- ?]|[_ Hj']]; [done|]. apply Hr in Hj'.
    rewrite list_lookup_insert_ne; [done|]. intros ->. by rewrite Hi in Hj'.
  - intros j e Hj. destruct (lookup_moved _ _ _ _ _ _ Hi Hj) as [[<- ?]|[_ Hj']]; [done|by eapply Ht].
Qed.

(** Two freds move: [i], then [g]. *)
Lemma two_moved {A} (ps : list A) (i g : nat) x y c d (j : nat) z : ps !! i = Some x -> ps !! g = Some y -> i <> g ->
  <[g := d]> (<[i := c]> ps) !! j = Some z -> (j = g /\ z = d) \/ (j = i /\ z = c) \/ (j <> g /\ j <> i /\ ps !! j = Some z).
Proof.
  intros Hi Hg Hne Hj. assert (Hg' : <[i := c]> ps !! g = Some y) by (by rewrite list_lookup_insert_ne).
  destruct (lookup_moved _ _ _ _ _ _ Hg' Hj) as [[-> ->]|[? Hj']]; [by left|].
  destruct (lookup_moved _ _ _ _ _ _ Hi Hj') as [[-> ->]|[? ?]]; [by right; left|by right; right].
Qed.

Lemma simple_pop_ok b g q ps o i : inv (mkState b (g :: q) ps o) -> ps !! i = Some Pop ->
  inv (mkState b q (<[g := Granted]> (<[i := Resume g]> ps)) (Some g)) /\ o = None /\ ps !! g = Some Queued.
Proof.
  intros [Ho Hc H1 Hq Hn Hg Hr Ht] Hi. cbn in *.
  assert (Hgq : ps !! g = Some Queued).
  { apply simple_at_busy; [|done]. specialize (Hq g). destruct (at_ ps g); try done; destruct Hq as [Hq _]; by discriminate (Hq ltac:(by left)). }
  assert (Hne : i <> g) by congruence.
  assert (Hg' : <[i := Resume g]> ps !! g = Some Queued) by (by rewrite list_lookup_insert_ne).
  pose proof (simple_at_insert _ g Granted _ Hg') as Hat. rewrite (simple_at_insert ps i (Resume g) _ Hi) in Hat.
  apply NoDup_cons in Hn as [Hgn Hn]. pose proof (cnt_member pops ps i _ Hi) as Hp. pose proof (cnt_member waits ps g _ Hgq) as Hw. cbn in Hp, Hw.
  assert (o = None) as -> by (destruct o; [cbn in *; lia|done]). cbn in *.
  split; [|done]. assert (Hno : forall j, has (at_ ps j) = false).
  { intros j. destruct (has (at_ ps j)) eqn:E; [|done]. by apply Ho in E. }
  constructor; cbn; try done.
  - rewrite Hat. apply tracks_gain; [|done]. apply tracks_same; [done|]. by rewrite (simple_at_lookup _ _ _ Hi).
  - rewrite (cnt_insert _ _ _ _ _ Hg'), (cnt_insert _ _ _ _ _ Hi). cbn. lia.
  - rewrite (cnt_insert _ _ _ _ _ Hg'), (cnt_insert _ _ _ _ _ Hi). cbn. lia.
  - intros j. rewrite Hat. at_fred j g; [split; done|]. specialize (Hq j). rewrite elem_of_cons in Hq.
    at_fred j i; [|naive_solver]. rewrite (simple_at_lookup _ _ _ Hi) in Hq. naive_solver.
  - rewrite !(cnt_insert _ _ _ _ _ Hg'), !(cnt_insert _ _ _ _ _ Hi). cbn. lia.
  - intros j h Hj. destruct (two_moved _ _ _ _ _ _ _ _ _ Hi Hgq Hne Hj) as [[_ ?]|[[-> E]|(_ & _ & Hj')]]; [done| |].
    + injection E as ->. rewrite list_lookup_insert_eq; [done|]. rewrite length_insert. by eapply lookup_lt_Some.
    + apply Hr in Hj'. specialize (Hno h). by rewrite (simple_at_lookup _ _ _ Hj') in Hno.
  - intros j e Hj. destruct (two_moved _ _ _ _ _ _ _ _ _ Hi Hgq Hne Hj) as [[_ ?]|[[_ ?]|(_ & _ & Hj')]]; [done..|]. by eapply Ht.
Qed.

Lemma simple_resume_ok b q ps o i g : inv (mkState b q ps o) -> ps !! i = Some (Resume g) -> ps !! g = Some Granted ->
  inv (mkState b q (<[g := Woken]> (<[i := Idle]> ps)) o).
Proof.
  intros [Ho Hc H1 Hq Hn Hg Hr Ht] Hi Hgg. cbn in *. assert (Hne : i <> g) by congruence.
  assert (Hg' : <[i := Idle]> ps !! g = Some Granted) by (by rewrite list_lookup_insert_ne).
  pose proof (simple_at_insert _ g Woken _ Hg') as Hat. rewrite (simple_at_insert ps i Idle _ Hi) in Hat.
  assert (Huniq : forall j, granted (at_ ps j) = true -> j = g).
  { intros j Hj. assert (has (at_ ps j) = true) as Hj' by (by destruct (at_ ps j)). apply Ho in Hj'.
    assert (has (at_ ps g) = true) as Hgh by (by rewrite (simple_at_lookup _ _ _ Hgg)). apply Ho in Hgh. congruence. }
  assert (Hone : cnt granted ps = 1).
  { pose proof (cnt_member granted ps g _ Hgg) as H. cbn in H. assert (~ 2 <= cnt granted ps); [|lia]. intros H2.
    pose proof (cnt_insert granted ps g Granted Idle Hgg) as Hrest. cbn in Hrest.
    destruct (cnt_pos granted (<[g := Idle]> ps)) as (j & y & Hj & Hy); [lia|].
    destruct (lookup_moved _ _ _ _ _ _ Hgg Hj) as [[_ ->]|[Hjg Hj']]; [done|]. destruct Hjg. symmetry. apply Huniq. by rewrite (simple_at_lookup _ _ _ Hj'). }
  constructor; cbn; try done.
  - rewrite Hat. apply tracks_same; [apply tracks_same; [done|by rewrite (simple_at_lookup _ _ _ Hi)]|]. by rewrite upd_ne, (simple_at_lookup _ _ _ Hgg).
  - rewrite (cnt_insert _ _ _ _ _ Hg'), (cnt_insert _ _ _ _ _ Hi). cbn. lia.
  - rewrite (cnt_insert _ _ _ _ _ Hg'), (cnt_insert _ _ _ _ _ Hi). cbn. lia.
  - intros j. rewrite Hat, (Hq j). at_fred j g; [by rewrite (simple_at_lookup _ _ _ Hgg)|]. at_fred j i; [by rewrite (simple_at_lookup _ _ _ Hi)|done].
  - rewrite !(cnt_insert _ _ _ _ _ Hg'), !(cnt_insert _ _ _ _ _ Hi). cbn. lia.
  - intros j h Hj. destruct (two_moved _ _ _ _ _ _ _ _ _ Hi Hgg Hne Hj) as [[_ ?]|[[_ ?]|(Hjg & Hji & Hj')]]; [done..|].
    pose proof (cnt_two resuming ps i j _ _ Hi Hj' (not_eq_sym Hji) eq_refl eq_refl). lia.
  - intros j e Hj. destruct (two_moved _ _ _ _ _ _ _ _ _ Hi Hgg Hne Hj) as [[_ ?]|[[_ ?]|(_ & _ & Hj')]]; [done..|]. by eapply Ht.
Qed.

(** A move of [i] alone from [x] to [c]. *)
Ltac moves Hi Hx x c := eapply (simple_move_ok _ _ _ _ _ x c); [exact Hi|exact Hx|..]; cbn; try done; try lia.
Lemma keeps_owner o ps i x c : tracks o has (at_ ps) -> ps !! i = Some x -> has c = has x -> tracks o has (upd (at_ ps) i c).
Proof. intros Ho Hi Hc. apply tracks_same; [done|]. by rewrite (simple_at_lookup _ _ _ Hi). Qed.

Lemma simple_step_inv l s s' : inv s -> step l s = Some s' -> inv s'.
Proof.
  destruct s as [b q ps o]. intros Hi Hs. pose proof Hi as [Ho Hc H1 Hq Hn Hg Hr Ht]. cbn in Ho, Hc, H1, Hr, Ht.
  pose proof (cnt_nonneg waits ps) as Hw0. pose proof (cnt_nonneg pops ps) as Hp0.
  destruct l as [i|i|i|i]; cbn [step] in Hs.
  - destruct (ps !! i) as [[]|] eqn:Hx; try done. injection Hs as <-. moves Hi Hx Idle BenP. by eapply keeps_owner.
  - destruct (ps !! i) as [[]|] eqn:Hx; try done. injection Hs as <-. moves Hi Hx Idle TryLoad. by eapply keeps_owner.
  - destruct (ps !! i) as [x|] eqn:Hx; [|done]. cbn [mbind option_bind go] in Hs.
    pose proof (cnt_member waits ps i x Hx) as Hwx. pose proof (cnt_member pops ps i x Hx) as Hpx.
    assert (Hown : has x = true -> o = Some i) by (intros E; apply Ho; by rewrite (simple_at_lookup _ _ _ Hx)).
    destruct x as [| |c| | | | | | | | |g]; try done.
    + injection Hs as <-. destruct (Z.leb_spec 1 b); [moves Hi Hx TryLoad (TryCas b)|moves Hi Hx TryLoad Idle]; try (by eapply keeps_owner).
      by intros e [= <-].
    + injection Hs as <-. pose proof (Ht i c Hx) as Hc1. destruct (Z.eqb_spec b c) as [->|]; [|moves Hi Hx (TryCas c) Idle; by eapply keeps_owner].
      assert (o = None) as -> by (destruct o; [cbn in *; lia|done]). cbn in *. moves Hi Hx (TryCas c) Inside. by apply tracks_gain.
    + unfold ben_P in Hs. injection Hs as <-. destruct (Z.ltb_spec 0 b) as [Hb|Hb].
      * assert (o = None) as -> by (destruct o; [cbn in *; lia|done]). cbn in *. moves Hi Hx BenP Inside. by apply tracks_gain.
      * moves Hi Hx BenP Push. by eapply keeps_owner.
    + injection Hs as <-. by apply simple_push_ok.
    + injection Hs as <-. moves Hi Hx Woken Inside. by eapply keeps_owner.
    + unfold ben_V in Hs. injection Hs as <-. rewrite (Hown eq_refl) in *. cbn in *.
      destruct (Z.ltb_spec 0 (b + 1)); [moves Hi Hx BenV Idle|moves Hi Hx BenV Pop]; by apply (tracks_lose _ _ i).
    + destruct q as [|g q]; injection Hs as <-; [done|]. by apply (simple_pop_ok b g q ps o i Hi Hx).
    + destruct (ps !! g) as [[]|] eqn:Hgg; try done. injection Hs as <-. by apply simple_resume_ok.
  - destruct (ps !! i) as [[]|] eqn:Hx; try done. injection Hs as <-. moves Hi Hx Inside BenV. by eapply keeps_owner.
Qed.
Lemma simple_reachable_inv s : reachable init step s -> inv s.
Proof. apply invariant_rule; [apply simple_init_inv|intros ? ? ?; apply simple_step_inv]. Qed.

(** * An instance of the abstract lock *)
Definition simple_phase (c : pc) : AbstractLock.phase :=
  match c with
  | Idle => AbstractLock.Out
  | TryLoad | TryCas _ => AbstractLock.Trying true
  | BenP | Push | Queued => AbstractLock.Trying false
  | Granted | Woken => AbstractLock.Won
  | Inside => AbstractLock.In
  | BenV | Pop | Resume _ => AbstractLock.Leaving
  end.
Definition simple_abs (s : state) : AbstractLock.state := AbstractLock.mkState (owner s) (fun f => simple_phase (at_ (pcs s) f)).
Definition simple_event (l : label) (s : state) : option AbstractLock.label :=
  match l with
  | Acquire f => Some (AbstractLock.Begin f false)
  | TryAcquire f => Some (AbstractLock.Begin f true)
  | Release f => Some (AbstractLock.Release f false)
  | Go f =>
      match at_ (pcs s) f with
      | TryLoad => if 1 <=? ben s then None else Some (AbstractLock.Fail f)
      | TryCas c => Some (if ben s =? c then AbstractLock.Got f true else AbstractLock.Fail f)
      | BenP => if 0 <? ben s then Some (AbstractLock.Got f true) else None
      | Woken => Some (AbstractLock.Enter f)
      | BenV => Some (AbstractLock.Free f (0 <? ben s + 1))
      | Pop => match queue s with [] => None | g :: _ => Some (AbstractLock.Got g false) end
      | Resume _ => Some (AbstractLock.Done f)
      | _ => None
      end
  end.

Lemma simple_phases ps i c x : ps !! i = Some x ->
  (fun f => simple_phase (at_ (<[i := c]> ps) f)) = upd (fun f => simple_phase (at_ ps f)) i (simple_phase c).
Proof. intros Hi. rewrite (simple_at_insert _ _ _ _ Hi). apply upd_compose. Qed.

Lemma simple_event_ok l s s' : inv s -> step l s = Some s' ->
  match simple_event l s with
  | Some b => AbstractLock.step b (simple_abs s) = Some (simple_abs s')
  | None => simple_abs s' = simple_abs s
  end.
Proof.
  destruct s as [b q ps o]. intros Hi Hs. pose proof Hi as [Ho Hc H1 Hq Hn Hg Hr Ht]. cbn in Ho, Hc, H1, Hr, Ht.
  pose proof (cnt_nonneg waits ps) as Hw0. pose proof (cnt_nonneg pops ps) as Hp0. unfold simple_abs.
  destruct l as [i|i|i|i]; cbn [step simple_event] in *.
  - destruct (ps !! i) as [[]|] eqn:Hx; try done. injection Hs as <-. cbn. by rewrite (simple_phases _ _ _ _ Hx), (simple_at_lookup _ _ _ Hx).
  - destruct (ps !! i) as [[]|] eqn:Hx; try done. injection Hs as <-. cbn. by rewrite (simple_phases _ _ _ _ Hx), (simple_at_lookup _ _ _ Hx).
  - destruct (ps !! i) as [x|] eqn:Hx; [|done]. cbn [mbind option_bind go] in Hs. cbn [pcs ben queue]. rewrite (simple_at_lookup _ _ _ Hx).
    pose proof (cnt_member pops ps i x Hx) as Hpx. cbn in Hpx.
    assert (Hown : has x = true -> o = Some i) by (intros E; apply Ho; by rewrite (simple_at_lookup _ _ _ Hx)).
    assert (Hno : has x = false -> o <> Some i) by (intros E ->; pose proof (proj1 (Ho i) eq_refl) as E'; rewrite (simple_at_lookup _ _ _ Hx) in E'; congruence).
    assert (Hph : simple_phase (at_ ps i) = simple_phase x) by (by rewrite (simple_at_lookup _ _ _ Hx)).
    assert (Hmv : forall c, (fun f => simple_phase (at_ (<[i := c]> ps) f)) = upd (fun f => simple_phase (at_ ps f)) i (simple_phase c))
      by (intros; by eapply simple_phases).
    assert (Hsame : forall c, simple_phase c = simple_phase x -> (fun f => simple_phase (at_ (<[i := c]> ps) f)) = (fun f => simple_phase (at_ ps f))).
    { intros c E. rewrite Hmv. apply upd_same. by rewrite Hph. }
    destruct x as [| |c| | | | | | | | |g]; try done.
    + injection Hs as <-. destruct (1 <=? b); cbn; [by rewrite Hsame|by rewrite Hph, Hmv].
    + injection Hs as <-. pose proof (Ht i c Hx). destruct (Z.eqb_spec b c) as [->|]; cbn; rewrite Hph, Hmv; [|done].
      destruct o; [cbn in *; lia|done].
    + unfold ben_P in Hs. injection Hs as <-. destruct (Z.ltb_spec 0 b); cbn; [rewrite Hph, Hmv|by rewrite Hsame].
      destruct o; [cbn in *; lia|done].
    + injection Hs as <-. cbn. by rewrite Hsame.
    + injection Hs as <-. cbn. by rewrite Hph, Hmv.
    + unfold ben_V in Hs. injection Hs as <-. rewrite (Hown eq_refl) in *. cbn. rewrite Hph, bool_decide_true by done.
      destruct (0 <? b + 1); by rewrite Hmv.
    + destruct q as [|g q]; injection Hs as <-; [done|]. destruct (simple_pop_ok b g q ps o i Hi Hx) as (_ & -> & Hgg). cbn.
      rewrite (simple_at_lookup _ _ _ Hgg). cbn. assert (i <> g) by congruence.
      assert (Hg' : <[i := Resume g]> ps !! g = Some Queued) by (by rewrite list_lookup_insert_ne).
      by rewrite (simple_phases _ _ _ _ Hg'), Hsame.
    + destruct (ps !! g) as [[]|] eqn:Hgg; try done. injection Hs as <-. cbn. rewrite Hph. rewrite bool_decide_false by (by apply Hno).
      assert (i <> g) by congruence. assert (Hg' : <[i := Idle]> ps !! g = Some Granted) by (by rewrite list_lookup_insert_ne).
      do 2 f_equal. rewrite (simple_phases _ _ _ _ Hg'), Hmv. symmetry. apply upd_same. by rewrite upd_ne, (simple_at_lookup _ _ _ Hgg).
  - destruct (ps !! i) as [[]|] eqn:Hx; try done. injection Hs as <-. cbn. by rewrite (simple_phases _ _ _ _ Hx), (simple_at_lookup _ _ _ Hx).
Qed.

#[export] Instance simple_lock_ops : LockOps state label := {|
  li_init := init; li_step := step; li_acquire f b := if b then TryAcquire f else Acquire f; li_release := Release;
  li_abs := simple_abs; li_event := simple_event
|}.
#[export] Instance simple_lock_laws : LockLaws state label.
Proof.
  refine {| li_inv := inv |}; cbn [li_init li_step li_abs li_event li_acquire li_release simple_lock_ops].
  - intros m Hm. pose proof Hm as [n ->]. split; [by apply simple_init_inv|]. unfold simple_abs, AbstractLock.init. cbn. f_equal.
    apply functional_extensionality. intros f. unfold at_. destruct (replicate n Idle !! f) as [c|] eqn:E; [|done]. by apply lookup_replicate in E as [-> _].
  - intros m l m' Hi Hs. split; [by eapply simple_step_inv|by apply simple_event_ok].
  - intros m f b _ _. by destruct b.
  - intros m f _ _. by eexists.
  - intros m f Hi Hf. destruct m as [b q ps o]. cbn in Hf. destruct (at_ ps f) eqn:Hat; try done. cbn. by rewrite (simple_at_busy _ _ _ Hat) by done.
Defined.

(** C13. [SimpleMutex0] is a lock, for any number of freds: every run is a run of
    the abstract lock, with one owner at a time, and [acquire()] does not fail.  The
    count is 1 less the owner and the waiters, and no waiter is forgotten: while
    the mutex is not free there is an owner, or a fred in [release] that is taking
    the next one off the queue; in that case there is one to be taken, and it is
    resumed. *)
Theorem simple_mutex_is_lock s : reachable init step s ->
  reachable AbstractLock.init AbstractLock.step (simple_abs s) /\
  ben s = 1 - held (owner s) - cnt waits (pcs s) /\
  (ben s <= 0 -> owner s <> None \/ exists i, pcs s !! i = Some Pop /\ 0 < cnt waits (pcs s)) /\
  (forall i, pcs s !! i = Some Granted -> exists j, pcs s !! j = Some (Resume i)).
Proof.
  intros Hr. pose proof (simple_reachable_inv s Hr) as Hi. split; [by destruct (@li_refines _ _ simple_lock_ops simple_lock_laws s Hr)|]. destruct Hi as [Ho Hc H1 Hq Hn Hg Hre Ht].
  split; [done|]. split.
  - intros Hb. destruct (owner s) as [f|]; [by left|right]. cbn in *. destruct (cnt_pos pops (pcs s)) as (i & x & Hx & Hp); [lia|].
    exists i. split; [by destruct x|lia].
  - intros i Hx. pose proof (cnt_member granted _ _ _ Hx) as Hm. cbn in Hm. destruct (cnt_pos resuming (pcs s)) as (j & x & Hj & Hx'); [lia|].
    destruct x as [| | | | | | | | | | |g]; try done. exists j. rewrite Hj. pose proof (Hre j g Hj) as Hgg.
    assert (owner s = Some i) as H2 by (apply Ho; by rewrite (simple_at_lookup _ _ _ Hx)).
    assert (owner s = Some g) as H3 by (apply Ho; by rewrite (simple_at_lookup _ _ _ Hgg)). congruence.
Qed.
End Simple.

(** Fred 0 has the mutex, fred 1 waits, fred 0 releases and takes fred 1 off the
    queue. *)
Definition simple_start : Simple.state := Simple.mkState 1 [] (replicate 2 Simple.Idle) None.
Definition simple_run : list Simple.label :=
  [Simple.Acquire 0; Simple.Go 0; Simple.Acquire 1; Simple.Go 1; Simple.Release 0; Simple.Go 0; Simple.Go 1; Simple.Go 0].
Lemma simple_mutex_is_lock_witness :
  let s := after Simple.step simple_start simple_run in
  reachable AbstractLock.init AbstractLock.step (Simple.simple_abs s) /\ AbstractLock.owner (Simple.simple_abs s) = Some 1%nat.
Proof.
  set (s := after Simple.step simple_start simple_run).
  assert (Hr : reachable Simple.init Simple.step s) by (apply run_reaches; [by exists 2%nat|vm_compute; reflexivity]).
  split; [exact (proj1 (Simple.simple_mutex_is_lock s Hr))|vm_compute; reflexivity].
Defined.
