(* ===== verification/Containers.v ===== *)
(** The intrusive containers of [src/runtime/Container.h] over a memory of
    links ([ContainerLink.h]): [Stack], [Queue], [Ring] and [List].  Operations
    are partial: [None] is a failed [RASSERT] or an access through [nullptr] or
    [Sentinel].  The theorems relate them to lists of nodes. *)
From S2P Require Import Prelude.

Local Open Scope Z_scope.

(** * Memory *)
Abbreviation ptr := Z (only parsing).
Definition nullptr : ptr := 0.
Definition Sentinel : ptr := 0xdeadbeef.

(** The [next] and [prev] fields of all nodes. *)
Record links := mkLinks { nexts : ptr -> ptr; prevs : ptr -> ptr }.

Definition is_node (p : ptr) : bool := negb (p =? nullptr) && negb (p =? Sentinel).
Definition Next (m : links) (p : ptr) : option ptr := rassert (is_node p);; Some (nexts m p).
Definition Prev (m : links) (p : ptr) : option ptr := rassert (is_node p);; Some (prevs m p).
Definition set_Next (m : links) (p v : ptr) : option links :=
  rassert (is_node p);; Some (mkLinks (upd (nexts m) p v) (prevs m)).
Definition set_Prev (m : links) (p v : ptr) : option links :=
  rassert (is_node p);; Some (mkLinks (nexts m) (upd (prevs m) p v)).

(** [for (size_t i = 1; i < count; i += 1) { if (Next( *last) == stop) count = i;
    else last = Next( *last); }]: [k] iterations are left, [i] is the loop
    variable; assigning [count] ends the loop. *)
Fixpoint pop_scan (stop : ptr) (m : links) (k : nat) (i count : Z) (last : ptr) : option (ptr * Z) :=
  match k with
  | O => Some (last, count)
  | S k' => n ← Next m last; if n =? stop then Some (last, i) else pop_scan stop m k' (i + 1) count n
  end.
Definition pop_helper (stop : ptr) (m : links) (count : Z) (first : ptr) : option (ptr * Z) :=
  pop_scan stop m (Z.to_nat (count - 1)) 1 count first.

(** * Stack *)
Module Stack.
Definition empty (head : ptr) : bool := head =? Sentinel.

Definition push (first last head : ptr) (m : links) : option (ptr * links) :=
  n ← Next m last; rassert (n =? nullptr);;
  m' ← set_Next m last head; Some (first, m').

(** Result, new head and memory. *)
Definition pop (head : ptr) (m : links) : option (ptr * ptr * links) :=
  if empty head then Some (nullptr, head, m)
  else head' ← Next m head; m' ← set_Next m head nullptr; Some (head, head', m').

Definition pop_count (count head : ptr) (m : links) : option (ptr * Z * ptr * links) :=
  if empty head then Some (nullptr, count, head, m)
  else '(last, count') ← pop_helper nullptr m count head;
       head' ← Next m last; m' ← set_Next m last nullptr; Some (last, count', head', m').
End Stack.

(** * Queue *)
Module Queue.
Record queue := mkQueue { head : ptr; tail : ptr }.
Definition new : queue := mkQueue Sentinel Sentinel.

Definition empty (Clean : bool) (q : queue) : option bool :=
  rassert (Clean || Bool.eqb (head q =? Sentinel) (tail q =? Sentinel));;
  Some (head q =? Sentinel).

Definition push (first last : ptr) (q : queue) (m : links) : option (queue * links) :=
  n ← Next m last; rassert (n =? nullptr);;
  m1 ← set_Next m last Sentinel;
  e ← empty false q;
  if (e : bool) then Some (mkQueue first last, m1)
  else m2 ← set_Next m1 (tail q) first; Some (mkQueue (head q) last, m2).

(** [pop()] and [pop(count)] differ in [popHelper]; [None] for the former. *)
Definition pop (count : option Z) (q : queue) (m : links) : option (ptr * option Z * queue * links) :=
  e ← empty false q;
  if (e : bool) then Some (nullptr, count, q, m)
  else
    '(elem, count') ← match count with
                      | None => Some (head q, None)
                      | Some c => '(e', c') ← pop_helper Sentinel m c (head q); Some (e', Some c')
                      end;
    head' ← Next m elem;
    m' ← set_Next m elem nullptr;
    Some (elem, count', mkQueue head' (if tail q =? elem then Sentinel else tail q), m').
End Queue.

(** * Ring and List *)
Module Ring.
Definition linked_node (m : links) (p : ptr) : option unit :=
  v ← Prev m p; n ← Next m p; rassert (negb (v =? nullptr) && negb (n =? nullptr)).

Definition take_out (first last : ptr) (m : links) : option links :=
  linked_node m first;; linked_node m last;;
  p ← Prev m first; n ← Next m last;
  m1 ← set_Next m p n;
  n1 ← Next m1 last; p1 ← Prev m1 first;
  set_Prev m1 n1 p1.

Definition combine_before (next first last : ptr) (m : links) : option links :=
  linked_node m next;;
  m1 ← set_Next m last next;
  p ← Prev m1 next; m2 ← set_Next m1 p first;
  p' ← Prev m2 next; m3 ← set_Prev m2 first p';
  set_Prev m3 next last.

Definition combine_after (prev first last : ptr) (m : links) : option links :=
  linked_node m prev;;
  m1 ← set_Prev m first prev;
  n ← Next m1 prev; m2 ← set_Prev m1 n last;
  n' ← Next m2 prev; m3 ← set_Next m2 last n';
  set_Next m3 prev first.

Definition close (first last : ptr) (m : links) : option links :=
  m1 ← set_Prev m first last; set_Next m1 last first.

Definition unlinked (first last : ptr) (m : links) : option unit :=
  p ← Prev m first; rassert (p =? nullptr);; n ← Next m last; rassert (n =? nullptr).
Definition closed (first last : ptr) (m : links) : option unit :=
  p ← Prev m first; rassert (p =? last);; n ← Next m last; rassert (n =? first).

Definition insert_before (next first last : ptr) (m : links) : option links :=
  unlinked first last m;; combine_before next first last m.
Definition insert_after (force : bool) (prev first last : ptr) (m : links) : option links :=
  (if force then Some tt else unlinked first last m);; combine_after prev first last m.

Definition remove (first last : ptr) (m : links) : option (ptr * links) :=
  m1 ← take_out first last m;
  m2 ← set_Next m1 last nullptr;
  m3 ← set_Prev m2 first nullptr;
  Some (last, m3).

Definition join_before (next first last : ptr) (m : links) : option links :=
  closed first last m;; combine_before next first last m.
Definition join_after (prev first last : ptr) (m : links) : option links :=
  closed first last m;; combine_after prev first last m.
Definition split (first last : ptr) (m : links) : option (ptr * links) :=
  m1 ← take_out first last m; m2 ← close first last m1; Some (last, m2).
End Ring.

Module IntrusiveList.
Section Anchored.
Context (anchor : ptr).

Definition new (m : links) : option links := Ring.close anchor anchor m.
Definition front (m : links) : option ptr := Next m anchor.
Definition back (m : links) : option ptr := Prev m anchor.

Definition empty (m : links) : option bool :=
  f ← front m; b ← back m;
  rassert (Bool.eqb (f =? anchor) (b =? anchor));; Some (f =? anchor).

Definition remove_count (first count : ptr) (m : links) : option (ptr * Z * links) :=
  Ring.linked_node m first;;
  '(last, count') ← pop_helper anchor m count first;
  '(r, m') ← Ring.remove first last m; Some (r, count', m').

Definition removeAll (m : links) : option (ptr * links) := f ← front m; b ← back m; Ring.remove f b m.
Definition push_front (elem : ptr) (m : links) : option links :=
  f ← front m; Ring.insert_before f elem elem m.
Definition push_back (elem : ptr) (m : links) : option links :=
  b ← back m; Ring.insert_after false b elem elem m.
Definition splice_back (first last : ptr) (m : links) : option links :=
  b ← back m; Ring.insert_after false b first last m.
Definition pop_front (m : links) : option (ptr * links) :=
  e ← empty m; rassert (negb e);; f ← front m; Ring.remove f f m.
Definition pop_back (m : links) : option (ptr * links) :=
  e ← empty m; rassert (negb e);; b ← back m; Ring.remove b b m.
End Anchored.
End IntrusiveList.

(** * Memories that represent lists *)

(** [p] leads to [q] through the nodes [l]. *)
Fixpoint lseg (nx : ptr -> ptr) (p : ptr) (l : list ptr) (q : ptr) : Prop :=
  match l with
  | [] => p = q
  | x :: l' => p = x /\ is_node x = true /\ lseg nx (nx x) l' q
  end.

(** Neighbours in [l] are linked both ways. *)
Definition linked (m : links) (p q : ptr) : Prop := nexts m p = q /\ prevs m q = p.
Fixpoint chain (m : links) (l : list ptr) : Prop :=
  match l with
  | p :: (q :: _) as l' => linked m p q /\ chain m l'
  | _ => True
  end.

Definition nodes (l : list ptr) : Prop := Forall (fun p => is_node p = true) l.

Lemma Next_ok m p : is_node p = true -> Next m p = Some (nexts m p).
Proof. unfold Next. by intros ->. Qed.
Lemma Prev_ok m p : is_node p = true -> Prev m p = Some (prevs m p).
Proof. unfold Prev. by intros ->. Qed.
Lemma set_Next_ok m p v : is_node p = true -> set_Next m p v = Some (mkLinks (upd (nexts m) p v) (prevs m)).
Proof. unfold set_Next. by intros ->. Qed.
Lemma set_Prev_ok m p v : is_node p = true -> set_Prev m p v = Some (mkLinks (nexts m) (upd (prevs m) p v)).
Proof. unfold set_Prev. by intros ->. Qed.
#[export] Hint Rewrite Next_ok Prev_ok set_Next_ok set_Prev_ok using done : upd.
Ltac mem := repeat (autorewrite with upd; cbn [mbind option_bind nexts prevs]).

Lemma node_not_null p : is_node p = true -> (p =? nullptr) = false.
Proof. unfold is_node. by destruct (p =? nullptr). Qed.
Lemma node_not_sentinel p : is_node p = true -> (p =? Sentinel) = false.
Proof. unfold is_node. destruct (p =? Sentinel); [|done]. by rewrite andb_false_r. Qed.

Lemma lseg_frame nx p l q a v : lseg nx p l q -> a ∉ l -> lseg (upd nx a v) p l q.
Proof.
  revert p. induction l as [|x l IH]; intros p; [done|]. simpl. intros (-> & Hx & Hl) [Hne Ha]%not_elem_of_cons.
  rewrite upd_ne by done. auto.
Qed.

Lemma lseg_app nx p l1 l2 q : lseg nx p (l1 ++ l2) q <-> exists r, lseg nx p l1 r /\ lseg nx r l2 q.
Proof.
  revert p. induction l1 as [|x l1 IH]; intros p; simpl.
  - split; [by exists p|]. by intros (r & -> & ?).
  - rewrite IH. naive_solver.
Qed.

Lemma lseg_nodes nx p l q : lseg nx p l q -> nodes l.
Proof. revert p. induction l as [|x l IH]; intros p; simpl; [by constructor|]. intros (_ & ? & ?). constructor; [done|by eapply IH]. Qed.

(** Redirect the last link of a segment. *)
Lemma lseg_redirect nx p l x q r : lseg nx p (l ++ [x]) q -> NoDup (l ++ [x]) -> lseg (upd nx x r) p (l ++ [x]) r.
Proof.
  intros (y & H1 & -> & Hx & H2)%lseg_app Hn. apply NoDup_app in Hn as (_ & Hd & _).
  apply lseg_app. exists x. split.
  - apply lseg_frame; [done|]. intros Hin. by apply (Hd x Hin), list_elem_of_singleton.
  - simpl. by rewrite upd_eq.
Qed.

Lemma lseg_last nx p l x q : lseg nx p (l ++ [x]) q -> nx x = q /\ is_node x = true.
Proof. intros (y & _ & -> & Hx & H)%lseg_app. done. Qed.

(** The scan of [pop(count)] stops at the [count]-th element, or at the last
    one. *)
Lemma pop_scan_spec stop m l x i c :
  lseg (nexts m) x (x :: l) stop -> stop ∉ l ->
  forall k, exists last c',
    pop_scan stop m k i c x = Some (last, c') /\
    (exists l1 l2, x :: l = l1 ++ last :: l2 /\ length l1 = Nat.min k (length l)) /\
    c' = (if (k <=? length l)%nat then c else i + Z.of_nat (length l)).
Proof.
  revert x i. induction l as [|y l IH]; intros x i Hs Hst k.
  - destruct Hs as (_ & Hx & Hq). destruct k as [|k]; simpl.
    + exists x, c. split; [done|]. split; [by exists [], []|done].
    + rewrite Next_ok by done. simpl in *. rewrite Hq, Z.eqb_refl. exists x, i. split; [done|]. split; [by exists [], []|lia].
  - destruct Hs as (_ & Hx & Hy & Hs). apply not_elem_of_cons in Hst as [Hne Hst]. destruct k as [|k].
    + exists x, c. split; [done|]. split; [by exists [], (y :: l)|done].
    + cbn [pop_scan]. rewrite Next_ok by done. cbn [mbind option_bind]. rewrite Hy.
      destruct (Z.eqb_spec y stop) as [->|_]; [done|].
      destruct (IH y (i + 1)) with (k := k) as (last & c' & Hp & (l1 & l2 & El & Hl) & Hc); [split; [done|apply Hs]|done|].
      exists last, c'. split; [done|]. split.
      * exists (x :: l1), l2. simpl in *. split; [by rewrite El|lia].
      * rewrite Hc. simpl. destruct (k <=? length l)%nat; lia.
Qed.

Lemma pop_scan_within stop m l x q i c k :
  lseg (nexts m) x (x :: l) q -> stop ∉ l -> (k <= length l)%nat ->
  exists l1 last l2, x :: l = l1 ++ last :: l2 /\ length l1 = k /\ pop_scan stop m k i c x = Some (last, c).
Proof.
  revert x i k. induction l as [|y l IH]; intros x i k Hs Hst Hk; (destruct k as [|k]; [by eexists [], x, _|]).
  { simpl in Hk. lia. }
  destruct Hs as (_ & Hx & Hy & Hs). apply not_elem_of_cons in Hst as [Hne Hst].
  destruct (IH y (i + 1) k) as (l1 & last & l2 & El & Hl & Hp); [split; [done|apply Hs]|done|simpl in Hk; lia|].
  exists (x :: l1), last, l2. split_and!; [by rewrite El|simpl; lia|].
  cbn [pop_scan]. rewrite Next_ok by done. cbn [mbind option_bind]. rewrite Hy.
  destruct (Z.eqb_spec y stop); [done|]. done.
Qed.

Lemma pop_scan_beyond stop m l x q i c k :
  lseg (nexts m) x (x :: l) q -> stop ∉ l -> q <> stop -> is_node q = false -> (length l + 1 < k)%nat ->
  pop_scan stop m k i c x = None.
Proof.
  revert x i k. induction l as [|y l IH]; intros x i k Hs Hst Hq Hn Hk; (destruct k as [|k]; [lia|]); cbn [pop_scan].
  - destruct Hs as (_ & Hx & Hq'). rewrite Next_ok by done. cbn [mbind option_bind]. simpl in Hq'. rewrite Hq'.
    destruct (Z.eqb_spec q stop); [done|]. destruct k; [simpl in Hk; lia|]. cbn [pop_scan]. unfold Next. by rewrite Hn.
  - destruct Hs as (_ & Hx & Hy & Hs). apply not_elem_of_cons in Hst as [Hne Hst].
    rewrite Next_ok by done. cbn [mbind option_bind]. rewrite Hy. destruct (Z.eqb_spec y stop); [done|].
    apply IH; try done. simpl in Hk. lia.
Qed.

(** Nodes outside [l] keep their links. *)
Definition untouched (l : list ptr) (m m' : links) : Prop :=
  forall p, p ∉ l -> nexts m' p = nexts m p /\ prevs m' p = prevs m p.

(** A detached segment from [first] to [last], as [push] takes it and the
    counting [pop] returns it. *)
Definition segment (m : links) (first last : ptr) (xs : list ptr) : Prop :=
  exists ys, xs = ys ++ [last] /\ lseg (nexts m) first xs nullptr.

Lemma untouched_next m p v l : p ∈ l -> untouched l m (mkLinks (upd (nexts m) p v) (prevs m)).
Proof. intros Hp q Hq. simpl. rewrite upd_ne; [done|]. by intros ->. Qed.

Lemma no_stop nx p l q s : lseg nx p l q -> is_node s = false -> s ∉ l.
Proof. intros Hl%lseg_nodes Hs Hin. unfold nodes in Hl. rewrite Forall_forall in Hl. apply Hl in Hin. congruence. Qed.

(** Cut a segment behind [x]. *)
Lemma lseg_cut nx p l1 x l2 q v :
  lseg nx p (l1 ++ x :: l2) q -> NoDup (l1 ++ x :: l2) ->
  lseg (upd nx x v) p (l1 ++ [x]) v /\ lseg (upd nx x v) (nx x) l2 q.
Proof.
  intros Hs Hn. replace (l1 ++ x :: l2) with ((l1 ++ [x]) ++ l2) in Hs, Hn by by rewrite <- app_assoc.
  apply lseg_app in Hs as (r & H1 & H2). apply NoDup_app in Hn as (Hn1 & Hd & _).
  destruct (lseg_last _ _ _ _ _ H1) as [-> _]. split; [by eapply lseg_redirect|].
  apply lseg_frame; [done|]. apply Hd. apply elem_of_app. right. by left.
Qed.

Lemma snoc_in (l : list ptr) x : x ∈ l ++ [x].
Proof. apply elem_of_app. right. by left. Qed.

Module StackSpec.
Definition stack (m : links) (h : ptr) (l : list ptr) : Prop := lseg (nexts m) h l Sentinel /\ NoDup l.

Lemma stack_empty m h l : stack m h l -> Stack.empty h = bool_decide (l = []).
Proof.
  intros [Hs _]. unfold Stack.empty. destruct l as [|x l]; simpl in Hs.
  - by subst h.
  - destruct Hs as (-> & Hx & _). by rewrite node_not_sentinel.
Qed.

Lemma stack_push_ok m h l first last xs :
  stack m h l -> segment m first last xs -> NoDup (xs ++ l) ->
  exists m', Stack.push first last h m = Some (first, m') /\ stack m' first (xs ++ l) /\ untouched xs m m'.
Proof.
  intros [Hs _] (ys & -> & Hx) Hn. destruct (lseg_last _ _ _ _ _ Hx) as [Hl Hnode]. unfold Stack.push. mem.
  rewrite Hl. simpl. eexists. split; [done|]. split; [split; [|done]|apply untouched_next, snoc_in].
  apply NoDup_app in Hn as (Hn & Hd & _). apply lseg_app. exists h. split; [by eapply lseg_redirect|].
  apply lseg_frame; [done|]. apply Hd, snoc_in.
Qed.

Lemma stack_pop_ok m h x l :
  stack m h (x :: l) ->
  exists h' m', Stack.pop h m = Some (x, h', m') /\ stack m' h' l /\ nexts m' x = nullptr /\ untouched [x] m m'.
Proof.
  intros [Hs Hn]. pose proof (stack_empty m h (x :: l) (conj Hs Hn)) as He.
  destruct (lseg_cut _ _ [] x l _ nullptr Hs Hn) as [_ Hl]. destruct Hs as (-> & Hx & _).
  unfold Stack.pop. rewrite He. simpl. mem. eexists _, _. split; [done|]. simpl.
  split_and!; [split; [done|by inversion Hn]|by rewrite upd_eq|apply untouched_next; by left].
Qed.

Lemma stack_pop_count_ok m h l count :
  stack m h l -> 1 <= count <= Z.of_nat (length l) ->
  exists l1 last l2 h' m',
    l = l1 ++ last :: l2 /\ Z.of_nat (length (l1 ++ [last])) = count /\
    Stack.pop_count count h m = Some (last, count, h', m') /\
    segment m' h last (l1 ++ [last]) /\ stack m' h' l2 /\ untouched [last] m m'.
Proof.
  intros [Hs Hn] Hc. pose proof (stack_empty m h l (conj Hs Hn)) as He.
  destruct l as [|x l]; [simpl in Hc; lia|]. assert (Hx : h = x) by apply Hs. subst x. simpl in Hc.
  destruct (pop_scan_within nullptr m l h _ 1 count (Z.to_nat (count - 1)) Hs) as (l1 & last & l2 & El & Hl & Hp);
    [|lia|].
  { pose proof (no_stop _ _ _ _ nullptr Hs eq_refl) as H. by apply not_elem_of_cons in H as [_ H]. }
  rewrite El in Hs, Hn. destruct (lseg_cut _ _ _ _ _ _ nullptr Hs Hn) as [H1 H2].
  destruct (lseg_last _ _ _ _ _ H1) as [_ Hlast].
  exists l1, last, l2. unfold Stack.pop_count, pop_helper. rewrite He, Hp. simpl. mem. eexists _, _.
  split_and!; [done|rewrite length_app; simpl; lia|done|by exists l1| |apply untouched_next; by left].
  split; [done|]. apply NoDup_app in Hn as (_ & _ & Hn). by inversion Hn.
Qed.

(** [pop(count)] looks for [nullptr], but the last node's link is [Sentinel]. *)
Lemma stack_pop_count_beyond m h l count :
  stack m h l -> l <> [] -> Z.of_nat (length l) < count -> Stack.pop_count count h m = None.
Proof.
  intros [Hs Hn] Hne Hc. pose proof (stack_empty m h l (conj Hs Hn)) as He.
  destruct l as [|x l]; [done|]. assert (Hx : h = x) by apply Hs. subst x.
  unfold Stack.pop_count, pop_helper. rewrite He. simpl in Hc.
  pose proof (no_stop _ _ _ _ nullptr Hs eq_refl) as [_ Hst]%not_elem_of_cons.
  destruct (decide (Z.to_nat (count - 1) = length l + 1)%nat) as [Hk|Hk].
  2: { by rewrite (pop_scan_beyond _ _ l h Sentinel) by (try done; lia). }
  (* one too many: the scan ends on [Sentinel], which is then dereferenced *)
  rewrite Hk. clear - Hs Hst. revert h Hs. generalize 1 as i. induction l as [|y l IH]; intros i h (_ & Hh & Hs); simpl in *.
  - by rewrite Next_ok, Hs by done.
  - apply not_elem_of_cons in Hst as [Hy Hst]. destruct Hs as (Ey & Hny & Hs). rewrite Next_ok by done. simpl. rewrite Ey.
    destruct (Z.eqb_spec y nullptr); [done|]. by apply IH.
Qed.
End StackSpec.

Module QueueSpec.
Import Queue.
Definition queue_of (m : links) (q : queue) (l : list ptr) : Prop :=
  lseg (nexts m) (head q) l Sentinel /\ NoDup l /\ tail q = default Sentinel (last l).

Lemma last_in (l : list ptr) : l <> [] -> default Sentinel (last l) ∈ l.
Proof. destruct l as [|x l] using rev_ind; [done|]. intros _. rewrite last_snoc. apply snoc_in. Qed.

Lemma tail_node m q l : queue_of m q l -> l <> [] -> is_node (tail q) = true.
Proof.
  intros (Hs & _ & ->) Hne. apply lseg_nodes in Hs. unfold nodes in Hs. rewrite Forall_forall in Hs.
  by apply Hs, last_in.
Qed.

(** Neither assertion of [empty] fails, and it is right. *)
Lemma queue_empty m q l Clean : queue_of m q l -> empty Clean q = Some (bool_decide (l = [])).
Proof.
  intros Hq. pose proof Hq as (Hs & Hn & Ht). unfold empty. destruct l as [|x l].
  - simpl in *. rewrite Hs, Ht. simpl. by rewrite orb_true_r.
  - pose proof (tail_node _ _ _ Hq ltac:(done)) as Htn. destruct Hs as (-> & Hx & _).
    rewrite !node_not_sentinel by done. simpl. by rewrite orb_true_r.
Qed.

Lemma queue_push_ok m q l first last xs :
  queue_of m q l -> segment m first last xs -> NoDup (l ++ xs) ->
  exists q' m', push first last q m = Some (q', m') /\ queue_of m' q' (l ++ xs) /\ untouched (l ++ xs) m m'.
Proof.
  intros Hq (ys & -> & Hx) Hn. destruct (lseg_last _ _ _ _ _ Hx) as [Hl Hnode]. unfold push. mem. rewrite Hl. simpl.
  mem. simpl. rewrite (queue_empty m q l) by done. simpl. pose proof Hq as (Hs & _ & Ht).
  pose proof Hn as (Hnl & Hd & Hnx)%NoDup_app. apply lseg_redirect with (r := Sentinel) in Hx; [|done].
  destruct l as [|z l _] using rev_ind.
  - eexists _, _. split; [done|]. split; [|apply untouched_next; rewrite app_nil_l; apply snoc_in].
    split_and!; [done|done|]. simpl. by rewrite last_snoc.
  - rewrite bool_decide_eq_false_2 by (destruct l; done). mem.
    rewrite set_Next_ok by (eapply tail_node; [done|by destruct l]). simpl.
    rewrite last_snoc in Ht. simpl in Ht. rewrite Ht.
    assert (Hz : z ∉ ys ++ [last]) by (apply Hd, snoc_in).
    eexists _, _. split; [done|]. split.
    + split_and!; cbn; [|done|rewrite app_assoc, last_snoc; done].
      apply lseg_app. exists first. split; [|by apply lseg_frame].
      apply (lseg_redirect _ _ _ _ Sentinel); [|done]. apply lseg_frame; [done|].
      intros Hin. apply (Hd _ Hin), snoc_in.
    + intros p Hp. cbn. rewrite !upd_ne; [done| |]; intros ->; apply Hp; rewrite !elem_of_app; set_solver.
Qed.

(** How many elements [pop(count)] takes: always one at least. *)
Definition taken (count : option Z) (l : list ptr) : nat :=
  match count with None => 1 | Some c => Nat.min (Z.to_nat (Z.max 1 c)) (length l) end.

Lemma queue_pop_ok m q l count :
  queue_of m q l -> l <> [] ->
  exists l1 last l2 q' m',
    l = l1 ++ last :: l2 /\ length (l1 ++ [last]) = taken count l /\
    pop count q m = Some (last, (c ← count; Some (Z.min c (Z.of_nat (length l)))), q', m') /\
    segment m' (head q) last (l1 ++ [last]) /\ queue_of m' q' l2 /\ untouched [last] m m'.
Proof.
  intros Hq Hne. unfold pop. rewrite (queue_empty m q l) by done. rewrite bool_decide_eq_false_2 by done. simpl.
  pose proof Hq as (Hs & Hn & Ht).
  assert (exists l1 last l2, l = l1 ++ last :: l2 /\ length (l1 ++ [last]) = taken count l /\
    match count with
    | None => Some (head q, None)
    | Some c => '(e', c') ← pop_helper Sentinel m c (head q); Some (e', Some c')
    end = Some (last, (c ← count; Some (Z.min c (Z.of_nat (length l)))))) as (l1 & last & l2 & El & Hlen & ->).
  { destruct l as [|x l]; [done|]. assert (Hx : head q = x) by apply Hs. subst x. destruct count as [c|]; simpl.
    - pose proof (no_stop _ _ _ _ Sentinel Hs eq_refl) as [_ Hst]%not_elem_of_cons.
      destruct (pop_scan_spec Sentinel m l _ 1 c Hs Hst (Z.to_nat (c - 1))) as (last & c' & Hp & (l1 & l2 & El & Hl1) & Hc).
      exists l1, last, l2. split; [done|]. split; [rewrite length_app; simpl; lia|].
      unfold pop_helper. rewrite Hp. simpl. do 3 f_equal. rewrite Hc. destruct (Nat.leb_spec (Z.to_nat (c - 1)) (length l)); lia.
    - by exists [], (head q), l. }
  rewrite El in Hs, Hn. destruct (lseg_cut _ _ _ _ _ _ nullptr Hs Hn) as [H1 H2].
  destruct (lseg_last _ _ _ _ _ H1) as [_ Hlast]. simpl. mem.
  exists l1, last, l2. eexists _, _. split_and!; [done|done|done|by exists l1| |apply untouched_next; by left].
  apply NoDup_app in Hn as (_ & _ & [Hl2 Hn]%NoDup_cons). split_and!; [done|done|]. simpl. rewrite Ht, El.
  rewrite last_app_cons. destruct l2 as [|y l2]; simpl.
  - by rewrite Z.eqb_refl.
  - pose proof (last_in (y :: l2) ltac:(done)) as Hin.
    destruct (Z.eqb_spec (default Sentinel (list.last (y :: l2))) last) as [E|_]; [|done]. by rewrite E in Hin.
Qed.
End QueueSpec.

Module RingSpec.
Import IntrusiveList.

Lemma chain_app m l1 l2 :
  chain m (l1 ++ l2) <->
  chain m l1 /\ chain m l2 /\ (forall x y, last l1 = Some x -> head l2 = Some y -> linked m x y).
Proof.
  induction l1 as [|x [|y l1] IH].
  - simpl. split; [intros H; by split_and!|by intros (_ & ? & _)].
  - simpl. destruct l2 as [|y l2]; simpl; [naive_solver|]. naive_solver.
  - change (linked m x y /\ chain m ((y :: l1) ++ l2) <->
            (linked m x y /\ chain m (y :: l1)) /\ chain m l2 /\
            (forall x0 y0, last (y :: l1) = Some x0 -> head l2 = Some y0 -> linked m x0 y0)).
    rewrite IH. tauto.
Qed.

Lemma chain_frame m m' l :
  chain m l -> (forall x, x ∈ removelast l -> nexts m' x = nexts m x) ->
  (forall x, x ∈ tail l -> prevs m' x = prevs m x) -> chain m' l.
Proof.
  induction l as [|x [|y l] IH]; [done|done|]. intros [[H1 H2] Hc] Hn Hp. split.
  - split; [rewrite Hn; [done|by left]|rewrite Hp; [done|by left]].
  - apply IH; [done| |]; intros z Hz; [apply Hn; by right|apply Hp; by right].
Qed.

(** The ring of an anchor [a] and the elements [l] behind it. *)
Definition ring (m : links) (a : ptr) (l : list ptr) : Prop :=
  chain m ((a :: l) ++ [a]) /\ NoDup (a :: l) /\ nodes (a :: l).

(** A run of nodes that hangs together and is in no ring. *)
Definition detached (m : links) (first last : ptr) (xs : list ptr) : Prop :=
  head xs = Some first /\ list.last xs = Some last /\ chain m xs /\ NoDup xs /\ nodes xs /\
  prevs m first = nullptr /\ nexts m last = nullptr.

Lemma ring_cut m a l1 l2 :
  chain m (a :: (l1 ++ l2) ++ [a]) <->
  chain m (a :: l1) /\ chain m (l2 ++ [a]) /\
  (forall p n, last (a :: l1) = Some p -> head (l2 ++ [a]) = Some n -> linked m p n).
Proof. rewrite <- app_assoc. apply (chain_app m (a :: l1)). Qed.

Lemma last_elem (l : list ptr) p : last l = Some p -> p ∈ l.
Proof. intros H. apply last_Some in H as [l' ->]. apply snoc_in. Qed.
Lemma head_elem (l : list ptr) p : head l = Some p -> p ∈ l.
Proof. destruct l; simpl; [done|]. intros [= ->]. by left. Qed.

Lemma node_in l p : nodes l -> p ∈ l -> is_node p = true.
Proof. unfold nodes. rewrite Forall_forall. auto. Qed.

Lemma cut_ends (a : ptr) l1 l2 : exists p n, last (a :: l1) = Some p /\ head (l2 ++ [a]) = Some n.
Proof.
  destruct (last_is_Some (a :: l1)) as [_ [p Hp]]; [done|]. exists p.
  destruct l2 as [|n l2]; [by exists a|by exists n].
Qed.

Lemma neighbours m a l x :
  ring m a l -> x ∈ a :: l -> is_node (nexts m x) = true /\ is_node (prevs m x) = true.
Proof.
  intros (Hc & Hn & Hnode) Hx. split.
  - assert (exists l1 l2, l = l1 ++ l2 /\ last (a :: l1) = Some x) as (l1 & l2 & -> & Hl).
    { apply elem_of_cons in Hx as [->|Hx]; [by exists [], l|].
      apply list_elem_of_split in Hx as (l1 & l2 & ->). exists (l1 ++ [x]), l2.
      rewrite <- app_assoc. split; [done|]. apply (last_snoc x (a :: l1)). }
    destruct (cut_ends a l1 l2) as (p & n & _ & Hh).
    apply ring_cut in Hc as (_ & _ & Hc). destruct (Hc x n Hl Hh) as [-> _].
    apply (node_in (a :: l1 ++ l2)); [done|]. apply head_elem in Hh. set_solver.
  - assert (exists l1 l2, l = l1 ++ l2 /\ head (l2 ++ [a]) = Some x) as (l1 & l2 & -> & Hl).
    { apply elem_of_cons in Hx as [->|Hx]; [exists l, []; by rewrite app_nil_r|].
      apply list_elem_of_split in Hx as (l1 & l2 & ->). by exists l1, (x :: l2). }
    destruct (cut_ends a l1 l2) as (p & n & Hh & _).
    apply ring_cut in Hc as (_ & _ & Hc). destruct (Hc p x Hh Hl) as [_ ->].
    apply (node_in (a :: l1 ++ l2)); [done|]. apply last_elem in Hh. set_solver.
Qed.

Lemma linked_node_ok m a l x : ring m a l -> x ∈ a :: l -> Ring.linked_node m x = Some tt.
Proof.
  intros Hr Hx. destruct (neighbours m a l x Hr Hx) as [H1 H2]. unfold Ring.linked_node.
  rewrite Prev_ok, Next_ok by (eapply node_in; [apply Hr|done]). simpl. by rewrite !node_not_null.
Qed.

Lemma removelast_in (l : list ptr) x : x ∈ removelast l -> x ∈ l.
Proof. destruct l as [|y l _] using rev_ind; [done|]. rewrite removelast_last. set_solver. Qed.
Lemma tail_in (l : list ptr) x : x ∈ tail l -> x ∈ l.
Proof. destruct l; simpl; [done|]. by right. Qed.
Lemma not_last (l : list ptr) p x : NoDup l -> last l = Some p -> x ∈ removelast l -> x <> p.
Proof.
  intros Hn Hl Hx ->. apply last_Some in Hl as [l' ->]. rewrite removelast_last in Hx.
  apply NoDup_app in Hn as (_ & Hd & _). apply (Hd p Hx). by left.
Qed.
Lemma not_head (l : list ptr) p x : NoDup l -> head l = Some p -> x ∈ tail l -> x <> p.
Proof. destruct l; simpl; [done|]. intros [H1 _]%NoDup_cons [= ->] Hx ->. done. Qed.

(** A run of links keeps hanging together when links change that do not lead
    out of, or into, its inside. *)
Lemma chain_kept m m' l p last n first :
  chain m l -> NoDup l ->
  (forall x, x <> p -> x <> last -> nexts m' x = nexts m x) ->
  (forall x, x <> n -> x <> first -> prevs m' x = prevs m x) ->
  p ∉ removelast l -> last ∉ removelast l -> n ∉ tail l -> first ∉ tail l -> chain m' l.
Proof.
  intros Hc Hn H1 H2 Hp Hl Hn' Hf. eapply chain_frame; [done| |]; intros x Hx.
  - apply H1; by intros ->.
  - apply H2; by intros ->.
Qed.
Lemma parts (a : ptr) l1 xs l2 :
  NoDup (a :: l1 ++ xs ++ l2) ->
  NoDup (a :: l1) /\ NoDup (l2 ++ [a]) /\ NoDup xs /\ NoDup (a :: l1 ++ l2) /\
  (forall x, x ∈ xs -> x <> a /\ x ∉ l1 /\ x ∉ l2) /\ (forall x, x ∈ a :: l1 -> x ∉ l2) /\ a ∉ l1.
Proof.
  intros [Ha (H1 & Hd1 & (Hx & Hd2 & H2)%NoDup_app)%NoDup_app]%NoDup_cons. rewrite !not_elem_of_app in Ha.
  assert (Hd : forall x, x ∈ a :: l1 -> x ∉ l2).
  { intros x [->|Hin]%elem_of_cons; [tauto|]. specialize (Hd1 x Hin). rewrite not_elem_of_app in Hd1. tauto. }
  split_and!; try done.
  - apply NoDup_cons. tauto.
  - apply NoDup_app. split_and!; [done| |apply NoDup_singleton]. intros x Hin ->%list_elem_of_singleton. tauto.
  - apply NoDup_cons. rewrite not_elem_of_app. split; [tauto|]. apply NoDup_app. split_and!; [done| |done].
    intros x Hin. apply Hd. by right.
  - intros x Hin. split_and!; [intros ->; tauto| |by apply Hd2].
    intros Hin'. apply (Hd1 x Hin'), elem_of_app. by left.
  - tauto.
Qed.

(** Only links at the four places where [xs] meets the ring change. *)
Definition around (m m' : links) (p n first last : ptr) : Prop :=
  (forall x, x <> p -> x <> last -> nexts m' x = nexts m x) /\
  (forall x, x <> n -> x <> first -> prevs m' x = prevs m x).

Section Cut.
Context (m m' : links) (a : ptr) (l1 l2 xs : list ptr) (p n first last : ptr).
Hypothesis last_p : list.last (a :: l1) = Some p.
Hypothesis head_n : head (l2 ++ [a]) = Some n.
Hypothesis head_first : head xs = Some first.
Hypothesis last_last : list.last xs = Some last.
Hypothesis distinct : NoDup (a :: l1 ++ xs ++ l2).
Hypothesis changed : around m m' p n first last.

Lemma cut_kept :
  chain m (a :: l1) -> chain m (l2 ++ [a]) -> chain m xs ->
  chain m' (a :: l1) /\ chain m' (l2 ++ [a]) /\ chain m' xs.
Proof using All.
  destruct changed as [H1 H2]. destruct (parts _ _ _ _ distinct) as (N1 & N2 & N3 & N4 & Dx & D1 & Da).
  pose proof (last_elem _ _ last_p) as Ip. pose proof (head_elem _ _ head_n) as In.
  pose proof (head_elem _ _ head_first) as If. pose proof (last_elem _ _ last_last) as Il.
  assert (Hna : n ∉ l1).
  { intros Hin1. apply elem_of_app in In as [In|In]; [by apply (D1 n); [right|]|].
    apply list_elem_of_singleton in In as ->. done. }
  assert (Hxs : forall x, x ∈ xs -> x ∉ a :: l1 /\ x ∉ l2 ++ [a]).
  { intros x Hx. destruct (Dx x Hx) as (? & ? & ?). split; set_solver. }
  pose proof (Hxs _ If) as [If1 If2]. pose proof (Hxs _ Il) as [Il1 Il2]. intros Hc1 Hc2 Hcx. split_and!.
  - apply (chain_kept m m' _ p last n first); try done.
    + intros Hin1. by apply (not_last _ _ _ N1 last_p Hin1).
    + by intros ?%removelast_in.
    + by intros ?%tail_in.
  - apply (chain_kept m m' _ p last n first); try done.
    + rewrite removelast_last. by apply D1.
    + by intros ?%removelast_in.
    + intros Hin1. by apply (not_head _ _ _ N2 head_n Hin1).
    + by intros ?%tail_in.
  - apply (chain_kept m m' _ p last n first); try done.
    + intros Hin1%removelast_in. by apply Hxs in Hin1 as [? _].
    + intros Hin1. by apply (not_last _ _ _ N3 last_last Hin1).
    + intros Hin1%tail_in. by apply Hxs in Hin1 as [_ ?].
    + intros Hin1. by apply (not_head _ _ _ N3 head_first Hin1).
Qed.

Lemma splice_ring :
  ring m a (l1 ++ l2) -> chain m xs -> nodes xs ->
  linked m' p first -> linked m' last n -> ring m' a (l1 ++ xs ++ l2).
Proof using All.
  intros (Hc & _ & Hno) Hcx Hnx L1 L2. apply ring_cut in Hc as (Hc1 & Hc2 & _).
  destruct cut_kept as (K1 & K2 & K3); [done..|]. split_and!; [|done|].
  - change (chain m' (a :: (l1 ++ xs ++ l2) ++ [a])). apply ring_cut. rewrite <- app_assoc. split_and!; [done| |].
    + apply chain_app. split_and!; [done|done|]. intros x y Hx Hy. rewrite last_last in Hx. rewrite head_n in Hy.
      by simplify_eq.
    + intros x y Hx Hy. rewrite last_p in Hx. destruct xs as [|z ys]; [done|]. simpl in *. by simplify_eq.
  - unfold nodes in *. rewrite Forall_forall in Hno, Hnx. rewrite Forall_forall. set_solver.
Qed.

Lemma unsplice_ring :
  ring m a (l1 ++ xs ++ l2) -> linked m' p n -> ring m' a (l1 ++ l2) /\ chain m' xs.
Proof using All.
  intros (Hc & _ & Hno) L. change (chain m (a :: (l1 ++ xs ++ l2) ++ [a])) in Hc.
  apply ring_cut in Hc as (Hc1 & Hc2 & _). rewrite <- app_assoc in Hc2. apply chain_app in Hc2 as (Hcx & Hc2 & _).
  destruct cut_kept as (K1 & K2 & K3); [done..|]. split; [|done]. split_and!.
  - change (chain m' (a :: (l1 ++ l2) ++ [a])). apply ring_cut. split_and!; [done|done|].
    intros x y Hx Hy. rewrite last_p in Hx. rewrite head_n in Hy. by simplify_eq.
  - by destruct (parts _ _ _ _ distinct) as (_ & _ & _ & ? & _).
  - unfold nodes in *. rewrite Forall_forall in Hno. rewrite Forall_forall. set_solver.
Qed.
End Cut.
(** The ring operations at the cut between [p] and [n]. *)
Section Operations.
Context (m : links) (a : ptr) (l1 l2 xs : list ptr) (p n first last : ptr).
Hypothesis last_p : list.last (a :: l1) = Some p.
Hypothesis head_n : head (l2 ++ [a]) = Some n.
Hypothesis head_first : head xs = Some first.
Hypothesis last_last : list.last xs = Some last.
Hypothesis distinct : NoDup (a :: l1 ++ xs ++ l2).

Lemma ends_apart : p <> last /\ n <> first /\ p <> first /\ n <> last.
Proof using All.
  destruct (parts _ _ _ _ distinct) as (_ & _ & _ & _ & Dx & _).
  pose proof (last_elem _ _ last_p) as Ip. pose proof (head_elem _ _ head_n) as In.
  destruct (Dx first (head_elem _ _ head_first)) as (? & ? & ?).
  destruct (Dx last (last_elem _ _ last_last)) as (? & ? & ?).
  apply elem_of_cons in Ip. apply elem_of_app in In. rewrite list_elem_of_singleton in In.
  split_and!; intros ->; naive_solver.
Qed.

Lemma ends_around : p ∈ a :: l1 ++ l2 /\ n ∈ a :: l1 ++ l2.
Proof using last_p head_n.
  clear - last_p head_n. pose proof (last_elem _ _ last_p) as Ip. pose proof (head_elem _ _ head_n) as In. set_solver.
Qed.

Lemma link_between : ring m a (l1 ++ l2) -> linked m p n.
Proof using last_p head_n. intros (Hc & _ & _). apply ring_cut in Hc as (_ & _ & Hc). auto. Qed.

Lemma combine_after_ok :
  ring m a (l1 ++ l2) -> chain m xs -> nodes xs ->
  exists m', Ring.combine_after p first last m = Some m' /\ ring m' a (l1 ++ xs ++ l2) /\ around m m' p n first last.
Proof using All.
  intros Hr Hc Hn. destruct ends_apart as (A1 & A2 & A3 & A4). destruct ends_around as [Ip In].
  destruct (link_between Hr) as [Ln Lp]. unfold Ring.combine_after.
  rewrite (linked_node_ok _ _ _ p Hr) by done. cbn [mbind option_bind].
  assert (is_node p = true) by (apply (node_in (a :: l1 ++ l2)); [apply Hr|done]).
  assert (is_node n = true) by (apply (node_in (a :: l1 ++ l2)); [apply Hr|done]).
  assert (is_node first = true) by (eapply node_in, head_elem; done).
  assert (is_node last = true) by (eapply node_in, last_elem; done).
  mem. rewrite Ln. mem. eexists. split; [reflexivity|].
  assert (Har : around m (mkLinks (upd (upd (nexts m) last n) p first) (upd (upd (prevs m) first p) n last)) p n first last).
  { split; intros x ? ?; cbn; by rewrite !upd_ne. }
  rewrite Ln. split; [|done]. eapply splice_ring; try done; split; cbn; unfold upd; repeat case_decide; congruence.
Qed.

Lemma combine_before_ok :
  ring m a (l1 ++ l2) -> chain m xs -> nodes xs ->
  exists m', Ring.combine_before n first last m = Some m' /\ ring m' a (l1 ++ xs ++ l2) /\ around m m' p n first last.
Proof using All.
  intros Hr Hc Hn. destruct ends_apart as (A1 & A2 & A3 & A4). destruct ends_around as [Ip In].
  destruct (link_between Hr) as [Ln Lp]. unfold Ring.combine_before.
  rewrite (linked_node_ok _ _ _ n Hr) by done. cbn [mbind option_bind].
  assert (is_node p = true) by (apply (node_in (a :: l1 ++ l2)); [apply Hr|done]).
  assert (is_node n = true) by (apply (node_in (a :: l1 ++ l2)); [apply Hr|done]).
  assert (is_node first = true) by (eapply node_in, head_elem; done).
  assert (is_node last = true) by (eapply node_in, last_elem; done).
  mem. rewrite Lp. mem. eexists. split; [reflexivity|].
  assert (Har : around m (mkLinks (upd (upd (nexts m) last n) p first) (upd (upd (prevs m) first p) n last)) p n first last).
  { split; intros x ? ?; cbn; by rewrite !upd_ne. }
  rewrite Lp. split; [|done]. eapply splice_ring; try done; split; cbn; unfold upd; repeat case_decide; congruence.
Qed.

(** [remove(first, last)] takes the run out and clears its outer links. *)
Lemma remove_ok :
  ring m a (l1 ++ xs ++ l2) ->
  exists m', Ring.remove first last m = Some (last, m') /\ ring m' a (l1 ++ l2) /\ detached m' first last xs /\ around m m' p n first last.
Proof using All.
  intros Hr. destruct ends_apart as (A1 & A2 & A3 & A4). destruct ends_around as [Ip In].
  pose proof (head_elem _ _ head_first) as If. pose proof (last_elem _ _ last_last) as Il.
  pose proof Hr as (Hc & Hnd & Hno).
  assert (Hnode : forall x, x ∈ a :: l1 ++ l2 \/ x ∈ xs -> is_node x = true).
  { intros x Hx. apply (node_in (a :: l1 ++ xs ++ l2)); [done|]. set_solver. }
  assert (prevs m first = p /\ nexts m last = n) as [Lf Ll].
  { change (chain m (a :: (l1 ++ xs ++ l2) ++ [a])) in Hc. apply ring_cut in Hc as (_ & Hc & Hj).
    rewrite <- app_assoc in Hc, Hj. apply chain_app in Hc as (_ & _ & Hj2). split; [|by apply Hj2].
    apply Hj; [done|]. by destruct xs. }
  unfold Ring.remove, Ring.take_out.
  rewrite !(linked_node_ok _ _ _ _ Hr) by set_solver. cbn [mbind option_bind].
  pose proof (Hnode p (or_introl Ip)). pose proof (Hnode n (or_introl In)).
  pose proof (Hnode first (or_intror If)). pose proof (Hnode last (or_intror Il)).
  mem. rewrite Lf, Ll. mem. rewrite upd_ne by done. rewrite Lf, Ll. mem. eexists. split; [reflexivity|].
  assert (Har : around m (mkLinks (upd (upd (nexts m) p n) last nullptr) (upd (upd (prevs m) n p) first nullptr)) p n first last).
  { split; intros x ? ?; cbn; by rewrite !upd_ne. }
  destruct (unsplice_ring m _ a l1 l2 xs p n first last last_p head_n head_first last_last distinct Har Hr) as [Hr' Hx].
  { split; cbn; unfold upd; repeat case_decide; congruence. }
  split; [done|]. split; [|done]. split_and!; try done; cbn; rewrite ?upd_eq; try done.
  - by destruct (parts _ _ _ _ distinct) as (_ & _ & ? & _).
  - unfold nodes in *. rewrite Forall_forall in Hno |- *. set_solver.
Qed.
End Operations.
End RingSpec.

Lemma last_cons_snoc {A} (a x : A) l : last (a :: l ++ [x]) = Some x.
Proof. exact (last_snoc x (a :: l)). Qed.

Module ListSpec.
Import RingSpec IntrusiveList.
Section List.
Context (m : links) (a : ptr).

Lemma front_ok l : ring m a l -> exists f, head (l ++ [a]) = Some f /\ front a m = Some f.
Proof.
  intros Hr. destruct (cut_ends a [] l) as (p & f & Hp & Hf). exists f. split; [done|].
  unfold front. rewrite Next_ok by (eapply node_in; [apply Hr|by left]).
  f_equal. simpl in Hp. simplify_eq. by destruct (link_between m p [] l p f eq_refl Hf Hr).
Qed.

Lemma back_ok l : ring m a l -> exists b, last (a :: l) = Some b /\ back a m = Some b.
Proof.
  intros Hr. destruct (cut_ends a l []) as (b & n & Hb & Hn). exists b. split; [done|].
  unfold back. rewrite Prev_ok by (eapply node_in; [apply Hr|by left]).
  f_equal. rewrite <- (app_nil_r l) in Hr. simpl in Hn. simplify_eq.
  by destruct (link_between m n l [] b n Hb eq_refl Hr).
Qed.

(** The assertion of [empty] holds. *)
Lemma empty_ok l : ring m a l -> empty a m = Some (bool_decide (l = [])).
Proof.
  intros Hr. pose proof Hr as (_ & [Ha Hn]%NoDup_cons & _). unfold empty.
  destruct (front_ok l Hr) as (f & Hf & ->), (back_ok l Hr) as (b & Hb & ->). cbn [mbind option_bind].
  destruct l as [|x l _] using rev_ind; [simpl in *; simplify_eq; by rewrite Z.eqb_refl|].
  rewrite last_cons_snoc in Hb. simplify_eq.
  assert ((f =? a) = false) as ->.
  { apply Z.eqb_neq. intros ->. apply Ha. destruct l; simpl in *; simplify_eq; by left. }
  assert ((b =? a) = false) as -> by (apply Z.eqb_neq; intros ->; apply Ha, snoc_in).
  rewrite bool_decide_eq_false_2 by (by destruct l). done.
Qed.

Lemma unlinked_ok first last xs : detached m first last xs -> Ring.unlinked first last m = Some tt.
Proof.
  intros (Hf & Hl & _ & _ & Hn & Hp & Hq). unfold Ring.unlinked.
  rewrite Prev_ok, Next_ok by (eapply node_in; [done|]; (by apply head_elem) || by apply last_elem).
  simpl. rewrite Hp, Hq. done.
Qed.

(** Insertion of a run at any place, from either side. *)
Lemma insert_ok l1 l2 xs p n first last :
  ring m a (l1 ++ l2) -> list.last (a :: l1) = Some p -> head (l2 ++ [a]) = Some n ->
  detached m first last xs -> NoDup (a :: l1 ++ xs ++ l2) ->
  (exists m', Ring.insert_after false p first last m = Some m' /\ ring m' a (l1 ++ xs ++ l2)) /\
  (exists m', Ring.insert_before n first last m = Some m' /\ ring m' a (l1 ++ xs ++ l2)).
Proof.
  intros Hr Hp Hn Hd Hnd. unfold Ring.insert_after, Ring.insert_before.
  rewrite (unlinked_ok _ _ xs) by done. cbn [mbind option_bind]. destruct Hd as (Hf & Hl & Hc & _ & Hno & _).
  split.
  - destruct (combine_after_ok m a l1 l2 xs p n first last) as (m' & H1 & H2 & _); [done..|]. by exists m'.
  - destruct (combine_before_ok m a l1 l2 xs p n first last) as (m' & H1 & H2 & _); [done..|]. by exists m'.
Qed.

Lemma splice_back_ok l xs first last :
  ring m a l -> detached m first last xs -> NoDup (a :: l ++ xs) ->
  exists m', splice_back a first last m = Some m' /\ ring m' a (l ++ xs).
Proof.
  intros Hr Hd Hnd. unfold splice_back. destruct (back_ok l Hr) as (b & Hb & ->). cbn [mbind option_bind].
  pose proof (insert_ok l [] xs b a first last) as H. rewrite !app_nil_r in H.
  destruct H as [H _]; done.
Qed.

Lemma push_front_ok l x :
  ring m a l -> detached m x x [x] -> NoDup (a :: x :: l) ->
  exists m', push_front a x m = Some m' /\ ring m' a (x :: l).
Proof.
  intros Hr Hd Hnd. unfold push_front. destruct (front_ok l Hr) as (f & Hf & ->). cbn [mbind option_bind].
  destruct (insert_ok [] l [x] a f x x) as [_ H]; done.
Qed.

(** Removal of a run. *)
Lemma remove_run l1 l2 xs first last :
  ring m a (l1 ++ xs ++ l2) -> head xs = Some first -> list.last xs = Some last ->
  exists m', Ring.remove first last m = Some (last, m') /\ ring m' a (l1 ++ l2) /\ detached m' first last xs.
Proof.
  intros Hr Hf Hl. destruct (cut_ends a l1 l2) as (p & n & Hp & Hn).
  destruct (remove_ok m a l1 l2 xs p n first last) as (m' & H1 & H2 & H3 & _); [done..| apply Hr|done|].
  by exists m'.
Qed.

Lemma pop_front_ok x l :
  ring m a (x :: l) -> exists m', pop_front a m = Some (x, m') /\ ring m' a l /\ detached m' x x [x].
Proof.
  intros Hr. unfold pop_front. rewrite (empty_ok (x :: l)) by done. cbn [mbind option_bind].
  destruct (front_ok (x :: l) Hr) as (f & Hf & ->). simpl in Hf. simplify_eq. cbn.
  by apply (remove_run [] l [f]).
Qed.

Lemma pop_back_ok x l :
  ring m a (l ++ [x]) -> exists m', pop_back a m = Some (x, m') /\ ring m' a l /\ detached m' x x [x].
Proof.
  intros Hr. unfold pop_back. rewrite (empty_ok (l ++ [x])) by done. cbn [mbind option_bind].
  rewrite bool_decide_eq_false_2 by (by destruct l).
  destruct (back_ok (l ++ [x]) Hr) as (b & Hb & ->). rewrite last_cons_snoc in Hb. simplify_eq. cbn.
  destruct (remove_run l [] [b] b b) as (m' & H1 & H2 & H3); [done..|]. rewrite app_nil_r in H2. by exists m'.
Qed.

Lemma chain_lseg x l q : chain m (x :: l ++ [q]) -> nodes (x :: l) -> lseg (nexts m) x (x :: l) q.
Proof.
  revert x. induction l as [|y l IH]; intros x.
  - intros [[H _] _] Hn%Forall_cons. simpl. by destruct Hn.
  - intros [[H _] Hc] [Hx Hn]%Forall_cons. split; [done|]. split; [done|]. rewrite H. by apply IH.
Qed.

(** [remove(first, count)] takes [count] elements, or as many as follow. *)
Lemma remove_count_ok l1 x l2 count :
  ring m a (l1 ++ x :: l2) ->
  exists ys last l2' m',
    x :: l2 = (ys ++ [last]) ++ l2' /\
    length (ys ++ [last]) = Nat.min (Z.to_nat (Z.max 1 count)) (length (x :: l2)) /\
    remove_count a x count m = Some (last, Z.min count (Z.of_nat (length (x :: l2))), m') /\
    ring m' a (l1 ++ l2') /\ detached m' x last (ys ++ [last]).
Proof.
  intros Hr. pose proof Hr as (Hc & [Ha Hnd]%NoDup_cons & Hno).
  assert (Hs : lseg (nexts m) x (x :: l2) a).
  { apply chain_lseg.
    - change (chain m (a :: (l1 ++ x :: l2) ++ [a])) in Hc. by apply ring_cut in Hc as (_ & Hc & _).
    - unfold nodes in *. rewrite Forall_forall in *. set_solver. }
  unfold remove_count. rewrite (linked_node_ok m a (l1 ++ x :: l2)) by (done || set_solver). cbn [mbind option_bind].
  destruct (pop_scan_spec a m l2 x 1 count Hs) with (k := Z.to_nat (count - 1))
    as (last & c' & Hp & (ys & l2' & El & Hl) & Hc'); [set_solver|].
  unfold pop_helper. rewrite Hp. cbn [mbind option_bind].
  assert (El' : x :: l2 = (ys ++ [last]) ++ l2') by (by rewrite <- app_assoc).
  rewrite El' in Hr. destruct (remove_run l1 l2' (ys ++ [last]) x last Hr) as (m' & H1 & H2 & H3).
  { destruct ys; simpl in *; congruence. }
  { by rewrite last_snoc. }
  exists ys, last, l2', m'. rewrite H1. cbn [mbind option_bind]. split_and!; try done.
  - rewrite length_app. simpl. lia.
  - do 3 f_equal. rewrite Hc'. simpl. destruct (Nat.leb_spec (Z.to_nat (count - 1)) (length l2)); lia.
Qed.
End List.
End ListSpec.

(** * What the containers promise *)

(** [Stack]: [push] puts a segment on top, [pop] takes the top and clears its
    link (on an empty stack it returns [nullptr]), [pop(count)] takes exactly
    [count] elements as a segment, in the order of the stack; asked for more than
    there are, it runs past the end ([pop(count)] compares links with [nullptr],
    the last link is [Sentinel]). *)
Theorem stack_correct m h l :
  StackSpec.stack m h l ->
  (forall first last xs, segment m first last xs -> NoDup (xs ++ l) ->
     exists m', Stack.push first last h m = Some (first, m') /\ StackSpec.stack m' first (xs ++ l)) /\
  match l with
  | [] => Stack.pop h m = Some (nullptr, h, m)
  | x :: l' => exists h' m', Stack.pop h m = Some (x, h', m') /\ StackSpec.stack m' h' l' /\ nexts m' x = nullptr
  end /\
  (forall count, 1 <= count <= Z.of_nat (length l) ->
     exists l1 last l2 h' m', l = (l1 ++ [last]) ++ l2 /\ Z.of_nat (length (l1 ++ [last])) = count /\
       Stack.pop_count count h m = Some (last, count, h', m') /\
       segment m' h last (l1 ++ [last]) /\ StackSpec.stack m' h' l2) /\
  (forall count, l <> [] -> Z.of_nat (length l) < count -> Stack.pop_count count h m = None).
Proof.
  intros Hs. split_and!.
  - intros first last xs Hx Hn. destruct (StackSpec.stack_push_ok m h l first last xs) as (m' & ? & ? & _); eauto.
  - destruct l as [|x l]; [unfold Stack.pop; by rewrite (StackSpec.stack_empty m h [])|].
    destruct (StackSpec.stack_pop_ok m h x l Hs) as (h' & m' & ? & ? & ? & _); eauto.
  - intros count Hc. destruct (StackSpec.stack_pop_count_ok m h l count Hs Hc)
      as (l1 & last & l2 & h' & m' & ? & ? & ? & ? & ? & _). exists l1, last, l2, h', m'. by rewrite <- app_assoc.
  - intros count. by apply StackSpec.stack_pop_count_beyond.
Qed.

(** C33. [Queue]: [push] appends a segment, [pop] takes the first element,
    [pop(count)] takes [count] elements or as many as there are (one at least) as
    a segment that can be pushed again, and sets [count] to the number taken; the
    assertions hold. *)
Theorem queue_correct m q l :
  QueueSpec.queue_of m q l ->
  (forall Clean, Queue.empty Clean q = Some (bool_decide (l = []))) /\
  (forall first last xs, segment m first last xs -> NoDup (l ++ xs) ->
     exists q' m', Queue.push first last q m = Some (q', m') /\ QueueSpec.queue_of m' q' (l ++ xs)) /\
  (l = [] -> forall count, Queue.pop count q m = Some (nullptr, count, q, m)) /\
  (l <> [] -> forall count, exists l1 last l2 q' m',
     l = (l1 ++ [last]) ++ l2 /\ length (l1 ++ [last]) = QueueSpec.taken count l /\
     Queue.pop count q m = Some (last, (c ← count; Some (Z.min c (Z.of_nat (length l)))), q', m') /\
     segment m' (Queue.head q) last (l1 ++ [last]) /\ QueueSpec.queue_of m' q' l2).
Proof.
  intros Hq. split_and!.
  - intros Clean. by apply (QueueSpec.queue_empty m).
  - intros first last xs Hx Hn. destruct (QueueSpec.queue_push_ok m q l first last xs) as (q' & m' & ? & ? & _); eauto.
  - intros -> count. unfold Queue.pop. by rewrite (QueueSpec.queue_empty m q []).
  - intros Hne count. destruct (QueueSpec.queue_pop_ok m q l count Hq Hne)
      as (l1 & last & l2 & q' & m' & ? & ? & ? & ? & ? & _). exists l1, last, l2, q', m'. by rewrite <- app_assoc.
Qed.

(** [List] over [Ring]: a detached run of nodes can be inserted at any place,
    from either side; any run can be removed again and comes back detached;
    [pop_front] and [pop_back] take the ends of a list and fail their assertion on
    an empty one; [remove(first, count)] takes [count] elements from [first] on,
    or as many as there are. *)
Theorem list_correct m a l :
  RingSpec.ring m a l ->
  IntrusiveList.empty a m = Some (bool_decide (l = [])) /\
  (forall first last xs, RingSpec.detached m first last xs -> NoDup (a :: l ++ xs) ->
     exists m', IntrusiveList.splice_back a first last m = Some m' /\ RingSpec.ring m' a (l ++ xs)) /\
  (forall x, RingSpec.detached m x x [x] -> NoDup (a :: x :: l) ->
     exists m', IntrusiveList.push_front a x m = Some m' /\ RingSpec.ring m' a (x :: l)) /\
  (forall l1 xs l2 first last, l = l1 ++ xs ++ l2 -> head xs = Some first -> list.last xs = Some last ->
     exists m', Ring.remove first last m = Some (last, m') /\ RingSpec.ring m' a (l1 ++ l2) /\
       RingSpec.detached m' first last xs) /\
  (forall l1 x l2 count, l = l1 ++ x :: l2 -> exists ys last l2' m',
     x :: l2 = (ys ++ [last]) ++ l2' /\
     length (ys ++ [last]) = Nat.min (Z.to_nat (Z.max 1 count)) (length (x :: l2)) /\
     IntrusiveList.remove_count a x count m = Some (last, Z.min count (Z.of_nat (length (x :: l2))), m') /\
     RingSpec.ring m' a (l1 ++ l2') /\ RingSpec.detached m' x last (ys ++ [last])) /\
  (l = [] -> IntrusiveList.pop_front a m = None /\ IntrusiveList.pop_back a m = None) /\
  (forall x l', l = x :: l' -> exists m', IntrusiveList.pop_front a m = Some (x, m') /\ RingSpec.ring m' a l') /\
  (forall x l', l = l' ++ [x] -> exists m', IntrusiveList.pop_back a m = Some (x, m') /\ RingSpec.ring m' a l').
Proof.
  intros Hr. split_and!.
  - by apply ListSpec.empty_ok.
  - intros first last xs. by apply ListSpec.splice_back_ok.
  - intros x. by apply ListSpec.push_front_ok.
  - intros l1 xs l2 first last ->. by apply ListSpec.remove_run.
  - intros l1 x l2 count ->. by apply ListSpec.remove_count_ok.
  - intros ->. unfold IntrusiveList.pop_front, IntrusiveList.pop_back. by rewrite (ListSpec.empty_ok m a []).
  - intros x l' ->. destruct (ListSpec.pop_front_ok m a x l' Hr) as (m' & ? & ? & _). by exists m'.
  - intros x l' ->. destruct (ListSpec.pop_back_ok m a x l' Hr) as (m' & ? & ? & _). by exists m'.
Qed.

(** ** A concrete memory *)
(** Nodes 16, 32, 48 in a row, 64 alone; the anchor of the list is 8. *)
Definition demo_links (first_prev end_ : ptr) : links :=
  mkLinks (fun p => match p with 8 => 16 | 16 => 32 | 32 => 48 | 48 => end_ | _ => nullptr end)
          (fun p => match p with 8 => 48 | 16 => first_prev | 32 => 16 | 48 => 32 | _ => nullptr end).
Definition demo_nodes : list ptr := [16; 32; 48].

(** Popping four of three elements: the queue stops at the end, the stack
    follows the sentinel. *)
Example queue_pop_four :
  (fun r => r.1.1) <$> Queue.pop (Some 4) (Queue.mkQueue 16 48) (demo_links nullptr Sentinel) = Some (48, Some 3).
Proof. reflexivity. Qed.
Example stack_pop_four : Stack.pop_count 4 16 (demo_links nullptr Sentinel) = None.
Proof. reflexivity. Qed.

Lemma demo_nodup : NoDup (8 :: demo_nodes).
Proof. apply (bool_decide_unpack _). by vm_compute. Qed.

Lemma stack_correct_witness :
  let m := demo_links nullptr Sentinel in
  Stack.pop_count 3 16 m <> None /\ Stack.pop_count 4 16 m = None.
Proof.
  destruct (stack_correct (demo_links nullptr Sentinel) 16 demo_nodes) as (_ & _ & H3 & H4).
  - split; [by split_and!|]. apply (NoDup_cons_1_2 8), demo_nodup.
  - split.
    + destruct (H3 3) as (l1 & last & l2 & h' & m' & _ & _ & -> & _); [vm_compute; by split|discriminate].
    + by apply H4.
Defined.

Lemma queue_correct_witness :
  exists q' m', Queue.push 64 64 (Queue.mkQueue 16 48) (demo_links nullptr Sentinel) = Some (q', m') /\
    QueueSpec.queue_of m' q' [16; 32; 48; 64].
Proof.
  destruct (queue_correct (demo_links nullptr Sentinel) (Queue.mkQueue 16 48) demo_nodes) as (_ & H & _).
  - split; [by split_and!|]. split; [|done]. apply (NoDup_cons_1_2 8), demo_nodup.
  - apply (H 64 64 [64]); [by exists []|]. apply (bool_decide_unpack _). by vm_compute.
Defined.

Lemma list_correct_witness :
  exists m', IntrusiveList.remove_count 8 32 5 (demo_links 8 8) = Some (48, 2, m') /\ RingSpec.ring m' 8 [16].
Proof.
  destruct (list_correct (demo_links 8 8) 8 demo_nodes) as (_ & _ & _ & _ & H & _).
  - split; [|split; [apply demo_nodup|by repeat constructor]]. repeat (split; [by split|]). done.
  - destruct (H [16] 32 [48] 5 eq_refl) as (ys & last & l2' & m' & E & Hlen & Hr & Hring & _).
    destruct ys as [|y1 [|y2 [|y3 ys]]]; simpl in E, Hlen; simplify_eq; try lia.
    simpl in Hr, Hring. by exists m'.
Defined.
