(* ===== verification/LockFreeQueues.v ===== *)
(** [QueueMCS] and [QueueNemesis] of [src/runtime/LockFreeQueues.h]: any number
    of threads push segments and pop elements concurrently; each access to
    shared memory is a step.  Nodes and threads are numbered. *)
From S2P Require Import Prelude.

Module Nemesis.

(** [QueueMCS::push] with the store of [head] of [QueueNemesis::push], and
    [QueueNemesis::pop] with [QueueMCS::pop], step by step. *)
Inductive pc :=
| Idle
| PExch (xs : list nat)             (* about to exchange [tail]; the segment [xs] *)
| PLink (prev first : nat)          (* about to store [Next( *prev) = &first] *)
| PHead (first : nat)               (* about to store [head = &first] *)
| CLock | CLoad                     (* [AcquireSpinLock], load of [head] *)
| CNone                             (* [ReleaseSpinLock], return [nullptr] *)
| CNext (e : nat)                   (* about to read [Next( *elem)] *)
| CSetHead (e : nat) (n : option nat)   (* about to store [head = next] *)
| CRel (e : nat) (n : option nat)   (* [ReleaseSpinLock] *)
| CClear (e : nat)                  (* about to invalidate the link, and return *)
| CCas (e : nat)                    (* [QueueMCS::pop]: about to swing [tail] *)
| CSpin (e : nat)                   (* waiting for the producer in [push] *)
| CInv (e n : nat)                  (* about to invalidate the link *)
| CHead (e n : nat).                (* about to store [head = next], and return *)

Record state := mkState {
  head : option nat;
  tail : option nat;
  next : nat -> option nat;
  lock : option nat;
  pcs : nat -> pc;
  (* ghost: nodes in use, nodes not yet taken, all nodes pushed and taken *)
  busy : nat -> bool;
  queue : list nat;
  pushed : list nat;
  taken : list nat;
  aborted : bool
}.

Inductive label :=
| Push (i : nat) (xs : list nat)
| Pop (i : nat)
| Go (i : nat).

(** The caller links the nodes of a segment before it calls [push(first, last)]. *)
Fixpoint link_all (xs : list nat) (nx : nat -> option nat) : nat -> option nat :=
  match xs with
  | x :: (y :: _) as xs' => link_all xs' (upd nx x (Some y))
  | _ => nx
  end.

(** A segment is pushed by the thread that has its nodes: they are in no
    queue and in no operation. *)
Definition may_push (bz : nat -> bool) (xs : list nat) : bool :=
  bool_decide (NoDup xs) && forallb (fun x => negb (bz x)) xs.
Definition use_all (xs : list nat) (bz : nat -> bool) : nat -> bool :=
  fun x => bz x || bool_decide (x ∈ xs).

Definition step (l : label) (s : state) : option state :=
  let 'mkState h t nx lk pc bz q hi tk ab := s in
  let goto i c := mkState h t nx lk (upd pc i c) bz q hi tk ab in
  match l with
  | Push i xs =>
      match pc i, last xs with
      | Idle, Some z =>
          if may_push bz xs then
            Some (match nx z with
                  | Some _ => mkState h t nx lk pc bz q hi tk true
                  | None => mkState h t (link_all xs nx) lk (upd pc i (PExch xs)) (use_all xs bz) q hi tk ab
                  end)
          else None
      | _, _ => None
      end
  | Pop i => match pc i with Idle => Some (goto i CLock) | _ => None end
  | Go i =>
      match pc i with
      | PExch xs =>
          match list.head xs, last xs with
          | Some f, Some z =>
              Some (mkState h (Some z) nx lk (upd pc i (match t with None => PHead f | Some p => PLink p f end))
                      bz (q ++ xs) (hi ++ xs) tk ab)
          | _, _ => None
          end
      | PLink p f => Some (mkState h t (upd nx p (Some f)) lk (upd pc i Idle) bz q hi tk ab)
      | PHead f => Some (mkState (Some f) t nx lk (upd pc i Idle) bz q hi tk ab)
      | CLock => match lk with
                 | None => Some (mkState h t nx (Some i) (upd pc i CLoad) bz q hi tk ab)
                 | Some _ => None
                 end
      | CLoad => Some (match h with
                       | None => goto i CNone
                       | Some e => mkState h t nx lk (upd pc i (CNext e)) bz (list.tail q) hi (tk ++ [e]) ab
                       end)
      | CNone => Some (mkState h t nx None (upd pc i Idle) bz q hi tk ab)
      | CNext e => Some (goto i (CSetHead e (nx e)))
      | CSetHead e n => Some (mkState n t nx lk (upd pc i (CRel e n)) bz q hi tk ab)
      | CRel e n =>
          Some (mkState h t nx None (upd pc i (match n with Some _ => CClear e | None => CCas e end)) bz q hi tk ab)
      | CClear e => Some (mkState h t (upd nx e None) lk (upd pc i Idle) (upd bz e false) q hi tk ab)
      | CCas e =>
          if bool_decide (t = Some e) then Some (mkState h None nx lk (upd pc i Idle) (upd bz e false) q hi tk ab)
          else Some (goto i (CSpin e))
      | CSpin e => Some (match nx e with None => s | Some n => goto i (CInv e n) end)
      | CInv e n => Some (mkState h t (upd nx e None) lk (upd pc i (CHead e n)) bz q hi tk ab)
      | CHead e n => Some (mkState (Some n) t nx lk (upd pc i Idle) (upd bz e false) q hi tk ab)
      | Idle => None
      end
  end.

(** [QueueMCS::tryPushEmpty(last)], which [QueueNemesis] inherits: the
    assertion, the test of [tail], and the attempt to set it ([seen]: what the
    test has read). *)
Definition tryPushEmpty_test (x : nat) (s : state) : option (option nat) :=
  match next s x with Some _ => None | None => Some (tail s) end.
Definition tryPushEmpty (x : nat) (seen : option nat) (s : state) : bool * state :=
  let 'mkState h t nx lk pc bz q hi tk ab := s in
  match seen, t with
  | None, None => (true, mkState h (Some x) nx lk pc (use_all [x] bz) (q ++ [x]) (hi ++ [x]) tk ab)
  | _, _ => (false, s)
  end.

Definition init (s : state) : Prop :=
  s = mkState None None (fun _ => None) None (fun _ => Idle) (fun _ => false) [] [] [] false.

(** Has the lock. *)
Definition locked (c : pc) : bool :=
  match c with CLoad | CNone | CNext _ | CSetHead _ _ | CRel _ _ => true | _ => false end.

(** Nodes that a thread has in its hands. *)
Definition hand (c : pc) : list nat :=
  match c with
  | PExch xs => xs
  | CRel e (Some _) | CClear e | CHead e _ => [e]
  | _ => []
  end.

(** About to store [f] as the new head of a queue without one. *)
Definition storing (c : pc) (f : nat) : Prop := c = PHead f \/ exists e, c = CHead e f.
(** Has read [e] as the head, under the lock. *)
Definition taking (c : pc) (e : nat) : Prop := c = CNext e \/ exists n, c = CSetHead e n.
(** Has taken the last node [e] and has not yet seen a successor. *)
Definition emptying (c : pc) (e : nat) : Prop :=
  c = CRel e None \/ c = CCas e \/ c = CSpin e \/ exists n, c = CInv e n.

(** What the front of the queue is up to. *)
Inductive role :=
| Empty | Ready
| Storing (i f : nat) | Taking (i e : nat) | Emptying (i e : nat).

(** The nodes that hang together from the front to [tail]. *)
Definition linked (r : role) (q : list nat) : list nat :=
  match r with Taking _ e | Emptying _ e => e :: q | _ => q end.

Definition role_ok (r : role) (s : state) : Prop :=
  match r with
  | Empty => queue s = [] /\ head s = None
  | Ready => queue s <> [] /\ head s = list.head (queue s)
  | Storing i f => head s = None /\ list.head (queue s) = Some f /\ storing (pcs s i) f
  | Taking i e => head s = Some e /\ taking (pcs s i) e /\
                  forall n, pcs s i = CSetHead e (Some n) -> next s e = Some n
  | Emptying i e => head s = None /\ emptying (pcs s i) e /\ (pcs s i = CSpin e -> queue s <> []) /\
                    forall n, pcs s i = CInv e n -> next s e = Some n
  end.

Record inv_with (r : role) (s : state) : Prop := mkInv {
  i_tail : tail s = last (linked r (queue s));
  i_nodup : NoDup (linked r (queue s));
  i_link x y : adj (linked r (queue s)) x y -> next s x = Some y \/ next s x = None /\ exists i, pcs s i = PLink x y;
  i_last z : last (linked r (queue s)) = Some z -> next s z = None;
  i_role : role_ok r s;
  i_plink i x y : pcs s i = PLink x y -> adj (linked r (queue s)) x y /\ next s x = None;
  i_plinks i j x y y' : pcs s i = PLink x y -> pcs s j = PLink x y' -> i = j;
  i_storing i f : storing (pcs s i) f -> r = Storing i f;
  i_taking i e : taking (pcs s i) e -> r = Taking i e;
  i_emptying i e : emptying (pcs s i) e -> r = Emptying i e;
  i_lock : tracks (lock s) locked (pcs s);
  i_busy x : busy s x = true <-> x ∈ linked r (queue s) \/ exists i, x ∈ hand (pcs s i);
  i_hand i x : x ∈ hand (pcs s i) -> x ∉ linked r (queue s);
  i_hands i j x : x ∈ hand (pcs s i) -> x ∈ hand (pcs s j) -> i = j;
  i_free x : busy s x = false -> next s x = None;
  i_seg i xs : pcs s i = PExch xs ->
    xs <> [] /\ NoDup xs /\ (forall x y, adj xs x y -> next s x = Some y) /\ (forall z, last xs = Some z -> next s z = None);
  i_chead i e n : pcs s i = CHead e n -> next s e = None;
  i_hist : pushed s = taken s ++ queue s;
  i_ab : aborted s = false
}.
Definition inv (s : state) : Prop := exists r, inv_with r s.
Ltac fields := cbn [head tail next lock pcs busy queue pushed taken aborted] in *.

(** No thread that is elsewhere plays a part at the front. *)
Ltac no_role :=
  repeat intro; exfalso;
  match goal with
  | H : storing _ _ |- _ => destruct H as [H|[? H]]; congruence
  | H : taking _ _ |- _ => destruct H as [H|[? H]]; congruence
  | H : emptying _ _ |- _ => destruct H as [H|[H|[H|[? H]]]]; congruence
  end.

(** The hands of the other threads. *)
Definition others (pc : nat -> pc) (i x : nat) : Prop := exists j, j <> i /\ x ∈ hand (pc j).

Lemma hands_upd pc i c x : (exists j, x ∈ hand (upd pc i c j)) <-> x ∈ hand c \/ others pc i x.
Proof.
  split.
  - intros [j Hj]. destruct (decide (j = i)) as [->|Hne]; [rewrite upd_eq in Hj; by left|].
    rewrite upd_ne in Hj by congruence. right. by exists j.
  - intros [Hc|(j & Hne & Hj)]; [exists i; by rewrite upd_eq|]. exists j. by rewrite upd_ne by congruence.
Qed.

(** Steps of one thread that leave the queue and what the front is up to
    alone: they change the links of nodes in that thread's hands only. *)
Lemma frame_ok r h t nx nx' lk lk' pc bz bz' q hi tk i c :
  inv_with r (mkState h t nx lk pc bz q hi tk false) ->
  (forall x y, pc i <> PLink x y /\ c <> PLink x y) ->
  (forall x, x ∈ linked r q \/ others pc i x -> nx' x = nx x) ->
  (forall x, bz' x = true <-> x ∈ linked r q \/ others pc i x \/ x ∈ hand c) ->
  (forall x, bz' x = false -> nx' x = None) ->
  (forall x, x ∈ hand c -> x ∉ linked r q /\ ~ others pc i x) ->
  (forall xs, c = PExch xs -> xs <> [] /\ NoDup xs /\ (forall x y, adj xs x y -> nx' x = Some y) /\
     (forall z, last xs = Some z -> nx' z = None)) ->
  (forall e n, c = CHead e n -> nx' e = None) ->
  (forall f, storing c f -> r = Storing i f) -> (forall e, taking c e -> r = Taking i e) ->
  (forall e, emptying c e -> r = Emptying i e) ->
  tracks lk' locked (upd pc i c) ->
  role_ok r (mkState h t nx' lk' (upd pc i c) bz' q hi tk false) ->
  inv_with r (mkState h t nx' lk' (upd pc i c) bz' q hi tk false).
Proof.
  intros [Ht Hn Hl Hz Hr Hp Hpp Hst Hta Hem Hlk Hb Hh Hhh Hf Hsg Hc Hhi _] Hpl Hnx Hbz Hf' Hhc Hex Hch Hs1 Hs2 Hs3 Hlk' Hro.
  assert (HnxL : forall x y, adj (linked r q) x y -> nx' x = nx x).
  { intros x y Hxy. apply Hnx. left. by apply adj_in in Hxy as [? _]. }
  assert (Hnxo : forall j x, j <> i -> x ∈ hand (pc j) -> nx' x = nx x) by (intros j x ? ?; apply Hnx; right; by exists j).
  split; fields; try done.
  - intros x y Hxy. rewrite (HnxL x y Hxy). destruct (Hl x y Hxy) as [?|[Hx [j Hj]]]; [by left|].
    right. split; [done|]. exists j. at_fred j i; [by destruct (Hpl x y)|done].
  - intros z Hlast. rewrite Hnx by (left; by apply last_Some_elem_of). by apply Hz.
  - intros j x y. at_fred j i; [intros E; by destruct (Hpl x y)|]. intros Hj. destruct (Hp j x y Hj) as [Hxy ?].
    by rewrite (HnxL x y Hxy).
  - intros j k x y y'. at_fred j i; [intros E; by destruct (Hpl x y)|]. at_fred k i; [|apply Hpp].
    intros _ E. by destruct (Hpl x y').
  - intros j f. at_fred j i; [apply Hs1|apply Hst].
  - intros j e. at_fred j i; [apply Hs2|apply Hta].
  - intros j e. at_fred j i; [apply Hs3|apply Hem].
  - intros x. rewrite Hbz, hands_upd. tauto.
  - intros j x. at_fred j i; [apply Hhc|apply Hh].
  - intros j k x. at_fred j i; at_fred k i; try done.
    + intros Hx Hk. exfalso. apply (Hhc x Hx). exists k. split; [by apply not_eq_sym|done].
    + intros Hj Hx. exfalso. apply (Hhc x Hx). exists j. split; [by apply not_eq_sym|done].
    + apply Hhh.
  - intros j xs. at_fred j i; [apply Hex|]. intros Hj. destruct (Hsg j xs Hj) as (H1 & H2 & H3 & H4).
    assert (Hk : forall x, x ∈ xs -> nx' x = nx x) by (intros x ?; apply (Hnxo j); [by apply not_eq_sym|by rewrite Hj]).
    split_and!; [done|done| |].
    + intros x y Hxy. rewrite Hk by (by apply adj_in in Hxy as [? _]). by apply H3.
    + intros z Hlast. rewrite Hk by (by apply last_Some_elem_of). by apply H4.
  - intros j e n. at_fred j i; [apply Hch|]. intros Hj.
    rewrite (Hnxo j) by (by apply not_eq_sym || (rewrite Hj; by left)). by eapply Hc.
Qed.

(** A thread keeps what it has in its hands and what is in use. *)
Lemma busy_same r s i c :
  inv_with r s -> hand c = hand (pcs s i) ->
  (forall x, busy s x = true <-> x ∈ linked r (queue s) \/ others (pcs s) i x \/ x ∈ hand c) /\
  (forall x, x ∈ hand c -> x ∉ linked r (queue s) /\ ~ others (pcs s) i x).
Proof.
  intros Hi Hc. rewrite Hc. split.
  - intros x. rewrite (i_busy _ _ Hi). split; [|intros [?|[(j & _ & ?)|?]]; eauto].
    intros [?|[j Hj]]; [by left|]. destruct (decide (j = i)) as [->|Hne]; [by right; right|].
    right. left. by exists j.
  - intros x Hx. split; [by apply (i_hand _ _ Hi i)|]. intros (j & Hne & Hj). apply Hne. by apply (i_hands _ _ Hi j i x).
Qed.

(** Steps that touch nothing but the thread's place and the lock. *)
Lemma quiet_ok r h t nx lk lk' pc bz q hi tk i c :
  inv_with r (mkState h t nx lk pc bz q hi tk false) ->
  hand c = hand (pc i) -> (forall x y, pc i <> PLink x y /\ c <> PLink x y) ->
  (forall xs, c <> PExch xs) -> (forall e n, c <> CHead e n) ->
  (forall f, storing c f -> r = Storing i f) -> (forall e, taking c e -> r = Taking i e) ->
  (forall e, emptying c e -> r = Emptying i e) ->
  tracks lk' locked (upd pc i c) ->
  role_ok r (mkState h t nx lk' (upd pc i c) bz q hi tk false) ->
  inv_with r (mkState h t nx lk' (upd pc i c) bz q hi tk false).
Proof.
  intros Hi Hhand Hpl Hex Hch Hs1 Hs2 Hs3 Hlk Hro. destruct (busy_same _ _ i c Hi Hhand) as [Hb Hh].
  eapply frame_ok; try done; [apply (i_free _ _ Hi)|intros xs ->; by destruct (Hex xs)|intros e n ->; by destruct (Hch e n)].
Qed.

(** What the front is up to does not concern a thread that is elsewhere. *)
Lemma role_elsewhere r h t nx nx' lk lk' pc bz bz' q hi hi' tk i c :
  role_ok r (mkState h t nx lk pc bz q hi tk false) ->
  (forall x, x ∈ linked r q -> nx' x = nx x) ->
  (forall f, ~ storing (pc i) f) -> (forall e, ~ taking (pc i) e) -> (forall e, ~ emptying (pc i) e) ->
  role_ok r (mkState h t nx' lk' (upd pc i c) bz' q hi' tk false).
Proof.
  intros Hr Hnx H1 H2 H3. destruct r as [| |j f|j e|j e]; try done; cbn in *.
  - destruct Hr as (? & ? & Hs). split_and!; try done. at_fred j i; [by apply H1 in Hs|done].
  - destruct Hr as (? & Hs & Hs'). at_fred j i; [by apply H2 in Hs|]. rewrite Hnx by (by left). done.
  - destruct Hr as (? & Hs & Hs'). at_fred j i; [by apply H3 in Hs|]. rewrite Hnx by (by left). done.
Qed.

Lemma link_all_cons a b xs nx : link_all (a :: b :: xs) nx = link_all (b :: xs) (upd nx a (Some b)).
Proof. done. Qed.

Lemma link_all_out xs nx x : x ∉ removelast xs -> link_all xs nx x = nx x.
Proof.
  revert nx. induction xs as [|a [|b xs] IH]; intros nx Hx; try done.
  rewrite link_all_cons, IH; [|intros Hin; apply Hx; by right].
  apply upd_ne. intros ->. apply Hx. by left.
Qed.

Lemma removelast_elem (xs : list nat) x : x ∈ removelast xs -> x ∈ xs.
Proof. destruct xs as [|y xs _] using rev_ind; [done|]. rewrite removelast_last. intros ?. apply elem_of_app. by left. Qed.

Lemma link_all_last xs nx z : NoDup xs -> last xs = Some z -> link_all xs nx z = nx z.
Proof.
  intros Hn [l ->]%last_Some. apply link_all_out. rewrite removelast_last.
  apply NoDup_app in Hn as (_ & Hd & _). intros Hz. apply (Hd z Hz). by left.
Qed.

Lemma link_all_adj xs nx x y : NoDup xs -> adj xs x y -> link_all xs nx x = Some y.
Proof.
  revert nx. induction xs as [|a [|b xs] IH]; intros nx Hn (k & Hx & Hy); [done|destruct k; done|].
  apply NoDup_cons in Hn as [Ha Hn]. rewrite link_all_cons. destruct k as [|k].
  - cbn in Hx, Hy. injection Hx as <-. injection Hy as <-. rewrite link_all_out by (by intros ?%removelast_elem). by rewrite upd_eq.
  - apply IH; [done|]. by exists k.
Qed.

(** A segment is prepared. *)
Lemma nemesis_push_ok r h t nx lk pc bz q hi tk i xs z :
  inv_with r (mkState h t nx lk pc bz q hi tk false) -> pc i = Idle -> last xs = Some z -> may_push bz xs = true ->
  nx z = None /\ inv_with r (mkState h t (link_all xs nx) lk (upd pc i (PExch xs)) (use_all xs bz) q hi tk false).
Proof.
  intros Hinv Hi Hlast Hm. unfold may_push in Hm. apply andb_true_iff in Hm as [Hnd Hfree]. bool_prop.
  assert (Hx : forall x, x ∈ xs -> bz x = false).
  { intros x Hx. rewrite forallb_forall in Hfree. apply list_elem_of_In, Hfree in Hx. by destruct (bz x). }
  destruct (busy_same _ _ i Idle Hinv) as [Hb _]; [fields; by rewrite Hi|]. fields.
  assert (HxL : forall x, x ∈ linked r q \/ others pc i x -> x ∉ xs).
  { intros x Hin Hxs. apply Hx in Hxs. assert (bz x = true) by (apply Hb; tauto). congruence. }
  assert (Hkeep : forall x, x ∉ xs -> link_all xs nx x = nx x).
  { intros x Hin. apply link_all_out. by intros ?%removelast_elem. }
  pose proof (i_free _ _ Hinv) as Hf. fields.
  split; [by apply Hf, Hx, last_Some_elem_of|]. apply (frame_ok r h t nx _ lk _ pc bz); try done.
  - rewrite Hi. done.
  - intros x Hin. by apply Hkeep, HxL.
  - intros x. unfold use_all. rewrite orb_true_iff, Hb, bool_decide_eq_true. cbn. set_solver.
  - intros x Hbx. unfold use_all in Hbx. apply orb_false_iff in Hbx as [Hbx Hxs]. bool_prop. rewrite Hkeep by done. by apply Hf.
  - intros x Hin. cbn in Hin. split; intros ?; by apply (HxL x); auto.
  - intros ys [= <-]. split_and!; [by intros ->|done|intros x y; by apply link_all_adj|].
    intros z' Hz'. rewrite link_all_last by done. by apply Hf, Hx, last_Some_elem_of.
  - no_role.
  - no_role.
  - no_role.
  - apply tracks_same; [apply (i_lock _ _ Hinv)|]. by rewrite Hi.
  - eapply role_elsewhere; [apply (i_role _ _ Hinv)| | | |].
    + intros x Hin. apply Hkeep, HxL. by left.
    + no_role.
    + no_role.
    + no_role.
Qed.
(** A thread that took a node with a successor invalidates its link. *)
Lemma clear_ok r h t nx lk pc bz q hi tk i e :
  inv_with r (mkState h t nx lk pc bz q hi tk false) -> pc i = CClear e ->
  inv_with r (mkState h t (upd nx e None) lk (upd pc i Idle) (upd bz e false) q hi tk false).
Proof.
  intros Hinv Hi. destruct (busy_same _ _ i (CClear e) Hinv) as [Hb Hh]; [fields; by rewrite Hi|]. fields.
  destruct (Hh e ltac:(by left)) as [HeL Heo].
  assert (Hne : forall x, x ∈ linked r q \/ others pc i x -> e <> x) by (intros x [?|?] ->; done).
  apply (frame_ok r h t nx _ lk _ pc bz); try done; try no_role.
  - by rewrite Hi.
  - intros x Hx. by rewrite upd_ne by auto.
  - intros x. destruct (decide (e = x)) as [<-|Hx]; [rewrite upd_eq|rewrite upd_ne, Hb by done; cbn]; set_solver.
  - intros x. destruct (decide (e = x)) as [<-|Hx]; [by rewrite !upd_eq|rewrite !upd_ne by done]. apply (i_free _ _ Hinv).
  - intros x Hx. by apply elem_of_nil in Hx.
  - apply tracks_same; [apply (i_lock _ _ Hinv)|by rewrite Hi].
  - eapply role_elsewhere; [apply (i_role _ _ Hinv)| |no_role|no_role|no_role]. intros x Hx. apply upd_ne. auto.
Qed.

(** The exchange of [tail]. *)
Definition role_exch (r : role) (i f : nat) : role := match r with Empty => Storing i f | _ => r end.

Lemma linked_exch r h t nx lk pc bz q hi tk i f xs :
  role_ok r (mkState h t nx lk pc bz q hi tk false) ->
  linked (role_exch r i f) (q ++ xs) = linked r q ++ xs /\ (linked r q = [] <-> r = Empty).
Proof. destruct r; cbn; naive_solver. Qed.

Lemma exch_role_ok r h t nx lk pc bz q hi tk i f z xs c :
  role_ok r (mkState h t nx lk pc bz q hi tk false) ->
  pc i = PExch xs -> list.head xs = Some f -> (r = Empty -> c = PHead f) ->
  role_ok (role_exch r i f) (mkState h (Some z) nx lk (upd pc i c) bz (q ++ xs) (hi ++ xs) tk false).
Proof.
  intros Hr Hi Hf Hc. assert (Hb : forall a, (a = Empty -> False) -> role_exch a i f = a) by (by intros []).
  destruct r as [| |j g|j e|j e]; cbn in *.
  - destruct Hr as [-> ->]. split_and!; [done|done|]. left. rewrite upd_eq. by apply Hc.
  - destruct q; [naive_solver|]. naive_solver.
  - destruct Hr as (? & ? & Hs). split_and!; [done|by destruct q|]. at_fred j i; [destruct Hs as [?|[? ?]]; congruence|done].
  - destruct Hr as (? & Hs & Hs'). at_fred j i; [destruct Hs as [?|[? ?]]; congruence|done].
  - destruct Hr as (? & Hs & Hs' & Hs''). at_fred j i; [destruct Hs as [?|[?|[?|[? ?]]]]; congruence|].
    split_and!; try done. intros Hj. specialize (Hs' Hj). by destruct q.
Qed.

Lemma nemesis_exch_ok r h t nx lk pc bz q hi tk i xs f z :
  inv_with r (mkState h t nx lk pc bz q hi tk false) ->
  pc i = PExch xs -> list.head xs = Some f -> last xs = Some z ->
  inv_with (role_exch r i f)
    (mkState h (Some z) nx lk (upd pc i (match t with None => PHead f | Some p => PLink p f end))
       bz (q ++ xs) (hi ++ xs) tk false).
Proof.
  intros [Ht Hn Hl Hz Hr Hp Hpp Hst Hta Hem Hlk Hb Hh Hhh Hf Hsg Hc Hhi _] Hi Hhead Hlast. fields.
  destruct (linked_exch _ _ _ _ _ _ _ _ _ _ i f xs Hr) as [HL Hnil].
  destruct (Hsg i xs Hi) as (Hxs & Hnx & Hadj & Hend). set (c := match t with None => _ | Some p => _ end).
  assert (HxL : forall x, x ∈ xs -> x ∉ linked r q) by (intros x Hx; apply (Hh i); by rewrite Hi).
  assert (HxH : forall j x, x ∈ xs -> x ∈ hand (pc j) -> j = i) by (intros j x Hx Hj; apply (Hhh j i x Hj); by rewrite Hi).
  assert (Hr' : forall g, (g = Empty -> False) -> r = g -> role_exch r i f = g) by (intros g Hg ->; by destruct g).
  assert (Hemp : r = Empty <-> t = None).
  { rewrite <- Hnil, Ht. split; [by intros ->|apply last_None]. }
  split; fields; rewrite ?HL; try done.
  - by rewrite last_app, Hlast.
  - apply NoDup_app. split_and!; [done| |done]. intros x H1 H2. by apply (HxL x).
  - intros x y [Hxy|[[Hx Hy]|Hxy]]%adj_app.
    + destruct (Hl x y Hxy) as [?|[? [j Hj]]]; [by left|]. right. split; [done|]. exists j. at_fred j i; [congruence|done].
    + right. split; [by apply Hz|]. exists i. rewrite upd_eq. unfold c. rewrite Ht, Hx. congruence.
    + left. by apply Hadj.
  - intros z'. rewrite last_app, Hlast. intros [= <-]. by apply Hend.
  - eapply exch_role_ok; try done. unfold c. intros ->%Hemp. done.
  - intros j x y. at_fred j i; unfold c.
    + destruct t as [p|]; [|done]. intros [= -> ->]. split; [|by apply Hz]. apply adj_app. right. left. by rewrite Hhead.
    + intros Hj. destruct (Hp j x y Hj). split; [|done]. apply adj_app. by left.
  - intros j k x y y'. at_fred j i; at_fred k i; unfold c; try done.
    + destruct t as [p|]; [|done]. intros [= -> ->] Hk. destruct (Hp k x y' Hk) as [Hxy _]. by apply adj_last in Hxy.
    + intros Hj. destruct t as [p|]; [|done]. intros [= -> ->]. destruct (Hp j x y Hj) as [Hxy _]. by apply adj_last in Hxy.
    + apply Hpp.
  - intros j g. at_fred j i; [|intros Hs%Hst; by apply Hr'].
    unfold c. destruct t as [p|]; [no_role|]. intros [[= ->]|[? ?]]; [|done]. rewrite (proj2 Hemp eq_refl). done.
  - intros j e. at_fred j i; [unfold c; destruct t; no_role|]. intros Hs%Hta. by apply Hr'.
  - intros j e. at_fred j i; [unfold c; destruct t; no_role|]. intros Hs%Hem. by apply Hr'.
  - apply tracks_same; [done|]. rewrite Hi. unfold c. by destruct t.
  - intros x. rewrite Hb, elem_of_app, hands_upd. split.
    + intros [?|[j Hj]]; [tauto|]. destruct (decide (j = i)) as [->|Hne]; [rewrite Hi in Hj; by left; right|].
      right. right. by exists j.
    + intros [[?|Hx]|[Hx|(j & _ & Hj)]]; [by left|right; exists i; by rewrite Hi| |by right; exists j].
      unfold c in Hx. by destruct t; apply elem_of_nil in Hx.
  - intros j x. at_fred j i; [unfold c; by destruct t; intros Hx%elem_of_nil|].
    intros Hx [Hin|Hin]%elem_of_app; [by apply (Hh j x)|]. by apply (HxH j) in Hx.
  - intros j k x. at_fred j i; [unfold c; by destruct t; intros Hx%elem_of_nil|].
    at_fred k i; [unfold c; by destruct t; intros _ Hx%elem_of_nil|]. apply Hhh.
  - intros j ys. at_fred j i; [unfold c; by destruct t|apply Hsg].
  - intros j e n. at_fred j i; [unfold c; by destruct t|apply Hc].
  - by rewrite Hhi, app_assoc.
Qed.
(** A producer links its segment to the node before it. *)
Lemma plink_ok r h t nx lk pc bz q hi tk i x y :
  inv_with r (mkState h t nx lk pc bz q hi tk false) -> pc i = PLink x y ->
  inv_with r (mkState h t (upd nx x (Some y)) lk (upd pc i Idle) bz q hi tk false).
Proof.
  intros [Ht Hn Hl Hz Hr Hp Hpp Hst Hta Hem Hlk Hb Hh Hhh Hf Hsg Hc Hhi _] Hi. fields.
  destruct (Hp i x y Hi) as [Hxy Hnx]. pose proof (proj1 (adj_in _ _ _ Hxy)) as HxL.
  assert (HxH : forall j, x ∉ hand (pc j)) by (intros j Hj; by apply (Hh j x)).
  assert (Hkeep : forall x', x' <> x -> upd nx x (Some y) x' = nx x') by (intros; by apply upd_ne, not_eq_sym).
  split; fields; try done.
  - intros a b Hab. destruct (decide (a = x)) as [->|Hne].
    + left. rewrite upd_eq. f_equal. by apply (adj_succ _ x y b Hn).
    + rewrite Hkeep by done. destruct (Hl a b Hab) as [?|[? [j Hj]]]; [by left|]. right. split; [done|].
      exists j. at_fred j i; [congruence|done].
  - intros z Hlast. rewrite Hkeep; [by apply Hz|]. intros ->. by apply (adj_last _ _ _ Hn Hxy).
  - destruct r as [| |j f|j e|j e]; try done; cbn in *.
    + destruct Hr as (? & ? & Hs). split_and!; try done. at_fred j i; [destruct Hs as [?|[? ?]]; congruence|done].
    + destruct Hr as (? & Hs & Hs'). split_and!; [done| |]; at_fred j i; try done; [destruct Hs as [?|[? ?]]; congruence|].
      intros m Hj. specialize (Hs' m Hj). rewrite Hkeep; [done|]. intros ->. congruence.
    + destruct Hr as (? & Hs & Hs' & Hs''). split_and!; [done| | |]; at_fred j i; try done;
        [destruct Hs as [?|[?|[?|[? ?]]]]; congruence|].
      intros m Hj. specialize (Hs'' m Hj). rewrite Hkeep; [done|]. intros ->. congruence.
  - intros j a b. at_fred j i; [done|]. intros Hj. destruct (Hp j a b Hj). split; [done|].
    rewrite Hkeep; [done|]. intros ->. by apply n, (Hpp i j x y b).
  - intros j k a b b'. at_fred j i; [done|]. at_fred k i; [done|]. apply Hpp.
  - intros j f. at_fred j i; [no_role|apply Hst].
  - intros j e. at_fred j i; [no_role|apply Hta].
  - intros j e. at_fred j i; [no_role|apply Hem].
  - apply tracks_same; [done|]. by rewrite Hi.
  - intros a. rewrite Hb. f_equiv. split; intros [j Hj]; exists j; revert Hj; at_fred j i; rewrite ?Hi; done.
  - intros j a. at_fred j i; [by intros ?%elem_of_nil|apply Hh].
  - intros j k a. at_fred j i; [by intros ?%elem_of_nil|]. at_fred k i; [by intros _ ?%elem_of_nil|]. apply Hhh.
  - intros a Ha. rewrite Hkeep; [by apply Hf|]. intros ->. assert (bz x = true) by (apply Hb; by left). congruence.
  - intros j xs. at_fred j i; [done|]. intros Hj. destruct (Hsg j xs Hj) as (H1 & H2 & H3 & H4).
    assert (Hk : forall a, a ∈ xs -> a <> x) by (intros a Ha ->; apply (HxH j); by rewrite Hj).
    split_and!; [done|done| |].
    + intros a b Hab. rewrite Hkeep; [by apply H3|]. apply Hk. by apply adj_in in Hab as [? _].
    + intros z Hlast. rewrite Hkeep; [by apply H4|]. by apply Hk, last_Some_elem_of.
  - intros j e n. at_fred j i; [done|]. intros Hj. rewrite Hkeep; [by eapply Hc|]. intros ->.
    apply (HxH j). rewrite Hj. by left.
Qed.

(** Steps at the front of the queue. *)
Lemma nemesis_front_ok r r' h h' t t' nx nx' lk pc bz bz' q q' hi tk tk' i c l0 :
  inv_with r (mkState h t nx lk pc bz q hi tk false) ->
  linked r q = l0 ++ linked r' q' ->
  (forall j x y, pc j = PLink x y -> j <> i /\ x ∉ l0) ->
  (forall x y, c <> PLink x y) -> (forall xs, c <> PExch xs) ->
  (forall j, j <> i -> (forall f, ~ storing (pc j) f) /\ (forall e, ~ taking (pc j) e) /\ (forall e, ~ emptying (pc j) e)) ->
  (forall x, x ∈ linked r' q' \/ others pc i x -> nx' x = nx x) ->
  (forall x, bz' x = true <-> x ∈ linked r' q' \/ others pc i x \/ x ∈ hand c) ->
  (forall x, bz' x = false -> nx' x = None) ->
  (forall x, x ∈ hand c -> x ∉ linked r' q' /\ ~ others pc i x) ->
  (forall e n, c = CHead e n -> nx' e = None) ->
  (forall f, storing c f -> r' = Storing i f) -> (forall e, taking c e -> r' = Taking i e) ->
  (forall e, emptying c e -> r' = Emptying i e) ->
  locked c = locked (pc i) -> t' = last (linked r' q') -> hi = tk' ++ q' ->
  role_ok r' (mkState h' t' nx' lk (upd pc i c) bz' q' hi tk' false) ->
  inv_with r' (mkState h' t' nx' lk (upd pc i c) bz' q' hi tk' false).
Proof.
  intros [Ht Hn Hl Hz Hr Hp Hpp Hst Hta Hem Hlk Hb Hh Hhh Hf Hsg Hc Hhi _] HL Hpl Hc1 Hc2 Hnr Hnx Hbz Hf' Hhc Hch Hs1 Hs2 Hs3 Hlc Ht' Hhi' Hro.
  fields. rewrite HL in *.
  assert (Hsub : forall x, x ∈ linked r' q' -> x ∈ l0 ++ linked r' q') by (intros; apply elem_of_app; by right).
  assert (Hnxo : forall j x, j <> i -> x ∈ hand (pc j) -> nx' x = nx x) by (intros j x ? ?; apply Hnx; right; by exists j).
  split; fields; try done.
  - by apply NoDup_app in Hn as (_ & _ & ?).
  - intros x y Hxy. pose proof (adj_in _ _ _ Hxy) as [HxL _]. rewrite Hnx by by left.
    destruct (Hl x y) as [?|[Hx [j Hj]]]; [apply adj_app; auto|by left|].
    right. split; [done|]. exists j. at_fred j i; [by destruct (Hpl i x y Hj)|done].
  - intros z Hlast. rewrite Hnx by (left; by apply last_Some_elem_of). apply Hz. by rewrite last_app, Hlast.
  - intros j x y. at_fred j i; [by intros ?%Hc1|]. intros Hj. destruct (Hp j x y Hj) as [Hxy ?].
    destruct (Hpl j x y Hj) as [_ Hx0]. apply adj_app in Hxy as [Hxy|[[Hl0 _]|Hxy]].
    + by apply adj_in in Hxy as [? _].
    + by apply last_Some_elem_of in Hl0.
    + split; [done|]. rewrite Hnx; [done|]. left. by apply adj_in in Hxy as [? _].
  - intros j k x y y'. at_fred j i; [by intros ?%Hc1|]. at_fred k i; [by intros _ ?%Hc1|]. apply Hpp.
  - intros j f. at_fred j i; [apply Hs1|]. by intros ?%Hnr.
  - intros j e. at_fred j i; [apply Hs2|]. by intros ?%Hnr.
  - intros j e. at_fred j i; [apply Hs3|]. by intros ?%Hnr.
  - by apply tracks_same.
  - intros x. rewrite Hbz, hands_upd. tauto.
  - intros j x. at_fred j i; [apply Hhc|]. intros Hx Hin. by apply (Hh j x Hx), Hsub.
  - intros j k x. at_fred j i; at_fred k i; try done.
    + intros Hx Hk. exfalso. apply (Hhc x Hx). exists k. split; [by apply not_eq_sym|done].
    + intros Hj Hx. exfalso. apply (Hhc x Hx). exists j. split; [by apply not_eq_sym|done].
    + apply Hhh.
  - intros j xs. at_fred j i; [by intros ?%Hc2|]. intros Hj. destruct (Hsg j xs Hj) as (H1 & H2 & H3 & H4).
    assert (Hk : forall x, x ∈ xs -> nx' x = nx x) by (intros x ?; apply (Hnxo j); [by apply not_eq_sym|by rewrite Hj]).
    split_and!; [done|done| |].
    + intros x y Hxy. rewrite Hk by (by apply adj_in in Hxy as [? _]). by apply H3.
    + intros z Hlast. rewrite Hk by (by apply last_Some_elem_of). by apply H4.
  - intros j e n. at_fred j i; [apply Hch|]. intros Hj.
    rewrite (Hnxo j) by (by apply not_eq_sym || (rewrite Hj; by left)). by eapply Hc.
Qed.
Lemma no_actor r s i :
  inv_with r s -> match r with Storing j _ | Taking j _ | Emptying j _ => j = i | _ => True end ->
  forall j, j <> i ->
    (forall f, ~ storing (pcs s j) f) /\ (forall e, ~ taking (pcs s j) e) /\ (forall e, ~ emptying (pcs s j) e).
Proof.
  intros Hi Hr j Hne. split_and!; intros a Ha.
  - apply (i_storing _ _ Hi) in Ha. subst r. done.
  - apply (i_taking _ _ Hi) in Ha. subst r. done.
  - apply (i_emptying _ _ Hi) in Ha. subst r. done.
Qed.

(** A thread at the front has no links to store. *)
Lemma no_links r s i (l0 : list nat) :
  inv_with r s -> (forall x y, pcs s i <> PLink x y) ->
  (forall x y, x ∈ l0 -> adj (linked r (queue s)) x y -> next s x <> None) ->
  forall j x y, pcs s j = PLink x y -> j <> i /\ x ∉ l0.
Proof.
  intros Hi Hc Hl j x y Hj. destruct (i_plink _ _ Hi j x y Hj) as [Hxy Hx]. split; [|by intros Hin; apply (Hl x y)].
  intros ->. by apply (Hc x y).
Qed.

Ltac none := repeat intro; match goal with H : _ ∈ _ |- _ => by apply elem_of_nil in H end.

Lemma phead_ok h t nx lk pc bz q hi tk i f r :
  inv_with r (mkState h t nx lk pc bz q hi tk false) -> pc i = PHead f ->
  inv_with Ready (mkState (Some f) t nx lk (upd pc i Idle) bz q hi tk false).
Proof.
  intros Hinv Hi. assert (r = Storing i f) as -> by (apply (i_storing _ _ Hinv); by left).
  destruct (i_role _ _ Hinv) as (_ & Hf & _). destruct (busy_same _ _ i Idle Hinv) as [Hb _]; [fields; by rewrite Hi|].
  fields. eapply (nemesis_front_ok (Storing i f) Ready h _ t _ nx _ lk pc bz bz q q hi tk tk i Idle []); try done; try no_role.
  - apply (no_links _ _ i [] Hinv); [fields; by rewrite Hi|none].
  - by apply (no_actor _ _ i Hinv).
  - apply (i_free _ _ Hinv).
  - none.
  - by rewrite Hi.
  - apply (i_tail _ _ Hinv).
  - apply (i_hist _ _ Hinv).
  - cbn. split; [by intros ->|done].
Qed.

Lemma load_ok h t nx lk pc bz q hi tk i e r :
  inv_with r (mkState h t nx lk pc bz q hi tk false) -> pc i = CLoad -> h = Some e ->
  inv_with (Taking i e) (mkState h t nx lk (upd pc i (CNext e)) bz (list.tail q) hi (tk ++ [e]) false).
Proof.
  intros Hinv Hi ->. assert (Hlk : lk = Some i) by (apply (i_lock _ _ Hinv); fields; by rewrite Hi).
  pose proof (i_role _ _ Hinv) as Hr. assert (r = Ready) as ->.
  { destruct r as [| |j f|j g|j g]; cbn in Hr; [naive_solver|done|naive_solver| |naive_solver].
    destruct Hr as (_ & Ht & _). assert (lk = Some j) as Hj; [|by simplify_eq; destruct Ht as [?|[? ?]]; congruence].
    apply (i_lock _ _ Hinv). fields. by destruct Ht as [->|[? ->]]. }
  destruct Hr as [Hq Hh]. destruct q as [|e' q]; [done|]. cbn in Hh. simplify_eq.
  destruct (busy_same _ _ i (CNext e') Hinv) as [Hb _]; [fields; by rewrite Hi|]. fields.
  eapply (nemesis_front_ok Ready (Taking i e') _ _ t _ nx _ _ pc bz bz (e' :: q) q hi tk _ i _ []); try done.
  - apply (no_links _ _ i [] Hinv); [fields; by rewrite Hi|none].
  - by apply (no_actor _ _ i Hinv).
  - apply (i_free _ _ Hinv).
  - none.
  - no_role.
  - by intros a [[= ->]|[? ?]].
  - no_role.
  - by rewrite Hi.
  - apply (i_tail _ _ Hinv).
  - rewrite <- app_assoc. apply (i_hist _ _ Hinv).
  - cbn. rewrite upd_eq. split_and!; [done|by left|done].
Qed.

(** The front node has a successor: it is the next of the queue. *)
Lemma front_next r h t nx lk pc bz q hi tk e n :
  inv_with r (mkState h t nx lk pc bz q hi tk false) -> linked r q = e :: q -> nx e = Some n ->
  list.head q = Some n /\ e ∉ q.
Proof.
  intros Hinv HL Hn. pose proof (i_nodup _ _ Hinv) as Hnd. pose proof (i_last _ _ Hinv e) as Hl.
  pose proof (i_link _ _ Hinv e) as Hk. fields. rewrite HL in *. apply NoDup_cons in Hnd as [He _].
  split; [|done]. destruct q as [|y q]; [by rewrite (Hl eq_refl) in Hn|].
  destruct (Hk y) as [?|[? _]]; [by exists 0%nat|simpl; congruence|congruence].
Qed.

Lemma set_head_ok h t nx lk pc bz q hi tk i e n r :
  inv_with r (mkState h t nx lk pc bz q hi tk false) -> pc i = CSetHead e n ->
  inv_with (match n with Some _ => Ready | None => Emptying i e end)
    (mkState n t nx lk (upd pc i (CRel e n)) bz q hi tk false).
Proof.
  intros Hinv Hi. assert (r = Taking i e) as -> by (apply (i_taking _ _ Hinv); right; by exists n).
  destruct (i_role _ _ Hinv) as (Hh & _ & Hs). destruct (busy_same _ _ i Idle Hinv) as [Hb _]; [fields; by rewrite Hi|].
  pose proof (i_tail _ _ Hinv) as Ht. pose proof (no_actor _ _ i Hinv eq_refl) as Hna. fields. destruct n as [n|].
  - specialize (Hs n Hi). destruct (front_next _ _ _ _ _ _ _ _ _ _ e n Hinv eq_refl Hs) as [Hq He].
    assert (Hoth : ~ others pc i e) by (intros (j & _ & Hj); apply (i_hand _ _ Hinv j e Hj); by left).
    eapply (nemesis_front_ok (Taking i e) Ready _ _ t _ nx _ lk pc bz bz q q hi tk tk i _ [e]); try done; try no_role.
    + apply (no_links _ _ i [e] Hinv); [fields; by rewrite Hi|]. intros x y ->%list_elem_of_singleton _. fields. congruence.
    + intros x. rewrite Hb. cbn. rewrite elem_of_cons, list_elem_of_singleton, elem_of_nil. tauto.
    + apply (i_free _ _ Hinv).
    + cbn. intros x ->%list_elem_of_singleton. done.
    + by rewrite Hi.
    + rewrite Ht. cbn. destruct q; done.
    + apply (i_hist _ _ Hinv).
    + cbn. by destruct q.
  - eapply (nemesis_front_ok (Taking i e) (Emptying i e) _ _ t _ nx _ lk pc bz bz q q hi tk tk i _ []); try done; try no_role.
    + apply (no_links _ _ i [] Hinv); [fields; by rewrite Hi|none].
    + apply (i_free _ _ Hinv).
    + none.
    + by intros a [[= ->]|[?|[?|[? ?]]]].
    + by rewrite Hi.
    + apply (i_hist _ _ Hinv).
    + cbn. rewrite upd_eq. split_and!; [done|by left|done|done].
Qed.

Lemma cas_ok h t nx lk pc bz q hi tk i e r :
  inv_with r (mkState h t nx lk pc bz q hi tk false) -> pc i = CCas e -> t = Some e ->
  inv_with Empty (mkState h None nx lk (upd pc i Idle) (upd bz e false) q hi tk false).
Proof.
  intros Hinv Hi ->. assert (r = Emptying i e) as -> by (apply (i_emptying _ _ Hinv); right; by left).
  destruct (i_role _ _ Hinv) as (Hh & _). destruct (busy_same _ _ i Idle Hinv) as [Hb _]; [fields; by rewrite Hi|].
  pose proof (i_tail _ _ Hinv) as Ht. pose proof (i_nodup _ _ Hinv) as Hnd. fields.
  assert (q = []) as ->.
  { destruct q as [|x q]; [done|]. apply NoDup_cons in Hnd as [He _]. symmetry in Ht. cbn in Ht.
    exfalso. apply He. change (last (x :: q) = Some e) in Ht. by apply last_Some_elem_of. }
  assert (Hoth : ~ others pc i e) by (intros (j & _ & Hj); apply (i_hand _ _ Hinv j e Hj); by left).
  eapply (nemesis_front_ok (Emptying i e) Empty _ _ _ _ nx _ lk pc bz _ [] [] hi tk tk i _ [e]); try done; try no_role.
  - apply (no_links _ _ i [e] Hinv); [fields; by rewrite Hi|]. intros x y _ ([|k] & Hx & Hy); done.
  - by apply (no_actor _ _ i Hinv).
  - intros x. destruct (decide (e = x)) as [<-|Hx]; [rewrite upd_eq|rewrite upd_ne, Hb by done; cbn].
    + split; [done|]. intros [Hin|[Hin|Hin]]; [by apply elem_of_nil in Hin|done|by apply elem_of_nil in Hin].
    + set_solver.
  - intros x. destruct (decide (e = x)) as [<-|Hx]; [intros _; by apply (i_last _ _ Hinv)|].
    rewrite upd_ne by done. apply (i_free _ _ Hinv).
  - none.
  - by rewrite Hi.
  - apply (i_hist _ _ Hinv).
Qed.

Lemma invalidate_ok h t nx lk pc bz q hi tk i e n r :
  inv_with r (mkState h t nx lk pc bz q hi tk false) -> pc i = CInv e n ->
  inv_with (Storing i n) (mkState h t (upd nx e None) lk (upd pc i (CHead e n)) bz q hi tk false).
Proof.
  intros Hinv Hi. assert (r = Emptying i e) as -> by (apply (i_emptying _ _ Hinv); right; right; right; by exists n).
  destruct (i_role _ _ Hinv) as (Hh & _ & _ & Hs). destruct (busy_same _ _ i Idle Hinv) as [Hb _]; [fields; by rewrite Hi|].
  pose proof (i_tail _ _ Hinv) as Ht. fields. specialize (Hs n Hi).
  destruct (front_next _ _ _ _ _ _ _ _ _ _ e n Hinv eq_refl Hs) as [Hq He].
  assert (Hoth : ~ others pc i e) by (intros (j & _ & Hj); apply (i_hand _ _ Hinv j e Hj); by left).
  assert (Hbe : bz e = true) by (apply Hb; left; by left).
  eapply (nemesis_front_ok (Emptying i e) (Storing i n) _ _ t _ nx _ lk pc bz bz q q hi tk tk i _ [e]); try done; try no_role.
  - apply (no_links _ _ i [e] Hinv); [fields; by rewrite Hi|]. intros x y ->%list_elem_of_singleton _. fields. congruence.
  - by apply (no_actor _ _ i Hinv).
  - intros x Hx. apply upd_ne. intros <-. naive_solver.
  - intros x. rewrite Hb. cbn. rewrite elem_of_cons, list_elem_of_singleton, elem_of_nil. tauto.
  - intros x Hx. rewrite upd_ne by congruence. by apply (i_free _ _ Hinv).
  - cbn. intros x ->%list_elem_of_singleton. done.
  - intros e' n' [= <- <-]. by rewrite upd_eq.
  - intros f [?|[e' [= _ <-]]]; done.
  - by rewrite Hi.
  - rewrite Ht. cbn. destruct q; done.
  - apply (i_hist _ _ Hinv).
  - cbn. rewrite upd_eq. split_and!; [done|done|right; by exists e].
Qed.

Lemma chead_ok h t nx lk pc bz q hi tk i e n r :
  inv_with r (mkState h t nx lk pc bz q hi tk false) -> pc i = CHead e n ->
  inv_with Ready (mkState (Some n) t nx lk (upd pc i Idle) (upd bz e false) q hi tk false).
Proof.
  intros Hinv Hi. assert (r = Storing i n) as -> by (apply (i_storing _ _ Hinv); right; by exists e).
  destruct (i_role _ _ Hinv) as (_ & Hq & _).
  destruct (busy_same _ _ i (CHead e n) Hinv) as [Hb Hhe]; [fields; by rewrite Hi|]. fields.
  destruct (Hhe e ltac:(by left)) as [HeL Heo]. cbn in HeL.
  eapply (nemesis_front_ok (Storing i n) Ready _ _ t _ nx _ lk pc bz _ q q hi tk tk i _ []); try done; try no_role.
  - apply (no_links _ _ i [] Hinv); [fields; by rewrite Hi|none].
  - by apply (no_actor _ _ i Hinv).
  - intros x. destruct (decide (e = x)) as [<-|Hx]; [rewrite upd_eq|rewrite upd_ne, Hb by done; cbn].
    + split; [done|]. intros [Hin|[Hin|Hin]]; [done|done|by apply elem_of_nil in Hin].
    + set_solver.
  - intros x. destruct (decide (e = x)) as [<-|Hx]; [intros _; by apply (i_chead _ _ Hinv i e n)|].
    rewrite upd_ne by done. apply (i_free _ _ Hinv).
  - none.
  - by rewrite Hi.
  - apply (i_tail _ _ Hinv).
  - apply (i_hist _ _ Hinv).
  - cbn. split; [by intros ->|done].
Qed.
(** The thread that has the lock. *)
Lemma unlock_tracks r s i c :
  inv_with r s -> locked (pcs s i) = true -> locked c = false -> tracks None locked (upd (pcs s) i c).
Proof.
  intros Hinv Hi Hc. pose proof (i_lock _ _ Hinv) as Hlk. rewrite (proj2 (Hlk i) Hi) in Hlk. by apply (tracks_lose _ _ i).
Qed.

Ltac quiet Hinv Hi :=
  eapply quiet_ok; [exact Hinv|by rewrite Hi|by rewrite Hi|done|done|try no_role|try no_role|try no_role| |].

(** The thread at the front moves on. *)
Lemma rel_ok r h t nx lk pc bz q hi tk i e n :
  inv_with r (mkState h t nx lk pc bz q hi tk false) -> pc i = CRel e n ->
  inv_with r (mkState h t nx None (upd pc i (match n with Some _ => CClear e | None => CCas e end)) bz q hi tk false).
Proof.
  intros Hinv Hi. assert (Hlk : forall c, locked c = false -> tracks None locked (upd pc i c)).
  { intros c. apply (unlock_tracks _ _ i c Hinv). fields. by rewrite Hi. }
  destruct n as [n|].
  - quiet Hinv Hi; [by apply Hlk|]. eapply role_elsewhere; [apply (i_role _ _ Hinv)|done|no_role|no_role|no_role].
  - assert (r = Emptying i e) as -> by (apply (i_emptying _ _ Hinv); by left).
    destruct (i_role _ _ Hinv) as (Hh & _). fields.
    quiet Hinv Hi; [by intros a [?|[[= ->]|[?|[? ?]]]]|by apply Hlk|].
    cbn. rewrite upd_eq. split_and!; [done|right; by left|done|done].
Qed.

Lemma spin_ok r h t nx lk pc bz q hi tk i e c :
  inv_with r (mkState h t nx lk pc bz q hi tk false) ->
  pc i = CCas e /\ t <> Some e /\ c = CSpin e \/ pc i = CSpin e /\ (exists n, nx e = Some n /\ c = CInv e n) ->
  inv_with r (mkState h t nx lk (upd pc i c) bz q hi tk false).
Proof.
  intros Hinv Hc. assert (r = Emptying i e) as ->.
  { apply (i_emptying _ _ Hinv). fields. right. destruct Hc as [(? & _)|(? & _)]; [by left|right; by left]. }
  destruct (i_role _ _ Hinv) as (Hh & _ & Hs & _). pose proof (i_tail _ _ Hinv) as Ht. fields.
  assert (Htr : forall c, locked c = locked (pc i) -> tracks lk locked (upd pc i c)).
  { intros d Hd. by apply tracks_same; [apply (i_lock _ _ Hinv)|]. }
  destruct Hc as [(Hi & Hne & ->)|(Hi & n & Hn & ->)].
  - quiet Hinv Hi; [by intros a [?|[?|[[= ->]|[? ?]]]]|by apply Htr; rewrite Hi|].
    cbn. rewrite upd_eq. split_and!; [done|right; right; by left|intros _ ->; by apply Hne|done].
  - quiet Hinv Hi; [by intros a [?|[?|[?|[? [= -> _]]]]]|by apply Htr; rewrite Hi|].
    cbn. rewrite upd_eq. split_and!; [done|right; right; right; by exists n|done|by intros m [= ->]].
Qed.

Lemma next_ok r h t nx lk pc bz q hi tk i e :
  inv_with r (mkState h t nx lk pc bz q hi tk false) -> pc i = CNext e ->
  inv_with r (mkState h t nx lk (upd pc i (CSetHead e (nx e))) bz q hi tk false).
Proof.
  intros Hinv Hi. assert (r = Taking i e) as -> by (apply (i_taking _ _ Hinv); by left).
  destruct (i_role _ _ Hinv) as (Hh & _). fields.
  quiet Hinv Hi; [by intros a [?|[? [= -> _]]]|apply tracks_same; [apply (i_lock _ _ Hinv)|by rewrite Hi]|].
  cbn. rewrite upd_eq. split_and!; [done|right; by eexists|by intros m [= ->]].
Qed.

(** Moves of a thread that has nothing to do with the front. *)
Lemma away_ok r h t nx lk lk' pc bz q hi tk i c :
  inv_with r (mkState h t nx lk pc bz q hi tk false) ->
  (pc i = Idle \/ pc i = CLock \/ pc i = CLoad \/ pc i = CNone) -> (c = CLock \/ c = CLoad \/ c = CNone \/ c = Idle) ->
  tracks lk' locked (upd pc i c) ->
  inv_with r (mkState h t nx lk' (upd pc i c) bz q hi tk false).
Proof.
  intros Hinv Hi Hc Hlk.
  eapply quiet_ok; [exact Hinv|destruct Hi as [->|[->|[->| ->]]], Hc as [->|[->|[->| ->]]]; done| | | | | | |done|].
  - intros x y. destruct Hi as [->|[->|[->| ->]]], Hc as [->|[->|[->| ->]]]; done.
  - intros xs. destruct Hc as [->|[->|[->| ->]]]; done.
  - intros e n. destruct Hc as [->|[->|[->| ->]]]; done.
  - destruct Hc as [->|[->|[->| ->]]]; no_role.
  - destruct Hc as [->|[->|[->| ->]]]; no_role.
  - destruct Hc as [->|[->|[->| ->]]]; no_role.
  - eapply role_elsewhere; [apply (i_role _ _ Hinv)|done| | |]; destruct Hi as [Hi|[Hi|[Hi|Hi]]]; no_role.
Qed.

Lemma nemesis_step_inv l s s' : inv s -> step l s = Some s' -> inv s'.
Proof.
  destruct s as [h t nx lk pc bz q hi tk ab]. intros [r Hinv] Hs. pose proof (i_ab _ _ Hinv) as Hab. cbn in Hab. subst ab.
  pose proof (i_lock _ _ Hinv) as Hlk. fields.
  destruct l as [i xs|i|i]; cbn [step] in Hs; destruct (pc i) as [|xs'|p f|f| | | |e|e n|e n|e|e|e|e n|e n] eqn:Hi; try done.
  - destruct (last xs) as [z|] eqn:Hz; [|done]. destruct (may_push bz xs) eqn:Hm; [|done].
    destruct (nemesis_push_ok r h t nx lk pc bz q hi tk i xs z Hinv Hi Hz Hm) as [Hn Hok]. rewrite Hn in Hs. simplify_eq. by exists r.
  - simplify_eq. exists r. eapply away_ok; eauto. apply tracks_same; [done|by rewrite Hi].
  - destruct (list.head xs') as [f|] eqn:Hf; [|done]. destruct (last xs') as [z|] eqn:Hz; [|done]. simplify_eq.
    eexists. by eapply nemesis_exch_ok.
  - simplify_eq. exists r. by apply plink_ok.
  - simplify_eq. eexists. by eapply phead_ok.
  - destruct lk; simplify_eq. exists r. eapply away_ok; eauto. by apply tracks_gain.
  - destruct h as [e|]; simplify_eq.
    + eexists. by eapply load_ok.
    + exists r. eapply away_ok; eauto. apply tracks_same; [done|by rewrite Hi].
  - simplify_eq. exists r. eapply away_ok; eauto 6. apply (unlock_tracks _ _ i Idle Hinv); [fields; by rewrite Hi|done].
  - simplify_eq. exists r. by apply next_ok.
  - simplify_eq. eexists. by eapply set_head_ok.
  - simplify_eq. exists r. by eapply rel_ok.
  - simplify_eq. exists r. by apply clear_ok.
  - case_bool_decide; simplify_eq; [eexists; by eapply cas_ok|]. exists r. eapply spin_ok; [done|]. by left.
  - destruct (nx e) as [n|] eqn:Hn; simplify_eq; [|by exists r]. exists r. eapply spin_ok; [done|]. right. eauto.
  - simplify_eq. eexists. by eapply invalidate_ok.
  - simplify_eq. eexists. by eapply chead_ok.
Qed.

Lemma nemesis_reachable_inv s : reachable init step s -> inv s.
Proof.
  apply invariant_rule; [|intros ? ? ?; apply nemesis_step_inv]. intros s0 ->. exists Empty.
  split; fields; try done; try no_role.
  - constructor.
  - intros x y (k & Hx & _). done.
  - intros x. split; [done|]. intros [Hx|[j Hx]]; by apply elem_of_nil in Hx.
  - none.
  - none.
Qed.

(** A thread that will give a queue without a head a new one, if it has not
    already found it empty. *)
Definition bringing (c : pc) : bool :=
  match c with PHead _ | CRel _ None | CCas _ | CSpin _ | CInv _ _ | CHead _ _ => true | _ => false end.

(** C16. [QueueNemesis] is a FIFO queue for any number of producers and consumers:
    the assertion of [push] holds; elements are taken in the order in which
    their segments were appended, none is lost and none is taken twice; when
    nodes are queued and [head] is null, a thread is on its way to store it, so
    at rest [head] is the first node and [empty] is right; a consumer that waits
    for a link has a producer about to store it. *)
Theorem nemesis_fifo s :
  reachable init step s ->
  aborted s = false /\ pushed s = taken s ++ queue s /\ NoDup (queue s) /\
  (queue s <> [] -> head s = None -> exists i, bringing (pcs s i) = true) /\
  ((forall i, pcs s i = Idle) -> head s = list.head (queue s) /\ (tail s = None <-> queue s = [])) /\
  (forall i e, pcs s i = CSpin e -> next s e = None -> exists j y, pcs s j = PLink e y).
Proof.
  intros [r Hinv]%nemesis_reachable_inv. pose proof (i_role _ _ Hinv) as Hr. split_and!.
  - apply (i_ab _ _ Hinv).
  - apply (i_hist _ _ Hinv).
  - pose proof (i_nodup _ _ Hinv) as Hn. destruct r; cbn in Hn; try done; by apply NoDup_cons in Hn as [_ ?].
  - intros Hq Hh. destruct r as [| |i f|i e|i e]; cbn in Hr.
    + by destruct Hr.
    + destruct Hr as [_ Hr]. destruct (queue s); [done|]. cbn in Hr. congruence.
    + destruct Hr as (_ & _ & Hs). exists i. by destruct Hs as [->|[? ->]].
    + destruct Hr as (? & _). congruence.
    + destruct Hr as (_ & He & _). exists i. by destruct He as [->|[->|[->|[? ->]]]].
  - intros Hidle. pose proof (i_tail _ _ Hinv) as Ht. destruct r as [| |i f|i e|i e]; cbn in Hr, Ht; rewrite ?Hidle in Hr.
    + destruct Hr as [Hq Hh]. by rewrite Ht, Hh, Hq.
    + destruct Hr as [Hq Hh]. split; [done|]. rewrite Ht. split; [by intros ?%last_None|done].
    + destruct Hr as (_ & _ & [?|[? ?]]); done.
    + destruct Hr as (_ & [?|[? ?]] & _); done.
    + destruct Hr as (_ & [?|[?|[?|[? ?]]]] & _); done.
  - intros i e Hi Hn. assert (r = Emptying i e) as -> by (apply (i_emptying _ _ Hinv); right; right; by left).
    destruct Hr as (_ & _ & Hq & _). specialize (Hq Hi). destruct (queue s) as [|y q] eqn:E; [done|].
    destruct (i_link _ _ Hinv e y) as [?|[_ [j Hj]]]; [rewrite E; by exists 0%nat|congruence|eauto].
Qed.

(** The queue that [tryPushEmpty] leaves behind. *)
Definition headless (c : pc) : bool :=
  match c with Idle | PExch _ | PLink _ _ | CLock | CLoad | CNone => true | _ => false end.

(** An element that [tryPushEmpty] appends to a [QueueNemesis] is lost with
    everything that follows it: the call succeeds, but nobody stores [head], so
    the queue is not [empty] and yet no [pop] ever finds an element. *)
Theorem tryPushEmpty_strands x s0 s :
  init s0 -> tryPushEmpty_test x s0 = Some None /\
  (reachable (fun s' => tryPushEmpty x None s0 = (true, s')) step s ->
   head s = None /\ tail s <> None /\ taken s = [] /\ forall i, headless (pcs s i) = true).
Proof.
  intros ->. split; [done|]. revert s. apply invariant_rule.
  - intros s. cbn. intros [= <-]. done.
  - intros s l s' (Hh & Ht & Hk & Hp) Hs. destruct s as [h t nx lk pc bz q hi tk ab]. cbn in *. subst h.
    destruct l as [i xs|i|i]; cbn in Hs; pose proof (Hp i) as Hi; destruct (pc i) eqn:Hpi; try done;
      repeat split_match_in Hs; simplify_eq; cbn; split_and!; try done; intros j; try apply Hp; at_fred j i; auto.
Qed.
End Nemesis.

(** Two producers and a consumer that takes the last node while the second
    producer is between its exchange and its store. *)
Definition nemesis_run : list Nemesis.label :=
  [Nemesis.Push 0 [5; 6]%nat; Nemesis.Go 0; Nemesis.Go 0; Nemesis.Pop 1; Nemesis.Go 1; Nemesis.Go 1; Nemesis.Go 1;
   Nemesis.Go 1; Nemesis.Go 1; Nemesis.Go 1; Nemesis.Pop 1; Nemesis.Go 1; Nemesis.Go 1; Nemesis.Go 1; Nemesis.Go 1;
   Nemesis.Push 2 [7]%nat; Nemesis.Go 2; Nemesis.Go 1; Nemesis.Go 1].
Definition nemesis_start : Nemesis.state :=
  Nemesis.mkState None None (fun _ => None) None (fun _ => Nemesis.Idle) (fun _ => false) [] [] [] false.

Lemma nemesis_fifo_witness :
  let s := after Nemesis.step nemesis_start nemesis_run in
  Nemesis.pcs s 1 = Nemesis.CSpin 6 /\ Nemesis.taken s = [5; 6]%nat /\
  Nemesis.pushed s = Nemesis.taken s ++ Nemesis.queue s /\ exists j y, Nemesis.pcs s j = Nemesis.PLink 6 y.
Proof.
  assert (Hr : reachable Nemesis.init Nemesis.step (after Nemesis.step nemesis_start nemesis_run)).
  { apply after_reachable; [done|vm_compute; by eexists]. }
  destruct (Nemesis.nemesis_fifo _ Hr) as (_ & Hp & _ & _ & _ & Hs).
  split_and!; [by vm_compute|by vm_compute|exact Hp|]. apply (Hs 1%nat); by vm_compute.
Defined.

Lemma tryPushEmpty_strands_witness :
  let s0 := (Nemesis.tryPushEmpty 4 None nemesis_start).2 in
  let s := after Nemesis.step s0 [Nemesis.Push 0 [5]%nat; Nemesis.Go 0; Nemesis.Go 0; Nemesis.Pop 1; Nemesis.Go 1; Nemesis.Go 1; Nemesis.Go 1] in
  Nemesis.queue s = [4; 5]%nat /\ Nemesis.pcs s 1 = Nemesis.Idle /\ Nemesis.taken s = [].
Proof.
  set (s0 := (Nemesis.tryPushEmpty 4 None nemesis_start).2). set (ls := [Nemesis.Push 0 _; _; _; _; _; _; _]).
  assert (Hr : reachable (fun s' => Nemesis.tryPushEmpty 4 None nemesis_start = (true, s')) Nemesis.step (after Nemesis.step s0 ls)).
  { apply after_reachable; [done|vm_compute; by eexists]. }
  destruct (Nemesis.tryPushEmpty_strands 4 nemesis_start (after Nemesis.step s0 ls) eq_refl) as [_ H].
  destruct (H Hr) as (_ & _ & Ht & _). split_and!; [by vm_compute|by vm_compute|exact Ht].
Defined.
