(* ===== verification/StubQueues.v ===== *)
(** [QueueStub] of [src/runtime/LockFreeQueues.h] (the ready queue of builds
    with [TESTING_STUB_QUEUE]): a queue that keeps a stub node in its chain,
    with any number of concurrent producers and consumers, both [Blocking]
    variants.  Each access to shared memory is a step; nodes and threads are
    numbered. *)
From S2P Require Import Prelude LockFreeQueues.

Module Stub.
Import LockFreeQueues.Nemesis(link_all, may_push, use_all).

(** [push], [pop] and [checkStub], step by step.  The last argument of [PExch]
    and [PLink] tells the call [push( *stub)] of [checkStub] from a producer's. *)
Inductive pc :=
| Idle
| PExch (xs : list nat) (again : bool)               (* about to exchange [tail] *)
| PLink (prev first : nat) (empty again : bool)      (* about to store [Next( *prev) = &first]; the result of the call *)
| CLock | CCheck                    (* [AcquireSpinLock], [head == stub] *)
| CMark                             (* Blocking: about to mark [tail] *)
| CTail                             (* not Blocking: [tail == stub] *)
| CFail                             (* [ReleaseSpinLock], return [nullptr] *)
| CSpin                             (* [while (!Next( *stub)) Pause()] *)
| CSetHead                          (* [head = Next( *stub)] *)
| CClear                            (* [Next( *stub) = nullptr] *)
| CTake                             (* [retval = head] *)
| CWait (e : nat)                   (* [while (!Next( *head)) Pause()] *)
| CHead (e : nat)                   (* [head = Next( *head)] *)
| CRel (e : nat)                    (* [ReleaseSpinLock] *)
| CInv (e : nat).                   (* [Next( *retval) = nullptr], return [retval] *)

Record state := mkState {
  head : option nat;
  tail : nat * bool;                (* the pointer and its lowest bit *)
  next : nat -> option nat;
  lock : option nat;
  pcs : nat -> pc;
  (* ghost: nodes in use, the nodes from [head] to [tail], all nodes pushed and taken *)
  busy : nat -> bool;
  chain : list nat;
  pushed : list nat;
  taken : list nat;
  aborted : bool
}.

Inductive label :=
| Push (i : nat) (xs : list nat)
| Pop (i : nat)
| Go (i : nat).

Section QueueStub.
Context (stub : nat) (Blocking : bool).

(** [push(first, last)] up to the assertion on [Next(last)]. *)
Definition enter_push (nx : nat -> option nat) (z : nat) : bool :=
  match nx z with None => true | Some _ => false end.

Definition step (l : label) (s : state) : option state :=
  let 'mkState h t nx lk pc bz ch hi tk ab := s in
  let goto i c := mkState h t nx lk (upd pc i c) bz ch hi tk ab in
  match l with
  | Push i xs =>
      match pc i, last xs with
      | Idle, Some z =>
          if may_push bz xs then
            Some (if enter_push nx z
                  then mkState h t (link_all xs nx) lk (upd pc i (PExch xs false)) (use_all xs bz) ch hi tk ab
                  else mkState h t nx lk pc bz ch hi tk true)
          else None
      | _, _ => None
      end
  | Pop i => match pc i with Idle => Some (goto i CLock) | _ => None end
  | Go i =>
      match pc i with
      | Idle => None
      | PExch xs again =>
          match list.head xs, last xs with
          | Some f, Some z =>
              let '(p, marked) := t in
              Some (mkState h (z, false) nx lk (upd pc i (PLink p f (Blocking && marked) again)) bz (ch ++ xs)
                      (if again then hi else hi ++ xs) tk ab)
          | _, _ => None
          end
      | PLink p f _ again => Some (mkState h t (upd nx p (Some f)) lk (upd pc i (if again then CTake else Idle)) bz ch hi tk ab)
      | CLock => match lk with
                 | None => Some (mkState h t nx (Some i) (upd pc i CCheck) bz ch hi tk ab)
                 | Some _ => None
                 end
      | CCheck => Some (goto i (if bool_decide (h = Some stub) then if Blocking then CMark else CTail else CTake))
      | CMark =>
          Some (if bool_decide (t = (stub, false))
                then mkState h (stub, true) nx lk (upd pc i CFail) bz ch hi tk ab
                else goto i (if snd t then CFail else CSpin))
      | CTail => Some (goto i (if bool_decide (t = (stub, false)) then CFail else CSpin))
      | CFail => Some (mkState h t nx None (upd pc i Idle) bz ch hi tk ab)
      | CSpin => Some (match nx stub with None => s | Some _ => goto i CSetHead end)
      | CSetHead => Some (mkState (nx stub) t nx lk (upd pc i CClear) bz (list.tail ch) hi tk ab)
      | CClear =>
          Some (if enter_push (upd nx stub None) stub
                then mkState h t (upd nx stub None) lk (upd pc i (PExch [stub] true)) bz ch hi tk ab
                else mkState h t nx lk pc bz ch hi tk true)
      | CTake => match h with Some e => Some (goto i (CWait e)) | None => None end
      | CWait e => Some (match nx e with None => s | Some _ => goto i (CHead e) end)
      | CHead e => Some (mkState (nx e) t nx lk (upd pc i (CRel e)) bz (list.tail ch) hi (tk ++ [e]) ab)
      | CRel e => Some (mkState h t nx None (upd pc i (CInv e)) bz ch hi tk ab)
      | CInv e => Some (mkState h t (upd nx e None) lk (upd pc i Idle) (upd bz e false) ch hi tk ab)
      end
  end.

(** The constructor. *)
Definition start : state :=
  mkState (Some stub) (stub, Blocking) (fun _ => None) None (fun _ => Idle) (fun x => bool_decide (x = stub)) [stub] [] [] false.
Definition init (s : state) : Prop := s = start.

(** [empty()]. *)
Definition empty (s : state) : bool := bool_decide (head s = Some stub) && bool_decide (tail s = (stub, false)).

(** What is in the queue. *)
Definition elements (ch : list nat) : list nat := filter (fun x => x <> stub) ch.

Definition locked (c : pc) : bool :=
  match c with
  | Idle | CLock | CInv _ => false
  | PExch _ again | PLink _ _ _ again => again
  | _ => true
  end.

(** Nodes that a thread has in its hands. *)
Definition hand (c : pc) : list nat :=
  match c with
  | PExch xs _ => xs
  | CClear => [stub]
  | CRel e | CInv e => [e]
  | _ => []
  end.

(** What the thread at the front knows. *)
Definition front_ok (c : pc) (ch : list nat) (nx : nat -> option nat) : Prop :=
  match c with
  | CCheck => stub ∈ ch
  | CMark => list.head ch = Some stub /\ Blocking = true
  | CTail => list.head ch = Some stub /\ Blocking = false
  | CSpin => list.head ch = Some stub /\ ch <> [stub]
  | CSetHead => list.head ch = Some stub /\ is_Some (nx stub)
  | PExch xs true => xs = [stub]
  | PLink _ _ _ true | CTake => stub ∈ list.tail ch
  | CWait e => list.head ch = Some e /\ stub ∈ list.tail ch
  | CHead e => list.head ch = Some e /\ stub ∈ list.tail ch /\ is_Some (nx e)
  | CRel e => e <> stub
  | _ => True
  end.

Definition linking (c : pc) (x y : nat) : Prop := exists e a, c = PLink x y e a.

Record inv (s : state) : Prop := mkInv {
  i_head : head s = list.head (chain s);
  i_tail : last (chain s) = Some (fst (tail s));
  i_nodup : NoDup (chain s);
  i_link x y : adj (chain s) x y -> next s x = Some y \/ next s x = None /\ exists i, linking (pcs s i) x y;
  i_last z : last (chain s) = Some z -> next s z = None;
  i_plink i x y : linking (pcs s i) x y -> adj (chain s) x y /\ next s x = None;
  i_plinks i j x y y' : linking (pcs s i) x y -> linking (pcs s j) x y' -> i = j;
  i_mark : snd (tail s) = true -> Blocking = true /\ chain s = [stub];
  i_lock : tracks (lock s) locked (pcs s);
  i_busy x : busy s x = true <-> x ∈ chain s \/ exists i, x ∈ hand (pcs s i);
  i_hand i x : x ∈ hand (pcs s i) -> x ∉ chain s;
  i_hands i j x : x ∈ hand (pcs s i) -> x ∈ hand (pcs s j) -> i = j;
  i_free x : busy s x = false -> next s x = None;
  i_seg i xs a : pcs s i = PExch xs a ->
    xs <> [] /\ NoDup xs /\ (forall x y, adj xs x y -> next s x = Some y) /\ (forall z, last xs = Some z -> next s z = None);
  i_stub : busy s stub = true;
  i_stubs i : stub ∈ hand (pcs s i) -> locked (pcs s i) = true;
  i_front i : front_ok (pcs s i) (chain s) (next s);
  i_hist : pushed s = taken s ++ elements (chain s);
  i_ab : aborted s = false
}.
Ltac fields := cbn [head tail next lock pcs busy chain pushed taken aborted fst snd] in *.

(** Only the thread that has the lock is at the front. *)
Lemma front_unlocked c ch nx : locked c = false -> front_ok c ch nx.
Proof. destruct c as [|xs []|p f e []| | | | | | | | | | | | |]; done. Qed.

Lemma front_mono c ch xs nx nx' :
  front_ok c ch nx -> (forall x, x ∈ ch -> is_Some (nx x) -> is_Some (nx' x)) -> front_ok c (ch ++ xs) nx'.
Proof.
  intros Hf Hnx. assert (Hhd : forall e, list.head ch = Some e -> list.head (ch ++ xs) = Some e /\ e ∈ ch).
  { intros e He. destruct ch as [|a ch]; [done|]. split; [done|]. injection He as ->. by left. }
  assert (Htl : forall e, e ∈ list.tail ch -> e ∈ list.tail (ch ++ xs)).
  { intros e He. destruct ch as [|a ch]; [by apply elem_of_nil in He|]. apply elem_of_app. by left. }
  destruct c as [|ys []|p f e []| | | | | | | | | |e|e|e|e]; cbn in *; try done; try (by apply Htl); try naive_solver.
  - apply elem_of_app. by left.
  - destruct Hf as [Hh Hne]. split; [by apply Hhd|]. destruct ch as [|a [|b ch]]; [done| |done].
    injection Hh as ->. done.
Qed.

Definition others (pc : nat -> pc) (i x : nat) : Prop := exists j, j <> i /\ x ∈ hand (pc j).

Lemma hands_upd_stub pc i c x : (exists j, x ∈ hand (upd pc i c j)) <-> x ∈ hand c \/ others pc i x.
Proof.
  split.
  - intros [j Hj]. destruct (decide (j = i)) as [->|Hne]; [rewrite upd_eq in Hj; by left|].
    rewrite upd_ne in Hj by congruence. right. by exists j.
  - intros [Hc|(j & Hne & Hj)]; [exists i; by rewrite upd_eq|]. exists j. by rewrite upd_ne by congruence.
Qed.

(** A thread keeps what it has in its hands and what is in use. *)
Lemma stub_busy_same s i c :
  inv s -> hand c = hand (pcs s i) ->
  (forall x, busy s x = true <-> x ∈ chain s \/ others (pcs s) i x \/ x ∈ hand c) /\
  (forall x, x ∈ hand c -> x ∉ chain s /\ ~ others (pcs s) i x).
Proof.
  intros Hi Hc. rewrite Hc. split.
  - intros x. rewrite (i_busy _ Hi). split; [|intros [?|[(j & _ & ?)|?]]; eauto].
    intros [?|[j Hj]]; [by left|]. destruct (decide (j = i)) as [->|Hne]; [by right; right|].
    right. left. by exists j.
  - intros x Hx. split; [by apply (i_hand _ Hi i)|]. intros (j & Hne & Hj). apply Hne. by apply (i_hands _ Hi j i x).
Qed.

(** Steps of one thread that keep the chain, or take its first node: they
    change the links of nodes in that thread's hands only. *)
Lemma stub_frame_ok h h' t t' nx nx' lk lk' pc bz bz' l0 ch hi tk tk' i c :
  inv (mkState h t nx lk pc bz (l0 ++ ch) hi tk false) ->
  (forall x y, x ∈ l0 \/ ~ linking (pc i) x y) -> (forall x y, ~ linking c x y) ->
  (forall x, x ∈ l0 -> is_Some (nx x)) ->
  (forall x, x ∈ ch \/ others pc i x -> nx' x = nx x) ->
  (forall x, bz' x = true <-> x ∈ ch \/ others pc i x \/ x ∈ hand c) ->
  (forall x, bz' x = false -> nx' x = None) ->
  (forall x, x ∈ hand c -> x ∉ ch /\ ~ others pc i x) ->
  (forall xs a, c = PExch xs a -> xs <> [] /\ NoDup xs /\ (forall x y, adj xs x y -> nx' x = Some y) /\
     (forall z, last xs = Some z -> nx' z = None)) ->
  h' = list.head ch -> last ch = Some (fst t') -> (snd t' = true -> Blocking = true /\ ch = [stub]) ->
  tracks lk' locked (upd pc i c) -> bz' stub = true -> (stub ∈ hand c -> locked c = true) ->
  (l0 = [] \/ locked (pc i) = true) -> front_ok c ch nx' ->
  hi = tk' ++ elements ch ->
  inv (mkState h' t' nx' lk' (upd pc i c) bz' ch hi tk' false).
Proof.
  intros [Hhd Ht Hn Hl Hz Hp Hpp Hmk Hlk Hb Hh Hhh Hf Hsg Hst Hss Hfr Hhi _] Hpi Hpc Hl0 Hnx Hbz Hf' Hhc Hex -> Ht' Hmk' Hlk' Hst' Hss' Hll Hfc Hhi'.
  fields. assert (HnxL : forall x y, adj ch x y -> nx' x = nx x).
  { intros x y Hxy. apply Hnx. left. by apply adj_in in Hxy as [? _]. }
  assert (Hnxo : forall j x, j <> i -> x ∈ hand (pc j) -> nx' x = nx x) by (intros j x ? ?; apply Hnx; right; by exists j).
  assert (Hpx : forall j x y, linking (pc j) x y -> x ∉ l0).
  { intros j x y Hj [? Hx]%Hl0. destruct (Hp j x y Hj). congruence. }
  split; fields; try done.
  - by apply NoDup_app in Hn as (_ & _ & ?).
  - intros x y Hxy. rewrite (HnxL x y Hxy). destruct (Hl x y) as [?|[Hx [j Hj]]]; [apply adj_app; auto|by left|].
    right. split; [done|]. exists j. at_fred j i; [|done]. destruct (Hpi x y) as [Hx0|?]; [|done]. by destruct (Hpx i x y Hj).
  - intros z Hlast. rewrite Hnx by (left; by apply last_Some_elem_of). apply Hz. by rewrite last_app, Hlast.
  - intros j x y. at_fred j i; [by intros ?%Hpc|]. intros Hj. destruct (Hp j x y Hj) as [Hxy ?].
    apply adj_app in Hxy as [Hxy|[[Hx0 _]|Hxy]].
    + apply adj_in in Hxy as [Hx0 _]. by destruct (Hpx j x y Hj).
    + apply last_Some_elem_of in Hx0. by destruct (Hpx j x y Hj).
    + by rewrite (HnxL x y Hxy).
  - intros j k x y y'. at_fred j i; [by intros ?%Hpc|]. at_fred k i; [by intros _ ?%Hpc|]. apply Hpp.
  - intros x. rewrite Hbz, hands_upd_stub. tauto.
  - intros j x. at_fred j i; [apply Hhc|]. intros Hx Hin. apply (Hh j x Hx). apply elem_of_app. by right.
  - intros j k x. at_fred j i; at_fred k i; try done.
    + intros Hx Hk. exfalso. apply (Hhc x Hx). exists k. split; [by apply not_eq_sym|done].
    + intros Hj Hx. exfalso. apply (Hhc x Hx). exists j. split; [by apply not_eq_sym|done].
    + apply Hhh.
  - intros j xs a. at_fred j i; [apply Hex|]. intros Hj. destruct (Hsg j xs a Hj) as (H1 & H2 & H3 & H4).
    assert (Hk : forall x, x ∈ xs -> nx' x = nx x) by (intros x ?; apply (Hnxo j); [by apply not_eq_sym|by rewrite Hj]).
    split_and!; [done|done| |].
    + intros x y Hxy. rewrite Hk by (by apply adj_in in Hxy as [? _]). by apply H3.
    + intros z Hlast. rewrite Hk by (by apply last_Some_elem_of). by apply H4.
  - intros j. at_fred j i; [done|apply Hss].
  - intros j. at_fred j i; [done|]. destruct Hll as [-> |Hli].
    + rewrite <- (app_nil_r ch). eapply front_mono; [apply Hfr|]. intros x Hx. by rewrite Hnx by auto.
    + apply front_unlocked. destruct (locked (pc j)) eqn:Hlj; [|done]. by destruct (tracks_unique _ _ _ _ _ Hlk Hli Hlj).
Qed.

Lemma elements_app l1 l2 : elements (l1 ++ l2) = elements l1 ++ elements l2.
Proof. apply filter_app. Qed.

(** The exchange of [tail]. *)
Lemma stub_exch_ok h t nx lk pc bz ch hi tk i xs a f z :
  inv (mkState h t nx lk pc bz ch hi tk false) ->
  pc i = PExch xs a -> list.head xs = Some f -> last xs = Some z ->
  inv (mkState h (z, false) nx lk (upd pc i (PLink (fst t) f (Blocking && snd t) a)) bz (ch ++ xs)
         (if a then hi else hi ++ xs) tk false).
Proof.
  intros [Hhd Ht Hn Hl Hz Hp Hpp Hmk Hlk Hb Hh Hhh Hf Hsg Hst Hss Hfr Hhi _] Hi Hhead Hlast. fields.
  destruct (Hsg i xs a Hi) as (Hxs & Hnx & Hadj & Hend). set (c := PLink _ _ _ _).
  assert (HxL : forall x, x ∈ xs -> x ∉ ch) by (intros x Hx; apply (Hh i); by rewrite Hi).
  assert (HxH : forall j x, x ∈ xs -> x ∈ hand (pc j) -> j = i) by (intros j x Hx Hj; apply (Hhh j i x Hj); by rewrite Hi).
  assert (Hlc : linking c (fst t) f) by (by eexists _, _).
  assert (Hlc' : forall x y, linking c x y -> x = fst t /\ y = f) by (intros x y (? & ? & [= -> -> _ _]); done).
  assert (Hne : ch <> []) by (intros ->; done).
  split; fields; try done.
  - rewrite Hhd. by destruct ch.
  - by rewrite last_app, Hlast.
  - apply NoDup_app. split_and!; [done| |done]. intros x H1 H2. by apply (HxL x).
  - intros x y [Hxy|[[Hx Hy]|Hxy]]%adj_app.
    + destruct (Hl x y Hxy) as [?|[? [j Hj]]]; [by left|]. right. split; [done|]. exists j.
      at_fred j i; [|done]. rewrite Hi in Hj. by destruct Hj as (? & ? & ?).
    + right. split; [by apply Hz|]. exists i. rewrite upd_eq. by simplify_eq.
    + left. by apply Hadj.
  - intros z'. rewrite last_app, Hlast. intros [= <-]. by apply Hend.
  - intros j x y. at_fred j i; [intros [-> ->]%Hlc'|intros Hj; destruct (Hp j x y Hj)].
    + split; [|by apply Hz]. apply adj_app. right. left. by rewrite Hhead.
    + split; [|done]. apply adj_app. by left.
  - intros j k x y y'. at_fred j i; at_fred k i; try done.
    + intros [-> _]%Hlc' Hk. destruct (Hp k _ y' Hk) as [Hxy _]. by apply adj_last in Hxy.
    + intros Hj [-> _]%Hlc'. destruct (Hp j _ y Hj) as [Hxy _]. by apply adj_last in Hxy.
    + apply Hpp.
  - apply tracks_same; [done|]. by rewrite Hi.
  - intros x. rewrite Hb, elem_of_app, hands_upd_stub. split.
    + intros [?|[j Hj]]; [tauto|]. destruct (decide (j = i)) as [->|Hne']; [rewrite Hi in Hj; by left; right|].
      right. right. by exists j.
    + intros [[?|Hx]|[Hx|(j & _ & Hj)]]; [by left|right; exists i; by rewrite Hi| |by right; exists j]. by apply elem_of_nil in Hx.
  - intros j x. at_fred j i; [by intros Hx%elem_of_nil|].
    intros Hx [Hin|Hin]%elem_of_app; [by apply (Hh j x)|]. by apply (HxH j) in Hx.
  - intros j k x. at_fred j i; [by intros Hx%elem_of_nil|]. at_fred k i; [by intros _ Hx%elem_of_nil|]. apply Hhh.
  - intros j ys b. at_fred j i; [done|apply Hsg].
  - intros j. at_fred j i; [by intros ?%elem_of_nil|apply Hss].
  - intros j. at_fred j i.
    + pose proof (Hfr i) as Hfi. rewrite Hi in Hfi. destruct a; [|done]. cbn in *. subst xs.
      destruct ch as [|b ch]; [done|]. apply elem_of_app. right. by left.
    + by apply (front_mono _ _ _ nx).
  - rewrite elements_app. destruct a.
    + pose proof (Hfr i) as Hfi. rewrite Hi in Hfi. cbn in Hfi. subst xs.
      replace (elements [stub]) with (@nil nat) by (symmetry; apply filter_none; intros x ->%list_elem_of_singleton; by intros []).
      by rewrite app_nil_r.
    + replace (elements xs) with xs; [by rewrite Hhi, app_assoc|]. symmetry. apply filter_all. intros x Hx ->.
      specialize (Hss i). rewrite Hi in Hss. specialize (Hss Hx). done.
Qed.

(** A producer links its segment to the node before it. *)
Lemma stub_plink_ok h t nx lk pc bz ch hi tk i x y e a :
  inv (mkState h t nx lk pc bz ch hi tk false) -> pc i = PLink x y e a ->
  inv (mkState h t (upd nx x (Some y)) lk (upd pc i (if a then CTake else Idle)) bz ch hi tk false).
Proof.
  intros [Hhd Ht Hn Hl Hz Hp Hpp Hmk Hlk Hb Hh Hhh Hf Hsg Hst Hss Hfr Hhi _] Hi. fields.
  assert (Hli : linking (pc i) x y) by (rewrite Hi; by eexists _, _).
  destruct (Hp i x y Hli) as [Hxy Hnx]. pose proof (proj1 (adj_in _ _ _ Hxy)) as HxL.
  assert (HxH : forall j, x ∉ hand (pc j)) by (intros j Hj; by apply (Hh j x)).
  assert (Hkeep : forall x', x' <> x -> upd nx x (Some y) x' = nx x') by (intros; by apply upd_ne, not_eq_sym).
  set (c := if a then _ else _). assert (Hnl : forall b b', ~ linking c b b') by (intros b b' (? & ? & Hc); unfold c in Hc; by destruct a).
  assert (Hnh : forall b, b ∉ hand c) by (intros b Hc; unfold c in Hc; destruct a; by apply elem_of_nil in Hc).
  split; fields; try done.
  - intros b b' Hab. destruct (decide (b = x)) as [->|Hne].
    + left. rewrite upd_eq. f_equal. by apply (adj_succ _ x y b' Hn).
    + rewrite Hkeep by done. destruct (Hl b b' Hab) as [?|[? [j Hj]]]; [by left|]. right. split; [done|].
      exists j. at_fred j i; [|done]. rewrite Hi in Hj. destruct Hj as (? & ? & [= -> -> _ _]). done.
  - intros z Hlast. rewrite Hkeep; [by apply Hz|]. intros ->. by apply (adj_last _ _ _ Hn Hxy).
  - intros j b b'. at_fred j i; [by intros ?%Hnl|]. intros Hj. destruct (Hp j b b' Hj). split; [done|].
    rewrite Hkeep; [done|]. intros ->. by apply n, (Hpp i j x y b').
  - intros j k b b' b''. at_fred j i; [by intros ?%Hnl|]. at_fred k i; [by intros _ ?%Hnl|]. apply Hpp.
  - apply tracks_same; [done|]. rewrite Hi. unfold c. by destruct a.
  - intros b. rewrite Hb. f_equiv. split; intros [j Hj]; exists j; revert Hj; at_fred j i; try done.
    + rewrite Hi. by intros ?%elem_of_nil.
    + by intros ?%Hnh.
  - intros j b. at_fred j i; [by intros ?%Hnh|apply Hh].
  - intros j k b. at_fred j i; [by intros ?%Hnh|]. at_fred k i; [by intros _ ?%Hnh|]. apply Hhh.
  - intros b Ha. rewrite Hkeep; [by apply Hf|]. intros ->. assert (bz x = true) by (apply Hb; by left). congruence.
  - intros j xs b. at_fred j i; [unfold c; by destruct a|]. intros Hj. destruct (Hsg j xs b Hj) as (H1 & H2 & H3 & H4).
    assert (Hk : forall b, b ∈ xs -> b <> x) by (intros d Hd ->; apply (HxH j); by rewrite Hj).
    split_and!; [done|done| |].
    + intros d d' Hd. rewrite Hkeep; [by apply H3|]. apply Hk. by apply adj_in in Hd as [? _].
    + intros z Hlast. rewrite Hkeep; [by apply H4|]. by apply Hk, last_Some_elem_of.
  - intros j. at_fred j i; [by intros ?%Hnh|apply Hss].
  - intros j. at_fred j i.
    + pose proof (Hfr i) as Hfi. rewrite Hi in Hfi. unfold c. by destruct a.
    + rewrite <- (app_nil_r ch). eapply front_mono; [apply Hfr|]. intros b _ Hb'. destruct (decide (b = x)) as [->|]; [by rewrite upd_eq|by rewrite Hkeep].
Qed.

(** Steps that touch nothing but the thread's place, the lock and the marking. *)
Lemma stub_move_ok h t t' nx lk lk' pc bz ch hi tk i c :
  inv (mkState h t nx lk pc bz ch hi tk false) ->
  hand c = hand (pc i) -> (forall x y, ~ linking (pc i) x y) -> (forall x y, ~ linking c x y) ->
  (forall xs a, c <> PExch xs a) -> fst t' = fst t -> (snd t' = true -> Blocking = true /\ ch = [stub]) ->
  tracks lk' locked (upd pc i c) -> (stub ∈ hand c -> locked c = true) -> front_ok c ch nx ->
  inv (mkState h t' nx lk' (upd pc i c) bz ch hi tk false).
Proof.
  intros Hinv Hhand Hl1 Hl2 Hex Ht Hmk Hlk Hs Hf. destruct (stub_busy_same _ i c Hinv Hhand) as [Hb Hh]. fields.
  eapply (stub_frame_ok _ h _ t' nx nx lk _ pc bz bz [] ch hi tk); try done.
  - intros x y. right. apply Hl1.
  - by intros x Hx%elem_of_nil.
  - apply (i_free _ Hinv).
  - intros xs a ->. by destruct (Hex xs a).
  - apply (i_head _ Hinv).
  - rewrite Ht. apply (i_tail _ Hinv).
  - apply (i_stub _ Hinv).
  - by left.
  - apply (i_hist _ Hinv).
Qed.

Lemma stub_unlock s i c :
  inv s -> locked (pcs s i) = true -> locked c = false -> tracks None locked (upd (pcs s) i c).
Proof.
  intros Hinv Hi Hc. pose proof (i_lock _ Hinv) as Hlk. rewrite (proj2 (Hlk i) Hi) in Hlk. by apply (tracks_lose _ _ i).
Qed.

Ltac plain Hi := try (rewrite Hi); try done; try (intros ? ? (? & ? & ?); congruence); try (intros ?%elem_of_nil; done).
Ltac move_on Hinv Hi := eapply stub_move_ok; [exact Hinv|plain Hi..].

(** While the stub is in the chain, [head] is the node to take next or the stub. *)
Lemma stub_in_chain s i : inv s -> pcs s i = CLock -> lock s = None -> stub ∈ chain s.
Proof.
  intros Hinv Hi Hlk. destruct (proj1 (i_busy _ Hinv stub) (i_stub _ Hinv)) as [?|[j Hj]]; [done|].
  pose proof (i_stubs _ Hinv j Hj) as Hl. apply (i_lock _ Hinv) in Hl. congruence.
Qed.

Lemma stub_push_ok h t nx lk pc bz ch hi tk i xs z :
  inv (mkState h t nx lk pc bz ch hi tk false) -> pc i = Idle -> last xs = Some z -> may_push bz xs = true ->
  enter_push nx z = true /\ inv (mkState h t (link_all xs nx) lk (upd pc i (PExch xs false)) (use_all xs bz) ch hi tk false).
Proof.
  intros Hinv Hi Hlast Hm. unfold may_push in Hm. apply andb_true_iff in Hm as [Hnd Hfree]. bool_prop.
  assert (Hx : forall x, x ∈ xs -> bz x = false).
  { intros x Hx. rewrite forallb_forall in Hfree. apply list_elem_of_In, Hfree in Hx. by destruct (bz x). }
  destruct (stub_busy_same _ i Idle Hinv) as [Hb _]; [fields; by rewrite Hi|]. fields.
  assert (HxL : forall x, x ∈ ch \/ others pc i x -> x ∉ xs).
  { intros x Hin Hxs. apply Hx in Hxs. assert (bz x = true) by (apply Hb; tauto). congruence. }
  assert (Hkeep : forall x, x ∉ xs -> link_all xs nx x = nx x).
  { intros x Hin. apply Nemesis.link_all_out. by intros ?%Nemesis.removelast_elem. }
  pose proof (i_free _ Hinv) as Hf. pose proof (i_stub _ Hinv) as Hst. fields.
  split; [unfold enter_push; by rewrite Hf by by apply Hx, last_Some_elem_of|].
  eapply (stub_frame_ok h h t t nx _ lk _ pc bz _ [] ch hi tk); plain Hi.
  - intros x y. right. by intros (? & ? & ?).
  - by intros x Hx'%elem_of_nil.
  - intros x Hin. by apply Hkeep, HxL.
  - intros x. unfold use_all. rewrite orb_true_iff, Hb, bool_decide_eq_true. cbn. set_solver.
  - intros x Hbx. unfold use_all in Hbx. apply orb_false_iff in Hbx as [Hbx Hxs]. bool_prop. rewrite Hkeep by done. by apply Hf.
  - intros x Hin. cbn in Hin. split; intros ?; by apply (HxL x); auto.
  - intros ys a [= <- _]. split_and!; [by intros ->|done|intros x y; by apply Nemesis.link_all_adj|].
    intros z' Hz'. rewrite Nemesis.link_all_last by done. by apply Hf, Hx, last_Some_elem_of.
  - apply (i_head _ Hinv).
  - apply (i_tail _ Hinv).
  - apply (i_mark _ Hinv).
  - apply tracks_same; [apply (i_lock _ Hinv)|]. by rewrite Hi.
  - unfold use_all. by rewrite Hst.
  - intros Hin. apply Hx in Hin. congruence.
  - by left.
  - apply (i_hist _ Hinv).
Qed.

(** The first node leaves the chain. *)
Lemma stub_drop_ok h t nx lk pc bz ch hi tk tk' i c e :
  inv (mkState h t nx lk pc bz ch hi tk false) ->
  list.head ch = Some e -> is_Some (nx e) -> pc i = CSetHead \/ pc i = CHead e ->
  hand c = [e] -> (forall x y, ~ linking c x y) -> (forall xs a, c <> PExch xs a) -> locked c = true ->
  (forall q nx', front_ok c q nx') -> hi = tk' ++ elements (list.tail ch) ->
  inv (mkState (nx e) t nx lk (upd pc i c) bz (list.tail ch) hi tk' false).
Proof.
  intros Hinv Hhd Hnx Hi Hh Hl Hex Hlc Hf Hhi. destruct ch as [|e' ch]; [done|]. injection Hhd as ->. cbn [list.tail] in *.
  pose proof Hinv as [_ Ht Hn Hlk Hz Hp _ Hmk Htr Hb Hhd Hhs Hfree _ Hst _ _ _ _]. fields.
  assert (Hpi : locked (pc i) = true /\ hand (pc i) = [] /\ forall x y, ~ linking (pc i) x y).
  { destruct Hi as [-> | ->]; (split_and!; [done|done|]); intros ? ? (? & ? & ?); done. }
  destruct Hpi as (Hpl & Hph & Hpk). apply NoDup_cons in Hn as [He Hn].
  destruct ch as [|n ch]; [rewrite Hz in Hnx by done; by destruct Hnx|].
  assert (Hne : nx e = Some n).
  { destruct (Hlk e n) as [?|[? _]]; [by exists 0%nat|done|]. rewrite H in Hnx. by destruct Hnx. }
  assert (Hoth : ~ others pc i e) by (intros (j & _ & Hj); apply (Hhd j e Hj); by left).
  eapply (stub_frame_ok h _ t t nx nx lk _ pc bz bz [e] (n :: ch) hi tk); try done.
  - intros x y. right. apply Hpk.
  - by intros x ->%list_elem_of_singleton.
  - intros x. rewrite Hb, Hh. cbn. rewrite (elem_of_cons (n :: ch)), list_elem_of_singleton. split.
    + intros [[?|?]|[j Hj]]; [tauto|tauto|]. right. left. exists j. split; [|done]. intros ->. rewrite Hph in Hj. by apply elem_of_nil in Hj.
    + intros [?|[(j & _ & ?)|?]]; [tauto|right; by exists j|tauto].
  - rewrite Hh. intros x ->%list_elem_of_singleton. done.
  - intros xs a ->. by destruct (Hex xs a).
  - intros Hm. destruct (Hmk Hm) as [_ ?]. done.
  - apply tracks_same; [done|]. by rewrite Hpl, Hlc.
  - by right.
Qed.

(** A node in the hands of the thread that took it loses its link. *)
Lemma stub_clear_ok h t nx lk pc bz bz' ch hi tk i c e :
  inv (mkState h t nx lk pc bz ch hi tk false) -> hand (pc i) = [e] ->
  pc i = CClear /\ c = PExch [stub] true /\ bz' = bz \/ (exists e', pc i = CInv e') /\ c = Idle /\ bz' = upd bz e false ->
  inv (mkState h t (upd nx e None) lk (upd pc i c) bz' ch hi tk false).
Proof.
  intros Hinv Hh Hc. destruct (stub_busy_same _ i (pc i) Hinv eq_refl) as [Hb Hhd]. fields.
  destruct (Hhd e) as [HeL Heo]; [rewrite Hh; by left|].
  assert (Hoth : forall x, x ∈ ch \/ others pc i x -> x <> e) by (intros x [?|?] ->; done).
  pose proof (i_free _ Hinv) as Hf. pose proof (i_stub _ Hinv) as Hst. pose proof (i_stubs _ Hinv i) as Hss. fields.
  assert (Hb' : forall x, bz' x = true <-> x ∈ ch \/ others pc i x \/ x ∈ hand c).
  { intros x. destruct Hc as [(Hi & -> & ->)|(_ & -> & ->)].
    - rewrite Hb, Hi. done.
    - destruct (decide (e = x)) as [<-|Hx]; [rewrite upd_eq|rewrite upd_ne, Hb, Hh by done; cbn]; set_solver. }
  eapply (stub_frame_ok h h t t nx _ lk _ pc bz bz' [] ch hi tk); try done.
  - intros x y. right. destruct Hc as [(-> & _)|([? ->] & _)]; by intros (? & ? & ?).
  - intros x y. destruct Hc as [(_ & -> & _)|(_ & -> & _)]; by intros (? & ? & ?).
  - by intros x Hx%elem_of_nil.
  - intros x Hx. apply upd_ne. apply not_eq_sym. auto.
  - intros x Hx. destruct (decide (e = x)) as [<-|Hne]; [by rewrite upd_eq|]. rewrite upd_ne by done. apply Hf.
    destruct Hc as [(_ & _ & ->)|(_ & _ & ->)]; [done|]. by rewrite upd_ne in Hx by done.
  - intros x Hx. destruct Hc as [(Hi & -> & _)|(_ & -> & _)]; [|by apply elem_of_nil in Hx].
    rewrite Hi in Hh, Hhd. by apply Hhd.
  - intros xs a ->. destruct Hc as [(Hi & [= -> ->] & _)|(_ & ? & _)]; [|done]. rewrite Hi in Hh. injection Hh as <-.
    split_and!; [done|apply NoDup_singleton| |].
    + intros x y (k & Hx & Hy). apply lookup_lt_Some in Hy. cbn in Hy. lia.
    + intros z [= <-]. by rewrite upd_eq.
  - apply (i_head _ Hinv).
  - apply (i_tail _ Hinv).
  - apply (i_mark _ Hinv).
  - apply tracks_same; [apply (i_lock _ Hinv)|]. by destruct Hc as [(-> & -> & _)|([? ->] & -> & _)].
  - destruct Hc as [(_ & _ & ->)|([e' Hi] & _ & ->)]; [done|]. rewrite upd_ne; [done|]. intros ->.
    rewrite Hh, Hi in Hss. specialize (Hss ltac:(by left)). done.
  - destruct Hc as [(_ & -> & _)|(_ & -> & _)]; [done|by intros ?%elem_of_nil].
  - by left.
  - by destruct Hc as [(_ & -> & _)|(_ & -> & _)].
  - apply (i_hist _ Hinv).
Qed.

Lemma stub_goto_ok h t nx lk pc bz ch hi tk i c :
  inv (mkState h t nx lk pc bz ch hi tk false) ->
  hand c = hand (pc i) -> (forall x y, ~ linking (pc i) x y) -> (forall x y, ~ linking c x y) ->
  (forall xs a, c <> PExch xs a) -> locked c = locked (pc i) -> (stub ∈ hand c -> locked c = true) -> front_ok c ch nx ->
  inv (mkState h t nx lk (upd pc i c) bz ch hi tk false).
Proof.
  intros Hinv Hh Hl1 Hl2 Hx Hlk Hs Hf. eapply stub_move_ok; try done; [apply (i_mark _ Hinv)|].
  apply tracks_same; [apply (i_lock _ Hinv)|done].
Qed.
Ltac go_on Hinv Hi := eapply stub_goto_ok; [exact Hinv|plain Hi..].

(** The queue is empty when [tail] points to the stub at the front. *)
Lemma stub_alone h t nx lk pc bz ch hi tk :
  inv (mkState h t nx lk pc bz ch hi tk false) -> list.head ch = Some stub -> fst t = stub -> ch = [stub].
Proof.
  intros Hinv Hh Ht. pose proof (i_tail _ Hinv) as Hl. pose proof (i_nodup _ Hinv) as Hn. fields.
  destruct ch as [|x ch]; [done|]. injection Hh as ->. apply NoDup_cons in Hn as [Hs _]. destruct ch as [|y ch]; [done|].
  exfalso. apply Hs. apply last_Some_elem_of. cbn in Hl. congruence.
Qed.

Lemma stub_take_ok h t nx lk pc bz ch hi tk i e :
  inv (mkState h t nx lk pc bz ch hi tk false) -> pc i = CHead e ->
  inv (mkState (nx e) t nx lk (upd pc i (CRel e)) bz (list.tail ch) hi (tk ++ [e]) false).
Proof.
  intros Hinv Hi. pose proof (i_front _ Hinv i) as Hf. fields. rewrite Hi in Hf. destruct Hf as (Hh & Hs & Hn). fields.
  assert (He : e <> stub).
  { intros ->. pose proof (i_nodup _ Hinv) as Hnd. fields. destruct ch as [|x ch]; [done|]. injection Hh as ->. by apply NoDup_cons in Hnd as [? _]. }
  eapply stub_drop_ok; try done; [by right|by intros ? ? (? & ? & ?)|].
  pose proof (i_hist _ Hinv) as Hhi. fields. rewrite Hhi. destruct ch as [|x ch]; [done|]. injection Hh as ->. cbn [list.tail].
  unfold elements at 1. rewrite filter_cons_True by done. by rewrite <- app_assoc.
Qed.

Lemma stub_set_head_ok h t nx lk pc bz ch hi tk i :
  inv (mkState h t nx lk pc bz ch hi tk false) -> pc i = CSetHead ->
  inv (mkState (nx stub) t nx lk (upd pc i CClear) bz (list.tail ch) hi tk false).
Proof.
  intros Hinv Hi. pose proof (i_front _ Hinv i) as Hf. fields. rewrite Hi in Hf. destruct Hf as [Hh Hn]. fields.
  eapply stub_drop_ok; try done; [by left|by intros ? ? (? & ? & ?)|].
  pose proof (i_hist _ Hinv) as Hhi. fields. rewrite Hhi. destruct ch as [|x ch]; [done|]. injection Hh as ->. f_equal.
  unfold elements at 1. rewrite filter_cons_False; [done|]. by intros [].
Qed.

Lemma stub_release_ok h t nx lk pc bz ch hi tk i c :
  inv (mkState h t nx lk pc bz ch hi tk false) ->
  pc i = CFail /\ c = Idle \/ (exists e, pc i = CRel e /\ c = CInv e) ->
  inv (mkState h t nx None (upd pc i c) bz ch hi tk false).
Proof.
  intros Hinv Hc. pose proof (i_front _ Hinv i) as Hf. fields.
  eapply stub_move_ok; [exact Hinv| | | | | |apply (i_mark _ Hinv)| | |].
  - by destruct Hc as [[-> ->]|(e & -> & ->)].
  - destruct Hc as [[Hi _]|(e & Hi & _)]; by intros ? ? (? & ? & ?%(eq_trans (eq_sym Hi))).
  - by destruct Hc as [[_ ->]|(e & _ & ->)]; intros ? ? (? & ? & ?).
  - by destruct Hc as [[_ ->]|(e & _ & ->)].
  - done.
  - apply (stub_unlock _ _ _ Hinv); fields; by destruct Hc as [[Hi ->]|(e & Hi & ->)]; rewrite ?Hi.
  - destruct Hc as [[_ ->]|(e & Hi & ->)]; [by intros ?%elem_of_nil|]. rewrite Hi in Hf. cbn in *. intros ?%list_elem_of_singleton. congruence.
  - by destruct Hc as [[_ ->]|(e & _ & ->)].
Qed.

(** What the queue looks like at the marking and the checks of [tail]. *)
Lemma stub_check_ok h t nx lk pc bz ch hi tk i :
  inv (mkState h t nx lk pc bz ch hi tk false) -> pc i = CMark \/ pc i = CTail ->
  (fst t = stub -> ch = [stub]) /\ (t <> (stub, false) -> snd t = false -> ch <> [stub]) /\ list.head ch = Some stub.
Proof.
  intros Hinv Hi. pose proof (i_front _ Hinv i) as Hf. fields.
  assert (Hh : list.head ch = Some stub) by (by destruct Hi as [Hi|Hi]; rewrite Hi in Hf; destruct Hf). split_and!; [|intros Ht Hm ->|done].
  - by apply (stub_alone _ _ _ _ _ _ _ _ _ Hinv).
  - pose proof (i_tail _ Hinv) as Hl. cbn in Hl. destruct t as [a b]. cbn in *. by simplify_eq.
Qed.

Lemma stub_step_inv l s s' : inv s -> step l s = Some s' -> inv s'.
Proof.
  destruct s as [h t nx lk pc bz ch hi tk ab]. intros Hinv Hs. pose proof (i_ab _ Hinv) as Hab. cbn in Hab. subst ab.
  pose proof (i_lock _ Hinv) as Hlk. pose proof (i_mark _ Hinv) as Hmk. fields.
  destruct l as [i xs|i|i]; cbn [step] in Hs; pose proof (i_front _ Hinv i) as Hf; fields;
    destruct (pc i) as [|xs' a|p f e a| | | | | | | | | |e|e|e|e] eqn:Hi; try done.
  - destruct (last xs) as [z|] eqn:Hz; [|done]. destruct (may_push bz xs) eqn:Hm; [|done].
    destruct (stub_push_ok _ _ _ _ _ _ _ _ _ _ _ _ Hinv Hi Hz Hm) as [He Hok]. rewrite He in Hs. by simplify_eq.
  - simplify_eq. go_on Hinv Hi.
  - destruct (list.head xs') as [f|] eqn:Hh; [|done]. destruct (last xs') as [z|] eqn:Hz; [|done]. destruct t as [p m]. simplify_eq.
    by apply (stub_exch_ok _ _ _ _ _ _ _ _ _ _ _ _ _ _ Hinv Hi Hh Hz).
  - simplify_eq. by eapply stub_plink_ok.
  - destruct lk; simplify_eq. eapply stub_move_ok; [exact Hinv|plain Hi..]; [by apply tracks_gain|].
    by apply (stub_in_chain _ _ Hinv Hi).
  - simplify_eq. pose proof (i_head _ Hinv) as Hhd. fields. case_bool_decide as Hst.
    + assert (list.head ch = Some stub) by congruence. destruct Blocking eqn:HB; go_on Hinv Hi.
    + go_on Hinv Hi. cbn in *. destruct ch as [|x ch]; [by apply elem_of_nil in Hf|]. apply elem_of_cons in Hf as [->|]; [by cbn in *; congruence|done].
  - destruct (stub_check_ok _ _ _ _ _ _ _ _ _ i Hinv) as (H1 & H2 & H3); [by left|]. simplify_eq. case_bool_decide as Ht.
    + subst t. eapply stub_move_ok; [exact Hinv|plain Hi..].
      * intros _. split; [by destruct Hf|by apply H1].
      * apply tracks_same; [done|by rewrite Hi].
    + destruct (snd t) eqn:Hm; go_on Hinv Hi. split; [done|by apply H2].
  - destruct (stub_check_ok _ _ _ _ _ _ _ _ _ i Hinv) as (H1 & H2 & H3); [by right|]. simplify_eq. case_bool_decide as Ht; go_on Hinv Hi.
    split; [done|]. apply H2; [done|]. destruct Hf as [_ Hb], (snd t); [|done]. destruct Hmk; [done|congruence].
  - simplify_eq. apply (stub_release_ok _ _ _ _ _ _ _ _ _ i _ Hinv). by left.
  - destruct (nx stub) eqn:Hn; simplify_eq; [|done]. go_on Hinv Hi. split; [by destruct Hf|done].
  - simplify_eq. by eapply stub_set_head_ok.
  - unfold enter_push in Hs. rewrite upd_eq in Hs. simplify_eq. eapply stub_clear_ok; [exact Hinv|by rewrite Hi|]. by left.
  - destruct h as [e|] eqn:Hh; simplify_eq. pose proof (i_head _ Hinv) as Hhd. fields. go_on Hinv Hi.
  - destruct (nx e) eqn:Hn; simplify_eq; [|done]. destruct Hf. go_on Hinv Hi.
  - simplify_eq. by eapply stub_take_ok.
  - simplify_eq. apply (stub_release_ok _ _ _ _ _ _ _ _ _ i _ Hinv). right. eauto.
  - simplify_eq. eapply stub_clear_ok; [exact Hinv|by rewrite Hi|]. right. eauto.
Qed.

Lemma stub_reachable_inv s : reachable init step s -> inv s.
Proof.
  apply invariant_rule; [|intros ? ? ?; apply stub_step_inv]. intros s0 ->. split; cbn; try done.
  - apply NoDup_singleton.
  - intros x y (k & _ & Hy). apply lookup_lt_Some in Hy. cbn in Hy. lia.
  - intros i x y (? & ? & ?). done.
  - intros i j x y y' (? & ? & ?). done.
  - intros x. rewrite bool_decide_eq_true, list_elem_of_singleton. split; [by left|]. intros [?|[i Hx]]; [done|by apply elem_of_nil in Hx].
  - intros i x Hx. by apply elem_of_nil in Hx.
  - intros i j x Hx. by apply elem_of_nil in Hx.
  - by rewrite bool_decide_eq_true.
  - intros i Hx. by apply elem_of_nil in Hx.
  - by rewrite decide_False by auto.
Qed.

Lemma elements_stub : elements [stub] = [].
Proof. apply filter_none. intros x ->%list_elem_of_singleton. by intros []. Qed.


(** [empty()] compares the marked pointer with the stub. *)
Theorem stub_empty_correct s :
  reachable init step s ->
  (snd (tail s) = false -> stub ∈ chain s -> (empty s = true <-> elements (chain s) = [])) /\
  (snd (tail s) = true -> empty s = false /\ elements (chain s) = []).
Proof.
  intros Hinv%stub_reachable_inv. destruct s as [h t nx lk pc bz ch hi tk ab]. pose proof (i_ab _ Hinv) as Hab. fields. subst ab.
  unfold empty. fields. pose proof (i_tail _ Hinv) as Ht. pose proof (i_head _ Hinv) as Hh. pose proof (i_mark _ Hinv) as Hm.
  pose proof (i_nodup _ Hinv) as Hn. fields. split.
  - intros Hu Hin. rewrite andb_true_iff, !bool_decide_eq_true. split.
    + intros [-> ->]. rewrite (stub_alone _ _ _ _ _ _ _ _ _ Hinv); [apply elements_stub|done|done].
    + intros He. assert (ch = [stub]) as ->.
      { assert (Hall : forall x, x ∈ ch -> x = stub).
        { intros x Hx. destruct (decide (x = stub)); [done|]. assert (x ∈ elements ch) as Hx' by by apply list_elem_of_filter.
          rewrite He in Hx'. by apply elem_of_nil in Hx'. }
        destruct ch as [|a [|b q]]; [done|f_equal; apply Hall; by left|].
        assert (a = stub) as -> by (apply Hall; by left). assert (b = stub) as -> by (apply Hall; right; by left).
        apply NoDup_cons in Hn as [Hx _]. exfalso. apply Hx. by left. }
      cbn in *. split; [done|]. destruct t as [a b]. cbn in *. congruence.
  - intros Hu. destruct (Hm Hu) as [_ ->]. split; [|apply elements_stub]. destruct t as [a []]; [|done]. rewrite andb_false_iff. right. by apply bool_decide_eq_false.
Qed.
End QueueStub.
End Stub.

(** With the stub 0: the queue starts marked; a producer gets the marking; a
    second one is between its exchange and its store while the consumer
    removes the stub, re-appends it and takes the first node. *)
Definition stub_run : list Stub.label :=
  [Stub.Push 0 [5]%nat; Stub.Go 0; Stub.Go 0; Stub.Pop 1; Stub.Go 1; Stub.Go 1; Stub.Go 1; Stub.Go 1; Stub.Go 1; Stub.Go 1;
   Stub.Push 2 [7]%nat; Stub.Go 2; Stub.Go 1; Stub.Go 1; Stub.Go 1].

