(* ===== verification/ConditionalQueues.v ===== *)
(** [NemesisDoubleQueue] and [ConditionalNemesisQueue] of
    [src/runtime/ConditionalNemesisQueue.h]: freds append themselves to a
    doubly-linked queue without a lock and leave it, or are taken from its
    front, under one.  Each access to shared memory is a step.  Threads are
    numbered; the node of the fred that thread [i] runs is [i]. *)
From S2P Require Import Prelude.

Module CondNemesis.

(** Who has won the race for a fred: [unblock], the fred itself, the timer. *)
Inductive kind := Pop | Cancel | Timeout.
#[export] Instance kind_eq_dec : EqDecision kind.
Proof. solve_decision. Defined.

(** Where a thread is.  [k] tells whether the node leaves in [pop], after a
    lost condition or after a timeout; [e] is the node. *)
Inductive pc :=
| Idle
(* block: push *)
| BExch (timed : bool)                (* about to exchange [tail] *)
| BHead (timed : bool)                (* about to store [head = &first] *)
| BPrev (timed : bool) (p : nat)      (* about to store [Prev(first) = prev] *)
| BLink (timed : bool) (p : nat)      (* about to store [Next( *prev) = &first] *)
| BFunc (timed : bool)                (* about to call [func] *)
| BRace                               (* [func] said no: about to race *)
| BWait (timed : bool)                (* suspended *)
(* remove *)
| RLock (k : kind) | RTest (k : kind) (* [AcquireSpinLock], [&elem == head] *)
(* removeHead *)
| HNext (e : nat) (k : kind)          (* [next = Next(elem)] *)
| HSet (e : nat) (k : kind) (n : option nat)   (* [head = next] *)
| HCas (e : nat) (k : kind)           (* swing [tail] to null *)
| HSpin (e : nat) (k : kind)          (* [while (!Next(elem)) Pause()] *)
| HHead (e : nat) (k : kind)          (* [head = Next(elem)] *)
(* removeInternal *)
| INext (k : kind)                    (* [next = Next(elem)] *)
| IPrev (k : kind) (n : option nat)   (* [prev = Prev(elem)] *)
| ISet (k : kind) (n : option nat) (p : nat)   (* [Next( *prev) = next] *)
| IBack (k : kind) (n p : nat)        (* [Prev( *next) = prev] *)
| ICas (k : kind) (p : nat)           (* swing [tail] to [prev] *)
| ISpin (k : kind) (p : nat)          (* [while (!Next(elem)) Pause()] *)
| INext2 (k : kind) (p : nat)         (* [next = Next(elem)] *)
| IBack2 (k : kind) (n p : nat)       (* [Prev( *next) = prev] *)
| ISet2 (k : kind) (n p : nat)        (* [Next( *prev) = next] *)
| Rel (e : nat) (k : kind)            (* [ReleaseSpinLock] *)
| Clr (e : nat) (k : kind)            (* [Next(elem) = nullptr], return *)
(* unblock: pop *)
| QLock | QLoad                       (* [AcquireSpinLock], [elem = head] *)
| QCheck (e : nat) | QFail            (* [Check(elem, p)], [ReleaseSpinLock] *)
| QResume (e : nat).                  (* [next->resume()] *)

Record state := mkState {
  head : option nat;
  tail : option nat;
  next : nat -> option nat;
  prev : nat -> option nat;
  lock : option nat;
  won : nat -> option kind;           (* the race for each fred *)
  woken : nat -> bool;                (* resumed by [unblock], not yet running *)
  ret : nat -> option bool;           (* what [block] returned *)
  pcs : nat -> pc;
  (* ghost: the nodes in the queue; for each node whether it was taken from
     the front and by whom it is being taken *)
  chain : list nat;
  out : nat -> bool;
  popper : nat -> option nat;
  aborted : bool
}.

(** The time limit of [block]: none, or a time that is in the past or not. *)
Inductive limit := Forever | Until (past : bool).

Inductive label :=
| Block (i : nat) (tm : limit)        (* a thread calls [block] *)
| Unblock (i : nat)                   (* a thread calls [unblock] *)
| Func (i : nat) (b : bool)           (* [func] returns *)
| Timer (i : nat)                     (* the timer wins the race for a fred *)
| Go (i : nat).

Definition without (e : nat) (l : list nat) : list nat := filter (fun x => x <> e) l.

(** Setters for the fields that a step changes. *)
Definition at_pc (s : state) (i : nat) (c : pc) : state :=
  mkState (head s) (tail s) (next s) (prev s) (lock s) (won s) (woken s) (ret s) (upd (pcs s) i c)
    (chain s) (out s) (popper s) (aborted s).
Definition with_head (s : state) (h : option nat) : state :=
  mkState h (tail s) (next s) (prev s) (lock s) (won s) (woken s) (ret s) (pcs s) (chain s) (out s) (popper s) (aborted s).
Definition with_tail (s : state) (t : option nat) : state :=
  mkState (head s) t (next s) (prev s) (lock s) (won s) (woken s) (ret s) (pcs s) (chain s) (out s) (popper s) (aborted s).
Definition with_next (s : state) (x : nat) (n : option nat) : state :=
  mkState (head s) (tail s) (upd (next s) x n) (prev s) (lock s) (won s) (woken s) (ret s) (pcs s) (chain s) (out s) (popper s) (aborted s).
Definition with_prev (s : state) (x : nat) (p : option nat) : state :=
  mkState (head s) (tail s) (next s) (upd (prev s) x p) (lock s) (won s) (woken s) (ret s) (pcs s) (chain s) (out s) (popper s) (aborted s).
Definition with_lock (s : state) (l : option nat) : state :=
  mkState (head s) (tail s) (next s) (prev s) l (won s) (woken s) (ret s) (pcs s) (chain s) (out s) (popper s) (aborted s).
Definition with_won (s : state) (x : nat) (k : option kind) : state :=
  mkState (head s) (tail s) (next s) (prev s) (lock s) (upd (won s) x k) (woken s) (ret s) (pcs s) (chain s) (out s) (popper s) (aborted s).
Definition with_woken (s : state) (x : nat) (b : bool) : state :=
  mkState (head s) (tail s) (next s) (prev s) (lock s) (won s) (upd (woken s) x b) (ret s) (pcs s) (chain s) (out s) (popper s) (aborted s).
Definition with_ret (s : state) (x : nat) (r : option bool) : state :=
  mkState (head s) (tail s) (next s) (prev s) (lock s) (won s) (woken s) (upd (ret s) x r) (pcs s) (chain s) (out s) (popper s) (aborted s).
Definition with_chain (s : state) (l : list nat) : state :=
  mkState (head s) (tail s) (next s) (prev s) (lock s) (won s) (woken s) (ret s) (pcs s) l (out s) (popper s) (aborted s).
Definition with_out (s : state) (x : nat) (b : bool) : state :=
  mkState (head s) (tail s) (next s) (prev s) (lock s) (won s) (woken s) (ret s) (pcs s) (chain s) (upd (out s) x b) (popper s) (aborted s).
Definition with_popper (s : state) (x : nat) (o : option nat) : state :=
  mkState (head s) (tail s) (next s) (prev s) (lock s) (won s) (woken s) (ret s) (pcs s) (chain s) (out s) (upd (popper s) x o) (aborted s).
Definition abort (s : state) : state :=
  mkState (head s) (tail s) (next s) (prev s) (lock s) (won s) (woken s) (ret s) (pcs s) (chain s) (out s) (popper s) true.

(** Ghost: the node [e] has left the chain. *)
Definition leave (s : state) (e : nat) (k : kind) : state :=
  let s' := with_chain s (without e (chain s)) in
  match k with Pop => with_out s' e true | _ => s' end.

Definition is_timed (tm : limit) : bool := match tm with Forever => false | Until _ => true end.

(** [block(cf, func)] and [block(cf, func, timeout)] up to the push: the time
    limit, [prepareRace], the assertion of [push]. *)
Definition block (s : state) (i : nat) (tm : limit) : state :=
  match tm with
  | Until true => with_ret s i (Some false)
  | _ =>
      let s' := with_ret (with_won s i None) i None in
      match next s i with
      | Some _ => abort s'
      | None => at_pc s' i (BExch (is_timed tm))
      end
  end.

(** [NemesisDoubleQueue::push]. *)
Definition push_step (s : state) (i : nat) (c : pc) : option state :=
  match c with
  | BExch t =>
      Some (with_tail (with_chain (at_pc s i (match tail s with None => BHead t | Some p => BPrev t p end)) (chain s ++ [i])) (Some i))
  | BHead t => Some (with_head (at_pc s i (BFunc t)) (Some i))
  | BPrev t p => Some (with_prev (at_pc s i (BLink t p)) i (Some p))
  | BLink t p => Some (with_next (at_pc s i (BFunc t)) p (Some i))
  | _ => None
  end.

(** [NemesisDoubleQueue::removeHead]. *)
Definition remove_head_step (s : state) (i : nat) (c : pc) : option state :=
  match c with
  | HNext e k => Some (at_pc s i (HSet e k (next s e)))
  | HSet e k n =>
      Some (match n with
            | None => with_head (at_pc s i (HCas e k)) None
            | Some _ => with_head (at_pc (leave s e k) i (Rel e k)) n
            end)
  | HCas e k =>
      Some (if bool_decide (tail s = Some e) then with_tail (at_pc (leave s e k) i (Rel e k)) None
            else at_pc s i (HSpin e k))
  | HSpin e k => Some (match next s e with None => s | Some _ => at_pc s i (HHead e k) end)
  | HHead e k => Some (with_head (at_pc (leave s e k) i (Rel e k)) (next s e))
  | _ => None
  end.

(** [NemesisDoubleQueue::removeInternal]; the node is that of the thread. *)
Definition remove_internal_step (s : state) (i : nat) (c : pc) : option state :=
  match c with
  | INext k => Some (at_pc s i (IPrev k (next s i)))
  | IPrev k n => match prev s i with Some p => Some (at_pc s i (ISet k n p)) | None => None end
  | ISet k n p =>
      Some (match n with
            | None => with_next (at_pc s i (ICas k p)) p None
            | Some y => with_next (at_pc (leave s i k) i (IBack k y p)) p (Some y)
            end)
  | IBack k n p => Some (with_prev (at_pc s i (Rel i k)) n (Some p))
  | ICas k p =>
      Some (if bool_decide (tail s = Some i) then with_tail (at_pc (leave s i k) i (Rel i k)) (Some p)
            else at_pc s i (ISpin k p))
  | ISpin k p => Some (match next s i with None => s | Some _ => at_pc s i (INext2 k p) end)
  | INext2 k p => match next s i with Some n => Some (at_pc s i (IBack2 k n p)) | None => None end
  | IBack2 k n p => Some (with_prev (at_pc s i (ISet2 k n p)) n (Some p))
  | ISet2 k n p => Some (with_next (at_pc (leave s i k) i (Rel i k)) p (Some n))
  | _ => None
  end.

(** [ReleaseSpinLock] and the invalidation of the link at the end of
    [removeHead] and [removeInternal]; [block] returns, or [pop] does. *)
Definition finish_step (s : state) (i : nat) (c : pc) : option state :=
  match c with
  | Rel e k => Some (with_lock (at_pc s i (Clr e k)) None)
  | Clr e k =>
      Some (with_next (match k with
                       | Pop => at_pc s i (QResume e)
                       | Cancel => with_ret (at_pc s i Idle) i (Some true)
                       | Timeout => with_ret (at_pc s i Idle) i (Some false)
                       end) e None)
  | _ => None
  end.

(** [pop] with [raceResume] as [Check], and the rest of [unblock]. *)
Definition pop_step (s : state) (i : nat) (c : pc) : option state :=
  match c with
  | QLock => match lock s with None => Some (with_lock (at_pc s i QLoad) (Some i)) | Some _ => None end
  | QLoad =>
      Some (at_pc s i (match head s with None => QFail | Some e => QCheck e end))
  | QCheck e =>
      Some (match won s e with
            | None => with_popper (with_won (at_pc s i (HNext e Pop)) e (Some Pop)) e (Some i)
            | Some _ => at_pc s i QFail
            end)
  | QFail => Some (with_lock (at_pc s i Idle) None)
  | QResume e => Some (with_popper (with_woken (at_pc s i Idle) e true) e None)
  | _ => None
  end.

(** The rest of [block], and [remove]. *)
Definition block_step (s : state) (i : nat) (c : pc) : option state :=
  match c with
  | BRace => Some (match won s i with
                   | None => with_won (at_pc s i (RLock Cancel)) i (Some Cancel)
                   | Some _ => at_pc s i (BWait false)
                   end)
  | BWait _ => if woken s i then Some (with_out (with_woken (with_ret (at_pc s i Idle) i (Some true)) i false) i false) else None
  | RLock k => match lock s with None => Some (with_lock (at_pc s i (RTest k)) (Some i)) | Some _ => None end
  | RTest k => Some (at_pc s i (if bool_decide (head s = Some i) then HNext i k else INext k))
  | _ => None
  end.

Definition first_some {A} (l : list (option A)) : option A :=
  foldr (fun o r => match o with Some x => Some x | None => r end) None l.

Definition step (l : label) (s : state) : option state :=
  match l with
  | Block i tm => match pcs s i with Idle => Some (block s i tm) | _ => None end
  | Unblock i => match pcs s i with Idle => Some (at_pc s i QLock) | _ => None end
  | Func i b =>
      match pcs s i with
      | BFunc t => Some (at_pc s i (if b then BWait t else BRace))
      | _ => None
      end
  | Timer i =>
      match pcs s i, won s i with
      | BWait true, None => Some (with_won (at_pc s i (RLock Timeout)) i (Some Timeout))
      | _, _ => None
      end
  | Go i =>
      let c := pcs s i in
      first_some [push_step s i c; remove_head_step s i c; remove_internal_step s i c; finish_step s i c;
                  pop_step s i c; block_step s i c]
  end.

Definition start : state :=
  mkState None None (fun _ => None) (fun _ => None) None (fun _ => None) (fun _ => false) (fun _ => None)
    (fun _ => Idle) [] (fun _ => false) (fun _ => None) false.
Definition init (s : state) : Prop := s = start.

(** * What the threads' places say *)
Inductive class :=
| Off | Fresh | Entering | Waiting | Removing (k : kind) | Removed (k : kind).

Definition own (k : kind) (c : class) : class := match k with Pop => Off | _ => c end.

(** The state of the fred that the thread runs. *)
Definition cls (c : pc) : class :=
  match c with
  | BExch _ => Fresh
  | BHead _ | BPrev _ _ | BLink _ _ => Entering
  | BFunc _ | BRace | BWait _ => Waiting
  | RLock k | RTest k => Removing k
  | HNext _ k | HSet _ k _ | HCas _ k | HSpin _ k | HHead _ k => own k (Removing k)
  | INext k | IPrev k _ | ISet k _ _ | ICas k _ | ISpin k _ | INext2 k _ | IBack2 k _ _ | ISet2 k _ _ => Removing k
  | IBack k _ _ => Removed k
  | Rel _ k | Clr _ k => own k (Removed k)
  | _ => Off
  end.

(** The node that the thread takes from the front. *)
Definition popping (c : pc) : option nat :=
  match c with
  | HNext e k | HSet e k _ | HCas e k | HSpin e k | HHead e k | Rel e k | Clr e k =>
      match k with Pop => Some e | _ => None end
  | QResume e => Some e
  | _ => None
  end.
(** It has left the chain. *)
Definition dropped (c : pc) : bool := match c with Rel _ _ | Clr _ _ | QResume _ => true | _ => false end.
(** Its link may be set. *)
Definition dirty (c : pc) : bool := match c with Rel _ _ | Clr _ _ | IBack _ _ _ => true | _ => false end.
(** Whose node the thread works on. *)
Definition target (i : nat) (c : pc) : bool :=
  match c with
  | HNext e k | HSet e k _ | HCas e k | HSpin e k | HHead e k | Rel e k | Clr e k =>
      match k with Pop => true | _ => bool_decide (e = i) end
  | RLock k | RTest k | INext k | IPrev k _ | ISet k _ _ | IBack k _ _ | ICas k _ | ISpin k _ | INext2 k _ | IBack2 k _ _ | ISet2 k _ _ =>
      bool_decide (k <> Pop)
  | _ => true
  end.

Definition in_queue (c : class) : bool := match c with Entering | Waiting | Removing _ => true | _ => false end.

Definition locked (c : pc) : bool :=
  match c with
  | RTest _ | HNext _ _ | HSet _ _ _ | HCas _ _ | HSpin _ _ | HHead _ _
  | INext _ | IPrev _ _ | ISet _ _ _ | IBack _ _ _ | ICas _ _ | ISpin _ _ | INext2 _ _ | IBack2 _ _ _ | ISet2 _ _ _
  | Rel _ _ | QLoad | QCheck _ | QFail => true
  | _ => false
  end.

(** The race for a fred, in step with its place: [w] who has won, [p] the
    thread that takes it from the front, [r] resumed, [o] taken. *)
Definition node_ok (c : class) (w : option kind) (p : option nat) (r o : bool) : Prop :=
  match c with
  | Off => p = None /\ r = false /\ o = false
  | Fresh | Entering => w = None /\ p = None /\ r = false /\ o = false
  | Waiting =>
      w = None /\ p = None /\ r = false /\ o = false \/ w = Some Pop /\ is_Some p /\ r = false \/
      w = Some Pop /\ p = None /\ r = true /\ o = true
  | Removing k | Removed k => w = Some k /\ p = None /\ r = false /\ o = false
  end.

(** Which threads have which nodes. *)
Record own_inv (s : state) : Prop := mkOwn {
  o_lock : tracks (lock s) locked (pcs s);
  o_node x : node_ok (cls (pcs s x)) (won s x) (popper s x) (woken s x) (out s x);
  o_popper x i : popper s x = Some i <-> popping (pcs s i) = Some x;
  o_out x i : popper s x = Some i -> out s x = dropped (pcs s i);
  o_target i : target i (pcs s i) = true;
  o_chain x : x ∈ chain s <-> in_queue (cls (pcs s x)) = true /\ out s x = false;
  o_ab : aborted s = false
}.

(** * The list *)
Definition linking (c : pc) : bool := match c with BPrev _ _ | BLink _ _ => true | _ => false end.

(** The part of the list that the thread with the lock has taken apart. *)
Definition next_hole (c : pc) (x : nat) : option unit :=
  match c with
  | ICas _ p | ISpin _ p | INext2 _ p | IBack2 _ _ p | ISet2 _ _ p => if bool_decide (p = x) then Some tt else None
  | _ => None
  end.
Definition prev_hole (i : nat) (c : pc) (y : nat) : option nat :=
  match c with
  | IBack _ n _ => if bool_decide (n = y) then Some i else None
  | ISet2 _ n p => if bool_decide (n = y) then Some p else None
  | _ => None
  end.
Definition headless (c : pc) : option unit := match c with HCas _ _ | HSpin _ _ | HHead _ _ => Some tt | _ => None end.

(** What a thread that has the lock knows. *)
Definition know (i : nat) (c : pc) (h : option nat) (l : list nat) (nx : nat -> option nat) : Prop :=
  match c with
  | QCheck e => h = Some e
  | HNext e _ | HCas e _ => list.head l = Some e
  | HSet e _ n => list.head l = Some e /\ forall y, n = Some y -> nx e = Some y
  | HSpin e _ => list.head l = Some e /\ l <> [e]
  | HHead e _ => list.head l = Some e /\ is_Some (nx e)
  | INext _ => list.head l <> Some i
  | IPrev _ n => list.head l <> Some i /\ forall y, n = Some y -> nx i = Some y
  | ISet _ n p => adj l p i /\ forall y, n = Some y -> nx i = Some y
  | IBack _ n p => adj l p n /\ nx p = Some n
  | ICas _ p => adj l p i
  | ISpin _ p => adj l p i /\ last l <> Some i
  | INext2 _ p => adj l p i /\ is_Some (nx i)
  | IBack2 _ n p | ISet2 _ n p => adj l p i /\ nx i = Some n
  | _ => True
  end.

Definition holder {A} (f : nat -> pc -> option A) (s : state) : option A :=
  match lock s with Some i => f i (pcs s i) | None => None end.
Notation broken s x := (holder (fun _ c => next_hole c x) s).
Notation moved s y := (holder (fun i c => prev_hole i c y) s).
Notation no_head s := (holder (fun _ c => headless c) s).

(** The first node, unless its thread has not yet stored it. *)
Definition published (pc : nat -> pc) (l : list nat) : option nat :=
  match list.head l with
  | Some y => match pc y with BHead _ => None | _ => Some y end
  | None => None
  end.

Definition is_removed (c : pc) : bool := match cls c with Removed _ => true | _ => false end.

Record list_inv (s : state) : Prop := mkList {
  l_tail : tail s = last (chain s);
  l_nodup : NoDup (chain s);
  l_next x y : adj (chain s) x y ->
    next s x = if linking (pcs s y) then None else match broken s x with Some _ => None | None => Some y end;
  l_last z : last (chain s) = Some z -> next s z = None;
  l_prev x y : adj (chain s) x y -> (forall t p, pcs s y <> BPrev t p) -> prev s y = Some (default x (moved s y));
  l_link y t p : pcs s y = BPrev t p \/ pcs s y = BLink t p -> adj (chain s) p y;
  l_first y t : pcs s y = BHead t -> list.head (chain s) = Some y;
  l_head : head s = match no_head s with Some _ => None | None => published (pcs s) (chain s) end;
  l_know i : know i (pcs s i) (head s) (chain s) (next s);
  l_free x : x ∉ chain s -> next s x = None \/
    match popper s x with Some i => dirty (pcs s i) | None => is_removed (pcs s x) end = true
}.
Definition inv (s : state) : Prop := own_inv s /\ list_inv s.

Ltac fields :=
  cbn [head tail next prev lock won woken ret pcs chain out popper aborted
       at_pc with_head with_tail with_next with_prev with_lock with_won with_woken with_ret with_chain with_out with_popper] in *.

(** * Who has which node *)

(** Steps that keep the races and the chain. *)
Lemma own_quiet s s' i c :
  own_inv s -> pcs s' = upd (pcs s) i c -> won s' = won s -> woken s' = woken s -> out s' = out s ->
  popper s' = popper s -> aborted s' = aborted s -> chain s' = chain s -> tracks (lock s') locked (pcs s') ->
  (forall w p r o, node_ok (cls (pcs s i)) w p r o -> node_ok (cls c) w p r o) ->
  in_queue (cls c) = in_queue (cls (pcs s i)) ->
  popping c = popping (pcs s i) -> (popping c <> None -> dropped c = dropped (pcs s i)) -> target i c = true ->
  own_inv s'.
Proof.
  intros [Hlk Hn Hp Ho Ht Hc Hab] Epc Ew Er Eo Ep Ea Ech Hlk' Hnode Hin Hpop Hdr Htg.
  split; rewrite ?Ew, ?Er, ?Eo, ?Ep, ?Ea, ?Ech; try done; rewrite ?Epc.
  - intros x. at_fred x i; [apply Hnode, Hn|apply Hn].
  - intros x j. at_fred j i; [rewrite Hpop; apply Hp|apply Hp].
  - intros x j Hx. rewrite (Ho x j Hx). at_fred j i; [|done]. symmetry. apply Hdr. apply Hp in Hx. congruence.
  - intros j. at_fred j i; [done|apply Ht].
  - intros x. rewrite Hc. at_fred x i; [by rewrite Hin|done].
Qed.

(** The thread wins the race for the fred that it runs, or its timer does. *)
Lemma own_claim s i k c :
  own_inv s -> cls (pcs s i) = Waiting -> popping (pcs s i) = None -> locked (pcs s i) = false -> won s i = None -> k <> Pop ->
  cls c = Removing k -> popping c = None -> locked c = false -> target i c = true ->
  own_inv (with_won (at_pc s i c) i (Some k)).
Proof.
  intros [Hlk Hn Hp Ho Ht Hc Hab] Hi Hpi Hli Hw Hk Hcl Hpc Hlc Htg. pose proof (Hn i) as Hni. rewrite Hi, Hw in Hni.
  destruct Hni as [(_ & Hni)|[(? & _)|(? & _)]]; [|done|done]. split; fields; try done.
  - apply tracks_same; [done|]. by rewrite Hlc, Hli.
  - intros x. at_fred x i; [rewrite Hcl; by split|apply Hn].
  - intros x j. at_fred j i; [rewrite Hpc, <- Hpi; apply Hp|apply Hp].
  - intros x j Hx. at_fred j i; [|by apply Ho]. apply Hp in Hx. congruence.
  - intros j. at_fred j i; [done|apply Ht].
  - intros x. rewrite Hc. at_fred x i; [by rewrite Hi, Hcl|done].
Qed.

(** A node leaves the chain. *)
Lemma own_leave s s' i c e k :
  own_inv s -> pcs s' = upd (pcs s) i c -> won s' = won s -> woken s' = woken s ->
  out s' = (match k with Pop => upd (out s) e true | _ => out s end) ->
  popper s' = popper s -> aborted s' = aborted s -> chain s' = without e (chain s) -> lock s' = lock s ->
  locked c = locked (pcs s i) -> target i c = true ->
  match k with
  | Pop => popping (pcs s i) = Some e /\ popping c = Some e /\ dropped c = true /\ cls (pcs s i) = Off /\ cls c = Off
  | _ => e = i /\ popping (pcs s i) = None /\ popping c = None /\ cls (pcs s i) = Removing k /\ cls c = Removed k
  end ->
  own_inv s'.
Proof.
  intros [Hlk Hn Hp Ho Ht Hc Hab] Epc Ew Er Eo Ep Ea Ech El Hlc Htg Hk.
  assert (Hin : forall x, x ∈ without e (chain s) <-> x <> e /\ x ∈ chain s) by (intros x; unfold without; by rewrite list_elem_of_filter).
  split; rewrite ?Ew, ?Er, ?Eo, ?Ep, ?Ea, ?Ech, ?El; try done; rewrite ?Epc.
  - by apply tracks_same.
  - destruct k; [|by (intros x; at_fred x i; [destruct Hk as (_ & _ & _ & H1 & H2); specialize (Hn i); rewrite H1 in Hn; rewrite H2|apply Hn])..].
    destruct Hk as (Hpi & _ & _ & H1 & H2). apply Hp in Hpi. intros x.
    assert (Hx : node_ok (cls (upd (pcs s) i c x)) (won s x) (popper s x) (woken s x) (out s x)).
    { at_fred x i; [specialize (Hn i); rewrite H1 in Hn; by rewrite H2|apply Hn]. }
    destruct (decide (e = x)) as [<-|]; [rewrite (upd_eq (out s))|by rewrite (upd_ne (out s))]. rewrite Hpi in *.
    destruct (cls (upd (pcs s) i c e)); cbn in *; naive_solver.
  - intros x j. at_fred j i; [|apply Hp]. rewrite Hp. destruct k; naive_solver.
  - intros x j Hx. destruct k.
    + destruct Hk as (Hpi & Hpc & Hd & _). destruct (decide (e = x)) as [<-|Hne].
      * rewrite upd_eq. apply Hp in Hpi. rewrite Hpi in Hx. injection Hx as <-. by rewrite upd_eq.
      * rewrite (upd_ne _ e x) by done. at_fred j i; [|by apply Ho]. apply Hp in Hx. congruence.
    + at_fred j i; [|by apply Ho]. apply Hp in Hx. destruct Hk as (_ & Hpi & _). congruence.
    + at_fred j i; [|by apply Ho]. apply Hp in Hx. destruct Hk as (_ & Hpi & _). congruence.
  - intros j. at_fred j i; [done|apply Ht].
  - intros x. rewrite Hin, Hc. destruct k.
    + destruct Hk as (Hpi & _ & _ & H1 & H2). assert (cls (upd (pcs s) i c x) = cls (pcs s x)) as -> by (at_fred x i; congruence).
      destruct (decide (e = x)) as [<-|Hne]; [rewrite (upd_eq (out s))|rewrite (upd_ne (out s)) by done]; naive_solver.
    + destruct Hk as (-> & _ & _ & H1 & H2). at_fred x i; [rewrite H2; naive_solver|naive_solver].
    + destruct Hk as (-> & _ & _ & H1 & H2). at_fred x i; [rewrite H2; naive_solver|naive_solver].
Qed.

(** * Who has the lock *)
Lemma know_unlocked i c h l nx : locked c = false -> know i c h l nx.
Proof. by destruct c. Qed.

Lemma holder_at {A} (f : nat -> pc -> option A) s i :
  tracks (lock s) locked (pcs s) -> locked (pcs s i) = true -> holder f s = f i (pcs s i).
Proof. unfold holder. by intros Hlk ->%Hlk. Qed.

Lemma holder_same {A} (f : nat -> pc -> option A) s s' i c :
  tracks (lock s) locked (pcs s) -> tracks (lock s') locked (pcs s') -> pcs s' = upd (pcs s) i c ->
  (forall j d, locked d = false -> f j d = None) -> f i c = f i (pcs s i) -> holder f s' = holder f s.
Proof.
  intros Hlk Hlk' Epc Hf Hi.
  assert (Hj : forall j, f j (pcs s' j) = f j (pcs s j)) by (intros j; rewrite Epc; by at_fred j i).
  assert (Hd : forall u j v, tracks (lock u) locked (pcs u) -> f j (pcs u j) = Some v -> holder f u = Some v).
  { intros u j v Hu Hv. destruct (locked (pcs u j)) eqn:Hl; [by rewrite (holder_at f u j)|]. by rewrite Hf in Hv. }
  destruct (holder f s') as [v|] eqn:E.
  - symmetry. unfold holder in E. destruct (lock s') as [j|]; [|done]. rewrite Hj in E. by apply (Hd s j v).
  - destruct (holder f s) as [v|] eqn:E'; [|done]. unfold holder in E'. destruct (lock s) as [j|]; [|done].
    rewrite <- Hj in E'. rewrite (Hd s' j v Hlk' E') in E. done.
Qed.

Lemma holders_same s s' i c :
  own_inv s -> own_inv s' -> pcs s' = upd (pcs s) i c ->
  (forall x, next_hole c x = next_hole (pcs s i) x) -> (forall y, prev_hole i c y = prev_hole i (pcs s i) y) ->
  headless c = headless (pcs s i) ->
  (forall x, broken s' x = broken s x) /\ (forall y, moved s' y = moved s y) /\ no_head s' = no_head s.
Proof.
  intros [Hlk _ _ _ _ _ _] [Hlk' _ _ _ _ _ _] Epc H1 H2 H3.
  split_and!; intros; eapply (holder_same _ _ _ i c); try done; intros ? []; done.
Qed.

(** * The list *)
Lemma published_same pc i c l :
  (forall t, pc i <> BHead t) -> (forall t, c <> BHead t) -> published (upd pc i c) l = published pc l.
Proof.
  intros Hi Hc. unfold published. destruct (list.head l) as [y|]; [|done]. at_fred y i; [|done].
  destruct c, (pc i); naive_solver.
Qed.

Lemma unlinked c : cls c <> Entering -> linking c = false.
Proof. by destruct c. Qed.

(** Steps that keep the list and what the thread that has the lock has taken apart. *)
Lemma list_quiet s s' i c :
  list_inv s -> own_inv s -> own_inv s' -> pcs s' = upd (pcs s) i c -> chain s' = chain s -> next s' = next s -> prev s' = prev s ->
  tail s' = tail s -> head s' = head s -> cls (pcs s i) <> Entering -> cls c <> Entering ->
  (forall x, next_hole c x = next_hole (pcs s i) x) -> (forall y, prev_hole i c y = prev_hole i (pcs s i) y) ->
  headless c = headless (pcs s i) -> know i c (head s) (chain s) (next s) ->
  (forall x, x ∉ chain s -> next s x = None \/ match popper s x with Some j => dirty (pcs s j) | None => is_removed (pcs s x) end = true ->
     next s x = None \/ match popper s' x with Some j => dirty (pcs s' j) | None => is_removed (pcs s' x) end = true) ->
  list_inv s'.
Proof.
  intros [Ht Hn Hx Hz Hp Hl Hf Hh Hk Hfr] Ho Ho' Epc Ec En Ep Et Eh Hi Hc H1 H2 H3 Hkc Hfree.
  destruct (holders_same s s' i c Ho Ho' Epc H1 H2 H3) as (E1 & E2 & E3).
  assert (Hpc : forall y, cls (pcs s' y) = Entering \/ cls (pcs s y) = Entering -> pcs s' y = pcs s y).
  { intros y. rewrite Epc. at_fred y i; [|done]. by intros [?|?]. }
  assert (Hlink : forall y, linking (pcs s' y) = linking (pcs s y)).
  { intros y. rewrite Epc. at_fred y i; [|done]. rewrite (unlinked c), (unlinked (pcs s i)) by done. done. }
  split; rewrite ?Ec, ?En, ?Et, ?Eh, ?Ep; try done.
  - intros x y Hxy. rewrite Hlink, E1. by apply Hx.
  - intros x y Hxy Hy. rewrite E2. apply Hp; [done|]. intros t p E. apply (Hy t p). by rewrite Hpc by (rewrite E; by right).
  - intros y t p Hy. apply (Hl y t p). by rewrite <- Hpc by (left; by destruct Hy as [-> | ->]).
  - intros y t Hy. apply (Hf y t). by rewrite <- Hpc by (left; by rewrite Hy).
  - rewrite E3, Epc, published_same; [done|by intros t E; rewrite E in Hi|by intros t ->].
  - intros j. rewrite Epc. at_fred j i; [done|apply Hk].
  - intros x Hin. apply Hfree; auto.
Qed.

(** The same when nobody stops or starts to take a node. *)
Lemma list_quiet' s s' i c :
  list_inv s -> own_inv s -> own_inv s' -> pcs s' = upd (pcs s) i c -> chain s' = chain s -> next s' = next s -> prev s' = prev s ->
  tail s' = tail s -> head s' = head s -> popper s' = popper s -> cls (pcs s i) <> Entering -> cls c <> Entering ->
  (forall x, next_hole c x = next_hole (pcs s i) x) -> (forall y, prev_hole i c y = prev_hole i (pcs s i) y) ->
  headless c = headless (pcs s i) -> dirty c = dirty (pcs s i) -> is_removed c = is_removed (pcs s i) -> know i c (head s) (chain s) (next s) ->
  list_inv s'.
Proof.
  intros Hl Ho Ho' Epc Ec En Ep Et Eh Epo Hi Hc H1 H2 H3 Hd Hr Hk.
  eapply (list_quiet s s' i c); try done. intros x _ [?|Hx]; [by left|right].
  rewrite Epo, Epc. destruct (popper s x) as [j|]; [at_fred j i|at_fred x i]; congruence.
Qed.

(** More nodes, more links: what the thread that has the lock knows stays true. *)
Lemma know_mono i c h l xs nx nx' :
  know i c h l nx -> i ∉ xs -> (forall x y, nx x = Some y -> nx' x = Some y) -> know i c h (l ++ xs) nx'.
Proof.
  intros Hk Hi Hnx. assert (Hsome : forall x, is_Some (nx x) -> is_Some (nx' x)) by (intros x [y Hy]; eauto).
  assert (Hhd : forall e, list.head l = Some e -> list.head (l ++ xs) = Some e) by (by destruct l).
  assert (Hadj : forall x y, adj l x y -> adj (l ++ xs) x y) by (intros x y ?; apply adj_app; by left).
  assert (Hhi : list.head l <> Some i -> list.head (l ++ xs) <> Some i).
  { destruct l; [|done]. intros _. cbn. intros Hx. apply Hi. destruct xs; simplify_eq/=. by left. }
  assert (Hla : last l <> Some i -> last (l ++ xs) <> Some i).
  { intros Hl. rewrite last_app. destruct (last xs) as [z|] eqn:E; [|done]. intros [= ->]. apply Hi. by apply last_Some_elem_of. }
  assert (Hne : forall e, list.head l = Some e -> l <> [e] -> l ++ xs <> [e]) by (intros e; destruct l as [|? []]; naive_solver).
  destruct c; cbn in *; try done; naive_solver.
Qed.

(** Links of other nodes do not matter. *)
Lemma know_frame i c h l nx nx' :
  know i c h l nx -> (forall x, x ∈ l -> nx' x = nx x) -> ((exists k n, c = IPrev k n) -> i ∈ l) -> know i c h l nx'.
Proof.
  intros Hk Hnx Hi. assert (Hhd : forall e, list.head l = Some e -> nx' e = nx e) by (intros e He; apply Hnx; destruct l; [done|]; injection He as ->; by left).
  assert (Hadj : forall x y, adj l x y -> nx' x = nx x /\ nx' y = nx y) by (intros x y [? ?]%adj_in; auto).
  destruct c; cbn in *; try done.
  - destruct Hk as [He Hk]. by rewrite Hhd.
  - destruct Hk as [He Hk]. by rewrite Hhd.
  - rewrite Hnx by eauto. done.
  - destruct Hk as [Ha Hk]. by destruct (Hadj _ _ Ha) as [_ ->].
  - destruct Hk as [Ha Hk]. by destruct (Hadj _ _ Ha) as [-> _].
  - destruct Hk as [Ha Hk]. by destruct (Hadj _ _ Ha) as [_ ->].
  - destruct Hk as [Ha Hk]. by destruct (Hadj _ _ Ha) as [_ ->].
  - destruct Hk as [Ha Hk]. by destruct (Hadj _ _ Ha) as [_ ->].
Qed.

Lemma next_adj s x n : list_inv s -> x ∈ chain s -> next s x = Some n -> adj (chain s) x n /\ linking (pcs s n) = false /\ broken s x = None.
Proof.
  intros Hl Hx Hn. destruct (list_elem_of_lookup_1 _ _ Hx) as [k Hk].
  destruct (chain s !! S k) as [y|] eqn:Hy.
  - assert (Hxy : adj (chain s) x y) by (by exists k). pose proof (l_next _ Hl x y Hxy) as H. rewrite Hn in H.
    destruct (linking (pcs s y)) eqn:El; [done|]. destruct (broken s x) eqn:Eb; [done|]. by simplify_eq.
  - exfalso. assert (Hlast : last (chain s) = Some x).
    { rewrite last_lookup. apply lookup_lt_Some in Hk as Hlt. apply lookup_ge_None in Hy. rewrite <- Hk. f_equal. lia. }
    apply (l_last _ Hl) in Hlast. congruence.
Qed.

(** The thread that has the lock is not at a node that is just entering. *)
Lemma moved_linked s y v : own_inv s -> list_inv s -> moved s y = Some v -> linking (pcs s y) = false.
Proof.
  intros Ho Hl Hm. unfold holder in Hm. destruct (lock s) as [i|]; [|done]. pose proof (l_know _ Hl i) as Hk.
  destruct (pcs s i) eqn:Hi; try done; cbn in Hm, Hk; case_bool_decide; simplify_eq.
  - destruct Hk as [Ha Hn]. by apply (next_adj s p y Hl) in Hn as (_ & ? & _); [|apply adj_in in Ha as [? _]].
  - destruct Hk as [Ha Hn]. by apply (next_adj s i y Hl) in Hn as (_ & ? & _); [|apply adj_in in Ha as [_ ?]].
Qed.

Lemma broken_successor s x y v : list_inv s -> own_inv s -> broken s x = Some v -> adj (chain s) x y -> lock s = Some y.
Proof.
  intros Hl Ho Hb Hxy. unfold holder in Hb. destruct (lock s) as [i|]; [|done]. pose proof (l_know _ Hl i) as Hk. f_equal.
  destruct (pcs s i) eqn:Hi; try done; cbn in Hb, Hk; case_bool_decide; simplify_eq;
    eapply (adj_succ _ _ _ _ (l_nodup _ Hl)); try exact Hxy; naive_solver.
Qed.

Lemma popping_waits s i e : own_inv s -> popping (pcs s i) = Some e -> cls (pcs s e) = Waiting /\ won s e = Some Pop /\ woken s e = false.
Proof.
  intros Ho Hp. apply (o_popper _ Ho) in Hp. pose proof (o_node _ Ho e) as Hn. rewrite Hp in Hn.
  destruct (cls (pcs s e)); cbn in Hn; try naive_solver; destruct Hn as [(_ & ? & _)|[(? & _ & ?)|(_ & ? & _)]]; done.
Qed.

(** The node that a thread takes from the front is not entering. *)
Lemma front_left s i e k :
  own_inv s -> pcs s i = HNext e k \/ (exists n, pcs s i = HSet e k n) \/ pcs s i = HCas e k \/ pcs s i = HSpin e k \/ pcs s i = HHead e k ->
  cls (pcs s e) <> Entering.
Proof.
  intros Ho Hi. pose proof (o_target _ Ho i) as Ht. pose proof (popping_waits s i e Ho) as Hp.
  destruct Hi as [Hi|[[n Hi]|[Hi|[Hi|Hi]]]]; rewrite Hi in Ht, Hp; destruct k; cbn in Ht, Hp;
    try (destruct Hp as [-> _]; done); bool_prop; subst e; by rewrite Hi.
Qed.

Lemma no_head_left s y : own_inv s -> list_inv s -> is_Some (no_head s) -> list.head (chain s) = Some y -> cls (pcs s y) <> Entering.
Proof.
  intros Ho Hl [v Hv] Hy. unfold holder in Hv. destruct (lock s) as [i|]; [|done]. pose proof (l_know _ Hl i) as Hk.
  destruct (pcs s i) eqn:Hi; try done; cbn in Hk; (assert (e = y) as -> by naive_solver); eapply (front_left s i y k Ho); tauto.
Qed.

(** * Pushing *)
Lemma own_enter s s' i c :
  own_inv s -> cls (pcs s i) = Fresh -> popping (pcs s i) = None -> locked (pcs s i) = false ->
  pcs s' = upd (pcs s) i c -> won s' = won s -> woken s' = woken s -> out s' = out s ->
  popper s' = popper s -> aborted s' = aborted s -> chain s' = chain s ++ [i] -> lock s' = lock s ->
  cls c = Entering -> popping c = None -> locked c = false -> target i c = true -> own_inv s'.
Proof.
  intros [Hlk Hn Hp Ho Ht Hc Hab] Hi Hpi Hli Epc Ew Er Eo Ep Ea Ech El Hcl Hpc Hlc Htg.
  pose proof (Hn i) as Hni. rewrite Hi in Hni.
  split; rewrite ?Ew, ?Er, ?Eo, ?Ep, ?Ea, ?Ech, ?El; try done; rewrite ?Epc.
  - apply tracks_same; [done|]. by rewrite Hlc, Hli.
  - intros x. at_fred x i; [by rewrite Hcl|apply Hn].
  - intros x j. at_fred j i; [rewrite Hpc, <- Hpi; apply Hp|apply Hp].
  - intros x j Hx. at_fred j i; [|by apply Ho]. apply Hp in Hx. congruence.
  - intros j. at_fred j i; [done|apply Ht].
  - intros x. rewrite elem_of_app, list_elem_of_singleton, Hc. at_fred x i.
    + rewrite Hcl, Hi. cbn in *. naive_solver.
    + naive_solver.
Qed.

Lemma dq_exch_ok s i t : inv s -> pcs s i = BExch t ->
  inv (with_tail (with_chain (at_pc s i (match tail s with None => BHead t | Some p => BPrev t p end)) (chain s ++ [i])) (Some i)).
Proof.
  intros [Ho Hl] Hi. set (c := match tail s with None => _ | Some _ => _ end). set (s' := with_tail _ _).
  assert (Hc : cls c = Entering /\ popping c = None /\ locked c = false /\ target i c = true /\ dirty c = false /\ is_removed c = false).
  { unfold c. by destruct (tail s). }
  destruct Hc as (Hcl & Hpc & Hlc & Htg & Hdc & Hrc).
  assert (Ho' : own_inv s') by (apply (own_enter s s' i c); by rewrite ?Hi).
  split; [done|].
  pose proof (o_node _ Ho i) as Hni. rewrite Hi in Hni. destruct Hni as (_ & Hpo & _ & _).
  destruct Hl as [Ht Hn Hx Hz Hp Hlink Hf Hh Hk Hfr].
  assert (Hin : i ∉ chain s) by (intros [Hq _]%(o_chain _ Ho); by rewrite Hi in Hq).
  assert (Hnx : next s i = None).
  { destruct (Hfr i Hin) as [?|Hd]; [done|]. by rewrite Hpo, Hi in Hd. }
  destruct (holders_same s s' i c Ho Ho' eq_refl) as (E1 & E2 & E3); [rewrite Hi; unfold c; by destruct (tail s)..|].
  assert (Hoff : forall x, x ∈ chain s -> i <> x) by (intros x ? ->; done).
  split; rewrite ?E3; subst s'; fields; try done.
  - by rewrite last_snoc.
  - apply NoDup_app. split_and!; [done| |apply NoDup_singleton]. intros x Hxc ->%list_elem_of_singleton. done.
  - intros x y [Hxy|[Hxy ->]]%adj_snoc.
    + pose proof (adj_in _ _ _ Hxy) as [_ Hy%Hoff]. rewrite upd_ne by done. rewrite E1. by apply Hx.
    + rewrite upd_eq. unfold c. rewrite Ht, Hxy. cbn. by apply Hz.
  - intros z. rewrite last_snoc. by intros [= <-].
  - intros x y [Hxy|[Hxy ->]]%adj_snoc Hy.
    + pose proof (adj_in _ _ _ Hxy) as [_ Hy'%Hoff]. rewrite E2. apply Hp; [done|]. by rewrite upd_ne in Hy.
    + rewrite upd_eq in Hy. unfold c in Hy. rewrite Ht, Hxy in Hy. naive_solver.
  - intros y u p. at_fred y i.
    + unfold c. destruct (tail s) as [q|] eqn:Eq; intros [?|?]; simplify_eq. apply adj_snoc. right. by rewrite <- Ht.
    + intros Hy. apply adj_snoc. left. by apply (Hlink y u p).
  - intros y u. at_fred y i.
    + unfold c. rewrite Ht. destruct (last (chain s)) as [q|] eqn:Eq; [done|]. intros _. by apply last_None in Eq as ->.
    + intros Hy%Hf. by destruct (chain s).
  - rewrite Hh. destruct (no_head s); [done|]. unfold published. destruct (chain s) as [|a q] eqn:E; cbn.
    + rewrite upd_eq. unfold c. by rewrite Ht.
    + rewrite upd_ne; [done|]. apply Hoff. by left.
  - intros j. at_fred j i; [by apply know_unlocked|]. apply (know_mono _ _ _ _ _ (next s)); [apply Hk| |done].
    intros ?%list_elem_of_singleton. congruence.
  - intros x Hxc. assert (x ∉ chain s /\ i <> x) as [Hxs Hne].
    { split; [intros ?; apply Hxc; apply elem_of_app; by left|intros ->; apply Hxc; apply elem_of_app; right; by left]. }
    rewrite (upd_ne _ i x) by done. destruct (Hfr x Hxs) as [?|Hd]; [by left|right]. destruct (popper s x) as [j|] eqn:Ej; [|done].
    at_fred j i; [|done]. by rewrite Hi in Hd.
Qed.

Ltac own_step Ho Hi :=
  match goal with |- own_inv ?s' => apply (own_quiet _ s' _ _ Ho eq_refl); try done; rewrite ?Hi; try done end.
Ltac keeps_lock Ho Hi := apply tracks_same; [apply (o_lock _ Ho)|by rewrite Hi].

(** Storing the head, the link to the predecessor and the link from it. *)
Lemma bhead_ok s i t : inv s -> pcs s i = BHead t -> inv (with_head (at_pc s i (BFunc t)) (Some i)).
Proof.
  intros [Ho Hl] Hi. set (s' := with_head _ _).
  assert (Ho' : own_inv s').
  { own_step Ho Hi; [keeps_lock Ho Hi|]. cbn. tauto. }
  split; [done|]. pose proof (l_first _ Hl i t Hi) as Hhd. pose proof (no_head_left s i Ho Hl) as Hnh.
  destruct Hl as [Ht Hn Hx Hz Hp Hlink Hf Hh Hk Hfr].
  destruct (holders_same s s' i (BFunc t) Ho Ho' eq_refl) as (E1 & E2 & E3); [by rewrite Hi..|].
  split; rewrite ?E3; subst s'; fields; try done.
  - intros x y Hxy. rewrite E1, (Hx x y Hxy). at_fred y i; [by rewrite Hi|done].
  - intros x y Hxy Hy. rewrite E2. apply Hp; [done|]. intros u p E. apply (Hy u p). at_fred y i; [congruence|done].
  - intros y u p. at_fred y i; [by intros [?|?]|apply Hlink].
  - intros y u. at_fred y i; [done|apply Hf].
  - destruct (no_head s) as [v|]; [exfalso; apply Hnh; [by eexists|done|by rewrite Hi]|].
    unfold published. rewrite Hhd. by rewrite upd_eq.
  - intros j. at_fred j i; [done|]. specialize (Hk j). destruct (pcs s j); try done. cbn in Hk |- *.
    rewrite Hh in Hk. unfold published in Hk. rewrite Hhd, Hi in Hk. by destruct (no_head s).
  - intros x Hxc. destruct (Hfr x Hxc) as [?|Hd]; [by left|right]. destruct (popper s x) as [j|]; [at_fred j i|at_fred x i]; try done; by rewrite Hi in Hd.
Qed.

Lemma bprev_ok s i t p : inv s -> pcs s i = BPrev t p -> inv (with_prev (at_pc s i (BLink t p)) i (Some p)).
Proof.
  intros [Ho Hl] Hi. set (s' := with_prev _ _ _).
  assert (Ho' : own_inv s') by (own_step Ho Hi; keeps_lock Ho Hi).
  split; [done|]. pose proof (l_link _ Hl i t p (or_introl Hi)) as Hpi.
  assert (Hmv : moved s i = None).
  { destruct (moved s i) eqn:E; [|done]. apply (moved_linked _ _ _ Ho Hl) in E. by rewrite Hi in E. }
  destruct Hl as [Ht Hn Hx Hz Hp Hlink Hf Hh Hk Hfr].
  destruct (holders_same s s' i (BLink t p) Ho Ho' eq_refl) as (E1 & E2 & E3); [by rewrite Hi..|].
  split; rewrite ?E3; subst s'; fields; try done.
  - intros x y Hxy. rewrite E1, (Hx x y Hxy). at_fred y i; [by rewrite Hi|done].
  - intros x y Hxy Hy. rewrite E2. at_fred y i; [|by apply Hp]. rewrite Hmv. cbn. by rewrite (adj_pred _ _ _ _ Hn Hxy Hpi).
  - intros y u q. at_fred y i; [|apply Hlink]. intros [?|?]; by simplify_eq.
  - intros y u. at_fred y i; [done|apply Hf].
  - rewrite published_same; [done|by rewrite Hi|done].
  - intros j. at_fred j i; [done|apply Hk].
  - intros x Hxc. destruct (Hfr x Hxc) as [?|Hd]; [by left|right]. destruct (popper s x) as [j|]; [at_fred j i|at_fred x i]; try done; by rewrite Hi in Hd.
Qed.

Lemma blink_ok s i t p : inv s -> pcs s i = BLink t p -> inv (with_next (at_pc s i (BFunc t)) p (Some i)).
Proof.
  intros [Ho Hl] Hi. set (s' := with_next _ _ _).
  assert (Ho' : own_inv s').
  { own_step Ho Hi; [keeps_lock Ho Hi|]. cbn. tauto. }
  split; [done|]. pose proof (l_link _ Hl i t p (or_intror Hi)) as Hpi. pose proof (adj_in _ _ _ Hpi) as [Hpc _].
  assert (Hbr : broken s p = None).
  { destruct (broken s p) eqn:E; [|done]. pose proof (broken_successor _ _ _ _ Hl Ho E Hpi) as Hlk.
    apply (o_lock _ Ho) in Hlk. by rewrite Hi in Hlk. }
  assert (Hnp : next s p = None) by (rewrite (l_next _ Hl p i Hpi); by rewrite Hi).
  destruct Hl as [Ht Hn Hx Hz Hp Hlink Hf Hh Hk Hfr].
  destruct (holders_same s s' i (BFunc t) Ho Ho' eq_refl) as (E1 & E2 & E3); [by rewrite Hi..|].
  split; rewrite ?E3; subst s'; fields; try done.
  - intros x y Hxy. rewrite E1. destruct (decide (p = x)) as [<-|Hne].
    + assert (y = i) as -> by (by eapply adj_succ). by rewrite !upd_eq, Hbr.
    + rewrite (upd_ne _ p x) by done. rewrite (Hx x y Hxy). at_fred y i; [|done]. destruct Hne. by apply (adj_pred _ _ _ _ Hn Hpi Hxy).
  - intros z Hlast. rewrite upd_ne; [by apply Hz|]. intros ->. by apply (adj_last _ _ _ Hn Hpi).
  - intros x y Hxy Hy. rewrite E2. apply Hp; [done|]. intros u q E. apply (Hy u q). at_fred y i; [congruence|done].
  - intros y u q. at_fred y i; [by intros [?|?]|apply Hlink].
  - intros y u. at_fred y i; [done|apply Hf].
  - rewrite published_same; [done|by rewrite Hi|done].
  - intros j. at_fred j i; [done|]. rewrite <- (app_nil_r (chain s)). apply (know_mono _ _ _ _ _ (next s)); [apply Hk|by intros ?%elem_of_nil|].
    intros x y Hxy. rewrite upd_ne; [done|]. intros ->. congruence.
  - intros x Hxc. rewrite (upd_ne _ p x) by (by intros ->). destruct (Hfr x Hxc) as [?|Hd]; [by left|right].
    destruct (popper s x) as [j|]; [at_fred j i|at_fred x i]; try done; by rewrite Hi in Hd.
Qed.

(** * Steps of the thread that has the lock *)
Lemma adj_cons_iff (a : nat) l x y : adj (a :: l) x y <-> (x = a /\ list.head l = Some y) \/ adj l x y.
Proof.
  change (a :: l) with ([a] ++ l). rewrite adj_app. split.
  - intros [(k & _ & Hk)|[[[= ->] ?]|?]]; [|by left|by right]. apply lookup_lt_Some in Hk. cbn in Hk. lia.
  - intros [[-> ?]|?]; [right; by left|by right; right].
Qed.

Lemma adj_cut (l1 : list nat) p l2 x y :
  adj (l1 ++ p :: l2) x y <-> adj (l1 ++ [p]) x y \/ (x = p /\ list.head l2 = Some y) \/ adj l2 x y.
Proof.
  change (p :: l2) with ([p] ++ l2). rewrite app_assoc, adj_app, last_snoc. f_equiv. f_equiv. split; intros [H1 H2]; by simplify_eq.
Qed.

Lemma adj_split (l : list nat) p i : adj l p i -> exists l1 l2, l = l1 ++ p :: i :: l2.
Proof.
  intros (k & Hp & Hi). exists (take k l), (drop (S (S k)) l).
  rewrite <- (take_drop k l) at 1. f_equal. rewrite (drop_S l p k Hp). f_equal. by rewrite (drop_S l i (S k) Hi).
Qed.

Lemma list_held s s' i c :
  list_inv s -> own_inv s -> own_inv s' -> locked (pcs s i) = true -> locked c = true ->
  pcs s' = upd (pcs s) i c -> popper s' = popper s -> cls (pcs s i) <> Entering -> cls c <> Entering ->
  tail s' = last (chain s') -> NoDup (chain s') ->
  (forall x y, adj (chain s') x y ->
     next s' x = if linking (pcs s y) then None else match next_hole c x with Some _ => None | None => Some y end) ->
  (forall z, last (chain s') = Some z -> next s' z = None) ->
  (forall x y, adj (chain s') x y -> (forall t p, pcs s y <> BPrev t p) -> prev s' y = Some (default x (prev_hole i c y))) ->
  (forall y t p, pcs s y = BPrev t p \/ pcs s y = BLink t p -> adj (chain s') p y) ->
  (forall y t, pcs s y = BHead t -> list.head (chain s') = Some y) ->
  head s' = match headless c with Some _ => None | None => published (pcs s) (chain s') end ->
  know i c (head s') (chain s') (next s') ->
  (forall x, x ∉ chain s' -> next s' x = None \/
     match popper s x with Some j => dirty (upd (pcs s) i c j) | None => is_removed (upd (pcs s) i c x) end = true) ->
  list_inv s'.
Proof.
  intros Hl Ho Ho' Hli Hlc Epc Epo Hi Hc Ht Hn Hx Hz Hp Hlink Hf Hh Hk Hfr.
  assert (Hh' : forall A (f : nat -> pc -> option A), holder f s' = f i c).
  { intros A f. rewrite (holder_at f s' i); [by rewrite Epc, upd_eq|apply (o_lock _ Ho')|by rewrite Epc, upd_eq]. }
  assert (Hne : forall y, cls (pcs s y) = Entering -> i <> y) by (intros y Hy ->; done).
  assert (Hpy : forall y, cls (pcs s' y) = Entering -> pcs s' y = pcs s y) by (intros y; rewrite Epc; by at_fred y i).
  assert (Hlk : forall y, linking (pcs s' y) = linking (pcs s y)).
  { intros y. rewrite Epc. at_fred y i; [|done]. by rewrite !unlinked. }
  split; rewrite ?Epo; try done.
  - intros x y Hxy. rewrite Hlk, Hh'. by apply Hx.
  - intros x y Hxy Hy. rewrite Hh'. apply Hp; [done|]. intros t p E. apply (Hy t p). rewrite Epc, upd_ne; [done|]. apply Hne. by rewrite E.
  - intros y t p Hy. apply (Hlink y t p). rewrite <- Hpy; [done|]. by destruct Hy as [-> | ->].
  - intros y t Hy. apply (Hf y t). rewrite <- Hpy; [done|]. by rewrite Hy.
  - rewrite Hh', Hh, Epc, published_same; [done|by intros t E; rewrite E in Hi|by intros t ->].
  - intros j. rewrite Epc. at_fred j i; [done|]. apply know_unlocked. destruct (locked (pcs s j)) eqn:Hj; [|done].
    by destruct (tracks_unique _ _ _ _ _ (o_lock _ Ho) Hli Hj).
  - intros x. rewrite Epc. apply Hfr.
Qed.

(** What [list_inv] says while [i] has the lock. *)
Lemma list_next s i x y :
  list_inv s -> own_inv s -> locked (pcs s i) = true -> adj (chain s) x y ->
  next s x = if linking (pcs s y) then None else match next_hole (pcs s i) x with Some _ => None | None => Some y end.
Proof. intros Hl Ho Hi Hxy. rewrite (l_next _ Hl x y Hxy). by rewrite (holder_at _ s i (o_lock _ Ho) Hi). Qed.
Lemma list_prev s i x y :
  list_inv s -> own_inv s -> locked (pcs s i) = true -> adj (chain s) x y -> (forall t p, pcs s y <> BPrev t p) ->
  prev s y = Some (default x (prev_hole i (pcs s i) y)).
Proof. intros Hl Ho Hi Hxy Hy. rewrite (l_prev _ Hl x y Hxy Hy). by rewrite (holder_at _ s i (o_lock _ Ho) Hi). Qed.
Lemma list_head s i :
  list_inv s -> own_inv s -> locked (pcs s i) = true ->
  head s = match headless (pcs s i) with Some _ => None | None => published (pcs s) (chain s) end.
Proof. intros Hl Ho Hi. rewrite (l_head _ Hl). by rewrite (holder_at _ s i (o_lock _ Ho) Hi). Qed.
Lemma unlinked_prev c : linking c = false -> forall t p, c <> BPrev t p.
Proof. by intros ? ? ? ->. Qed.

(** A node out of the chain stays out when the thread takes [e]. *)
Lemma free_held s i c e x :
  own_inv s -> (popping (pcs s i) = None \/ popping (pcs s i) = Some e) -> is_removed (pcs s i) = false -> x <> e ->
  match popper s x with Some j => dirty (pcs s j) | None => is_removed (pcs s x) end = true ->
  match popper s x with Some j => dirty (upd (pcs s) i c j) | None => is_removed (upd (pcs s) i c x) end = true.
Proof.
  intros Ho Hp Hr Hx. destruct (popper s x) as [j|] eqn:E.
  - at_fred j i; [|done]. apply (o_popper _ Ho) in E. destruct Hp; congruence.
  - at_fred x i; [congruence|done].
Qed.
(** The node that leaves may still have its link. *)
Lemma free_leaving s i c e k :
  own_inv s -> dirty c = true ->
  match k with
  | Pop => popping (pcs s i) = Some e
  | _ => e = i /\ cls (pcs s i) = Removing k /\ is_removed c = true
  end ->
  match popper s e with Some j => dirty (upd (pcs s) i c j) | None => is_removed (upd (pcs s) i c e) end = true.
Proof.
  intros Ho Hd Hk. destruct k.
  - apply (o_popper _ Ho) in Hk. by rewrite Hk, upd_eq.
  - destruct Hk as (-> & Hc & Hr). pose proof (o_node _ Ho i) as Hn. rewrite Hc in Hn. destruct Hn as (_ & -> & _). by rewrite upd_eq.
  - destruct Hk as (-> & Hc & Hr). pose proof (o_node _ Ho i) as Hn. rewrite Hc in Hn. destruct Hn as (_ & -> & _). by rewrite upd_eq.
Qed.

Ltac held Ho Hl i c :=
  match goal with |- list_inv ?s' => eapply (list_held _ s' i c Hl Ho); try done; fields end.
Ltac old_free Hl Ho Hi :=
  let x := fresh in let Hx := fresh in let Hd := fresh in
  intros x Hx; destruct (l_free _ Hl x Hx) as [?|Hd]; [by left|right];
  destruct (popper _ x) as [j|]; [at_fred j _|at_fred x _]; try done; rewrite Hi in Hd; try done.

Lemma in_queue_chain s i : own_inv s -> (exists k, cls (pcs s i) = Removing k) -> i ∈ chain s.
Proof.
  intros Ho [k Hi]. apply (o_chain _ Ho). pose proof (o_node _ Ho i) as Hn. rewrite Hi in *. cbn in *. naive_solver.
Qed.

Lemma hset_none_ok s i e k : inv s -> pcs s i = HSet e k None -> inv (with_head (at_pc s i (HCas e k)) None).
Proof.
  intros [Ho Hl] Hi. set (s' := with_head _ _). pose proof (o_target _ Ho i) as Ht. rewrite Hi in Ht.
  assert (Ho' : own_inv s') by (own_step Ho Hi; keeps_lock Ho Hi).
  assert (Hli : locked (pcs s i) = true) by (by rewrite Hi).
  pose proof (l_know _ Hl i) as Hk. rewrite Hi in Hk. destruct Hk as [Hk _].
  split; [done|]. apply (list_held s s' i (HCas e k) Hl Ho Ho'); try done.
  - rewrite Hi. by destruct k.
  - by destruct k.
  - apply (l_tail _ Hl).
  - apply (l_nodup _ Hl).
  - intros x y Hxy. pose proof (list_next _ _ _ _ Hl Ho Hli Hxy) as Hn. by rewrite Hi in Hn.
  - apply (l_last _ Hl).
  - intros x y Hxy Hy. pose proof (list_prev _ _ _ _ Hl Ho Hli Hxy Hy) as Hn. by rewrite Hi in Hn.
  - apply (l_link _ Hl).
  - apply (l_first _ Hl).
  - intros x Hx. destruct (l_free _ Hl x Hx) as [?|Hd]; [by left|right].
    destruct (popper s x) as [j|]; [at_fred j i|at_fred x i]; try done; rewrite Hi in Hd; done.
Qed.

Lemma iset_none_ok s i k p : inv s -> pcs s i = ISet k None p -> inv (with_next (at_pc s i (ICas k p)) p None).
Proof.
  intros [Ho Hl] Hi. set (s' := with_next _ _ _). pose proof (o_target _ Ho i) as Ht. rewrite Hi in Ht.
  assert (Ho' : own_inv s') by (own_step Ho Hi; keeps_lock Ho Hi).
  assert (Hli : locked (pcs s i) = true) by (by rewrite Hi).
  pose proof (l_know _ Hl i) as Hk. rewrite Hi in Hk. destruct Hk as [Hk _]. pose proof (adj_in _ _ _ Hk) as [Hp _].
  split; [done|]. apply (list_held s s' i (ICas k p) Hl Ho Ho'); try done; subst s'; fields.
  - by rewrite Hi.
  - apply (l_tail _ Hl).
  - apply (l_nodup _ Hl).
  - intros x y Hxy. pose proof (list_next _ _ _ _ Hl Ho Hli Hxy) as Hn. rewrite Hi in Hn. cbn. case_bool_decide as Hpx.
    + subst x. rewrite upd_eq. by destruct (linking (pcs s y)).
    + by rewrite upd_ne.
  - intros z Hz. destruct (decide (p = z)) as [->|]; [by rewrite upd_eq|]. rewrite upd_ne by done. by apply (l_last _ Hl).
  - intros x y Hxy Hy. pose proof (list_prev _ _ _ _ Hl Ho Hli Hxy Hy) as Hn. by rewrite Hi in Hn.
  - apply (l_link _ Hl).
  - apply (l_first _ Hl).
  - pose proof (list_head _ i Hl Ho Hli) as Hh. by rewrite Hi in Hh.
  - intros x Hx. rewrite (upd_ne (next s)) by (by intros ->). destruct (l_free _ Hl x Hx) as [?|Hd]; [by left|right].
    destruct (popper s x) as [j|]; [at_fred j i|at_fred x i]; try done; rewrite Hi in Hd; done.
Qed.

Lemma iback_ok s i k n p : inv s -> pcs s i = IBack k n p -> inv (with_prev (at_pc s i (Rel i k)) n (Some p)).
Proof.
  intros [Ho Hl] Hi. set (s' := with_prev _ _ _). pose proof (o_target _ Ho i) as Ht. rewrite Hi in Ht. cbn in Ht. bool_prop.
  assert (Hk0 : own k (Removed k) = Removed k /\ match k with Pop => Some i | _ => None end = None /\ target i (Rel i k) = true).
  { destruct k; [done|cbn; by rewrite bool_decide_eq_true_2..]. }
  destruct Hk0 as (Hk1 & Hk2 & Hk3).
  assert (Ho' : own_inv s') by (own_step Ho Hi; cbn [cls popping]; rewrite ?Hk1, ?Hk2; try done; keeps_lock Ho Hi).
  assert (Hli : locked (pcs s i) = true) by (by rewrite Hi).
  pose proof (l_know _ Hl i) as Hk. rewrite Hi in Hk. destruct Hk as [Hk Hnk].
  split; [done|]. apply (list_held s s' i (Rel i k) Hl Ho Ho'); try done; subst s'; fields.
  - by rewrite Hi.
  - cbn. by rewrite Hk1.
  - apply (l_tail _ Hl).
  - apply (l_nodup _ Hl).
  - intros x y Hxy. pose proof (list_next _ _ _ _ Hl Ho Hli Hxy) as Hn. by rewrite Hi in Hn.
  - apply (l_last _ Hl).
  - intros x y Hxy Hy. pose proof (list_prev _ _ _ _ Hl Ho Hli Hxy Hy) as Hn. rewrite Hi in Hn. cbn in *. case_bool_decide as Hny.
    + subst y. rewrite upd_eq. by rewrite (adj_pred _ _ _ _ (l_nodup _ Hl) Hxy Hk).
    + by rewrite upd_ne.
  - apply (l_link _ Hl).
  - apply (l_first _ Hl).
  - pose proof (list_head _ i Hl Ho Hli) as Hh. by rewrite Hi in Hh.
  - intros x Hx. destruct (l_free _ Hl x Hx) as [?|Hd]; [by left|right].
    destruct (popper s x) as [j|]; [at_fred j i|at_fred x i]; try done. unfold is_removed. cbn. by rewrite Hk1.
Qed.

Lemma iback2_ok s i k n p : inv s -> pcs s i = IBack2 k n p -> inv (with_prev (at_pc s i (ISet2 k n p)) n (Some p)).
Proof.
  intros [Ho Hl] Hi. set (s' := with_prev _ _ _).
  assert (Ho' : own_inv s') by (own_step Ho Hi; [keeps_lock Ho Hi|pose proof (o_target _ Ho i) as Ht; by rewrite Hi in Ht]).
  assert (Hli : locked (pcs s i) = true) by (by rewrite Hi).
  pose proof (l_know _ Hl i) as Hk. rewrite Hi in Hk.
  split; [done|]. apply (list_held s s' i (ISet2 k n p) Hl Ho Ho'); try done; subst s'; fields.
  - by rewrite Hi.
  - apply (l_tail _ Hl).
  - apply (l_nodup _ Hl).
  - intros x y Hxy. pose proof (list_next _ _ _ _ Hl Ho Hli Hxy) as Hn. by rewrite Hi in Hn.
  - apply (l_last _ Hl).
  - intros x y Hxy Hy. pose proof (list_prev _ _ _ _ Hl Ho Hli Hxy Hy) as Hn. rewrite Hi in Hn. cbn in *. case_bool_decide as Hny.
    + subst y. by rewrite upd_eq.
    + by rewrite upd_ne.
  - apply (l_link _ Hl).
  - apply (l_first _ Hl).
  - pose proof (list_head _ i Hl Ho Hli) as Hh. by rewrite Hi in Hh.
  - intros x Hx. destruct (l_free _ Hl x Hx) as [?|Hd]; [by left|right].
    destruct (popper s x) as [j|]; [at_fred j i|at_fred x i]; try done; rewrite Hi in Hd; done.
Qed.

(** The first node leaves. *)
Lemma drop_head_ok s s' i e k :
  inv s -> own_inv s' -> locked (pcs s i) = true -> list.head (chain s) = Some e -> cls (pcs s e) <> Entering ->
  (forall x, next_hole (pcs s i) x = None) -> (forall y, prev_hole i (pcs s i) y = None) ->
  match k with Pop => popping (pcs s i) = Some e | _ => e = i /\ popping (pcs s i) = None /\ cls (pcs s i) = Removing k end ->
  is_removed (pcs s i) = false -> cls (pcs s i) <> Entering ->
  pcs s' = upd (pcs s) i (Rel e k) -> popper s' = popper s -> next s' = next s -> prev s' = prev s ->
  chain s' = without e (chain s) -> head s' = next s e ->
  (chain s = [e] /\ tail s' = None \/ is_Some (next s e) /\ tail s' = tail s) ->
  list_inv s'.
Proof.
  intros [Ho Hl] Ho' Hli Hhd He Hnh Hph Hk Hrm Hent Epc Epo En Ep Ec Eh Et.
  destruct (chain s) as [|e0 q] eqn:Hch; [done|]. injection Hhd as ->.
  pose proof (l_nodup _ Hl) as Hnd. rewrite Hch in Hnd. apply NoDup_cons in Hnd as [Heq Hnd].
  assert (Eq : chain s' = q).
  { rewrite Ec. unfold without. rewrite filter_cons_False by (by intros []). apply filter_all. by intros x Hx ->. }
  assert (Hsub : forall x y, adj q x y -> adj (chain s) x y) by (intros x y ?; rewrite Hch; apply adj_cons_iff; by right).
  assert (Hnext : next s e = list.head q).
  { destruct q as [|y q]; [apply (l_last _ Hl); by rewrite Hch|]. destruct Et as [[? _]|[[z Hz] _]]; [done|].
    assert (adj (chain s) e z) as Hez by (eapply next_adj; [done|rewrite Hch; by left|done]).
    rewrite Hch in Hez. apply adj_cons_iff in Hez as [[_ ?]|Hez]; [congruence|]. apply adj_in in Hez as [? _]. done. }
  assert (Hlq : forall y, list.head q = Some y -> linking (pcs s y) = false).
  { intros y Hy. rewrite <- Hnext in Hy. eapply (next_adj s e y Hl); [rewrite Hch; by left|done]. }
  assert (Hlast : tail s' = last q).
  { destruct Et as [[[= ->] ->]|[[z Hz] ->]]; [done|]. rewrite (l_tail _ Hl), Hch. destruct q; [|done]. cbn in Hnext. congruence. }
  assert (Hrel : cls (Rel e k) <> Entering) by (by destruct k).
  apply (list_held s s' i (Rel e k) Hl Ho Ho'); try done; rewrite ?Eq, ?En, ?Ep.
  - done.
  - done.
  - intros x y Hxy. rewrite (list_next _ _ _ _ Hl Ho Hli (Hsub _ _ Hxy)). by rewrite Hnh.
  - intros z Hz. apply (l_last _ Hl). rewrite Hch. destruct q; [done|]. exact Hz.
  - intros x y Hxy Hy. rewrite (list_prev _ _ _ _ Hl Ho Hli (Hsub _ _ Hxy) Hy). by rewrite Hph.
  - intros y t p Hy. pose proof (l_link _ Hl y t p Hy) as Hpy. rewrite Hch in Hpy. apply adj_cons_iff in Hpy as [[-> Hy']|?]; [|done].
    apply Hlq in Hy'. by destruct Hy as [Hy|Hy]; rewrite Hy in Hy'.
  - intros y t Hy. pose proof (l_first _ Hl y t Hy) as Hf. rewrite Hch in Hf. injection Hf as ->. by rewrite Hy in He.
  - cbn. rewrite Eh, Hnext. unfold published. destruct (list.head q) as [y|] eqn:E; [|done]. destruct (pcs s y) eqn:Hy; try done.
    apply (l_first _ Hl) in Hy. rewrite Hch in Hy. injection Hy as ->. destruct q; simplify_eq/=. exfalso. apply Heq. by left.
  - intros x Hx. destruct (decide (x = e)) as [->|Hne].
    + right. apply (free_leaving s i _ e k Ho); [done|]. destruct k; naive_solver.
    + destruct (l_free _ Hl x) as [?|Hd]; [rewrite Hch; by intros [?|?]%elem_of_cons|by left|right].
      apply (free_held s i _ e x Ho); try done. destruct k; naive_solver.
Qed.

(** A node inside leaves. *)
Lemma drop_internal_ok s s' i k p c l1 l2 :
  inv s -> own_inv s' -> locked (pcs s i) = true -> chain s = l1 ++ p :: i :: l2 ->
  k <> Pop -> cls (pcs s i) = Removing k -> popping (pcs s i) = None -> headless (pcs s i) = None ->
  locked c = true -> cls c = Removed k -> dirty c = true -> headless c = None -> (forall x, next_hole c x = None) ->
  (forall x, x <> p -> next_hole (pcs s i) x = None) ->
  (forall y, list.head l2 <> Some y -> prev_hole i c y = None /\ prev_hole i (pcs s i) y = None) ->
  pcs s' = upd (pcs s) i c -> popper s' = popper s -> chain s' = without i (chain s) -> head s' = head s -> prev s' = prev s ->
  next s' p = list.head l2 -> (forall x, x <> p -> next s' x = next s x) -> next s i = list.head l2 ->
  tail s' = last (p :: l2) ->
  (forall y, list.head l2 = Some y -> prev s y = Some (default p (prev_hole i c y))) ->
  know i c (head s') (l1 ++ p :: l2) (next s') ->
  list_inv s'.
Proof.
  intros [Ho Hl] Ho' Hli Hch HkP Hci Hpi Hhi Hlc Hcc Hdc Hhc Hnc Hni Hpn Epc Epo Ec Eh Ep Enp Enx Eni Et Epv Hk.
  pose proof (l_nodup _ Hl) as Hnd. rewrite Hch in Hnd. apply NoDup_app in Hnd as (Hn1 & Hn12 & Hn2).
  apply NoDup_cons in Hn2 as [Hp2 Hn2]. apply NoDup_cons in Hn2 as [Hi2 Hn2].
  assert (Hi1 : i ∉ l1) by (intros Hin; apply (Hn12 i Hin); right; by left).
  assert (Hpi' : p <> i) by (intros ->; apply Hp2; by left).
  assert (Eq : chain s' = l1 ++ p :: l2).
  { rewrite Ec, Hch. unfold without. rewrite filter_app, filter_cons_True by done. rewrite filter_cons_False by (by intros []).
    rewrite !filter_all; [done|by intros x Hx ->|by intros x Hx ->]. }
  assert (Hold : forall x y, adj (chain s) x y <-> adj (l1 ++ [p]) x y \/ (x = p /\ y = i) \/ (x = i /\ list.head l2 = Some y) \/ adj l2 x y).
  { intros x y. rewrite Hch, adj_cut, adj_cons_iff. cbn. naive_solver. }
  assert (Hin1 : forall x y, adj (l1 ++ [p]) x y -> x <> p /\ list.head l2 <> Some y).
  { intros x y Hxy. split.
    - intros ->. eapply (adj_last (l1 ++ [p])); [|exact Hxy|by rewrite last_snoc]. apply NoDup_app. split_and!; [done| |apply NoDup_singleton].
      intros z Hz ->%list_elem_of_singleton. apply (Hn12 p Hz). by left.
    - intros Hy. apply adj_in in Hxy as [_ Hy']. destruct l2 as [|y' l2]; [done|]. injection Hy as ->.
      apply elem_of_app in Hy' as [Hy'|Hy'%list_elem_of_singleton]; [apply (Hn12 y Hy'); right; right; by left|subst; apply Hp2; right; by left]. }
  assert (Hin2 : forall x y, adj l2 x y -> x <> p /\ list.head l2 <> Some y).
  { intros x y Hxy. split; [intros ->; apply adj_in in Hxy as [? _]; apply Hp2; by right|]. by apply (adj_head l2 x y). }
  assert (Hlq : forall y, list.head l2 = Some y -> linking (pcs s y) = false).
  { intros y Hy. rewrite <- Eni in Hy. eapply (next_adj s i y Hl); [|done]. rewrite Hch. apply elem_of_app. right. right. by left. }
  apply (list_held s s' i c Hl Ho Ho'); try done; rewrite ?Eq; try (by rewrite ?Hci, ?Hcc).
  - rewrite Et, last_app. by destruct (last (p :: l2)) eqn:E; [|apply last_None in E].
  - apply NoDup_app. split_and!; [done| |apply NoDup_cons; split; [|done]].
    + intros x Hx Hx'. apply (Hn12 x Hx). apply elem_of_cons in Hx' as [->|?]; [by left|by right; right].
    + intros ?. apply Hp2. by right.
  - intros x y [Hxy|[[-> Hy]|Hxy]]%adj_cut; rewrite Hnc.
    + rewrite Enx by (by apply (Hin1 x y)). rewrite (list_next s i x y Hl Ho Hli) by (apply Hold; by left). by rewrite Hni by (by apply (Hin1 x y)).
    + rewrite Enp, Hy. by rewrite Hlq.
    + rewrite Enx by (by apply (Hin2 x y)). rewrite (list_next s i x y Hl Ho Hli) by (apply Hold; tauto). by rewrite Hni by (by apply (Hin2 x y)).
  - intros z Hz. rewrite last_app in Hz. destruct l2 as [|y l2]; [cbn in Hz; simplify_eq; done|].
    change (last (p :: y :: l2)) with (last (y :: l2)) in Hz. destruct (last (y :: l2)) as [z'|] eqn:E; [|by apply last_None in E].
    injection Hz as ->. rewrite Enx; [apply (l_last _ Hl); rewrite Hch, last_app|].
    + change (last (p :: i :: y :: l2)) with (last (y :: l2)). by rewrite E.
    + intros ->. apply Hp2. right. by apply last_Some_elem_of.
  - rewrite Ep. intros x y [Hxy|[[-> Hy]|Hxy]]%adj_cut Hpy.
    + destruct (Hin1 x y Hxy) as [_ Hy]. destruct (Hpn y Hy) as [-> Hpi2].
      rewrite (list_prev s i x y Hl Ho Hli) by (done || (apply Hold; by left)). by rewrite Hpi2.
    + by apply Epv.
    + destruct (Hin2 x y Hxy) as [_ Hy]. destruct (Hpn y Hy) as [-> Hpi2].
      rewrite (list_prev s i x y Hl Ho Hli) by (done || (apply Hold; tauto)). by rewrite Hpi2.
  - intros y t q Hy. pose proof (l_link _ Hl y t q Hy) as Hqy. apply Hold in Hqy as [?|[[-> ->]|[[-> Hy']|?]]]; apply adj_cut; [by left| | |tauto].
    + destruct Hy as [Hy|Hy]; by rewrite Hy in Hci.
    + apply Hlq in Hy'. by destruct Hy as [Hy|Hy]; rewrite Hy in Hy'.
  - intros y t Hy. pose proof (l_first _ Hl y t Hy) as Hf. rewrite Hch in Hf. destruct l1; [|done]. done.
  - rewrite Hhc, Eh, (list_head _ i Hl Ho Hli), Hhi, Hch. unfold published. by destruct l1.
  - intros x Hx. destruct (decide (x = i)) as [->|Hne].
    + right. apply (free_leaving s i c i k Ho); [done|].
      unfold is_removed. rewrite Hcc. by destruct k.
    + destruct (l_free _ Hl x) as [?|Hd].
      * intros Hin. apply Hx. rewrite Hch in Hin. apply elem_of_app. apply elem_of_app in Hin as [?|Hin]; [by left|right].
        apply elem_of_cons in Hin as [->|[?|?]%elem_of_cons]; [by left|done|by right].
      * left. rewrite Enx; [done|]. intros ->. apply Hx. apply elem_of_app. right. by left.
      * right. apply (free_held s i c i x Ho); try done; [by left|]. unfold is_removed. by rewrite Hci.
Qed.

(** [s'] is [s] without the node [e], its thread at [c]. *)
Definition left_state (s s' : state) (i : nat) (c : pc) (e : nat) (k : kind) : Prop :=
  pcs s' = upd (pcs s) i c /\ won s' = won s /\ woken s' = woken s /\
  out s' = (match k with Pop => upd (out s) e true | _ => out s end) /\
  popper s' = popper s /\ aborted s' = aborted s /\ chain s' = without e (chain s) /\ lock s' = lock s.

Lemma take_head_ok s s' i e k :
  inv s -> (exists n, pcs s i = HSet e k n) \/ pcs s i = HCas e k \/ pcs s i = HHead e k ->
  left_state s s' i (Rel e k) e k -> next s' = next s -> prev s' = prev s -> head s' = next s e ->
  (chain s = [e] /\ tail s' = None \/ is_Some (next s e) /\ tail s' = tail s) -> inv s'.
Proof.
  intros [Ho Hl] Hi (Epc & Ew & Er & Eo & Epo & Ea & Ec & El) En Ep Eh Et.
  pose proof (o_target _ Ho i) as Htg. pose proof (l_know _ Hl i) as Hk.
  assert (Hent : cls (pcs s e) <> Entering) by (apply (front_left s i e k Ho); naive_solver).
  assert (Hf : locked (pcs s i) = true /\ list.head (chain s) = Some e /\ (forall x, next_hole (pcs s i) x = None) /\
            (forall y, prev_hole i (pcs s i) y = None) /\ target i (Rel e k) = true /\ is_removed (pcs s i) = false /\
            cls (pcs s i) <> Entering /\
            match k with Pop => popping (pcs s i) = Some e /\ cls (pcs s i) = Off | _ => e = i /\ popping (pcs s i) = None /\ cls (pcs s i) = Removing k end).
  { destruct Hi as [[n Hi]|[Hi|Hi]]; rewrite Hi in *; destruct k; cbn in Htg, Hk |- *; try apply bool_decide_eq_true in Htg; subst;
      (split_and!; try done; try tauto; try (by rewrite bool_decide_eq_true_2)). }
  destruct Hf as (Hli & Hhd & Hnh & Hph & Htg' & Hrm & Hni & Hkk).
  assert (Ho' : own_inv s').
  { apply (own_leave s s' i (Rel e k) e k Ho); try done. destruct k; naive_solver. }
  split; [done|]. apply (drop_head_ok s s' i e k); try done. destruct k; naive_solver.
Qed.

Lemma take_internal_ok s s' i k p c l2 :
  inv s -> k <> Pop -> pcs s i = ISet k (list.head l2) p \/ (pcs s i = ICas k p /\ l2 = []) \/ (exists n, pcs s i = ISet2 k n p) ->
  (exists l1, chain s = l1 ++ p :: i :: l2) -> left_state s s' i c i k ->
  c = Rel i k \/ (exists n, c = IBack k n p /\ list.head l2 = Some n) ->
  head s' = head s -> prev s' = prev s -> next s' p = list.head l2 -> (forall x, x <> p -> next s' x = next s x) ->
  next s i = list.head l2 -> tail s' = last (p :: l2) ->
  (forall y, list.head l2 = Some y -> prev s y = Some (default p (prev_hole i c y))) ->
  (forall n, pcs s i = ISet2 k n p -> list.head l2 = Some n) ->
  inv s'.
Proof.
  intros [Ho Hl] HkP Hi [l1 Hch] (Epc & Ew & Er & Eo & Epo & Ea & Ec & El) Hc Eh Ep Enp Enx Eni Et Epv Hn2.
  assert (Hf : locked (pcs s i) = true /\ cls (pcs s i) = Removing k /\ popping (pcs s i) = None /\ headless (pcs s i) = None /\
            (forall x, x <> p -> next_hole (pcs s i) x = None) /\ (forall y, list.head l2 <> Some y -> prev_hole i (pcs s i) y = None)).
  { destruct Hi as [Hi|[[Hi ->]|[n Hi]]]; pose proof (fun m => Hn2 m) as Hn3; rewrite Hi in *; split_and!; try done; cbn; intros x Hx; case_bool_decide; try congruence.
    subst x. by rewrite (Hn3 n eq_refl) in Hx. }
  assert (Hg : locked c = true /\ cls c = Removed k /\ popping c = None /\ dirty c = true /\ headless c = None /\ target i c = true /\
            (forall x, next_hole c x = None) /\ (forall y, list.head l2 <> Some y -> prev_hole i c y = None)).
  { destruct Hc as [->|[n [-> Hn]]]; destruct k; try done; cbn; split_and!; try done; try (by apply bool_decide_eq_true_2);
      intros y Hy; case_bool_decide; congruence. }
  destruct Hf as (Hli & Hcl & Hpo & Hhl & Hnh & Hph). destruct Hg as (Hlc & Hcc & Hpc & Hdc & Hhc & Htg & Hnc & Hpn).
  assert (Ho' : own_inv s').
  { apply (own_leave s s' i c i k Ho); try done; [congruence|]. destruct k; naive_solver. }
  split; [done|]. apply (drop_internal_ok s s' i k p c l1 l2); try done.
  - by split; [apply Hpn|apply Hph].
  - destruct Hc as [->|[n [-> Hn]]]; [done|]. cbn. rewrite Enp. split; [|done]. apply adj_cut. right. left. done.
Qed.

(** * The races *)
Lemma checked_waits s i e :
  inv s -> pcs s i = QCheck e -> e ∈ chain s /\ list.head (chain s) = Some e /\ (won s e = None -> cls (pcs s e) = Waiting /\ popper s e = None /\ woken s e = false /\ out s e = false).
Proof.
  intros [Ho Hl] Hi. pose proof (l_know _ Hl i) as Hk. rewrite Hi in Hk. cbn in Hk.
  pose proof (list_head s i Hl Ho) as Hh. rewrite Hi in Hh. specialize (Hh eq_refl). cbn in Hh. rewrite Hk in Hh.
  unfold published in Hh. destruct (list.head (chain s)) as [y|] eqn:Hhd; [|done].
  assert (y = e) as -> by (destruct (pcs s y); congruence).
  assert (Hin : e ∈ chain s) by (destruct (chain s); [done|]; injection Hhd as ->; by left). split_and!; [done|done|].
  intros Hw. pose proof (proj1 (o_chain _ Ho e) Hin) as [Hq _]. pose proof (o_node _ Ho e) as Hn. rewrite Hw in Hn.
  assert (cls (pcs s e) <> Entering) as Hent.
  { intros Hc. pose proof (fun t p => l_link _ Hl e t p) as Hlk. destruct (pcs s e) eqn:He; try done.
    - destruct (adj_head _ p e (l_nodup _ Hl)); [|done]. apply (Hlk timed). by left.
    - destruct (adj_head _ p e (l_nodup _ Hl)); [|done]. apply (Hlk timed). by right.
    - by destruct k.
    - by destruct k.
    - by destruct k.
    - by destruct k.
    - by destruct k.
    - by destruct k.
    - by destruct k. }
  destruct (cls (pcs s e)); try done; naive_solver.
Qed.

Lemma qcheck_ok s i e :
  inv s -> pcs s i = QCheck e -> won s e = None ->
  inv (with_popper (with_won (at_pc s i (HNext e Pop)) e (Some Pop)) e (Some i)).
Proof.
  intros [Ho Hl] Hi Hw. destruct (checked_waits s i e (conj Ho Hl) Hi) as (Hin & Hhd & Hwt). destruct (Hwt Hw) as (Hc & Hp & Hr & Hout).
  assert (Hie : i <> e) by (intros ->; by rewrite Hi in Hc). set (s' := with_popper _ _ _).
  assert (Ho' : own_inv s').
  { destruct Ho as [Hlk Hn Hpo Ho Ht Hch Hab]. split; subst s'; fields; try done.
    - apply tracks_same; [done|by rewrite Hi].
    - intros x. destruct (decide (e = x)) as [<-|Hne].
      + rewrite !upd_eq, upd_ne by done. rewrite Hc, Hr. right. left. done.
      + rewrite !(upd_ne _ e x) by done. at_fred x i; [|apply Hn]. specialize (Hn i). rewrite Hi in Hn. done.
    - intros x j. destruct (decide (e = x)) as [<-|Hne].
      + rewrite upd_eq. at_fred j i; [done|]. rewrite <- Hpo, Hp. naive_solver.
      + rewrite (upd_ne _ e x) by done. at_fred j i; [|apply Hpo]. rewrite Hpo, Hi. cbn. naive_solver.
    - intros x j. destruct (decide (e = x)) as [<-|Hne].
      + rewrite upd_eq. intros [= <-]. by rewrite upd_eq.
      + rewrite (upd_ne _ e x) by done. intros Hx. rewrite (Ho x j Hx). at_fred j i; [|done]. by rewrite Hi.
    - intros j. at_fred j i; [done|apply Ht].
    - intros x. rewrite Hch. at_fred x i; [by rewrite Hi|done]. }
  split; [done|]. apply (list_quiet s s' i (HNext e Pop) Hl Ho Ho'); try done; try (by rewrite Hi); try (intros; by rewrite Hi).
  intros x Hx [?|Hd]; [by left|right]. subst s'. fields. rewrite (upd_ne _ e x) by (by intros ->).
  destruct (popper s x) as [j|] eqn:E; [at_fred j i|at_fred x i]; try done; by rewrite Hi in Hd.
Qed.

Lemma qresume_ok s i e :
  inv s -> pcs s i = QResume e -> inv (with_popper (with_woken (at_pc s i Idle) e true) e None).
Proof.
  intros [Ho Hl] Hi. assert (Hp : popper s e = Some i) by (apply (o_popper _ Ho); by rewrite Hi).
  destruct (popping_waits s i e Ho) as (Hc & Hw & Hr); [by rewrite Hi|]. pose proof (o_out _ Ho e i Hp) as Hout. rewrite Hi in Hout.
  assert (Hie : i <> e) by (intros ->; by rewrite Hi in Hc). set (s' := with_popper _ _ _).
  assert (Ho' : own_inv s').
  { destruct Ho as [Hlk Hn Hpo Ho Ht Hch Hab]. split; subst s'; fields; try done.
    - apply tracks_same; [done|by rewrite Hi].
    - intros x. destruct (decide (e = x)) as [<-|Hne].
      + rewrite !upd_eq, upd_ne by done. rewrite Hc, Hw, Hout. right. right. done.
      + rewrite !(upd_ne _ e x) by done. at_fred x i; [|apply Hn]. specialize (Hn i). rewrite Hi in Hn. done.
    - intros x j. destruct (decide (e = x)) as [<-|Hne].
      + rewrite upd_eq. at_fred j i; [done|]. rewrite <- Hpo, Hp. naive_solver.
      + rewrite (upd_ne _ e x) by done. at_fred j i; [|apply Hpo]. rewrite Hpo, Hi. cbn. naive_solver.
    - intros x j. destruct (decide (e = x)) as [<-|Hne]; [by rewrite upd_eq|].
      rewrite (upd_ne _ e x) by done. intros Hx. rewrite (Ho x j Hx). at_fred j i; [|done]. apply Hpo in Hx. rewrite Hi in Hx. cbn in Hx. congruence.
    - intros j. at_fred j i; [done|apply Ht].
    - intros x. rewrite Hch. at_fred x i; [by rewrite Hi|done]. }
  split; [done|]. apply (list_quiet s s' i Idle Hl Ho Ho'); try done; try (by rewrite Hi); try (intros; by rewrite Hi).
  intros x Hx [?|Hd]; [by left|]. subst s'. fields. destruct (decide (e = x)) as [<-|Hne].
  - rewrite Hp, Hi in Hd. done.
  - right. rewrite (upd_ne _ e x) by done. destruct (popper s x) as [j|] eqn:E; [at_fred j i|at_fred x i]; try done; by rewrite Hi in Hd.
Qed.

(** A fred that was resumed runs again. *)
Lemma dq_wake_ok s i t :
  inv s -> pcs s i = BWait t -> woken s i = true ->
  inv (with_out (with_woken (with_ret (at_pc s i Idle) i (Some true)) i false) i false).
Proof.
  intros [Ho Hl] Hi Hw. pose proof (o_node _ Ho i) as Hni. rewrite Hi, Hw in Hni.
  destruct Hni as [(_ & _ & ? & _)|[(_ & _ & ?)|(Hwon & Hp & _ & Hout)]]; [done|done|]. set (s' := with_out _ _ _).
  assert (Ho' : own_inv s').
  { destruct Ho as [Hlk Hn Hpo Ho Ht Hch Hab]. split; subst s'; fields; try done.
    - apply tracks_same; [done|by rewrite Hi].
    - intros x. destruct (decide (i = x)) as [<-|Hne]; [by rewrite !upd_eq, Hp|]. by rewrite !upd_ne.
    - intros x j. at_fred j i; [|apply Hpo]. rewrite Hpo, Hi. done.
    - intros x j Hx. rewrite (upd_ne (out s) i x) by (intros ->; congruence). rewrite (Ho x j Hx). at_fred j i; [|done].
      apply Hpo in Hx. by rewrite Hi in Hx.
    - intros j. at_fred j i; [done|apply Ht].
    - intros x. rewrite Hch. destruct (decide (i = x)) as [<-|Hne]; [rewrite !upd_eq, Hi, Hout|by rewrite !upd_ne]. naive_solver. }
  split; [done|]. apply (list_quiet' s s' i Idle Hl Ho Ho'); try done; try (by rewrite Hi); intros; by rewrite Hi.
Qed.

(** [prepareRace]; the link of a node that is not in use is clear. *)
Lemma dq_block_ok s i tm : inv s -> pcs s i = Idle -> inv (block s i tm).
Proof.
  intros [Ho Hl] Hi. pose proof (o_node _ Ho i) as Hni. rewrite Hi in Hni. destruct Hni as (Hp & Hr & Hout).
  assert (Hin : i ∉ chain s) by (intros [Hq _]%(o_chain _ Ho); by rewrite Hi in Hq).
  assert (Hnx : next s i = None).
  { destruct (l_free _ Hl i Hin) as [?|Hd]; [done|]. by rewrite Hp, Hi in Hd. }
  assert (Hb : forall t, inv (at_pc (with_ret (with_won s i None) i None) i (BExch t))).
  { intros t. set (s' := at_pc _ _ _).
    assert (Ho' : own_inv s').
    { destruct Ho as [Hlk Hn Hpo Ho Ht Hch Hab]. split; subst s'; fields; try done.
      - apply tracks_same; [done|by rewrite Hi].
      - intros x. destruct (decide (i = x)) as [<-|Hne]; [by rewrite !upd_eq|by rewrite !upd_ne].
      - intros x j. at_fred j i; [|apply Hpo]. rewrite Hpo, Hi. done.
      - intros x j Hx. rewrite (Ho x j Hx). at_fred j i; [by rewrite Hi|done].
      - intros j. at_fred j i; [done|apply Ht].
      - intros x. rewrite Hch. at_fred x i; [by rewrite Hi|done]. }
    split; [done|]. apply (list_quiet' s s' i (BExch t) Hl Ho Ho'); try done; try (by rewrite Hi); intros; by rewrite Hi. }
  unfold block. destruct tm as [|[]]; cbn -[at_pc]; rewrite ?Hnx; try apply Hb.
  split; [by destruct Ho; split|by destruct Hl; split].
Qed.

Ltac quiet_step Ho Hl Hi :=
  match goal with
  | |- inv ?s' =>
      let Ho' := fresh "Ho'" in
      assert (Ho' : own_inv s');
      [own_step Ho Hi|split; [exact Ho'|eapply (list_quiet' _ s' _ _ Hl Ho Ho' eq_refl); try done; try (by rewrite Hi); try (intros; by rewrite Hi)]]
  end.

Lemma lock_ok s i c c' :
  inv s -> pcs s i = c -> lock s = None ->
  (exists k, c = RLock k /\ c' = RTest k) \/ c = QLock /\ c' = QLoad -> inv (with_lock (at_pc s i c') (Some i)).
Proof.
  intros [Ho Hl] Hi Hlk Hc. pose proof (o_target _ Ho i) as Ht. rewrite Hi in Ht.
  assert (Hlk' : locked c' = true -> tracks (Some i) locked (upd (pcs s) i c')) by (intros; apply tracks_gain; [rewrite <- Hlk; apply (o_lock _ Ho)|done]).
  destruct Hc as [(k & -> & ->)|[-> ->]]; quiet_step Ho Hl Hi; by apply Hlk'.
Qed.

Lemma unlock_ok s i c c' :
  inv s -> pcs s i = c -> (exists e k, c = Rel e k /\ c' = Clr e k) \/ c = QFail /\ c' = Idle -> inv (with_lock (at_pc s i c') None).
Proof.
  intros [Ho Hl] Hi Hc. pose proof (o_target _ Ho i) as Ht. rewrite Hi in Ht.
  assert (Hlk' : locked c = true -> locked c' = false -> tracks None locked (upd (pcs s) i c')).
  { intros H1 H2. pose proof (o_lock _ Ho) as Hlk. rewrite (proj2 (Hlk i)) in Hlk by (by rewrite Hi). by apply (tracks_lose _ _ i). }
  destruct Hc as [(e & k & -> & ->)|[-> ->]]; quiet_step Ho Hl Hi; try (by apply Hlk'); rewrite ?Hi; by destruct k.
Qed.

(** The node is released. *)
Lemma clear_link_ok s i e k c r :
  inv s -> pcs s i = Clr e k -> c = (match k with Pop => QResume e | _ => Idle end) ->
  inv (with_next (match r with Some b => with_ret (at_pc s i c) i (Some b) | None => at_pc s i c end) e None).
Proof.
  intros [Ho Hl] Hi ->. pose proof (o_target _ Ho i) as Ht. rewrite Hi in Ht. set (c := match k with Pop => _ | _ => _ end). set (s' := with_next _ _ _).
  assert (Epc : pcs s' = upd (pcs s) i c) by (by destruct r).
  assert (Ho' : own_inv s').
  { apply (own_quiet s s' i c Ho); try (by destruct r).
    - subst s'. destruct r; fields; (apply tracks_same; [apply (o_lock _ Ho)|rewrite Hi; by destruct k]).
    - intros w p b o. rewrite Hi. unfold c. destruct k; cbn; naive_solver.
    - rewrite Hi. unfold c. by destruct k.
    - rewrite Hi. unfold c. by destruct k.
    - rewrite Hi. unfold c. by destruct k.
    - unfold c. by destruct k. }
  assert (Hec : e ∉ chain s).
  { intros [Hq Hout]%(o_chain _ Ho). destruct k; cbn in Ht.
    - assert (Hp : popper s e = Some i) by (apply (o_popper _ Ho); by rewrite Hi). apply (o_out _ Ho) in Hp. rewrite Hi in Hp. cbn in Hp. congruence.
    - bool_prop. subst e. by rewrite Hi in Hq.
    - bool_prop. subst e. by rewrite Hi in Hq. }
  split; [done|]. destruct (holders_same s s' i c Ho Ho' Epc) as (E1 & E2 & E3); [rewrite Hi; unfold c; by destruct k..|].
  pose proof (unlinked c) as Hcl. assert (Hcn : cls c <> Entering) by (unfold c; by destruct k).
  assert (Hin : cls (pcs s i) <> Entering) by (rewrite Hi; by destruct k).
  assert (Hsame : forall y, cls (pcs s' y) = Entering -> pcs s' y = pcs s y) by (intros y; rewrite Epc; by at_fred y i).
  assert (Hlk : forall y, linking (pcs s' y) = linking (pcs s y)).
  { intros y. rewrite Epc. at_fred y i; [|done]. by rewrite !unlinked. }
  assert (Ech : chain s' = chain s) by (by destruct r). assert (En : next s' = upd (next s) e None) by (by destruct r).
  assert (Hnx : forall x, x ∈ chain s -> upd (next s) e None x = next s x) by (intros x Hx; apply upd_ne; by intros ->).
  destruct Hl as [Hta Hn Hx Hz Hp Hlink Hf Hh Hk Hfr].
  split; rewrite ?Ech, ?En; try done.
  - by destruct r.
  - intros x y Hxy. rewrite Hlk, E1, Hnx by (by apply adj_in in Hxy as [? _]). by apply Hx.
  - intros z Hlast. rewrite Hnx by (by apply last_Some_elem_of). by apply Hz.
  - intros x y Hxy Hy. rewrite E2. replace (prev s') with (prev s) by (by destruct r). apply Hp; [done|].
    intros t p E. apply (Hy t p). rewrite Epc, upd_ne; [done|]. intros ->. by rewrite E in Hin.
  - intros y t p Hy. apply (Hlink y t p). rewrite <- Hsame; [done|]. by destruct Hy as [-> | ->].
  - intros y t Hy. apply (Hf y t). rewrite <- Hsame; [done|]. by rewrite Hy.
  - rewrite E3, Epc, published_same; [by destruct r|by intros t E; rewrite E in Hin|by intros t E; rewrite E in Hcn].
  - intros j. rewrite Epc. replace (head s') with (head s) by (by destruct r). at_fred j i; [unfold c; by destruct k|].
    apply (know_frame _ _ _ _ (next s)); [apply Hk|done|]. intros (k' & n' & Hj).
    apply (in_queue_chain _ _ Ho). exists k'. by rewrite Hj.
  - intros x Hxc. destruct (decide (e = x)) as [<-|Hne]; [left; apply upd_eq|]. rewrite (upd_ne (next s)) by done.
    replace (popper s') with (popper s) by (by destruct r). rewrite Epc.
    destruct (Hfr x Hxc) as [?|Hd]; [by left|right]. destruct (popper s x) as [j|] eqn:Ej.
    + at_fred j i; [|done]. apply (o_popper _ Ho) in Ej. rewrite Hi in Ej. destruct k; cbn in Ej; congruence.
    + at_fred x i; [|done]. rewrite Hi in Hd. unfold is_removed in Hd. destruct k; cbn in Hd, Ht; [done|bool_prop; congruence|bool_prop; congruence].
Qed.

Ltac by_kind Hi k := rewrite ?Hi; destruct k; done.
Ltac settle Ho Hi k :=
  try (keeps_lock Ho Hi); try by_kind Hi k; try (let Ht := fresh in pose proof (o_target _ Ho) as Ht; match type of Hi with pcs _ ?j = _ => specialize (Ht j) end; rewrite Hi in Ht; exact Ht).

(** The fred gives up: its node stays in the queue for the removal. *)
Lemma claim_ok s i k :
  inv s -> k <> Pop -> won s i = None -> pcs s i = BRace \/ (exists t, pcs s i = BWait t) ->
  inv (with_won (at_pc s i (RLock k)) i (Some k)).
Proof.
  intros [Ho Hl] Hk Hw Hi. set (s' := with_won _ _ _).
  assert (Hf : cls (pcs s i) = Waiting /\ popping (pcs s i) = None /\ locked (pcs s i) = false /\
            (forall x, next_hole (pcs s i) x = None) /\ (forall y, prev_hole i (pcs s i) y = None) /\ headless (pcs s i) = None /\
            dirty (pcs s i) = false /\ is_removed (pcs s i) = false) by (by destruct Hi as [-> |[t ->]]).
  destruct Hf as (Hc & Hp & Hlk & H1 & H2 & H3 & H4 & H5).
  assert (Ho' : own_inv s') by (apply (own_claim s i k (RLock k) Ho); try done; by apply bool_decide_eq_true_2).
  split; [done|]. apply (list_quiet' s s' i (RLock k) Hl Ho Ho'); try done; by rewrite ?Hc, ?H4, ?H5.
Qed.

Lemma removal_kind s i k :
  own_inv s ->
  match pcs s i with RLock k' | RTest k' | INext k' | IPrev k' _ | ISet k' _ _ | ICas k' _ | ISpin k' _ | INext2 k' _ | IBack2 k' _ _ | ISet2 k' _ _ => k' = k
  | _ => False
  end ->
  k <> Pop.
Proof.
  intros Ho Hk. pose proof (o_target _ Ho i) as Ht. destruct (pcs s i); try done; subst; by apply bool_decide_eq_true in Ht.
Qed.

Lemma test_ok s i k : inv s -> pcs s i = RTest k -> inv (at_pc s i (if bool_decide (head s = Some i) then HNext i k else INext k)).
Proof.
  intros [Ho Hl] Hi. assert (Hk : k <> Pop) by (apply (removal_kind s i k Ho); by rewrite Hi).
  assert (Hin : i ∈ chain s) by (apply in_queue_chain; [done|rewrite Hi; by eexists]).
  pose proof (list_head s i Hl Ho) as Hh. rewrite Hi in Hh. specialize (Hh eq_refl). cbn in Hh. unfold published in Hh.
  case_bool_decide as Hd.
  - assert (list.head (chain s) = Some i) as Hhd.
    { rewrite Hd in Hh. destruct (list.head (chain s)) as [y|]; [|done]. destruct (pcs s y); congruence. }
    quiet_step Ho Hl Hi; try (keeps_lock Ho Hi); rewrite ?Hi; destruct k; try done; by apply bool_decide_eq_true_2.
  - quiet_step Ho Hl Hi; try (keeps_lock Ho Hi); try (by apply bool_decide_eq_true_2). cbn. intros Hhd. apply Hd. rewrite Hh, Hhd. by rewrite Hi.
Qed.

Lemma remove_head_step_ok s s' i : inv s -> remove_head_step s i (pcs s i) = Some s' -> inv s'.
Proof.
  intros Hinv Hs. pose proof Hinv as [Ho Hl]. pose proof (l_know _ Hl i) as Hk.
  destruct (pcs s i) as [ | | | | | | | | | | e k|e k n|e k|e k|e k | | | | | | | | | | | | | | | | ] eqn:Hi; try done; cbn in Hs, Hk; simplify_eq.
  - quiet_step Ho Hl Hi; settle Ho Hi k.
  - destruct n as [y|]; [|by apply hset_none_ok]. destruct Hk as [Hhd Hn]. specialize (Hn y eq_refl).
    apply (take_head_ok s _ i e k Hinv); try (by destruct k); [by left; eexists|by right; rewrite Hn; destruct k].
  - case_bool_decide as Htl.
    + pose proof (l_tail _ Hl) as Hlast. rewrite Htl in Hlast. assert (chain s = [e]) as Hch.
      { destruct (chain s) as [|a [|b q]] eqn:E; [done|by injection Hk as ->|]. injection Hk as ->.
        pose proof (l_nodup _ Hl) as Hn. rewrite E in Hn. apply NoDup_cons in Hn as [He _]. exfalso. apply He.
        apply last_Some_elem_of. exact (eq_sym Hlast). }
      apply (take_head_ok s _ i e k Hinv); try (by destruct k); [by right; left| |by left].
      transitivity (head s); [by destruct k|]. rewrite (list_head s i Hl Ho) by (by rewrite Hi). rewrite Hi. cbn.
      symmetry. apply (l_last _ Hl). by rewrite Hch.
    + quiet_step Ho Hl Hi; settle Ho Hi k. cbn. split; [done|].
      intros Hch. apply Htl. rewrite (l_tail _ Hl), Hch. done.
  - destruct (next s e) as [y|] eqn:Hn; simplify_eq; [|done].
    quiet_step Ho Hl Hi; settle Ho Hi k. cbn. rewrite Hn. destruct Hk. by split.
  - destruct Hk as [Hhd Hn]. apply (take_head_ok s _ i e k Hinv); try (by destruct k); [by right; right|right; by destruct k].
Qed.

Lemma after_node (l l1 : list nat) p i l2 y : l = l1 ++ p :: i :: l2 -> NoDup l -> adj l i y -> list.head l2 = Some y.
Proof.
  intros -> Hnd Hy. destruct l2 as [|z l2].
  - exfalso. apply (adj_last _ _ _ Hnd Hy). by rewrite last_app.
  - cbn. f_equal. apply (adj_succ _ i z y Hnd); [|done]. apply adj_cut. right. right. apply adj_cons_iff. by left.
Qed.

Lemma last_cut (l1 : list nat) p i l2 y : list.head l2 = Some y -> last (l1 ++ p :: i :: l2) = last (p :: l2).
Proof.
  destruct l2 as [|z l2]; [done|]. intros _. rewrite last_app. change (last (p :: i :: z :: l2)) with (last (z :: l2)).
  change (last (p :: z :: l2)) with (last (z :: l2)). destruct (last (z :: l2)) eqn:E; [done|by apply last_None in E].
Qed.

Lemma remove_internal_step_ok s s' i : inv s -> remove_internal_step s i (pcs s i) = Some s' -> inv s'.
Proof.
  intros Hinv Hs. pose proof Hinv as [Ho Hl]. pose proof (l_know _ Hl i) as Hk. pose proof (fun k => removal_kind s i k Ho) as Hkd.
  assert (Hchain : (exists k, cls (pcs s i) = Removing k) -> i ∈ chain s) by by apply in_queue_chain.
  pose proof (l_tail _ Hl) as Htl. pose proof (l_nodup _ Hl) as Hnd.
  destruct (pcs s i) as [ | | | | | | | | | | | | | | | k|k n|k n p|k n p|k p|k p|k p|k n p|k n p | | | | | | | ] eqn:Hi;
    try done; cbn in Hs, Hk; try (pose proof (Hkd k eq_refl) as HkP; specialize (Hchain (ex_intro _ k eq_refl))); simplify_eq.
  - quiet_step Ho Hl Hi; settle Ho Hi k.
  - destruct (prev s i) as [p|] eqn:Hp; simplify_eq. destruct Hk as [Hhd Hn].
    quiet_step Ho Hl Hi; settle Ho Hi k. cbn. split; [|done].
    destruct (Prelude.in_queue (chain s) i Hchain) as [?|[q Hq]]; [done|].
    rewrite (list_prev s i q i Hl Ho) in Hp; [|by rewrite Hi|done|by rewrite Hi]. rewrite Hi in Hp. cbn in Hp. by simplify_eq.
  - destruct n as [y|]; [|by apply iset_none_ok]. destruct Hk as [Ha Hn]. specialize (Hn y eq_refl).
    destruct (adj_split _ _ _ Ha) as (l1 & l2 & Hch). pose proof (next_adj s i y Hl Hchain Hn) as (Hiy & Hly & _).
    pose proof (after_node _ _ _ _ _ _ Hch Hnd Hiy) as Hy.
    apply (take_internal_ok s _ i k p (IBack k y p) l2 Hinv HkP); try (by destruct k); try (by rewrite Hi).
    + left. by rewrite Hi, Hy.
    + by exists l1.
    + right. by exists y.
    + destruct k; cbn; by rewrite upd_eq.
    + intros x Hx. destruct k; cbn; by rewrite upd_ne by done.
    + by rewrite Hn.
    + transitivity (tail s); [by destruct k|]. rewrite Htl, Hch. by eapply last_cut.
    + intros z Hz. assert (z = y) as -> by congruence. rewrite (list_prev s i i y Hl Ho); [|by rewrite Hi|done|by apply unlinked_prev].
      rewrite Hi. cbn. by rewrite bool_decide_eq_true_2.
  - by apply iback_ok.
  - destruct (adj_split _ _ _ Hk) as (l1 & l2 & Hch). destruct (decide (tail s = Some i)) as [Ht|Ht].
    + rewrite bool_decide_eq_true_2 by done. assert (l2 = []) as ->.
      { destruct l2 as [|z l2]; [done|]. exfalso. rewrite Htl in Ht. apply (adj_last (chain s) i z Hnd); [|done].
        rewrite Hch. apply adj_cut. right. right. apply adj_cons_iff. by left. }
      assert (Hpn : next s p = None).
      { rewrite (list_next s i p i Hl Ho) by (done || by rewrite Hi). rewrite Hi. cbn. by rewrite bool_decide_eq_true_2. }
      apply (take_internal_ok s _ i k p (Rel i k) [] Hinv HkP); try (by destruct k); try (by rewrite Hi).
      * right. left. by rewrite Hi.
      * by exists l1.
      * by left.
      * apply (l_last _ Hl). by rewrite <- Htl.
    + rewrite bool_decide_eq_false_2 by done. quiet_step Ho Hl Hi; settle Ho Hi k. cbn. split; [done|]. by rewrite <- Htl.
  - destruct (next s i) as [y|] eqn:Hn; simplify_eq; [|done]. destruct Hk as [Ha Hk].
    quiet_step Ho Hl Hi; settle Ho Hi k.
  - destruct (next s i) as [y|] eqn:Hn; simplify_eq. destruct Hk as [Ha _].
    quiet_step Ho Hl Hi; settle Ho Hi k.
  - by apply iback2_ok.
  - destruct Hk as [Ha Hn]. destruct (adj_split _ _ _ Ha) as (l1 & l2 & Hch). pose proof (next_adj s i n Hl Hchain Hn) as (Hiy & Hly & _).
    pose proof (after_node _ _ _ _ _ _ Hch Hnd Hiy) as Hy.
    apply (take_internal_ok s _ i k p (Rel i k) l2 Hinv HkP); try (by destruct k); try (by rewrite Hi).
    + right. right. by exists n.
    + by exists l1.
    + by left.
    + destruct k; cbn; by rewrite upd_eq.
    + intros x Hx. destruct k; cbn; by rewrite upd_ne by done.
    + by rewrite Hn.
    + transitivity (tail s); [by destruct k|]. rewrite Htl, Hch. by eapply last_cut.
    + intros z Hz. assert (z = n) as -> by congruence. rewrite (list_prev s i i n Hl Ho); [|by rewrite Hi|done|by apply unlinked_prev].
      rewrite Hi. cbn. by rewrite bool_decide_eq_true_2.
    + intros m Hm. congruence.
Qed.

Lemma first_some_in {A} (l : list (option A)) x : first_some l = Some x -> Some x ∈ l.
Proof.
  induction l as [|[y|] l IH]; [done|cbn; intros [= ->]; by left|]. cbn. intros Hx. right. by apply IH.
Qed.

Lemma dq_step_inv l s s' : inv s -> step l s = Some s' -> inv s'.
Proof.
  intros Hinv Hs. pose proof Hinv as [Ho Hl]. destruct l as [i tm|i|i b|i|i]; cbn [step] in Hs.
  - destruct (pcs s i) eqn:Hi; simplify_eq. by apply dq_block_ok.
  - destruct (pcs s i) eqn:Hi; simplify_eq. quiet_step Ho Hl Hi; keeps_lock Ho Hi.
  - destruct (pcs s i) eqn:Hi; simplify_eq. destruct b; quiet_step Ho Hl Hi; keeps_lock Ho Hi.
  - destruct (pcs s i) as [ | | | | | | |[]| | | | | | | | | | | | | | | | | | | | | | | ] eqn:Hi; try done.
    destruct (won s i) eqn:Hw; simplify_eq. apply claim_ok; try done. right. by eexists.
  - apply first_some_in in Hs. rewrite !elem_of_cons in Hs. destruct Hs as [Hs|[Hs|[Hs|[Hs|[Hs|[Hs|[]%elem_of_nil]]]]]]; symmetry in Hs.
    + destruct (pcs s i) eqn:Hi; try done; cbn in Hs; simplify_eq; [by apply dq_exch_ok|by eapply bhead_ok|by eapply bprev_ok|by eapply blink_ok].
    + by apply (remove_head_step_ok s s' i).
    + by apply (remove_internal_step_ok s s' i).
    + destruct (pcs s i) eqn:Hi; try done; cbn in Hs; simplify_eq; [eapply unlock_ok; [done|exact Hi|left; eauto]|].
      destruct k.
      * apply (clear_link_ok s i e Pop (QResume e) None Hinv Hi eq_refl).
      * apply (clear_link_ok s i e Cancel Idle (Some true) Hinv Hi eq_refl).
      * apply (clear_link_ok s i e Timeout Idle (Some false) Hinv Hi eq_refl).
    + destruct (pcs s i) eqn:Hi; try done; cbn in Hs.
      * destruct (lock s) eqn:Hlk; simplify_eq. eapply lock_ok; [done|exact Hi|done|right; eauto].
      * simplify_eq. destruct (head s) eqn:Hh; quiet_step Ho Hl Hi; keeps_lock Ho Hi.
      * destruct (won s e) eqn:Hw; simplify_eq; [|by apply qcheck_ok]. quiet_step Ho Hl Hi; keeps_lock Ho Hi.
      * simplify_eq. eapply unlock_ok; [done|exact Hi|right; done].
      * simplify_eq. by apply qresume_ok.
    + destruct (pcs s i) eqn:Hi; try done; cbn in Hs.
      * destruct (won s i) eqn:Hw; simplify_eq; [|apply claim_ok; auto; done].
        quiet_step Ho Hl Hi; keeps_lock Ho Hi.
      * destruct (woken s i) eqn:Hw; simplify_eq. by eapply dq_wake_ok.
      * destruct (lock s) eqn:Hlk; simplify_eq. eapply lock_ok; [done|exact Hi|done|left; eauto].
      * simplify_eq. by apply test_ok.
Qed.

Lemma dq_reachable_inv s : reachable init step s -> inv s.
Proof.
  apply invariant_rule; [|intros ? ? ?; apply dq_step_inv]. intros s0 ->. split; split; cbn; try done.
  - intros x. split; [by intros ?%elem_of_nil|by intros [? _]].
  - constructor.
  - intros x y (k & Hk & _). done.
  - intros x y (k & Hk & _). done.
  - intros y t p [?|?]; done.
  - intros x _. by left.
Qed.

(** The thread is not in the middle of [push], [pop] or [remove]. *)
Definition resting (c : pc) : bool :=
  match c with Idle | BExch _ | BFunc _ | BRace | BWait _ | RLock _ | QLock | QResume _ => true | _ => false end.

Lemma holder_resting {A} (f : nat -> pc -> option A) s :
  (forall i c, resting c = true -> f i c = None) -> (forall i, resting (pcs s i) = true) -> holder f s = None.
Proof. intros Hf Hr. unfold holder. destruct (lock s); [|done]. apply Hf, Hr. Qed.

(** C18. [ConditionalNemesisQueue]: the assertion of [push] holds; a fred that waits
    and has not been picked is in the queue, one that was picked is resumed or
    about to be, by one thread; nobody takes a fred whose race is lost; when no
    thread is in the middle of a queue operation the nodes are a doubly-linked
    list from [head] to [tail]; a thread that waits for a link has another one
    about to store it; a fred that runs has left the queue, its link clear. *)
Theorem cond_queue_correct s :
  reachable init step s ->
  aborted s = false /\ NoDup (chain s) /\
  (forall x, cls (pcs s x) = Waiting -> won s x = None -> x ∈ chain s) /\
  (forall x, cls (pcs s x) = Waiting -> won s x = Some Pop -> woken s x = true \/ exists i, popping (pcs s i) = Some x) /\
  (forall i j x, popping (pcs s i) = Some x -> popping (pcs s j) = Some x ->
     i = j /\ won s x = Some Pop /\ woken s x = false /\ cls (pcs s x) = Waiting) /\
  ((forall i, resting (pcs s i) = true) ->
     head s = list.head (chain s) /\ tail s = last (chain s) /\
     (forall x y, adj (chain s) x y -> next s x = Some y /\ prev s y = Some x) /\
     (forall x, last (chain s) = Some x -> next s x = None)) /\
  (forall i e k, pcs s i = HSpin e k -> next s e = None -> exists y t, pcs s y = BPrev t e \/ pcs s y = BLink t e) /\
  (forall i k p, pcs s i = ISpin k p -> next s i = None -> exists y t, pcs s y = BPrev t i \/ pcs s y = BLink t i) /\
  (forall x, pcs s x = Idle -> x ∉ chain s /\ next s x = None).
Proof.
  intros Hinv%dq_reachable_inv. pose proof Hinv as [Ho Hl]. split_and!.
  - apply (o_ab _ Ho).
  - apply (l_nodup _ Hl).
  - intros x Hc Hw. apply (o_chain _ Ho). pose proof (o_node _ Ho x) as Hn. rewrite Hc, Hw in *. naive_solver.
  - intros x Hc Hw. pose proof (o_node _ Ho x) as Hn. rewrite Hc, Hw in Hn.
    destruct Hn as [(? & _)|[(_ & [i Hi] & _)|(_ & _ & ? & _)]]; [done|right; exists i; by apply (o_popper _ Ho)|by left].
  - intros i j x Hi Hj. destruct (popping_waits s i x Ho Hi) as (? & ? & ?). split; [|done].
    apply (o_popper _ Ho) in Hi, Hj. congruence.
  - intros Hr. assert (Hb : forall y t, pcs s y <> BHead t) by (intros y t E; specialize (Hr y); by rewrite E in Hr).
    assert (Hlk : forall y, linking (pcs s y) = false) by (intros y; specialize (Hr y); by destruct (pcs s y)).
    split_and!; [|apply (l_tail _ Hl)| |apply (l_last _ Hl)].
    + rewrite (l_head _ Hl), holder_resting by (done || by intros _ []). unfold published.
      destruct (list.head (chain s)) as [y|]; [|done]. destruct (pcs s y) eqn:E; try done. by destruct (Hb y timed).
    + intros x y Hxy. rewrite (l_next _ Hl x y Hxy), (l_prev _ Hl x y Hxy) by (by apply unlinked_prev).
      rewrite Hlk, !holder_resting by (done || by intros ? []). done.
  - intros i e k Hi Hn. pose proof (l_know _ Hl i) as Hk. rewrite Hi in Hk. destruct Hk as [Hhd Hne].
    destruct (chain s) as [|a [|y q]] eqn:E; [done|by injection Hhd as ->|]. injection Hhd as ->.
    assert (Hey : adj (chain s) e y) by (rewrite E; by exists 0%nat). rewrite (list_next s i e y Hl Ho) in Hn by (done || by rewrite Hi).
    rewrite Hi in Hn. cbn in Hn. exists y. destruct (pcs s y) eqn:Ey; try done; pose proof (fun t p => l_link _ Hl y t p) as Hlk;
      rewrite Ey in Hlk; specialize (Hlk timed p); exists timed; rewrite (adj_pred _ _ _ _ (l_nodup _ Hl) Hey (Hlk ltac:(auto))); auto.
  - intros i k p Hi Hn. pose proof (l_know _ Hl i) as Hk. rewrite Hi in Hk. destruct Hk as [Ha Hne].
    destruct (adj_split _ _ _ Ha) as (l1 & [|y l2] & E); [rewrite E, last_app in Hne; done|].
    assert (Hey : adj (chain s) i y) by (rewrite E; apply adj_cut; right; right; apply adj_cons_iff; by left).
    rewrite (list_next s i i y Hl Ho) in Hn by (done || by rewrite Hi).
    assert (p <> i). { intros ->. pose proof (l_nodup _ Hl) as Hnd. rewrite E in Hnd. apply NoDup_app in Hnd as (_ & _ & Hnd).
      apply NoDup_cons in Hnd as [Hnd _]. apply Hnd. by left. }
    rewrite Hi in Hn. cbn in Hn. rewrite bool_decide_eq_false_2 in Hn by done.
    exists y. destruct (pcs s y) eqn:Ey; try done; pose proof (fun t p => l_link _ Hl y t p) as Hlk;
      rewrite Ey in Hlk; specialize (Hlk timed p0); exists timed; rewrite (adj_pred _ _ _ _ (l_nodup _ Hl) Hey (Hlk ltac:(auto))); auto.
  - intros x Hx. assert (Hin : x ∉ chain s) by (intros [Hq _]%(o_chain _ Ho); by rewrite Hx in Hq). split; [done|].
    pose proof (o_node _ Ho x) as Hn. rewrite Hx in Hn. destruct Hn as (Hp & _).
    destruct (l_free _ Hl x Hin) as [?|Hd]; [done|]. by rewrite Hp, Hx in Hd.
Qed.
End CondNemesis.

(** A run of three freds: fred 1 waits with a time limit, fred 2 waits, fred 3
    is between its exchange and its links; the time limit of fred 1 expires. *)
Definition cond_run : list CondNemesis.label :=
  [CondNemesis.Block 1 (CondNemesis.Until false); CondNemesis.Go 1; CondNemesis.Go 1; CondNemesis.Func 1 true;
   CondNemesis.Block 2 CondNemesis.Forever; CondNemesis.Go 2; CondNemesis.Go 2; CondNemesis.Go 2; CondNemesis.Func 2 true;
   CondNemesis.Timer 1; CondNemesis.Block 3 CondNemesis.Forever; CondNemesis.Go 3].

Lemma cond_run_reachable ls :
  (if run CondNemesis.step ls CondNemesis.start then true else false) = true ->
  reachable CondNemesis.init CondNemesis.step (after CondNemesis.step CondNemesis.start ls).
Proof. by apply run_reaches. Qed.

Lemma cond_queue_correct_witness :
  let s := after CondNemesis.step CondNemesis.start cond_run in
  CondNemesis.chain s = [1; 2; 3]%nat /\ CondNemesis.cls (CondNemesis.pcs s 2) = CondNemesis.Waiting /\
  CondNemesis.aborted s = false /\ 2%nat ∈ CondNemesis.chain s.
Proof.
  destruct (CondNemesis.cond_queue_correct _ (cond_run_reachable cond_run ltac:(by vm_compute))) as (Ha & _ & Hw & _).
  split_and!; [by vm_compute|by vm_compute|exact Ha|]. apply Hw; by vm_compute.
Defined.

(** [unblock] gives up when the fred at the front has lost its race: here fred
    1 has timed out and has not left the queue yet, and [unblock] returns
    nothing although fred 2 waits, unpicked, right behind it. *)
Theorem unblock_stops_at_front :
  exists s, reachable CondNemesis.init CondNemesis.step s /\
    CondNemesis.pcs s 0 = CondNemesis.Idle /\ CondNemesis.pcs s 2 = CondNemesis.BWait false /\ CondNemesis.won s 2 = None /\
    CondNemesis.woken s 2 = false /\ 2%nat ∈ CondNemesis.chain s /\
    run CondNemesis.step (repeat (CondNemesis.Go 0) 4) (CondNemesis.at_pc s 0 CondNemesis.QLock) =
      Some (after CondNemesis.step s (CondNemesis.Unblock 0 :: repeat (CondNemesis.Go 0) 4)) /\
    let s' := after CondNemesis.step s (CondNemesis.Unblock 0 :: repeat (CondNemesis.Go 0) 4) in
    CondNemesis.pcs s' 0 = CondNemesis.Idle /\ CondNemesis.won s' 2 = None /\ CondNemesis.woken s' 2 = false /\
    CondNemesis.chain s' = [1; 2]%nat.
Proof.
  exists (after CondNemesis.step CondNemesis.start (take 10 cond_run)). split; [by apply cond_run_reachable; vm_compute|].
  assert (Hc : CondNemesis.chain (after CondNemesis.step CondNemesis.start (take 10 cond_run)) = [1; 2]%nat) by by vm_compute.
  split_and!; try (by vm_compute). rewrite Hc. right. by left.
Qed.
