(* ===== verification/TimeoutSemaphores.v ===== *)
(** [MCSTimeoutQueue] and [LimitedTimeoutSemaphore] of
    [src/runtime/MCSTimeoutSemaphore.h]: freds wait in a lock-free queue that
    they can leave when their time is up.  Each access to shared memory is a
    step.  Fred [i] has the node [i] on its stack while it waits; a loop that
    spins or yields until a condition holds is a step that is possible then. *)
From S2P Require Import Prelude ModelChecks.
Local Open Scope Z_scope.

(** * The words of the queue: pointers to nodes, with tags, and bogus pointers *)
Definition leaving_self : Z := 4.
Definition leaving_other : Z := 8.
Definition gone : Z := 12.
Definition restored_tag : Z := 1.
Definition at_head_tag : Z := 2.
Definition nullptr : Z := 0.

Definition is_restored (p : Z) : bool := negb (Z.land p restored_tag =? 0).
Definition is_transient (p : Z) : bool := is_restored p.
Definition is_at_head (p : Z) : bool := negb (Z.land p at_head_tag =? 0).
Definition restored (p : Z) : Z := Z.lor p restored_tag.
Definition transient (p : Z) : Z := restored p.
Definition at_head (p : Z) : Z := Z.lor p at_head_tag.
Definition cleaned (p : Z) : Z := Z.land p (Z.lnot 3).
Definition is_real (p : Z) : bool := negb (is_at_head p) && (16 <? p).

(** The address of the node of fred [i], and the node at an address. *)
Definition addr (i : nat) : Z := 32 * (Z.of_nat i + 1).
Definition node_at (p : Z) : option nat :=
  if (16 <? p) && (p mod 32 =? 0) then Some (Z.to_nat (p / 32 - 1)) else None.

Module McsTimeout.

(** Who has won the race to resume a fred: [tryPop], a predecessor that leaves,
    the timer, the fred itself ([cancelRunningResumeRace]). *)
Inductive msg := NoMsg | ByPop | ByLink | ByTimer | ByCancel.
Inductive run_state := Parked | Running | ResumedEarly.
(** The node in the timer queue: [Firing] while [checkExpiry] has the queue's
    lock between [raceResume] and [resume]. *)
Inductive timer := Unarmed | Armed | Firing | Expired.

(** ** Where a fred is.  [pred], [succ], [temp] are the variables of the source. *)
Inductive sem_pc :=
| PLoad | PCas (c : Z)                      (* P: read [counter], and count down *)
| TryLoad | TryCas                          (* tryP *)
| VCas (c : Z)                              (* V: about to replace [c] by [c + 1] *)
| VLock | VHead | VTest (x : Z)             (* tryPop: lock [headLock], read [head], race *)
| VFail | VClear (x : Z) | VUnlock (x : Z)
| VLoad | VCancel (c : Z)                   (* nothing popped: read [counter], cancel *)
| VResume (x : Z)
| OLoad | OCas (c : Z).                     (* handleTimeout *)
Inductive push_pc :=
| QExch | QHead | QTimer | QSusp | QPark    (* swapWithTail, the empty queue *)
| LPrep (pred : Z) | LLoad (pred : Z) | LCas (pred temp : Z)   (* linkTailToPred *)
| LWaitT (pred : Z) | LStore (old pred : Z) | LWaitL (pred : Z).
(** Where [relink] was called: in [linkTailToPred], or in step 3 (going on
    with step 3 or 4). *)
Inductive relink_from := FromLink | FromStep3 (again : bool) (succ : Z).
Inductive relink_pc := RTest (temp : Z) | RClean (temp : Z) | RCancel | RPrep | RExch | RSpin.
Inductive wait_pc :=
| NSusp | NPark | NPrep | NPrev | NExch | NSpin              (* no time limit *)
| TTimer | TSusp | TPark | TErase                            (* time limit *)
| TPrep (w : msg) | TCheck (w : msg) | TCancel | TSusp2 (w : msg) | TPark2 (w : msg)
| TNew | TNew2 | TExch | TSpin | Return.
Inductive leave_pc :=
| S1Load | S1Cas | S1Wait
| S2Exch | S2Wait
| S3Lock | S3Exch | S3Unlock (temp : Z) | S3Wait
| S4Exch | S4Unlock (next : Z) | S4Head | S4Back | S4Wait
| S5Cas | S5Wait | S5Store | S6Cas | S6Store (next : Z) | S6Clear (next : Z)
| ARace | AResume | APrev | BPrev | BRace | BResume          (* resumeSuccForRelink, with and without time limit *)
| ZCas | ZUndo | ZNext | ZWait                               (* serendipity *)
| HClear | HLock | HUnlock.                                  (* handleTimeoutAtHead *)
Inductive pop_pc :=                                          (* popFromHead *)
| FLoad | FGone | FTail | FWait | FWait2 | FCas (succ : Z) | FTest (succ : Z)
| FLock (succ : Z) | FPrev (succ : Z) | FUnlock (succ : Z) | FHead (succ : Z).
Inductive pc :=
| Idle | Inside                             (* outside, and after a successful [P] *)
| Sem (c : sem_pc) | Push (c : push_pc)
| Relink (k : relink_from) (pred : Z) (c : relink_pc)
| Wait (pred : Z) (c : wait_pc)
| Leave (pred succ : Z) (c : leave_pc)
| PopHead (own : bool) (x : Z) (c : pop_pc).  (* [own]: in handleTimeoutAtHead, else in tryPop *)

(** A fred and its node. *)
Record thread := mkThread {
  t_pc : pc;
  t_next : Z; t_prev : Z; t_predLock : option nat; t_hasTimeout : bool;
  t_live : bool;                            (* ghost: the node exists *)
  t_run : run_state; t_info : msg; t_timer : timer
}.
Inductive failure := Assertion | Dangling.  (* an [RASSERT], an access to a node that is not there *)
Record state := mkState {
  head : Z; tail : Z; headLock : option nat; counter : Z;
  threads : list thread;
  failed : option failure
}.

#[export] Instance pc_eq_dec : EqDecision pc.
Proof.
  assert (EqDecision msg) by solve_decision. assert (EqDecision sem_pc) by solve_decision. assert (EqDecision push_pc) by solve_decision.
  assert (EqDecision relink_from) by solve_decision. assert (EqDecision relink_pc) by solve_decision. assert (EqDecision wait_pc) by solve_decision.
  assert (EqDecision leave_pc) by solve_decision. assert (EqDecision pop_pc) by solve_decision. solve_decision.
Defined.
#[export] Instance state_eq_dec : EqDecision state.
Proof.
  assert (EqDecision msg) by solve_decision. assert (EqDecision run_state) by solve_decision. assert (EqDecision timer) by solve_decision.
  assert (EqDecision failure) by solve_decision. assert (EqDecision thread) by solve_decision. solve_decision.
Defined.

Definition outside : thread := mkThread Idle nullptr nullptr None false false Running NoMsg Unarmed.
Definition thr (s : state) (i : nat) : thread := default outside (threads s !! i).
Definition pc_of (s : state) (i : nat) : pc := t_pc (thr s i).
Definition next (s : state) (i : nat) : Z := t_next (thr s i).
Definition prev (s : state) (i : nat) : Z := t_prev (thr s i).
Definition predLock (s : state) (i : nat) : option nat := t_predLock (thr s i).
Definition hasTimeout (s : state) (i : nat) : bool := t_hasTimeout (thr s i).
Definition live (s : state) (i : nat) : bool := t_live (thr s i).
Definition runState (s : state) (i : nat) : run_state := t_run (thr s i).
Definition info (s : state) (i : nat) : msg := t_info (thr s i).
Definition timer_of (s : state) (i : nat) : timer := t_timer (thr s i).

Definition with_thread (s : state) (i : nat) (f : thread -> thread) : state :=
  mkState (head s) (tail s) (headLock s) (counter s) (alter f i (threads s)) (failed s).
Definition at_pc (s : state) (i : nat) (v : pc) : state :=
  with_thread s i (fun t => mkThread v (t_next t) (t_prev t) (t_predLock t) (t_hasTimeout t) (t_live t) (t_run t) (t_info t) (t_timer t)).
Definition with_next (s : state) (i : nat) (v : Z) : state :=
  with_thread s i (fun t => mkThread (t_pc t) v (t_prev t) (t_predLock t) (t_hasTimeout t) (t_live t) (t_run t) (t_info t) (t_timer t)).
Definition with_prev (s : state) (i : nat) (v : Z) : state :=
  with_thread s i (fun t => mkThread (t_pc t) (t_next t) v (t_predLock t) (t_hasTimeout t) (t_live t) (t_run t) (t_info t) (t_timer t)).
Definition with_predLock (s : state) (i : nat) (v : option nat) : state :=
  with_thread s i (fun t => mkThread (t_pc t) (t_next t) (t_prev t) v (t_hasTimeout t) (t_live t) (t_run t) (t_info t) (t_timer t)).
Definition with_timeout (s : state) (i : nat) (v : bool) : state :=
  with_thread s i (fun t => mkThread (t_pc t) (t_next t) (t_prev t) (t_predLock t) v (t_live t) (t_run t) (t_info t) (t_timer t)).
Definition with_run (s : state) (i : nat) (v : run_state) : state :=
  with_thread s i (fun t => mkThread (t_pc t) (t_next t) (t_prev t) (t_predLock t) (t_hasTimeout t) (t_live t) v (t_info t) (t_timer t)).
Definition with_info (s : state) (i : nat) (v : msg) : state :=
  with_thread s i (fun t => mkThread (t_pc t) (t_next t) (t_prev t) (t_predLock t) (t_hasTimeout t) (t_live t) (t_run t) v (t_timer t)).
Definition with_timer (s : state) (i : nat) (v : timer) : state :=
  with_thread s i (fun t => mkThread (t_pc t) (t_next t) (t_prev t) (t_predLock t) (t_hasTimeout t) (t_live t) (t_run t) (t_info t) v).
Definition with_head (s : state) (v : Z) : state := mkState v (tail s) (headLock s) (counter s) (threads s) (failed s).
Definition with_tail (s : state) (v : Z) : state := mkState (head s) v (headLock s) (counter s) (threads s) (failed s).
Definition with_headLock (s : state) (v : option nat) : state := mkState (head s) (tail s) v (counter s) (threads s) (failed s).
Definition with_counter (s : state) (v : Z) : state := mkState (head s) (tail s) (headLock s) v (threads s) (failed s).
Definition fail (s : state) (f : failure) : state := mkState (head s) (tail s) (headLock s) (counter s) (threads s) (Some f).

(** The node of fred [i] comes into being, and goes when the call returns. *)
Definition create_node (s : state) (i : nat) : state :=
  with_thread s i (fun t => mkThread (t_pc t) nullptr nullptr None (t_hasTimeout t) true (t_run t) (t_info t) Unarmed).
Definition return_to (s : state) (i : nat) (c : pc) : state :=
  with_thread s i (fun t => mkThread c nullptr nullptr None false false (t_run t) (t_info t) Unarmed).

(** ** The parts of the steps *)

(** An access to the node at [p]. *)
Definition on_node (s : state) (p : Z) (k : nat -> state) : option state :=
  Some (match node_at p with Some x => if live s x then k x else fail s Dangling | None => fail s Dangling end).

(** [Fred::resume], [Suspender::prepareRace], [Fred::raceResume]. *)
Definition resume (s : state) (x : nat) : state :=
  match runState s x with
  | Parked => with_run s x Running
  | Running => with_run s x ResumedEarly
  | ResumedEarly => fail s Assertion
  end.
Definition prepareRace (s : state) (i : nat) : state :=
  match runState s i with Running => with_info s i NoMsg | _ => fail s Assertion end.
Definition raceResume (s : state) (x : nat) (m : msg) : option state :=
  match info s x with NoMsg => Some (with_info s x m) | _ => None end.
(** [Suspender::suspend]: go on if resumed early, or park. *)
Definition suspend (s : state) (i : nat) (park go : pc) : option state :=
  match runState s i with
  | ResumedEarly => Some (with_run (at_pc s i go) i Running)
  | Running => Some (with_run (at_pc s i park) i Parked)
  | Parked => None
  end.
Definition unpark (s : state) (i : nat) (go : pc) : option state :=
  match runState s i with Running => Some (at_pc s i go) | _ => None end.

(** After [linkTailToPred]. *)
Definition linked (s : state) (i : nat) (pred : Z) : pc := Wait pred (if hasTimeout s i then TTimer else NSusp).
(** After the suspension at the head of the queue: popped or timed out. *)
Definition at_head_pc (s : state) (i : nat) : pc :=
  if hasTimeout s i then match info s i with ByPop => Wait nullptr TErase | _ => Leave nullptr nullptr HClear end
  else Wait nullptr TErase.

(** [swapWithTail], the empty queue, and [linkTailToPred]. *)
Definition push_step (s : state) (i : nat) (c : push_pc) : option state :=
  match c with
  | QExch =>
      Some (with_tail (at_pc (create_node s i) i (Push (if tail s =? nullptr then QHead else LPrep (tail s)))) (addr i))
  | QHead =>
      Some (with_head (if hasTimeout s i then prepareRace (at_pc s i (Push QTimer)) i else at_pc s i (Push QSusp)) (addr i))
  | QTimer => Some (with_timer (at_pc s i (Push QSusp)) i Armed)
  | QSusp => suspend s i (Push QPark) (at_head_pc s i)
  | QPark => unpark s i (at_head_pc s i)
  | LPrep pred => Some (prepareRace (with_prev (at_pc s i (Push (LLoad pred))) i (transient nullptr)) i)
  | LLoad pred => on_node s pred (fun x => at_pc s i (Push (LCas pred (next s x))))
  | LCas pred temp => on_node s pred (fun x =>
      if next s x =? temp
      then with_next (at_pc s i (Push (if is_transient temp then LWaitT pred
                                       else if temp =? leaving_self then LWaitL pred
                                       else LStore (transient nullptr) pred)))
             x (if is_transient temp then transient (addr i) else addr i)
      else at_pc s i (Push (LLoad pred)))
  | LWaitT pred => if prev s i =? transient nullptr then None else Some (at_pc s i (Push (LStore nullptr pred)))
  | LStore old pred => Some (at_pc (if prev s i =? old then with_prev s i pred else s) i (linked s i pred))
  | LWaitL pred =>
      if prev s i =? transient nullptr then None
      else Some (at_pc s i (if is_real (prev s i) then Relink FromLink pred (RTest (prev s i)) else linked s i pred))
  end.

Definition relinked (s : state) (i : nat) (k : relink_from) (pred : Z) : pc :=
  match k with
  | FromLink => linked s i pred
  | FromStep3 again succ => Leave pred succ (if again then S3Lock else S4Exch)
  end.

(** [relink], with [PreSuspend] when called in [linkTailToPred]. *)
Definition relink_step (s : state) (i : nat) (k : relink_from) (pred : Z) (c : relink_pc) : option state :=
  match c with
  | RTest temp =>
      Some (at_pc s i (if is_restored temp then Relink k pred (RClean temp)
                       else Relink k temp (match k with FromLink => RCancel | _ => RExch end)))
  | RClean temp => Some (at_pc (if prev s i =? temp then with_prev s i (cleaned temp) else s) i (relinked s i k pred))
  | RCancel => Some (with_run (at_pc s i (Relink k pred RPrep)) i Running)
  | RPrep => Some (prepareRace (at_pc s i (Relink k pred RExch)) i)
  | RExch => on_node s pred (fun x =>
      with_next (at_pc s i (if next s x =? leaving_self then Relink k pred RSpin else relinked s i k pred)) x (addr i))
  | RSpin =>
      if prev s i =? pred then None
      else Some (at_pc s i (if is_real (prev s i) then Relink k pred (RTest (prev s i)) else relinked s i k pred))
  end.

(** [pushAndWaitUntilPopped] after [linkTailToPred], both versions. *)
Definition woken (w : msg) (pred : Z) : pc := Wait pred (match w with ByPop => TErase | _ => TPrep w end).
Definition woken2 (w : msg) (pred : Z) : pc := match w with ByPop => Wait pred Return | _ => Leave pred nullptr S1Load end.
Definition wait_step (s : state) (i : nat) (pred : Z) (c : wait_pc) : option state :=
  let go d := at_pc s i (Wait pred d) in
  match c with
  | NSusp => suspend s i (Wait pred NPark) (Wait pred (match info s i with NoMsg => Return | _ => NPrep end))
  | NPark => unpark s i (Wait pred (match info s i with NoMsg => Return | _ => NPrep end))
  | NPrep => Some (prepareRace (go NPrev) i)
  | NPrev => Some (if negb (prev s i =? pred) && is_real (prev s i) then at_pc s i (Wait (prev s i) NExch) else fail s Assertion)
  | NExch => on_node s pred (fun x => with_next (go (if next s x =? leaving_self then NSpin else NSusp)) x (addr i))
  | NSpin => if prev s i =? pred then None else Some (go NSusp)
  | TTimer => Some (with_timer (go TSusp) i Armed)
  | TSusp => suspend s i (Wait pred TPark) (woken (info s i) pred)
  | TPark => unpark s i (woken (info s i) pred)
  | TErase =>
      match timer_of s i with
      | Firing => None
      | _ => Some (if (head s =? addr i) then fail s Assertion else return_to s i Inside)
      end
  | TPrep w => Some (prepareRace (go (TCheck w)) i)
  | TCheck w =>
      match w, timer_of s i with
      | ByLink, Firing => None
      | ByLink, Expired => Some (go TCancel)
      | ByLink, _ => Some (go TNew)
      | _, _ => Some (go TCancel)
      end
  | TCancel => Some (with_info (at_pc s i (match info s i with NoMsg => Leave pred nullptr S1Load | w => Wait pred (TSusp2 w) end)) i ByCancel)
  | TSusp2 w => suspend s i (Wait pred (TPark2 w)) (woken2 w pred)
  | TPark2 w => unpark s i (woken2 w pred)
  | TNew =>
      if prev s i =? pred then None
      else Some (if prev s i =? leaving_other then go TNew2 else at_pc s i (Wait (prev s i) TExch))
  | TNew2 => if prev s i =? leaving_other then None else Some (at_pc s i (Wait (prev s i) TExch))
  | TExch => on_node s pred (fun x => with_next (go (if next s x =? leaving_self then TSpin else TSusp)) x (addr i))
  | TSpin => if prev s i =? pred then None else Some (go TSusp)
  | Return => Some (return_to s i Inside)
  end.

(** The fred's time is up: steps 1 to 6 of the source, the way back when it
    has become the head in the meantime, and [handleTimeoutAtHead]. *)
Definition busy (p : Z) : bool := (p =? leaving_self) || (p =? leaving_other).
Definition serendipity (pred succ : Z) : pc := Leave pred succ (if succ =? nullptr then ZCas else ZNext).
Definition relink_succ (s : state) (i : nat) (pred succ : Z) : pc :=
  Leave pred succ (match node_at succ with Some y => if hasTimeout s y then ARace else BPrev | None => BPrev end).
(** [prev] was changed from [leaving_self]: the end of the waits of step 3. *)
Definition new_pred (s : state) (i : nat) (pred succ : Z) : pc :=
  if is_at_head (prev s i) then serendipity pred succ else Relink (FromStep3 true succ) pred (RTest (prev s i)).

Definition leave_step (s : state) (i : nat) (pred succ : Z) (c : leave_pc) : option state :=
  let go d := at_pc s i (Leave pred succ d) in
  match c with
  (* step 1: identify the successor *)
  | S1Load => if is_transient (next s i) then None else Some (at_pc s i (Leave pred (next s i) S1Cas))
  | S1Cas =>
      Some (if next s i =? succ
            then with_next (at_pc s i (if (succ =? gone) || (succ =? nullptr) then Leave pred nullptr S3Lock
                                       else Leave pred succ (if succ =? leaving_other then S1Wait else S2Exch))) i leaving_self
            else go S1Load)
  | S1Wait => if next s i =? leaving_self then None else Some (go S1Load)
  (* step 2: tell the successor *)
  | S2Exch => on_node s succ (fun y => with_prev (go (if prev s y =? leaving_self then S2Wait else S3Lock)) y leaving_other)
  | S2Wait => if next s i =? succ then Some (go S3Lock) else None
  (* step 3: identify the predecessor *)
  | S3Lock => match predLock s i with None => Some (with_predLock (go S3Exch) i (Some i)) | Some _ => None end
  | S3Exch =>
      let temp := prev s i in
      Some (with_prev (if is_at_head temp || (temp =? leaving_other) then go (S3Unlock temp)
                       else if temp =? pred then go S4Exch
                       else at_pc s i (Relink (FromStep3 false succ) pred (RTest temp))) i leaving_self)
  | S3Unlock temp => Some (with_predLock (at_pc s i (if is_at_head temp then serendipity pred succ else Leave pred succ S3Wait)) i None)
  | S3Wait => if busy (prev s i) then None else Some (at_pc s i (new_pred s i pred succ))
  (* step 4: tell the predecessor *)
  | S4Exch => on_node s pred (fun x =>
      with_next (go (S4Unlock (next s x))) x (if succ =? nullptr then transient nullptr else leaving_other))
  | S4Unlock n =>
      Some (with_predLock (if is_at_head n then go S4Head
                           else if n =? leaving_self then go S4Back
                           else if succ =? nullptr then go S5Cas else at_pc s i (relink_succ s i pred succ)) i None)
  | S4Head => if prev s i =? leaving_self then None else Some (at_pc s i (serendipity pred succ))
  | S4Back => on_node s pred (fun x => with_next (go S4Wait) x (addr i))
  | S4Wait => if busy (prev s i) then None else Some (at_pc s i (new_pred s i pred succ))
  (* steps 5 and 6, without a successor *)
  | S5Cas => Some (if tail s =? addr i then with_tail (go S6Cas) pred else go S5Wait)
  | S5Wait => if next s i =? leaving_self then None else Some (at_pc s i (Leave pred (next s i) S5Store))
  | S5Store => on_node s pred (fun x => with_next (at_pc s i (relink_succ s i pred succ)) x leaving_other)
  | S6Cas => on_node s pred (fun x =>
      if next s x =? transient nullptr then with_next (return_to s i (Sem OLoad)) x gone
      else go (S6Store (cleaned (next s x))))
  | S6Store n => on_node s pred (fun x => with_next (go (S6Clear n)) x n)
  | S6Clear n => on_node s n (fun y =>
      if prev s y =? transient nullptr then with_prev (return_to s i (Sem OLoad)) y nullptr else return_to s i (Sem OLoad))
  (* resumeSuccForRelink *)
  | ARace => on_node s succ (fun y => match raceResume (go AResume) y ByLink with Some s' => s' | None => go APrev end)
  | AResume => on_node s succ (fun y => resume (go APrev) y)
  | APrev => on_node s succ (fun y => with_prev (return_to s i (Sem OLoad)) y pred)
  | BPrev => on_node s succ (fun y => with_prev (go BRace) y pred)
  | BRace => on_node s succ (fun y => match raceResume (go BResume) y ByLink with Some s' => s' | None => fail s Assertion end)
  | BResume => on_node s succ (fun y => resume (return_to s i (Sem OLoad)) y)
  (* serendipity: the fred has become the head *)
  | ZCas => Some (if next s i =? leaving_self then with_next (go ZWait) i nullptr else at_pc s i (Leave pred (next s i) ZUndo))
  | ZUndo => on_node s succ (fun y => with_prev (go ZWait) y (restored (addr i)))
  | ZNext => Some (with_next (go ZUndo) i succ)
  | ZWait => if head s =? addr i then Some (go HClear) else None
  (* handleTimeoutAtHead *)
  | HClear => Some (with_head (at_pc s i (PopHead true (addr i) FLoad)) nullptr)
  | HLock => match headLock s with None => Some (with_headLock (go HUnlock) (Some i)) | Some _ => None end
  | HUnlock => Some (with_headLock (return_to s i (Sem OLoad)) None)
  end.

(** [popFromHead]. *)
Definition popped (own : bool) (x : Z) : pc := if own then Leave nullptr nullptr HLock else Sem (VResume x).
Definition pop_step (s : state) (i : nat) (own : bool) (x : Z) (c : pop_pc) : option state :=
  let go d := at_pc s i (PopHead own x d) in
  match c with
  | FLoad => on_node s x (fun n =>
      let succ := next s n in
      if (succ =? leaving_other) || is_transient succ then s
      else go (if succ =? gone then FGone else if succ =? nullptr then FTail else FCas succ))
  | FGone => on_node s x (fun n => if next s n =? gone then with_next (go FTail) n nullptr else go FLoad)
  | FTail => Some (if tail s =? x then with_tail (go FWait) nullptr else go FWait2)
  | FWait => on_node s x (fun n => if is_transient (next s n) then s else at_pc s i (popped own x))
  | FWait2 => on_node s x (fun n => if next s n =? nullptr then s else go FLoad)
  | FCas succ => on_node s x (fun n => if next s n =? succ then with_next (go (FTest succ)) n (at_head nullptr) else go FLoad)
  | FTest succ => on_node s succ (fun y => go (if hasTimeout s y then FLock succ else FHead succ))
  | FLock succ =>
      match node_at succ with
      | Some y => if live s y then match predLock s y with None => Some (with_predLock (go (FPrev succ)) y (Some i)) | Some _ => None end
                  else Some (fail s Dangling)
      | None => Some (fail s Dangling)
      end
  | FPrev succ => on_node s succ (fun y => with_prev (go (FUnlock succ)) y (at_head x))
  | FUnlock succ => on_node s succ (fun y => with_predLock (go (FHead succ)) y None)
  | FHead succ => Some (with_head (at_pc s i (popped own x)) succ)
  end.

(** [LimitedTimeoutSemaphore], with [tryPop]. *)
Definition sem_step (s : state) (i : nat) (c : sem_pc) : option state :=
  let go d := at_pc s i (Sem d) in
  match c with
  | PLoad => if 2 <=? counter s then None else Some (go (PCas (counter s)))
  | PCas c => Some (if counter s =? c then with_counter (at_pc s i (if 0 <? c then Inside else Push QExch)) (c - 1) else go PLoad)
  | TryLoad => Some (at_pc s i (if counter s =? 1 then Sem TryCas else Idle))
  | TryCas => Some (if counter s =? 1 then with_counter (at_pc s i Inside) 0 else at_pc s i Idle)
  | VCas c =>
      Some (if counter s =? c then with_counter (at_pc s i (if c =? 0 then Idle else Sem VLock)) (c + 1)
            else at_pc s i (if 1 <=? counter s then Idle else Sem (VCas (counter s))))
  | VLock => match headLock s with None => Some (with_headLock (go VHead) (Some i)) | Some _ => None end
  | VHead => Some (go (if head s =? nullptr then VFail else VTest (head s)))
  | VTest x => on_node s x (fun n =>
      if hasTimeout s n then match raceResume (go (VClear x)) n ByPop with Some s' => s' | None => go VFail end
      else go (VClear x))
  | VFail => Some (with_headLock (go VLoad) None)
  | VClear x => Some (with_head (go (VUnlock x)) nullptr)
  | VUnlock x => Some (with_headLock (at_pc s i (PopHead false x FLoad)) None)
  | VLoad => Some (go (if 2 <=? counter s then VCancel (counter s) else VLock))
  | VCancel c => Some (if counter s =? c then with_counter (at_pc s i Idle) (c - 1) else go VLock)
  | VResume x => on_node s x (fun n => resume (at_pc s i Idle) n)
  | OLoad => Some (go (OCas (counter s)))
  | OCas c => Some (if counter s =? c then with_counter (at_pc s i Idle) (if c =? 0 then 2 else c + 1) else go OLoad)
  end.

Inductive label :=
| CallP (i : nat) (timed : bool)             (* [P()] or [P(timeout)] *)
| CallTryP (i : nat)
| CallV (i : nat)                            (* by a fred that has done a [P] *)
| Late (i : nat)                             (* [P(timeout)] finds that the time is up *)
| Expire (i : nat)                           (* the timer: wins or loses the race, resumes *)
| Go (i : nat).

Definition step (l : label) (s : state) : option state :=
  match l with
  | CallP i t => match threads s !! i, pc_of s i with
                 | Some _, Idle => Some (with_timeout (at_pc s i (Sem PLoad)) i t)
                 | _, _ => None
                 end
  | CallTryP i => match threads s !! i, pc_of s i with Some _, Idle => Some (at_pc s i (Sem TryLoad)) | _, _ => None end
  | CallV i => match pc_of s i with Inside => Some (at_pc s i (Sem (VCas 0))) | _ => None end
  | Late i => match pc_of s i with Sem PLoad => if hasTimeout s i then Some (return_to s i Idle) else None | _ => None end
  | Expire i =>
      match timer_of s i with
      | Armed => Some (match raceResume (with_timer s i Firing) i ByTimer with Some s' => s' | None => with_timer s i Expired end)
      | Firing => Some (with_timer (resume s i) i Expired)
      | _ => None
      end
  | Go i =>
      match pc_of s i with
      | Idle | Inside => None
      | Sem c => sem_step s i c
      | Push c => push_step s i c
      | Relink k pred c => relink_step s i k pred c
      | Wait pred c => wait_step s i pred c
      | Leave pred succ c => leave_step s i pred succ c
      | PopHead own x c => pop_step s i own x c
      end
  end.

Definition start (n : nat) (c : Z) : state := mkState nullptr nullptr None c (replicate n outside) None.

(** * Two freds, by exploration of all their states *)

(** A hash of a state: where the freds are, and their run states and races. *)
Definition sem_tag (c : sem_pc) : Z :=
  match c with PLoad => 0 | PCas _ => 1 | TryLoad => 2 | TryCas => 3 | VCas _ => 4 | VLock => 5 | VHead => 6 | VTest _ => 7 | VFail => 8
  | VClear _ => 9 | VUnlock _ => 10 | VLoad => 11 | VCancel _ => 12 | VResume _ => 13 | OLoad => 14 | OCas _ => 15 end.
Definition push_tag (c : push_pc) : Z :=
  match c with QExch => 16 | QHead => 17 | QTimer => 18 | QSusp => 19 | QPark => 20 | LPrep _ => 21 | LLoad _ => 22 | LCas _ _ => 23
  | LWaitT _ => 24 | LStore _ _ => 25 | LWaitL _ => 26 end.
Definition wait_tag (c : wait_pc) : Z :=
  match c with NSusp => 27 | NPark => 28 | NPrep => 29 | NPrev => 30 | NExch => 31 | NSpin => 32 | TTimer => 33 | TSusp => 34 | TPark => 35
  | TErase => 36 | TPrep _ => 37 | TCheck _ => 38 | TCancel => 39 | TSusp2 _ => 40 | TPark2 _ => 41 | TNew => 42 | TNew2 => 43
  | TExch => 44 | TSpin => 45 | Return => 46 end.
Definition leave_tag (c : leave_pc) : Z :=
  match c with S1Load => 47 | S1Cas => 48 | S1Wait => 49 | S2Exch => 50 | S2Wait => 51 | S3Lock => 52 | S3Exch => 53 | S3Unlock _ => 54
  | S3Wait => 55 | S4Exch => 56 | S4Unlock _ => 57 | S4Head => 58 | S4Back => 59 | S4Wait => 60 | S5Cas => 61 | S5Wait => 62 | S5Store => 63
  | S6Cas => 64 | S6Store _ => 65 | S6Clear _ => 66 | ARace => 67 | AResume => 68 | APrev => 69 | BPrev => 70 | BRace => 71 | BResume => 72
  | ZCas => 73 | ZUndo => 74 | ZNext => 75 | ZWait => 76 | HClear => 77 | HLock => 78 | HUnlock => 79 end.
Definition pop_tag (c : pop_pc) : Z :=
  match c with FLoad => 80 | FGone => 81 | FTail => 82 | FWait => 83 | FWait2 => 84 | FCas _ => 85 | FTest _ => 86 | FLock _ => 87 | FPrev _ => 88
  | FUnlock _ => 89 | FHead _ => 90 end.
Definition pc_tag (c : pc) : Z :=
  match c with Idle => 91 | Inside => 92 | Sem c => sem_tag c | Push c => push_tag c | Relink _ _ _ => 93 | Wait _ c => wait_tag c
  | Leave _ _ c => leave_tag c | PopHead _ _ c => pop_tag c end.
Definition run_tag (r : run_state)  : Z :=
  match r with Parked => 0 | Running => 1 | ResumedEarly => 2 end.
Definition msg_tag (m : msg) : Z := match m with NoMsg => 0 | ByPop => 1 | ByLink => 2 | ByTimer => 3 | ByCancel => 4 end.
Definition hash (s : state) : positive :=
  Z.to_pos (1 + foldl (fun a t => (a * 128 + pc_tag (t_pc t)) * 16 + run_tag (t_run t) * 5 + msg_tag (t_info t)) 0 (threads s)).

Definition calls (i : nat) : list label := [CallP i true; CallP i false; CallTryP i; CallV i; Late i].
Definition moves (i : nat) : list label := [Go i; Expire i].
Definition is_inside (c : pc) : bool := match c with Inside => true | _ => false end.
Definition is_idle (c : pc) : bool := match c with Idle => true | _ => false end.

(** Some fred or timer can move on. *)
Definition moving (s : state) : bool :=
  existsb (fun l => match step l s with Some t => negb (bool_decide (s = t)) | None => false end) (moves 0 ++ moves 1).
Definition good (s : state) : bool :=
  bool_decide (length (threads s) = 2%nat) && bool_decide (failed s = None) && negb (is_inside (pc_of s 0) && is_inside (pc_of s 1)) &&
  (is_inside (pc_of s 0) || is_inside (pc_of s 1) || (is_idle (pc_of s 0) && is_idle (pc_of s 1)) || moving s).

Lemma two_freds_explored :
  explore step (calls 0 ++ moves 0 ++ calls 1 ++ moves 1) hash good (Z.to_nat 9000) (add hash Leaf (start 2 1)) [start 2 1] = true.
Proof. vm_compute. reflexivity. Qed.

Definition fred_of (l : label) : nat :=
  match l with CallP i _ | CallTryP i | CallV i | Late i | Expire i | Go i => i end.

Lemma step_fred l s t : step l s = Some t -> is_Some (threads s !! fred_of l).
Proof.
  destruct (threads s !! fred_of l) eqn:E; [by eexists|].
  destruct l; cbn in *; unfold pc_of, timer_of, thr; rewrite E; done.
Qed.

Lemma two_freds_labels l s t : good s = true -> step l s = Some t -> l ∈ calls 0 ++ moves 0 ++ calls 1 ++ moves 1.
Proof.
  intros Hg [x Hx%lookup_lt_Some]%step_fred. unfold good in Hg. bool_prop.
  destruct l as [i []|i|i|i|i|i]; cbn in Hx; destruct i as [|[|i]]; try lia; cbn; repeat first [by left|right].
Qed.


(** * What goes wrong with three freds *)
Definition go (i n : nat) : list label := replicate n (Go i).
Definition expire (i : nat) : list label := [Expire i; Expire i].
Definition timed (l : label) : bool := match l with CallP _ b => b | _ => true end.

(** Fred 2 is at the head and leaves; fred 1 behind it has left and has
    restored the link of fred 2 to fred 0, which came later. *)
Definition dangling_run : list label :=
  [CallP 2 true] ++ go 2 5 ++ expire 2 ++ go 2 2 ++ [CallP 1 true] ++ go 1 8 ++ expire 1 ++ go 1 11 ++
  [CallP 0 true] ++ go 0 6 ++ go 1 2 ++ go 2 7 ++ go 0 3 ++ expire 0 ++ go 0 17.

(** Step 6 uses a node that may be gone: a fred that leaves reads its successor
    [n] from [Next( *pred)], stores it there without the tag, and only then tries
    to clear [Prev( *n)].  After the store the predecessor can pass the head to
    [n], whose time can be up, so that its call returns and its node is gone
    before the access. *)
Theorem leaving_fred_uses_dead_node :
  exists s t, run step dangling_run (start 3 0) = Some s /\ forallb timed dangling_run = true /\
    failed s = None /\ live s 0 = false /\ pc_of s 0 = Sem OLoad /\
    (exists pred succ, pc_of s 1 = Leave pred succ (S6Clear (addr 0))) /\
    step (Go 1%nat) s = Some t /\ failed t = Some Dangling.
Proof.
  exists (after step (start 3 0) dangling_run), (after step (start 3 0) (dangling_run ++ go 1 1)).
  split_and!; try (vm_compute; reflexivity). exists 96, 0. vm_compute. reflexivity.
Qed.

(** Fred 1, without a time limit, links itself behind fred 0, which is leaving. *)
Definition early_relink_run : list label :=
  [CallP 2 false] ++ go 2 3 ++ [CallP 1 false] ++ go 1 2 ++ [CallP 0 true] ++ go 0 3 ++ go 1 2 ++ go 0 5 ++ expire 0 ++ go 0 6 ++
  go 1 2 ++ go 0 8 ++ go 1 3 ++ go 0 2.

(** A waiter without a time limit that finds its predecessor leaving when it
    links itself ([relink<true>] in [linkTailToPred]) expects to have been resumed
    when it sees the new [Prev]; but for such a waiter [resumeSuccForRelink] sets
    [Prev] first and resumes afterwards.  The waiter then prepares its race while
    it is being resumed, and the assertion of [prepareResumeRace] fails. *)
Theorem early_relink_fails :
  exists s t, run step early_relink_run (start 3 0) = Some s /\ failed s = None /\
    (exists pred, pc_of s 1 = Relink FromLink pred RPrep) /\ runState s 1 = ResumedEarly /\
    step (Go 1%nat) s = Some t /\ failed t = Some Assertion.
Proof.
  exists (after step (start 3 0) early_relink_run), (after step (start 3 0) (early_relink_run ++ go 1 1)).
  split_and!; try (vm_compute; reflexivity). exists 96. vm_compute. reflexivity.
Qed.
End McsTimeout.

