(* ===== verification/Schedulers.v ===== *)
(** [ReadyQueue] of [src/runtime/BaseProcessor.h] with its priorities, and the
    [Scheduler] of [src/runtime/Scheduler.h]: the ring of processors with
    round-robin placement; [Fred::checkAffinity]. *)
From S2P Require Import Prelude Containers.

Local Open Scope Z_scope.

(** * ReadyQueue

    One FIFO queue per priority ([FredReadyQueue] is a [QueueNemesis]). *)
Definition NumPriority : nat := 3.
Definition ReadyQueue := nat -> list nat.

Definition enqueue (f p : nat) (q : ReadyQueue) : option ReadyQueue :=
  rassert (bool_decide (p < NumPriority)%nat);; Some (upd q p (q p ++ [f])).

(** [for (p = 0; p < NumPriority; p += 1)], from [p] on with [k] rounds left. *)
Fixpoint dequeue_from (k p : nat) (q : ReadyQueue) : option nat * ReadyQueue :=
  match k with
  | O => (None, q)
  | S k' => match q p with
            | f :: l => (Some f, upd q p l)
            | [] => dequeue_from k' (S p) q
            end
  end.
Definition dequeueInternal (q : ReadyQueue) : option nat * ReadyQueue := dequeue_from NumPriority 0 q.

Fixpoint probe_from (k p : nat) (q : ReadyQueue) : bool :=
  match k with
  | O => false
  | S k' => negb (bool_decide (q p = [])) || probe_from k' (S p) q
  end.
Definition probe (q : ReadyQueue) : bool := probe_from NumPriority 0 q.

Definition dequeue (q : ReadyQueue) : option nat * ReadyQueue := dequeueInternal q.
(** [lock]: [readyLock.tryAcquire()] succeeds. *)
Definition tryDequeue (lock : bool) (q : ReadyQueue) : option nat * ReadyQueue :=
  if probe q then if lock then dequeueInternal q else (None, q) else (None, q).

(** Freds in queue, in the order in which they come out. *)
Definition contents (q : ReadyQueue) : list nat := q 0%nat ++ q 1%nat ++ q 2%nat.

(** * Scheduler: the ring of processors *)
Record Scheduler := mkScheduler { ringCount : Z; placeProc : Z }.

(** [None]: an assertion fails. *)
Definition addProcessor (proc : Z) (s : Scheduler) (m : links) : option (Scheduler * links) :=
  if placeProc s =? nullptr then
    m' ← Ring.close proc proc m; Some (mkScheduler (ringCount s + 1) proc, m')
  else
    m' ← Ring.insert_after false (placeProc s) proc proc m;
    Some (mkScheduler (ringCount s + 1) (placeProc s), m').

Definition removeProcessor (proc : Z) (s : Scheduler) (m : links) : option (Scheduler * links) :=
  rassert (negb (placeProc s =? nullptr));;
  p1 ← (if placeProc s =? proc then Next m (placeProc s) else Some (placeProc s));
  let p2 := if p1 =? proc then nullptr else p1 in
  '(_, m') ← Ring.remove proc proc m;
  Some (mkScheduler (ringCount s - 1) p2, m').

Definition placement (s : Scheduler) (m : links) : option (Z * Scheduler) :=
  rassert (negb (placeProc s =? nullptr));;
  p ← Next m (placeProc s);
  Some (p, mkScheduler (ringCount s) p).

(** [k] placements in a row. *)
Fixpoint placements (k : nat) (s : Scheduler) (m : links) : option (list Z * Scheduler) :=
  match k with
  | O => Some ([], s)
  | S k' => '(p, s1) ← placement s m; '(ps, s2) ← placements k' s1 m; Some (p :: ps, s2)
  end.

(** [Fred::checkAffinity(newProcessor)] on the fields it uses. *)
Record fred_sched := mkFredSched { processor : nat; priority : nat; affinity : bool }.
Definition checkAffinity (newProcessor : nat) (f : fred_sched) : bool * fred_sched :=
  if affinity f then (true, f) else (false, mkFredSched newProcessor (priority f) (affinity f)).

(** * What the ready queue and the ring promise *)
Lemma dequeue_from_spec k p q :
  match dequeue_from k p q with
  | (Some f, q') => exists p' l, (p <= p' < p + k)%nat /\ q p' = f :: l /\ q' = upd q p' l /\
                                 (forall r, (p <= r < p')%nat -> q r = [])
  | (None, q') => q' = q /\ forall r, (p <= r < p + k)%nat -> q r = []
  end.
Proof.
  revert p. induction k as [|k IH]; intros p; cbn [dequeue_from]; [split; [done|lia]|].
  destruct (q p) as [|f l] eqn:E.
  - specialize (IH (S p)). destruct (dequeue_from k (S p) q) as [[f|] q'].
    + destruct IH as (p' & l & Hp & Hq & -> & He). exists p', l. split_and!; try done; try lia.
      intros r Hr. destruct (decide (r = p)) as [->|Hne]; [done|]. apply He. lia.
    + destruct IH as [-> He]. split; [done|]. intros r Hr. destruct (decide (r = p)) as [->|Hne]; [done|]. apply He. lia.
  - exists p, l. split_and!; try done; try lia.
Qed.

Lemma probe_from_spec k p q : probe_from k p q = false <-> forall r, (p <= r < p + k)%nat -> q r = [].
Proof.
  revert p. induction k as [|k IH]; intros p; cbn [probe_from]; [split; [lia|done]|].
  rewrite orb_false_iff, negb_false_iff, bool_decide_eq_true, IH. split.
  - intros [H0 H] r Hr. destruct (decide (r = p)) as [->|Hne]; [done|]. apply H. lia.
  - intros H. split; [apply H; lia|]. intros r Hr. apply H. lia.
Qed.

Lemma dequeue_spec q :
  match dequeue q with
  | (Some f, q') => contents q = f :: contents q' /\
                    exists p l, (p < NumPriority)%nat /\ q p = f :: l /\ (forall r, (r < p)%nat -> q r = [])
  | (None, q') => q' = q /\ contents q = []
  end.
Proof.
  unfold dequeue, dequeueInternal. pose proof (dequeue_from_spec NumPriority 0 q) as H.
  destruct (dequeue_from NumPriority 0 q) as [[f|] q']; unfold NumPriority in *.
  + destruct H as (p & l & Hp & Hq & -> & He). split.
    * unfold contents. destruct p as [|[|[|p]]]; [| | |lia]; rewrite ?upd_eq, ?upd_ne, Hq by done.
      -- done.
      -- by rewrite (He 0%nat) by lia.
      -- by rewrite (He 0%nat), (He 1%nat) by lia.
    * exists p, l. split_and!; [lia|done|]. intros r Hr. apply He. lia.
  + destruct H as [-> He]. split; [done|]. unfold contents. by rewrite !He by lia.
Qed.

(** What one more fred in a queue means for a count of its contents. *)
Lemma enqueue_spec f p q (g : nat -> bool) :
  (p < NumPriority)%nat -> exists q', enqueue f p q = Some q' /\ cnt g (contents q') = cnt g (contents q) + Z.b2z (g f).
Proof.
  intros Hp. unfold enqueue. rewrite bool_decide_eq_true_2 by done. eexists. split; [done|].
  unfold contents, NumPriority in *. rewrite !cnt_app.
  destruct p as [|[|[|p]]]; [| | |lia]; rewrite !upd_eq, !upd_ne, cnt_app by done; cbn; lia.
Qed.

(** [ReadyQueue]: a fred is queued behind those of its priority; [dequeue]
    takes the first fred of the highest non-empty priority, so freds come out by
    priority and first come first served within one, and it fails only when the
    queue is empty; [tryDequeue] is [dequeue] when it gets the lock, and changes
    nothing otherwise. *)
Theorem ready_queue_correct q :
  (forall f p, (p < NumPriority)%nat -> exists q', enqueue f p q = Some q' /\
     forall r, q' r = if decide (p = r) then q r ++ [f] else q r) /\
  (forall f p, (NumPriority <= p)%nat -> enqueue f p q = None) /\
  match dequeue q with
  | (Some f, q') => contents q = f :: contents q' /\
                    exists p l, (p < NumPriority)%nat /\ q p = f :: l /\ (forall r, (r < p)%nat -> q r = [])
  | (None, q') => q' = q /\ contents q = []
  end /\
  tryDequeue true q = dequeue q /\ tryDequeue false q = (None, q).
Proof.
  split_and!.
  - intros f p Hp. unfold enqueue. rewrite bool_decide_eq_true_2 by done. eexists. split; [done|].
    intros r. unfold upd. by case_decide; subst.
  - intros f p Hp. unfold enqueue. rewrite bool_decide_eq_false_2; [done|lia].
  - apply dequeue_spec.
  - unfold tryDequeue, dequeue, probe. destruct (probe_from NumPriority 0 q) eqn:E; [done|].
    pose proof (proj1 (probe_from_spec _ _ _) E) as He. unfold dequeueInternal.
    pose proof (dequeue_from_spec NumPriority 0 q) as H. destruct (dequeue_from NumPriority 0 q) as [[f|] q'].
    + destruct H as (p & l & Hp & Hq & _). by rewrite He in Hq by lia.
    + by destruct H as [-> _].
  - unfold tryDequeue. by destruct (probe q).
Qed.

Import RingSpec.

(** The scheduler's ring, from [placeProc] on. *)
Definition sched_ring (m : links) (s : Scheduler) (l : list Z) : Prop :=
  ringCount s = Z.of_nat (length l) /\
  match l with
  | [] => placeProc s = nullptr
  | p :: t => placeProc s = p /\ ring m p t
  end.

Lemma rotate m a b t : ring m a (b :: t) -> ring m b (t ++ [a]).
Proof.
  intros (Hc & Hnd & Hno). destruct Hc as [Hab Hc]. split_and!.
  - change (chain m ((b :: t ++ [a]) ++ [b])). apply chain_app. split_and!; [done|done|].
    intros x y Hx Hy. rewrite last_cons_snoc in Hx. simpl in Hy. by simplify_eq.
  - apply (NoDup_Permutation_proper (a :: b :: t)); [|done]. rewrite app_comm_cons. by rewrite Permutation_cons_append.
  - unfold nodes in *. rewrite Forall_forall in *. intros x Hx. apply Hno. set_solver.
Qed.

Lemma ring_next m a t : ring m a t -> exists b, head (t ++ [a]) = Some b /\ Next m a = Some b.
Proof.
  intros Hr. destruct (ListSpec.front_ok m a t Hr) as (f & Hf & Hn). by exists f.
Qed.

Lemma node_place m p t : ring m p t -> (p =? nullptr) = false.
Proof. intros (_ & _ & Hno). apply node_not_null. unfold nodes in Hno. by inversion Hno. Qed.

Lemma add_ok m s l proc :
  sched_ring m s l -> is_node proc = true -> proc ∉ l -> prevs m proc = nullptr -> nexts m proc = nullptr ->
  exists s' m', addProcessor proc s m = Some (s', m') /\
    sched_ring m' s' (match l with [] => [proc] | p :: t => p :: proc :: t end).
Proof.
  intros [Hc Hr] Hp Hin H1 H2. unfold addProcessor. destruct l as [|p t].
  - rewrite Hr. cbn. unfold Ring.close. rewrite set_Prev_ok by done. cbn. rewrite set_Next_ok by done. cbn.
    eexists _, _. split; [done|]. split; [cbn in *; lia|]. split; [done|]. split_and!.
    + split; [|done]. split; cbn; by rewrite upd_eq.
    + apply NoDup_singleton.
    + by constructor.
  - destruct Hr as [-> Hr]. rewrite (node_place _ _ _ Hr).
    destruct (ListSpec.insert_ok m p [] t [proc] p (default p (head (t ++ [p]))) proc proc) as [(m' & Hm & Hr') _]; try done.
    + by destruct t.
    + split_and!; try done; [apply NoDup_singleton|by constructor].
    + destruct Hr as (_ & [Ha Hn]%NoDup_cons & _). apply not_elem_of_cons in Hin as [Hne Hin].
      apply NoDup_cons. split; [|by apply NoDup_cons]. cbn. intros [->|?]%elem_of_cons; done.
    + rewrite Hm. cbn. eexists _, _. split; [done|]. split; [cbn in *; lia|]. done.
Qed.

Lemma remove_ok' m s l1 proc l2 :
  sched_ring m s (l1 ++ proc :: l2) ->
  exists s' m', removeProcessor proc s m = Some (s', m') /\ sched_ring m' s' (l1 ++ l2) /\
    prevs m' proc = nullptr /\ nexts m' proc = nullptr.
Proof.
  intros [Hc Hr]. unfold removeProcessor. destruct l1 as [|p l1].
  - destruct Hr as [Hp Hr]. rewrite Hp, (node_place _ _ _ Hr). cbn [negb rassert mbind option_bind].
    rewrite Z.eqb_refl. destruct (ring_next _ _ _ Hr) as (b & Hb & ->). cbn [mbind option_bind].
    destruct l2 as [|b' t].
    + (* the last processor *)
      cbn in Hb. simplify_eq. rewrite Z.eqb_refl. destruct Hr as (((Hn & Hv) & _) & _ & Hno).
      assert (Hnode : is_node (placeProc s) = true) by (unfold nodes in Hno; by inversion Hno).
      unfold Ring.remove, Ring.take_out, Ring.linked_node. mem. rewrite Hn, Hv, node_not_null by done.
      change (rassert (negb false && negb false)) with (Some tt). cbn [mbind option_bind]. mem. rewrite ?upd_eq, ?Hv, ?Hn. mem.
      eexists _, _. split; [reflexivity|]. cbn. split_and!; try by rewrite upd_eq. split; [cbn in *; lia|done].
    + cbn in Hb. simplify_eq.
      assert (Hne : (b =? placeProc s) = false).
      { apply Z.eqb_neq. intros ->. destruct Hr as (_ & [Ha _]%NoDup_cons & _). apply Ha. by left. }
      rewrite Hne. apply rotate in Hr.
      destruct (ListSpec.remove_run m b t [] [placeProc s] (placeProc s) (placeProc s)) as (m' & Hm & Hr' & Hd); try done.
      rewrite Hm, app_nil_r in *. cbn [mbind option_bind]. eexists _, _. split; [done|]. split; [|by destruct Hd as (_ & _ & _ & _ & _ & ? & ?)].
      split; [cbn in *; lia|done].
  - destruct Hr as [Hp Hr]. rewrite Hp, (node_place _ _ _ Hr). cbn [negb rassert mbind option_bind].
    assert (Hne : (p =? proc) = false).
    { apply Z.eqb_neq. intros ->. destruct Hr as (_ & [Ha _]%NoDup_cons & _). apply Ha, elem_of_app. right. by left. }
    rewrite Hne. cbn [mbind option_bind]. rewrite Hne.
    destruct (ListSpec.remove_run m p l1 l2 [proc] proc proc) as (m' & Hm & Hr' & Hd); try done.
    rewrite Hm. cbn [mbind option_bind]. eexists _, _. split; [done|]. split; [|by destruct Hd as (_ & _ & _ & _ & _ & ? & ?)].
    split; [|done]. cbn in *. rewrite length_app in *. cbn in *. lia.
Qed.

Lemma placement_ok m s p t :
  sched_ring m s (p :: t) ->
  exists q s', placement s m = Some (q, s') /\ head (t ++ [p]) = Some q /\ sched_ring m s' (t ++ [p]).
Proof.
  intros [Hc [Hp Hr]]. unfold placement. rewrite Hp, (node_place _ _ _ Hr). cbn [negb rassert mbind option_bind].
  destruct (ring_next _ _ _ Hr) as (b & Hb & ->). cbn [mbind option_bind]. eexists _, _. split; [done|]. split; [done|].
  destruct t as [|b' t]; cbn in Hb; simplify_eq.
  - by split.
  - split; [cbn in *; rewrite length_app; cbn; lia|]. split; [done|]. by apply rotate.
Qed.

Lemma placements_ok k m s p t :
  sched_ring m s (p :: t) -> (k <= length (p :: t))%nat ->
  exists s', placements k s m = Some (take k (t ++ [p]), s') /\ sched_ring m s' (drop k (p :: t) ++ take k (p :: t)).
Proof.
  revert s p t. induction k as [|k IH]; intros s p t Hr Hk.
  - exists s. by rewrite app_nil_r.
  - destruct (placement_ok m s p t Hr) as (q & s1 & H1 & Hq & Hr1). cbn [placements]. rewrite H1. cbn [mbind option_bind].
    destruct t as [|b t]; cbn in Hq; simplify_eq.
    + destruct k; [|cbn in Hk; lia]. exists s1. cbn. split; [done|]. done.
    + destruct (IH s1 q (t ++ [p])) as (s2 & H2 & Hr2); [done|cbn in *; rewrite length_app; cbn; lia|].
      rewrite H2. exists s2. cbn [mbind option_bind]. cbn in Hk. split.
      * rewrite (take_app_le (t ++ [p])) by (rewrite length_app; cbn; lia). done.
      * change (q :: t ++ [p]) with ((q :: t) ++ [p]) in Hr2. cbn [drop take].
        destruct (decide (k = S (length t))) as [->|Hne].
        { rewrite drop_app_le in Hr2 by (cbn; lia). rewrite take_app_le in Hr2 by (cbn; lia).
          rewrite !drop_ge in * by (cbn; lia). rewrite !take_ge in * by (cbn; lia). done. }
        rewrite drop_app_le, take_app_le in Hr2 by (cbn; lia). by rewrite <- app_assoc in Hr2.
Qed.

(** The ring of processors: a new processor comes right after [placeProc], any
    processor can be removed (the last one leaves an empty ring) and is unlinked
    afterwards; placement is round robin: as many placements as there are
    processors place once on each of them, in ring order, and return to the
    start; no assertion fails on a non-empty ring, and removal and placement
    fail theirs on an empty one. *)
Theorem processor_ring_correct m s l :
  sched_ring m s l ->
  (forall proc, is_node proc = true -> proc ∉ l -> prevs m proc = nullptr -> nexts m proc = nullptr ->
     exists s' m', addProcessor proc s m = Some (s', m') /\
       sched_ring m' s' (match l with [] => [proc] | p :: t => p :: proc :: t end)) /\
  (forall l1 proc l2, l = l1 ++ proc :: l2 ->
     exists s' m', removeProcessor proc s m = Some (s', m') /\ sched_ring m' s' (l1 ++ l2) /\
       prevs m' proc = nullptr /\ nexts m' proc = nullptr) /\
  (forall p t, l = p :: t -> exists s', placements (length l) s m = Some (t ++ [p], s') /\ sched_ring m s' l) /\
  (l = [] -> placement s m = None /\ forall proc, removeProcessor proc s m = None).
Proof.
  intros Hr. split_and!.
  - intros proc. by apply add_ok.
  - intros l1 proc l2 ->. by apply remove_ok'.
  - intros p t ->. destruct (placements_ok (length (p :: t)) m s p t Hr) as (s' & H1 & H2); [done|].
    exists s'. rewrite drop_ge, take_ge in H2 by done. rewrite H1, take_ge; [done|]. rewrite length_app. cbn. lia.
  - intros ->. destruct Hr as [_ Hr]. unfold placement, removeProcessor. by rewrite Hr.
Qed.

(** Three processors are added to an empty ring. *)
Definition three_processors : option (Scheduler * links) :=
  '(s1, m1) ← addProcessor 16 (mkScheduler 0 nullptr) (mkLinks (fun _ => nullptr) (fun _ => nullptr));
  '(s2, m2) ← addProcessor 32 s1 m1; addProcessor 48 s2 m2.

Lemma processor_ring_correct_witness :
  let r := default (mkScheduler 0 0, mkLinks (fun _ => 0) (fun _ => 0)) three_processors in
  sched_ring r.2 r.1 [16; 48; 32] /\ exists s', placements 3 r.1 r.2 = Some ([48; 32; 16], s').
Proof.
  set (r := default _ three_processors).
  assert (Hr : sched_ring r.2 r.1 [16; 48; 32]).
  { split; [reflexivity|]. split; [reflexivity|]. split_and!.
    - repeat (split; [by split; vm_compute|]). done.
    - apply (bool_decide_unpack _). by vm_compute.
    - by repeat constructor. }
  split; [exact Hr|]. destruct (processor_ring_correct _ _ _ Hr) as (_ & _ & H & _).
  destruct (H 16 [48; 32] eq_refl) as (s' & Hs & _). by exists s'.
Defined.
