(* ===== verification/IdleManagers.v ===== *)
(** How processors go idle and are woken: [BaseProcessor::searchAll],
    [scheduleIdle] and [enqueueResume] ([src/runtime/BaseProcessor.cc]) with the
    default [IdleManager] ([src/runtime/Scheduler.h]), as steps of all
    processors and of any number of threads that resume freds. *)
From S2P Require Import Prelude Schedulers.

Local Open Scope Z_scope.

(** [IdleManager::unblock], after the push of [enqueueResume]; [np] is the
    argument [nextProc]. *)
Inductive upc :=
| UIdle
| UPush (v p : nat)                 (* inside [enqueueFred] *)
| ULoop (np : option nat)           (* about to test [waitCounter] *)
| UTry (np : option nat)            (* about to try [procLock] *)
| UDec (w : nat)                    (* has taken [w] off the list: [decWaiting()] *)
| UWake (w : nat).                  (* [nextProc->wake()] *)

(** What a search of the ready queues is for. *)
Inductive mode :=
| Work                              (* [scheduleNonblocking]: a fred gives way *)
| Spinning (i : Z)                  (* round [i] of the spin loop of [scheduleIdle] *)
| Final.                            (* the search after [incWaiting()] *)

(** A processor.  Position [k] of a search is the processor's own queue for 0
    and the [k]-th victim after it in the ring. *)
Inductive pc :=
| Run                               (* a fred runs *)
| YPush (v p : nat)                 (* [enqueueYield] *)
| Scan (m : mode) (k p : nat)       (* [dequeue()], or [probe()] at priority [p] *)
| TryLock (m : mode) (k : nat)      (* [readyLock.tryAcquire()] *)
| Locked (m : mode) (k p : nat)     (* [dequeueInternal()] at priority [p] *)
| Unlock (m : mode) (k : nat) (r : option nat)   (* [readyLock.release()] *)
| Found (m : mode)                  (* the search has found a fred *)
| IncSpin | DecSpin | IncWait       (* [incSpinning], [decSpinning], [incWaiting] *)
| Push                              (* [IdleManager::block]: about to enter the list *)
| Halt                              (* in [haltSem.P()] *)
| Unb (u : upc).                    (* [unblockSpin] calls [unblock()] *)

Record state := mkState {
  procs : list pc;
  ext : list upc;                   (* threads that resume freds *)
  rq : nat * nat -> list nat;       (* ready queue of a processor, by priority *)
  rlocks : list (option nat);       (* [readyLock]s *)
  spinCounter : Z;
  waitCounter : Z;
  waiting : list nat;               (* [waitingProcs] *)
  halting : nat -> bool;
  sem : nat -> Z                    (* [haltSem] *)
}.

Inductive label :=
| Resume (e f v p : nat)            (* thread [e] resumes fred [f] of processor [v] *)
| GoE (e : nat) (c : bool)
| Search (i : nat)                  (* processor [i] looks for another fred *)
| Yield (i f v p : nat)             (* processor [i] has switched away from [f] *)
| Go (i : nat) (c : bool).

Section IdleManager.
Context (n : nat).                  (* processors *)
Context (IdleSpinMax : Z).
(** [TESTING_WAKE_FRED_WORKER]. *)
Context (wakeWorker : bool).
(** [tryDequeue] waits for the lock ([false]: as in the code, it does not). *)
Context (patient : bool).

Definition victim (i k : nat) : nat := (i + k) mod n.

Definition set_proc (i : nat) (c : pc) (s : state) : state :=
  mkState (<[i := c]> (procs s)) (ext s) (rq s) (rlocks s) (spinCounter s) (waitCounter s) (waiting s) (halting s) (sem s).
Definition set_ext (e : nat) (u : upc) (s : state) : state :=
  mkState (procs s) (<[e := u]> (ext s)) (rq s) (rlocks s) (spinCounter s) (waitCounter s) (waiting s) (halting s) (sem s).
Definition set_rq (vp : nat * nat) (l : list nat) (s : state) : state :=
  mkState (procs s) (ext s) (upd (rq s) vp l) (rlocks s) (spinCounter s) (waitCounter s) (waiting s) (halting s) (sem s).
Definition set_rlock (v : nat) (o : option nat) (s : state) : state :=
  mkState (procs s) (ext s) (rq s) (<[v := o]> (rlocks s)) (spinCounter s) (waitCounter s) (waiting s) (halting s) (sem s).
Definition add_spin (d : Z) (s : state) : state :=
  mkState (procs s) (ext s) (rq s) (rlocks s) (spinCounter s + d) (waitCounter s) (waiting s) (halting s) (sem s).
Definition add_wait (d : Z) (s : state) : state :=
  mkState (procs s) (ext s) (rq s) (rlocks s) (spinCounter s) (waitCounter s + d) (waiting s) (halting s) (sem s).
Definition set_waiting (ws : list nat) (h : nat -> bool) (s : state) : state :=
  mkState (procs s) (ext s) (rq s) (rlocks s) (spinCounter s) (waitCounter s) ws h (sem s).
Definition add_sem (w : nat) (d : Z) (s : state) : state :=
  mkState (procs s) (ext s) (rq s) (rlocks s) (spinCounter s) (waitCounter s) (waiting s) (halting s)
    (upd (sem s) w (sem s w + d)).

(** One step of [unblock]; [busy]: somebody else has [procLock]. *)
Definition ustep (u : upc) (busy : bool) (s : state) : option (upc * state) :=
  match u with
  | UIdle => None
  | UPush v p => Some (ULoop (Some v), s)
  | ULoop np => Some (if 0 <? waitCounter s then UTry np else UIdle, s)
  | UTry np =>
      if busy then Some (ULoop np, s)
      else match waiting s with
           | [] => Some (ULoop np, s)
           | h :: t =>
               let w := match np with
                        | Some x => if wakeWorker && halting s x then x else h
                        | None => h
                        end in
               Some (UDec w, set_waiting (base.filter (fun x => x <> w) (waiting s)) (upd (halting s) w false) s)
           end
  | UDec w => Some (UWake w, add_wait (-1) s)
  | UWake w => Some (UIdle, add_sem w 1 s)
  end.

(** Threads in the middle of a push to queue [(v, p)]: the nodes they have
    appended may not be visible yet. *)
Definition upushing (v p : nat) (u : upc) : bool :=
  match u with UPush v' p' => bool_decide (v' = v) && bool_decide (p' = p) | _ => false end.
Definition ppushing (v p : nat) (c : pc) : bool :=
  match c with YPush v' p' => bool_decide (v' = v) && bool_decide (p' = p) | _ => false end.
Definition pushers (v p : nat) (s : state) : Z := cnt (upushing v p) (ext s) + cnt (ppushing v p) (procs s).

(** A search has been everywhere. *)
Definition search_ends (i : nat) (m : mode) (c : bool) (s : state) : state :=
  match m with
  | Work => set_proc i (if c then Run else IncSpin) s       (* the idle fred runs [scheduleIdle] *)
  | Spinning j => set_proc i (if j + 1 <? IdleSpinMax then Scan (Spinning (j + 1)) 0 0 else DecSpin) s
  | Final => set_proc i Push s
  end.

(** A search has found a fred. *)
Definition found (i : nat) (m : mode) (s : state) : state :=
  match m with
  | Work => set_proc i Run s
  | Spinning _ => set_proc i (if spinCounter s - 1 =? 0 then Unb (ULoop None) else Run) (add_spin (-1) s)
  | Final => set_proc i Run (add_wait (-1) s)
  end.

Definition lock_queue (i v : nat) (c : pc) (s : state) : option state :=
  match rlocks s !! v with
  | Some None => Some (set_proc i c (set_rlock v (Some i) s))
  | _ => None
  end.

Definition pstep (i : nat) (c : bool) (s : state) : option state :=
  match procs s !! i with
  | Some (YPush v p) => Some (set_proc i Run s)
  | Some (Scan m k p) =>
      if bool_decide (k = n) then Some (search_ends i m c s)
      else if bool_decide (k = 0%nat) then lock_queue i (victim i 0) (Locked m 0 0) s
      else if bool_decide (p = NumPriority) then Some (set_proc i (Scan m (S k) 0) s)
      else if bool_decide (rq s (victim i k, p) = []) then Some (set_proc i (Scan m k (S p)) s)
      else Some (set_proc i (TryLock m k) s)
  | Some (TryLock m k) =>
      match lock_queue i (victim i k) (Locked m k 0) s with
      | Some s' => Some s'
      | None => if patient then None else Some (set_proc i (Scan m (S k) 0) s)
      end
  | Some (Locked m k p) =>
      if bool_decide (p = NumPriority) then Some (set_proc i (Unlock m k None) s)
      else match rq s (victim i k, p) with
           | [] => Some (set_proc i (Locked m k (S p)) s)
           | f :: l =>
               if c && (0 <? pushers (victim i k) p s) then Some (set_proc i (Locked m k (S p)) s)
               else Some (set_proc i (Unlock m k (Some f)) (set_rq (victim i k, p) l s))
           end
  | Some (Unlock m k r) =>
      Some (set_proc i (match r with None => Scan m (S k) 0 | Some _ => Found m end) (set_rlock (victim i k) None s))
  | Some (Found m) => Some (found i m s)
  | Some IncSpin => Some (set_proc i (Scan (Spinning 1) 0 0) (add_spin 1 s))
  | Some DecSpin => Some (set_proc i IncWait (add_spin (-1) s))
  | Some IncWait => Some (set_proc i (Scan Final 0 0) (add_wait 1 s))
  | Some Push => Some (set_proc i Halt (set_waiting (i :: waiting s) (upd (halting s) i true) s))
  | Some Halt => if 0 <? sem s i then Some (set_proc i IncSpin (add_sem i (-1) s)) else None
  | Some (Unb u) =>
      '(u', s') ← ustep u c s; Some (set_proc i (match u' with UIdle => Run | _ => Unb u' end) s')
  | Some Run | None => None
  end.

Definition step (l : label) (s : state) : option state :=
  match l with
  | Resume e f v p =>
      match ext s !! e with
      | Some UIdle =>
          if bool_decide (v < n)%nat && bool_decide (p < NumPriority)%nat
          then Some (set_ext e (UPush v p) (set_rq (v, p) (rq s (v, p) ++ [f]) s)) else None
      | _ => None
      end
  | GoE e c => u ← ext s !! e; '(u', s') ← ustep u c s; Some (set_ext e u' s')
  | Search i => match procs s !! i with Some Run => Some (set_proc i (Scan Work 0 0) s) | _ => None end
  | Yield i f v p =>
      match procs s !! i with
      | Some Run =>
          if bool_decide (v < n)%nat && bool_decide (p < NumPriority)%nat
          then Some (set_proc i (YPush v p) (set_rq (v, p) (rq s (v, p) ++ [f]) s)) else None
      | _ => None
      end
  | Go i c => pstep i c s
  end.

Definition init (s : state) : Prop :=
  exists m, s = mkState (replicate n Run) (replicate m UIdle) (fun _ => []) (replicate n None) 0 0 []
                  (fun _ => false) (fun _ => 0).
(** ** Counters *)
Definition mode_of (c : pc) : option mode :=
  match c with
  | Scan m _ _ | TryLock m _ | Locked m _ _ | Unlock m _ _ | Found m => Some m
  | _ => None
  end.
(** Counted by [spinCounter]. *)
Definition spins (c : pc) : bool :=
  match mode_of c with Some (Spinning _) => true | Some _ => false | None => match c with DecSpin => true | _ => false end end.
(** Counted by [waitCounter], before the processor is on the list. *)
Definition finals (c : pc) : bool :=
  match mode_of c with Some Final => true | Some _ => false | None => match c with Push => true | _ => false end end.
Definition is_halt (c : pc) : bool := match c with Halt => true | _ => false end.
Definition udec (u : upc) : bool := match u with UDec _ => true | _ => false end.
(** About to wake [w]. *)
Definition wakes (w : nat) (u : upc) : bool :=
  match u with UDec w' | UWake w' => bool_decide (w' = w) | _ => false end.
Definition in_unb (g : upc -> bool) (c : pc) : bool := match c with Unb u => g u | _ => false end.

Record counts_ok (s : state) : Prop := mkCounts {
  c_len : length (procs s) = n;
  c_spin : spinCounter s = cnt spins (procs s);
  c_wait : waitCounter s = cnt finals (procs s) + Z.of_nat (length (waiting s)) +
                           cnt udec (ext s) + cnt (in_unb udec) (procs s);
  c_nodup : NoDup (waiting s);
  c_sem i : 0 <= sem s i;
  c_halt i : Z.b2z (bool_decide (i ∈ waiting s)) + sem s i +
             cnt (wakes i) (ext s) + cnt (in_unb (wakes i)) (procs s) =
             Z.b2z (match procs s !! i with Some c => is_halt c | None => false end);
  c_halting i : halting s i = true -> i ∈ waiting s
}.

Lemma cnt_false {A} (l : list A) (g : A -> bool) : (forall x, g x = false) -> cnt g l = 0.
Proof. intros H. induction l as [|x l IH]; cbn; [done|]. rewrite H. cbn. lia. Qed.

Lemma init_counts s : init s -> counts_ok s.
Proof.
  intros (m & ->). split; cbn; try done.
  - by rewrite length_replicate.
  - rewrite cnt_replicate. cbn. lia.
  - rewrite !cnt_replicate. cbn. lia.
  - constructor.
  - intros i. rewrite !cnt_replicate, (bool_decide_eq_false_2 (i ∈ [])) by (by intros ?%elem_of_nil). cbn.
    destruct (replicate n Run !! i) as [c|] eqn:E; cbn; [|lia].
    apply lookup_replicate in E as [-> _]. cbn. lia.
Qed.

(** A processor moves between places that count alike. *)
Lemma proc_move s i c c' :
  counts_ok s -> procs s !! i = Some c ->
  spins c' = spins c -> finals c' = finals c -> is_halt c' = is_halt c ->
  (forall g, in_unb g c' = in_unb g c) -> counts_ok (set_proc i c' s).
Proof.
  intros [Hl Hs Hw Hn Hse Hh Hg] Hi Es Ef Eh Eu. split; cbn; try done.
  - by rewrite length_insert.
  - rewrite (cnt_insert _ _ _ _ _ Hi), Es. lia.
  - rewrite !(cnt_insert _ _ _ _ _ Hi), Ef, Eu. lia.
  - intros j. rewrite (cnt_insert _ _ _ _ _ Hi), Eu. specialize (Hh j).
    destruct (decide (i = j)) as [<-|Hne].
    + rewrite list_lookup_insert_eq, Eh by (by eapply lookup_lt_Some). rewrite Hi in Hh. lia.
    + rewrite list_lookup_insert_ne by done. lia.
Qed.

(** Queues and locks are not counted. *)
Lemma counts_same s s' :
  counts_ok s -> procs s' = procs s -> ext s' = ext s -> spinCounter s' = spinCounter s ->
  waitCounter s' = waitCounter s -> waiting s' = waiting s -> sem s' = sem s -> halting s' = halting s -> counts_ok s'.
Proof. intros [Hl Hs Hw Hn Hse Hh Hg] E1 E2 E3 E4 E5 E6 E7. split; rewrite ?E1, ?E2, ?E3, ?E4, ?E5, ?E6, ?E7; done. Qed.

Lemma set_rq_counts s vp l : counts_ok s -> counts_ok (set_rq vp l s).
Proof. intros H. by apply (counts_same s). Qed.
Lemma set_rlock_counts s v o : counts_ok s -> counts_ok (set_rlock v o s).
Proof. intros H. by apply (counts_same s). Qed.

(** A processor moves and one counter with it. *)
Lemma spin_move s i c c' d :
  counts_ok s -> procs s !! i = Some c -> d = Z.b2z (spins c') - Z.b2z (spins c) ->
  finals c' = finals c -> is_halt c' = is_halt c -> (forall g, g UIdle = false -> g (ULoop None) = false -> in_unb g c' = in_unb g c) ->
  counts_ok (set_proc i c' (add_spin d s)).
Proof.
  intros [Hl Hs Hw Hn Hse Hh Hg] Hi -> Ef Eh Eu. split; cbn; try done.
  - by rewrite length_insert.
  - rewrite (cnt_insert _ _ _ _ _ Hi). lia.
  - rewrite !(cnt_insert _ _ _ _ _ Hi), Ef, Eu by done. lia.
  - intros j. rewrite (cnt_insert _ _ _ _ _ Hi), Eu by done. specialize (Hh j).
    destruct (decide (i = j)) as [<-|Hne].
    + rewrite list_lookup_insert_eq, Eh by (by eapply lookup_lt_Some). rewrite Hi in Hh. lia.
    + rewrite list_lookup_insert_ne by done. lia.
Qed.

Lemma wait_move s i c c' d :
  counts_ok s -> procs s !! i = Some c -> d = Z.b2z (finals c') - Z.b2z (finals c) ->
  spins c' = spins c -> is_halt c' = is_halt c -> (forall g, in_unb g c' = in_unb g c) ->
  counts_ok (set_proc i c' (add_wait d s)).
Proof.
  intros [Hl Hs Hw Hn Hse Hh Hg] Hi -> Es Eh Eu. split; cbn; try done.
  - by rewrite length_insert.
  - rewrite (cnt_insert _ _ _ _ _ Hi), Es. lia.
  - rewrite !(cnt_insert _ _ _ _ _ Hi), Eu. lia.
  - intros j. rewrite (cnt_insert _ _ _ _ _ Hi), Eu. specialize (Hh j).
    destruct (decide (i = j)) as [<-|Hne].
    + rewrite list_lookup_insert_eq, Eh by (by eapply lookup_lt_Some). rewrite Hi in Hh. lia.
    + rewrite list_lookup_insert_ne by done. lia.
Qed.

Lemma push_move s i :
  counts_ok s -> procs s !! i = Some Push ->
  counts_ok (set_proc i Halt (set_waiting (i :: waiting s) (upd (halting s) i true) s)).
Proof.
  intros [Hl Hs Hw Hn Hse Hh Hg] Hi. assert (Hni : i ∉ waiting s).
  { intros Hin. specialize (Hh i). rewrite Hi, bool_decide_eq_true_2 in Hh by done. cbn in Hh.
    pose proof (cnt_nonneg (wakes i) (ext s)). pose proof (cnt_nonneg (in_unb (wakes i)) (procs s)).
    specialize (Hse i). lia. }
  split; cbn; try done.
  - by rewrite length_insert.
  - rewrite (cnt_insert _ _ _ _ _ Hi). cbn. lia.
  - rewrite !(cnt_insert _ _ _ _ _ Hi). cbn [finals mode_of in_unb Z.b2z]. lia.
  - by constructor.
  - intros j. rewrite (cnt_insert _ _ _ _ _ Hi). cbn. specialize (Hh j). destruct (decide (i = j)) as [<-|Hne].
    + rewrite list_lookup_insert_eq by (by eapply lookup_lt_Some). rewrite Hi in Hh. cbn in Hh.
      rewrite bool_decide_eq_true_2 by by left. rewrite bool_decide_eq_false_2 in Hh by done. cbn in *. lia.
    + rewrite list_lookup_insert_ne by done. replace (bool_decide (j ∈ i :: waiting s)) with (bool_decide (j ∈ waiting s)); [lia|].
      apply bool_decide_ext. set_solver.
  - intros j. at_fred j i; [by left|]. intros ?%Hg. by right.
Qed.

Lemma wake_move s i :
  counts_ok s -> procs s !! i = Some Halt -> 0 < sem s i -> counts_ok (set_proc i IncSpin (add_sem i (-1) s)).
Proof.
  intros [Hl Hs Hw Hn Hse Hh Hg] Hi Hsem. split; cbn; try done.
  - by rewrite length_insert.
  - rewrite (cnt_insert _ _ _ _ _ Hi). cbn. lia.
  - rewrite !(cnt_insert _ _ _ _ _ Hi). cbn. lia.
  - intros j. specialize (Hse j). at_fred j i; lia.
  - intros j. rewrite (cnt_insert _ _ _ _ _ Hi). cbn. specialize (Hh j). destruct (decide (i = j)) as [<-|Hne].
    + rewrite upd_eq, list_lookup_insert_eq by (by eapply lookup_lt_Some). rewrite Hi in Hh. cbn in *. lia.
    + rewrite upd_ne, list_lookup_insert_ne by done. lia.
Qed.
(** What a step of [unblock] does to the counted things. *)
Lemma ustep_counts s u busy u' s1 :
  counts_ok s -> ustep u busy s = Some (u', s1) ->
  procs s1 = procs s /\ ext s1 = ext s /\ spinCounter s1 = spinCounter s /\
  waitCounter s1 - Z.of_nat (length (waiting s1)) =
    waitCounter s - Z.of_nat (length (waiting s)) + Z.b2z (udec u') - Z.b2z (udec u) /\
  NoDup (waiting s1) /\ (forall i, 0 <= sem s1 i) /\ (forall i, halting s1 i = true -> i ∈ waiting s1) /\
  forall i, Z.b2z (bool_decide (i ∈ waiting s1)) + sem s1 i + Z.b2z (wakes i u') =
            Z.b2z (bool_decide (i ∈ waiting s)) + sem s i + Z.b2z (wakes i u).
Proof.
  intros [Hl Hs Hw Hn Hse Hh Hg] Hu. destruct u as [|v p|np|np|w|w]; cbn in Hu; simplify_eq.
  - split_and!; try done; cbn; lia.
  - destruct (0 <? waitCounter s1); split_and!; try done; try (cbn; lia).
  - destruct busy; simplify_eq; [split_and!; try done; cbn; lia|].
    destruct (waiting s) as [|h t] eqn:Ew; simplify_eq; [rewrite Ew; split_and!; try done; cbn; lia|].
    set (w := match np with Some x => if wakeWorker && halting s x then x else h | None => h end).
    assert (Hwin : w ∈ h :: t).
    { unfold w. destruct np as [x|]; [|by left]. destruct (wakeWorker && halting s x) eqn:E; [|by left].
      bool_prop. by apply Hg. }
    pose proof (length_filter_out _ _ Hn Hwin) as Hlen. cbn [set_waiting procs ext spinCounter waitCounter waiting sem halting].
    split_and!; try done.
    + cbn [udec Z.b2z]. lia.
    + by apply NoDup_filter.
    + intros i Hi. revert Hi. at_fred i w; [done|]. intros Hi%Hg. apply list_elem_of_filter. split; [|done]. by apply not_eq_sym.
    + intros i. cbn [wakes Z.b2z]. destruct (decide (w = i)) as [<-|Hne].
      * rewrite (bool_decide_eq_false_2 (w ∈ base.filter _ _)) by (intros [? _]%list_elem_of_filter; done).
        rewrite (bool_decide_eq_true_2 (w ∈ h :: t)), (bool_decide_eq_true_2 (w = w)) by done. cbn. lia.
      * rewrite (bool_decide_eq_false_2 (w = i)) by done.
        replace (bool_decide (i ∈ base.filter (fun x => x <> w) (h :: t))) with (bool_decide (i ∈ h :: t)); [cbn; lia|].
        apply bool_decide_ext. rewrite list_elem_of_filter. split; [|by intros [_ ?]]. intros ?. split; [|done]. by apply not_eq_sym.
  - split_and!; try done; cbn; lia.
  - split_and!; try done; cbn; [lia| |].
    + intros i. specialize (Hse i). at_fred i w; lia.
    + intros i. at_fred i w; [rewrite (bool_decide_eq_true_2 (w = w)) by done; cbn; lia|].
      rewrite (bool_decide_eq_false_2 (w = i)) by done. cbn. lia.
Qed.

Lemma ext_counts s e u busy u' s1 :
  counts_ok s -> ext s !! e = Some u -> ustep u busy s = Some (u', s1) -> counts_ok (set_ext e u' s1).
Proof.
  intros Hc He Hu. destruct (ustep_counts s u busy u' s1 Hc Hu) as (E1 & E2 & E3 & Hw1 & Hn1 & Hs1 & Hg1 & Hh1).
  destruct Hc as [Hl Hs Hw Hn Hse Hh Hg]. split; cbn; rewrite ?E1, ?E2, ?E3; try done.
  - rewrite (cnt_insert _ _ _ _ _ He). lia.
  - intros i. rewrite (cnt_insert _ _ _ _ _ He). specialize (Hh i). specialize (Hh1 i). lia.
Qed.

Lemma unb_counts s i u busy u' s1 :
  counts_ok s -> procs s !! i = Some (Unb u) -> ustep u busy s = Some (u', s1) ->
  counts_ok (set_proc i (match u' with UIdle => Run | _ => Unb u' end) s1).
Proof.
  intros Hc Hi Hu. destruct (ustep_counts s u busy u' s1 Hc Hu) as (E1 & E2 & E3 & Hw1 & Hn1 & Hs1 & Hg1 & Hh1).
  set (c' := match u' with UIdle => Run | _ => Unb u' end).
  assert (Hc' : spins c' = false /\ finals c' = false /\ is_halt c' = false /\
                forall g, g UIdle = false -> in_unb g c' = g u') by (unfold c'; destruct u'; naive_solver).
  destruct Hc' as (C1 & C2 & C3 & C4).
  destruct Hc as [Hl Hs Hw Hn Hse Hh Hg]. split; cbn; rewrite ?E1, ?E2, ?E3; try done.
  - by rewrite length_insert.
  - rewrite (cnt_insert _ _ _ _ _ Hi), C1. cbn. lia.
  - rewrite !(cnt_insert _ _ _ _ _ Hi), C2, C4 by done. cbn. lia.
  - intros j. rewrite (cnt_insert _ _ _ _ _ Hi), C4 by done. specialize (Hh j). specialize (Hh1 j). cbn.
    destruct (decide (i = j)) as [<-|Hne].
    + rewrite list_lookup_insert_eq, C3 by (by eapply lookup_lt_Some). rewrite Hi in Hh. cbn [is_halt Z.b2z] in Hh |- *. lia.
    + rewrite list_lookup_insert_ne by done. lia.
Qed.

Lemma ext_start s e u :
  counts_ok s -> ext s !! e = Some UIdle -> udec u = false -> (forall i, wakes i u = false) -> counts_ok (set_ext e u s).
Proof.
  intros [Hl Hs Hw Hn Hse Hh Hg] He Eu Ew. split; cbn; try done.
  - rewrite (cnt_insert _ _ _ _ _ He), Eu. cbn. lia.
  - intros i. rewrite (cnt_insert _ _ _ _ _ He), Ew. specialize (Hh i). cbn. lia.
Qed.

Lemma lock_queue_ok s i v c s' :
  lock_queue i v c s = Some s' -> s' = set_proc i c (set_rlock v (Some i) s).
Proof. unfold lock_queue. destruct (rlocks s !! v) as [[]|]; by intros [=]. Qed.

Lemma pstep_counts i b s s' : counts_ok s -> pstep i b s = Some s' -> counts_ok s'.
Proof.
  intros Hc Hs. unfold pstep in Hs. destruct (procs s !! i) as [c|] eqn:Hi; [|done].
  assert (Hmv : forall c' s1, counts_ok s1 -> procs s1 !! i = Some c ->
    spins c' = spins c -> finals c' = finals c -> is_halt c' = is_halt c -> (forall g, in_unb g c' = in_unb g c) ->
    counts_ok (set_proc i c' s1)) by (intros; by eapply proc_move).
  destruct c as [|v p|m k p|m k|m k p|m k r|m| | | | | |u]; simplify_eq.
  - by apply Hmv.
  - repeat case_bool_decide; simplify_eq; try by apply Hmv.
    + unfold search_ends. destruct m; [destruct b| |]; apply Hmv; try done; by destruct (_ <? _).
    + apply lock_queue_ok in Hs as ->. by apply Hmv; [apply set_rlock_counts|..].
  - destruct (lock_queue i (victim i k) (Locked m k 0) s) as [s1|] eqn:E; simplify_eq.
    + apply lock_queue_ok in E as ->. by apply Hmv; [apply set_rlock_counts|..].
    + destruct patient; simplify_eq. by apply Hmv.
  - repeat case_bool_decide; simplify_eq; [by apply Hmv|].
    destruct (rq s (victim i k, p)) as [|f l]; simplify_eq; [by apply Hmv|].
    destruct (b && _); simplify_eq; [by apply Hmv|]. by apply Hmv; [apply set_rq_counts|..].
  - destruct r; apply Hmv; try done; by apply set_rlock_counts.
  - unfold found. destruct m; [by apply Hmv| |].
    + eapply spin_move; try done; by destruct (_ =? _).
    + by eapply wait_move.
  - by eapply spin_move.
  - by eapply spin_move.
  - by eapply wait_move.
  - by apply push_move.
  - destruct (0 <? sem s i) eqn:E; simplify_eq. bool_prop. by apply wake_move.
  - destruct (ustep u b s) as [[u' s1]|] eqn:Hu; simplify_eq/=. by eapply unb_counts.
Qed.

Lemma step_counts l s s' : counts_ok s -> step l s = Some s' -> counts_ok s'.
Proof.
  intros Hc Hs. destruct l as [e f v p|e b|i|i f v p|i b]; cbn [step] in Hs.
  - destruct (ext s !! e) as [[]|] eqn:He; try done. destruct (_ && _); simplify_eq.
    by apply ext_start; [apply set_rq_counts|..].
  - destruct (ext s !! e) as [u|] eqn:He; simplify_eq/=.
    destruct (ustep u b s) as [[u' s1]|] eqn:Hu; simplify_eq/=. by eapply ext_counts.
  - destruct (procs s !! i) as [[]|] eqn:Hi; try done. simplify_eq. by eapply proc_move.
  - destruct (procs s !! i) as [[]|] eqn:Hi; try done. destruct (_ && _); simplify_eq.
    by eapply proc_move; [apply set_rq_counts|..].
  - by eapply pstep_counts.
Qed.

Lemma idle_reachable_counts s : reachable init step s -> counts_ok s.
Proof. apply invariant_rule; [apply init_counts|]. intros ? ? ?. apply step_counts. Qed.
(** ** No ready fred is forgotten *)

(** A thread that will still wake somebody, or see that nobody sleeps. *)
Definition active (s : state) : Prop := exists e u, ext s !! e = Some u /\ u <> UIdle.

(** A processor that will search all queues once more before it can sleep. *)
Definition awake (s : state) (i : nat) (c : pc) : Prop :=
  match c with
  | Scan Final _ _ | TryLock Final _ | Locked Final _ _ | Unlock Final _ None | Push => False
  | Halt => 0 < sem s i
  | _ => True
  end.

(** A processor in its last search that has not passed queue [(v, p)]. *)
Definition looks (i : nat) (c : pc) (v p : nat) : Prop :=
  exists k', (k' < n)%nat /\ v = victim i k' /\
  match c with
  | Scan Final k p' | Locked Final k p' => (k < k')%nat \/ k = k' /\ (p' <= p)%nat
  | TryLock Final k => (k <= k')%nat
  | Unlock Final k None => (k < k')%nat
  | _ => False
  end.

Definition somebody_awake (s : state) : Prop := exists i c, procs s !! i = Some c /\ awake s i c.
Definition all_looked_at (s : state) : Prop :=
  forall v p, (v < n)%nat -> (p < NumPriority)%nat -> rq s (v, p) <> [] ->
  exists i c, procs s !! i = Some c /\ looks i c v p.
Definition live (s : state) : Prop := active s \/ somebody_awake s \/ all_looked_at s.

(** A processor moves: it stays awake, or starts its last search, or does not
    pass a queue that holds freds. *)
Lemma live_proc s s' i c c' :
  live s -> procs s !! i = Some c -> procs s' = <[i := c']> (procs s) -> ext s' = ext s ->
  (forall j, j <> i -> sem s' j = sem s j) ->
  (forall vp, rq s' vp <> [] -> rq s vp <> []) ->
  (awake s i c -> awake s' i c' \/
     forall v p, (v < n)%nat -> (p < NumPriority)%nat -> rq s' (v, p) <> [] -> looks i c' v p) ->
  (awake s' i c' \/ live s' \/ forall v p, (p < NumPriority)%nat -> rq s' (v, p) <> [] -> looks i c v p -> looks i c' v p) ->
  live s'.
Proof.
  intros Hl Hi Hp He Hsem Hrq Haw Hlk.
  assert (Hin : procs s' !! i = Some c').
  { rewrite Hp. apply list_lookup_insert_eq. by eapply lookup_lt_Some. }
  assert (Hoth : forall j d, j <> i -> procs s !! j = Some d -> procs s' !! j = Some d).
  { intros j d Hne Hj. by rewrite Hp, list_lookup_insert_ne by by apply not_eq_sym. }
  destruct Hlk as [?|[?|Hlk]]; [right; left; by exists i, c'|done|].
  destruct Hl as [(e & u & Hu & Hne)|[(j & d & Hj & Hd)|Hall]].
  - left. exists e, u. by rewrite He.
  - destruct (decide (j = i)) as [->|Hne].
    + rewrite Hi in Hj. simplify_eq. destruct (Haw Hd) as [?|H].
      * right. left. by exists i, c'.
      * right. right. intros v p Hv Hpp Hq. exists i, c'. auto.
    + right. left. exists j, d. split; [by apply Hoth|]. unfold awake in *. destruct d; try done. by rewrite Hsem.
  - right. right. intros v p Hv Hpp Hq. destruct (Hall v p Hv Hpp) as (j & d & Hj & Hd); [by apply Hrq|].
    destruct (decide (j = i)) as [->|Hne]; [|exists j, d; auto].
    rewrite Hi in Hj. simplify_eq. exists i, c'. auto.
Qed.

(** When nobody waits, whoever is asleep is about to be woken. *)
Lemma nobody_waits s :
  counts_ok s -> (0 < n)%nat -> waitCounter s <= 0 ->
  (exists e u w, ext s !! e = Some u /\ wakes w u = true) \/ somebody_awake s.
Proof.
  intros [Hl Hs Hw Hn Hse Hh Hg] Hpos H0. pose proof (cnt_nonneg finals (procs s)).
  pose proof (cnt_nonneg udec (ext s)). pose proof (cnt_nonneg (in_unb udec) (procs s)).
  destruct (lookup_lt_is_Some_2 (procs s) 0) as [c Hc]; [lia|]. pose proof (Hh 0%nat) as H0'. rewrite Hc in H0'.
  assert (Hf : finals c = false) by (apply (cnt_zero finals (procs s) 0 c); [lia|done]).
  destruct (is_halt c) eqn:Eh; [|right; exists 0%nat, c; split; [done|]; by destruct c as [| | [] | [] | [] | [] ? [] | [] | | | | | |]].
  assert (waiting s = []) as Ew by (apply nil_length_inv; lia). rewrite Ew in H0'.
  rewrite bool_decide_eq_false_2 in H0' by (by intros ?%elem_of_nil). specialize (Hse 0%nat). cbn [Z.b2z] in H0'.
  destruct (decide (0 < sem s 0)) as [Hp|Hz]; [right; exists 0%nat, c; split; [done|]; by destruct c|].
  pose proof (cnt_nonneg (wakes 0) (ext s)). destruct (decide (0 < cnt (wakes 0) (ext s))) as [He|He].
  - left. apply cnt_pos in He as (e & u & He & Hu). by exists e, u, 0%nat.
  - right. destruct (cnt_pos (in_unb (wakes 0)) (procs s)) as (j & d & Hj & Hd); [lia|]. exists j, d.
    split; [done|]. by destruct d.
Qed.

(** Only halted processors are woken. *)
Lemma wakes_halted s w :
  counts_ok s -> 0 < cnt (wakes w) (ext s) + cnt (in_unb (wakes w)) (procs s) -> procs s !! w = Some Halt.
Proof.
  intros Hc H. pose proof (c_halt _ Hc w) as Hh. pose proof (c_sem _ Hc w).
  destruct (procs s !! w) as [c|]; [|destruct (bool_decide _); cbn in Hh; lia].
  destruct c; try done; destruct (bool_decide _); cbn [is_halt Z.b2z] in Hh; lia.
Qed.

Lemma pusher_live s v p : 0 < pushers v p s -> active s \/ somebody_awake s.
Proof.
  intros H. pose proof (cnt_nonneg (upushing v p) (ext s)). unfold pushers in H.
  destruct (decide (0 < cnt (upushing v p) (ext s))) as [He|He].
  - apply cnt_pos in He as (e & u & He & Hu). left. exists e, u. split; [done|]. by intros ->.
  - destruct (cnt_pos (ppushing v p) (procs s)) as (j & d & Hj & Hd); [lia|]. right. exists j, d.
    split; [done|]. by destruct d.
Qed.

(** A thread that leaves [unblock] leaves somebody awake or on his way. *)
Lemma ext_live s e u b u' s1 :
  counts_ok s -> (0 < n)%nat -> ext s !! e = Some u -> ustep u b s = Some (u', s1) -> live (set_ext e u' s1).
Proof.
  intros Hc Hpos He Hu. destruct (ustep_counts s u b u' s1 Hc Hu) as (E1 & E2 & _).
  assert (He' : <[e := u']> (ext s1) !! e = Some u').
  { rewrite E2. apply list_lookup_insert_eq. by eapply lookup_lt_Some. }
  destruct u' as [| | | | |]; try (left; eexists e, _; split; [exact He'|done]).
  destruct u as [|v p|np|np|w|w]; cbn in Hu; simplify_eq.
  - destruct (Z.ltb_spec 0 (waitCounter s1)) as [|Hw]; simplify_eq.
    destruct (nobody_waits s1 Hc Hpos Hw) as [(e' & u' & w & Hx & Hwk)|(j & d & Hj & Hd)].
    + left. exists e', u'. cbn. rewrite list_lookup_insert_ne by (intros ->; by simplify_eq). split; [done|]. by intros ->.
    + right. left. by exists j, d.
  - destruct b; simplify_eq. destruct (waiting s); simplify_eq.
  - right. left. exists w, Halt. cbn in *. split.
    + apply (wakes_halted s w Hc). pose proof (cnt_nonneg (in_unb (wakes w)) (procs s)).
      pose proof (cnt_lookup (wakes w) _ _ _ He (bool_decide_eq_true_2 (w = w) eq_refl)). lia.
    + rewrite upd_eq. pose proof (c_sem _ Hc w). lia.
Qed.
Lemma victim_all i v : (v < n)%nat -> exists k, (k < n)%nat /\ v = victim i k.
Proof.
  intros Hv. exists ((v + (n - i mod n)) mod n)%nat. assert (n <> 0)%nat by lia.
  split; [by apply Nat.mod_upper_bound|]. unfold victim.
  rewrite Nat.Div0.add_mod_idemp_r. rewrite (Nat.div_mod_eq i n) at 1.
  pose proof (Nat.mod_upper_bound i n ltac:(done)).
  replace (n * (i / n) + i mod n + (v + (n - i mod n)))%nat with (v + (i / n + 1) * n)%nat by nia.
  by rewrite Nat.Div0.mod_add, Nat.mod_small.
Qed.

Lemma live_awake s i c c' s1 :
  procs s !! i = Some c -> procs s1 = procs s -> awake (set_proc i c' s1) i c' -> live (set_proc i c' s1).
Proof.
  intros Hi E Ha. right. left. exists i, c'. split; [|done]. cbn. rewrite E.
  apply list_lookup_insert_eq. by eapply lookup_lt_Some.
Qed.

(** A processor goes on with its last search. *)
Lemma live_search s i c c' s1 :
  live s -> procs s !! i = Some c -> procs s1 = procs s -> ext s1 = ext s -> sem s1 = sem s -> rq s1 = rq s ->
  awake s i c = False ->
  (forall v p, (p < NumPriority)%nat -> rq s (v, p) <> [] -> looks i c v p -> looks i c' v p) -> live (set_proc i c' s1).
Proof.
  intros Hl Hi E1 E2 E3 E4 Ha Hlk. eapply (live_proc s); cbn; rewrite ?E1, ?E2, ?E3, ?E4; try done.
  - rewrite Ha. intros [].
  - right. by right.
Qed.

(** The last search passes a queue on which a push is going on. *)
Lemma live_missed s i c c' :
  procs s !! i = Some c -> awake s i c = False -> active s \/ somebody_awake s -> live (set_proc i c' s).
Proof.
  intros Hi Ha [?|(j & d & Hj & Hd)]; [by left|]. right. left. exists j, d.
  cbn. rewrite list_lookup_insert_ne; [done|]. intros ->. simplify_eq. by rewrite Ha in Hd.
Qed.

Lemma final_dec m : m = Final \/ m <> Final.
Proof. destruct m; auto. Qed.

Ltac looking := intros v' p' Hp' Hq' (k' & Hk' & -> & Hat); exists k'; split_and!; [done|done|]; unfold NumPriority in *; try lia.

Lemma pstep_live i b s s' :
  patient = true -> counts_ok s -> (0 < n)%nat -> live s -> pstep i b s = Some s' -> live s'.
Proof.
  intros Hpat Hc Hpos Hl Hs. unfold pstep in Hs. destruct (procs s !! i) as [c|] eqn:Hi; [|done].
  destruct c as [|v p|m k p|m k|m k p|m k r|m| | | | | |u]; simplify_eq.
  - by eapply live_awake.
  - destruct (final_dec m) as [->|Hm].
    + case_bool_decide as Hk; simplify_eq; [eapply live_search; try done; looking|].
      case_bool_decide as Hk0; simplify_eq.
      { apply lock_queue_ok in Hs as ->. eapply live_search; try done. looking. }
      case_bool_decide as Hp; simplify_eq; [eapply live_search; try done; looking|].
      case_bool_decide as Hq; simplify_eq; [|eapply live_search; try done; looking].
      eapply live_search; try done. looking. destruct Hat as [?|[-> ?]]; [by left|]. right. split; [done|].
      destruct (decide (p = p')) as [->|]; [done|lia].
    + repeat case_bool_decide; simplify_eq; [|apply lock_queue_ok in Hs as ->| | |]; (eapply live_awake || unfold search_ends);
        try done; destruct m; try done; try (by destruct b; eapply live_awake); eapply live_awake; try done; by destruct (_ <? _).
  - destruct (lock_queue i (victim i k) (Locked m k 0) s) as [s1|] eqn:E; simplify_eq.
    apply lock_queue_ok in E as ->. destruct (final_dec m) as [->|Hm].
    + eapply live_search; try done. looking.
    + eapply live_awake; try done. by destruct m.
  - destruct (final_dec m) as [->|Hm].
    + case_bool_decide; simplify_eq; [eapply live_search; try done; looking|].
      destruct (rq s (victim i k, p)) as [|f l] eqn:Hq; simplify_eq.
      { eapply live_search; try done. looking. destruct Hat as [?|[-> ?]]; [by left|]. right. split; [done|].
        destruct (decide (p = p')) as [->|]; [done|lia]. }
      destruct (b && _) eqn:Hm; simplify_eq; [|by eapply live_awake].
      bool_prop. eapply live_missed; [done|done|]. by eapply pusher_live.
    + case_bool_decide; simplify_eq; [eapply live_awake; try done; by destruct m|].
      destruct (rq s (victim i k, p)); simplify_eq; [eapply live_awake; try done; by destruct m|].
      destruct (b && _); simplify_eq; eapply live_awake; try done; by destruct m.
  - destruct r; [by eapply live_awake|]. destruct (final_dec m) as [->|Hm].
    + eapply live_search; try done. looking.
    + eapply live_awake; try done. by destruct m.
  - unfold found. destruct m; eapply live_awake; try done. by destruct (_ =? _).
  - by eapply live_awake.
  - by eapply live_awake.
  - eapply (live_proc s); try done.
    + intros _. right. intros v p Hv _ _. destruct (victim_all i v Hv) as (k & Hk & ->). exists k. split_and!; try done. lia.
    + right. right. by intros v p _ _ (k & _ & _ & []).
  - eapply (live_proc s); try done. right. right. by intros v p _ _ (k & _ & _ & []).
  - destruct (0 <? sem s i); simplify_eq. by eapply live_awake.
  - destruct (ustep u b s) as [[u' s1]|] eqn:Hu; simplify_eq/=. destruct (ustep_counts s u b u' s1 Hc Hu) as (E1 & _).
    eapply live_awake; try done. by destruct u'.
Qed.

Lemma step_live l s s' :
  patient = true -> (0 < n)%nat -> counts_ok s -> live s -> step l s = Some s' -> live s'.
Proof.
  intros Hpat Hpos Hc Hl Hs. destruct l as [e f v p|e b|i|i f v p|i b]; cbn [step] in Hs.
  - destruct (ext s !! e) as [[]|] eqn:He; try done. destruct (_ && _); simplify_eq.
    left. exists e, (UPush v p). split; [|done]. cbn. apply list_lookup_insert_eq. by eapply lookup_lt_Some.
  - destruct (ext s !! e) as [u|] eqn:He; simplify_eq/=.
    destruct (ustep u b s) as [[u' s1]|] eqn:Hu; simplify_eq/=. by eapply ext_live.
  - destruct (procs s !! i) as [[]|] eqn:Hi; try done. simplify_eq. by eapply live_awake.
  - destruct (procs s !! i) as [[]|] eqn:Hi; try done. destruct (_ && _); simplify_eq. by eapply live_awake.
  - by eapply pstep_live.
Qed.

End IdleManager.

(** ** The lock of a ready queue hides a fred

    Two processors, and one thread that resumes a fred.  [IdleSpinMax] is
    arbitrary, at least 2. *)
Section Stranded.
Context (IdleSpinMax : Z) (wakeWorker : bool).
Hypothesis spin_rounds : 1 < IdleSpinMax.
(** The step relation of the code. *)
Definition istep : label -> state -> option state := step 2 IdleSpinMax wakeWorker false.
Definition runs (s s' : state) : Prop := exists ls, run istep ls s = Some s'.

Lemma runs_trans s1 s2 s3 : runs s1 s2 -> runs s2 s3 -> runs s1 s3.
Proof. intros [l1 H1] [l2 H2]. exists (l1 ++ l2). rewrite run_app, H1. exact H2. Qed.

(** If every round of the spin loop finds nothing, the loop ends. *)
Lemma spin_out i pass base c0 :
  procs base !! i = Some c0 ->
  (forall j, run istep pass (set_proc i (Scan (Spinning j) 0 0) base) = Some (set_proc i (Scan (Spinning j) 2 0) base)) ->
  runs (set_proc i (Scan (Spinning 1) 0 0) base) (set_proc i DecSpin base).
Proof using spin_rounds.
  intros Hi Hpass. enough (H : forall k j, Z.of_nat k = IdleSpinMax - 1 - j -> 1 <= j ->
    runs (set_proc i (Scan (Spinning j) 0 0) base) (set_proc i DecSpin base))
    by (apply (H (Z.to_nat (IdleSpinMax - 2))); lia).
  assert (Hends : forall j, istep (Go i false) (set_proc i (Scan (Spinning j) 2 0) base) =
    Some (set_proc i (if j + 1 <? IdleSpinMax then Scan (Spinning (j + 1)) 0 0 else DecSpin) base)).
  { intros j. cbn. unfold pstep. cbn. rewrite list_lookup_insert_eq by (by eapply lookup_lt_Some). cbn.
    unfold set_proc. cbn. by rewrite list_insert_insert_eq. }
  induction k as [|k IH]; intros j Hj H1.
  - exists (pass ++ [Go i false]). rewrite run_app, Hpass. cbn [mbind option_bind run]. rewrite Hends.
    cbn [mbind option_bind run]. by destruct (Z.ltb_spec (j + 1) IdleSpinMax); [lia|].
  - eapply runs_trans; [|apply (IH (j + 1)); lia]. exists (pass ++ [Go i false]). rewrite run_app, Hpass.
    cbn [mbind option_bind run]. rewrite Hends. cbn [mbind option_bind run].
    by destruct (Z.ltb_spec (j + 1) IdleSpinMax); [|lia].
Qed.

Definition empty_rq : nat * nat -> list nat := fun _ => [].
Definition asleep_1 : nat -> bool := upd (fun _ => false) 1%nat true.
Definition woken_1 : nat -> Z :=
  let s1 := upd (fun _ => 0) 1%nat (0 + 1) in upd s1 1%nat (s1 1%nat + -1).

(** Processor 1 spins; processor 0 spins while 1 sleeps; processor 1 spins
    again, woken for the fred that was put into queue 0 while processor 0, in its
    last search, was about to give up the lock of that queue. *)
Definition stage1 (c : pc) : state :=
  mkState [Run; c] [UIdle] empty_rq [None; None] 1 0 [] (fun _ => false) (fun _ => 0).
Definition stage2 (c : pc) : state :=
  mkState [c; Halt] [UIdle] empty_rq [None; None] 1 1 [1%nat] asleep_1 (fun _ => 0).
Definition stage3 (c : pc) : state :=
  mkState [Locked Final 0 3; c] [UIdle] (upd empty_rq (0, 1)%nat [7%nat]) [Some 0%nat; None] 1 1 []
    (upd asleep_1 1%nat false) woken_1.
Definition stranded : state :=
  mkState [Halt; Halt] [UIdle] (upd empty_rq (0, 1)%nat [7%nat]) [None; None] 0 2 [0; 1]%nat
    (upd (upd (upd asleep_1 1%nat false) 1%nat true) 0%nat true) woken_1.

Definition go (i k : nat) : list label := replicate k (Go i false).

Lemma to_stage1 : runs (mkState [Run; Run] [UIdle] empty_rq [None; None] 0 0 [] (fun _ => false) (fun _ => 0))
                       (stage1 (Scan (Spinning 1) 0 0)).
Proof. exists (Search 1 :: go 1 12). reflexivity. Qed.
Lemma stage1_spins : runs (stage1 (Scan (Spinning 1) 0 0)) (stage1 DecSpin).
Proof using spin_rounds. apply (spin_out 1 (go 1 10) (stage1 Run) Run); [done|]. intros j. reflexivity. Qed.
Lemma to_stage2 : runs (stage1 DecSpin) (stage2 (Scan (Spinning 1) 0 0)).
Proof. exists (go 1 14 ++ Search 0 :: go 0 12). reflexivity. Qed.
Lemma stage2_spins : runs (stage2 (Scan (Spinning 1) 0 0)) (stage2 DecSpin).
Proof using spin_rounds. apply (spin_out 0 (go 0 10) (stage2 Run) Run); [done|]. intros j. reflexivity. Qed.
Lemma to_stage3 : runs (stage2 DecSpin) (stage3 (Scan (Spinning 1) 0 0)).
Proof. exists (go 0 6 ++ Resume 0 7 0 1 :: replicate 5 (GoE 0 false) ++ go 1 2). unfold istep. destruct wakeWorker; reflexivity. Qed.
Lemma stage3_spins : runs (stage3 (Scan (Spinning 1) 0 0)) (stage3 DecSpin).
Proof using spin_rounds. apply (spin_out 1 (go 1 9) (stage3 Run) Run); [done|]. intros j. reflexivity. Qed.
Lemma to_stranded : runs (stage3 DecSpin) stranded.
Proof. exists (go 1 13 ++ go 0 8). reflexivity. Qed.

Lemma stranded_reachable : reachable (init 2) istep stranded.
Proof using spin_rounds.
  assert (H : runs (mkState [Run; Run] [UIdle] empty_rq [None; None] 0 0 [] (fun _ => false) (fun _ => 0)) stranded).
  { eapply runs_trans; [apply to_stage1|]. eapply runs_trans; [apply stage1_spins|].
    eapply runs_trans; [apply to_stage2|]. eapply runs_trans; [apply stage2_spins|].
    eapply runs_trans; [apply to_stage3|]. eapply runs_trans; [apply stage3_spins|]. apply to_stranded. }
  destruct H as [ls H]. eapply run_reachable; [|exact H]. apply reach_init. by exists 1%nat.
Qed.
End Stranded.

(** As the code is written, a ready fred can be forgotten: [tryDequeue] gives
    up a queue whose lock is taken, so a processor that is woken for a fred and
    searches while another one, in its last search, has already seen that queue
    empty and still has its lock, finds nothing in all its rounds; then both go to
    sleep.  The fred stays in the ready queue, every processor is halted, no
    wake-up is on its way, and nothing happens until something else is resumed. *)
Theorem ready_fred_stranded IdleSpinMax wakeWorker :
  1 < IdleSpinMax ->
  exists s, reachable (init 2) (istep IdleSpinMax wakeWorker) s /\
    rq s (0, 1)%nat = [7%nat] /\ procs s = [Halt; Halt] /\ ext s = [UIdle] /\
    (forall i, sem s i = 0) /\
    (forall l s', istep IdleSpinMax wakeWorker l s = Some s' -> exists e f v p, l = Resume e f v p).
Proof.
  intros Hmax. exists stranded. split; [by apply stranded_reachable|].
  assert (Hsem : forall i, sem stranded i = 0) by (intros [|[|i]]; reflexivity).
  split_and!; try done. intros l s'. destruct l as [e f v p|e b|i|i f v p|i b]; unfold istep; cbn [step]; intros Hs.
  - by exists e, f, v, p.
  - destruct e as [|e]; [done|]. by destruct e.
  - destruct i as [|[|i]]; [done|done|]. by destruct i.
  - destruct i as [|[|i]]; [done|done|]. by destruct i.
  - exfalso. unfold pstep in Hs. destruct i as [|[|i]]; cbn in Hs; done.
Qed.

(** A processor goes to sleep and is woken for a fred. *)
Definition wake_run : list label :=
  Search 0 :: replicate 25 (Go 0 false).
Definition one_running : state :=
  mkState [Run] [UIdle] (fun _ => []) [None] 0 0 [] (fun _ => false) (fun _ => 0).


Lemma ready_fred_stranded_witness :
  1 < 1024 /\ exists s, reachable (init 2) (istep 1024 false) s /\ rq s (0, 1)%nat = [7%nat] /\ procs s = [Halt; Halt].
Proof.
  split; [lia|]. destruct (ready_fred_stranded 1024 false) as (s & H1 & H2 & H3 & _); [lia|]. by exists s.
Defined.
