(* ===== verification/Switching.v ===== *)
(** Context switches ([src/runtime/Fred.cc], [Fred.h]): which fred runs next on
    a processor and what happens to the fred it gives way to.  The model puts
    [switchFred], the [post*] routines, [yield], [suspend], [terminate], [migrate]
    and [resume] of all freds over the ready queues of [Schedulers] and the
    [runState] protocol of [Freds]. *)
From S2P Require Import Prelude Freds Schedulers.

Local Open Scope Z_scope.

(** A fred, or the idle fred of a processor. *)
Inductive who := IdleFred (p : nat) | F (f : nat).
#[export] Instance who_eq_dec : EqDecision who.
Proof. solve_decision. Defined.

(** [Fred::SwitchCode]; [CResume] is used by [yieldResume]. *)
Inductive SwitchCode := CIdle | CYield | CResume | CSuspend | CTerminate.

(** What a processor does: it runs a fred, or has switched stacks and is about
    to call the [post*] routine for the previous fred. *)
Inductive cpu :=
| On (w : who)
| Switched (code : SwitchCode) (prev next : who).

Record state := mkState {
  cpus : list cpu;
  rqs : list ReadyQueue;
  sched : nat -> fred_sched;
  shared : nat -> Shared;
  alive : nat -> bool;
  aborted : bool
}.

(** Where a processor finds the next fred. *)
Inductive source := Local | Steal (v : nat) | ToIdle.

(** [readyQueue.dequeue()], [searchSteal()] with its [checkAffinity], or
    [*idleFred]. *)
Definition pick (p : nat) (src : source) (s : state) : option (who * list ReadyQueue * (nat -> fred_sched)) :=
  match src with
  | Local =>
      q ← rqs s !! p;
      match dequeue q with (Some f, q') => Some (F f, <[p := q']> (rqs s), sched s) | _ => None end
  | Steal v =>
      q ← rqs s !! v;
      match tryDequeue true q with
      | (Some f, q') => Some (F f, <[v := q']> (rqs s), upd (sched s) f (checkAffinity p (sched s f)).2)
      | _ => None
      end
  | ToIdle => Some (IdleFred p, rqs s, sched s)
  end.

Definition is_idle (src : source) : bool := match src with ToIdle => true | _ => false end.

Definition set_cpu (p : nat) (c : cpu) (s : state) : state :=
  mkState (<[p := c]> (cpus s)) (rqs s) (sched s) (shared s) (alive s) (aborted s).
Definition set_queues (qs : list ReadyQueue) (sc : nat -> fred_sched) (s : state) : state :=
  mkState (cpus s) qs sc (shared s) (alive s) (aborted s).
Definition set_shared (f : nat) (sh : Shared) (s : state) : state :=
  mkState (cpus s) (rqs s) (sched s) (upd (shared s) f sh) (alive s) (aborted s).
Definition set_sched (f : nat) (x : fred_sched) (s : state) : state :=
  mkState (cpus s) (rqs s) (upd (sched s) f x) (shared s) (alive s) (aborted s).
Definition set_alive (f : nat) (b : bool) (s : state) : state :=
  mkState (cpus s) (rqs s) (sched s) (shared s) (upd (alive s) f b) (aborted s).
Definition abort (s : state) : state := mkState (cpus s) (rqs s) (sched s) (shared s) (alive s) true.

(** [processor->enqueueYield] and [enqueueResume] put the fred into the queue
    of its processor. *)
Definition enqueueFred (f : nat) (s : state) : state :=
  match rqs s !! processor (sched s f) with
  | Some q => match enqueue f (priority (sched s f)) q with
              | Some q' => set_queues (<[processor (sched s f) := q']> (rqs s)) (sched s) s
              | None => abort s
              end
  | None => abort s
  end.
Definition outcome_of (f : nat) (r : outcome * Shared) (s : state) : state :=
  match r with
  | (Enqueue, sh) => enqueueFred f (set_shared f sh s)
  | (Nothing, sh) => set_shared f sh s
  | (AssertFailed, _) => abort s
  end.

(** [switchFred<Code>(nextFred)] up to the stack switch. *)
Definition switchFred (p : nat) (code : SwitchCode) (prev : who) (src : source) (s : state) : option state :=
  '(next, qs, sc) ← pick p src s;
  if bool_decide (prev = next) then Some (abort s)      (* [RASSERT(this != &nextFred)] *)
  else Some (set_cpu p (Switched code prev next) (set_queues qs sc s)).

(** [postIdle], [postYield], [postResume], [postSuspend], [postTerminate]. *)
Definition post (code : SwitchCode) (prev : who) (s : state) : state :=
  match prev with
  | IdleFred _ => s
  | F f => match code with
           | CIdle => s
           | CYield | CResume => enqueueFred f s
           | CSuspend => outcome_of f (postSuspend (shared s f)) s
           | CTerminate => set_alive f false s
           end
  end.

Inductive label :=
| Yield (p : nat) (src : source)            (* [yield], [yieldGlobal], [preempt] *)
| Suspend (p : nat) (src : source)          (* [suspendInternal] *)
| SuspendSkip (p : nat)                     (* [suspend] finds an early resumption *)
| Terminate (p : nat) (src : source)
| Migrate (p v : nat) (src : source) (global : bool)   (* [global]: [yieldGlobal] found a fred *)
| SetPriority (p prio : nat)
| IdleRun (p : nat) (src : source)          (* [idleYieldTo] *)
| Post (p : nat)
| Resume (f : nat)
| Start (f v prio : nat) (aff : bool).      (* a new fred, placed on processor [v] *)

Definition step (l : label) (s : state) : option state :=
  match l with
  | Yield p src =>
      match cpus s !! p, src with
      | Some (On (F f)), (Local | Steal _) => switchFred p CYield (F f) src s
      | _, _ => None
      end
  | Suspend p src => match cpus s !! p with Some (On (F f)) => switchFred p CSuspend (F f) src s | _ => None end
  | SuspendSkip p =>
      match cpus s !! p with
      | Some (On (F f)) =>
          if runState (shared s f) =? ResumedEarly
          then Some (set_shared f (mkShared Running (resumeInfo (shared s f))) s) else None
      | _ => None
      end
  | Terminate p src => match cpus s !! p with Some (On (F f)) => switchFred p CTerminate (F f) src s | _ => None end
  | Migrate p v src global =>
      match cpus s !! p with
      | Some (On (F f)) =>
          if bool_decide (v < length (rqs s))%nat && (negb global || negb (is_idle src)) then
            let s' := set_sched f (mkFredSched v (priority (sched s f)) (affinity (sched s f))) s in
            switchFred p (if global then CYield else CResume) (F f) src s'
          else None
      | _ => None
      end
  | SetPriority p prio =>
      match cpus s !! p with
      | Some (On (F f)) =>
          if bool_decide (prio < NumPriority)%nat
          then Some (set_sched f (mkFredSched (processor (sched s f)) prio (affinity (sched s f))) s) else None
      | _ => None
      end
  | IdleRun p src =>
      match cpus s !! p, src with
      | Some (On (IdleFred i)), (Local | Steal _) => switchFred p CIdle (IdleFred i) src s
      | _, _ => None
      end
  | Post p =>
      match cpus s !! p with
      | Some (Switched code prev next) => Some (post code prev (set_cpu p (On next) s))
      | _ => None
      end
  | Resume f =>
      if alive s f && (runState (shared s f) <? ResumedEarly)
      then Some (outcome_of f (resume (shared s f)) s) else None
  | Start f v prio aff =>
      if negb (alive s f) && bool_decide (v < length (rqs s))%nat && bool_decide (prio < NumPriority)%nat
      then Some (enqueueFred f (set_alive f true (set_shared f (mkShared Running nullptr)
                   (set_sched f (mkFredSched v prio aff) s)))) else None
  end.

Definition init (s : state) : Prop :=
  exists n sc sh, s = mkState (map (fun p => On (IdleFred p)) (seq 0 n)) (replicate n (fun _ => [])) sc sh
                       (fun _ => false) false.

(** * Where the freds are *)
Definition is_fred (f : nat) (w : who) : bool := bool_decide (w = F f).
Definition current (f : nat) (c : cpu) : bool :=
  match c with On w => is_fred f w | Switched _ _ next => is_fred f next end.
Definition previous (f : nat) (c : cpu) : bool :=
  match c with On _ => false | Switched _ prev _ => is_fred f prev end.
Definition count_in (f : nat) (l : list nat) : Z := cnt (fun x => bool_decide (x = f)) l.
Definition queued (f : nat) (qs : list ReadyQueue) : Z := foldr Z.add 0 (map (fun q => count_in f (contents q)) qs).

Arguments queued : simpl never.
Arguments count_in : simpl never.

(** How many times a fred is on a processor, about to be put away by one, or in
    a ready queue. *)
Definition places (f : nat) (s : state) : Z :=
  cnt (current f) (cpus s) + cnt (previous f) (cpus s) + queued f (rqs s).

Definition expected (f : nat) (s : state) : Z :=
  if alive s f && negb (runState (shared s f) =? Parked) then 1 else 0.

(** [d f]: how many places of [f] are missing. *)
Record inv_off (d : nat -> Z) (s : state) : Prop := mkInv {
  i_places f : places f s = expected f s - d f;
  i_state f : alive s f = true -> 0 <= runState (shared s f) <= 2;
  i_sched f : alive s f = true -> (processor (sched s f) < length (rqs s))%nat /\ (priority (sched s f) < NumPriority)%nat;
  i_len : length (cpus s) = length (rqs s);
  i_idle p q : cpus s !! p = Some (On (IdleFred q)) -> q = p;
  i_switch p code prev next : cpus s !! p = Some (Switched code prev next) ->
    prev <> next /\ (forall q, next = IdleFred q -> q = p) /\ (code = CIdle -> exists q, prev = IdleFred q);
  i_ab : aborted s = false
}.
Definition inv : state -> Prop := inv_off (fun _ => 0).

Lemma queued_cons f q qs : queued f (q :: qs) = count_in f (contents q) + queued f qs.
Proof. done. Qed.

Lemma count_in_nonneg f l : 0 <= count_in f l.
Proof. apply cnt_nonneg. Qed.

Lemma queued_nonneg f qs : 0 <= queued f qs.
Proof.
  induction qs as [|q qs IH]; [done|]. rewrite queued_cons. pose proof (count_in_nonneg f (contents q)). lia.
Qed.

Lemma queued_insert f qs v q q' :
  qs !! v = Some q -> queued f (<[v := q']> qs) = queued f qs - count_in f (contents q) + count_in f (contents q').
Proof.
  revert v. induction qs as [|x qs IH]; intros [|v]; try done.
  - intros [= <-]. change (<[0%nat:=q']> (x :: qs)) with (q' :: qs). rewrite !queued_cons. lia.
  - intros H. change (<[S v:=q']> (x :: qs)) with (x :: <[v:=q']> qs). rewrite !queued_cons, (IH v) by done. lia.
Qed.

(** The next fred comes out of exactly one queue. *)
Lemma pick_ok p src s next qs sc :
  pick p src s = Some (next, qs, sc) ->
  length qs = length (rqs s) /\ (forall f, queued f qs = queued f (rqs s) - Z.b2z (is_fred f next)) /\
  (forall q, next = IdleFred q -> q = p /\ src = ToIdle) /\
  (forall f, sc f = sched s f \/ (exists g, next = F g /\ g = f /\ sc f = (checkAffinity p (sched s f)).2)).
Proof.
  assert (Hd : forall v q f q', rqs s !! v = Some q -> dequeue q = (Some f, q') ->
    length (<[v := q']> (rqs s)) = length (rqs s) /\
    forall g, queued g (<[v := q']> (rqs s)) = queued g (rqs s) - Z.b2z (is_fred g (F f))).
  { intros v q f q' Hq Hd. split; [apply length_insert|]. intros g. rewrite (queued_insert _ _ _ _ _ Hq).
    pose proof (dequeue_spec q) as Hs. rewrite Hd in Hs. destruct Hs as [-> _]. unfold count_in. cbn [cnt].
    unfold is_fred. replace (bool_decide (F f = F g)) with (bool_decide (f = g)); [lia|].
    apply bool_decide_ext. split; congruence. }
  destruct src as [|v|]; cbn [pick]; intros H.
  - destruct (rqs s !! p) as [q|] eqn:Hq; [|done]. cbn [mbind option_bind] in H. destruct (dequeue q) as [[f|] q'] eqn:Eq; simplify_eq.
    destruct (Hd p q f q' Hq Eq) as [H1 H2]. split_and!; try done. by left.
  - destruct (rqs s !! v) as [q|] eqn:Hq; [|done]. cbn [mbind option_bind] in H.
    destruct (tryDequeue true q) as [[f|] q'] eqn:Eq; simplify_eq.
    assert (Eq' : dequeue q = (Some f, q')).
    { unfold tryDequeue in Eq. destruct (probe q); [done|]. by simplify_eq. }
    destruct (Hd v q f q' Hq Eq') as [H1 H2]. split_and!; try done.
    intros g. at_fred g f; [right; by exists f|by left].
  - simplify_eq. split_and!; try done; [|intros q [= ->]; done|by left]. intros f. unfold is_fred.
    rewrite bool_decide_eq_false_2 by done. cbn. lia.
Qed.

Lemma inv_ext d d' s : (forall f, d f = d' f) -> inv_off d s -> inv_off d' s.
Proof. intros H [H1 H2 H3 H4 H5 H6 H7]. split; try done. intros f. by rewrite <- H. Qed.

Lemma places_in_queue f s v q : rqs s !! v = Some q -> count_in f (contents q) <= queued f (rqs s).
Proof.
  revert v. induction (rqs s) as [|x qs IH]; intros [|v] H; try done; simpl in H; rewrite queued_cons.
  - simplify_eq. pose proof (queued_nonneg f qs). lia.
  - specialize (IH v H). pose proof (count_in_nonneg f (contents x)). lia.
Qed.

Lemma expected_le f s : expected f s <= 1.
Proof. unfold expected. by destruct (_ && _). Qed.

(** A fred with a place is alive and not parked. *)
Lemma placed_alive d f s : inv_off d s -> 0 < places f s + d f ->
  alive s f = true /\ 1 <= runState (shared s f) <= 2 /\ expected f s = 1.
Proof.
  intros Hi Hp. rewrite (i_places _ _ Hi) in Hp. unfold expected in *.
  destruct (alive s f) eqn:Ha; [|cbn in Hp; lia]. pose proof (i_state _ _ Hi f Ha). unfold Parked in *.
  destruct (runState (shared s f) =? 0) eqn:E; [cbn in Hp; lia|]. bool_prop. cbn. split_and!; lia.
Qed.

Lemma current_place f p s w : cpus s !! p = Some (On w) -> Z.b2z (is_fred f w) + queued f (rqs s) <= places f s.
Proof.
  intros Hp. unfold places. pose proof (cnt_nonneg (previous f) (cpus s)).
  pose proof (cnt_member (current f) _ _ _ Hp). cbn [current] in *. lia.
Qed.

Lemma enqueue_ok d f s : inv_off d s -> alive s f = true -> inv_off (upd d f (d f - 1)) (enqueueFred f s).
Proof.
  intros Hi Ha. destruct (i_sched _ _ Hi f Ha) as [Hv Hp]. unfold enqueueFred.
  destruct (lookup_lt_is_Some_2 _ _ Hv) as [q Hq]. rewrite Hq.
  assert (H : forall g, exists q', enqueue f (priority (sched s f)) q = Some q' /\
    count_in g (contents q') = count_in g (contents q) + Z.b2z (bool_decide (f = g))).
  { intros g. by apply (enqueue_spec f _ q (fun x => bool_decide (x = g))). }
  destruct (H 0%nat) as (q' & Hq' & _). rewrite Hq'.
  assert (Hc : forall g, count_in g (contents q') = count_in g (contents q) + Z.b2z (bool_decide (f = g))).
  { intros g. destruct (H g) as (q2 & H2 & Hc). by simplify_eq. }
  clear H. destruct Hi as [H1 H2 H3 H4 H5 H6 H7]. split; cbn; rewrite ?length_insert; try done.
  intros g. specialize (H1 g). unfold places, expected in *. cbn. rewrite (queued_insert _ _ _ _ _ Hq), Hc.
  destruct (decide (f = g)) as [<-|Hne].
  - rewrite upd_eq, bool_decide_eq_true_2 by done. cbn [Z.b2z]. lia.
  - rewrite upd_ne, bool_decide_eq_false_2 by done. cbn [Z.b2z]. lia.
Qed.

(** Changes of [runState] and [alive] change what is expected. *)
Lemma shared_ok d d' f sh s :
  inv_off d s -> (alive s f = true -> 0 <= runState sh <= 2) ->
  (forall g, d' g = d g + (expected g (set_shared f sh s) - expected g s)) -> inv_off d' (set_shared f sh s).
Proof.
  intros [H1 H2 H3 H4 H5 H6 H7] Hs Hd. split; cbn; try done.
  - intros g. rewrite Hd. specialize (H1 g). unfold places in *. cbn in *. lia.
  - intros g. at_fred g f; [apply Hs|apply H2].
Qed.

Lemma expected_shared g f sh s :
  expected g (set_shared f sh s) =
  if bool_decide (g = f) then (if alive s f && negb (runState sh =? Parked) then 1 else 0) else expected g s.
Proof.
  unfold expected. cbn. destruct (decide (g = f)) as [->|Hne].
  - by rewrite upd_eq, bool_decide_eq_true_2.
  - by rewrite upd_ne, bool_decide_eq_false_2 by done.
Qed.

Lemma set_sched_ok d f x s :
  inv_off d s -> (processor x < length (rqs s))%nat -> (priority x < NumPriority)%nat -> inv_off d (set_sched f x s).
Proof. intros [H1 H2 H3 H4 H5 H6 H7] Hp Hq. split; cbn; try done. intros g. at_fred g f; [done|apply H3]. Qed.

Lemma switch_ok p code prev src s s' :
  inv s -> cpus s !! p = Some (On prev) -> (code = CIdle <-> exists q, prev = IdleFred q) ->
  (code = CIdle -> src <> ToIdle) -> switchFred p code prev src s = Some s' -> inv s'.
Proof.
  intros Hi Hp Hcode Hsrc Hs. unfold switchFred in Hs. destruct (pick p src s) as [[[next qs] sc]|] eqn:Hpick; [|done].
  cbn [mbind option_bind] in Hs. destruct (pick_ok _ _ _ _ _ _ Hpick) as (Hlen & Hq & Hidle & Hsc).
  assert (Hne : prev <> next).
  { intros <-. destruct prev as [q|f].
    - destruct (Hidle q eq_refl) as [_ ->]. apply Hsrc; [|done]. apply Hcode. by exists q.
    - pose proof (current_place f p s _ Hp) as H. rewrite (i_places _ _ Hi) in H. pose proof (expected_le f s).
      specialize (Hq f). pose proof (queued_nonneg f qs). unfold is_fred in *. rewrite bool_decide_eq_true_2 in * by done.
      cbn [Z.b2z] in *. lia. }
  rewrite bool_decide_eq_false_2 in Hs by done. simplify_eq. destruct Hi as [H1 H2 H3 H4 H5 H6 H7].
  assert (Hlt : (p < length (rqs s))%nat) by (rewrite <- H4; by eapply lookup_lt_Some).
  split; cbn; rewrite ?length_insert, ?Hlen; try done.
  - intros f. specialize (H1 f). unfold places, expected in *.
    cbn [set_cpu set_queues cpus rqs shared alive]. rewrite !(cnt_insert _ _ _ _ _ Hp), Hq. cbn [current previous Z.b2z]. lia.
  - intros f Ha. destruct (Hsc f) as [->|(g & _ & <- & ->)]; [by apply H3|].
    destruct (H3 g Ha). unfold checkAffinity. by destruct (affinity (sched s g)).
  - intros p' q Hp'. destruct (lookup_moved _ _ _ _ _ _ Hp Hp') as [[_ ?]|[_ ?]]; [done|by apply H5].
  - intros p' c pv nx Hp'. destruct (lookup_moved _ _ _ _ _ _ Hp Hp') as [[<- ?]|[_ ?]]; [|by eapply H6].
    simplify_eq. split_and!; [done|intros q Hq1; by apply Hidle|by apply Hcode].
Qed.

Lemma switching_post_ok p code prev next s :
  inv s -> cpus s !! p = Some (Switched code prev next) -> inv (post code prev (set_cpu p (On next) s)).
Proof.
  intros Hi Hp. pose proof (i_switch _ _ Hi _ _ _ _ Hp) as (Hne & Hidle & Hcode).
  set (s1 := set_cpu p (On next) s). assert (H1 : inv_off (fun f => Z.b2z (is_fred f prev)) s1).
  { destruct Hi as [H1 H2 H3 H4 H5 H6 H7]. split; cbn; rewrite ?length_insert; try done.
    - intros f. specialize (H1 f). unfold places, expected in *.
      cbn [set_cpu s1 cpus rqs shared alive]. rewrite !(cnt_insert _ _ _ _ _ Hp). cbn [current previous Z.b2z]. lia.
    - intros p' q Hp'. destruct (lookup_moved _ _ _ _ _ _ Hp Hp') as [[<- ?]|[_ ?]]; [|by apply H5].
      simplify_eq. by apply Hidle.
    - intros p' c pv nx Hp'. destruct (lookup_moved _ _ _ _ _ _ Hp Hp') as [[_ ?]|[_ ?]]; [done|by eapply H6]. }
  clearbody s1. destruct prev as [q|f]; cbn [post]; [by eapply inv_ext; [|exact H1]|].
  assert (Hoff : forall g, upd (fun f0 => Z.b2z (is_fred f0 (F f))) f (Z.b2z (is_fred f (F f)) - 1) g = 0).
  { intros g. unfold is_fred. at_fred g f; [by rewrite bool_decide_eq_true_2|]. by rewrite bool_decide_eq_false_2 by congruence. }
  destruct (placed_alive _ f s1 H1) as (Ha & Hst & He).
  { unfold is_fred. rewrite bool_decide_eq_true_2 by done. unfold places.
    pose proof (cnt_nonneg (current f) (cpus s1)). pose proof (cnt_nonneg (previous f) (cpus s1)).
    pose proof (queued_nonneg f (rqs s1)). cbn [Z.b2z]. lia. }
  destruct code.
  - destruct (Hcode eq_refl) as [q ?]. done.
  - eapply inv_ext; [exact Hoff|]. by apply enqueue_ok.
  - eapply inv_ext; [exact Hoff|]. by apply enqueue_ok.
  - unfold postSuspend, ResumedEarly, Running. destruct (runState (shared s1 f) =? 2) eqn:E2; bool_prop; cbn [outcome_of].
    + eapply inv_ext; [exact Hoff|]. rewrite E2. change (Words.wrap 64 (2 - 1)) with 1.
      apply enqueue_ok; [|done]. eapply shared_ok; [exact H1|done|].
      intros g. rewrite expected_shared, Ha. cbn. case_bool_decide as Hg; [subst g; rewrite He|]; lia.
    + assert (E1 : runState (shared s1 f) = 1) by lia. rewrite E1. cbn [Z.eqb Pos.eqb outcome_of].
      change (Words.wrap 64 (1 - 1)) with 0. eapply shared_ok; [exact H1|done|].
      intros g. rewrite expected_shared, Ha. cbn. unfold is_fred.
      destruct (decide (g = f)) as [->|Hg]; [rewrite !bool_decide_eq_true_2, He by done; done|].
      rewrite !bool_decide_eq_false_2 by congruence. cbn. lia.
  - destruct H1 as [H1 H2 H3 H4 H5 H6 H7]. split; cbn; try done.
    + intros g. specialize (H1 g). unfold places, expected in *. cbn in *. unfold is_fred in *. at_fred g f.
      * rewrite bool_decide_eq_true_2 in H1 by done. cbn [Z.b2z] in *. rewrite He in H1. cbn. lia.
      * rewrite bool_decide_eq_false_2 in H1 by congruence. cbn [Z.b2z] in *. lia.
    + intros g. at_fred g f; [done|apply H2].
    + intros g. at_fred g f; [done|apply H3].
Qed.

Lemma resume_ok f s :
  inv s -> alive s f = true -> runState (shared s f) < ResumedEarly -> inv (outcome_of f (resume (shared s f)) s).
Proof.
  intros Hi Ha Hr. pose proof (i_state _ _ Hi f Ha) as Hst. unfold ResumedEarly in Hr.
  unfold resume, Parked, Running. destruct (runState (shared s f) =? 0) eqn:E0; bool_prop; cbn [outcome_of].
  - rewrite E0. change (Words.wrap 64 (0 + 1)) with 1.
    eapply (inv_ext (upd (fun g => Z.b2z (bool_decide (g = f))) f (Z.b2z (bool_decide (f = f)) - 1))).
    { intros g. rewrite bool_decide_eq_true_2 by done. at_fred g f; [done|]. by rewrite bool_decide_eq_false_2. }
    apply (enqueue_ok (fun g => Z.b2z (bool_decide (g = f)))); [|done]. eapply shared_ok; [exact Hi|done|].
    intros g. rewrite expected_shared, Ha. cbn. case_bool_decide as Hg; [subst g|cbn; lia].
    unfold expected. rewrite Ha, E0. done.
  - assert (E1 : runState (shared s f) = 1) by lia. rewrite E1. cbn [Z.eqb Pos.eqb outcome_of].
    change (Words.wrap 64 (1 + 1)) with 2. eapply shared_ok; [exact Hi|done|].
    intros g. rewrite expected_shared, Ha. cbn. case_bool_decide as Hg; [subst g|lia].
    unfold expected. rewrite Ha, E1. done.
Qed.

Lemma start_ok f v prio aff s :
  inv s -> alive s f = false -> (v < length (rqs s))%nat -> (prio < NumPriority)%nat ->
  inv (enqueueFred f (set_alive f true (set_shared f (mkShared Running nullptr) (set_sched f (mkFredSched v prio aff) s)))).
Proof.
  intros Hi Ha Hv Hp.
  eapply (inv_ext (upd (fun g => Z.b2z (bool_decide (g = f))) f (Z.b2z (bool_decide (f = f)) - 1))).
  { intros g. rewrite bool_decide_eq_true_2 by done. at_fred g f; [done|]. by rewrite bool_decide_eq_false_2. }
  apply (enqueue_ok (fun g => Z.b2z (bool_decide (g = f)))); [|cbn; by rewrite upd_eq].
  destruct Hi as [H1 H2 H3 H4 H5 H6 H7]. split; cbn; try done.
  - intros g. specialize (H1 g). unfold places, expected in *. cbn. at_fred g f.
    + rewrite bool_decide_eq_true_2 by done. rewrite Ha in H1. cbn in *. lia.
    + rewrite bool_decide_eq_false_2 by done. cbn. done.
  - intros g. at_fred g f; [done|apply H2].
  - intros g. at_fred g f; [done|apply H3].
Qed.

(** A fred that keeps running with other scheduling data, or another state. *)
Lemma running_fred p f s : inv s -> cpus s !! p = Some (On (F f)) -> alive s f = true /\ 1 <= runState (shared s f) <= 2.
Proof.
  intros Hi Hp. destruct (placed_alive _ f s Hi) as (? & ? & _); [|done].
  pose proof (current_place f p s _ Hp) as H. pose proof (queued_nonneg f (rqs s)).
  unfold is_fred in H. rewrite bool_decide_eq_true_2 in H by done. cbn in H. lia.
Qed.

Lemma switching_step_inv s l s' : inv s -> step l s = Some s' -> inv s'.
Proof.
  intros Hi Hs. assert (Hf : forall code f, code <> CIdle -> code = CIdle <-> exists q, F f = IdleFred q).
  { intros code f Hc. split; [done|]. intros [q ?]. done. }
  destruct l as [p src|p src|p|p src|p v src g|p prio|p src|p|f|f v prio aff]; cbn [step] in Hs.
  1,2,3,4,5,6,7: destruct (cpus s !! p) as [[[i|f]|]|] eqn:Hp; try done.
  - destruct src; try done; eapply switch_ok in Hs; try done; by apply Hf.
  - eapply switch_ok in Hs; try done; by apply Hf.
  - destruct (_ =? _) eqn:E; [|done]. bool_prop. simplify_eq. destruct (running_fred p f s Hi Hp) as [Ha _].
    eapply shared_ok; [exact Hi|done|]. intros h. rewrite expected_shared, Ha. cbn.
    case_bool_decide as Hg; [subst h|lia]. unfold expected. rewrite Ha, E. done.
  - eapply switch_ok in Hs; try done; by apply Hf.
  - case_bool_decide as Hv; [|done]. destruct (_ && _) in Hs; [|done]. destruct (running_fred p f s Hi Hp) as [Ha _].
    eapply switch_ok in Hs; [done| |exact Hp|apply Hf; by destruct g|by destruct g].
    apply set_sched_ok; [done|done|]. by apply Hi.
  - case_bool_decide as Hv; [|done]. simplify_eq. destruct (running_fred p f s Hi Hp) as [Ha _].
    apply set_sched_ok; [done| |done]. by apply Hi.
  - destruct src; try done; eapply switch_ok in Hs; try done; split; [by exists i|done|by exists i|done].
  - destruct (cpus s !! p) as [[|code prev next]|] eqn:Hp; simplify_eq. by apply switching_post_ok.
  - destruct (alive s f && _) eqn:E; [|done]. bool_prop. simplify_eq. by apply resume_ok.
  - destruct (negb (alive s f) && _ && _) eqn:E; [|done]. bool_prop. simplify_eq. by apply start_ok.
Qed.

Lemma init_inv s : init s -> inv s.
Proof.
  intros (n & sc & sh & ->). assert (Hc : forall p c, map (fun p => On (IdleFred p)) (seq 0 n) !! p = Some c -> c = On (IdleFred p)).
  { intros p c Hp. rewrite list_lookup_fmap in Hp. destruct (seq 0 n !! p) eqn:E; [|done]. apply lookup_seq in E as [-> _].
    by injection Hp as <-. }
  assert (Hq : forall f, queued f (replicate n (fun _ => [])) = 0).
  { intros f. clear. induction n as [|n IH]; [done|]. cbn [replicate]. by rewrite queued_cons, IH. }
  split; cbn; try done.
  - intros f. unfold places, expected. cbn. rewrite Hq, !cnt_none; [done| |]; by intros p c ->%Hc.
  - rewrite length_map, length_seq, length_replicate. done.
  - intros p q Hp. rewrite list_lookup_fmap in Hp. destruct (seq 0 n !! p) eqn:E; [|done].
    apply lookup_seq in E as [-> _]. by injection Hp as <-.
  - intros p c pv nx Hp%Hc. done.
Qed.


(** Two processors: fred 0 is resumed while it suspends, is put back into its
    queue by [postSuspend] and stolen by the other processor; fred 1 starts there
    and terminates. *)
Definition demo_init : state :=
  mkState [On (IdleFred 0); On (IdleFred 1)] (replicate 2 (fun _ => [])) (fun _ => mkFredSched 0 0 false)
          (fun _ => mkShared Running nullptr) (fun _ => false) false.
Definition demo_run : list label :=
  [Start 0 0 1 false; IdleRun 0 Local; Post 0; Suspend 0 ToIdle; Resume 0; Post 0; IdleRun 1 (Steal 0);
   Start 1 1 2 true; Post 1; Yield 1 Local; Post 1; Terminate 1 Local; Post 1].

