(* ===== verification/Stats.v ===== *)
(** Statistics ([src/runtime/Stats.h], [Stats.cc]): counters, averages, the
    distribution histograms, the statistics records of the runtime objects with
    their aggregation into totals, and the recursive printout. *)
From S2P Require Import Prelude Words.
From Stdlib Require Import Permutation Sorted.

Local Open Scope Z_scope.

(** [Number] is [long long]: 64 bit two's complement. *)
Definition number (z : Z) : Z := sword 64 (wrap 64 z).
Definition is_number (z : Z) : Prop := - 2 ^ 63 <= z < 2 ^ 63.

(** What every statistics type offers: [aggregate] and [reset]. *)
Class Stat (A : Type) := { aggregate : A -> A -> A; reset : A; stat_ok : A -> Prop }.
Arguments stat_ok : simpl never.
Class StatLaws (A : Type) `{Stat A} := {
  agg_assoc (x y z : A) : aggregate x (aggregate y z) = aggregate (aggregate x y) z;
  agg_comm (x y : A) : aggregate x y = aggregate y x;
  agg_reset (x : A) : stat_ok x -> aggregate reset x = x;
  agg_stat_ok (x y : A) : stat_ok x -> stat_ok y -> stat_ok (aggregate x y);
  reset_ok : stat_ok (@reset A _)
}.

(** * [Counter] *)
Module Counter.
Record t := mk { cnt : Z }.
Definition count (n : Z) (c : t) : t := mk (number (cnt c + n)).
Definition aggregate (c x : t) : t := mk (number (cnt c + cnt x)).
Definition reset : t := mk 0.
End Counter.
#[export] Instance counter_stat : Stat Counter.t :=
  {| aggregate := Counter.aggregate; reset := Counter.reset; stat_ok := fun c => is_number (Counter.cnt c) |}.

(** * [Average] *)
Module Average.
Record t := mk { cnt : Z; sum : Z; sqsum : Z }.
Definition count (v : Z) (a : t) : t :=
  mk (number (cnt a + 1)) (number (sum a + v)) (number (sqsum a + number (v * v))).
Definition aggregate (a x : t) : t :=
  mk (number (cnt a + cnt x)) (number (sum a + sum x)) (number (sqsum a + sqsum x)).
Definition reset : t := mk 0 0 0.
Definition average (a : t) : Z := if cnt a =? 0 then 0 else number (Z.quot (sum a) (cnt a)).
(** What [variance()] takes the square root of. *)
Definition deviation (a : t) : Z :=
  number (Z.quot (number (sqsum a - number (Z.quot (number (sum a * sum a)) (cnt a)))) (cnt a)).
(** [std::sqrt] of the number, converted back. *)
Definition variance (sqrt : Z -> Z) (a : t) : Z := if cnt a =? 0 then 0 else sqrt (deviation a).
End Average.
#[export] Instance average_stat : Stat Average.t :=
  {| aggregate := Average.aggregate; reset := Average.reset;
     stat_ok := fun a => is_number (Average.cnt a) /\ is_number (Average.sum a) /\ is_number (Average.sqsum a) |}.

(** * [HashTable<N>]: a vector of counters *)
Module HashTable.
Section N.
Context (N : nat).

(** [None]: an index out of the array. *)
Definition count (n : Z) (h : list Counter.t) : option (list Counter.t) :=
  let i := Z.to_nat (n mod Z.of_nat N) in
  c ← h !! i; Some (<[i := Counter.count 1 c]> h).
Definition aggregate (h x : list Counter.t) : list Counter.t := zip_with Counter.aggregate h x.
Definition reset : list Counter.t := replicate N Counter.reset.
Definition at_ (n : nat) (h : list Counter.t) : Z := default 0 (Counter.cnt <$> h !! n).
End N.
End HashTable.
Arguments HashTable.aggregate : simpl never.
Arguments HashTable.at_ : simpl never.
Arguments HashTable.reset : simpl never.

(** * [Distribution] *)
Module Distribution.
Record t := mk { average : Average.t; zero : Counter.t; hashTable : list Counter.t }.
Definition buckets : nat := 64.          (* [bitsize<Number>()] *)
Definition count (n : Z) (d : t) : option t :=
  let a := Average.count (number n) (average d) in
  if n =? 0 then Some (mk a (Counter.count 1 (zero d)) (hashTable d))
  else h ← HashTable.count buckets (floorlog2 64 n) (hashTable d); Some (mk a (zero d) h).
Definition aggregate (d x : t) : t :=
  mk (Average.aggregate (average d) (average x)) (Counter.aggregate (zero d) (zero x))
     (HashTable.aggregate (hashTable d) (hashTable x)).
Definition reset : t := mk Average.reset Counter.reset (HashTable.reset buckets).
(** A distribution that has seen the values [ns]. *)
Fixpoint counts (ns : list Z) (d : t) : option t :=
  match ns with
  | [] => Some d
  | n :: ns' => d' ← count n d; counts ns' d'
  end.
End Distribution.
#[export] Instance distribution_stat : Stat Distribution.t :=
  {| aggregate := Distribution.aggregate; reset := Distribution.reset;
     stat_ok := fun d => stat_ok (Distribution.average d) /\ stat_ok (Distribution.zero d) /\
                         length (Distribution.hashTable d) = Distribution.buckets /\
                         Forall (fun c => stat_ok c) (Distribution.hashTable d) |}.

(** * [Queue] *)
Module Queue.
Record t := mk { qlen : Z; fails : Counter.t; tryfails : Counter.t; qdist : Distribution.t }.
(** [seen]: the value of [qlen] read after the atomic addition. *)
Definition add (n : Z) (q : t) : option t :=
  let l := number (qlen q + n) in
  d ← Distribution.count (wrap 64 l) (qdist q); Some (mk l (fails q) (tryfails q) d).
Definition remove (n : Z) (q : t) : t := mk (number (qlen q - n)) (fails q) (tryfails q) (qdist q).
Definition fail (q : t) : t := mk (qlen q) (Counter.count 1 (fails q)) (tryfails q) (qdist q).
Definition tryfail (q : t) : t := mk (qlen q) (fails q) (Counter.count 1 (tryfails q)) (qdist q).
Definition aggregate (q x : t) : t :=
  mk (number (qlen q + qlen x)) (Counter.aggregate (fails q) (fails x))
     (Counter.aggregate (tryfails q) (tryfails x)) (Distribution.aggregate (qdist q) (qdist x)).
Definition reset : t := mk 0 Counter.reset Counter.reset Distribution.reset.
End Queue.
#[export] Instance queue_stat : Stat Queue.t :=
  {| aggregate := Queue.aggregate; reset := Queue.reset;
     stat_ok := fun q => is_number (Queue.qlen q) /\ stat_ok (Queue.fails q) /\ stat_ok (Queue.tryfails q) /\
                         stat_ok (Queue.qdist q) |}.

(** * The statistics of the runtime objects *)
Module EventScopeStats.
Record t := mk { srvconn : Counter.t; cliconn : Counter.t; resets : Counter.t; calls : Counter.t; fails : Counter.t }.
Definition aggregate (s x : t) : t :=
  mk (aggregate (srvconn s) (srvconn x)) (aggregate (cliconn s) (cliconn x)) (aggregate (resets s) (resets x))
     (aggregate (calls s) (calls x)) (aggregate (fails s) (fails x)).
Definition reset : t := mk reset reset reset reset reset.
End EventScopeStats.
#[export] Instance eventscope_stat : Stat EventScopeStats.t :=
  {| aggregate := EventScopeStats.aggregate; reset := EventScopeStats.reset;
     stat_ok := fun s => stat_ok (EventScopeStats.srvconn s) /\ stat_ok (EventScopeStats.cliconn s) /\
       stat_ok (EventScopeStats.resets s) /\ stat_ok (EventScopeStats.calls s) /\ stat_ok (EventScopeStats.fails s) |}.

Module PollerStats.
Record t := mk { regs : Counter.t; eventsB : Distribution.t; eventsNB : Distribution.t }.
Definition aggregate (s x : t) : t :=
  mk (aggregate (regs s) (regs x)) (aggregate (eventsB s) (eventsB x)) (aggregate (eventsNB s) (eventsNB x)).
Definition reset : t := mk reset reset reset.
End PollerStats.
#[export] Instance poller_stat : Stat PollerStats.t :=
  {| aggregate := PollerStats.aggregate; reset := PollerStats.reset;
     stat_ok := fun s => stat_ok (PollerStats.regs s) /\ stat_ok (PollerStats.eventsB s) /\ stat_ok (PollerStats.eventsNB s) |}.

Module IOUringStats.
Record t := mk { attempts : Distribution.t; submits : Distribution.t; eventsB : Distribution.t; eventsNB : Distribution.t }.
Definition aggregate (s x : t) : t :=
  mk (aggregate (attempts s) (attempts x)) (aggregate (submits s) (submits x))
     (aggregate (eventsB s) (eventsB x)) (aggregate (eventsNB s) (eventsNB x)).
Definition reset : t := mk reset reset reset reset.
End IOUringStats.
#[export] Instance iouring_stat : Stat IOUringStats.t :=
  {| aggregate := IOUringStats.aggregate; reset := IOUringStats.reset;
     stat_ok := fun s => stat_ok (IOUringStats.attempts s) /\ stat_ok (IOUringStats.submits s) /\
       stat_ok (IOUringStats.eventsB s) /\ stat_ok (IOUringStats.eventsNB s) |}.

Module TimerStats.
Record t := mk { events : Distribution.t }.
Definition aggregate (s x : t) : t := mk (aggregate (events s) (events x)).
Definition reset : t := mk reset.
End TimerStats.
#[export] Instance timer_stat : Stat TimerStats.t :=
  {| aggregate := TimerStats.aggregate; reset := TimerStats.reset; stat_ok := fun s => stat_ok (TimerStats.events s) /\ True |}.

Module ClusterStats.
Record t := mk { pause : Counter.t }.
Definition aggregate (s x : t) : t := mk (aggregate (pause s) (pause x)).
Definition reset : t := mk reset.
End ClusterStats.
#[export] Instance cluster_stat : Stat ClusterStats.t :=
  {| aggregate := ClusterStats.aggregate; reset := ClusterStats.reset; stat_ok := fun s => stat_ok (ClusterStats.pause s) /\ True |}.

Module IdleManagerStats.
Record t := mk { ready : Distribution.t; blocked : Distribution.t }.
Definition aggregate (s x : t) : t := mk (aggregate (ready s) (ready x)) (aggregate (blocked s) (blocked x)).
Definition reset : t := mk reset reset.
End IdleManagerStats.
#[export] Instance idlemanager_stat : Stat IdleManagerStats.t :=
  {| aggregate := IdleManagerStats.aggregate; reset := IdleManagerStats.reset;
     stat_ok := fun s => stat_ok (IdleManagerStats.ready s) /\ stat_ok (IdleManagerStats.blocked s) |}.

Module ProcessorStats.
Record t := mk { create : Counter.t; start : Counter.t; deq : Counter.t; handover : Counter.t;
                 borrow : Counter.t; steal : Counter.t; idle : Counter.t; wake : Counter.t }.
Definition aggregate (s x : t) : t :=
  mk (aggregate (create s) (create x)) (aggregate (start s) (start x)) (aggregate (deq s) (deq x))
     (aggregate (handover s) (handover x)) (aggregate (borrow s) (borrow x)) (aggregate (steal s) (steal x))
     (aggregate (idle s) (idle x)) (aggregate (wake s) (wake x)).
Definition reset : t := mk reset reset reset reset reset reset reset reset.
End ProcessorStats.
#[export] Instance processor_stat : Stat ProcessorStats.t :=
  {| aggregate := ProcessorStats.aggregate; reset := ProcessorStats.reset;
     stat_ok := fun s => stat_ok (ProcessorStats.create s) /\ stat_ok (ProcessorStats.start s) /\
       stat_ok (ProcessorStats.deq s) /\ stat_ok (ProcessorStats.handover s) /\ stat_ok (ProcessorStats.borrow s) /\
       stat_ok (ProcessorStats.steal s) /\ stat_ok (ProcessorStats.idle s) /\ stat_ok (ProcessorStats.wake s) |}.

Module ReadyQueueStats.
Record t := mk { queue : Queue.t }.
Definition aggregate (s x : t) : t := mk (aggregate (queue s) (queue x)).
Definition reset : t := mk reset.
End ReadyQueueStats.
#[export] Instance readyqueue_stat : Stat ReadyQueueStats.t :=
  {| aggregate := ReadyQueueStats.aggregate; reset := ReadyQueueStats.reset;
     stat_ok := fun s => stat_ok (ReadyQueueStats.queue s) /\ True |}.

(** The totals of [StatsPrint]: every printed object is aggregated. *)
Definition total {A} `{Stat A} (xs : list A) : A := foldl aggregate reset xs.

(** * The printout *)

(** An object of [statsList]: [Base], with the first character of its name. *)
Record Base := mkBase { object : Z; parent : Z; sort : Z; name0 : Z }.

(** [PrintStatsNode::operator<] *)
Definition node_ltb (a b : Z * Z * Z) : bool :=
  let '(o1, s1, n1) := a in let '(o2, s2, n2) := b in
  if negb (o1 =? o2) then o1 <? o2 else if negb (s1 =? s2) then s1 <? s2 else n1 <? n2.
Definition key (b : Base) : Z * Z * Z := (parent b, sort b, name0 b).

(** [std::multimap]: a list ordered by key; [insert] at the upper bound of the
    key, [lower_bound] the first entry whose key is not below. *)
Fixpoint map_insert (b : Base) (m : list Base) : list Base :=
  match m with
  | [] => [b]
  | x :: m' => if node_ltb (key b) (key x) then b :: m else x :: map_insert b m'
  end.
Fixpoint lower_bound (k : Z * Z * Z) (m : list Base) : option (list Base * Base * list Base) :=
  match m with
  | [] => None
  | x :: m' => if node_ltb (key x) k
               then '(l, b, r) ← lower_bound k m'; Some (x :: l, b, r)
               else Some ([], x, m')
  end.

(** [PrintRecursive(o, depth, os, statsMap)]: what is printed, with its
    indentation, and the map that is left; [None] when the fuel runs out.  The
    first [Some] of the arguments is [o]. *)
Fixpoint PrintRecursive (fuel : nat) (o : option Base) (depth : nat) (m : list Base) {struct fuel}
  : option (list (nat * Base) * list Base) :=
  match fuel with
  | O => None
  | S fuel' =>
      let next := match o with Some b => object b | None => 0 end in
      let here := match o with Some b => [(depth, b)] | None => [] end in
      let depth' := match o with Some _ => S depth | None => depth end in
      '(out, m') ← PrintLoop fuel' next depth' m; Some (here ++ out, m')
  end
with PrintLoop (fuel : nat) (next : Z) (depth : nat) (m : list Base) {struct fuel}
  : option (list (nat * Base) * list Base) :=
  match fuel with
  | O => None
  | S fuel' =>
      match lower_bound (next, 0, 0) m with
      | None => Some ([], m)
      | Some (l, b, r) =>
          if negb (parent b =? next) then Some ([], m)
          else '(out1, m1) ← PrintRecursive fuel' (Some b) depth (l ++ r);
               '(out2, m2) ← PrintLoop fuel' next depth m1;
               Some (out1 ++ out2, m2)
      end
  end.

(** [StatsPrint]: the list emptied into the map, and the tree from [nullptr]. *)
Definition statsMap (objs : list Base) : list Base := fold_left (fun m b => map_insert b m) objs [].
Definition StatsPrint (objs : list Base) : option (list (nat * Base) * list Base) :=
  PrintRecursive (2 + 2 * length objs) None 0 (statsMap objs).

(** * Arithmetic of [Number] *)
Lemma number_small z : is_number z -> number z = z.
Proof.
  unfold is_number, number, sword, wrap. intros Hz. change (2 ^ (64 - 1)) with (2 ^ 63).
  destruct (decide (0 <= z)).
  - rewrite Z.mod_small by lia. destruct (z <? 2 ^ 63) eqn:E; bool_prop; lia.
  - rewrite <- (Z_mod_plus_full z 1), Z.mod_small by lia. destruct (_ <? _) eqn:E; bool_prop; lia.
Qed.

Lemma number_range z : is_number (number z).
Proof.
  unfold is_number, number, sword, wrap. pose proof (Z.mod_pos_bound z (2 ^ 64)). change (2 ^ (64 - 1)) with (2 ^ 63).
  destruct (_ <? _) eqn:E; bool_prop; lia.
Qed.

Lemma number_mod z : number z mod 2 ^ 64 = z mod 2 ^ 64.
Proof.
  unfold number, sword, wrap. destruct (_ <? _); [by rewrite Zmod_mod|].
  rewrite <- (Z_mod_plus_full _ 1). replace (z mod 2 ^ 64 - 2 ^ 64 + 1 * 2 ^ 64) with (z mod 2 ^ 64) by lia.
  apply Zmod_mod.
Qed.

Lemma number_cong a b : a mod 2 ^ 64 = b mod 2 ^ 64 -> number a = number b.
Proof. unfold number, wrap. by intros ->. Qed.

Lemma number_add_l a b : number (number a + b) = number (a + b).
Proof. apply number_cong. by rewrite <- Zplus_mod_idemp_l, number_mod, Zplus_mod_idemp_l. Qed.
Lemma number_add_r a b : number (a + number b) = number (a + b).
Proof. apply number_cong. by rewrite <- Zplus_mod_idemp_r, number_mod, Zplus_mod_idemp_r. Qed.
Lemma number_sq a : number (number a * number a) = number (a * a).
Proof. apply number_cong. rewrite Zmult_mod, number_mod, <- Zmult_mod. done. Qed.

Lemma number_add_rr a b c : number (a + (b + number c)) = number (a + (b + c)).
Proof. by rewrite Z.add_assoc, number_add_r, Z.add_assoc. Qed.

Create Rewrite HintDb number.
#[export] Hint Rewrite number_add_l number_add_r number_add_rr number_sq : number.

(** Both sides add up the same numbers. *)
Ltac number_eq := autorewrite with number; f_equal; lia.

(** * The aggregation laws *)

(** One of the laws, at the type of the field at hand. *)
Ltac law :=
  lazymatch goal with
  | |- @eq ?A _ _ =>
      first [exact (agg_assoc (A := A) _ _ _) | exact (agg_comm (A := A) _ _) | refine (agg_reset (A := A) _ _); done]
  | |- _ =>
      first [refine (agg_stat_ok (A := Counter.t) _ _ _ _); done | refine (agg_stat_ok (A := Distribution.t) _ _ _ _); done
            |refine (agg_stat_ok (A := Queue.t) _ _ _ _); done | exact (reset_ok (A := Counter.t))
            |exact (reset_ok (A := Distribution.t)) | exact (reset_ok (A := Queue.t))]
  end.

#[export] Instance counter_laws : StatLaws Counter.t.
Proof.
  split.
  - intros [x] [y] [z]. cbn. unfold Counter.aggregate. cbn. f_equal. number_eq.
  - intros [x] [y]. cbn. unfold Counter.aggregate. cbn. f_equal. number_eq.
  - intros [x] Hx. hnf in Hx. cbn in *. unfold Counter.aggregate. cbn. f_equal. by apply number_small.
  - intros x y _ _. apply number_range.
  - hnf. unfold is_number. cbn. lia.
Qed.

#[export] Instance average_laws : StatLaws Average.t.
Proof.
  split.
  - intros [x1 x2 x3] [y1 y2 y3] [z1 z2 z3]. cbn. unfold Average.aggregate. cbn. f_equal; number_eq.
  - intros [x1 x2 x3] [y1 y2 y3]. cbn. unfold Average.aggregate. cbn. f_equal; number_eq.
  - intros [x1 x2 x3] (H1 & H2 & H3). unfold aggregate. cbn in *. unfold Average.aggregate. cbn. f_equal; by apply number_small.
  - intros x y _ _. hnf. split_and!; apply number_range.
  - hnf. unfold is_number. cbn. lia.
Qed.

Section HashTables.
Implicit Types (h : list Counter.t).
Lemma table_cons x y h1 h2 :
  HashTable.aggregate (x :: h1) (y :: h2) = Counter.aggregate x y :: HashTable.aggregate h1 h2.
Proof. done. Qed.
Lemma table_assoc h1 h2 h3 :
  HashTable.aggregate h1 (HashTable.aggregate h2 h3) = HashTable.aggregate (HashTable.aggregate h1 h2) h3.
Proof.
  revert h2 h3. induction h1 as [|x h1 IH]; intros [|y h2] [|z h3]; try done. rewrite !table_cons. f_equal; [law|apply IH].
Qed.
Lemma table_comm h1 h2 : HashTable.aggregate h1 h2 = HashTable.aggregate h2 h1.
Proof. revert h2. induction h1 as [|x h1 IH]; intros [|y h2]; try done. rewrite !table_cons. f_equal; [law|apply IH]. Qed.
Lemma table_reset N h : length h = N -> Forall (fun c => stat_ok c) h -> HashTable.aggregate (HashTable.reset N) h = h.
Proof. intros <-. induction 1 as [|x h Hx _ IH]; [done|].
  change (HashTable.reset (length (x :: h))) with (Counter.reset :: HashTable.reset (length h)).
  rewrite table_cons. f_equal; [law|apply IH]. Qed.
Lemma table_length h1 h2 : length h1 = length h2 -> length (HashTable.aggregate h1 h2) = length h1.
Proof. intros H. unfold HashTable.aggregate. rewrite length_zip_with. lia. Qed.
Lemma table_ok h1 h2 : Forall (fun c => stat_ok c) (HashTable.aggregate h1 h2).
Proof.
  revert h2. induction h1 as [|x h1 IH]; intros [|y h2]; try constructor; [apply number_range|apply (IH h2)].
Qed.
End HashTables.

#[export] Instance distribution_laws : StatLaws Distribution.t.
Proof.
  split.
  - intros [] [] []. cbn. unfold Distribution.aggregate. cbn. f_equal; [law|law|apply table_assoc].
  - intros [] []. cbn. unfold Distribution.aggregate. cbn. f_equal; [law|law|apply table_comm].
  - intros [] (? & ? & ? & ?). cbn in *. unfold Distribution.aggregate. cbn. f_equal; [law|law|by apply table_reset].
  - intros x y (H1 & H2 & H3 & H4) (H1' & H2' & H3' & H4'). hnf. cbn.
    split_and!; [refine (agg_stat_ok _ _ _ _); done|law|rewrite table_length; congruence|apply table_ok].
  - hnf. split_and!; [refine reset_ok|law|done|]. apply Forall_replicate. refine reset_ok.
Qed.

(** A record of statistics satisfies the laws because its fields do. *)
Ltac fields :=
  lazymatch goal with
  | |- ?l = ?r => let l' := eval hnf in l in let r' := eval hnf in r in change (l' = r')
  end; cbn; f_equal.
Ltac stat_laws :=
  split;
  [intros [] [] []; fields; first [law|number_eq]
  |intros [] []; fields; first [law|number_eq]
  |intros [] H; hnf in H; cbn in *; destruct_and?; fields; first [law|by apply number_small]
  |intros [] [] H H'; hnf in H, H'; hnf; cbn in *; destruct_and?; split_and?; first [exact I|law|apply number_range]
  |hnf; split_and?; first [exact I|law|unfold is_number; cbn; lia]].

#[export] Instance queue_laws : StatLaws Queue.t.
Proof. stat_laws. Qed.
#[export] Instance eventscope_laws : StatLaws EventScopeStats.t.
Proof. stat_laws. Qed.
#[export] Instance poller_laws : StatLaws PollerStats.t.
Proof. stat_laws. Qed.
#[export] Instance iouring_laws : StatLaws IOUringStats.t.
Proof. stat_laws. Qed.
#[export] Instance timer_laws : StatLaws TimerStats.t.
Proof. stat_laws. Qed.
#[export] Instance cluster_laws : StatLaws ClusterStats.t.
Proof. stat_laws. Qed.
#[export] Instance idlemanager_laws : StatLaws IdleManagerStats.t.
Proof. stat_laws. Qed.
#[export] Instance processor_laws : StatLaws ProcessorStats.t.
Proof. stat_laws. Qed.
#[export] Instance readyqueue_laws : StatLaws ReadyQueueStats.t.
Proof. stat_laws. Qed.

(** * What a distribution has counted *)
Definition sum_of (ns : list Z) : Z := foldr Z.add 0 ns.
Definition squares (ns : list Z) : list Z := map (fun n => n * n) ns.
Definition in_bucket (k : nat) (n : Z) : bool := (2 ^ Z.of_nat k <=? n) && (n <? 2 ^ (Z.of_nat k + 1)).

Lemma sum_of_snoc ns n : sum_of (ns ++ [n]) = sum_of ns + n.
Proof. unfold sum_of. induction ns as [|m ns IH]; simpl in *; lia. Qed.

(** The values [ns] were counted, up to the wrap-around of [Number]. *)
Record seen_values (ns : list Z) (d : Distribution.t) : Prop := mkSeen {
  s_cnt : Average.cnt (Distribution.average d) = number (Z.of_nat (length ns));
  s_sum : Average.sum (Distribution.average d) = number (sum_of ns);
  s_sq : Average.sqsum (Distribution.average d) = number (sum_of (squares ns));
  s_zero : Counter.cnt (Distribution.zero d) = number (cnt (fun n => n =? 0) ns);
  s_len : length (Distribution.hashTable d) = 64%nat;
  s_at k : (k < 64)%nat -> HashTable.at_ k (Distribution.hashTable d) = number (cnt (in_bucket k) ns)
}.

Lemma floorlog2_log2 n : 0 < n -> floorlog2 64 n = Z.log2 n.
Proof.
  intros Hn. unfold floorlog2, msb, msb_alt, builtin_clz. destruct (n =? 0) eqn:E; bool_prop; lia.
Qed.

Lemma bucket_of k n : 0 < n < 2 ^ 64 -> in_bucket k n = bool_decide (k = Z.to_nat (floorlog2 64 n mod 64)).
Proof.
  intros Hn. rewrite floorlog2_log2 by lia. pose proof (Z.log2_nonneg n).
  assert (Z.log2 n < 64) by (apply Z.log2_lt_pow2; lia). rewrite Z.mod_small by lia.
  unfold in_bucket. destruct (decide (k = Z.to_nat (Z.log2 n))) as [->|Hk].
  - rewrite bool_decide_eq_true_2 by done. rewrite Z2Nat.id by done. pose proof (Z.log2_spec n).
    apply andb_true_iff. split; [apply Z.leb_le; lia|apply Z.ltb_lt]. rewrite Z.add_1_r. lia.
  - rewrite bool_decide_eq_false_2 by done. destruct (_ && _) eqn:E; [|done]. bool_prop. destruct Hk.
    rewrite (Z.log2_unique n (Z.of_nat k)); [lia|lia|]. rewrite <- Z.add_1_r. lia.
Qed.

Lemma stats_at_insert k i c h : (i < length h)%nat ->
  HashTable.at_ k (<[i := c]> h) = if bool_decide (k = i) then Counter.cnt c else HashTable.at_ k h.
Proof.
  intros Hi. unfold HashTable.at_. destruct (decide (k = i)) as [->|Hk].
  - by rewrite list_lookup_insert_eq, bool_decide_eq_true_2.
  - by rewrite list_lookup_insert_ne, bool_decide_eq_false_2 by congruence.
Qed.

Lemma seen_reset : seen_values [] Distribution.reset.
Proof. split; try done. intros k Hk. unfold HashTable.at_. cbn. unfold HashTable.reset. by rewrite lookup_replicate_2. Qed.

Lemma seen_count ns n d : 0 <= n < 2 ^ 64 -> seen_values ns d ->
  exists d', Distribution.count n d = Some d' /\ seen_values (ns ++ [n]) d'.
Proof.
  intros Hn [H1 H2 H3 H4 H5 H6]. unfold Distribution.count.
  assert (Ha : forall z h, length h = 64%nat ->
    Counter.cnt z = number (cnt (fun n => n =? 0) (ns ++ [n])) ->
    (forall k, (k < 64)%nat -> HashTable.at_ k h = number (cnt (in_bucket k) (ns ++ [n]))) ->
    seen_values (ns ++ [n]) (Distribution.mk (Average.count (number n) (Distribution.average d)) z h)).
  { intros z h Hl Hz Hh. split; cbn [Distribution.average Distribution.zero Distribution.hashTable]; try done;
      unfold Average.count; cbn [Average.cnt Average.sum Average.sqsum]; rewrite ?H1, ?H2, ?H3.
    - rewrite length_app. cbn [length]. number_eq.
    - rewrite sum_of_snoc. number_eq.
    - unfold squares. rewrite map_app. cbn [map]. rewrite sum_of_snoc. number_eq. }
  destruct (n =? 0) eqn:E; bool_prop.
  - subst n. eexists. split; [done|]. apply Ha; [done| |].
    + unfold Counter.count. cbn [Counter.cnt]. rewrite H4, cnt_app. cbn [cnt Z.b2z Z.eqb]. number_eq.
    + intros k Hk. rewrite H6, cnt_app by done. cbn [cnt].
      assert (E : in_bucket k 0 = false) by (unfold in_bucket; replace (2 ^ Z.of_nat k <=? 0) with false; [done|]; symmetry; apply Z.leb_gt; lia).
      rewrite E. cbn [Z.b2z]. f_equal. lia.
  - unfold HashTable.count. set (i := Z.to_nat (floorlog2 64 n mod Z.of_nat Distribution.buckets)).
    assert (Hi : (i < length (Distribution.hashTable d))%nat).
    { rewrite H5. unfold i. change (Z.of_nat Distribution.buckets) with 64.
      pose proof (Z.mod_pos_bound (floorlog2 64 n) 64). lia. }
    destruct (lookup_lt_is_Some_2 _ _ Hi) as [c Hc]. rewrite Hc. cbn [mbind option_bind].
    eexists. split; [done|]. apply Ha; [by rewrite length_insert| |].
    + rewrite H4, cnt_app. cbn [cnt]. apply Z.eqb_neq in E. rewrite E. cbn. f_equal. lia.
    + intros k Hk. rewrite stats_at_insert by done. rewrite cnt_app. cbn [cnt]. rewrite bucket_of by lia.
      change (Z.to_nat (floorlog2 64 n mod 64)) with i. specialize (H6 k Hk). case_bool_decide as Hki.
      * subst k. unfold Counter.count. cbn [Counter.cnt]. unfold HashTable.at_ in H6. rewrite Hc in H6. cbn in H6. rewrite H6.
        cbn. number_eq.
      * rewrite H6. cbn. f_equal. lia.
Qed.

Lemma counts_seen ns ms d : Forall (fun n => 0 <= n < 2 ^ 64) ns -> seen_values ms d ->
  exists d', Distribution.counts ns d = Some d' /\ seen_values (ms ++ ns) d'.
Proof.
  intros Hns. revert ms d. induction Hns as [|n ns Hn _ IH]; intros ms d Hd.
  - exists d. by rewrite app_nil_r.
  - destruct (seen_count ms n d Hn Hd) as (d1 & H1 & Hd1). destruct (IH _ _ Hd1) as (d2 & H2 & Hd2).
    exists d2. cbn [Distribution.counts]. rewrite H1. cbn [mbind option_bind]. split; [done|].
    by rewrite <- app_assoc in Hd2.
Qed.

Lemma cnt_le_length {A} (f : A -> bool) l : cnt f l <= Z.of_nat (length l).
Proof. induction l as [|x l IH]; cbn [cnt length]; [lia|]. destruct (f x); cbn [Z.b2z]; lia. Qed.

Lemma sum_bounds ns : Forall (fun n => 0 <= n) ns -> 0 <= sum_of ns <= sum_of (squares ns).
Proof.
  induction 1 as [|n ns Hn _ IH]; unfold sum_of, squares in *; cbn [map foldr] in *; [lia|].
  assert (n <= n * n) by nia. lia.
Qed.

(** A distribution counts every value in the right place: the number, the sum
    and the sum of squares of the values, the zeros apart, and bucket [k] the
    values from [2^k] to [2^(k+1) - 1]; no value is out of the table.  The
    numbers are exact as long as the sum of squares and the number of values are
    below [2^63]. *)
Theorem distribution_correct ns :
  Forall (fun n => 0 <= n < 2 ^ 64) ns ->
  exists d, Distribution.counts ns Distribution.reset = Some d /\
    (Z.of_nat (length ns) < 2 ^ 63 -> sum_of (squares ns) < 2 ^ 63 ->
     Average.cnt (Distribution.average d) = Z.of_nat (length ns) /\
     Average.sum (Distribution.average d) = sum_of ns /\
     Average.sqsum (Distribution.average d) = sum_of (squares ns) /\
     Counter.cnt (Distribution.zero d) = cnt (fun n => n =? 0) ns /\
     forall k, (k < 64)%nat -> HashTable.at_ k (Distribution.hashTable d) =
       cnt (fun n => (2 ^ Z.of_nat k <=? n) && (n <? 2 ^ (Z.of_nat k + 1))) ns).
Proof.
  intros Hns. destruct (counts_seen ns [] _ Hns seen_reset) as (d & Hd & [H1 H2 H3 H4 H5 H6]).
  cbn [app] in *. exists d. split; [done|]. intros Hlen Hsq.
  assert (Hb : 0 <= sum_of ns <= sum_of (squares ns)).
  { apply sum_bounds. eapply Forall_impl; [exact Hns|]. cbn. lia. }
  assert (Hc : forall f, is_number (cnt f ns)).
  { intros f. pose proof (cnt_nonneg f ns). pose proof (cnt_le_length f ns). unfold is_number. lia. }
  rewrite H1, H2, H3, H4. rewrite !number_small by (try apply Hc; unfold is_number; lia). split_and!; try done.
  intros k Hk. rewrite H6, number_small by done. done.
Qed.

Lemma distribution_correct_witness :
  let ns := [0; 1; 2; 3; 1024; 0; 2047]%Z in
  exists d, Distribution.counts ns Distribution.reset = Some d /\
    Average.cnt (Distribution.average d) = 7 /\ Average.sum (Distribution.average d) = 3077 /\
    Counter.cnt (Distribution.zero d) = 2 /\ HashTable.at_ 1 (Distribution.hashTable d) = 2 /\
    HashTable.at_ 10 (Distribution.hashTable d) = 2.
Proof.
  intros ns. destruct (distribution_correct ns) as (d & Hd & H); [repeat constructor; lia|].
  destruct H as (H1 & H2 & _ & H4 & H5); [unfold ns; cbn; lia|unfold ns; cbn; lia|].
  exists d. split_and!; [exact Hd|rewrite H1; reflexivity|rewrite H2; reflexivity|rewrite H4; reflexivity
    |rewrite (H5 1%nat); [reflexivity|lia]|rewrite (H5 10%nat); [reflexivity|lia]].
Defined.

(** * Totals *)
Section Totals.
Context {A : Type} `{StatLaws A}.
Implicit Types (xs ys : list A).

Lemma foldl_permutation xs ys : Permutation xs ys -> forall a : A, foldl aggregate a xs = foldl aggregate a ys.
Proof.
  induction 1 as [|x xs ys _ IH|x y xs|xs ys zs _ IH1 _ IH2]; intros a; cbn; [done|apply IH| |by rewrite IH1, IH2].
  f_equal. by rewrite <- !agg_assoc, (agg_comm x y).
Qed.
End Totals.

Lemma average_merge v a b :
  Average.count v (Average.aggregate a b) = Average.aggregate a (Average.count v b).
Proof. unfold Average.count, Average.aggregate. cbn. f_equal; number_eq. Qed.

Lemma count_merge n x d d' :
  length (Distribution.hashTable x) = length (Distribution.hashTable d) -> Distribution.count n d = Some d' ->
  Distribution.count n (Distribution.aggregate x d) = Some (Distribution.aggregate x d') /\
  length (Distribution.hashTable d') = length (Distribution.hashTable d).
Proof.
  intros Hl. unfold Distribution.count, Distribution.aggregate. destruct (n =? 0).
  - intros [= <-]. cbn. rewrite average_merge. split; [|done]. do 2 f_equal.
    unfold Counter.count, Counter.aggregate. cbn. f_equal. number_eq.
  - unfold HashTable.count. cbn [Distribution.hashTable Distribution.average Distribution.zero].
    set (i := Z.to_nat _). destruct (Distribution.hashTable d !! i) as [c|] eqn:Hc; [|done].
    destruct (lookup_lt_is_Some_2 (Distribution.hashTable x) i) as [c0 Hc0]; [rewrite Hl; by eapply lookup_lt_Some|].
    cbn [mbind option_bind]. intros [= <-]. cbn. rewrite length_insert. split; [|done].
    unfold HashTable.aggregate. rewrite lookup_zip_with, Hc, Hc0. cbn. rewrite average_merge. do 2 f_equal.
    rewrite <- (list_insert_id (Distribution.hashTable x) i c0 Hc0) at 2. rewrite <- insert_zip_with. f_equal.
    unfold Counter.count, Counter.aggregate. cbn. f_equal. number_eq.
Qed.

Lemma counts_merge ns x d d' :
  length (Distribution.hashTable x) = length (Distribution.hashTable d) -> Distribution.counts ns d = Some d' ->
  Distribution.counts ns (Distribution.aggregate x d) = Some (Distribution.aggregate x d').
Proof.
  revert d. induction ns as [|n ns IH]; intros d Hl; cbn [Distribution.counts]; [by intros [= <-]|].
  destruct (Distribution.count n d) as [d1|] eqn:E; [|done]. cbn [mbind option_bind]. intros Hd'.
  destruct (count_merge n x d d1 Hl E) as [-> Hl1]. cbn [mbind option_bind]. apply IH; [congruence|done].
Qed.

Lemma counts_app ns ms d : Distribution.counts (ns ++ ms) d = (d' ← Distribution.counts ns d; Distribution.counts ms d').
Proof.
  revert d. induction ns as [|n ns IH]; intros d; [done|]. cbn [Distribution.counts app].
  destruct (Distribution.count n d); [apply IH|done].
Qed.

Lemma counts_ok ns d d' : stat_ok d -> Distribution.counts ns d = Some d' -> stat_ok d'.
Proof.
  revert d. induction ns as [|n ns IH]; intros d Hd; cbn [Distribution.counts]; [by intros [= <-]|].
  destruct (Distribution.count n d) as [d1|] eqn:E; [|done]. cbn [mbind option_bind]. apply IH.
  destruct Hd as (H1 & H2 & H3 & H4). unfold Distribution.count in E. destruct (n =? 0); simplify_eq; hnf; cbn.
  - split_and!; try done; hnf; cbn; split_and?; apply number_range.
  - unfold HashTable.count in E. destruct (_ !! _) as [c|]; [|done]. cbn [mbind option_bind] in E. simplify_eq. cbn. rewrite length_insert.
    split_and!; try done; [hnf; cbn; split_and!; apply number_range|]. apply Forall_insert; [done|apply number_range].
Qed.

(** Whatever the order in which the objects are printed, the totals are the
    same; and the total of distributions is the distribution of all the values
    that any of them has counted. *)
Theorem totals_correct :
  (forall (A : Type) (S : Stat A) (L : StatLaws A) (xs ys : list A), Permutation xs ys -> total xs = total ys) /\
  (forall nss ds ds', Forall2 (fun ns d => Distribution.counts ns Distribution.reset = Some d) nss ds ->
     Permutation ds ds' -> Distribution.counts (concat nss) Distribution.reset = Some (total ds')).
Proof.
  split; [intros A S L xs ys H; by apply foldl_permutation|].
  intros nss ds ds' Hds Hp. unfold total. rewrite <- (foldl_permutation _ _ Hp (reset (A := Distribution.t))). clear Hp ds'.
  assert (Hok : forall d0, stat_ok d0 -> Distribution.counts (concat nss) d0 = Some (foldl aggregate d0 ds)).
  { induction Hds as [|ns d nss ds Hd _ IH]; intros d0 Hd0; [done|]. cbn [concat foldl]. rewrite counts_app.
    assert (Hr : Distribution.aggregate d0 Distribution.reset = d0).
    { rewrite <- (agg_reset d0 Hd0) at 2. exact (agg_comm (A := Distribution.t) _ _). }
    pose proof (counts_merge ns d0 Distribution.reset d (proj1 (proj2 (proj2 Hd0))) Hd) as Hm. rewrite Hr in Hm. rewrite Hm.
    cbn [mbind option_bind]. apply IH. refine (agg_stat_ok (A := Distribution.t) _ _ Hd0 _).
    by eapply counts_ok; [apply (reset_ok (A := Distribution.t))|]. }
  apply Hok. exact (reset_ok (A := Distribution.t)).
Qed.

(** * Average and variance *)
Definition averages (vs : list Z) : Average.t := foldl (fun a v => Average.count v a) Average.reset vs.

Lemma averages_snoc vs v : averages (vs ++ [v]) = Average.count v (averages vs).
Proof. unfold averages. by rewrite foldl_snoc. Qed.

Lemma averages_spec vs :
  Average.cnt (averages vs) = number (Z.of_nat (length vs)) /\ Average.sum (averages vs) = number (sum_of vs) /\
  Average.sqsum (averages vs) = number (sum_of (squares vs)).
Proof.
  induction vs as [|v vs (H1 & H2 & H3)] using rev_ind; [done|].
  rewrite averages_snoc. unfold Average.count. cbn. rewrite H1, H2, H3, length_app.
  unfold squares. rewrite map_app. cbn [map length]. rewrite !sum_of_snoc. split_and!; number_eq.
Qed.

(** The inequality of Cauchy and Schwarz. *)
Lemma sum_squares vs : sum_of vs * sum_of vs <= Z.of_nat (length vs) * sum_of (squares vs).
Proof.
  induction vs as [|v vs IH]; [done|]. unfold sum_of, squares in *. cbn [map foldr length] in *.
  set (s := foldr Z.add 0 vs) in *. set (q := foldr Z.add 0 (map (fun n => n * n) vs)) in *.
  rewrite Nat2Z.inj_succ. set (n := Z.of_nat (length vs)) in *. assert (0 <= n) by lia.
  destruct (decide (n = 0)) as [Hn|Hn].
  - assert (vs = []) as -> by (destruct vs; [done|cbn in n; lia]). subst s q. cbn. nia.
  - assert (2 * (s * v) <= q + n * (v * v)); [|nia].
    assert (0 <= (s - n * v) * (s - n * v)) by apply Z.square_nonneg. nia.
Qed.

Lemma sum_between lo hi vs : Forall (fun v => lo <= v <= hi) vs ->
  lo * Z.of_nat (length vs) <= sum_of vs <= hi * Z.of_nat (length vs).
Proof.
  induction 1 as [|v vs Hv _ IH]; unfold sum_of in *; cbn [foldr length]; [lia|]. rewrite Nat2Z.inj_succ. lia.
Qed.

(** The average lies between the least and the greatest value, and what the
    variance takes the root of is not negative and at most the mean square,
    as long as neither the sum of squares nor the square of the sum overflows. *)
Theorem average_bounds vs lo hi :
  vs <> [] -> 0 <= lo -> Forall (fun v => lo <= v <= hi) vs ->
  Z.of_nat (length vs) < 2 ^ 63 -> sum_of (squares vs) < 2 ^ 63 -> sum_of vs * sum_of vs < 2 ^ 63 ->
  lo <= Average.average (averages vs) <= hi /\
  0 <= Average.deviation (averages vs) <= sum_of (squares vs) / Z.of_nat (length vs).
Proof.
  intros Hne Hlo Hvs Hlen Hsq Hsum. destruct (averages_spec vs) as (H1 & H2 & H3).
  pose proof (sum_between lo hi vs Hvs) as Hb. pose proof (sum_squares vs) as Hcs.
  assert (Hpos : 0 <= sum_of vs <= sum_of (squares vs)).
  { apply sum_bounds. eapply Forall_impl; [exact Hvs|]. cbn. lia. }
  assert (Hl : 0 < Z.of_nat (length vs)) by (destruct vs; [done|cbn; lia]).
  unfold Average.average, Average.deviation. rewrite H1, H2, H3.
  set (n := Z.of_nat (length vs)) in *. set (s := sum_of vs) in *. set (q := sum_of (squares vs)) in *. clearbody n s q.
  rewrite (number_small n), (number_small s), (number_small q), (number_small (s * s)) by (unfold is_number; nia).
  destruct (n =? 0) eqn:E; bool_prop; [lia|]. rewrite (Z.quot_div_nonneg s), (Z.quot_div_nonneg (s * s)) by nia.
  assert (Hd : 0 <= s * s / n <= q).
  { split; [apply Z.div_pos; nia|]. rewrite <- (Z.div_mul q n) by lia. apply Z.div_le_mono; lia. }
  assert (Ha : lo <= s / n <= hi).
  { split; [apply Z.div_le_lower_bound; lia|]. apply Z.div_le_upper_bound; nia. }
  assert (Hsn : 0 <= s / n <= s).
  { split; [apply Z.div_pos; lia|]. apply Z.div_le_upper_bound; nia. }
  rewrite (number_small (s * s / n)), (number_small (q - s * s / n)) by (unfold is_number; lia).
  rewrite Z.quot_div_nonneg by lia. rewrite (number_small (s / n)) by (unfold is_number; lia).
  assert (Hq : 0 <= (q - s * s / n) / n <= q / n).
  { split; [apply Z.div_pos; lia|apply Z.div_le_mono; lia]. }
  assert (q / n <= q) by (apply Z.div_le_upper_bound; nia).
  rewrite number_small by (unfold is_number; lia). lia.
Qed.

Lemma average_bounds_witness :
  Average.average (averages [3; 5; 10]) = 6 /\ Average.variance Z.sqrt (averages [3; 5; 10]) = 2 /\
  3 <= Average.average (averages [3; 5; 10]) <= 10.
Proof.
  split_and!; [reflexivity|reflexivity|..].
  all: apply (average_bounds [3; 5; 10] 3 10); [done|lia|repeat constructor; lia|cbn; lia|cbn; lia|cbn; lia].
Defined.

(** The square of the sum overflows long before the sum of squares does: eight
    equal values of [2^29] are reported with a deviation of [2^29] instead of 0. *)
Theorem variance_overflow :
  let a := averages (replicate 8 (2 ^ 29)) in
  Average.sqsum a = sum_of (squares (replicate 8 (2 ^ 29))) /\ Average.average a = 2 ^ 29 /\ Average.variance Z.sqrt a = 2 ^ 29.
Proof. repeat split. Qed.

(** * The printed tree *)
Definition key_lt (a b : Z * Z * Z) : Prop :=
  let '(o1, s1, n1) := a in let '(o2, s2, n2) := b in
  o1 < o2 \/ (o1 = o2 /\ (s1 < s2 \/ (s1 = s2 /\ n1 < n2))).

Lemma node_ltb_spec a b : if node_ltb a b then key_lt a b else ~ key_lt a b.
Proof.
  destruct a as [[o1 s1] n1], b as [[o2 s2] n2]. unfold node_ltb, key_lt.
  repeat match goal with |- context [negb (?x =? ?y)] => destruct (x =? y) eqn:?; cbn [negb] end;
  repeat match goal with |- context [?x <? ?y] => destruct (x <? y) eqn:? end; bool_prop; lia.
Qed.

(** The order of the multimap. *)
Definition ordered (a b : Base) : Prop := ~ key_lt (key b) (key a).

Lemma ordered_trans a b c : ordered a b -> ordered b c -> ordered a c.
Proof. unfold ordered, key_lt, key. lia. Qed.

Lemma map_insert_perm b m : Permutation (b :: m) (map_insert b m).
Proof.
  induction m as [|x m IH]; [done|]. cbn [map_insert]. destruct (node_ltb _ _); [done|].
  rewrite <- IH. apply perm_swap.
Qed.

Lemma map_insert_sorted b m : StronglySorted ordered m -> StronglySorted ordered (map_insert b m).
Proof.
  induction 1 as [|x m Hm IH Hx]; cbn [map_insert]; [by repeat constructor|].
  pose proof (node_ltb_spec (key b) (key x)) as Hb. destruct (node_ltb (key b) (key x)).
  - constructor; [by constructor|]. assert (Ho : ordered b x) by (unfold ordered, key_lt, key in *; lia).
    constructor; [done|]. eapply Forall_impl; [exact Hx|]. intros y Hy. by eapply ordered_trans.
  - constructor; [done|]. rewrite <- map_insert_perm. by constructor.
Qed.

Lemma statsMap_spec objs : StronglySorted ordered (statsMap objs) /\ Permutation objs (statsMap objs).
Proof.
  unfold statsMap. assert (H : forall m, StronglySorted ordered m ->
    StronglySorted ordered (fold_left (fun m b => map_insert b m) objs m) /\
    Permutation (objs ++ m) (fold_left (fun m b => map_insert b m) objs m)).
  { induction objs as [|b objs IH]; intros m Hm; [done|]. cbn [fold_left app].
    destruct (IH (map_insert b m)) as [H1 H2]; [by apply map_insert_sorted|]. split; [done|].
    rewrite <- H2, <- map_insert_perm. apply Permutation_middle. }
  destruct (H []) as [H1 H2]; [constructor|]. by rewrite app_nil_r in H2.
Qed.

Lemma lower_bound_some k m l b r : lower_bound k m = Some (l, b, r) ->
  m = l ++ b :: r /\ Forall (fun x => key_lt (key x) k) l /\ ~ key_lt (key b) k.
Proof.
  revert l. induction m as [|x m IH]; intros l; cbn [lower_bound]; [done|].
  pose proof (node_ltb_spec (key x) k) as Hx. destruct (node_ltb (key x) k).
  - destruct (lower_bound k m) as [[[l' b'] r']|]; [|done]. cbn [mbind option_bind]. intros [= <- <- <-].
    destruct (IH l' eq_refl) as (-> & Hl & Hb). split_and!; [done|by constructor|done].
  - intros [= <- <- <-]. done.
Qed.
Lemma lower_bound_none k m : lower_bound k m = None -> Forall (fun x => key_lt (key x) k) m.
Proof.
  induction m as [|x m IH]; cbn [lower_bound]; [constructor|].
  pose proof (node_ltb_spec (key x) k) as Hx. destruct (node_ltb (key x) k); [|done].
  destruct (lower_bound k m) as [[[l' b'] r']|]; [done|]. intros _. constructor; auto.
Qed.

(** An entry of the map has a sort and a name. *)
Definition named (b : Base) : Prop := 0 <= sort b /\ 0 <= name0 b.

(** The loop stops only when no child of [next] is left. *)
Lemma no_children next m : StronglySorted ordered m -> Forall named m ->
  match lower_bound (next, 0, 0) m with
  | Some (_, b, _) => parent b <> next -> Forall (fun x => parent x <> next) m
  | None => Forall (fun x => parent x <> next) m
  end.
Proof.
  intros Hs Hn. assert (Hlt : forall x, named x -> key_lt (key x) (next, 0, 0) -> parent x <> next).
  { intros x [? ?]. unfold key_lt, key. lia. }
  destruct (lower_bound _ m) as [[[l b] r]|] eqn:E.
  - apply lower_bound_some in E as (-> & Hl & Hb). intros Hp. apply Forall_app in Hn as [Hnl Hnr].
    apply Forall_app. split.
    + rewrite Forall_forall in *. intros x Hx. apply Hlt; auto.
    + constructor; [done|]. apply Forall_cons in Hnr as [Hnb Hnr].
      assert (Hr : Forall (ordered b) r).
      { clear -Hs. induction l as [|x l IH]; cbn in Hs; inversion Hs; subst; [done|]. by apply IH. }
      rewrite Forall_forall in *. intros x Hx Hc. specialize (Hr x Hx). specialize (Hnr x Hx).
      unfold ordered, key_lt, key, named in *. lia.
  - apply lower_bound_none in E. rewrite Forall_forall in *. intros x Hx. apply Hlt; auto.
Qed.

(** Parents are printed before their children, which are indented by one more. *)
Definition tree_order (next : Z) (depth : nat) (out : list (nat * Base)) : Prop :=
  forall pre k b post, out = pre ++ (k, b) :: post ->
    (parent b = next /\ k = depth) \/ (exists k' b', (k', b') ∈ pre /\ parent b = object b' /\ k = S k').

Record printed (next : Z) (depth : nat) (m : list Base) (out : list (nat * Base)) (m' : list Base) : Prop := mkPrinted {
  p_perm : Permutation m (map snd out ++ m');
  p_sorted : StronglySorted ordered m';
  p_next : Forall (fun x => parent x <> next) m';
  p_done k b : (k, b) ∈ out -> Forall (fun x => parent x <> object b) m';
  p_tree : tree_order next depth out
}.

Lemma sorted_remove l b r : StronglySorted ordered (l ++ b :: r) -> StronglySorted ordered (l ++ r).
Proof.
  induction l as [|x l IH]; cbn; inversion_clear 1; [done|]. constructor; [by apply IH|].
  apply Forall_app in H1 as [? ?%Forall_cons]. apply Forall_app. naive_solver.
Qed.

Lemma forall_perm {P : Base -> Prop} m (out : list (nat * Base)) m' : Permutation m (map snd out ++ m') -> Forall P m -> Forall P m'.
Proof. intros Hp. rewrite Hp. by intros [_ ?]%Forall_app. Qed.

Lemma tree_join next depth b out1 out2 :
  parent b = next -> tree_order (object b) (S depth) out1 -> tree_order next depth out2 ->
  tree_order next depth (((depth, b) :: out1) ++ out2).
Proof.
  intros Hb H1 H2 pre k c post E. destruct pre as [|[k0 b0] pre]; cbn in E; simplify_eq; [by left|]. rename select (out1 ++ out2 = _) into E.
  apply app_eq_inv in E as [(l & E1 & E2)|(l & E1 & E2)].
  - destruct l as [|y l]; cbn in E2.
    + destruct (H2 [] k c post) as [?|(k' & b' & ?%elem_of_nil & _)]; [by rewrite E2|by left|done].
    + simplify_eq. destruct (H1 pre k c l) as [[? ->]|(k' & b' & ? & ? & ?)]; [done|right|right].
      * exists k0, b0. split_and!; [by left|done|done].
      * exists k', b'. split_and!; [by right|done|done].
  - subst pre. destruct (H2 l k c post E2) as [?|(k' & b' & ? & ? & ?)]; [by left|right].
    exists k', b'. split_and!; [right; apply elem_of_app; by right|done|done].
Qed.

Lemma print_loop_ok n fuel next depth m :
  (length m <= n)%nat -> (2 * n + 1 <= fuel)%nat -> StronglySorted ordered m -> Forall named m ->
  exists out m', PrintLoop fuel next depth m = Some (out, m') /\ printed next depth m out m'.
Proof.
  revert fuel next depth m. induction n as [|n IH]; intros [|fuel] next depth m Hn Hf Hs Hm; try lia.
  - assert (m = []) as -> by (destruct m; [done|cbn in Hn; lia]). exists [], []. split; [done|].
    split; try done. intros [|] ? ? ? ?; done.
  - pose proof (no_children next m Hs Hm) as Hc. cbn [PrintLoop].
    destruct (lower_bound _ m) as [[[l b] r]|] eqn:E.
    2:{ exists [], m. split; [done|]. split; try done; [intros ? ? ?%elem_of_nil; done|]. intros [|] ? ? ? ?; done. }
    destruct (parent b =? next) eqn:Eb; bool_prop; cbn [negb].
    2:{ exists [], m. split; [done|]. split; try done; [by apply Hc|intros ? ? ?%elem_of_nil; done|]. intros [|] ? ? ? ?; done. }
    apply lower_bound_some in E as (-> & _ & _). rewrite length_app in Hn. cbn [length] in Hn.
    destruct fuel as [|fuel]; [lia|]. cbn [PrintRecursive].
    apply sorted_remove in Hs as Hs1. assert (Hm1 : Forall named (l ++ r)).
    { apply Forall_app in Hm as [? [_ ?]%Forall_cons]. by apply Forall_app. }
    destruct (IH fuel (object b) (S depth) (l ++ r)) as (out1 & m1 & -> & [P1 S1 N1 D1 T1]); [rewrite length_app; lia|lia|done|done|].
    cbn [mbind option_bind].
    assert (Hl1 : (length m1 <= n)%nat) by (apply Permutation_length in P1; rewrite !length_app in P1; lia).
    destruct (IH (S fuel) next depth m1) as (out2 & m2 & -> & [P2 S2 N2 D2 T2]); [done|lia|done|by eapply forall_perm|].
    cbn [mbind option_bind]. eexists _, m2. split; [done|]. split.
    + rewrite <- Permutation_middle, P1, P2, !map_app. cbn [map app snd]. by rewrite <- app_assoc.
    + done.
    + done.
    + intros k c [[[= -> ->]|Hk]%elem_of_cons|Hk]%elem_of_app; [| |by eapply D2].
      * by eapply forall_perm.
      * eapply forall_perm; [exact P2|]. by eapply D1.
    + by apply tree_join.
Qed.

(** The object hangs below [nullptr] by a chain of parents. *)
Inductive rooted (objs : list Base) : Base -> Prop :=
| rooted_top b : b ∈ objs -> parent b = 0 -> rooted objs b
| rooted_child b b' : b ∈ objs -> rooted objs b' -> parent b = object b' -> rooted objs b.

(** [StatsPrint] terminates and prints every object at most once, parents before
    their children and the children indented by one more; what is left over has
    no printed parent, so every object that hangs below [nullptr] is printed. *)
Theorem StatsPrint_correct objs :
  Forall named objs ->
  exists out rest, StatsPrint objs = Some (out, rest) /\
    Permutation objs (map snd out ++ rest) /\ tree_order 0 0 out /\
    (forall b, b ∈ rest -> parent b <> 0 /\ forall k b', (k, b') ∈ out -> parent b <> object b') /\
    ((forall b, b ∈ objs -> rooted objs b) -> rest = []).
Proof.
  intros Hn. destruct (statsMap_spec objs) as [Hs Hp]. unfold StatsPrint.
  generalize dependent (statsMap objs). intros m Hs Hp.
  destruct (print_loop_ok (length objs) (1 + 2 * length objs) 0 0 m) as (out & rest & H & [P S N D T]);
    [by rewrite Hp|lia|done|by rewrite <- Hp|].
  exists out, rest. change (2 + 2 * length objs)%nat with (Datatypes.S (1 + 2 * length objs)). cbn [PrintRecursive].
  rewrite H. cbn [mbind option_bind app]. rewrite <- Hp in P. rewrite Forall_forall in N.
  split_and!; [done|done|done| |].
  - intros b Hb. split; [by apply N|]. intros k b' Hk. specialize (D k b' Hk). rewrite Forall_forall in D. by apply D.
  - intros Hr. assert (Hout : forall b, rooted objs b -> b ∈ map snd out).
    { induction 1 as [b Hb H0|b b' Hb _ IH H0]; rewrite P in Hb; apply elem_of_app in Hb as [?|Hb]; try done.
      - by destruct (N b Hb).
      - apply list_elem_of_fmap_1 in IH as ([k c] & -> & Hc). specialize (D k c Hc). rewrite Forall_forall in D.
        by destruct (D b Hb). }
    destruct rest as [|b rest]; [done|]. exfalso.
    assert (Hb : b ∈ objs) by (rewrite P; apply elem_of_app; right; by left).
    apply Hr in Hb. inversion Hb as [? _ H0|? b' _ Hb' H0]; subst; [by apply (N b); [left|]|].
    apply Hout, list_elem_of_fmap_1 in Hb' as ([k c] & -> & Hc). specialize (D k c Hc). rewrite Forall_forall in D.
    by destruct (D b); [left|].
Qed.

(** A cluster (1) with a worker (2), its ready queue (3), and an event scope (4). *)
Lemma StatsPrint_correct_witness :
  let objs := [mkBase 3 2 0 82; mkBase 1 0 2 67; mkBase 2 1 2 80; mkBase 4 0 0 69] in
  exists out rest, StatsPrint objs = Some (out, rest) /\ tree_order 0 0 out /\
    map (fun kb => (fst kb, object (snd kb))) out = [(0%nat, 4); (0%nat, 1); (1%nat, 2); (2%nat, 3)].
Proof.
  intros objs. destruct (StatsPrint_correct objs) as (out & rest & H & _ & Ht & _); [repeat constructor; cbn; lia|].
  exists out, rest. split_and!; [exact H|exact Ht|]. cbn in H. injection H as <- <-. reflexivity.
Defined.
