(* ===== verification/EventScopes.v ===== *)
(** I/O of an event scope ([src/libfibre/EventScope.h]): the table of file
    descriptors, the retry loop that blocks a fibre until a descriptor is ready,
    and the system call wrappers.

    An operation is a program over a [world]: the scope's state, the answers of
    the kernel and of the synchronization objects still to come, and the trace of
    what was done.  An operation that needs an answer when none is left is
    [Waiting] there. *)
From S2P Require Import Prelude Words Times Stats BlockingQueues Semaphores.

Local Open Scope Z_scope.

(** Constants of the Linux headers. *)
Definition EAGAIN : Z := 11.
Definition ECONNRESET : Z := 104.
Definition EINPROGRESS : Z := 115.
Definition O_NONBLOCK : Z := 2048.
Definition SOCK_NONBLOCK : Z := O_NONBLOCK.

(** [Poller::Operation] and [Poller::Variant]; a direction is [true] for input,
    as the template argument [Input]. *)
Inductive Operation := Create | Modify | Remove.
Inductive Variant := Level | Edge | Oneshot | OnDemand.

(** The master poller of the scope and the pollers of the current cluster. *)
Inductive BasePoller := MasterPoller | InputPoller (i : Z) | OutputPoller (i : Z).

#[export] Instance operation_eq_dec : EqDecision Operation.
Proof. solve_decision. Defined.
#[export] Instance poller_eq_dec : EqDecision BasePoller.
Proof. solve_decision. Defined.

Record SyncFD := mkSyncFD {
  sync : bool -> LockedSemaphore;
  poller : bool -> option BasePoller;
  blocking : bool;
  useUring : bool
}.

(** The I/O system calls with their remaining arguments. *)
Inductive ioop :=
| Read | Pread | Readv | Preadv | Write | Pwrite | Writev | Pwritev
| Sendmsg | Sendto | Send | Recvmsg | Recvfrom | Recv.
Inductive call :=
| CSocket (domain type protocol : Z)
| CBind (fd : Z) (args : list Z)
| CConnect (fd : Z) (args : list Z)
| CAccept4 (fd : Z) (args : list Z) (flags : Z)
| CDup (fd : Z)
| CPipe2 (flags : Z)
| CFcntl (fd cmd flags : Z)
| CClose (fd : Z)
| CIO (op : ioop) (fd : Z) (args : list Z)
| CEpollWait (epfd : Z) (args : list Z)
| CSoError (fd : Z)
| CDisk (args : list Z).

(** The answer to a system call: the result, [errno], and values returned
    through pointers. *)
Record answer := mkAnswer { ret : Z; err : Z; out : list Z }.

Inductive event :=
| Sys (c : call) (a : answer)
| SetupFD (p : BasePoller) (fd : Z) (op : Operation) (input : bool) (v : Variant) (ok : bool)
| Yield
| Wait (fd : Z) (input : bool)
| WaitUntil (fd : Z) (input : bool) (t : Time) (woken : bool)
| MigrateTo (disk : bool).

Record world := mkWorld {
  fds : Z -> SyncFD;
  fdCount : Z;
  iPollCount : Z;
  oPollCount : Z;
  errno : Z;
  stats : EventScopeStats.t;
  answers : list answer;
  trace : list event
}.

Inductive result (A : Type) :=
| Done (a : A) (w : world)
| Waiting (w : world)
| Aborted (w : world).
Arguments Done {A}.
Arguments Waiting {A}.
Arguments Aborted {A}.

Definition M (A : Type) : Type := world -> result A.
Definition mret {A} (a : A) : M A := fun w => Done a w.
Definition mbnd {A B} (m : M A) (k : A -> M B) : M B :=
  fun w => match m w with
           | Done a w' => k a w'
           | Waiting w' => Waiting w'
           | Aborted w' => Aborted w'
           end.
Declare Scope io_scope.
Delimit Scope io_scope with io.
Notation "x <- m ;; k" := (mbnd m (fun x => k)) (at level 100, m at next level, right associativity) : io_scope.
Notation "m ;;; k" := (mbnd m (fun _ => k)) (at level 100, right associativity) : io_scope.
Local Open Scope io_scope.

Definition get {A} (f : world -> A) : M A := fun w => Done (f w) w.
Definition modify (f : world -> world) : M unit := fun w => Done tt (f w).
Definition abort {A} : M A := fun w => Aborted w.

Definition set_fd (fd : Z) (s : SyncFD) (w : world) : world :=
  mkWorld (upd (fds w) fd s) (fdCount w) (iPollCount w) (oPollCount w) (errno w) (stats w) (answers w) (trace w).
Definition set_errno (e : Z) (w : world) : world :=
  mkWorld (fds w) (fdCount w) (iPollCount w) (oPollCount w) e (stats w) (answers w) (trace w).
Definition set_stats (s : EventScopeStats.t) (w : world) : world :=
  mkWorld (fds w) (fdCount w) (iPollCount w) (oPollCount w) (errno w) s (answers w) (trace w).
Definition add_event (e : event) (w : world) : world :=
  mkWorld (fds w) (fdCount w) (iPollCount w) (oPollCount w) (errno w) (stats w) (answers w) (trace w ++ [e]).
Definition log (e : event) : M unit := modify (add_event e).

Definition next : M answer :=
  fun w => match answers w with
           | [] => Waiting w
           | a :: l => Done a (mkWorld (fds w) (fdCount w) (iPollCount w) (oPollCount w) (errno w) (stats w) l (trace w))
           end.

(** A system call: [errno] is set when it fails. *)
Definition sys (c : call) : M answer :=
  a <- next ;; log (Sys c a) ;;; (if ret a <? 0 then modify (set_errno (err a)) else mret tt) ;;; mret a.

(** [BasePoller::setupFD]: [epoll_ctl] must succeed. *)
Definition setupFD (p : BasePoller) (fd : Z) (op : Operation) (input : bool) (v : Variant) : M unit :=
  a <- next ;; log (SetupFD p fd op input v (ret a =? 0)) ;;; (if ret a =? 0 then mret tt else abort).

(** [sync.P()] and [sync.P(absTimeout)] *)
Definition wait_P (fd : Z) (input : bool) : M unit := next ;;; log (Wait fd input).
Definition wait_until (fd : Z) (input : bool) (t : Time) : M bool :=
  a <- next ;; log (WaitUntil fd input t (0 <? ret a)) ;;; mret (0 <? ret a).

(** [RASSERT0(fd >= 0 && fd < fdCount)], and the slot of a descriptor. *)
Definition check (fd : Z) : M unit := n <- get fdCount ;; if (0 <=? fd) && (fd <? n) then mret tt else abort.
Definition slot (fd : Z) : M SyncFD := check fd ;;; get (fun w => fds w fd).
Definition set_slot (fd : Z) (f : SyncFD -> SyncFD) : M unit :=
  s <- slot fd ;; modify (set_fd fd (f s)).

Definition with_flags (b u : bool) (s : SyncFD) : SyncFD := mkSyncFD (sync s) (poller s) b u.
Definition with_poller (input : bool) (p : BasePoller) (s : SyncFD) : SyncFD :=
  mkSyncFD (sync s) (upd (poller s) input (Some p)) (blocking s) (useUring s).

(** The counters of the scope. *)
Definition count_call (n : Z) (s : EventScopeStats.t) : EventScopeStats.t :=
  EventScopeStats.mk (EventScopeStats.srvconn s) (EventScopeStats.cliconn s) (EventScopeStats.resets s)
    (Counter.count n (EventScopeStats.calls s)) (EventScopeStats.fails s).
Definition count_fail (s : EventScopeStats.t) : EventScopeStats.t :=
  EventScopeStats.mk (EventScopeStats.srvconn s) (EventScopeStats.cliconn s) (EventScopeStats.resets s)
    (EventScopeStats.calls s) (Counter.count 1 (EventScopeStats.fails s)).
Definition count_reset (n : Z) (s : EventScopeStats.t) : EventScopeStats.t :=
  EventScopeStats.mk (EventScopeStats.srvconn s) (EventScopeStats.cliconn s) (Counter.count n (EventScopeStats.resets s))
    (EventScopeStats.calls s) (EventScopeStats.fails s).
Definition count_client (s : EventScopeStats.t) : EventScopeStats.t :=
  EventScopeStats.mk (EventScopeStats.srvconn s) (Counter.count 1 (EventScopeStats.cliconn s)) (EventScopeStats.resets s)
    (EventScopeStats.calls s) (EventScopeStats.fails s).
Definition count_server (s : EventScopeStats.t) : EventScopeStats.t :=
  EventScopeStats.mk (Counter.count 1 (EventScopeStats.srvconn s)) (EventScopeStats.cliconn s) (EventScopeStats.resets s)
    (EventScopeStats.calls s) (EventScopeStats.fails s).
Definition stat (f : EventScopeStats.t -> EventScopeStats.t) : M unit := modify (fun w => set_stats (f (stats w)) w).

(** * The retry loop *)

(** [getPoller<Input,Accept>(fd)], with [Cluster::getInputPoller] and
    [getOutputPoller]. *)
Definition getPoller (input : bool) (fd : Z) : M BasePoller :=
  get (fun w => if input then InputPoller (fd mod iPollCount w) else OutputPoller (fd mod oPollCount w)).

Definition TestEAGAIN : M bool :=
  e <- get errno ;; stat (count_reset (Z.b2z (e =? ECONNRESET))) ;;; mret (e =? EAGAIN).

(** [tryIO]: [None] when the call would block. *)
Definition tryIO (c : call) : M (option Z) :=
  stat (count_call 1) ;;;
  a <- sys c ;;
  if 0 <=? ret a then mret (Some (ret a)) else
  again <- TestEAGAIN ;;
  if negb again then mret (Some (ret a)) else stat count_fail ;;; mret None.

(** Register the descriptor, or arm it again. *)
Definition arm (fd : Z) (input : bool) : M BasePoller :=
  s <- slot fd ;;
  match poller s input with
  | None => p <- getPoller input fd ;; set_slot fd (with_poller input p) ;;; setupFD p fd Create input Oneshot ;;; mret p
  | Some p => setupFD p fd Modify input Oneshot ;;; mret p
  end.

Fixpoint sync_loop (fuel : nat) (p : BasePoller) (c : call) (fd : Z) (input : bool) : M Z :=
  match fuel with
  | O => abort
  | S fuel' =>
      wait_P fd input ;;;
      r <- tryIO c ;;
      match r with
      | Some v => mret v
      | None => setupFD p fd Modify input Oneshot ;;; sync_loop fuel' p c fd input
      end
  end.

(** [syncIO<Input,Accept>(iofunc, fd, a...)] *)
Definition syncIO (input accept : bool) (c : call) (fd : Z) : M Z :=
  (if input && negb accept then log Yield else mret tt) ;;;
  r <- tryIO c ;;
  match r with
  | Some v => mret v
  | None => p <- arm fd input ;; n <- get (fun w => S (length (answers w))) ;; sync_loop n p c fd input
  end.

(** [checkAsyncCompletion(fd)]: the value of [SO_ERROR]. *)
Definition checkAsyncCompletion (fd : Z) : M Z :=
  p <- getPoller false fd ;;
  set_slot fd (with_poller false p) ;;;
  setupFD p fd Create false Oneshot ;;;
  wait_P fd false ;;;
  a <- sys (CSoError fd) ;;
  if ret a =? 0 then mret (default 0 (head (out a))) else abort.

(** * Creating descriptors *)
Definition has (flags bit : Z) : bool := negb (Z.land flags bit =? 0).
Definition nonblock (flags : Z) (uring : bool) : Z := Z.lor flags (if uring then 0 else O_NONBLOCK).

Definition socket (domain type protocol : Z) (uring : bool) : M Z :=
  a <- sys (CSocket domain (nonblock type uring) protocol) ;;
  if ret a <? 0 then mret (ret a) else
  set_slot (ret a) (with_flags (negb (has type SOCK_NONBLOCK)) uring) ;;; mret (ret a).

Definition dup (fd : Z) : M Z :=
  a <- sys (CDup fd) ;;
  if ret a <? 0 then mret (ret a) else
  s <- slot fd ;; set_slot (ret a) (with_flags (blocking s) (useUring s)) ;;; mret (ret a).

(** [pipe2]: the two descriptors are returned through [pipefd]. *)
Definition pipe2 (flags : Z) (uring : bool) : M (Z * list Z) :=
  a <- sys (CPipe2 (nonblock flags uring)) ;;
  if ret a <? 0 then mret (ret a, []) else
  match out a with
  | [r; w] =>
      set_slot r (with_flags (negb (has flags O_NONBLOCK)) uring) ;;;
      set_slot w (with_flags (negb (has flags O_NONBLOCK)) uring) ;;; mret (ret a, [r; w])
  | _ => abort
  end.

Definition fcntl (fd cmd flags : Z) : M Z :=
  s <- slot fd ;;
  a <- sys (CFcntl fd cmd (nonblock flags (useUring s))) ;;
  if ret a <? 0 then mret (ret a) else
  set_slot fd (with_flags (negb (has flags O_NONBLOCK)) (useUring s)) ;;; mret (ret a).

(** [cleanupFD(fd)]: nobody may be waiting. *)
Definition cleanupFD (fd : Z) : M unit :=
  s <- slot fd ;;
  match reset 0 (sync s false), reset 0 (sync s true) with
  | Some o, Some i => modify (set_fd fd (mkSyncFD (fun d => if d then i else o) (fun _ => None) false false))
  | _, _ => abort
  end.
Definition close (fd : Z) : M Z := cleanupFD fd ;;; a <- sys (CClose fd) ;; mret (ret a).

(** * Connections *)
Definition bind (fd : Z) (args : list Z) : M Z :=
  s <- slot fd ;;
  a <- sys (CBind fd args) ;;
  if negb (blocking s) then mret (ret a) else
  if ret a <? 0 then
    e <- get errno ;;
    if negb (e =? EINPROGRESS) then mret (ret a) else
    r <- checkAsyncCompletion fd ;;
    if negb (r =? 0) then modify (set_errno r) ;;; mret (-1) else mret r
  else mret (ret a).

Definition connect (fd : Z) (args : list Z) : M Z :=
  s <- slot fd ;;
  a <- sys (CConnect fd args) ;;
  if negb (blocking s) then mret (ret a) else
  if ret a <? 0 then
    e <- get errno ;;
    if negb (e =? EINPROGRESS) then mret (ret a) else
    r <- checkAsyncCompletion fd ;;
    if negb (r =? 0) then modify (set_errno r) ;;; mret (-1) else stat count_client ;;; mret r
  else stat count_client ;;; mret (ret a).

Definition accept4 (fd : Z) (args : list Z) (flags : Z) : M Z :=
  s <- slot fd ;;
  let c := CAccept4 fd args (Z.lor flags SOCK_NONBLOCK) in
  r <- (if blocking s then syncIO true true c fd else a <- sys c ;; mret (ret a)) ;;
  if r <? 0 then mret r else
  s <- slot fd ;;
  set_slot r (with_flags (negb (has flags SOCK_NONBLOCK)) (useUring s)) ;;; stat count_server ;;; mret r.

(** * Reading and writing *)
Definition syncInput (c : call) (fd : Z) : M Z :=
  s <- slot fd ;; if negb (blocking s) then a <- sys c ;; mret (ret a) else syncIO true false c fd.
Definition syncOutput (c : call) (fd : Z) : M Z :=
  s <- slot fd ;; if negb (blocking s) then a <- sys c ;; mret (ret a) else syncIO false false c fd.

(** The wrappers declared with result [int] convert what the call returned. *)
Definition as_int (m : M Z) : M Z := r <- m ;; mret (to_int r).
Definition read (fd : Z) (args : list Z) : M Z := as_int (syncInput (CIO Read fd args) fd).
Definition pread (fd : Z) (args : list Z) : M Z := as_int (syncInput (CIO Pread fd args) fd).
Definition readv (fd : Z) (args : list Z) : M Z := as_int (syncInput (CIO Readv fd args) fd).
Definition preadv (fd : Z) (args : list Z) : M Z := as_int (syncInput (CIO Preadv fd args) fd).
Definition write (fd : Z) (args : list Z) : M Z := as_int (syncOutput (CIO Write fd args) fd).
Definition pwrite (fd : Z) (args : list Z) : M Z := as_int (syncOutput (CIO Pwrite fd args) fd).
Definition writev (fd : Z) (args : list Z) : M Z := as_int (syncOutput (CIO Writev fd args) fd).
Definition pwritev (fd : Z) (args : list Z) : M Z := as_int (syncOutput (CIO Pwritev fd args) fd).
Definition sendmsg (fd : Z) (args : list Z) : M Z := syncOutput (CIO Sendmsg fd args) fd.
Definition sendto (fd : Z) (args : list Z) : M Z := syncOutput (CIO Sendto fd args) fd.
Definition send (fd : Z) (args : list Z) : M Z := syncOutput (CIO Send fd args) fd.
Definition recvmsg (fd : Z) (args : list Z) : M Z := syncInput (CIO Recvmsg fd args) fd.
Definition recvfrom (fd : Z) (args : list Z) : M Z := syncInput (CIO Recvfrom fd args) fd.
Definition recv (fd : Z) (args : list Z) : M Z := syncInput (CIO Recv fd args) fd.

(** [directIO]: the call is made on the disk cluster. *)
Definition directIO (hasDisk : bool) (c : call) : M Z :=
  if hasDisk then log (MigrateTo true) ;;; a <- sys c ;; log (MigrateTo false) ;;; mret (to_int (ret a)) else abort.

(** [epoll_wait(epfd, events, maxevents, timeout)]; [now]: the time at the call. *)
Fixpoint epoll_loop (fuel : nat) (p : BasePoller) (epfd : Z) (args : list Z) (t : option Time) : M Z :=
  match fuel with
  | O => abort
  | S fuel' =>
      woken <- (match t with
                | None => wait_P epfd true ;;; mret true
                | Some t => wait_until epfd true t
                end) ;;
      if negb woken then mret 0 else
      stat (count_call 1) ;;;
      a <- sys (CEpollWait epfd args) ;;
      if negb (ret a =? 0) then mret (ret a) else
      stat count_fail ;;; setupFD p epfd Modify true Oneshot ;;; epoll_loop fuel' p epfd args t
  end.
Definition epoll_wait (now : Time) (epfd : Z) (args : list Z) (timeout : Z) : M Z :=
  check epfd ;;;
  stat (count_call (Z.b2z (negb (timeout =? 0)))) ;;;
  a <- sys (CEpollWait epfd args) ;;
  if negb (ret a =? 0) || (timeout =? 0) then mret (ret a) else
  stat count_fail ;;;
  p <- arm epfd true ;;
  n <- get (fun w => S (length (answers w))) ;;
  epoll_loop n p epfd args (if 0 <? timeout then Some (time_add now (fromMS timeout)) else None).

(** * Calls of the pollers *)

(** A [tryP] does not suspend, so it does not use the calling fred or the time. *)
Definition tryblock (fd : Z) : M bool :=
  s <- slot fd ;;
  let '(r, q) := tryP 0%nat zero (sync s true) in
  modify (set_fd fd (mkSyncFD (upd (sync s) true q) (poller s) (blocking s) (useUring s))) ;;;
  mret (match r with Some SemaphoreWasOpen => true | _ => false end).

Definition registerPollFD (fd : Z) : M unit := check fd ;;; setupFD MasterPoller fd Create true Oneshot.
Definition blockPollFD (fd : Z) : M unit := check fd ;;; setupFD MasterPoller fd Modify true Oneshot ;;; wait_P fd true.

(** * Setting up a scope *)

(** [initSync()]: as many slots as the limit on open files. *)
Definition initSync (self : bool -> LockedSemaphore) (rlim_cur : Z) (w : world) : world :=
  mkWorld (fun _ => mkSyncFD self (fun _ => None) false false) rlim_cur
          (iPollCount w) (oPollCount w) (errno w) (stats w) (answers w) (trace w).

(** [cloneInternal]: the new scope takes over the modes of the descriptors. *)
Definition copy_modes (parent : Z -> SyncFD) (w : world) : world :=
  mkWorld (fun fd => if (0 <=? fd) && (fd <? fdCount w)
                     then with_flags (blocking (parent fd)) (useUring (parent fd)) (fds w fd) else fds w fd)
          (fdCount w) (iPollCount w) (oPollCount w) (errno w) (stats w) (answers w) (trace w).

(** The descriptor part of [preFork()]: no value is negative, nothing is registered. *)
Definition quiet_fd (s : SyncFD) : bool :=
  (0 <=? counter (sync s false)) && (0 <=? counter (sync s true)) &&
  bool_decide (poller s false = None) && bool_decide (poller s true = None).
Definition preFork (w : world) : bool := forallb (fun fd => quiet_fd (fds w fd)) (seqZ 0 (fdCount w)).

(** * Reasoning about the programs

    [wp E m Q w]: when [m] runs from [w], a result satisfies [Q] and an abort
    [E]; when it waits, there are no answers left. *)
Definition wp {A} (E : world -> Prop) (m : M A) (Q : A -> world -> Prop) (w : world) : Prop :=
  match m w with
  | Done a w' => Q a w'
  | Waiting w' => answers w' = []
  | Aborted w' => E w'
  end.

(** What happened between two worlds. *)
Definition did (w w' : world) (evs : list event) : Prop := trace w' = trace w ++ evs.
(** The world but for [errno], the counters, the answers and the trace. *)
Definition same_scope (w w' : world) : Prop :=
  fdCount w' = fdCount w /\ iPollCount w' = iPollCount w /\ oPollCount w' = oPollCount w.

Section Wp.
Context (E : world -> Prop).
Implicit Types (w : world).

Lemma wp_bind {A B} (m : M A) (k : A -> M B) Q w :
  wp E m (fun a w' => wp E (k a) Q w') w -> wp E (mbnd m k) Q w.
Proof. unfold wp, mbnd. by destruct (m w). Qed.

Lemma wp_mono {A} (m : M A) (Q Q' : A -> world -> Prop) w :
  wp E m Q w -> (forall a w', Q a w' -> Q' a w') -> wp E m Q' w.
Proof. unfold wp. destruct (m w); auto. Qed.

Lemma wp_sys c (Q : answer -> world -> Prop) w :
  (forall a w', did w w' [Sys c a] -> answers w = a :: answers w' -> fds w' = fds w -> same_scope w w' -> stats w' = stats w ->
     (ret a < 0 -> errno w' = err a) -> Q a w') -> wp E (sys c) Q w.
Proof.
  intros H. unfold wp, sys, next, mbnd, log, modify, mret. destruct (answers w) as [|a l] eqn:Ha; [done|].
  destruct (ret a <? 0) eqn:Hr; bool_prop; apply H; cbn; try done; lia.
Qed.

Lemma wp_setup p fd op input v (Q : unit -> world -> Prop) w :
  (forall w', did w w' [SetupFD p fd op input v true] -> S (length (answers w')) = length (answers w) ->
     fds w' = fds w -> same_scope w w' -> Q tt w') ->
  (forall w', did w w' [SetupFD p fd op input v false] -> E w') -> wp E (setupFD p fd op input v) Q w.
Proof.
  intros H H'. unfold wp, setupFD, next, mbnd, log, modify, mret, abort. destruct (answers w) as [|a l] eqn:Ha; [done|].
  destruct (ret a =? 0) eqn:Hr; bool_prop; [apply H; cbn; rewrite ?Ha; done|by apply H'].
Qed.

Lemma wp_wait fd input (Q : unit -> world -> Prop) w :
  (forall w', did w w' [Wait fd input] -> S (length (answers w')) = length (answers w) ->
     fds w' = fds w -> same_scope w w' -> Q tt w') -> wp E (wait_P fd input) Q w.
Proof.
  intros H. unfold wp, wait_P, next, mbnd, log, modify. destruct (answers w) as [|a l] eqn:Ha; [done|].
  apply H; cbn; rewrite ?Ha; done.
Qed.

Lemma wp_slot fd (Q : SyncFD -> world -> Prop) w :
  0 <= fd < fdCount w -> Q (fds w fd) w -> wp E (slot fd) Q w.
Proof.
  intros Hfd H. unfold wp, slot, check, get, mbnd, mret.
  rewrite (proj2 (Z.leb_le _ _)), (proj2 (Z.ltb_lt _ _)) by lia. done.
Qed.

Lemma wp_set_slot fd f (Q : unit -> world -> Prop) w :
  0 <= fd < fdCount w -> Q tt (set_fd fd (f (fds w fd)) w) -> wp E (set_slot fd f) Q w.
Proof. intros Hfd H. unfold set_slot. by apply wp_bind, wp_slot. Qed.
End Wp.

(** The call would block, or has an answer for the caller. *)
Definition would_block (a : answer) : Prop := ret a < 0 /\ err a = EAGAIN.
Definition settled (a : answer) : Prop := 0 <= ret a \/ err a <> EAGAIN.

Lemma wp_tryIO E c (Q : option Z -> world -> Prop) w :
  (forall a w', did w w' [Sys c a] -> S (length (answers w')) = length (answers w) -> fds w' = fds w -> same_scope w w' ->
     (ret a < 0 -> errno w' = err a) ->
     (settled a -> Q (Some (ret a)) w') /\ (would_block a -> Q None w')) -> wp E (tryIO c) Q w.
Proof.
  intros H. unfold tryIO. apply wp_bind. cbn -[sys]. apply wp_bind. apply wp_sys.
  intros a w1 Ht Ha Hf Hsc Hst He. cbn in Ht, Ha, Hf, Hsc.
  assert (Hlen : S (length (answers w1)) = length (answers w)) by (by rewrite Ha).
  destruct (0 <=? ret a) eqn:Hr; bool_prop.
  - unfold wp, mret. apply (H a w1); try done. by left.
  - unfold wp, TestEAGAIN, stat, get, modify, mbnd, mret. cbn. rewrite He by lia.
    destruct (err a =? EAGAIN) eqn:Ee; bool_prop; cbn [negb].
    + refine (proj2 (H a (set_stats _ (set_stats _ w1)) _ _ _ _ _) _); cbn; done.
    + refine (proj1 (H a (set_stats _ w1) _ _ _ _ _) _); cbn; try done. by right.
Qed.

(** * A blocking operation

    [armed evs]: what an operation has done when its fibre goes to sleep: every
    attempt so far would have blocked, and the descriptor was armed after the
    last of them.  [finished evs r]: the attempt that gave the result. *)
Section SyncIO.
Context (c : call) (fd : Z) (input : bool) (pre : list event).

Inductive armed : list event -> Prop :=
| armed_first a p op : would_block a ->
    armed (pre ++ [Sys c a; SetupFD p fd op input Oneshot true])
| armed_again evs a p : armed evs -> would_block a ->
    armed (evs ++ [Wait fd input; Sys c a; SetupFD p fd Modify input Oneshot true]).

Inductive finished : list event -> Z -> Prop :=
| finished_now a : settled a -> finished (pre ++ [Sys c a]) (ret a)
| finished_later evs a : armed evs -> settled a -> finished (evs ++ [Wait fd input; Sys c a]) (ret a).

(** The only way to give up is a registration that fails. *)
Definition setup_failed (w w' : world) : Prop :=
  exists evs p op, did w w' (evs ++ [SetupFD p fd op input Oneshot false]).
End SyncIO.

Lemma did_trans w1 w2 w3 e1 e2 : did w1 w2 e1 -> did w2 w3 e2 -> did w1 w3 (e1 ++ e2).
Proof. unfold did. intros H1 H2. by rewrite H2, H1, app_assoc. Qed.

Lemma setup_failed_at fd input w w' evs p op w0 :
  did w0 w evs -> did w w' [SetupFD p fd op input Oneshot false] -> setup_failed fd input w0 w'.
Proof. intros H1 H2. exists evs, p, op. by eapply did_trans. Qed.

Lemma sync_loop_ok c fd input pre n p w0 evs w :
  (length (answers w) < n)%nat -> did w0 w evs -> armed c fd input pre evs ->
  wp (setup_failed fd input w0) (sync_loop n p c fd input)
     (fun r w' => exists evs', did w0 w' evs' /\ finished c fd input pre evs' r) w.
Proof.
  revert evs w. induction n as [|n IH]; intros evs w Hn Ht Harm; [lia|]. cbn [sync_loop].
  apply wp_bind, wp_wait. intros w1 H1 L1 _ _. apply wp_bind, wp_tryIO. intros a w2 H2 L2 _ _ _.
  assert (Ht2 : did w0 w2 (evs ++ [Wait fd input; Sys c a])).
  { change [Wait fd input; Sys c a] with ([Wait fd input] ++ [Sys c a]). eapply did_trans; [exact Ht|by eapply did_trans]. }
  split; intros Ha.
  - exists (evs ++ [Wait fd input; Sys c a]). split; [done|by apply finished_later].
  - apply wp_bind, wp_setup; [|intros w3 H3; by eapply setup_failed_at]. intros w3 H3 L3 _ _.
    apply (IH (evs ++ [Wait fd input; Sys c a; SetupFD p fd Modify input Oneshot true])); [lia| |by apply armed_again].
    pose proof (did_trans _ _ _ _ _ Ht2 H3) as H. by rewrite <- app_assoc in H.
Qed.

(** C28. A blocking operation on a descriptor of the scope.  It attempts the system
    call (input first lets other fibres run), and only when the call would block
    arms the descriptor, sleeps until it is notified, and tries again, arming the
    descriptor before each sleep; it returns what the first attempt that would
    not block has returned.  It never runs out of attempts, and fails only when a
    registration fails. *)
Theorem syncIO_correct input accept c fd w :
  0 <= fd < fdCount w ->
  let pre := if input && negb accept then [Yield] else [] in
  match syncIO input accept c fd w with
  | Done r w' => exists evs, did w w' evs /\ finished c fd input pre evs r
  | Waiting w' => answers w' = []
  | Aborted w' => setup_failed fd input w w'
  end.
Proof.
  intros Hfd pre. change (wp (setup_failed fd input w) (syncIO input accept c fd)
    (fun r w' => exists evs, did w w' evs /\ finished c fd input pre evs r) w).
  unfold syncIO. apply wp_bind.
  assert (Hpre : exists w1, did w w1 pre /\ fdCount w1 = fdCount w /\
    (if input && negb accept then log Yield else mret tt) w = Done tt w1).
  { subst pre. destruct (input && negb accept); [by exists (add_event Yield w)|]. exists w. split_and!; try done. unfold did. by rewrite app_nil_r. }
  destruct Hpre as (w1 & Ht1 & Hc1 & Hp). unfold wp at 1. rewrite Hp.
  apply wp_bind, wp_tryIO. intros a w2 H2 L2 _ [Hc2 _] _. pose proof (did_trans _ _ _ _ _ Ht1 H2) as Ht2.
  split; intros Ha; [exists (pre ++ [Sys c a]); split; [done|by apply finished_now]|].
  assert (Hfail : forall p op w3, did w2 w3 [SetupFD p fd op input Oneshot false] -> setup_failed fd input w w3).
  { intros p op w3 H3. by eapply setup_failed_at. }
  assert (Hloop : forall p op w3, did w2 w3 [SetupFD p fd op input Oneshot true] ->
    wp (setup_failed fd input w) (n <- get (fun w => S (length (answers w))) ;; sync_loop n p c fd input)
       (fun r w' => exists evs, did w w' evs /\ finished c fd input pre evs r) w3).
  { intros p op w3 H3. apply wp_bind. unfold wp at 1, get.
    apply (sync_loop_ok c fd input pre _ p w (pre ++ [Sys c a; SetupFD p fd op input Oneshot true])); [lia| |by apply armed_first].
    pose proof (did_trans _ _ _ _ _ Ht2 H3) as H. by rewrite <- app_assoc in H. }
  apply wp_bind. unfold arm. apply wp_bind, wp_slot; [lia|]. destruct (poller (fds w2 fd) input) as [p|].
  - apply wp_bind, wp_setup; [|apply Hfail]. intros w3 H3 _ _ _. unfold wp at 1, mret. by eapply Hloop.
  - apply wp_bind. unfold wp at 1, getPoller, get. set (p := if input then _ else _). apply wp_bind, wp_set_slot; [lia|].
    apply wp_bind, wp_setup; [|intros w3 H3; by eapply Hfail]. intros w3 H3 _ _ _. unfold wp at 1, mret. by eapply Hloop.
Qed.

(** * Connecting *)

(** A blocking [connect] returns what the call has returned, unless the
    connection is in progress: then it registers for output, sleeps, and returns
    0, or -1 with [errno] set to the error that the socket reports. *)
Theorem connect_correct fd args w :
  0 <= fd < fdCount w -> blocking (fds w fd) = true ->
  match connect fd args w with
  | Done r w' =>
      (exists a, did w w' [Sys (CConnect fd args) a] /\ (0 <= ret a \/ err a <> EINPROGRESS) /\ r = ret a) \/
      (exists a p b, did w w' [Sys (CConnect fd args) a; SetupFD p fd Create false Oneshot true; Wait fd false; Sys (CSoError fd) b] /\
         ret a < 0 /\ err a = EINPROGRESS /\ ret b = 0 /\
         (if default 0 (head (out b)) =? 0 then r = 0 else r = -1 /\ errno w' = default 0 (head (out b))))
  | Waiting w' => answers w' = []
  | Aborted w' => exists a p, did w w' [Sys (CConnect fd args) a; SetupFD p fd Create false Oneshot false] \/
      (exists b, ret b <> 0 /\
         did w w' [Sys (CConnect fd args) a; SetupFD p fd Create false Oneshot true; Wait fd false; Sys (CSoError fd) b])
  end.
Proof.
  intros Hfd Hb. refine (_ : wp _ (connect fd args) _ w). unfold connect. apply wp_bind, wp_slot; [done|].
  apply wp_bind, wp_sys. intros a w1 H1 A1 F1 [C1 _] S1 E1. rewrite Hb. cbn [negb].
  destruct (ret a <? 0) eqn:Hr; bool_prop.
  2:{ left. exists a. split_and!; [|by left|done]. done. }
  apply wp_bind. unfold wp at 1, get. rewrite E1 by done. destruct (err a =? EINPROGRESS) eqn:He; bool_prop; cbn [negb].
  2:{ left. exists a. split_and!; [done|by right|done]. }
  apply wp_bind. unfold checkAsyncCompletion. apply wp_bind. unfold wp at 1, getPoller, get.
  set (p := OutputPoller _). apply wp_bind, wp_set_slot; [lia|]. set (w2 := set_fd fd _ w1).
  assert (H2 : did w w2 [Sys (CConnect fd args) a]) by done. apply wp_bind, wp_setup.
  2:{ intros w3 H3. exists a, p. left. exact (did_trans _ _ _ _ _ H2 H3). }
  intros w3 H3 _ _ _. apply wp_bind, wp_wait. intros w4 H4 _ _ _. apply wp_bind, wp_sys. intros b w5 H5 _ _ _ _ _.
  pose proof (did_trans _ _ _ _ _ (did_trans _ _ _ _ _ (did_trans _ _ _ _ _ H2 H3) H4) H5) as Ht. cbn [app] in Ht.
  destruct (ret b =? 0) eqn:Hrb; bool_prop; [|exists a, p; right; by exists b].
  unfold wp at 1, mret. destruct (default 0 (head (out b)) =? 0) eqn:Hso; cbn [negb]; right; exists a, p, b;
    split_and!; try done; rewrite ?Hso; [|done]. by bool_prop.
Qed.

(** * The modes of descriptors

    Every descriptor that the scope creates is nonblocking for the kernel, and
    stays so, so that a system call never blocks the worker; [blocking] is what
    the application asked for. *)
Inductive api :=
| ASocket (domain type protocol : Z) | ADup (fd : Z) | APipe2 (flags : Z) | AFcntl (fd cmd flags : Z) | AClose (fd : Z)
| ABind (fd : Z) (args : list Z) | AConnect (fd : Z) (args : list Z) | AAccept (fd : Z) (args : list Z) (flags : Z)
| AInput (op : ioop) (fd : Z) (args : list Z) | AOutput (op : ioop) (fd : Z) (args : list Z)
| AEpollWait (now : Time) (fd : Z) (args : list Z) (timeout : Z).

Definition exec (o : api) : M Z :=
  match o with
  | ASocket d t p => socket d t p false
  | ADup fd => dup fd
  | APipe2 flags => r <- pipe2 flags false ;; mret (fst r)
  | AFcntl fd cmd flags => fcntl fd cmd flags
  | AClose fd => close fd
  | ABind fd args => bind fd args
  | AConnect fd args => connect fd args
  | AAccept fd args flags => accept4 fd args flags
  | AInput op fd args => syncInput (CIO op fd args) fd
  | AOutput op fd args => syncOutput (CIO op fd args) fd
  | AEpollWait now fd args timeout => epoll_wait now fd args timeout
  end.
Fixpoint exec_all (os : list api) : M unit :=
  match os with
  | [] => mret tt
  | o :: os' => exec o ;;; exec_all os'
  end.

(** A call that creates a descriptor or sets its flags asks for [O_NONBLOCK]. *)
Definition asks_nonblock (e : event) : Prop :=
  match e with
  | Sys (CSocket _ f _) _ | Sys (CAccept4 _ _ f) _ | Sys (CPipe2 f) _ | Sys (CFcntl _ _ f) _ => has f O_NONBLOCK = true
  | _ => True
  end.
Definition modes_ok (w : world) : Prop :=
  (forall fd, useUring (fds w fd) = false) /\ Forall asks_nonblock (trace w).

(** [keeps m Q]: whatever happens, [m] keeps the modes, and its result is [Q]. *)
Definition keeps {A} (m : M A) (Q : A -> Prop) : Prop :=
  forall w, modes_ok w ->
    match m w with
    | Done a w' => modes_ok w' /\ Q a
    | Waiting w' | Aborted w' => modes_ok w'
    end.
Definition any {A} : A -> Prop := fun _ => True.

Lemma keeps_bind {A B} (m : M A) (k : A -> M B) Q R :
  keeps m Q -> (forall a, Q a -> keeps (k a) R) -> keeps (mbnd m k) R.
Proof.
  intros Hm Hk w Hw. specialize (Hm w Hw). unfold mbnd. destruct (m w) as [a w'|w'|w']; try done.
  destruct Hm as [Hw' Ha]. exact (Hk a Ha w' Hw').
Qed.
Lemma keeps_ret {A} (a : A) (Q : A -> Prop) : Q a -> keeps (mret a) Q.
Proof. intros Ha w Hw. done. Qed.
Lemma keeps_get {A} (f : world -> A) : keeps (get f) any.
Proof. intros w Hw. done. Qed.
Lemma keeps_abort {A} (Q : A -> Prop) : keeps abort Q.
Proof. intros w Hw. done. Qed.
Lemma keeps_stat f : keeps (stat f) any.
Proof. intros w [H1 H2]. done. Qed.
Lemma keeps_errno e : keeps (modify (set_errno e)) any.
Proof. intros w [H1 H2]. done. Qed.
Lemma keeps_log e : asks_nonblock e -> keeps (log e) any.
Proof. intros He w [H1 H2]. split; [|done]. split; [done|]. cbn. apply Forall_app. by repeat constructor. Qed.
Lemma keeps_next : keeps next any.
Proof. intros w [H1 H2]. unfold next. by destruct (answers w). Qed.
Lemma keeps_check fd : keeps (check fd) any.
Proof. intros w Hw. unfold check, get, mbnd. by destruct (_ && _). Qed.
Lemma keeps_slot fd : keeps (slot fd) (fun s => useUring s = false).
Proof.
  unfold slot. eapply keeps_bind; [apply keeps_check|]. intros _ _ w [H1 H2]. done.
Qed.
Lemma keeps_set_fd fd s : useUring s = false -> keeps (modify (set_fd fd s)) any.
Proof. intros Hs w [H1 H2]. split; [|done]. split; [|done]. intros g. cbn. by at_fred g fd. Qed.
Lemma keeps_set_slot fd f : (forall s, useUring s = false -> useUring (f s) = false) -> keeps (set_slot fd f) any.
Proof. intros Hf. eapply keeps_bind; [apply keeps_slot|]. intros s Hs. by apply keeps_set_fd, Hf. Qed.
Lemma keeps_sys c : (forall a, asks_nonblock (Sys c a)) -> keeps (sys c) any.
Proof.
  intros Hc. unfold sys. eapply keeps_bind; [apply keeps_next|]. intros a _. eapply keeps_bind; [by apply keeps_log|].
  intros _ _. eapply keeps_bind; [|intros _ _; by apply keeps_ret]. destruct (ret a <? 0); [apply keeps_errno|by apply keeps_ret].
Qed.
Lemma keeps_setup p fd op input v : keeps (setupFD p fd op input v) any.
Proof.
  unfold setupFD. eapply keeps_bind; [apply keeps_next|]. intros a _. eapply keeps_bind; [by apply keeps_log|].
  intros _ _. destruct (_ =? _); [by apply keeps_ret|apply keeps_abort].
Qed.
Lemma keeps_wait fd input : keeps (wait_P fd input) any.
Proof. eapply keeps_bind; [apply keeps_next|]. intros a _. by apply keeps_log. Qed.

Lemma has_nonblock f : has (Z.lor f O_NONBLOCK) O_NONBLOCK = true.
Proof.
  unfold has. replace (Z.land (Z.lor f O_NONBLOCK) O_NONBLOCK) with O_NONBLOCK; [done|].
  apply Z.bits_inj'. intros i Hi. rewrite Z.land_spec, Z.lor_spec. by destruct (Z.testbit f i), (Z.testbit O_NONBLOCK i).
Qed.

Create HintDb keeps discriminated.
#[export] Hint Resolve keeps_get keeps_abort keeps_stat keeps_errno keeps_next keeps_check keeps_slot keeps_setup keeps_wait : keeps.

(** Go through a program: each step keeps the modes. *)
Ltac keeps_step :=
  solve [eauto with keeps | apply keeps_sys; intros ?; first [exact I | apply has_nonblock]
        |apply keeps_log; exact I | by apply keeps_set_slot].
Ltac keeps :=
  repeat match goal with
  | |- keeps (mbnd _ _) _ => eapply keeps_bind; [keeps_step|intros ? ?]
  | |- keeps (mret _) _ => by apply keeps_ret
  | |- keeps (if ?b then _ else _) _ => destruct b
  | |- keeps (match ?x with _ => _ end) _ => destruct x
  | |- keeps _ _ => keeps_step
  end.

Lemma keeps_tryIO c : (forall a, asks_nonblock (Sys c a)) -> keeps (tryIO c) any.
Proof.
  intros Hc. unfold tryIO, TestEAGAIN. eapply keeps_bind; [apply keeps_stat|intros _ _].
  eapply keeps_bind; [by apply keeps_sys|intros a _]. destruct (_ <=? _); [by apply keeps_ret|].
  eapply keeps_bind; [keeps|intros b _]. keeps.
Qed.
Lemma keeps_getPoller input fd : keeps (getPoller input fd) any.
Proof. apply keeps_get. Qed.
Lemma keeps_arm fd input : keeps (arm fd input) any.
Proof. unfold arm. eapply keeps_bind; [apply keeps_slot|intros s _]. destruct (poller s input); keeps. Qed.
Lemma keeps_loop n p c fd input : (forall a, asks_nonblock (Sys c a)) -> keeps (sync_loop n p c fd input) any.
Proof.
  intros Hc. induction n as [|n IH]; [apply keeps_abort|]. cbn [sync_loop]. eapply keeps_bind; [apply keeps_wait|intros _ _].
  eapply keeps_bind; [by apply keeps_tryIO|intros r _]. destruct r; [by apply keeps_ret|].
  eapply keeps_bind; [apply keeps_setup|]. intros _ _. apply IH.
Qed.
Lemma keeps_syncIO input accept c fd : (forall a, asks_nonblock (Sys c a)) -> keeps (syncIO input accept c fd) any.
Proof.
  intros Hc. unfold syncIO. eapply keeps_bind; [destruct (_ && _); [by apply keeps_log|by apply keeps_ret]|intros _ _].
  eapply keeps_bind; [by apply keeps_tryIO|intros r _]. destruct r; [by apply keeps_ret|].
  eapply keeps_bind; [apply keeps_arm|intros p _]. eapply keeps_bind; [apply keeps_get|intros n _]. by apply keeps_loop.
Qed.
Lemma keeps_async fd : keeps (checkAsyncCompletion fd) any.
Proof. unfold checkAsyncCompletion. eapply keeps_bind; [apply keeps_getPoller|intros p _]. keeps. Qed.
Lemma keeps_epoll n p epfd args t : keeps (epoll_loop n p epfd args t) any.
Proof.
  induction n as [|n IH]; [apply keeps_abort|]. cbn [epoll_loop].
  eapply keeps_bind; [destruct t; unfold wait_until; keeps|intros b _]. destruct (negb b); [by apply keeps_ret|].
  eapply keeps_bind; [apply keeps_stat|intros _ _]. eapply keeps_bind; [by apply keeps_sys|intros a _].
  destruct (negb _); [by apply keeps_ret|]. eapply keeps_bind; [apply keeps_stat|intros _ _].
  eapply keeps_bind; [apply keeps_setup|intros _ _]. apply IH.
Qed.
#[export] Hint Resolve keeps_tryIO keeps_getPoller keeps_arm keeps_loop keeps_syncIO keeps_async keeps_epoll : keeps.

Lemma exec_keeps o : keeps (exec o) any.
Proof.
  destruct o; cbn [exec]; unfold socket, dup, pipe2, fcntl, close, bind, connect, accept4, syncInput, syncOutput, epoll_wait, nonblock.
  - keeps.
  - keeps.
  - eapply keeps_bind; [|intros r _; by apply keeps_ret]. keeps.
  - eapply keeps_bind; [apply keeps_slot|intros s ->]. keeps.
  - unfold cleanupFD. eapply keeps_bind; [|intros _ _; keeps]. eapply keeps_bind; [apply keeps_slot|intros s _].
    destruct (reset 0 (sync s false)), (reset 0 (sync s true)); try apply keeps_abort. by apply keeps_set_fd.
  - keeps.
  - keeps.
  - eapply keeps_bind; [apply keeps_slot|intros s Hs]. eapply keeps_bind.
    { destruct (blocking s); [apply keeps_syncIO; intros a; apply has_nonblock|]. eapply keeps_bind; [keeps_step|].
      intros a _. by apply keeps_ret. }
    intros r _. destruct (r <? 0); [by apply keeps_ret|]. eapply keeps_bind; [apply keeps_slot|intros s' Hs']. rewrite Hs'. keeps.
  - eapply keeps_bind; [apply keeps_slot|intros s _]. destruct (negb _); [keeps|apply keeps_syncIO; done].
  - eapply keeps_bind; [apply keeps_slot|intros s _]. destruct (negb _); [keeps|apply keeps_syncIO; done].
  - eapply keeps_bind; [apply keeps_check|intros _ _]. keeps.
Qed.


(** [fcntl] takes every command for [F_SETFL]: setting the close-on-exec flag of
    a descriptor that the application has made nonblocking turns it into a
    blocking one for the scope, and duplicating it with [F_DUPFD] asks the kernel
    for a number of at least 2048. *)
Definition F_DUPFD : Z := 0.
Definition F_SETFD : Z := 2.
Definition FD_CLOEXEC : Z := 1.
Definition demo_world (l : list answer) : world :=
  mkWorld (fun _ => mkSyncFD (fun _ => mkSem 0 (mkBQ [] (fun _ => 0))) (fun _ => None) false false) 1024 1 1 0 EventScopeStats.reset l [].

Theorem fcntl_changes_mode :
  let ok r := mkAnswer r 0 [] in
  let open_fd := socket 2 (Z.lor 1 SOCK_NONBLOCK) 0 false in
  match (open_fd ;;; fcntl 3 F_SETFD FD_CLOEXEC)%io (demo_world [ok 3; ok 0]) with
  | Done r w => r = 0 /\ blocking (fds w 3) = true
  | _ => False
  end /\
  match (open_fd ;;; fcntl 3 F_DUPFD 10)%io (demo_world [ok 3; ok 2058]) with
  | Done r w => trace w = [Sys (CSocket 2 2049 0) (ok 3); Sys (CFcntl 3 F_DUPFD 2058) (ok 2058)]
  | _ => False
  end.
Proof. split; [by split|reflexivity]. Qed.

(** A second [connect] on a socket whose first connection was refused registers
    the socket with the output poller again, which [epoll_ctl] refuses (17 is
    [EEXIST]). *)
Theorem reconnect_fails :
  let l := [mkAnswer 3 0 []; mkAnswer (-1) EINPROGRESS []; mkAnswer 0 0 []; mkAnswer 0 0 []; mkAnswer 0 0 [111];
            mkAnswer (-1) EINPROGRESS []; mkAnswer (-1) 17 []] in
  match (socket 2 1 0 false ;;; r <- connect 3 [] ;; connect 3 [])%io (demo_world l) with
  | Aborted w =>
      List.filter (fun e => match e with SetupFD _ _ _ _ _ _ => true | _ => false end) (trace w) =
        [SetupFD (OutputPoller 0) 3 Create false Oneshot true; SetupFD (OutputPoller 0) 3 Create false Oneshot false] /\
      errno w = EINPROGRESS
  | _ => False
  end.
Proof. vm_compute. split; reflexivity. Qed.

(** * Concrete runs *)

(** A read that would block twice. *)
Lemma syncIO_correct_witness :
  let c := CIO Read 3 [100] in
  let no := mkAnswer (-1) EAGAIN [] in
  let w := demo_world [no; mkAnswer 0 0 []; mkAnswer 0 0 []; no; mkAnswer 0 0 []; mkAnswer 0 0 []; mkAnswer 42 0 []] in
  match syncIO true false c 3 w with
  | Done r w' => (r = 42 /\ length (trace w') = 8%nat) /\ exists evs, did w w' evs /\ finished c 3 true [Yield] evs r
  | _ => False
  end.
Proof.
  intros c no w. pose proof (syncIO_correct true false c 3 w) as H.
  assert (R : match syncIO true false c 3 w with Done r w' => r = 42 /\ length (trace w') = 8%nat | _ => False end)
    by (vm_compute; split; reflexivity).
  destruct (syncIO true false c 3 w) as [r w'|w'|w']; [|done|done]. split; [exact R|]. apply H. split; [done|]. reflexivity.
Defined.

(** A connection that is refused. *)
Lemma connect_correct_witness :
  let w := set_fd 3 (with_flags true false (fds (demo_world []) 3))
             (demo_world [mkAnswer (-1) EINPROGRESS []; mkAnswer 0 0 []; mkAnswer 0 0 []; mkAnswer 0 0 [111]]) in
  match connect 3 [] w with
  | Done r w' => r = -1 /\ errno w' = 111 /\ (0 <= r \/ exists evs, did w w' evs)
  | _ => False
  end.
Proof.
  intros w. pose proof (connect_correct 3 [] w) as H.
  assert (R : match connect 3 [] w with Done r w' => r = -1 /\ errno w' = 111 | _ => False end)
    by (vm_compute; split; reflexivity).
  destruct (connect 3 [] w) as [r w'|w'|w']; [|done|done]. destruct R as [R1 R2]. split; [exact R1|]. split; [exact R2|]. right.
  destruct H as [(a & Hd & _)|(a & p & b & Hd & _)]; [split; [done|reflexivity]|reflexivity|..]; by eexists.
Defined.

