(* ===== verification/Pollers.v ===== *)
(** Event pollers ([src/libfibre/Poller.h], [Poller.cc]): the poller fibre of a
    cluster, which collects the events of the descriptors, and the master poller
    thread of the scope, which watches the poller fibre's own descriptor and the
    timer, as interleaved steps together with the fibres that arm a descriptor and
    sleep ([EventScope::syncIO], see [EventScopes]). *)
From S2P Require Import Prelude.

Local Open Scope Z_scope.

(** Event bits of [<sys/epoll.h>]. *)
Definition EPOLLIN : Z := 1.
Definition EPOLLPRI : Z := 2.
Definition EPOLLOUT : Z := 4.
Definition EPOLLERR : Z := 8.
Definition EPOLLHUP : Z := 16.
Definition EPOLLRDHUP : Z := 8192.

Definition bits (l : list Z) : Z := foldr Z.lor 0 l.
Definition input_bits : Z := bits [EPOLLIN; EPOLLPRI; EPOLLRDHUP; EPOLLHUP; EPOLLERR].

(** [notifyOne(ev)]: which side of the descriptor is unblocked. *)
Definition notifyOne (events : Z) : option bool :=
  if negb (Z.land events input_bits =? 0) then Some true
  else if negb (Z.land events (bits [EPOLLOUT; EPOLLERR]) =? 0) then Some false
  else None.

(** One side of a descriptor; [true]: input. *)
Definition side := (nat * bool)%type.

(** The fibre of a side: not in [syncIO], between arming and [P], asleep in [P]. *)
Inductive fpc := FIdle | FArmed | FAsleep.

(** [PollerFibre::pollLoopSetup] and [pollLoop]: registering at the master
    poller, at the loop condition, in [epoll_wait], notifying, arming at the master
    poller, before [P], asleep in [P], finished. *)
Inductive ppc :=
| PSetup
| PPoll (spin : nat)
| PPolling (spin : nat)
| PNotify (evs : list (side * Z))
| PArm | PWait | PAsleep | PDone.

(** [BaseThreadPoller::pollLoop] of the master: at the loop condition, in
    [epoll_wait], notifying (the poller fibre's descriptor, the timer), finished. *)
Inductive mpc := MPre | MPoll | MNotify (p t : bool) | MDone.

Record state := mkState {
  armed : side -> bool;          (* registered at the poller fibre and not yet reported *)
  ready : side -> bool;          (* the descriptor is ready *)
  fibre : side -> fpc;
  token : side -> bool;          (* sync[side] is open *)
  poller : ppc;
  pollTerminate : bool;
  unblocked : bool;              (* [unblockPollFD] of the destructor was called *)
  pollArmed : bool;              (* pollFD is armed at the master poller *)
  pollToken : bool;              (* sync[true] of pollFD is open *)
  master : mpc;
  masterTerminate : bool;
  timer : bool;                  (* timerFD is readable *)
  timerToken : bool;             (* sync[true] of timerFD is open *)
  expiries : nat                 (* calls of [checkExpiry] *)
}.

Section Pollers.
Context (sides : list side) (SpinMax : nat) (errors : bool).

Definition set_fibre (k : side) (c : fpc) (s : state) : state :=
  mkState (armed s) (ready s) (upd (fibre s) k c) (token s) (poller s) (pollTerminate s) (unblocked s) (pollArmed s)
    (pollToken s) (master s) (masterTerminate s) (timer s) (timerToken s) (expiries s).
Definition set_token (k : side) (b : bool) (s : state) : state :=
  mkState (armed s) (ready s) (fibre s) (upd (token s) k b) (poller s) (pollTerminate s) (unblocked s) (pollArmed s)
    (pollToken s) (master s) (masterTerminate s) (timer s) (timerToken s) (expiries s).
Definition set_armed (a : side -> bool) (s : state) : state :=
  mkState a (ready s) (fibre s) (token s) (poller s) (pollTerminate s) (unblocked s) (pollArmed s)
    (pollToken s) (master s) (masterTerminate s) (timer s) (timerToken s) (expiries s).
Definition set_ready (k : side) (b : bool) (s : state) : state :=
  mkState (armed s) (upd (ready s) k b) (fibre s) (token s) (poller s) (pollTerminate s) (unblocked s) (pollArmed s)
    (pollToken s) (master s) (masterTerminate s) (timer s) (timerToken s) (expiries s).
Definition set_poller (c : ppc) (s : state) : state :=
  mkState (armed s) (ready s) (fibre s) (token s) c (pollTerminate s) (unblocked s) (pollArmed s)
    (pollToken s) (master s) (masterTerminate s) (timer s) (timerToken s) (expiries s).
Definition set_poll (a t : bool) (s : state) : state :=
  mkState (armed s) (ready s) (fibre s) (token s) (poller s) (pollTerminate s) (unblocked s) a
    t (master s) (masterTerminate s) (timer s) (timerToken s) (expiries s).
Definition set_stop (t u : bool) (s : state) : state :=
  mkState (armed s) (ready s) (fibre s) (token s) (poller s) t u (pollArmed s)
    (pollToken s) (master s) (masterTerminate s) (timer s) (timerToken s) (expiries s).
Definition set_master (c : mpc) (s : state) : state :=
  mkState (armed s) (ready s) (fibre s) (token s) (poller s) (pollTerminate s) (unblocked s) (pollArmed s)
    (pollToken s) c (masterTerminate s) (timer s) (timerToken s) (expiries s).
Definition set_masterTerminate (s : state) : state :=
  mkState (armed s) (ready s) (fibre s) (token s) (poller s) (pollTerminate s) (unblocked s) (pollArmed s)
    (pollToken s) (master s) true (timer s) (timerToken s) (expiries s).
Definition set_timer (r t : bool) (n : nat) (s : state) : state :=
  mkState (armed s) (ready s) (fibre s) (token s) (poller s) (pollTerminate s) (unblocked s) (pollArmed s)
    (pollToken s) (master s) (masterTerminate s) r t n.

(** [eventScope.unblock<Input>(fd)]: [V] on the binary semaphore of the side. *)
Definition unblock (k : side) (s : state) : state :=
  match fibre s k with
  | FAsleep => set_fibre k FIdle s
  | _ => set_token k true s
  end.
(** The same for the poller fibre's descriptor, also [unblockPollFD]. *)
Definition unblockPollFD (s : state) : state :=
  match poller s with
  | PAsleep => set_poller (PPoll 1) s
  | _ => set_poll (pollArmed s) true s
  end.

(** What [epoll_wait] may report for a side: bits that were asked for; errors
    and hang-ups are reported even if not asked for. *)
Definition reported (k : side) (m : Z) : bool :=
  if snd k then negb (Z.land m input_bits =? 0)
  else if errors then negb (Z.land m (bits [EPOLLOUT; EPOLLERR; EPOLLHUP]) =? 0) &&
                      (Z.land m (bits [EPOLLIN; EPOLLPRI; EPOLLRDHUP]) =? 0)
  else m =? EPOLLOUT.

(** [evs] are events of [epoll_wait] in this state, at most [MaxPoll]; none may
    be reported, also after an interrupt. *)
Definition MaxPoll : nat := 256.
Definition may_report (evs : list (side * Z)) (s : state) : bool :=
  bool_decide (NoDup (map fst evs)) && bool_decide (length evs <= MaxPoll)%nat &&
  forallb (fun km => armed s (fst km) && ready s (fst km) && reported (fst km) (snd km)) evs.
(** Reporting a [EPOLLONESHOT] registration disarms it. *)
Definition disarm (evs : list (side * Z)) (a : side -> bool) : side -> bool :=
  fun k => a k && negb (bool_decide (k ∈ map fst evs)).

(** The poller fibre's descriptor is readable: an event is pending there. *)
Definition pollReady (s : state) : bool := existsb (fun k => armed s k && ready s k) sides.

Inductive label :=
| Arm (k : side)                 (* [setupFD] of a fibre in [syncIO] *)
| Sleep (k : side)               (* its [sync.P()] *)
| Ready (k : side) (b : bool)    (* the descriptor becomes ready or not *)
| Report (evs : list (side * Z)) (* [doPoll<false>] of the poller fibre returns *)
| Poller                         (* the poller fibre's next step *)
| MasterReport (p t : bool)      (* [doPoll<true>] of the master poller returns *)
| Master                         (* the master poller's next step *)
| TimerExpires
| Terminate                      (* [~PollerFibre]: pollTerminate = true *)
| Unblock                        (* [~PollerFibre]: unblockPollFD *)
| MasterTerminate.               (* [BaseThreadPoller::terminate] *)

Definition pstep (s : state) : option state :=
  match poller s with
  | PSetup => Some (set_poller (PPoll 1) (set_poll true (pollToken s) s))
  | PPoll spin => Some (set_poller (if pollTerminate s then PDone else PPolling spin) s)
  | PNotify ((k, m) :: evs) =>
      let s' := set_poller (PNotify evs) s in
      Some (match notifyOne m with
            | Some input => unblock (fst k, input) s'
            | None => s'
            end)
  | PNotify [] => Some (set_poller (PPoll 1) s)
  | PArm => Some (set_poller PWait (set_poll true (pollToken s) s))
  | PWait => Some (if pollToken s then set_poller (PPoll 1) (set_poll (pollArmed s) false s) else set_poller PAsleep s)
  | _ => None
  end.

(** [prePoll]: serve the timer. *)
Definition prePoll (s : state) : state :=
  if timerToken s then set_timer false false (if timer s then S (expiries s) else expiries s) s else s.

Definition mstep (s : state) : option state :=
  match master s with
  | MPre => Some (if masterTerminate s then set_master MDone s else set_master MPoll (prePoll s))
  | MNotify true t => Some (unblockPollFD (set_master (MNotify false t) s))
  | MNotify false true => Some (set_master (MNotify false false) (set_timer (timer s) true (expiries s) s))
  | MNotify false false => Some (set_master MPre s)
  | _ => None
  end.

Definition step (l : label) (s : state) : option state :=
  match l with
  | Arm k =>
      match fibre s k with
      | FIdle => if bool_decide (k ∈ sides) then Some (set_fibre k FArmed (set_armed (upd (armed s) k true) s)) else None
      | _ => None
      end
  | Sleep k =>
      match fibre s k with
      | FArmed => Some (if token s k then set_fibre k FIdle (set_token k false s) else set_fibre k FAsleep s)
      | _ => None
      end
  | Ready k b => Some (set_ready k b s)
  | Report evs =>
      match poller s with
      | PPolling spin =>
          if may_report evs s then
            Some (set_poller (match evs with
                              | [] => if (SpinMax <=? spin)%nat then PArm else PPoll (S spin)
                              | _ => PNotify evs
                              end) (set_armed (disarm evs (armed s)) s))
          else None
      | _ => None
      end
  | Poller => pstep s
  | MasterReport p t =>
      match master s with
      | MPoll =>
          if implb p (pollArmed s && pollReady s) && implb t (timer s) then
            Some (set_master (MNotify p t) (set_poll (pollArmed s && negb p) (pollToken s) s))
          else None
      | _ => None
      end
  | Master => mstep s
  | TimerExpires => Some (set_timer true (timerToken s) (expiries s) s)
  | Terminate => Some (set_stop true (unblocked s) s)
  | Unblock => if pollTerminate s && negb (unblocked s) then Some (unblockPollFD (set_stop true true s)) else None
  | MasterTerminate => Some (set_masterTerminate s)
  end.

Definition init (s : state) : Prop :=
  (forall k, armed s k = false /\ fibre s k = FIdle /\ token s k = false) /\
  poller s = PSetup /\ pollTerminate s = false /\ unblocked s = false /\ pollArmed s = false /\ pollToken s = false /\
  master s = MPre /\ masterTerminate s = false /\ timer s = false /\ timerToken s = false /\ expiries s = 0%nat.
End Pollers.

(** * No event is lost *)
Section Correct.
Context (sides : list side) (SpinMax : nat).
Implicit Types (s : state) (k : side).

(** The poller fibre is about to notify the side; the master poller is about to
    notify the poller fibre. *)
Definition in_flight k (p : ppc) : Prop := exists evs m, p = PNotify evs /\ (k, m) ∈ evs.
Definition master_notifies (m : mpc) : Prop := exists t, m = MNotify true t.

Record pollers_inv s : Prop := mkInv {
  i_asleep k : fibre s k = FAsleep -> token s k = false /\ (armed s k = true \/ in_flight k (poller s));
  i_armed k : fibre s k = FArmed -> armed s k = true \/ in_flight k (poller s) \/ token s k = true;
  i_sides k : armed s k = true -> k ∈ sides;
  i_events evs : poller s = PNotify evs -> Forall (fun km => notifyOne (snd km) = Some (snd (fst km))) evs;
  i_wait : poller s = PWait -> pollArmed s = true \/ master_notifies (master s) \/ pollToken s = true;
  i_sleep : poller s = PAsleep -> pollToken s = false /\ (pollArmed s = true \/ master_notifies (master s));
  i_stop : unblocked s = true -> pollTerminate s = true /\
    match poller s with
    | PAsleep => False
    | PPolling _ | PArm | PWait => pollToken s = true
    | _ => True
    end;
  i_done : poller s = PDone -> pollTerminate s = true
}.

Lemma reported_side k m : reported false k m = true -> notifyOne m = Some (snd k).
Proof.
  unfold reported, notifyOne. destruct (snd k); [by intros ->|]. intros H. bool_prop. by subst m.
Qed.

Lemma disarm_other evs a k : disarm evs a k = true <-> a k = true /\ k ∉ map fst evs.
Proof.
  unfold disarm. destruct (a k); [|by split; [|intros []]]. destruct (decide (k ∈ map fst evs)) as [H|H].
  - rewrite bool_decide_eq_true_2 by done. by split; [|intros []].
  - rewrite bool_decide_eq_false_2 by done. by split.
Qed.

Lemma in_flight_reported evs k : k ∈ map fst evs -> in_flight k (PNotify evs).
Proof. intros ([k' m] & -> & H)%list_elem_of_fmap_1. by exists evs, m. Qed.

Lemma not_in_flight p k : (forall evs, p <> PNotify evs) -> ~ in_flight k p.
Proof. intros H (evs & m & -> & _). by apply (H evs). Qed.

Lemma in_flight_tail k k' m evs : in_flight k' (PNotify ((k, m) :: evs)) -> k' = k \/ in_flight k' (PNotify evs).
Proof.
  intros (evs' & m' & [= <-] & [[= -> ->]|H]%elem_of_cons); [by left|right]. by exists evs, m'.
Qed.

(** The next event is notified. *)
Lemma unblock_inv k m evs s :
  pollers_inv s -> poller s = PNotify ((k, m) :: evs) -> pollers_inv (unblock k (set_poller (PNotify evs) s)).
Proof.
  intros [H1 H2 H3 H4 H5 H6 H7 H8] Hp. rewrite Hp in *. specialize (H4 _ eq_refl). apply Forall_cons in H4 as [_ H4].
  unfold unblock. cbn [fibre set_poller]. destruct (fibre s k) eqn:Hk; split; cbn; try done; try (by intros ? [= <-]).
  - intros k' Ha. at_fred k k'; [by rewrite Ha in Hk|]. destruct (H1 k' Ha) as [? [?|[->|?]%in_flight_tail]]; auto; done.
  - intros k' Ha. at_fred k k'; [by right; right|]. destruct (H2 k' Ha) as [?|[[->|?]%in_flight_tail|?]]; auto; done.
  - intros k' Ha. at_fred k k'; [by rewrite Ha in Hk|]. destruct (H1 k' Ha) as [? [?|[->|?]%in_flight_tail]]; auto; done.
  - intros k' Ha. at_fred k k'; [by right; right|]. destruct (H2 k' Ha) as [?|[[->|?]%in_flight_tail|?]]; auto; done.
  - intros k' Ha. at_fred k k'; [done|]. destruct (H1 k' Ha) as [? [?|[->|?]%in_flight_tail]]; auto; done.
  - intros k' Ha. at_fred k k'; [done|]. destruct (H2 k' Ha) as [?|[[->|?]%in_flight_tail|?]]; auto; done.
Qed.

(** The poller fibre moves, and no event was pending or is dropped. *)
Lemma move_inv p a t s :
  pollers_inv s -> (forall k, ~ in_flight k (poller s)) -> (forall evs, p <> PNotify evs) ->
  (p = PWait -> a = true \/ master_notifies (master s) \/ t = true) ->
  (p = PAsleep -> t = false /\ (a = true \/ master_notifies (master s))) ->
  (unblocked s = true -> match p with PAsleep => False | PPolling _ | PArm | PWait => t = true | _ => True end) ->
  (p = PDone -> pollTerminate s = true) -> pollers_inv (set_poller p (set_poll a t s)).
Proof.
  intros [H1 H2 H3 H4 H5 H6 H7 H8] Hn Hp Hw Hs Hu Hd. split; cbn; try done.
  - intros k Ha. destruct (H1 k Ha) as [? [?|?%Hn]]; auto; done.
  - intros k Ha. destruct (H2 k Ha) as [?|[?%Hn|?]]; auto; done.
  - intros evs ->. by destruct (Hp evs).
  - intros Hun. split; [by apply H7|by apply Hu].
Qed.

Lemma set_poll_same s p : set_poller p s = set_poller p (set_poll (pollArmed s) (pollToken s) s).
Proof. by destruct s. Qed.

(** The poller fibre is woken, or finds the token. *)
Lemma unblockPollFD_inv t u c s :
  pollers_inv s -> (u = true -> t = true) -> (pollTerminate s = true -> t = true) ->
  pollers_inv (unblockPollFD (set_stop t u (set_master c s))).
Proof.
  intros [H1 H2 H3 H4 H5 H6 H7 H8] Hu Ht. unfold unblockPollFD. cbn [poller set_stop set_master].
  destruct (poller s) eqn:Hp; split; cbn; rewrite ?Hp in *; try done; try (by right; right); try (intros Hun; split; [by auto|done]); auto.
  - intros k Ha. destruct (H1 k Ha) as [? [?|(? & ? & ? & _)]]; auto; done.
  - intros k Ha. destruct (H2 k Ha) as [?|[(? & ? & ? & _)|?]]; auto; done.
Qed.

Lemma set_master_same s : s = set_stop (pollTerminate s) (unblocked s) (set_master (master s) s).
Proof. by destruct s. Qed.

(** The master poller moves without giving up a notification. *)
Lemma set_master_inv c s :
  pollers_inv s -> (master_notifies (master s) -> master_notifies c) -> pollers_inv (set_master c s).
Proof.
  intros [H1 H2 H3 H4 H5 H6 H7 H8] Hc. split; cbn; try done.
  - intros Hp. destruct (H5 Hp) as [|[?%Hc|]]; auto.
  - intros Hp. destruct (H6 Hp) as [? [|?%Hc]]; auto.
Qed.

Lemma set_timer_inv r t n s : pollers_inv s -> pollers_inv (set_timer r t n s).
Proof. intros [H1 H2 H3 H4 H5 H6 H7 H8]. by split. Qed.

(** Events are reported to the poller fibre. *)
Lemma report_inv evs spin s :
  pollers_inv s -> poller s = PPolling spin -> may_report false evs s = true ->
  pollers_inv (set_poller (match evs with
                           | [] => if (SpinMax <=? spin)%nat then PArm else PPoll (S spin)
                           | _ => PNotify evs
                           end) (set_armed (disarm evs (armed s)) s)).
Proof.
  intros [H1 H2 H3 H4 H5 H6 H7 H8] Hp Hr. unfold may_report in Hr. bool_prop. set (p := match evs with [] => _ | _ => _ end).
  assert (Hin : forall k, k ∈ map fst evs -> in_flight k p).
  { intros k Hk. destruct evs; [by apply elem_of_nil in Hk|]. by apply in_flight_reported. }
  assert (Ha : forall k, armed s k = true -> disarm evs (armed s) k = true \/ in_flight k p).
  { intros k Hk. destruct (decide (k ∈ map fst evs)) as [?%Hin|]; [by right|left]. by apply disarm_other. }
  assert (Hno : forall k, ~ in_flight k (poller s)) by (intros k; rewrite Hp; by apply not_in_flight).
  assert (Hpn : p = PNotify evs \/ p = PArm \/ exists n, p = PPoll n).
  { subst p. destruct evs; [|by left]. destruct (_ <=? _)%nat; eauto. }
  split; cbn; fold p; try done.
  - intros k Hk. destruct (H1 k Hk) as [? [?%Ha|?%Hno]]; done.
  - intros k Hk. destruct (H2 k Hk) as [[?|?]%Ha|[?%Hno|?]]; auto; done.
  - intros k [Hk _]%disarm_other. by apply H3.
  - intros evs' Hevs. destruct Hpn as [E|[E|[n E]]]; rewrite E in Hevs; simplify_eq.
    rewrite forallb_forall in *. apply Forall_forall. intros [k m] Hk. apply list_elem_of_In in Hk.
    match goal with H : forall x, In x _ -> _ |- _ => specialize (H _ Hk) end. bool_prop. by apply reported_side.
  - intros E. destruct Hpn as [E'|[E'|[n E']]]; congruence.
  - intros E. destruct Hpn as [E'|[E'|[n E']]]; congruence.
  - intros Hu. destruct (H7 Hu) as [? Ht]. rewrite Hp in Ht. split; [done|]. by destruct Hpn as [->|[->|[n ->]]].
  - intros E. destruct Hpn as [E'|[E'|[n E']]]; congruence.
Qed.

Lemma pstep_inv s s' : pollers_inv s -> pstep s = Some s' -> pollers_inv s'.
Proof.
  intros Hi Hs. unfold pstep in Hs.
  assert (Hno : (forall evs, poller s <> PNotify evs) -> forall k, ~ in_flight k (poller s)) by (intros H k; by apply not_in_flight).
  destruct (poller s) as [|spin|spin|[|[k m] evs]| | | |] eqn:Hp; simplify_eq.
  - apply move_inv; rewrite ?Hp; try done. by apply Hno.
  - rewrite set_poll_same. destruct (pollTerminate s) eqn:Ht; apply move_inv; rewrite ?Hp; try done; try by apply Hno.
    intros Hu. destruct (i_stop _ Hi Hu) as [Ht' _]. congruence.
  - rewrite set_poll_same. apply move_inv; rewrite ?Hp; try done. intros k (evs & m & [= <-] & ?%elem_of_nil). done.
  - pose proof (i_events _ Hi _ Hp) as He. apply Forall_cons in He as [He _]. cbn in He. rewrite He.
    rewrite <- surjective_pairing. by eapply unblock_inv.
  - apply move_inv; rewrite ?Hp; try done; [by apply Hno|by left|]. intros Hu. destruct (i_stop _ Hi Hu) as [_ Ht]. by rewrite Hp in Ht.
  - pose proof (i_wait _ Hi Hp) as Hw. destruct (pollToken s) eqn:Ht.
    + apply move_inv; rewrite ?Hp; try done. by apply Hno.
    + rewrite set_poll_same. apply move_inv; rewrite ?Hp; try done; [by apply Hno|intros _; split; [done|]; by destruct Hw as [|[|]]; auto|].
      intros Hu. destruct (i_stop _ Hi Hu) as [_ Ht']. rewrite Hp in Ht'. congruence.
Qed.

Lemma fibre_inv k l s s' :
  pollers_inv s -> (l = Arm k \/ l = Sleep k) -> step sides SpinMax false l s = Some s' -> pollers_inv s'.
Proof.
  intros [H1 H2 H3 H4 H5 H6 H7 H8] [-> | ->] Hs; cbn [step] in Hs; destruct (fibre s k) eqn:Hk; try done.
  - case_bool_decide as Hin; [|done]. simplify_eq. split; cbn; try done.
    + intros k' Ha. at_fred k k'; [done|by apply H1].
    + intros k' Ha. at_fred k k'; [by left|by apply H2].
    + intros k' Ha. at_fred k k'; [done|by apply H3].
  - destruct (token s k) eqn:Ht; simplify_eq; split; cbn; try done.
    + intros k' Ha. at_fred k k'; [done|by apply H1].
    + intros k' Ha. at_fred k k'; [done|by apply H2].
    + intros k' Ha. at_fred k k'; [|by apply H1]. destruct (H2 _ Hk) as [?|[?|?]]; [auto|auto|congruence].
    + intros k' Ha. at_fred k k'; [done|by apply H2].
Qed.

Lemma master_inv l s s' :
  pollers_inv s -> (l = Master \/ exists p t, l = MasterReport p t) -> step sides SpinMax false l s = Some s' -> pollers_inv s'.
Proof.
  intros Hi [->|(p & t & ->)] Hs; cbn [step] in Hs.
  - unfold mstep in Hs. destruct (master s) as [| |[] t|] eqn:Hm; simplify_eq.
    + assert (Hn : ~ master_notifies (master s)) by (rewrite Hm; by intros [? ?]).
      destruct (masterTerminate s); [by apply set_master_inv|]. unfold prePoll.
      destruct (timerToken s); [|by apply set_master_inv]. apply set_master_inv; [by apply set_timer_inv|by intros ?%Hn].
    + change (set_master (MNotify false t) s) with (set_stop (pollTerminate s) (unblocked s) (set_master (MNotify false t) s)).
      apply unblockPollFD_inv; [done| |done]. intros Hu. by apply (i_stop _ Hi).
    + destruct t; simplify_eq; apply set_master_inv; try done; try by apply set_timer_inv.
      all: cbn; rewrite ?Hm; by intros [? ?].
  - destruct (master s) eqn:Hm; try done. destruct (implb _ _ && _) eqn:E; [|done]. bool_prop. simplify_eq.
    destruct Hi as [H1 H2 H3 H4 H5 H6 H7 H8].
    assert (Hc : pollArmed s = true \/ master_notifies (master s) ->
                 pollArmed s && negb p = true \/ master_notifies (MNotify p t)).
    { rewrite Hm. intros [->|[? ?]]; [|done]. destruct p; [right; by exists t|by left]. }
    split; cbn; try done.
    + intros Hp. destruct (H5 Hp) as [|[|]]; [| |auto]; destruct Hc; auto.
    + intros Hp. destruct (H6 Hp) as [? ?%Hc]. done.
Qed.

Lemma pollers_step_inv l s s' : pollers_inv s -> step sides SpinMax false l s = Some s' -> pollers_inv s'.
Proof.
  intros Hi Hs. assert (Hf : forall k, l = Arm k \/ l = Sleep k -> pollers_inv s') by (intros k Hk; by apply (fibre_inv k l s)).
  assert (Hm : (l = Master \/ exists p t, l = MasterReport p t) -> pollers_inv s') by (intros Hl; by apply (master_inv l s)).
  destruct l as [k|k|k b|evs| |p t| | | | |];
    [apply (Hf k); auto|apply (Hf k); auto| | | |apply Hm; eauto|apply Hm; auto|..]; clear Hf Hm; cbn [step] in Hs.
  - simplify_eq. destruct Hi as [H1 H2 H3 H4 H5 H6 H7 H8]. by split.
  - destruct (poller s) eqn:Hp; try done. destruct (may_report _ _ _) eqn:Hr; [|done]. simplify_eq. by apply report_inv.
  - by eapply pstep_inv.
  - simplify_eq. by apply set_timer_inv.
  - simplify_eq. destruct Hi as [H1 H2 H3 H4 H5 H6 H7 H8]. split; cbn; try done. intros Hu. split; [done|]. by apply H7.
  - destruct (_ && _) eqn:E; [|done]. bool_prop. simplify_eq.
    rewrite (set_master_same s) at 1. change (set_stop true true (set_stop ?a ?b ?x)) with (set_stop true true x).
    by apply unblockPollFD_inv.
  - simplify_eq. destruct Hi as [H1 H2 H3 H4 H5 H6 H7 H8]. by split.
Qed.

Lemma pollers_init s : init s -> pollers_inv s.
Proof.
  intros (Hk & Hp & H1 & H2 & H3 & H4 & H5 & _). split; rewrite ?Hp, ?H2; try done; intros k Hf; destruct (Hk k) as (? & ? & ?); congruence.
Qed.

End Correct.

(** * Runs *)
Definition demo_state : state :=
  mkState (fun _ => false) (fun _ => false) (fun _ => FIdle) (fun _ => false) PSetup false false false false MPre false false false 0.

Lemma demo_state_init : init demo_state.
Proof. by repeat split. Qed.

(** The poller fibre goes to sleep, a fibre sleeps on the input side of descriptor
    3, data arrives, and the master poller, the poller fibre and the fibre are
    woken one after the other. *)
Definition asleep_run : list label :=
  [Poller; Poller; Report []; Poller; Poller; Arm (3%nat, true); Sleep (3%nat, true); Ready (3%nat, true) true].
Definition wake_run : list label :=
  [Master; MasterReport true false; Master; Poller; Report [((3%nat, true), EPOLLIN)]; Poller].


Definition error_run : list label :=
  [Poller; Poller; Arm (3%nat, false); Sleep (3%nat, false); Ready (3%nat, false) true;
   Report [((3%nat, false), bits [EPOLLOUT; EPOLLERR; EPOLLHUP])]; Poller; Poller].

(** An error or hang-up on a descriptor that was registered for output, as for a
    refused connection, is reported as [EPOLLOUT | EPOLLERR | EPOLLHUP]:
    [notifyOne] unblocks only the input side, and the fibre that waits for output
    sleeps on a descriptor that nobody will report any more. *)
Theorem output_error_lost :
  let sides := [(3%nat, true); (3%nat, false)] in
  let s := after (step sides 1 true) demo_state error_run in
  reachable init (step sides 1 true) s /\
  fibre s (3%nat, false) = FAsleep /\ ready s (3%nat, false) = true /\
  armed s (3%nat, false) = false /\ token s (3%nat, false) = false /\ poller s = PPoll 1 /\
  token s (3%nat, true) = true.
Proof. split; [apply run_reaches; [exact demo_state_init|reflexivity]|repeat split]. Qed.
