(* ===== verification/Urings.v ===== *)
(** The I/O ring of a worker, [src/libfibre/IOUring.h], in the configuration with
    [TESTING_WORKER_IO_URING]: fibres submit requests and are resumed with the
    results, and an idle worker waits for completions, among them the read of
    [haltFD] by which it is woken ([HaltSemaphore] in [src/runtime]).  The ring is
    used by its own worker only; the kernel and the waking processors move in
    between. *)
From S2P Require Import Prelude HaltSemaphores.
Local Open Scope Z_scope.

Definition BatchSize : Z := 64.
Definition NumEntries : nat := 4096.

(** A fibre; its [Block] is on its stack during [syncIO], so the fibre names it. *)
Definition fid := nat.
(** The user data of a request: a [Block], or [nullptr] for the read of [haltFD]. *)
Local Notation data := (option fid).

(** * State *)

(** Who called [submit]. *)
Inductive caller := ForSync (f : fid) | ForHalt | ForInit.
Definition data_of (c : caller) : data := match c with ForSync f => Some f | _ => None end.
(** The instances of [internalPoll], with the place to return to: [Poll] is
    called by [poll], [Try i] by the [i]-th [trySuspend] of [BaseProcessor::halt],
    [Suspend] by [suspend], [Check] in one of the two loops of [submit]. *)
Inductive PollType := Poll | Try (i : nat) | Suspend | CheckGet (c : caller) | CheckFlush (c : caller).
Definition is_check (p : PollType) : bool := match p with CheckGet _ | CheckFlush _ => true | _ => false end.

(** Where the worker is: outside of the ring, in the first or second loop of
    [submit], at the start of [internalPoll], before [io_uring_wait_cqe], before
    [io_uring_peek_batch_cqe] (with the local [resume]). *)
Inductive upc := Run | Get (c : caller) | Flush (c : caller) | Submit (p : PollType) | WaitCQE | Peek (p : PollType) (resume : Z).

(** A fibre outside of [syncIO], or in it: whether it has come to [suspend], and
    the [retcode] once it is resumed. *)
Inductive fpc := Away | InIO (suspended : bool) (retcode : option Z).

Record state := mkState {
  sqes : list data;          (* prepared, not submitted *)
  sqe_count : Z;
  kernel : list data;        (* submitted, not completed *)
  cq : list (data * Z);      (* completed: data and res *)
  haltFD : Z;                (* the counter of the event file descriptor *)
  count : Z;                 (* where the read of haltFD stores it *)
  pc : upc;
  listed : bool;             (* the worker is among the waiting processors *)
  fib : fid -> fpc;
  given : fid -> list Z;     (* results of the kernel (ghost) *)
  got : fid -> list Z;       (* results of syncIO (ghost) *)
  aborted : bool
}.
Definition with_pc (p : upc) (s : state) : state :=
  mkState (sqes s) (sqe_count s) (kernel s) (cq s) (haltFD s) (count s) p (listed s) (fib s) (given s) (got s) (aborted s).
Definition with_cq (l : list (data * Z)) (s : state) : state :=
  mkState (sqes s) (sqe_count s) (kernel s) l (haltFD s) (count s) (pc s) (listed s) (fib s) (given s) (got s) (aborted s).
Definition with_fib (f : fid) (x : fpc) (s : state) : state :=
  mkState (sqes s) (sqe_count s) (kernel s) (cq s) (haltFD s) (count s) (pc s) (listed s)
    (fun g => if decide (g = f) then x else fib s g) (given s) (got s) (aborted s).
Definition with_listed (b : bool) (s : state) : state :=
  mkState (sqes s) (sqe_count s) (kernel s) (cq s) (haltFD s) (count s) (pc s) b (fib s) (given s) (got s) (aborted s).
Definition abort (s : state) : state :=
  mkState (sqes s) (sqe_count s) (kernel s) (cq s) (haltFD s) (count s) (pc s) (listed s) (fib s) (given s) (got s) true.
Definition assert (b : bool) (s : state) : state := if b then s else abort s.

(** * The code *)

(** [processCQE]: a block that nobody waits for is a wild access. *)
Definition processCQE (x : data * Z) (resume : Z) (s : state) : Z * state :=
  match fst x with
  | Some f =>
      match fib s f with
      | InIO b None => (resume, with_fib f (InIO b (Some (snd x))) s)
      | _ => (resume, abort s)
      end
  | None => (resume + 1, assert (resume =? 0) s)
  end.
Fixpoint process_all (l : list (data * Z)) (resume : Z) (s : state) : Z * state :=
  match l with
  | [] => (resume, s)
  | x :: l => let '(resume, s) := processCQE x resume s in process_all l resume s
  end.

(** [io_uring_submit]: an error, or a number of requests that are handed over;
    there is no other answer when there are requests. *)
Definition submitRing (answer : option nat) (s : state) : option (bool * state) :=
  match answer with
  | None => Some (false, s)
  | Some n =>
      if (length (sqes s) =? 0)%nat then Some (true, abort s)
      else if (1 <=? n)%nat && (n <=? length (sqes s))%nat then
        Some (true, mkState (drop n (sqes s)) (sqe_count s - Z.of_nat n) (kernel s ++ take n (sqes s)) (cq s) (haltFD s) (count s)
                      (pc s) (listed s) (fib s) (given s) (got s) (aborted s))
      else None
  end.

(** What the caller of [submit] does next: the fibre suspends, or [halt] returns. *)
Definition submitted (c : caller) (s : state) : state :=
  match c with
  | ForSync f => with_pc Run (with_fib f (match fib s f with InIO _ m => InIO true m | Away => Away end) s)
  | _ => with_pc Run s
  end.
Definition prepare (c : caller) (s : state) : state :=
  mkState (sqes s ++ [data_of c]) (sqe_count s + 1) (kernel s) (cq s) (haltFD s) (count s) (pc s) (listed s) (fib s) (given s) (got s) (aborted s).
Definition submit_get (c : caller) (answer : option nat) (s : state) : option state :=
  if (length (sqes s) <? NumEntries)%nat then
    let s := prepare c s in
    Some (if sqe_count s <? BatchSize then submitted c s else with_pc (Flush c) s)
  else
    r ← submitRing answer s;
    Some (let '(ok, s) := r in if ok : bool then s else with_pc (Submit (CheckGet c)) s).
Definition submit_flush (c : caller) (answer : option nat) (s : state) : option state :=
  r ← submitRing answer s;
  Some (let '(ok, s) := r in if ok : bool then submitted c s else with_pc (Submit (CheckFlush c)) s).

(** [internalPoll], up to the first wait or look at the completions. *)
Definition poll_submit (p : PollType) (answer : option nat) (s : state) : option state :=
  s ← (if negb (is_check p) && (0 <? sqe_count s) then r ← submitRing answer s; Some (snd r) else Some s);
  Some (with_pc (match p with Suspend => WaitCQE | _ => Peek p 0 end) s).
Definition poll_wait (s : state) : option state :=
  match cq s with
  | [] => None
  | x :: l => let '(resume, s) := processCQE x 0 s in Some (with_pc (Peek Suspend resume) (with_cq l s))
  end.
(** [internalPoll] returns; [trySuspend] and [suspend] start the next read of
    [haltFD] when they have seen the last. *)
Definition poll_return (p : PollType) (resume : Z) (s : state) : state :=
  let rearm s := with_pc (Get ForHalt) (assert (count s =? 1) s) in
  match p with
  | Poll => with_pc Run s
  | CheckGet c => with_pc (Get c) s
  | CheckFlush c => with_pc (Flush c) s
  | Try i => if resume =? 0 then with_pc (Submit (if (S i <? HaltSpinMax)%nat then Try (S i) else Suspend)) s else rearm s
  | Suspend => if resume =? 0 then with_pc (Submit Suspend) s else rearm s
  end.
Definition poll_peek (p : PollType) (resume : Z) (k : nat) (s : state) : option state :=
  if (k <=? length (cq s))%nat && (k <=? NumEntries)%nat then
    let '(resume, s') := process_all (take k (cq s)) resume s in
    Some (poll_return p resume (with_cq (drop k (cq s)) s'))
  else None.

(** * Steps *)
Inductive label :=
| SyncIO (f : fid) | CallPoll | Halt     (* the worker calls syncIO, poll, IdleManager::block *)
| Move (answer : option nat)             (* the worker, with the answer of io_uring_submit *)
| Process (k : nat)                      (* the worker processes k completions *)
| Wake                                   (* another processor: IdleManager::unblock, resume *)
| Complete (i : nat) (res : Z)           (* the kernel completes its request i *)
| Return (f : fid).                      (* a resumed fibre returns from syncIO *)

Definition complete (i : nat) (res : Z) (s : state) : option state :=
  d ← kernel s !! i;
  match d with
  | Some f => Some (mkState (sqes s) (sqe_count s) (delete i (kernel s)) (cq s ++ [(Some f, res)]) (haltFD s) (count s) (pc s)
                      (listed s) (fib s) (fun g => if decide (g = f) then given s g ++ [res] else given s g) (got s) (aborted s))
  | None =>
      if 0 <? haltFD s then
        Some (mkState (sqes s) (sqe_count s) (delete i (kernel s)) (cq s ++ [(None, 8)]) 0 (haltFD s) (pc s)
                (listed s) (fib s) (given s) (got s) (aborted s))
      else None
  end.
Definition resume (s : state) : state :=
  mkState (sqes s) (sqe_count s) (kernel s) (cq s) (haltFD s + 1) (count s) (pc s) (listed s) (fib s) (given s) (got s) (aborted s).
Definition return_ (f : fid) (s : state) : option state :=
  match fib s f with
  | InIO true (Some r) =>
      Some (mkState (sqes s) (sqe_count s) (kernel s) (cq s) (haltFD s) (count s) (pc s) (listed s)
              (fun g => if decide (g = f) then Away else fib s g) (given s)
              (fun g => if decide (g = f) then got s g ++ [r] else got s g) (aborted s))
  | _ => None
  end.

Definition step (l : label) (s : state) : option state :=
  match l, pc s with
  | SyncIO f, Run => match fib s f with Away => Some (with_pc (Get (ForSync f)) (with_fib f (InIO false None) s)) | _ => None end
  | CallPoll, Run => Some (with_pc (Submit Poll) s)
  | Halt, Run => Some (with_pc (Submit (Try 0)) (with_listed true s))
  | Move a, Get c => submit_get c a s
  | Move a, Flush c => submit_flush c a s
  | Move a, Submit p => poll_submit p a s
  | Process 1, WaitCQE => poll_wait s
  | Process k, Peek p r => poll_peek p r k s
  | Wake, _ => if listed s then Some (resume (with_listed false s)) else None
  | Complete i res, _ => complete i res s
  | Return f, _ => return_ f s
  | _, _ => None
  end.

Definition start : state := mkState [] 0 [] [] 0 0 (Get ForInit) false (fun _ => Away) (fun _ => []) (fun _ => []) false.
Definition init (s : state) : Prop := s = start.

(** * The invariant *)

(** Occurrences of a request. *)
Fixpoint occ (x : data) (l : list data) : Z := match l with [] => 0 | y :: l => (if decide (y = x) then 1 else 0) + occ x l end.
Lemma occ_app x l1 l2 : occ x (l1 ++ l2) = occ x l1 + occ x l2.
Proof. induction l1 as [|y l1 IH]; cbn; [done|]. lia. Qed.
Lemma occ_nonneg x l : 0 <= occ x l.
Proof. induction l as [|y l IH]; cbn; [lia|]. destruct (decide (y = x)); lia. Qed.
Lemma occ_split x n l : occ x l = occ x (take n l) + occ x (drop n l).
Proof. by rewrite <- occ_app, take_drop. Qed.
Lemma occ_delete x i l y : l !! i = Some y -> occ x l = (if decide (y = x) then 1 else 0) + occ x (delete i l).
Proof.
  intros H. rewrite delete_take_drop, occ_app. rewrite <- (take_drop_middle l i y H) at 1. rewrite occ_app. cbn. lia.
Qed.
Lemma occ_in x l : 0 < occ x l -> exists i, l !! i = Some x.
Proof.
  induction l as [|y l IH]; cbn; [lia|]. destruct (decide (y = x)) as [->|]; [by exists 0%nat|]. intros H. destruct IH as [i Hi]; [lia|]. by exists (S i).
Qed.

Definition preparing (p : upc) : list data := match p with Get c => [data_of c] | _ => [] end.
Definition places (s : state) : list data := preparing (pc s) ++ sqes s ++ kernel s ++ map fst (cq s).
Definition pending (x : fpc) : bool := match x with InIO _ None => true | _ => false end.
Definition message (x : fpc) : list Z := match x with InIO _ (Some r) => [r] | _ => [] end.
Definition halting (p : upc) : bool :=
  match p with Submit (Try _ | Suspend) | WaitCQE | Peek (Try _ | Suspend) _ => true | _ => false end.
(** The wake-up that the current call of [internalPoll] has seen. *)
Definition seen (p : upc) : Z := match p with Peek _ r => r | _ => 0 end.
Definition flushing (p : upc) : bool := match p with Flush _ | Submit (CheckFlush _) | Peek (CheckFlush _) _ => true | _ => false end.
Definition results_for (f : fid) (l : list (data * Z)) : list Z := map snd (filter (fun x => fst x = Some f) l).
(** The calls of [submit] in progress. *)
Definition caller_of (p : upc) : option caller :=
  match p with Get c | Flush c | Submit (CheckGet c | CheckFlush c) | Peek (CheckGet c | CheckFlush c) _ => Some c | _ => None end.
Definition not_full (p : upc) : Prop := match p with Submit (CheckGet _) | Peek (CheckGet _) _ => False | _ => True end.

Record inv (s : state) : Prop := mkInv {
  i_ok : aborted s = false;
  i_count : sqe_count s = Z.of_nat (length (sqes s));
  i_batch : if flushing (pc s) then sqe_count s = BatchSize else sqe_count s < BatchSize;
  i_occ : forall f, occ (Some f) (places s) = if pending (fib s f) then 1 else 0;
  i_read : occ None (places s) + seen (pc s) = 1;
  i_token : haltFD s + occ None (map fst (cq s)) + seen (pc s) = if halting (pc s) && negb (listed s) then 1 else 0;
  i_fd : 0 <= haltFD s /\ 0 <= seen (pc s);
  i_listed : listed s = true -> halting (pc s) = true;
  i_value : haltFD s = 0 -> halting (pc s) && negb (listed s) = true -> count s = 1;
  i_results : forall f, given s f = got s f ++ message (fib s f) ++ results_for f (cq s);
  i_caller : forall f, caller_of (pc s) = Some (ForSync f) -> exists m, fib s f = InIO false m;
  i_full : not_full (pc s)
}.

Lemma uring_init_inv s : init s -> inv s.
Proof. intros ->. by constructor. Qed.

(** ** Completions *)
Lemma processCQE_frame x r p l s :
  processCQE x r (with_pc p (with_cq l s)) = (fst (processCQE x r s), with_pc p (with_cq l (snd (processCQE x r s)))).
Proof. unfold processCQE. cbn. destruct (fst x) as [f|]; [by destruct (fib s f) as [|? [?|]]|]. by destruct (r =? 0). Qed.
Lemma process_all_frame l : forall r p c s,
  process_all l r (with_pc p (with_cq c s)) = (fst (process_all l r s), with_pc p (with_cq c (snd (process_all l r s)))).
Proof.
  induction l as [|x l IH]; intros r p c s; [done|]. cbn. rewrite processCQE_frame.
  destruct (processCQE x r s) as [r' s']. apply IH.
Qed.

Ltac by_token H := match type of H with _ = (if ?b then _ else _) => destruct b; cbn in H; split_and?; lia end.

Lemma pop_inv p r x l s : inv s -> pc s = Peek p r -> cq s = x :: l ->
  inv (with_pc (Peek p (fst (processCQE x r s))) (with_cq l (snd (processCQE x r s)))).
Proof.
  intros [Hok Hcn Hb Hocc Hread Htok [Hfd Hseen] Hl Hv Hres Hcl Hf] Hpc Hcq. unfold places in *. rewrite Hpc, Hcq in *.
  destruct x as [[f|] v]; unfold processCQE; cbn [fst snd].
  - assert (Hpf : pending (fib s f) = true).
    { specialize (Hocc f). cbn in Hocc. rewrite !occ_app in Hocc. cbn in Hocc. rewrite decide_True in Hocc by done.
      destruct (pending _) eqn:E; [done|]. pose proof (occ_nonneg (Some f) (sqes s)). pose proof (occ_nonneg (Some f) (kernel s)).
      pose proof (occ_nonneg (Some f) (map fst l)). lia. }
    destruct (fib s f) as [|b [?|]] eqn:Ef; try done. cbn.
    constructor; cbn; try done.
    + intros g. specialize (Hocc g). unfold places. cbn in *. rewrite !occ_app in *. cbn in *. destruct (decide (g = f)) as [->|Hne].
      * rewrite Ef, decide_True in Hocc by done. cbn in *. lia.
      * rewrite decide_False in Hocc by naive_solver. lia.
    + unfold places. cbn in *. rewrite !occ_app in *. cbn in *. rewrite decide_False in Hread by done. lia.
    + intros g. specialize (Hres g). unfold results_for in *. rewrite filter_cons in Hres. cbn in Hres. destruct (decide (g = f)) as [->|Hne].
      * rewrite Ef, decide_True in Hres by done. done.
      * by rewrite decide_False in Hres by naive_solver.
    + intros g Hg. specialize (Hcl g Hg) as [m Hm]. destruct (decide (g = f)) as [->|]; [|by exists m]. rewrite Ef in Hm. injection Hm as -> _. by eexists.
  - cbn in *. pose proof (occ_nonneg None (map fst l)) as Hn. assert (r = 0 /\ haltFD s = 0 /\ occ None (map fst l) = 0) as (-> & H0 & Hn0).
    { rewrite decide_True in Htok by done. by_token Htok. }
    constructor; cbn; try done.
    + intros g. specialize (Hocc g). unfold places. cbn in *. rewrite !occ_app in *. cbn in *. done.
    + unfold places. cbn. rewrite !occ_app in *. cbn in *. rewrite decide_True in Hread by done. lia.
    + rewrite decide_True in Htok by done. rewrite <- Htok. lia.
Qed.

Lemma process_all_inv p rest l : forall r s, inv s -> pc s = Peek p r -> cq s = l ++ rest ->
  inv (with_pc (Peek p (fst (process_all l r s))) (with_cq rest (snd (process_all l r s)))).
Proof.
  induction l as [|x l IH]; intros r s Hi Hpc Hcq.
  - cbn. by destruct s; cbn in *; subst.
  - pose proof (pop_inv p r x (l ++ rest) s Hi Hpc Hcq) as Hp. cbn [process_all]. destruct (processCQE x r s) as [r1 s1] eqn:E. cbn in Hp.
    specialize (IH r1 _ Hp eq_refl eq_refl). rewrite process_all_frame in IH. exact IH.
Qed.

Lemma seen_01 s : inv s -> 0 <= seen (pc s) <= 1.
Proof.
  intros Hi. pose proof (i_token s Hi) as Htok. pose proof (i_fd s Hi) as [? ?]. pose proof (occ_nonneg None (map fst (cq s))). by_token Htok.
Qed.

Lemma rearm_inv p r s : inv s -> pc s = Peek p r -> r <> 0 -> inv (with_pc (Get ForHalt) (assert (count s =? 1) s)).
Proof.
  intros Hi Hpc Hr. destruct Hi as [Hok Hcn Hb Hocc Hread Htok [Hfd Hseen] Hl Hv Hres Hcl Hf]. unfold places in *. rewrite Hpc in *. cbn [seen] in *.
  pose proof (occ_nonneg None (map fst (cq s))) as Hn.
  destruct (halting (Peek p r) && negb (listed s)) eqn:Ehl; [|lia].
  assert (r = 1 /\ haltFD s = 0 /\ occ None (map fst (cq s)) = 0) as (-> & H0 & Hn0) by lia.
  rewrite (Hv H0 eq_refl). apply andb_true_iff in Ehl as [Eh Hl0]. apply negb_true_iff in Hl0. cbn in *.
  constructor; cbn; try done; try lia.
  - unfold flushing in Hb. by destruct p.
  - rewrite decide_True by done. lia.
  - by rewrite Hl0.
Qed.

Lemma poll_return_inv p r s : inv s -> pc s = Peek p r -> inv (poll_return p r s).
Proof.
  intros Hi Hpc. destruct p as [|i| |c|c]; cbn [poll_return].
  2, 3: destruct (Z.eqb_spec r 0) as [->|Hr]; [|by eapply rearm_inv].
  all: destruct Hi as [Hok Hcn Hb Hocc Hread Htok [Hfd Hseen] Hl Hv Hres Hcl Hf]; unfold places in *; rewrite Hpc in *; cbn in *;
    pose proof (occ_nonneg None (map fst (cq s))) as Hn; try (assert (r = 0) as -> by lia); try done.
  all: destruct (i <=? 62)%nat; by constructor.
Qed.

(** ** Submissions *)
Lemma occ_move x n l r : occ x (drop n l ++ (r ++ take n l)) = occ x l + occ x r.
Proof. rewrite !occ_app, (occ_split x n l). lia. Qed.

Lemma submitRing_inv a s ok s' : inv s -> sqes s <> [] -> submitRing a s = Some (ok, s') ->
  pc s' = pc s /\ cq s' = cq s /\ aborted s' = false /\ sqe_count s' = Z.of_nat (length (sqes s')) /\
  (forall x, occ x (preparing (pc s') ++ sqes s' ++ kernel s' ++ map fst (cq s')) = occ x (places s)) /\
  (if ok then sqe_count s' < sqe_count s else s' = s) /\
  s' = mkState (sqes s') (sqe_count s') (kernel s') (cq s) (haltFD s) (count s) (pc s) (listed s) (fib s) (given s) (got s) false.
Proof.
  intros [Hok Hcn _ _ _ _ _ _ _ _ _ _] Hne. unfold submitRing. destruct a as [n|].
  - destruct (Nat.eqb_spec (length (sqes s)) 0) as [H0|_]; [by apply nil_length_inv in H0|].
    destruct ((1 <=? n)%nat && (n <=? length (sqes s))%nat) eqn:E; [|done]. apply andb_true_iff in E as [E1 E2].
    apply Nat.leb_le in E1, E2. intros [= <- <-]. cbn. split_and!; try done.
    + rewrite length_drop. lia.
    + intros x. unfold places. rewrite !occ_app, (occ_split x n (sqes s)). lia.
    + lia.
    + by rewrite Hok.
  - intros [= <- <-]. split_and!; try done. destruct s; cbn in *. by subst.
Qed.

(** A move of the worker that only hands over requests. *)
Lemma submit_only p s s' : inv s -> pc s' = pc s -> aborted s' = false -> sqe_count s' = Z.of_nat (length (sqes s')) ->
  (forall x, occ x (preparing (pc s') ++ sqes s' ++ kernel s' ++ map fst (cq s')) = occ x (places s)) ->
  s' = mkState (sqes s') (sqe_count s') (kernel s') (cq s) (haltFD s) (count s) (pc s) (listed s) (fib s) (given s) (got s) false ->
  preparing p = preparing (pc s) -> halting p = halting (pc s) -> seen p = 0 -> seen (pc s) = 0 -> not_full p ->
  (if flushing p then sqe_count s' = BatchSize else sqe_count s' < BatchSize) ->
  (caller_of p = None \/ caller_of p = caller_of (pc s)) ->
  inv (with_pc p s').
Proof.
  intros Hi Hpc Hok Hcn Hocc Hs' Hp Hh Hs1 Hs2 Hnf Hb Hc. destruct Hi as [_ _ _ Hocc0 Hread Htok [Hfd Hseen] Hl Hv Hres Hcl Hf].
  rewrite Hs' in *. cbn in *. constructor; cbn; try done; unfold places; cbn.
  - intros f. rewrite Hp, Hocc. apply Hocc0.
  - rewrite Hp, Hocc, Hs1. by rewrite Hs2 in Hread.
  - rewrite Hh, Hs1. by rewrite Hs2 in Htok.
  - by rewrite Hs1.
  - by rewrite Hh.
  - by rewrite Hh.
  - intros f Hf'. apply Hcl. destruct Hc as [Hc|<-]; [|done]. by rewrite Hc in Hf'.
Qed.

Lemma submitted_inv c s : inv (with_pc Run s) -> (forall f, c = ForSync f -> exists m, fib s f = InIO false m) -> inv (submitted c s).
Proof.
  intros Hi Hc. destruct c as [f| |]; [|done..]. destruct (Hc f eq_refl) as [m Hm]. cbn. rewrite Hm.
  destruct Hi as [Hok Hcn Hb Hocc Hread Htok Hfd Hl Hv Hres Hcl Hf]. cbn in *. constructor; cbn; try done.
  - intros g. specialize (Hocc g). destruct (decide (g = f)) as [->|]; [|done]. by rewrite Hm in Hocc.
  - intros g. specialize (Hres g). destruct (decide (g = f)) as [->|]; [|done]. by rewrite Hm in Hres.
Qed.

Lemma prepare_inv c p s : inv s -> pc s = Get c -> preparing p = [] -> halting p = false -> seen p = 0 -> not_full p ->
  (if flushing p then sqe_count s + 1 = BatchSize else sqe_count s + 1 < BatchSize) -> (caller_of p = None \/ caller_of p = Some c) ->
  inv (with_pc p (prepare c s)).
Proof.
  intros [Hok Hcn Hb Hocc Hread Htok Hfd Hl Hv Hres Hcl Hf] Hpc Hp Hh Hsn Hnf Hb' Hc. unfold places in *. rewrite Hpc in *. cbn in *.
  assert (Ho : forall x, occ x ((sqes s ++ [data_of c]) ++ kernel s ++ map fst (cq s)) = occ x (data_of c :: sqes s ++ kernel s ++ map fst (cq s))).
  { intros x. cbn. rewrite !occ_app. cbn. lia. }
  constructor; cbn; unfold places; cbn; try done.
  - rewrite length_app. cbn. lia.
  - intros f. rewrite Hp, app_nil_l, Ho. apply Hocc.
  - rewrite Hp, app_nil_l, Ho, Hsn. apply Hread.
  - by rewrite Hh, Hsn.
  - by rewrite Hsn.
  - intros H. by specialize (Hl H).
  - by rewrite Hh.
  - intros f Hf'. apply Hcl. destruct Hc as [Hc|Hc]; rewrite Hc in Hf'; done.
Qed.

Lemma flush_nonempty s : inv s -> flushing (pc s) = true -> sqes s <> [].
Proof. intros Hi Hf. pose proof (i_batch s Hi) as Hb. pose proof (i_count s Hi) as Hc. rewrite Hf in Hb. intros E. rewrite E in Hc. unfold BatchSize in Hb. cbn in Hc. lia. Qed.

Lemma submit_get_inv c a s s' : inv s -> pc s = Get c -> submit_get c a s = Some s' -> inv s'.
Proof.
  intros Hi Hpc. unfold submit_get. pose proof (i_batch s Hi) as Hb. rewrite Hpc in Hb. cbn in Hb. pose proof (i_count s Hi) as Hc. unfold BatchSize in *.
  destruct (Nat.ltb_spec (length (sqes s)) NumEntries) as [_|Hn]; [|unfold NumEntries in Hn; lia]. intros [= <-]. cbn [sqe_count prepare].
  assert (Hcl : forall f, c = ForSync f -> exists m, fib s f = InIO false m) by (intros f ->; apply (i_caller s Hi); by rewrite Hpc).
  destruct (Z.ltb_spec (sqe_count s + 1) 64) as [Hlt|Hge].
  - apply submitted_inv; [|done]. apply prepare_inv; try done. by left.
  - apply prepare_inv; try done; [cbn; unfold BatchSize; lia|by right].
Qed.

Lemma submit_flush_inv c a s s' : inv s -> pc s = Flush c -> submit_flush c a s = Some s' -> inv s'.
Proof.
  intros Hi Hpc. unfold submit_flush. destruct (submitRing a s) as [[ok t]|] eqn:E; [|done]. cbn. intros [= <-].
  pose proof (i_batch s Hi) as Hb. rewrite Hpc in Hb. cbn in Hb.
  destruct (submitRing_inv a s ok t Hi) as (Hpc' & Hcq & Hok & Hcn & Hocc & Hlt & Ht); [|done|].
  { apply flush_nonempty; [done|]. by rewrite Hpc. }
  destruct ok.
  - apply submitted_inv; [|intros f ->; rewrite Ht; apply (i_caller s Hi); by rewrite Hpc].
    apply (submit_only Run s t); try done; rewrite ?Hpc; try done; [cbn; lia|by left].
  - rewrite Hlt in *. apply (submit_only (Submit (CheckFlush c)) s s); try done; rewrite ?Hpc; try done. by right.
Qed.

Lemma poll_submit_inv p a s s' : inv s -> pc s = Submit p -> poll_submit p a s = Some s' -> inv s'.
Proof.
  intros Hi Hpc. unfold poll_submit. pose proof (i_batch s Hi) as Hb. pose proof (i_full s Hi) as Hf. rewrite Hpc in Hb, Hf.
  set (q := match p with Suspend => WaitCQE | _ => Peek p 0 end).
  assert (Hq : preparing q = [] /\ halting q = halting (Submit p) /\ seen q = 0 /\ not_full q /\ flushing q = flushing (Submit p) /\ caller_of q = caller_of (Submit p)).
  { by destruct p. }
  destruct Hq as (Hq1 & Hq2 & Hq3 & Hq4 & Hq5 & Hq6).
  assert (Hsame : inv (with_pc q s)).
  { apply (submit_only q s s); rewrite ?Hpc; try done; try apply Hi; try (by rewrite Hq5); try (by right).
    { intros x. unfold places. by rewrite Hpc. }
    destruct Hi as [Hok _ _ _ _ _ _ _ _ _ _ _]. destruct s; cbn in *. by subst. }
  destruct (negb (is_check p) && (0 <? sqe_count s)) eqn:E; [|cbn; by intros [= <-]]. apply andb_true_iff in E as [Ec E0]. apply Z.ltb_lt in E0.
  destruct (submitRing a s) as [[ok t]|] eqn:E; [|done]. cbn. intros [= <-].
  destruct (submitRing_inv a s ok t Hi) as (Hpc' & Hcq & Hok & Hcn & Hocc & Hlt & Ht); [|done|].
  { pose proof (i_count s Hi) as Hc. intros En. rewrite En in Hc. cbn in Hc. lia. }
  destruct ok; [|by rewrite Hlt].
  rewrite Hpc in Ht, Hpc'. apply (submit_only q s t); rewrite ?Hpc; try done; try (by right). rewrite Hq5. by destruct p; cbn in *; try lia.
Qed.

(** ** The other moves *)
Lemma complete_inv i res s s' : inv s -> complete i res s = Some s' -> inv s'.
Proof.
  intros [Hok Hcn Hb Hocc Hread Htok [Hfd Hseen] Hl Hv Hres Hcl Hf] Hs. unfold complete in Hs.
  destruct (kernel s !! i) as [d|] eqn:Ek; [|done]. cbn in Hs. unfold places in *.
  assert (Hmove : forall x v, occ x (preparing (pc s) ++ sqes s ++ delete i (kernel s) ++ map fst (cq s ++ [(d, v)])) =
    occ x (preparing (pc s) ++ sqes s ++ kernel s ++ map fst (cq s))).
  { intros x v. rewrite map_app, !occ_app, (occ_delete x i (kernel s) d Ek). cbn. lia. }
  destruct d as [f|].
  - injection Hs as <-. constructor; cbn; unfold places; cbn; try done.
    + intros g. rewrite Hmove. apply Hocc.
    + by rewrite Hmove.
    + rewrite map_app, occ_app. cbn. by rewrite Z.add_0_r.
    + intros g. specialize (Hres g). unfold results_for in *. rewrite filter_app, map_app. destruct (decide (g = f)) as [->|Hne].
      * rewrite filter_cons_True by done. cbn. rewrite Hres. by rewrite !app_assoc.
      * rewrite filter_cons_False by naive_solver. cbn. by rewrite app_nil_r.
  - destruct (Z.ltb_spec 0 (haltFD s)) as [Hpos|]; [|done]. injection Hs as <-. pose proof (occ_nonneg None (map fst (cq s))) as Hn.
    assert (haltFD s = 1 /\ occ None (map fst (cq s)) = 0 /\ seen (pc s) = 0) as (H1 & Hn0 & Hs0) by by_token Htok.
    constructor; cbn; unfold places; cbn; try done.
    + intros g. rewrite Hmove. apply Hocc.
    + by rewrite Hmove.
    + rewrite map_app, occ_app, Hn0, Hs0. cbn. rewrite H1, Hn0, Hs0 in Htok. rewrite <- Htok. done.
    + intros g. specialize (Hres g). unfold results_for in *. rewrite filter_app, map_app. cbn. by rewrite app_nil_r.
Qed.

Lemma return_inv f s s' : inv s -> return_ f s = Some s' -> inv s'.
Proof.
  intros [Hok Hcn Hb Hocc Hread Htok Hfd Hl Hv Hres Hcl Hf]. unfold return_. destruct (fib s f) as [|[] [r|]] eqn:Ef; try done. intros [= <-].
  constructor; cbn; try done.
  - intros g. specialize (Hocc g). destruct (decide (g = f)) as [->|]; [|done]. by rewrite Ef in Hocc.
  - intros g. specialize (Hres g). destruct (decide (g = f)) as [->|]; [|done]. rewrite Ef in Hres. rewrite Hres. cbn. by rewrite <- app_assoc.
  - intros g Hg. destruct (Hcl g Hg) as [m Hm]. exists m. destruct (decide (g = f)) as [->|]; [|done]. by rewrite Ef in Hm.
Qed.

Lemma poll_return_frame p r s : poll_return p r s = poll_return p r (with_pc (Peek p r) s).
Proof. destruct p; cbn; try done; by destruct (r =? 0), (count s =? 1). Qed.

Lemma uring_step_inv s l s' : inv s -> step l s = Some s' -> inv s'.
Proof.
  intros Hi Hs. pose proof Hi as [Hok Hcn Hb Hocc Hread Htok [Hfd Hseen] Hl Hv Hres Hcl Hf]. unfold places in *.
  destruct l as [f| | |a|k| |i res|f]; cbn [step] in Hs.
  - destruct (pc s) eqn:Hpc; try done. destruct (fib s f) eqn:Ef; [|done]. injection Hs as <-. cbn in *.
    constructor; cbn; unfold places; cbn; try done.
    + intros g. specialize (Hocc g). cbn in Hocc. destruct (decide (g = f)) as [->|Hne].
      * rewrite Ef in Hocc. cbn in Hocc. rewrite Hocc. by rewrite decide_True.
      * by rewrite decide_False by naive_solver.
    + intros g. specialize (Hres g). destruct (decide (g = f)) as [->|]; [|done]. by rewrite Ef in Hres.
    + intros g [= ->]. rewrite decide_True by done. by eexists.
  - destruct (pc s) eqn:Hpc; try done. injection Hs as <-. cbn in *. by constructor.
  - destruct (pc s) eqn:Hpc; try done. injection Hs as <-. cbn in *. constructor; cbn; try done; lia.
  - destruct (pc s) eqn:Hpc; try done; [by eapply submit_get_inv|by eapply submit_flush_inv|by eapply poll_submit_inv].
  - destruct (pc s) as [| | | | |p r] eqn:Hpc; try (by destruct k as [|[|k]]).
    + destruct k as [|[|k]]; try done. unfold poll_wait in Hs. destruct (cq s) as [|x c] eqn:Hcq; [done|].
      assert (Ht : inv (with_pc (Peek Suspend 0) (with_cq (x :: c) s))) by (constructor; cbn; unfold places; cbn; rewrite <- ?Hcq; done).
      pose proof (pop_inv Suspend 0 x c _ Ht eq_refl eq_refl) as Hp. rewrite processCQE_frame in Hp.
      destruct (processCQE x 0 s) as [r' t]. injection Hs as <-. exact Hp.
    + assert (Hk : poll_peek p r k s = Some s') by (by destruct k as [|[|k]]). clear Hs. unfold poll_peek in Hk.
      destruct ((k <=? length (cq s))%nat && (k <=? NumEntries)%nat); [|done].
      pose proof (process_all_inv p (drop k (cq s)) (take k (cq s)) r s Hi Hpc (eq_sym (take_drop k (cq s)))) as Hp.
      destruct (process_all (take k (cq s)) r s) as [r' t]. injection Hk as <-. cbn in Hp.
      rewrite poll_return_frame. by eapply poll_return_inv.
  - destruct (listed s) eqn:El; [|done]. injection Hs as <-. rewrite (Hl eq_refl) in *. cbn in *. pose proof (occ_nonneg None (map fst (cq s))) as Hn.
    constructor; cbn; try done; try lia. rewrite (Hl eq_refl). cbn. lia.
  - by eapply complete_inv.
  - by eapply return_inv.
Qed.

Lemma uring_inv s : reachable init step s -> inv s.
Proof. apply invariant_rule; [apply uring_init_inv|apply uring_step_inv]. Qed.

(** * Requests *)

(** C21. No assertion fails and no completion finds a block that nobody waits for.
    A fibre's request is in exactly one place until the fibre is resumed, and
    [syncIO] returns the kernel's results, each once and in order: what the kernel
    has given a fibre is what [syncIO] has returned, then the result on its way.
    [sqe_count] counts the prepared requests and stays within [BatchSize], so that
    [io_uring_get_sqe] never fails. *)
Theorem uring_requests s : reachable init step s ->
  aborted s = false /\
  (sqe_count s = Z.of_nat (length (sqes s)) /\ sqe_count s <= BatchSize < Z.of_nat NumEntries) /\
  forall f, occ (Some f) (places s) = (if pending (fib s f) then 1 else 0) /\
    given s f = got s f ++ message (fib s f) ++ results_for f (cq s).
Proof.
  intros Hr. pose proof (uring_inv s Hr) as Hi. split; [apply Hi|]. split.
  - split; [apply Hi|]. pose proof (i_batch s Hi). split; [destruct (flushing _); lia|]. done.
  - intros f. split; apply Hi.
Qed.

(** * Halting *)

(** The wake-ups on their way: the contract of [HaltSemaphore] is that of a
    semaphore, with [V] in [wake] and [P] or [tryP] in [halt]. *)
Definition tokens (s : state) : Z := haltFD s + occ None (map fst (cq s)) + seen (pc s).
(** This move ends [trySuspend] or [suspend] with success. *)
Definition taken (s s' : state) : bool :=
  match pc s, pc s' with Peek (Try _ | Suspend) _, Get ForHalt => true | _, _ => false end.

Lemma processCQE_same x r s : pc (snd (processCQE x r s)) = pc s /\ listed (snd (processCQE x r s)) = listed s.
Proof. unfold processCQE. destruct (fst x) as [f|]; [by destruct (fib s f) as [|? [?|]]|]. by destruct (r =? 0). Qed.
Lemma process_all_same l : forall r s, pc (snd (process_all l r s)) = pc s /\ listed (snd (process_all l r s)) = listed s.
Proof.
  induction l as [|x l IH]; intros r s; [done|]. cbn. pose proof (processCQE_same x r s) as [H1 H2]. destruct (processCQE x r s) as [r' s'].
  cbn in *. rewrite <- H1, <- H2. apply IH.
Qed.
Lemma submitRing_same a s r : submitRing a s = Some r -> pc (snd r) = pc s /\ listed (snd r) = listed s.
Proof. unfold submitRing. destruct a; [|by intros [= <-]]. repeat case_match; by intros [= <-]. Qed.

(** Where the worker goes: what a move does to [halting] and [listed]. *)
Definition wakeable (s : state) : bool := halting (pc s) && negb (listed s).
Lemma submitted_pc c s : pc (submitted c s) = Run.
Proof. by destruct c. Qed.

Lemma move_wakeable a s s' : step (Move a) s = Some s' -> wakeable s' = wakeable s /\ taken s s' = false.
Proof.
  unfold wakeable, taken. cbn. destruct (pc s) as [|c|c|p| |p r] eqn:Hpc; try done; cbn.
  - unfold submit_get. destruct (_ <? _)%nat.
    + intros [= <-]. case_match; [by rewrite submitted_pc|done].
    + destruct (submitRing a s) as [[ok t]|] eqn:E; [|done]. destruct (submitRing_same _ _ _ E) as [H1 _]. cbn in *.
      intros [= <-]. destruct ok; [by rewrite H1, Hpc|done].
  - unfold submit_flush. destruct (submitRing a s) as [[ok t]|] eqn:E; [|done]. cbn. intros [= <-].
    destruct ok; [by rewrite submitted_pc|done].
  - unfold poll_submit. intros H. split; [|done].
    assert (exists t, s' = with_pc (match p with Suspend => WaitCQE | _ => Peek p 0 end) t /\ listed t = listed s) as (t & -> & Ht).
    { destruct (_ && _); [|injection H as <-; by exists s]. destruct (submitRing a s) as [r|] eqn:E; [|done].
      injection H as <-. exists (snd r). by destruct (submitRing_same _ _ _ E). }
    rewrite <- Ht. by destruct p.
Qed.

Lemma poll_return_wakeable p r s : pc s = Peek p r -> inv s ->
  (if wakeable (poll_return p r s) then 1 else 0) = (if wakeable s then 1 else 0) - (if taken s (poll_return p r s) then 1 else 0).
Proof.
  intros Hpc Hi. pose proof (i_token s Hi) as Ht. pose proof (i_fd s Hi) as [Hfd Hs]. unfold wakeable, taken. rewrite Hpc in *. cbn [seen] in *.
  pose proof (occ_nonneg None (map fst (cq s))). 
  assert (Ha : forall b, listed (assert b s) = listed s) by (by intros []).
  destruct p as [|i| |c|c]; cbn in *; try lia; (destruct (Z.eqb_spec r 0) as [->|Hr]; cbn; [|destruct (listed s); cbn in *; lia]).
  - destruct (i <=? 62)%nat; cbn; lia.
  - lia.
Qed.

Lemma process_wakeable k s s' : inv s -> step (Process k) s = Some s' ->
  (if wakeable s' then 1 else 0) = (if wakeable s then 1 else 0) - (if taken s s' then 1 else 0).
Proof.
  intros Hi Hs. cbn in Hs. destruct (pc s) as [| | | | |p r] eqn:Hpc; try (by destruct k as [|[|k]]).
  - destruct k as [|[|k]]; try done. unfold poll_wait in Hs. destruct (cq s) as [|x c]; [done|].
    pose proof (processCQE_same x 0 s) as [_ H2]. destruct (processCQE x 0 s) as [r' t]. injection Hs as <-. cbn in *.
    unfold wakeable, taken. cbn. rewrite Hpc, H2. cbn. lia.
  - assert (Hk : poll_peek p r k s = Some s') by (by destruct k as [|[|k]]). clear Hs. unfold poll_peek in Hk.
    destruct ((k <=? length (cq s))%nat && (k <=? NumEntries)%nat); [|done].
    pose proof (process_all_inv p (drop k (cq s)) (take k (cq s)) r s Hi Hpc (eq_sym (take_drop k (cq s)))) as Hp.
    pose proof (process_all_same (take k (cq s)) r s) as [_ H2].
    destruct (process_all (take k (cq s)) r s) as [r' t]. injection Hk as <-. cbn in Hp, H2.
    rewrite poll_return_frame. rewrite (poll_return_wakeable p r') by done. unfold wakeable, taken. cbn. rewrite Hpc, H2. by destruct p.
Qed.

Lemma halt_tokens s l s' : inv s -> step l s = Some s' ->
  tokens s = (if halting (pc s) && negb (listed s) then 1 else 0) /\
  tokens s' = tokens s + (match l with Wake => 1 | _ => 0 end) - (if taken s s' then 1 else 0).
Proof.
  intros Hi Hs. pose proof (uring_step_inv s l s' Hi Hs) as Hi'. split; [apply Hi|].
  pose proof (i_token s Hi : tokens s = if wakeable s then 1 else 0) as ->. pose proof (i_token s' Hi' : tokens s' = if wakeable s' then 1 else 0) as ->.
  destruct l as [f| | |a|k| |i res|f].
  4: { destruct (move_wakeable a s s' Hs) as [-> ->]. lia. }
  4: { rewrite (process_wakeable k s s' Hi Hs). lia. }
  all: cbn in Hs; unfold wakeable, taken in *.
  - destruct (pc s), (fib s f); try done. by injection Hs as <-.
  - destruct (pc s); try done. by injection Hs as <-.
  - destruct (pc s); try done. by injection Hs as <-.
  - destruct (listed s) eqn:El; [|done]. injection Hs as <-. cbn. rewrite (i_listed s Hi El). cbn. destruct (pc s) as [| | | | |[] ?]; done.
  - unfold complete in Hs. destruct (kernel s !! i) as [[f|]|]; try done; cbn in Hs; [|destruct (0 <? haltFD s); [|done]];
      injection Hs as <-; cbn; rewrite Z.add_0_r; destruct (pc s) as [| | | | |[] ?]; cbn; lia.
  - unfold return_ in Hs. destruct (fib s f) as [|[] [r|]]; try done. injection Hs as <-. cbn. destruct (pc s) as [| | | | |[] ?]; cbn; lia.
Qed.

(** C22. The ring is a semaphore for halting workers: a wake-up adds a token, [halt]
    returns exactly when it takes one, and nothing else (a poll, a full queue)
    changes their number.  There is one while the worker has been taken off the
    list of waiting processors and has not returned, and none otherwise. *)
Theorem uring_halt_semaphore s l s' : reachable init step s -> step l s = Some s' ->
  tokens s = (if halting (pc s) && negb (listed s) then 1 else 0) /\
  tokens s' = tokens s + (match l with Wake => 1 | _ => 0 end) - (if taken s s' then 1 else 0).
Proof. intros Hr. by apply halt_tokens, uring_inv. Qed.

(** The ring keeps the contract. *)
#[export] Instance uring_halt : HaltSemaphore init step.
Proof.
  refine (Build_HaltSemaphore _ _ init step tokens (fun l => match l with Wake => true | _ => false end) taken _ _ _).
  - by intros s ->.
  - intros s Hr. rewrite (i_token s (uring_inv s Hr) : tokens s = _). destruct (_ && _); lia.
  - intros s l s' Hr Hs. destruct (halt_tokens s l s' (uring_inv s Hr) Hs) as [_ ->]. by destruct l, (taken s s').
Defined.

(** ** A halting worker that has been woken gets out of [halt] *)

(** The moves of the worker in [halt] and of the kernel. *)
Definition progress (l : label) : bool := match l with Move _ | Process _ | Complete _ _ => true | _ => false end.
(** The moves that are left: a call of [suspend] processes at least one
    completion between two waits, and no request is prepared meanwhile. *)
Definition rank (p : upc) : Z :=
  match p with
  | Submit (Try i) => 4 + 2 * Z.of_nat (HaltSpinMax - i) | Peek (Try i) _ => 3 + 2 * Z.of_nat (HaltSpinMax - i)
  | Submit Suspend => 2 | WaitCQE => 1 | Peek Suspend _ => 3
  | _ => 0
  end.
Definition measure (s : state) : Z :=
  4 * Z.of_nat (length (sqes s) + length (kernel s)) + 3 * Z.of_nat (length (cq s)) + rank (pc s).
Lemma rank_nonneg p : 0 <= rank p.
Proof. destruct p as [| | |[]| |[] ?]; cbn; lia. Qed.
Lemma measure_nonneg s : 0 <= measure s.
Proof. unfold measure. pose proof (rank_nonneg (pc s)). lia. Qed.

Lemma processCQE_rings x r s : let s' := snd (processCQE x r s) in sqes s' = sqes s /\ kernel s' = kernel s.
Proof. unfold processCQE. destruct (fst x) as [f|]; [by destruct (fib s f) as [|? [?|]]|]. by destruct (r =? 0). Qed.
Lemma process_all_rings l : forall r s, let s' := snd (process_all l r s) in sqes s' = sqes s /\ kernel s' = kernel s.
Proof.
  induction l as [|x l IH]; intros r s; [done|]. cbn. pose proof (processCQE_rings x r s) as [H1 H2]. destruct (processCQE x r s) as [r' s'].
  cbn in *. rewrite <- H1, <- H2. apply IH.
Qed.
Lemma submitRing_rings a s r : submitRing a s = Some r ->
  (length (sqes (snd r)) + length (kernel (snd r)) = length (sqes s) + length (kernel s))%nat /\ cq (snd r) = cq s.
Proof.
  unfold submitRing. destruct a as [n|]; [|by intros [= <-]]. repeat case_match; intros [= <-]; cbn; [done|]. split; [|done].
  rewrite length_drop, length_app, length_take. lia.
Qed.

Lemma poll_submit_measure p a s s' : pc s = Submit p -> halting (Submit p) = true -> poll_submit p a s = Some s' -> measure s' < measure s.
Proof.
  intros Hpc Hh. unfold poll_submit. intros Hs.
  assert (exists t, s' = with_pc (match p with Suspend => WaitCQE | _ => Peek p 0 end) t /\
    (length (sqes t) + length (kernel t) = length (sqes s) + length (kernel s))%nat /\ cq t = cq s) as (t & -> & Ht & Hc).
  { destruct (_ && _); [|injection Hs as <-; by exists s]. destruct (submitRing a s) as [r|] eqn:E; [|done].
    injection Hs as <-. exists (snd r). by destruct (submitRing_rings _ _ _ E). }
  unfold measure. cbn [sqes kernel cq pc with_pc]. rewrite Ht, Hc, Hpc. destruct p; cbn in *; try done; lia.
Qed.

Lemma halting_measure s l s' : halting (pc s) = true -> step l s = Some s' -> halting (pc s') = true ->
  if progress l then measure s' < measure s else measure s' = measure s.
Proof.
  intros Hh Hs Hh'. destruct l as [f| | |a|k| |i res|f]; cbn [step progress] in *.
  1-3: by destruct (pc s).
  - destruct (pc s) as [| | |p| |] eqn:Hpc; try done. by eapply poll_submit_measure.
  - destruct (pc s) as [| | | | |p r] eqn:Hpc; try (by destruct k as [|[|k]]).
    + destruct k as [|[|k]]; try done. unfold poll_wait in Hs. destruct (cq s) as [|x c] eqn:Hcq; [done|].
      pose proof (processCQE_rings x 0 s) as [H1 H2]. destruct (processCQE x 0 s) as [r' t]. injection Hs as <-.
      unfold measure. cbn [sqes kernel cq pc with_pc with_cq snd] in *. rewrite H1, H2, Hcq, Hpc. cbn. lia.
    + assert (Hk : poll_peek p r k s = Some s') by (by destruct k as [|[|k]]). clear Hs. unfold poll_peek in Hk.
      destruct ((k <=? length (cq s))%nat && (k <=? NumEntries)%nat); [|done].
      pose proof (process_all_rings (take k (cq s)) r s) as [H1 H2]. destruct (process_all (take k (cq s)) r s) as [r' t]. injection Hk as <-.
      pose proof (length_drop (cq s) k) as Hd. unfold measure. rewrite Hpc.
      destruct p as [|i| |c|c]; try done; cbn [poll_return] in *; (destruct (r' =? 0); [|done]); cbn [sqes kernel cq pc with_pc with_cq snd] in *;
        rewrite H1, H2, Hd; [|cbn; lia]. destruct (Nat.ltb_spec (S i) HaltSpinMax); cbn [rank]; unfold HaltSpinMax in *; lia.
  - destruct (listed s); [|done]. by injection Hs as <-.
  - unfold complete in Hs. destruct (kernel s !! i) as [d|] eqn:Ek; [|done]. cbn in Hs. assert (Hlt : (i < length (kernel s))%nat) by (exact (lookup_lt_Some _ _ _ Ek)).
    assert (Hm : forall t c, sqes t = sqes s -> kernel t = delete i (kernel s) -> cq t = cq s ++ [c] -> pc t = pc s -> measure t < measure s).
    { intros t c H1 H2 H3 H4. unfold measure. rewrite H1, H2, H3, H4, length_app, length_delete by (by eexists). cbn [length]. lia. }
    destruct d as [f|]; [injection Hs as <-; by eapply Hm|]. destruct (0 <? haltFD s); [|done]. injection Hs as <-. by eapply Hm.
  - unfold return_ in Hs. destruct (fib s f) as [|[] [r|]]; try done. by injection Hs as <-.
Qed.

(** The read of [haltFD] has been handed over; it stays so during [halt]. *)
Definition armed (s : state) : Prop := wakeable s = true /\ occ None (sqes s) = 0.
Lemma poll_submit_sqes p a s s' : occ None (sqes s) = 0 -> poll_submit p a s = Some s' -> occ None (sqes s') = 0.
Proof.
  intros H0 Hs. unfold poll_submit in Hs. destruct (_ && _); [|by injection Hs as <-].
  destruct (submitRing a s) as [r|] eqn:E; [|done]. injection Hs as <-. cbn. unfold submitRing in E. destruct a as [n|]; [|by injection E as <-].
  repeat case_match; try done; injection E as <-; cbn; [done|]. rewrite (occ_split None n) in H0.
  pose proof (occ_nonneg None (take n (sqes s))). pose proof (occ_nonneg None (drop n (sqes s))). lia.
Qed.
Lemma poll_return_sqes p r s : sqes (poll_return p r s) = sqes s.
Proof. destruct p; cbn; try done; by destruct (r =? 0), (count s =? 1). Qed.
Lemma halting_sqes s l s' : halting (pc s) = true -> step l s = Some s' -> occ None (sqes s) = 0 -> occ None (sqes s') = 0.
Proof.
  intros Hh Hs H0. destruct l as [f| | |a|k| |i res|f]; cbn [step] in *.
  1-3: by destruct (pc s).
  - destruct (pc s) as [| | |p| |] eqn:Hpc; try done. by eapply poll_submit_sqes.
  - destruct (pc s) as [| | | | |p r] eqn:Hpc; try (by destruct k as [|[|k]]).
    + destruct k as [|[|k]]; try done. unfold poll_wait in Hs. destruct (cq s) as [|x c] eqn:Hcq; [done|].
      pose proof (processCQE_rings x 0 s) as [H1 _]. destruct (processCQE x 0 s) as [r' t]. injection Hs as <-. cbn in *. by rewrite H1.
    + assert (Hk : poll_peek p r k s = Some s') by (by destruct k as [|[|k]]). unfold poll_peek in Hk. destruct (_ && _); [|done].
      pose proof (process_all_rings (take k (cq s)) r s) as [H1 _]. destruct (process_all (take k (cq s)) r s) as [r' t]. injection Hk as <-.
      rewrite poll_return_sqes. cbn in *. by rewrite H1.
  - destruct (listed s); [|done]. by injection Hs as <-.
  - unfold complete in Hs. destruct (kernel s !! i) as [[f|]|]; try done; cbn in Hs; [by injection Hs as <-|]. destruct (0 <? haltFD s); [|done]. by injection Hs as <-.
  - unfold return_ in Hs. destruct (fib s f) as [|[] [r|]]; try done. by injection Hs as <-.
Qed.

(** Some move is possible, unless the worker waits and has not handed over the
    read of [haltFD]. *)
Lemma woken_moves s : inv s -> wakeable s = true -> (pc s = WaitCQE -> occ None (sqes s) = 0) -> exists l s', progress l = true /\ step l s = Some s'.
Proof.
  intros Hi Hw Hsub. pose proof (i_token s Hi) as Ht. unfold wakeable in Hw. rewrite Hw in Ht. apply andb_true_iff in Hw as [Hh Hl].
  destruct (pc s) as [| | |p| |p r] eqn:Hpc; try done.
  - exists (Move None). cbn. rewrite Hpc. unfold poll_submit. destruct (_ && _); eauto.
  - destruct (cq s) as [|x c] eqn:Hcq.
    + cbn in Ht. pose proof (i_read s Hi) as Hr. unfold places in Hr. rewrite Hpc, Hcq in Hr. cbn in Hr. rewrite !occ_app in Hr. cbn in Hr.
      rewrite Hsub in Hr by done. destruct (occ_in None (kernel s)) as [i Hk]; [lia|].
      exists (Complete i 0). cbn [step progress]. unfold complete. rewrite Hk. cbn [mbind option_bind]. destruct (Z.ltb_spec 0 (haltFD s)); [by eauto|lia].
    + exists (Process 1). cbn. rewrite Hpc. unfold poll_wait. rewrite Hcq. destruct (processCQE x 0 s). by eauto.
  - exists (Process 0). cbn. rewrite Hpc. unfold poll_peek. cbn. by eauto.
Qed.

Lemma armed_step s l s' : inv s -> armed s -> step l s = Some s' -> halting (pc s') = true -> armed s'.
Proof.
  intros Hi [Hw H0] Hs Hh. apply andb_true_iff in Hw as Hw'. destruct Hw' as [Hh0 Hl]. split; [|by eapply halting_sqes].
  destruct l as [f| | |a|k| |i res|f].
  4: { by destruct (move_wakeable a s s' Hs) as [-> _]. }
  4: { pose proof (process_wakeable k s s' Hi Hs) as H. rewrite Hw in H. destruct (wakeable s'); [done|]. unfold taken in H.
       destruct (pc s) as [| | | | |[] ?]; cbn in H; try lia; destruct (pc s') as [|[]| | | |]; done || lia. }
  all: cbn [step] in Hs.
  1-3: by destruct (pc s).
  - apply negb_true_iff in Hl. by rewrite Hl in Hs.
  - unfold complete in Hs. destruct (kernel s !! i) as [[f|]|]; try done; cbn in Hs; [by injection Hs as <-|]. destruct (0 <? haltFD s); [|done]. by injection Hs as <-.
  - unfold return_ in Hs. destruct (fib s f) as [|[] [r|]]; try done. by injection Hs as <-.
Qed.

(** C23. [halt] ends once the worker is woken, whatever else happens: a run with
    more moves of the worker and of the kernel than a measure of the state leaves
    [halt]; one of these moves is possible until then, and no move undoes this,
    provided that the read of [haltFD] has been handed to the kernel. *)
Theorem uring_halt_ends s : reachable init step s ->
  (halting (pc s) = true -> forall ls s', run step ls s = Some s' ->
     measure s < Z.of_nat (length (filter (fun l => progress l = true) ls)) ->
     exists ls1 ls2 t, ls = ls1 ++ ls2 /\ run step ls1 s = Some t /\ halting (pc t) = false) /\
  (armed s -> (exists l s', progress l = true /\ step l s = Some s') /\
     forall l s', step l s = Some s' -> armed s' \/ halting (pc s') = false).
Proof.
  intros Hr. pose proof (uring_inv s Hr) as Hi. split.
  2: { intros Ha. split; [apply woken_moves; [done|apply Ha|intros _; apply Ha]|]. intros l s' Hs.
       destruct (halting (pc s')) eqn:Hh; [left|by right]. by eapply armed_step. }
  clear Hr Hi. intros Hh ls. revert s Hh. induction ls as [|l ls IH]; intros s Hh s' Hrun Hm.
  - cbn in Hm. pose proof (measure_nonneg s). lia.
  - cbn in Hrun. destruct (step l s) as [t|] eqn:E; [|done]. cbn in Hrun. destruct (halting (pc t)) eqn:Ht.
    + pose proof (halting_measure s l t Hh E Ht) as Hlm. destruct (IH t Ht s' Hrun) as (ls1 & ls2 & u & -> & Hu & Hhu).
      { rewrite filter_cons in Hm. destruct (decide (progress l = true)) as [Hp|Hp]; [|apply not_true_is_false in Hp]; rewrite Hp in Hlm; cbn [length] in Hm; lia. }
      exists (l :: ls1), ls2, u. split_and!; try done. cbn. by rewrite E.
    + exists [l], ls, t. split_and!; try done. cbn. by rewrite E.
Qed.

(** Without that proviso it may not end: [internalPoll] ignores that the requests
    were not handed over ([EAGAIN]) and waits for the completion of a read that
    the kernel does not know. *)
Definition stuck_run : list label :=
  [Move None; Halt] ++ mjoin (replicate 64 [Move None; Process 0]) ++ [Move None; Wake].
Definition blind (s : state) : Prop := pc s = WaitCQE /\ cq s = [] /\ kernel s = [].
Lemma unsubmitted_read_blocks : exists s, reachable init step s /\ wakeable s = true /\ tokens s = 1 /\
  forall ls s', run step ls s = Some s' -> pc s' = WaitCQE.
Proof.
  exists (after step start stuck_run). split; [by apply run_reaches|]. split; [done|]. split; [done|].
  assert (Hb : forall s l s', blind s -> step l s = Some s' -> blind s').
  { intros s l s' (Hpc & Hcq & Hk) Hs. destruct l as [f| | |a|k| |i res|f]; cbn in Hs; rewrite ?Hpc in Hs; try done.
    - destruct k as [|[|k]]; try done. unfold poll_wait in Hs. by rewrite Hcq in Hs.
    - destruct (listed s); [|done]. by injection Hs as <-.
    - unfold complete in Hs. by rewrite Hk in Hs.
    - unfold return_ in Hs. destruct (fib s f) as [|[] [r|]]; try done. by injection Hs as <-. }
  intros ls s' Hr. apply (run_preserves step blind Hb ls _ s') in Hr; [apply Hr|done].
Qed.

(** * Concrete runs *)

(** Fibre 7 reads, the worker halts and is woken, both completions arrive in one
    batch. *)
Definition ring_run : list label :=
  [Move None; SyncIO 7%nat; Move None; Halt; Move (Some 2%nat); Complete 1 11; Wake; Complete 0 0].
Definition ring_state : state := after step start ring_run.
Lemma uring_requests_witness : given ring_state 7%nat = [11] /\ got ring_state 7%nat = [].
Proof.
  destruct (uring_requests ring_state) as (_ & _ & H); [by apply run_reaches|]. destruct (H 7%nat) as [_ Hg]. split; [exact Hg|reflexivity].
Defined.
Lemma uring_halt_semaphore_witness : tokens ring_state = 1 /\ tokens (after step ring_state [Process 2]) = 0.
Proof.
  destruct (uring_halt_semaphore ring_state (Process 2) (after step ring_state [Process 2])) as [H1 H2]; [by apply run_reaches|reflexivity|].
  split; [exact H1|exact H2].
Defined.
Lemma uring_halt_ends_witness : exists l s', progress l = true /\ step l ring_state = Some s'.
Proof.
  destruct (uring_halt_ends ring_state) as [_ H]; [by apply run_reaches|]. destruct H as [H _]; [split; reflexivity|]. exact H.
Defined.
