(* ===== verification/WorkerPollers.v ===== *)
(** The poller of a worker, [WorkerPoller] in [src/libfibre/Poller.h] and
    [Poller.cc], in the configuration with [TESTING_WORKER_POLLER]: an idle worker
    waits in [epoll_wait], and is woken through the event file descriptor
    [haltFD], whose event sets the binary semaphore that every file descriptor
    has ([unblock], [tryblock] in [EventScope.h]).  The events of other file
    descriptors are those of Pollers. *)
From S2P Require Import Prelude HaltSemaphores.
Local Open Scope Z_scope.

Inductive PollType := Poll | Try (i : nat) | Suspend.
(** Outside of the poller; before [doPoll]; in [notifyAll], with or without the
    event of [haltFD]; at [tryblock]; before the read of [haltFD]. *)
Inductive wpc := Run | DoPoll (p : PollType) | Notify (p : PollType) (halt : bool) | TryBlock (p : PollType) | Read (p : PollType).
Record state := mkState {
  haltFD : Z;      (* the counter of the event file descriptor *)
  sync : bool;     (* the binary semaphore fdSyncVector[haltFD].sync[true] *)
  pc : wpc;
  listed : bool;   (* the worker is among the waiting processors *)
  aborted : bool
}.

(** [doPoll]: no events when it does not block or is interrupted; the event of
    [haltFD], which is registered level-triggered, only while it is readable. *)
Definition doPoll (p : PollType) (halt : bool) (s : state) : option state :=
  if negb halt || (0 <? haltFD s) then Some (mkState (haltFD s) (sync s) (Notify p halt) (listed s) (aborted s)) else None.
Definition notifyAll (p : PollType) (halt : bool) (s : state) : state :=
  mkState (haltFD s) (sync s || halt) (match p with Poll => Run | _ => TryBlock p end) (listed s) (aborted s).
(** Where [halt] goes when [internalPoll] has returned 0. *)
Definition again (p : PollType) : PollType :=
  match p with Try i => if (S i <? HaltSpinMax)%nat then Try (S i) else Suspend | _ => p end.
Definition tryblock (p : PollType) (s : state) : state :=
  if sync s then mkState (haltFD s) false (Read p) (listed s) (aborted s)
  else mkState (haltFD s) (sync s) (DoPoll (again p)) (listed s) (aborted s).
(** The read does not block: it fails when nothing was written. *)
Definition read_halt (s : state) : state :=
  if 0 <? haltFD s then mkState 0 (sync s) Run (listed s) (aborted s || negb (haltFD s =? 1))
  else mkState (haltFD s) (sync s) (pc s) (listed s) true.
Definition resume (s : state) : state := mkState (haltFD s + 1) (sync s) (pc s) false (aborted s).

Inductive label :=
| CallPoll | Halt      (* the worker calls poll, IdleManager::block *)
| Move (halt : bool)   (* the worker; whether epoll_wait reports haltFD *)
| Wake.                (* another processor: IdleManager::unblock, resume *)
Definition step (l : label) (s : state) : option state :=
  match l, pc s with
  | CallPoll, Run => Some (mkState (haltFD s) (sync s) (DoPoll Poll) (listed s) (aborted s))
  | Halt, Run => Some (mkState (haltFD s) (sync s) (DoPoll (Try 0)) true (aborted s))
  | Move b, DoPoll p => doPoll p b s
  | Move _, Notify p b => Some (notifyAll p b s)
  | Move _, TryBlock p => Some (tryblock p s)
  | Move _, Read p => Some (read_halt s)
  | Wake, _ => if listed s then Some (resume s) else None
  | _, _ => None
  end.
Definition init (s : state) : Prop := s = mkState 0 false Run false false.

(** * The invariant *)
Definition halting (p : wpc) : bool :=
  match p with DoPoll (Try _ | Suspend) | Notify (Try _ | Suspend) _ | TryBlock _ | Read _ => true | _ => false end.
(** The event is seen and its token not read. *)
Definition seen (s : state) : bool := sync s || match pc s with Notify _ b => b | Read _ => true | _ => false end.
Record inv (s : state) : Prop := mkInv {
  i_ok : aborted s = false;
  i_token : haltFD s = if halting (pc s) && negb (listed s) then 1 else 0;
  i_seen : seen s = true -> haltFD s = 1;
  i_listed : listed s = true -> halting (pc s) = true;
  i_sync : sync s = true -> match pc s with TryBlock _ => True | _ => False end;
  i_poll : match pc s with TryBlock Poll | Read Poll => False | _ => True end
}.
Definition ended (s s' : state) : bool := halting (pc s) && negb (halting (pc s')).

Lemma worker_poller_step s l s' : inv s -> step l s = Some s' ->
  inv s' /\ haltFD s' = haltFD s + Z.b2z (match l with Wake => true | _ => false end) - Z.b2z (ended s s').
Proof.
  intros [Hok Ht Hsn Hl Hy Hp] Hs. unfold ended. unfold seen in Hsn. destruct l as [| |b|]; cbn in Hs.
  - destruct (pc s) eqn:E; try done. injection Hs as <-. cbn in *. split; [by constructor|lia].
  - destruct (pc s) eqn:E; try done. injection Hs as <-. cbn in *. split; [by constructor|lia].
  - destruct (pc s) as [|p|p c|p|p] eqn:E; try done.
    + unfold doPoll in Hs. destruct (negb b || (0 <? haltFD s)) eqn:Eb; [|done]. injection Hs as <-. cbn in *.
      rewrite orb_false_r in Hsn. split; [|by destruct p; cbn; lia]. constructor; unfold seen; cbn; try done.
      destruct b; [|by rewrite orb_false_r]. cbn in Eb. apply Z.ltb_lt in Eb. intros _. by destruct (_ && _); lia.
    + injection Hs as <-. unfold notifyAll. destruct (sync s || c) eqn:Ec; destruct p as [|i|]; cbn in *; (split; [|lia]);
        constructor; unfold seen; cbn; try done; by specialize (Hsn eq_refl); rewrite Hsn in Ht.
    + injection Hs as <-. cbn in *. unfold tryblock. rewrite orb_false_r in Hsn. destruct (sync s) eqn:Es; cbn in *.
      * split; [|lia]. constructor; unfold seen; cbn; done.
      * assert (Hh : halting (DoPoll (again p)) = true) by (destruct p as [|i|]; cbn; [done|by destruct (i <=? 62)%nat|done]).
        cbn [halting] in Hh. split; [|cbn; rewrite Hh; cbn; lia]. constructor; unfold seen; cbn; rewrite ?Hh; done.
    + injection Hs as <-. cbn in *. unfold read_halt. rewrite (Hsn (orb_true_r _)) in *. cbn in *. destruct (listed s); cbn in *; [done|].
      split; [|lia]. constructor; unfold seen; cbn; try done; [by rewrite Hok|].
      rewrite orb_false_r. intros H. by specialize (Hy H).
  - destruct (listed s) eqn:El; [|done]. injection Hs as <-. rewrite (Hl eq_refl) in Ht. cbn in *. rewrite (Hl eq_refl) in *. cbn. split; [|lia].
    constructor; unfold seen; cbn; try done; [rewrite (Hl eq_refl); cbn; lia|]. intros H. specialize (Hsn H). lia.
Qed.
Lemma worker_poller_inv s : reachable init step s -> inv s.
Proof. apply invariant_rule; [intros ? ->; by constructor|]. intros t l t' Ht Hs. by apply (worker_poller_step t l t'). Qed.

#[export] Instance poller_halt : HaltSemaphore init step.
Proof.
  refine (Build_HaltSemaphore _ _ init step haltFD (fun l => match l with Wake => true | _ => false end) ended _ _ _).
  - by intros s ->.
  - intros s Hr. rewrite (i_token s (worker_poller_inv s Hr)). destruct (_ && _); lia.
  - intros s l s' Hr Hs. by apply (worker_poller_step s l s' (worker_poller_inv s Hr)).
Defined.

(** While a wake-up is on its way and [epoll_wait] reports it, the worker is at
    most six moves from the end of [halt]. *)
Lemma woken_ends s : inv s -> haltFD s = 1 -> exists n s', (n <= 6)%nat /\ run step (replicate n (Move true)) s = Some s' /\ pc s' = Run.
Proof.
  intros [Hok Ht Hsn Hl Hy Hp] H1. destruct s as [fd sy p ls ab]. cbn in *. rewrite H1 in Ht |- *. clear H1.
  assert (Hpoll : forall q sy, match q with Poll => False | _ => True end ->
    exists s', run step (replicate 4 (Move true)) (mkState 1 sy (DoPoll q) ls ab) = Some s' /\ pc s' = Run).
  { intros q y Hq. cbn. unfold notifyAll. cbn. rewrite orb_true_r. destruct q; [done|cbn; by eexists..]. }
  destruct p as [|q|q b|q|q]; cbn in Ht; try done.
  - destruct (Hpoll q sy) as (s' & Hr & Hs'); [by destruct q|]. exists 4%nat, s'. split; [lia|done].
  - destruct (sy || b) eqn:E.
    + exists 3%nat. cbn. unfold notifyAll. cbn. rewrite E. destruct q; [done|cbn; eexists; (split; [lia|done])..].
    + destruct (Hpoll (again q) false) as (s' & Hr & Hs'); [by destruct q as [|i|]; cbn; try destruct (i <=? 62)%nat|].
      exists 6%nat, s'. split; [lia|]. split; [|done]. change 6%nat with (2 + 4)%nat. cbn [Nat.add replicate run]. cbn [step pc notifyAll mbind option_bind]. unfold notifyAll. cbn [sync haltFD listed aborted].
      rewrite E. destruct q; [done|exact Hr..].
  - destruct sy.
    + exists 2%nat. cbn. eexists. split; [lia|done].
    + destruct (Hpoll (again q) false) as (s' & Hr & Hs'); [by destruct q as [|i|]; cbn; try destruct (i <=? 62)%nat|].
      exists 5%nat, s'. split; [lia|]. split; [exact Hr|done].
  - exists 1%nat. cbn. eexists. split; [lia|done].
Qed.

Definition start : state := mkState 0 false Run false false.

(** C38. The poller of a worker keeps the contract of a halt semaphore: no assertion
    fails, the worker has returned from [halt] as often as it was woken or once
    less, and in the latter case it returns within six moves when [epoll_wait]
    reports the event. *)
Theorem worker_poller_halts ls s : run step ls start = Some s ->
  aborted s = false /\ halts init step ls start <= wakeups init step ls <= halts init step ls start + 1 /\
  (wakeups init step ls = halts init step ls start + 1 ->
     exists n s', (n <= 6)%nat /\ run step (replicate n (Move true)) s = Some s' /\ pc s' = Run).
Proof.
  intros Hr. assert (Hs : reachable init step start) by (by apply reach_init). pose proof (run_reachable init step ls _ s Hs Hr) as Hrs.
  pose proof (worker_poller_inv s Hrs) as Hi. split; [apply Hi|]. split; [by apply (halts_match_wakeups init step ls start s)|].
  intros Hw. apply woken_ends; [done|]. pose proof (halts_wakeups init step ls start s Hs Hr) as Ht. cbn in Ht. change (haltFD s = 0 + wakeups init step ls - halts init step ls start) in Ht. lia.
Qed.
Lemma worker_poller_halts_witness :
  exists n s', (n <= 6)%nat /\ run step (replicate n (Move true)) (after step start [Halt; Move false; Wake]) = Some s' /\ pc s' = Run.
Proof.
  destruct (worker_poller_halts [Halt; Move false; Wake] (after step start [Halt; Move false; Wake])) as (_ & _ & H); [reflexivity|].
  apply H. reflexivity.
Defined.
