(* ===== verification/FibreLocals.v ===== *)
(** Fibre-local storage and the stack of a fibre ([src/libfibre/Fibre.h]). *)
From S2P Require Import Prelude Words Bitmaps.

Local Open Scope Z_scope.

(** * [FibreSpecific]

    The keys in use are a bitmap; destructors and values are vectors that grow by
    doubling.  Pointers are numbers, 0 is [nullptr]. *)
Definition FIBRE_KEYS_MAX : Z := 64.
Definition nullptr : Z := 0.

Section FibreSpecific.
Context {bm : Type} `{BitmapLaws FIBRE_KEYS_MAX bm}.

Record keys := mkKeys { bitmap : bm; destructors : list Z }.

(** [std::vector::resize], and the loop that makes room for an index. *)
Definition resize (n : nat) (l : list Z) : list Z := take n l ++ replicate (n - length l) nullptr.
Definition grow (idx : nat) (l : list Z) : option (list Z) :=
  let l1 := if (length l =? 0)%nat then resize 1 l else l in
  while 65 (fun l => (length l <=? idx)%nat) (fun l => resize (length l * 2) l) l1.
Definition make_room (idx : nat) (l : list Z) : option (list Z) :=
  if (length l <=? idx)%nat then grow idx l else Some l.

(** [RASSERT(idx < FIBRE_KEYS_MAX)] and [RASSERT(bitmap.test(idx))] *)
Definition key_ok (idx : Z) (ks : keys) : bool := (idx <? FIBRE_KEYS_MAX) && bm_test (bitmap ks) idx.

Definition setspecific (idx value : Z) (ks : keys) (values : list Z) : option (list Z) :=
  rassert (key_ok idx ks);; l ← make_room (Z.to_nat idx) values; Some (<[Z.to_nat idx := value]> l).
Definition getspecific (idx : Z) (ks : keys) (values : list Z) : option Z :=
  rassert (key_ok idx ks);; Some (if idx <? Z.of_nat (length values) then nth (Z.to_nat idx) values nullptr else nullptr).
Definition key_create (d : Z) (ks : keys) : option (Z * keys) :=
  let idx := bm_find (bitmap ks) false in
  rassert (idx <? FIBRE_KEYS_MAX);;
  l ← make_room (Z.to_nat idx) (destructors ks);
  Some (idx, mkKeys (bm_set (bitmap ks) idx) (<[Z.to_nat idx := d]> l)).
Definition key_delete (idx : Z) (ks : keys) : option keys :=
  rassert (key_ok idx ks);; Some (mkKeys (bm_clr (bitmap ks) idx) (<[Z.to_nat idx := nullptr]> (destructors ks))).

(** The destructor call for one key: the destructor and its argument. *)
Definition destroy_key (idx : Z) (ks : keys) (values : list Z) : list (Z * Z) :=
  let d := nth (Z.to_nat idx) (destructors ks) nullptr in
  let v := nth (Z.to_nat idx) values nullptr in
  if negb (d =? nullptr) && (idx <? Z.of_nat (length values)) && negb (v =? nullptr) then [(d, v)] else [].

(** [clearSpecific()]: the destructor calls, in order; [None] when the fuel runs
    out. *)
Fixpoint clear_loop (fuel : nat) (start idx : Z) (ks : keys) (values : list Z) : option (list (Z * Z)) :=
  match fuel with
  | O => None
  | S fuel' =>
      let calls := destroy_key idx ks values in
      let idx' := bm_findnext (bitmap ks) idx true in
      if start <? idx' then rest ← clear_loop fuel' start idx' ks values; Some (calls ++ rest) else Some calls
  end.
Definition clearSpecific (ks : keys) (values : list Z) : option (list (Z * Z)) :=
  let start := bm_find (bitmap ks) true in
  if FIBRE_KEYS_MAX <=? start then Some [] else clear_loop 65 start start ks values.

(** * Vectors *)
Lemma length_resize n l : (length l <= n)%nat -> length (resize n l) = n.
Proof. intros Hn. unfold resize. rewrite length_app, length_take, length_replicate. lia. Qed.

Lemma nth_resize n l i : (length l <= n)%nat -> nth i (resize n l) nullptr = nth i l nullptr.
Proof.
  intros Hn. unfold resize. rewrite take_ge by done. destruct (decide (i < length l)%nat).
  - by rewrite app_nth1.
  - rewrite app_nth2, (nth_overflow l) by lia. rewrite nth_lookup.
    destruct (_ !! _) as [v|] eqn:E; [apply lookup_replicate in E as [-> _]|]; done.
Qed.

(** Making room ends, keeps the contents, and the new places are null. *)
Lemma make_room_ok idx l : (idx < 64)%nat ->
  exists l', make_room idx l = Some l' /\ (idx < length l')%nat /\ forall i, nth i l' nullptr = nth i l nullptr.
Proof.
  intros Hidx. unfold make_room. destruct (length l <=? idx)%nat eqn:El; bool_prop; [|by exists l].
  unfold grow. set (l1 := if (length l =? 0)%nat then resize 1 l else l).
  destruct (while_ends (fun l => (length l <=? idx)%nat) (fun l => resize (length l * 2) l)
    (fun l' => (0 < length l')%nat /\ forall i, nth i l' nullptr = nth i l nullptr) (fun l => (64 - length l)%nat)) with (fuel := 65%nat) (x := l1)
    as (l' & Hl' & [_ Hn] & Hc).
  - intros x [Hx Hn] Hc. bool_prop. rewrite length_resize by lia. split; [|lia]. split; [lia|].
    intros i. rewrite nth_resize by lia. apply Hn.
  - subst l1. destruct (length l =? 0)%nat eqn:E0; bool_prop; [|split; [lia|done]].
    split; [rewrite length_resize; lia|]. intros i. apply nth_resize. lia.
  - lia.
  - exists l'. bool_prop. split_and!; [done|lia|done].
Qed.

Lemma nth_insert l i j v : (i < length l)%nat ->
  nth j (<[i := v]> l) nullptr = if decide (i = j) then v else nth j l nullptr.
Proof.
  intros Hi. rewrite !nth_lookup. destruct (decide (i = j)) as [->|Hne].
  - by rewrite list_lookup_insert_eq.
  - by rewrite list_lookup_insert_ne.
Qed.

(** A key in use. *)
Definition is_key (idx : Z) (ks : keys) : Prop := 0 <= idx < FIBRE_KEYS_MAX /\ bm_test (bitmap ks) idx = true.

Lemma is_key_ok idx ks : is_key idx ks -> key_ok idx ks = true.
Proof. intros [Hi Ht]. unfold key_ok. rewrite Ht. destruct (Z.ltb_spec idx FIBRE_KEYS_MAX); [done|lia]. Qed.

(** C36. Creating a key takes the lowest free index and keeps the other keys; it fails
    only when all 64 are in use.  A value stored under a key is read back, storing
    changes no other key's value, and a key that was never stored under reads
    null. *)
Theorem specific_roundtrip (ks : keys) (values : list Z) :
  bm_wf (bitmap ks) ->
  (forall d, match key_create d ks with
             | Some (idx, ks') =>
                 0 <= idx < FIBRE_KEYS_MAX /\ bm_test (bitmap ks) idx = false /\
                 (forall j, 0 <= j < idx -> bm_test (bitmap ks) j = true) /\
                 (forall j, 0 <= j < FIBRE_KEYS_MAX -> bm_test (bitmap ks') j = (j =? idx) || bm_test (bitmap ks) j) /\
                 nth (Z.to_nat idx) (destructors ks') nullptr = d
             | None => forall j, 0 <= j < FIBRE_KEYS_MAX -> bm_test (bitmap ks) j = true
             end) /\
  (forall idx v, is_key idx ks ->
     exists values', setspecific idx v ks values = Some values' /\ getspecific idx ks values' = Some v /\
       forall j, is_key j ks -> j <> idx -> getspecific j ks values' = getspecific j ks values) /\
  (forall idx, is_key idx ks -> getspecific idx ks [] = Some nullptr).
Proof.
  intros Hwf. split_and!.
  - intros d. unfold key_create. destruct (bm_find_spec (bitmap ks) false Hwf) as (Hr & Hbelow & Hat).
    set (idx := bm_find (bitmap ks) false) in *. destruct (idx <? FIBRE_KEYS_MAX) eqn:E; bool_prop; cbn [rassert mbind option_bind].
    + destruct (make_room_ok (Z.to_nat idx) (destructors ks)) as (l & -> & Hl & _); [unfold FIBRE_KEYS_MAX in *; lia|].
      cbn [mbind option_bind bitmap destructors]. split_and!; [lia|lia|by apply Hat|intros j Hj; by apply Hbelow| |].
      * intros j Hj. apply bm_test_set; [done|lia|done].
      * rewrite nth_insert by done. by rewrite decide_True.
    + intros j Hj. apply Hbelow. lia.
  - intros idx v Hk. unfold setspecific. rewrite is_key_ok by done. cbn [rassert mbind option_bind].
    destruct Hk as [Hi Ht]. destruct (make_room_ok (Z.to_nat idx) values) as (l & -> & Hl & Hn); [unfold FIBRE_KEYS_MAX in *; lia|].
    cbn [mbind option_bind]. eexists. split; [done|]. unfold getspecific. split.
    + rewrite is_key_ok by done. cbn [rassert mbind option_bind]. rewrite length_insert.
      destruct (Z.ltb_spec idx (Z.of_nat (length l))); [|lia]. rewrite nth_insert by done. by rewrite decide_True.
    + intros j Hj Hne. rewrite is_key_ok by done. cbn [rassert mbind option_bind]. rewrite length_insert.
      destruct Hj as [Hj _]. rewrite nth_insert by done. rewrite decide_False by lia. f_equal. rewrite Hn.
      destruct (Z.ltb_spec j (Z.of_nat (length l))), (Z.ltb_spec j (Z.of_nat (length values))); try done.
      * by rewrite nth_overflow by lia.
      * rewrite <- Hn, nth_overflow by lia. done.
  - intros idx Hk. unfold getspecific. rewrite is_key_ok by done. cbn [rassert mbind option_bind].
    destruct Hk as [Hi _]. destruct (Z.ltb_spec idx (Z.of_nat (length (@nil Z)))); [cbn [length] in *; lia|done].
Qed.

(** [findnext] starts at the index it is given, which is in use, so the loop of
    [clearSpecific] ends after the lowest key: only its destructor is called. *)
Theorem clearSpecific_lowest (ks : keys) (values : list Z) idx :
  bm_wf (bitmap ks) -> is_key idx ks -> (forall j, 0 <= j < idx -> bm_test (bitmap ks) j = false) ->
  clearSpecific ks values = Some (destroy_key idx ks values).
Proof.
  intros Hwf [Hi Ht] Hlow. unfold clearSpecific. destruct (bm_find_spec (bitmap ks) true Hwf) as (Hr & Hbelow & Hat).
  set (start := bm_find (bitmap ks) true) in *.
  assert (start = idx) as ->.
  { destruct (Z.lt_trichotomy start idx) as [Hlt|[|Hgt]]; [|done|].
    - rewrite Hlow in Hat by lia. discriminate Hat. lia.
    - rewrite Hbelow in Ht by lia. discriminate Ht. }
  destruct (Z.leb_spec FIBRE_KEYS_MAX idx); [lia|]. cbn [clear_loop].
  destruct (bm_findnext_spec (bitmap ks) idx true Hwf Hi) as (Hr' & Hbelow' & _).
  set (idx' := bm_findnext (bitmap ks) idx true) in *. destruct (Z.ltb_spec idx idx'); [|done].
  rewrite Hbelow' in Ht by lia. discriminate Ht.
Qed.
End FibreSpecific.
Arguments keys : clear implicits.

(** Two keys with destructors 100 and 101, both with a value. *)
Definition two_keys : keys Bitmap64 := mkKeys (mkBitmap64 3) [100; 101].

Lemma specific_roundtrip_witness :
  bm_wf (B := W) (bitmap two_keys) /\
  exists values', setspecific (bm := Bitmap64) 1 7 two_keys [] = Some values' /\ getspecific 1 two_keys values' = Some 7.
Proof.
  assert (Hwf : bm_wf (B := W) (bitmap two_keys)) by (apply b64_wf; lia). split; [exact Hwf|].
  destruct (specific_roundtrip (bm := Bitmap64) two_keys [] Hwf) as (_ & H & _).
  destruct (H 1 7) as (values' & H1 & H2 & _); [split; [unfold FIBRE_KEYS_MAX; lia|reflexivity]|]. by exists values'.
Defined.

Lemma clearSpecific_lowest_witness :
  clearSpecific (bm := Bitmap64) two_keys [7; 8] = Some [(100, 7)].
Proof.
  apply (clearSpecific_lowest (bm := Bitmap64) two_keys [7; 8] 0).
  - apply b64_wf. lia.
  - split; [unfold FIBRE_KEYS_MAX; lia|reflexivity].
  - intros j Hj. lia.
Defined.

(** A key that is deleted and created again keeps the value that a fibre had
    stored under the old key. *)
Theorem key_reuse_stale :
  let ks := mkKeys (mkBitmap64 1) [0] in
  (values ← setspecific (bm := Bitmap64) 0 7 ks [];
   ks1 ← key_delete 0 ks;
   '(idx, ks2) ← key_create (bm := Bitmap64) 0 ks1;
   v ← getspecific (bm := Bitmap64) idx ks2 values;
   Some (idx, v)) = Some (0, 7).
Proof. reflexivity. Qed.

(** * The stack of a fibre *)
Record Fibre := mkFibre { stackSize : Z; stackBottom : Z; stackPointer : Z }.

(** [Fred::initStackPointer(sp)] *)
Definition stackAlignment : Z := 16.
Definition initStackPointer (sp : Z) : Z := align_down W sp stackAlignment.

(** [stackAlloc(size, guard)]; [mmap] gives the address, 0 stands for
    [MAP_FAILED]. *)
Definition stackAlloc (pagesize : Z) (mmap : Z -> Z) (size guard : Z) : option Fibre :=
  rassert (aligned W size pagesize);; rassert (aligned W guard pagesize);;
  let total := wrap W (size + guard) in
  let ptr := mmap total in
  rassert (negb (ptr =? 0));;
  Some (mkFibre total ptr (initStackPointer (wrap W (ptr + total)))).

(** The part of the stack that is not protected. *)
Definition usable (guard : Z) (f : Fibre) : Z * Z := (stackBottom f + guard, stackPointer f).
(** [stackFree()]: the range that is unmapped, if any. *)
Definition stackFree (f : Fibre) : option (Z * Z) := if stackSize f =? 0 then None else Some (stackBottom f, stackSize f).

(** When sizes are multiples of the page size (a multiple of the stack alignment) and
    the mapping, which [mmap] aligns to a page, does not wrap
    around, the fibre has exactly the requested size above the guard, the initial
    stack pointer is the end of the mapping, and [stackFree] unmaps exactly what
    was mapped. *)
Lemma stackAlloc_ok p mmap size guard :
  4 <= p < W -> 0 < size -> 0 <= guard -> size mod 2 ^ p = 0 -> guard mod 2 ^ p = 0 ->
  0 < mmap (size + guard) -> mmap (size + guard) mod 2 ^ p = 0 -> mmap (size + guard) + (size + guard) < 2 ^ W ->
  exists f, stackAlloc (2 ^ p) mmap size guard = Some f /\
    snd (usable guard f) - fst (usable guard f) = size /\ stackFree f = Some (mmap (size + guard), size + guard).
Proof.
  intros Hp Hs Hg Hsp Hgp Hm Hmp Hw. unfold stackAlloc.
  rewrite !aligned_spec, Hsp, Hgp by (try done; split; lia). cbn [Z.eqb rassert mbind option_bind].
  rewrite !(wrap_small W (size + guard)) by (split; lia). rewrite (wrap_small W (mmap _ + _)) by (split; lia).
  destruct (Z.eqb_spec (mmap (size + guard)) 0); [lia|]. cbn [negb rassert mbind option_bind].
  eexists. split; [done|]. unfold initStackPointer. change stackAlignment with (2 ^ 4).
  rewrite align_down_spec by (try done; split; lia).
  assert ((mmap (size + guard) + (size + guard)) mod 2 ^ 4 = 0) as ->.
  { apply Z.mod_divide; [lia|]. apply (Z.divide_trans _ (2 ^ p)); [exists (2 ^ (p - 4)); rewrite <- Z.pow_add_r by lia; f_equal; lia|].
    repeat apply Z.divide_add_r; apply Z.mod_divide; try done; lia. }
  unfold usable, stackFree. cbn [stackBottom stackPointer stackSize fst snd].
  destruct (Z.eqb_spec (size + guard) 0); [lia|]. split; [lia|done].
Qed.
