(* ===== verification/Clusters.v ===== *)
(** Clusters of workers and their stop-the-world pause ([src/libfibre/Cluster.h],
    [src/libfibre/Cluster.cc]). *)
From S2P Require Import Prelude.

Local Open Scope Z_scope.

(** * State

    Workers are numbered in the order of their creation.  At most one pause fibre
    exists for a worker at a time, and it is named after that worker. *)

(** What a worker executes: not yet started, application fibres or its idle
    loop, or a pause fibre before [pauseConfirmSem.V()] or in [pauseSem.P()],
    which stops the whole thread. *)
Inductive wpc := Boot | Free | Confirm (v : nat) | Halted (v : nat).

(** A pause fibre: none, in a ready queue, picked by a worker, or terminated. *)
Inductive fpc := FNone | FReady | FRun | FDone.
#[export] Instance fpc_dec : EqDecision fpc.
Proof. solve_decision. Defined.

(** The calls [pause()] and [resume()], which hold [ringLock]: creating the pause
    fibre for [proc]; [k] times [pauseConfirmSem.P()] left; between the two calls;
    [k] times [pauseSem.V()] left; fibres left to delete.  [c] is the worker of
    the caller. *)
Inductive phase :=
| Unlocked
| Creating (c proc : nat)
| Confirming (c k : nat)
| Paused (c : nat)
| Resuming (c k : nat)
| Joining (l : list nat)
| Failed.

Record state := mkState {
  ring : list nat;          (* the processors, from [placeProc] on *)
  workers : list wpc;
  fibres : list fpc;
  pauseFibres : list nat;
  pauseConfirmSem : Z;
  pauseSem : Z;
  at_ : phase }.

Definition set_at (p : phase) (s : state) : state :=
  mkState (ring s) (workers s) (fibres s) (pauseFibres s) (pauseConfirmSem s) (pauseSem s) p.
Definition set_worker (w : nat) (c : wpc) (s : state) : state :=
  mkState (ring s) (<[w := c]> (workers s)) (fibres s) (pauseFibres s) (pauseConfirmSem s) (pauseSem s) (at_ s).
Definition set_fibre (v : nat) (f : fpc) (s : state) : state :=
  mkState (ring s) (workers s) (<[v := f]> (fibres s)) (pauseFibres s) (pauseConfirmSem s) (pauseSem s) (at_ s).
Definition set_fibres (l : list nat) (s : state) : state :=
  mkState (ring s) (workers s) (fibres s) l (pauseConfirmSem s) (pauseSem s) (at_ s).
Definition set_ring (r : list nat) (s : state) : state :=
  mkState r (workers s) (fibres s) (pauseFibres s) (pauseConfirmSem s) (pauseSem s) (at_ s).
Definition add_sems (dc dp : Z) (s : state) : state :=
  mkState (ring s) (workers s) (fibres s) (pauseFibres s) (pauseConfirmSem s + dc) (pauseSem s + dp) (at_ s).

(** [ProcessorRing::next] *)
Fixpoint succ_in (p : nat) (l : list nat) : option nat :=
  match l with
  | x :: (y :: _) as t => if decide (x = p) then Some y else succ_in p t
  | _ => None
  end.
Definition next (s : state) (p : nat) : option nat := place ← head (ring s); succ_in p (ring s ++ [place]).

(** * Steps *)
Inductive label :=
| AddWorker | Start (w : nat) | Placement
| App (w : nat)             (* an application fibre executes on [w] *)
| Pick (w v : nat)          (* [w] takes the pause fibre of [v], its own or a stolen one *)
| Go (w : nat)              (* the pause fibre on [w] goes on *)
| Pause (c : nat) | Resume | Caller.

(** The worker that executes [pause()] is not free to schedule. *)
Definition calling (w : nat) (p : phase) : bool :=
  match p with
  | Creating c _ | Confirming c _ => bool_decide (w = c)
  | _ => false
  end.

(** One iteration of the first loop of [pause()]. *)
Definition create (c proc : nat) (s : state) : option state :=
  let s1 := if decide (proc = c) then s else set_fibres (pauseFibres s ++ [proc]) (set_fibre proc FReady s) in
  proc' ← next s proc;
  if decide (Some proc' = head (ring s)) then
    if (length (pauseFibres s1) =? length (ring s) - 1)%nat
    then Some (set_at (Confirming c (length (ring s) - 1)) s1) else Some (set_at Failed s1)
  else Some (set_at (Creating c proc') s1).

Definition caller (s : state) : option state :=
  match at_ s with
  | Creating c proc => create c proc s
  | Confirming c (S k) => if 0 <? pauseConfirmSem s then Some (set_at (Confirming c k) (add_sems (-1) 0 s)) else None
  | Confirming c O => Some (set_at (Paused c) s)
  | Resuming c (S k) => Some (set_at (Resuming c k) (add_sems 0 1 s))
  | Resuming c O => Some (set_at (Joining (pauseFibres s)) s)
  | Joining (v :: l) =>
      match fibres s !! v with Some FDone => Some (set_at (Joining l) (set_fibre v FNone s)) | _ => None end
  | Joining [] => Some (set_at Unlocked (set_fibres [] s))
  | Unlocked | Paused _ | Failed => None
  end.

(** [pauseOperation(cl)] on worker [w] *)
Definition pauseOperation (w : nat) (s : state) : option state :=
  match workers s !! w with
  | Some (Confirm v) => Some (add_sems 1 0 (set_worker w (Halted v) s))
  | Some (Halted v) =>
      if 0 <? pauseSem s then Some (add_sems 0 (-1) (set_fibre v FDone (set_worker w Free s))) else None
  | _ => None
  end.

Definition step (l : label) (s : state) : option state :=
  match l with
  | AddWorker =>
      match at_ s with
      | Unlocked =>
          let w := length (workers s) in
          Some (mkState (match ring s with [] => [w] | p :: t => p :: w :: t end) (workers s ++ [Boot]) (fibres s ++ [FNone])
                 (pauseFibres s) (pauseConfirmSem s) (pauseSem s) (at_ s))
      | _ => None
      end
  | Start w => match workers s !! w with Some Boot => Some (set_worker w Free s) | _ => None end
  | Placement => match at_ s, ring s with Unlocked, p :: t => Some (set_ring (t ++ [p]) s) | _, _ => None end
  | App w => match workers s !! w with Some Free => if calling w (at_ s) then None else Some s | _ => None end
  | Pick w v =>
      match workers s !! w, fibres s !! v with
      | Some Free, Some FReady => if calling w (at_ s) then None else Some (set_fibre v FRun (set_worker w (Confirm v) s))
      | _, _ => None
      end
  | Go w => pauseOperation w s
  | Pause c =>
      match at_ s, workers s !! c, ring s with
      | Unlocked, Some Free, place :: _ => Some (set_at (Creating c place) s)
      | _, _, _ => None
      end
  | Resume => match at_ s with Paused c => Some (set_at (Resuming c (length (ring s) - 1)) s) | _ => None end
  | Caller => caller s
  end.

(** An empty cluster. *)
Definition init (s : state) : Prop := s = mkState [] [] [] [] 0 0 Unlocked.

(** [getWorkerSysIDs(tids, cnt)]: the ids that are stored, and the result. *)
Fixpoint sysid_loop (fuel cnt i : nat) (p : nat) (sysThreadId : nat -> Z) (s : state) : option (list Z) :=
  match fuel with
  | O => None
  | S fuel' =>
      if (i <? cnt)%nat && (i <? length (ring s))%nat then
        p' ← next s p; rest ← sysid_loop fuel' cnt (S i) p' sysThreadId s; Some (sysThreadId p :: rest)
      else Some []
  end.
Definition getWorkerSysIDs (cnt : nat) (sysThreadId : nat -> Z) (s : state) : option (list Z * nat) :=
  tids ← (match head (ring s) with
          | Some place => sysid_loop (S cnt) cnt 0 place sysThreadId s
          | None => Some []
          end);
  Some (tids, length (ring s)).

(** * Invariant *)
Definition is_ready (f : fpc) : bool := match f with FReady => true | _ => false end.
Definition is_run (f : fpc) : bool := match f with FRun => true | _ => false end.
Definition is_done (f : fpc) : bool := match f with FDone => true | _ => false end.
Definition confirming (c : wpc) : bool := match c with Confirm _ => true | _ => false end.
Definition halted (c : wpc) : bool := match c with Halted _ => true | _ => false end.
Definition holds (v : nat) (c : wpc) : bool :=
  match c with Confirm v' | Halted v' => bool_decide (v' = v) | _ => false end.

(** The pause fibres that exist, and their numbers. *)
Definition existing (s : state) : list nat :=
  match at_ s with Joining l => l | _ => pauseFibres s end.
Definition nready (s : state) : Z := cnt is_ready (fibres s).
Definition ndone (s : state) : Z := cnt is_done (fibres s).
Definition nconfirm (s : state) : Z := cnt confirming (workers s).
Definition nhalted (s : state) : Z := cnt halted (workers s).
Definition others (s : state) : Z := Z.of_nat (length (ring s)) - 1.

(** What each phase says about the two semaphores. *)
Definition phase_ok (s : state) : Prop :=
  let H := nhalted s in let D := ndone s in
  match at_ s with
  | Unlocked => pauseFibres s = [] /\ pauseConfirmSem s = 0 /\ pauseSem s = 0
  | Creating c proc =>
      workers s !! c = Some Free /\ D = 0 /\ pauseSem s = 0 /\ pauseConfirmSem s = H /\
      exists l1 l2, ring s = l1 ++ proc :: l2 /\ pauseFibres s = base.filter (fun v => v <> c) l1
  | Confirming c k =>
      workers s !! c = Some Free /\ D = 0 /\ pauseSem s = 0 /\ Z.of_nat (length (pauseFibres s)) = others s /\
      Z.of_nat k <= others s /\ pauseConfirmSem s + (others s - Z.of_nat k) = H /\ 0 <= pauseConfirmSem s
  | Paused c =>
      workers s !! c = Some Free /\ Z.of_nat (length (pauseFibres s)) = others s /\ H = others s /\
      pauseConfirmSem s = 0 /\ pauseSem s = 0
  | Resuming c k =>
      Z.of_nat (length (pauseFibres s)) = others s /\ H + D = others s /\ pauseConfirmSem s = 0 /\ Z.of_nat k <= others s /\
      pauseSem s + D = others s - Z.of_nat k /\ 0 <= pauseSem s
  | Joining l => H + D = Z.of_nat (length l) /\ pauseConfirmSem s = 0 /\ pauseSem s = H
  | Failed => False
  end.

Record inv (s : state) : Prop := mkInv {
  i_ring : ring s ≡ₚ seq 0 (length (workers s));
  i_len : length (fibres s) = length (workers s);
  i_nodup : NoDup (existing s);
  i_exist : forall v, v ∈ existing s <-> exists f, fibres s !! v = Some f /\ f <> FNone;
  i_holds : forall v, cnt (holds v) (workers s) = Z.b2z (match fibres s !! v with Some FRun => true | _ => false end);
  i_total : nready s + nconfirm s + nhalted s + ndone s = Z.of_nat (length (existing s));
  i_phase : phase_ok s }.

Lemma nonneg s : 0 <= nready s /\ 0 <= nconfirm s /\ 0 <= nhalted s /\ 0 <= ndone s.
Proof. split_and!; apply cnt_nonneg. Qed.

Lemma cluster_init_inv s : init s -> inv s.
Proof.
  intros ->. split; try done; cbn.
  - apply NoDup_nil_2.
  - intros v. rewrite lookup_nil. split; [by intros ?%elem_of_nil|by intros (f & ? & _)].
Qed.

(** A worker that is not executing [pause()] moves, and so does one fibre. *)
Lemma worker_fibre_step s w c c' v f f' dc dp :
  inv s -> workers s !! w = Some c -> calling w (at_ s) = false ->
  fibres s !! v = Some f -> f <> FNone -> f' <> FNone ->
  (forall u, Z.b2z (holds u c') - Z.b2z (holds u c) = if decide (u = v) then Z.b2z (is_run f') - Z.b2z (is_run f) else 0) ->
  let s' := add_sems dc dp (set_fibre v f' (set_worker w c' s)) in
  nready s' + nconfirm s' + nhalted s' + ndone s' = nready s + nconfirm s + nhalted s + ndone s ->
  phase_ok s' -> inv s'.
Proof.
  intros Hi Hw Hc Hv Hf Hf' Hh s' Ht Hp.
  assert (Hex : existing s' = existing s) by done.
  split; rewrite ?Hex; cbn [ring workers fibres s' add_sems set_fibre set_worker].
  - rewrite length_insert. apply Hi.
  - rewrite !length_insert. apply Hi.
  - apply Hi.
  - intros u. rewrite (i_exist s Hi). destruct (decide (u = v)) as [->|Hne].
    + rewrite list_lookup_insert_eq by (by eapply lookup_lt_Some). split; intros _; eauto.
    + by rewrite list_lookup_insert_ne.
  - intros u. rewrite (cnt_insert _ _ _ _ _ Hw). pose proof (i_holds s Hi u) as Hu. specialize (Hh u).
    destruct (decide (u = v)) as [->|Hne].
    + rewrite list_lookup_insert_eq by (by eapply lookup_lt_Some). rewrite Hv in Hu.
      destruct f, f'; cbn in *; lia.
    + rewrite list_lookup_insert_ne by done. lia.
  - rewrite Ht. apply Hi.
  - done.
Qed.

Ltac counts :=
  unfold nready, nconfirm, nhalted, ndone in *; cbn [fibres workers add_sems set_fibre set_worker set_at set_fibres] in *;
  repeat match goal with
  | H : ?l !! ?i = Some ?x |- context [cnt ?f (<[?i := ?y]> ?l)] => rewrite (cnt_insert f l i x y H)
  end; cbn [is_ready is_run is_done confirming halted Z.b2z].

Lemma some_counted s : inv s ->
  (forall w v, workers s !! w = Some (Confirm v) -> 1 <= nconfirm s) /\
  (forall w v, workers s !! w = Some (Halted v) -> 1 <= nhalted s) /\
  (forall v, fibres s !! v = Some FReady -> 1 <= nready s).
Proof. intros _. split_and!; intros; by eapply cnt_lookup. Qed.

(** The fibre of a worker's pause operation is running. *)
Lemma held_runs s w c v : inv s -> workers s !! w = Some c -> holds v c = true -> fibres s !! v = Some FRun.
Proof.
  intros Hi Hw Hh. pose proof (cnt_lookup _ _ _ _ Hw Hh) as H1. rewrite (i_holds s Hi v) in H1.
  by destruct (fibres s !! v) as [[]|].
Qed.

Lemma still_free s w x c : workers s !! w <> Some Free -> workers s !! c = Some Free -> <[w := x]> (workers s) !! c = Some Free.
Proof. intros Hw Hc. rewrite list_lookup_insert_ne; [done|]. intros ->. done. Qed.

Lemma cluster_start_ok s w : inv s -> workers s !! w = Some Boot -> inv (set_worker w Free s).
Proof.
  intros Hi Hw. assert (Hph : phase_ok (set_worker w Free s)).
  { pose proof (i_phase s Hi) as Hp. unfold phase_ok in *. cbn [at_ set_worker]. destruct (at_ s); try done; counts;
      rewrite ?Z.sub_0_r, ?Z.add_0_r in *; cbn; try done;
      (split; [apply still_free; [by rewrite Hw|apply Hp]|apply Hp]). }
  pose proof (i_total s Hi) as Ht. destruct Hi. split; cbn; try done.
  - by rewrite length_insert.
  - by rewrite length_insert.
  - intros v. rewrite (cnt_insert _ _ _ _ _ Hw). cbn. rewrite <- i_holds0. lia.
  - revert Ht. counts. intros Ht. unfold existing in *. cbn. lia.
Qed.

Lemma pick_fibre_ok s w v : inv s -> workers s !! w = Some Free -> fibres s !! v = Some FReady -> calling w (at_ s) = false ->
  inv (set_fibre v FRun (set_worker w (Confirm v) s)).
Proof.
  intros Hi Hw Hv Hc. destruct (some_counted s Hi) as (_ & _ & Hr). specialize (Hr v Hv).
  assert (inv (add_sems 0 0 (set_fibre v FRun (set_worker w (Confirm v) s)))) as H.
  { apply (worker_fibre_step s w Free (Confirm v) v FReady FRun); try done.
    - intros u. cbn. repeat case_decide; simplify_eq; try done; rewrite ?bool_decide_true, ?bool_decide_false by done; done.
    - counts. lia.
    - pose proof (i_phase s Hi) as Hp. pose proof (i_total s Hi) as Ht. pose proof (nonneg s) as Hn.
      unfold phase_ok, existing in *. cbn [at_ add_sems set_fibre set_worker]. destruct (at_ s) eqn:E; try done; counts;
        rewrite ?Z.sub_0_r, ?Z.add_0_r in *; cbn [ring pauseFibres pauseSem pauseConfirmSem add_sems set_fibre set_worker];
        rewrite ?Z.add_0_r; try done; try (split; [|apply Hp]).
      + rewrite list_lookup_insert_ne; [apply Hp|]. intros ->. cbn in Hc. by rewrite bool_decide_true in Hc.
      + rewrite list_lookup_insert_ne; [apply Hp|]. intros ->. cbn in Hc. by rewrite bool_decide_true in Hc.
      + exfalso. unfold others in *. destruct Hp as (_ & ? & ? & _). cbn in *. lia. }
  by destruct s; unfold add_sems in H; cbn in H; rewrite !Z.add_0_r in H.
Qed.

Lemma set_fibre_id v f s : fibres s !! v = Some f -> set_fibre v f s = s.
Proof. intros H. destruct s. unfold set_fibre. cbn in *. by rewrite list_insert_id. Qed.

Lemma not_calling s w : inv s -> workers s !! w <> Some Free -> calling w (at_ s) = false.
Proof.
  intros Hi Hw. pose proof (i_phase s Hi) as Hp. unfold phase_ok in Hp. destruct (at_ s); try done; cbn;
    apply bool_decide_false; intros ->; by apply Hw, Hp.
Qed.

Lemma pauseOperation_ok s w s' : inv s -> pauseOperation w s = Some s' -> inv s'.
Proof.
  intros Hi. unfold pauseOperation. destruct (workers s !! w) as [[| |v|v]|] eqn:Hw; try done.
  - intros [= <-]. destruct (some_counted s Hi) as (H1 & _). specialize (H1 w v Hw).
    assert (Hv : fibres s !! v = Some FRun) by (eapply held_runs; [done..|]; cbn; by apply bool_decide_true).
    rewrite <- (set_fibre_id v FRun (set_worker w (Halted v) s)) by done.
    apply (worker_fibre_step s w (Confirm v) (Halted v) v FRun FRun); try done.
    + by apply not_calling; [|rewrite Hw].
    + intros u. cbn. case_decide; lia.
    + counts. lia.
    + pose proof (i_phase s Hi) as Hp. pose proof (i_total s Hi) as Ht. pose proof (nonneg s) as Hn.
      unfold phase_ok, existing, others in *. cbn [at_ add_sems set_fibre set_worker]. destruct (at_ s) eqn:E; try done; counts;
        cbn [ring pauseFibres pauseSem pauseConfirmSem add_sems set_fibre set_worker]; destruct_and?; cbn [is_done length Z.b2z] in *;
        split_and?; try (apply still_free; [by rewrite Hw|done]); try done; try lia.
      all: destruct (pauseFibres s); [cbn in Ht; lia|done].
  - destruct (0 <? pauseSem s) eqn:E; [|done]. intros [= <-]. bool_prop.
    assert (Hv : fibres s !! v = Some FRun) by (eapply held_runs; [done..|]; cbn; by apply bool_decide_true).
    destruct (some_counted s Hi) as (_ & H1 & _). specialize (H1 w v Hw).
    apply (worker_fibre_step s w (Halted v) Free v FRun FDone); try done.
    + by apply not_calling; [|rewrite Hw].
    + intros u. cbn. case_decide; [by rewrite bool_decide_true|by rewrite bool_decide_false].
    + counts. lia.
    + pose proof (i_phase s Hi) as Hp. pose proof (i_total s Hi) as Ht. pose proof (nonneg s) as Hn.
      unfold phase_ok, existing, others in *. cbn [at_ add_sems set_fibre set_worker]. destruct (at_ s) eqn:E'; try done; counts;
        cbn [ring pauseFibres pauseSem pauseConfirmSem add_sems set_fibre set_worker]; destruct_and?; cbn [is_done length Z.b2z] in *;
        split_and?; try done; try lia.
Qed.

(** * The walk around the ring *)
Lemma succ_in_app l1 p y t : p ∉ l1 -> succ_in p (l1 ++ p :: y :: t) = Some y.
Proof.
  induction l1 as [|x l1 IH]; intros Hp; cbn.
  - by rewrite decide_True.
  - apply not_elem_of_cons in Hp as [Hne Hp]. specialize (IH Hp).
    destruct (l1 ++ p :: y :: t) as [|z u] eqn:E; [by destruct l1|]. rewrite decide_False by done. exact IH.
Qed.

Lemma ring_walk_next s l1 p l2 : NoDup (ring s) -> ring s = l1 ++ p :: l2 ->
  next s p = Some (match l2 with y :: _ => y | [] => match l1 with x :: _ => x | [] => p end end).
Proof.
  intros Hnd Hr. unfold next. rewrite Hr in *.
  assert (Hp : p ∉ l1) by (apply NoDup_app in Hnd as (_ & Hd & _); intros Hin; apply (Hd p Hin); by left).
  destruct l2 as [|y l2].
  - destruct l1 as [|x l1]; cbn [app head mbind option_bind]; [cbn; by rewrite decide_True|].
    rewrite !app_comm_cons, <- app_assoc. by apply (succ_in_app (x :: l1)).
  - destruct l1 as [|x l1]; cbn [app head mbind option_bind]; [by apply (succ_in_app [])|].
    rewrite !app_comm_cons, <- app_assoc. by apply (succ_in_app (x :: l1)).
Qed.

Lemma ring_nodup s : inv s -> NoDup (ring s).
Proof. intros Hi. rewrite (i_ring s Hi). apply NoDup_seq. Qed.

Lemma in_ring s w : inv s -> w ∈ ring s <-> is_Some (workers s !! w).
Proof.
  intros Hi. rewrite (i_ring s Hi), elem_of_seq, lookup_lt_is_Some. lia.
Qed.

(** A new pause fibre, or none for the caller's own worker. *)
Lemma create_inv s c proc s1 l1 l2 :
  inv s -> at_ s = Creating c proc -> ring s = l1 ++ proc :: l2 -> pauseFibres s = base.filter (fun v => v <> c) l1 ->
  s1 = (if decide (proc = c) then s else set_fibres (pauseFibres s ++ [proc]) (set_fibre proc FReady s)) ->
  pauseFibres s1 = base.filter (fun v => v <> c) (l1 ++ [proc]) /\
  forall p, phase_ok (set_at p s1) -> existing (set_at p s1) = pauseFibres s1 -> inv (set_at p s1).
Proof.
  intros Hi Hat Hr Hpf ->. assert (Hex : existing s = pauseFibres s) by (unfold existing; by rewrite Hat).
  case_decide as Hc.
  - split.
    + rewrite Hpf, filter_app. subst. rewrite (filter_none _ [c]); [by rewrite app_nil_r|].
      intros x Hx. set_solver.
    + intros p Hp Hep. destruct Hi. split; rewrite ?Hep, <- ?Hex; done.
  - split.
    + cbn [pauseFibres set_fibres]. by rewrite Hpf, filter_app, (filter_all _ [proc]) by (intros x Hx; set_solver).
    + intros p Hp Hep.
      assert (Hin : is_Some (workers s !! proc)) by (apply in_ring; [done|]; rewrite Hr; set_solver).
      assert (Hno : proc ∉ pauseFibres s).
      { rewrite Hpf. intros [_ Hx]%list_elem_of_filter. pose proof (ring_nodup s Hi) as Hnd. rewrite Hr in Hnd.
        apply NoDup_app in Hnd as (_ & Hd & _). apply (Hd proc Hx). by left. }
      destruct (fibres s !! proc) as [f|] eqn:Hf; [|apply lookup_ge_None in Hf; rewrite (i_len s Hi) in Hf; apply lookup_lt_is_Some in Hin; lia].
      assert (f = FNone) as ->.
      { destruct (decide (f = FNone)) as [|Hne]; [done|]. destruct Hno. rewrite <- Hex. apply (i_exist s Hi). eauto. }
      pose proof (lookup_lt_Some _ _ _ Hf). split; rewrite ?Hep; cbn [ring workers fibres pauseFibres set_at set_fibres set_fibre].
      * apply Hi.
      * rewrite length_insert. apply Hi.
      * apply NoDup_app. split_and!; [rewrite <- Hex; apply Hi| |apply NoDup_singleton].
        intros x Hx Hx2. set_solver.
      * intros u. rewrite elem_of_app, list_elem_of_singleton, <- Hex, (i_exist s Hi). destruct (decide (u = proc)) as [->|Hne].
        { rewrite list_lookup_insert_eq by done. split; [eauto|by right]. }
        rewrite list_lookup_insert_ne by done. naive_solver.
      * intros u. rewrite (i_holds s Hi). destruct (decide (u = proc)) as [->|Hne]; [|by rewrite list_lookup_insert_ne].
        rewrite list_lookup_insert_eq by done. by rewrite Hf.
      * pose proof (i_total s Hi) as Ht. revert Ht. rewrite Hex, length_app. counts. cbn [length]. lia.
      * done.
Qed.

Lemma create_ok s c proc s' : inv s -> at_ s = Creating c proc -> create c proc s = Some s' -> inv s'.
Proof.
  intros Hi Hat. pose proof (i_phase s Hi) as Hp. unfold phase_ok in Hp. rewrite Hat in Hp.
  destruct Hp as (Hw & HD & HP & HC & l1 & l2 & Hr & Hpf). pose proof (ring_nodup s Hi) as Hnd.
  unfold create. rewrite (ring_walk_next s l1 proc l2 Hnd Hr). cbn [mbind option_bind].
  set (s1 := if decide (proc = c) then _ else _).
  destruct (create_inv s c proc s1 l1 l2 Hi Hat Hr Hpf eq_refl) as [Hpf1 Hinv].
  assert (Hsame : workers s1 = workers s /\ ring s1 = ring s /\ pauseConfirmSem s1 = pauseConfirmSem s /\
    pauseSem s1 = pauseSem s /\ ndone s1 = ndone s).
  { subst s1. case_decide; [done|]. split_and!; try done. unfold ndone. cbn.
    destruct (fibres s !! proc) as [f|] eqn:Hf; [|rewrite list_insert_ge; [done|by apply lookup_ge_None]].
    rewrite (cnt_insert _ _ _ _ _ Hf). pose proof (cnt_member is_done _ _ _ Hf). unfold ndone in HD. destruct f; cbn in *; lia. }
  destruct Hsame as (E1 & E2 & E3 & E4 & E5).
  destruct l2 as [|y l2].
  - rewrite decide_True by (rewrite Hr; by destruct l1). rewrite <- Hr in Hpf1.
    assert (Hlen : S (length (pauseFibres s1)) = length (ring s)).
    { rewrite Hpf1. apply length_filter_out; [done|]. apply in_ring; [done|]. by rewrite Hw. }
    destruct (Nat.eqb_spec (length (pauseFibres s1)) (length (ring s) - 1)) as [Hn|Hn]; [|lia]. intros [= <-].
    apply Hinv; [|done]. unfold phase_ok. cbn [at_ set_at workers pauseSem pauseFibres pauseConfirmSem]. rewrite E1, E3, E4.
    unfold others, nhalted, ndone in *. cbn [ring set_at workers fibres]. rewrite E1, E2, E5. split_and!; try done; try lia.
    rewrite HC. apply cnt_nonneg.
  - rewrite decide_False.
    2:{ rewrite Hr in *. intros H. destruct l1 as [|x l1]; cbn in H; simplify_eq; apply NoDup_cons in Hnd as [Hnd _]; set_solver. }
    intros [= <-]. apply Hinv; [|done]. unfold phase_ok. cbn [at_ set_at workers pauseSem pauseFibres pauseConfirmSem].
    rewrite E1, E3, E4. unfold nhalted, ndone in *. cbn [ring set_at workers fibres]. rewrite E1, E2, E5. split_and!; try done.
    exists (l1 ++ [proc]), l2. by rewrite <- app_assoc.
Qed.

Lemma set_at_ok p dc dp s : inv s -> existing (set_at p s) = existing s -> phase_ok (set_at p (add_sems dc dp s)) ->
  inv (set_at p (add_sems dc dp s)).
Proof.
  intros Hi Hex Hp. assert (Hex' : existing (set_at p (add_sems dc dp s)) = existing s) by exact Hex.
  destruct Hi. split; rewrite ?Hex'; done.
Qed.

Lemma set_at_0 p s : set_at p s = set_at p (add_sems 0 0 s).
Proof. destruct s. unfold set_at, add_sems. cbn. by rewrite !Z.add_0_r. Qed.

Lemma join_ok s v l : inv s -> at_ s = Joining (v :: l) -> fibres s !! v = Some FDone -> inv (set_at (Joining l) (set_fibre v FNone s)).
Proof.
  intros Hi Hat Hv. pose proof (i_phase s Hi) as Hp. pose proof (i_total s Hi) as Ht. pose proof (i_nodup s Hi) as Hnd.
  pose proof (i_exist s Hi) as Hex. unfold existing, phase_ok in *. rewrite Hat in *. apply NoDup_cons in Hnd as [Hvl Hnd].
  pose proof (lookup_lt_Some _ _ _ Hv).
  split; unfold existing, phase_ok; cbn [at_ set_at set_fibre ring workers fibres pauseFibres pauseSem pauseConfirmSem]; try done.
  - apply Hi.
  - rewrite length_insert. apply Hi.
  - intros u. destruct (decide (u = v)) as [->|Hne].
    + rewrite list_lookup_insert_eq by done. split; [done|]. intros (f & [= <-] & ?). done.
    + rewrite list_lookup_insert_ne by done. rewrite <- Hex. rewrite elem_of_cons. naive_solver.
  - intros u. rewrite (i_holds s Hi). destruct (decide (u = v)) as [->|Hne]; [|by rewrite list_lookup_insert_ne].
    rewrite list_lookup_insert_eq by done. by rewrite Hv.
  - revert Ht. cbn [length]. counts. lia.
  - counts. cbn [length] in *. destruct_and!. split_and!; try done; lia.
Qed.

Lemma caller_ok s s' : inv s -> caller s = Some s' -> inv s'.
Proof.
  intros Hi. unfold caller. pose proof (i_phase s Hi) as Hp. pose proof (i_total s Hi) as Ht.
  pose proof (nonneg s) as Hn. unfold phase_ok, others, existing in *. destruct (at_ s) as [|c proc|c [|k]|c|c [|k]|[|v l]|] eqn:Hat; try done.
  - by apply create_ok.
  - intros [= <-]. rewrite set_at_0. apply set_at_ok; [done|by unfold existing; rewrite Hat|]. unfold phase_ok, others; counts; cbn; destruct_and!; split_and!; try done; lia.
  - destruct (0 <? _) eqn:E; [|done]. intros [= <-]. bool_prop. apply set_at_ok; [done|by unfold existing; rewrite Hat|].
    unfold phase_ok, others; counts; cbn; destruct_and!; split_and!; try done; lia.
  - intros [= <-]. rewrite set_at_0. apply set_at_ok; [done|by unfold existing; rewrite Hat|]. unfold phase_ok, others; counts; cbn; destruct_and!; split_and!; try done; lia.
  - intros [= <-]. apply set_at_ok; [done|by unfold existing; rewrite Hat|].
    unfold phase_ok, others; counts; cbn; destruct_and!; split_and!; try done; lia.
  - intros [= <-]. destruct Hi. unfold existing, phase_ok in *. rewrite Hat in *. split; unfold existing, phase_ok; cbn; try done.
    cbn in *. split_and!; [done|lia..].
  - destruct (fibres s !! v) as [[]|] eqn:Hv; try done. intros [= <-]. by apply join_ok.
Qed.

Lemma add_worker_ok s s' : inv s -> step AddWorker s = Some s' -> inv s'.
Proof.
  intros Hi. cbn. destruct (at_ s) eqn:Hat; try done. intros [= <-].
  pose proof (i_phase s Hi) as Hp. pose proof (i_total s Hi) as Ht. pose proof (i_exist s Hi) as Hex.
  unfold phase_ok, existing in *. rewrite Hat in *. destruct Hp as (Hpf & H1 & H2). rewrite Hpf in *.
  assert (Hnone : forall v f, fibres s !! v = Some f -> f = FNone).
  { intros v f Hv. destruct (decide (f = FNone)) as [|Hne]; [done|]. assert (v ∈ @nil nat) as ?%elem_of_nil by (apply Hex; eauto). done. }
  split; unfold existing, phase_ok; cbn; rewrite ?Hpf; try done.
  - rewrite length_app, Nat.add_1_r, seq_S, <- (i_ring s Hi). cbn. destruct (ring s) as [|p t]; [done|].
    cbn. by rewrite (Permutation_cons_append t).
  - rewrite !length_app, (i_len s Hi). done.
  - apply NoDup_nil_2.
  - intros v. rewrite elem_of_nil. split; [done|]. intros (f & Hf & Hne). apply lookup_app_Some in Hf as [Hf|[_ Hf]].
    + by apply Hnone in Hf.
    + apply list_lookup_singleton_Some in Hf as [_ <-]. done.
  - intros v. rewrite cnt_app. cbn. rewrite (i_holds s Hi). rewrite lookup_app.
    destruct (fibres s !! v) as [f|] eqn:Hf; [apply Hnone in Hf; subst; lia|].
    by destruct (v - length (fibres s))%nat.
  - revert Ht. counts. rewrite !cnt_app. cbn. lia.
Qed.

Lemma cluster_step_inv s l s' : inv s -> step l s = Some s' -> inv s'.
Proof.
  intros Hi. destruct l as [|w| |w|w v|w|c| |].
  - by apply add_worker_ok.
  - cbn. destruct (workers s !! w) as [[]|] eqn:E; try done. intros [= <-]. by apply cluster_start_ok.
  - cbn. destruct (at_ s) eqn:Hat; try done. destruct (ring s) as [|p t] eqn:Hr; [done|]. intros [= <-].
    destruct Hi. unfold existing, phase_ok in *. rewrite Hat in *. split; unfold existing, phase_ok; cbn; rewrite ?Hat; try done.
    by rewrite <- i_ring0, Hr, <- Permutation_cons_append.
  - cbn. destruct (workers s !! w) as [[]|], (calling w (at_ s)); try done. by intros [= <-].
  - cbn. destruct (workers s !! w) as [[]|] eqn:Hw; try done. destruct (fibres s !! v) as [[]|] eqn:Hv; try done.
    destruct (calling w (at_ s)) eqn:Hc; [done|]. intros [= <-]. by apply pick_fibre_ok.
  - cbn. by apply pauseOperation_ok.
  - cbn. destruct (at_ s) eqn:Hat; try done. destruct (workers s !! c) as [[]|] eqn:Hw; try done.
    destruct (ring s) as [|p t] eqn:Hr; [done|]. intros [= <-]. rewrite set_at_0. apply set_at_ok; [done|by unfold existing; rewrite Hat|].
    pose proof (i_phase s Hi) as Hp. pose proof (i_total s Hi) as Ht. pose proof (nonneg s) as Hn.
    unfold phase_ok, existing in *. rewrite Hat in *. destruct Hp as (Hpf & H1 & H2). rewrite Hpf in *. cbn [length] in Ht.
    cbn [at_ set_at workers add_sems ring pauseFibres pauseSem pauseConfirmSem]. counts.
    split_and!; [done|lia..|]. exists [], t. by rewrite Hr, Hpf.
  - cbn. destruct (at_ s) eqn:Hat; try done. intros [= <-]. rewrite set_at_0. apply set_at_ok; [done|by unfold existing; rewrite Hat|].
    pose proof (i_phase s Hi) as Hp. pose proof (i_total s Hi) as Ht. pose proof (nonneg s) as Hn.
    unfold phase_ok, existing, others in *. rewrite Hat in *. counts. cbn.
    assert (1 <= length (ring s))%nat. { pose proof (i_ring s Hi) as Hr%Permutation_length. rewrite length_seq in Hr.
      destruct Hp as [Hw _]. apply lookup_lt_Some in Hw. lia. }
    destruct_and!; split_and!; try done; lia.
  - cbn. by apply caller_ok.
Qed.

Lemma cluster_reachable_inv s : reachable init step s -> inv s.
Proof. apply invariant_rule; [apply cluster_init_inv|apply cluster_step_inv]. Qed.

(** * Main theorems *)

Definition goes (x : wpc) : bool := negb (halted x).

Lemma count_goes s : inv s -> cnt goes (workers s) = others s + 1 - nhalted s.
Proof.
  intros Hi. assert (Hsum : forall l, cnt halted l + cnt goes l = Z.of_nat (length l)).
  { induction l as [|y l IH]; cbn [cnt length]; [done|]. unfold goes at 1. destruct (halted y); cbn; lia. }
  specialize (Hsum (workers s)). pose proof (i_ring s Hi) as Hr%Permutation_length. rewrite length_seq in Hr.
  unfold nhalted, others in *. lia.
Qed.

(** All workers but the caller's are in [pauseSem.P()]. *)
Lemma all_others_halted s c : inv s -> nhalted s = others s -> workers s !! c = Some Free ->
  forall w, w <> c -> (w < length (workers s))%nat -> exists v, workers s !! w = Some (Halted v).
Proof.
  intros Hi Hh Hc w Hne Hw. apply lookup_lt_is_Some in Hw as [x Hx].
  destruct (halted x) eqn:E; [destruct x; try done; by eexists|]. pose proof (count_goes s Hi).
  assert (2 <= cnt goes (workers s)); [|lia].
  eapply cnt_two; [exact Hx|exact Hc|done|unfold goes; by rewrite E|done].
Qed.

Lemma another_goes s c : inv s -> nhalted s < others s -> workers s !! c = Some Free ->
  exists w x, workers s !! w = Some x /\ w <> c /\ halted x = false.
Proof.
  intros Hi Hh Hc. pose proof (count_goes s Hi). pose proof (lookup_lt_Some _ _ _ Hc).
  destruct (cnt_pos goes (<[c := Halted 0]> (workers s))) as (w & x & Hw & Hx).
  { rewrite (cnt_insert _ _ _ _ _ Hc). cbn. lia. }
  destruct (decide (w = c)) as [->|Hne].
  - rewrite list_lookup_insert_eq in Hw by done. by simplify_eq.
  - rewrite list_lookup_insert_ne in Hw by done. exists w, x. split_and!; [done|done|]. unfold goes in Hx. by destruct (halted x).
Qed.

(** Some move of the protocol itself: not an application step and no new call. *)
Definition moves (s : state) : Prop := exists l s',
  step l s = Some s' /\ match l with Start _ | Pick _ _ | Go _ | Caller => True | _ => False end.

Lemma worker_moves s c k : inv s -> at_ s = Confirming c k -> nready s + nconfirm s + nhalted s = others s ->
  nhalted s < others s -> moves s.
Proof.
  intros Hi Hat Ht Hh. pose proof (i_phase s Hi) as Hp. unfold phase_ok in Hp. rewrite Hat in Hp. destruct Hp as [Hc _].
  pose proof (i_ring s Hi) as Hr%Permutation_length. rewrite length_seq in Hr. unfold others in *.
  destruct (decide (nconfirm s = 0)) as [H0|H0].
  - (* no worker is about to confirm, so a pause fibre is ready and some other worker can pick it or has to start *)
    destruct (cnt_pos is_ready (fibres s)) as (v & f & Hv & Hf); [unfold nready in *; lia|]. destruct f; try done.
    destruct (another_goes s c Hi Hh Hc) as (w & x & Hw & Hne & Hx). destruct x as [| |u|u]; try done.
    + exists (Start w). cbn. rewrite Hw. eauto.
    + exists (Pick w v). cbn. rewrite Hw, Hv, Hat. cbn. rewrite bool_decide_false by done. eauto.
    + pose proof (cnt_lookup confirming _ _ _ Hw eq_refl). unfold nconfirm in *. lia.
  - destruct (cnt_pos confirming (workers s)) as (w & x & Hw & Hx); [pose proof (nonneg s); unfold nconfirm in *; lia|].
    destruct x; try done. exists (Go w). cbn. unfold pauseOperation. rewrite Hw. eauto.
Qed.

Lemma joining_moves s v l : inv s -> at_ s = Joining (v :: l) -> moves s.
Proof.
  intros Hi Hat. pose proof (i_phase s Hi) as Hp. pose proof (i_total s Hi) as Ht. pose proof (nonneg s) as Hn.
  unfold phase_ok, existing in *. rewrite Hat in *. destruct Hp as (HD & HC & HP).
  destruct (proj1 (i_exist s Hi v)) as (f & Hf & Hne); [unfold existing; rewrite Hat; by left|].
  destruct f; [done| | |].
  - pose proof (cnt_lookup is_ready _ _ _ Hf eq_refl). unfold nready in *. lia.
  - assert (Hh : 0 < cnt (holds v) (workers s)) by (rewrite (i_holds s Hi), Hf; cbn; lia).
    destruct (cnt_pos _ _ Hh) as (w & x & Hw & Hx). exists (Go w). cbn. unfold pauseOperation. rewrite Hw.
    destruct x as [| |u|u]; try done; [eauto|]. pose proof (cnt_lookup halted _ _ _ Hw eq_refl).
    rewrite (proj2 (Z.ltb_lt 0 (pauseSem s))) by (unfold nhalted in *; lia). eauto.
  - exists Caller. cbn. unfold caller. rewrite Hat, Hf. eauto.
Qed.

(** C24. [pause()] stops the world and [resume()] starts it again, whoever steals the
    pause fibres: when [pause()] has returned, every worker but the caller's is
    inside [pauseSem.P()], no application fibre executes there, and no step is
    possible there before [resume()]; when the lock is free, no pause fibre and no
    stopped worker is left and both semaphores are zero, so the next pause starts
    afresh; the assertion on the number of fibres never fails; and neither call
    can get stuck: some step of it, of a pause fibre, of a worker that starts or
    takes one is always possible. *)
Theorem pause_stops_the_world s :
  reachable init step s ->
  at_ s <> Failed /\
  (forall c, at_ s = Paused c ->
     pauseSem s = 0 /\
     forall w, w <> c -> (w < length (workers s))%nat ->
       (exists v, workers s !! w = Some (Halted v)) /\
       step (App w) s = None /\ step (Go w) s = None /\ forall v, step (Pick w v) s = None) /\
  (at_ s = Unlocked ->
     pauseFibres s = [] /\ pauseConfirmSem s = 0 /\ pauseSem s = 0 /\
     (forall v f, fibres s !! v = Some f -> f = FNone) /\
     forall w x, workers s !! w = Some x -> x = Boot \/ x = Free) /\
  (match at_ s with Unlocked | Paused _ => True | _ => moves s end).
Proof.
  intros Hr. apply cluster_reachable_inv in Hr as Hi. pose proof (i_phase s Hi) as Hp. pose proof (i_total s Hi) as Ht.
  pose proof (nonneg s) as Hn. unfold phase_ok in Hp. split_and!.
  - intros Hf. by rewrite Hf in Hp.
  - intros c Hat. rewrite Hat in Hp. destruct Hp as (Hc & _ & HH & _ & HP). split; [done|]. intros w Hne Hw.
    destruct (all_others_halted s c Hi HH Hc w Hne Hw) as [v Hv]. split; [by exists v|]. cbn. unfold pauseOperation.
    by rewrite Hv, HP.
  - intros Hat. rewrite Hat in Hp. destruct Hp as (Hpf & HC & HP). unfold existing in Ht. rewrite Hat, Hpf in Ht. cbn in Ht. split_and!; try done.
    + intros v f Hv. destruct (decide (f = FNone)) as [|Hne]; [done|].
      assert (v ∈ existing s) as Hin by (apply (i_exist s Hi); eauto). unfold existing in Hin. rewrite Hat, Hpf in Hin.
      by apply elem_of_nil in Hin.
    + intros w x Hw. destruct x as [| |v|v]; auto.
      * pose proof (cnt_lookup confirming _ _ _ Hw eq_refl). unfold nconfirm in *. lia.
      * pose proof (cnt_lookup halted _ _ _ Hw eq_refl). unfold nhalted in *. lia.
  - destruct (at_ s) as [|c proc|c [|k]|c|c [|k]|[|v l]|] eqn:Hat; try done.
    + destruct Hp as (_ & _ & _ & _ & l1 & l2 & Hrg & _). exists Caller. cbn. unfold caller, create. rewrite Hat.
      rewrite (ring_walk_next s l1 proc l2 (ring_nodup s Hi) Hrg). cbn [mbind option_bind]. repeat case_match; eauto.
    + exists Caller. cbn. unfold caller. rewrite Hat. eauto.
    + destruct (decide (0 < pauseConfirmSem s)) as [Hc|Hc].
      * exists Caller. cbn. unfold caller. rewrite Hat, (proj2 (Z.ltb_lt _ _) Hc). eauto.
      * unfold existing in Ht. rewrite Hat in Ht. destruct_and!. eapply worker_moves; [done|exact Hat|lia|lia].
    + exists Caller. cbn. unfold caller. rewrite Hat. eauto.
    + exists Caller. cbn. unfold caller. rewrite Hat. eauto.
    + exists Caller. cbn. unfold caller. rewrite Hat. eauto.
    + by eapply joining_moves.
Qed.

Lemma sysid_loop_ok s ids cnt : NoDup (ring s) ->
  forall fuel i p, (cnt < fuel + i)%nat -> (0 < fuel)%nat -> ((i < length (ring s))%nat -> ring s !! i = Some p) ->
  sysid_loop fuel cnt i p ids s = Some (map ids (take (cnt - i) (drop i (ring s)))).
Proof.
  intros Hnd. induction fuel as [|fuel IH]; intros i p Hf H0 Hp; [lia|]. cbn [sysid_loop].
  destruct (Nat.ltb_spec i cnt); cbn [andb]; [|by replace (cnt - i)%nat with 0%nat by lia].
  destruct (Nat.ltb_spec i (length (ring s))); [|by rewrite drop_ge, take_nil].
  specialize (Hp ltac:(done)). pose proof (take_drop_middle _ _ _ Hp) as Hr. symmetry in Hr.
  rewrite (ring_walk_next s _ _ _ Hnd Hr). cbn [mbind option_bind]. rewrite IH.
  - cbn [mbind option_bind]. do 2 f_equal. rewrite (drop_S _ _ _ Hp). by replace (cnt - i)%nat with (S (cnt - S i)) by lia.
  - lia.
  - lia.
  - intros Hi. apply lookup_lt_is_Some in Hi as [y Hy]. by rewrite (drop_S _ _ _ Hy).
Qed.

(** [getWorkerSysIDs] stores the ids of the first [cnt] workers in ring order, or
    of all when there are fewer, and returns the number of workers. *)
Theorem getWorkerSysIDs_correct s cnt ids :
  reachable init step s -> getWorkerSysIDs cnt ids s = Some (map ids (take cnt (ring s)), length (workers s)).
Proof.
  intros Hr. apply cluster_reachable_inv in Hr as Hi. unfold getWorkerSysIDs.
  pose proof (i_ring s Hi) as Hl%Permutation_length. rewrite length_seq in Hl. rewrite <- Hl.
  destruct (ring s) as [|p t] eqn:E; cbn [head]; [by rewrite take_nil|].
  rewrite sysid_loop_ok, E.
  - by rewrite drop_0, Nat.sub_0_r.
  - by apply ring_nodup.
  - lia.
  - lia.
  - by rewrite E.
Qed.

(** Three workers; the pause fibre of worker 2 is stolen by worker 1. *)
Definition three_paused : list label :=
  [AddWorker; Start 0; AddWorker; AddWorker; Pause 0; Caller; Start 1; Caller; Pick 1 2; Go 1; Caller; Caller;
   Start 2; Pick 2 1; Go 2; Caller; Caller].
Definition empty_cluster : state := mkState [] [] [] [] 0 0 Unlocked.

Lemma pause_stops_the_world_witness :
  let s := after step empty_cluster three_paused in
  at_ s = Paused 0 /\ workers s = [Free; Halted 2; Halted 1] /\ step (App 1) s = None.
Proof.
  set (s := after _ _ _). assert (Hr : reachable init step s) by (apply run_reaches; [done|reflexivity]).
  destruct (pause_stops_the_world s Hr) as (_ & H & _). split; [reflexivity|]. split; [reflexivity|].
  destruct (H 0%nat eq_refl) as [_ Hw]. apply (Hw 1%nat); [done|]. vm_compute. lia.
Defined.
