(* ===== verification/Barriers.v ===== *)
(** The barriers without a blocking queue: [FastBarrier]
    ([src/runtime/BlockingSync.h]) and [SpinBarrier] ([src/runtime/SpinLocks.h]),
    both refining one abstract barrier. *)
From S2P Require Import Prelude Words.

Local Open Scope Z_scope.

(** * What a barrier promises

    Arrivals are numbered; the [r]-th batch are the arrivals [r * t] to
    [r * t + t - 1].  A thread leaves once its batch is complete, and one of each
    batch gets the special return code. *)
Module Rounds.
Section Rounds.
Context (n t : nat).

Record state := mkState {
  arrivals : nat;
  waiting : nat -> option nat;     (* the arrival a thread waits for *)
  ret : nat -> option bool;        (* what an arrival has returned *)
  arrived : nat -> nat;            (* numbers of calls and of returns of a thread *)
  completed : nat -> nat }.

Inductive label := Arrive (f : nat) | Leave (f : nat) (serial : bool).

Definition batch (k : nat) : list nat := seq (k / t * t) t.

Definition may_leave (k : nat) (serial : bool) (s : state) : bool :=
  (S (k / t) * t <=? arrivals s)%nat &&
  if serial then forallb (fun k' => negb (bool_decide (ret s k' = Some true))) (batch k)
  else existsb (fun k' => negb (k' =? k)%nat && negb (bool_decide (ret s k' = Some false))) (batch k).

Definition arrive (f : nat) (s : state) : state :=
  mkState (S (arrivals s)) (upd (waiting s) f (Some (arrivals s))) (ret s) (upd (arrived s) f (S (arrived s f))) (completed s).
Definition leave (f k : nat) (c : bool) (s : state) : state :=
  mkState (arrivals s) (upd (waiting s) f None) (upd (ret s) k (Some c)) (arrived s) (upd (completed s) f (S (completed s f))).

Definition step (l : label) (s : state) : option state :=
  match l with
  | Arrive f => if (f <? n)%nat && bool_decide (waiting s f = None) then Some (arrive f s) else None
  | Leave f c =>
      match waiting s f with
      | Some k => if may_leave k c s then Some (leave f k c s) else None
      | None => None
      end
  end.

Definition start : state := mkState 0 (fun _ => None) (fun _ => None) (fun _ => 0%nat) (fun _ => 0%nat).
Definition init (s : state) : Prop := s = start.

(** ** Each batch has one special return *)
Definition is_serial (o : option bool) : bool := bool_decide (o = Some true).
Lemma is_serial_some c : is_serial (Some c) = c.
Proof. by destruct c. Qed.
Definition serials (s : state) (r : nat) : Z := cnt (fun k => is_serial (ret s k)) (seq (r * t) t).
Definition all_left (s : state) (r : nat) : Prop := forall k, k ∈ seq (r * t) t -> ret s k <> None.

Record inv (s : state) : Prop := mkInv {
  r_ticket : forall f k, waiting s f = Some k -> (f < n)%nat /\ (k < arrivals s)%nat /\ ret s k = None;
  r_unique : forall f g k, waiting s f = Some k -> waiting s g = Some k -> f = g;
  r_future : forall k, (arrivals s <= k)%nat -> ret s k = None;
  r_one : forall r, serials s r <= 1 /\ (all_left s r -> serials s r = 1) }.

Lemma in_batch k : (0 < t)%nat -> k ∈ batch k.
Proof.
  intros Ht. unfold batch. apply elem_of_seq. pose proof (Nat.div_mod_eq k t). pose proof (Nat.mod_upper_bound k t). lia.
Qed.

Lemma batch_of r k : (0 < t)%nat -> k ∈ seq (r * t) t <-> (k / t = r)%nat.
Proof.
  intros Ht. rewrite elem_of_seq. split.
  - intros Hk. symmetry. apply (Nat.div_unique k t r (k - r * t)); lia.
  - intros <-. pose proof (Nat.div_mod_eq k t). pose proof (Nat.mod_upper_bound k t). lia.
Qed.

Lemma serials_other s k c r w ar co : (0 < t)%nat -> (k / t)%nat <> r ->
  let s' := mkState (arrivals s) w (upd (ret s) k (Some c)) ar co in
  serials s' r = serials s r /\ (all_left s' r -> all_left s r).
Proof.
  intros Ht Hne s'. split.
  - apply cnt_ext_elem. intros x Hx%batch_of; [|done]. unfold s'. cbn. rewrite upd_ne; [done|congruence].
  - intros Ha x Hx. specialize (Ha x Hx). apply batch_of in Hx; [|done]. unfold s' in Ha. cbn in Ha. rewrite upd_ne in Ha; [done|congruence].
Qed.

Lemma serials_zero s r : (forall k, k ∈ seq (r * t) t -> ret s k <> Some true) -> serials s r = 0.
Proof.
  intros H. apply cnt_none. intros i x Hx%list_elem_of_lookup_2. apply bool_decide_false, H, Hx.
Qed.

Lemma leave_one s k c r w ar co : (0 < t)%nat -> ret s k = None -> may_leave k c s = true ->
  (forall r, serials s r <= 1 /\ (all_left s r -> serials s r = 1)) ->
  let s' := mkState (arrivals s) w (upd (ret s) k (Some c)) ar co in
  serials s' r <= 1 /\ (all_left s' r -> serials s' r = 1).
Proof.
  intros Ht Hk Hm Hone s'. destruct (decide ((k / t)%nat = r)) as [<-|Hne].
  2:{ destruct (serials_other s k c r w ar co Ht Hne) as [E1 H2]. fold s' in E1, H2. rewrite E1. split; [apply Hone|]. intros Ha. by apply Hone, H2. }
  assert (Hser : serials s' (k / t) = serials s (k / t) + Z.b2z c).
  { unfold serials, s'. cbn. rewrite (cnt_upd is_serial) by first [apply NoDup_seq | by apply in_batch].
    rewrite Hk. unfold is_serial at 2. rewrite bool_decide_false by done.
    rewrite is_serial_some. cbn. lia. }
  unfold may_leave in Hm. apply andb_true_iff in Hm as [_ Hm]. destruct c.
  - assert (serials s (k / t) = 0) as H0.
    { apply serials_zero. intros x Hx. unfold batch in Hm. rewrite forallb_forall in Hm.
      apply list_elem_of_In in Hx. specialize (Hm x Hx). by bool_prop. }
    cbn in Hser. lia.
  - rewrite Hser. cbn. rewrite Z.add_0_r. destruct (Hone (k / t)%nat) as [H1 _]. split; [done|]. intros Ha.
    apply existsb_exists in Hm as (x & Hx%list_elem_of_In & Hm). apply andb_true_iff in Hm as [Hxk Hxf]. bool_prop.
    specialize (Ha x Hx). unfold s' in Ha. cbn in Ha. rewrite upd_ne in Ha by congruence.
    pose proof (cnt_elem (fun k => is_serial (ret s k)) _ _ Hx) as Hc. change (cnt _ (batch k)) with (serials s (k / t)) in Hc.
    unfold is_serial in Hc. cbn beta in Hc. destruct (ret s x) as [[]|]; try done. rewrite bool_decide_true in Hc by done. cbn in Hc. lia.
Qed.

Lemma rounds_init_inv s : (0 < t)%nat -> init s -> inv s.
Proof.
  intros Ht ->. split; try done. intros r. assert (H0 : serials start r = 0) by (apply serials_zero; done). rewrite H0. split; [lia|].
  intros Ha. exfalso. apply (Ha (r * t)%nat); [|done]. apply elem_of_seq. lia.
Qed.

Lemma step_inv s l s' : (0 < t)%nat -> inv s -> step l s = Some s' -> inv s'.
Proof.
  intros Ht [Ht1 Hu Hf H1]. destruct l as [f|f c]; unfold step.
  - destruct (_ && _) eqn:E; [|done]. apply andb_true_iff in E as [E1 E2]. bool_prop. intros [= <-]. split; cbn.
    + intros g k. at_fred g f.
      * intros [= <-]. split_and!; [done|lia|apply Hf; lia].
      * intros (H2 & H3 & H4)%Ht1. split_and!; [done|lia|done].
    + intros g h k. at_fred g f; at_fred h f; [done|intros [= <-] (_ & H & _)%Ht1; lia|intros (_ & H & _)%Ht1 [= <-]; lia|by apply Hu].
    + intros k Hk. apply Hf. lia.
    + exact H1.
  - destruct (waiting s f) as [k|] eqn:Hw; [|done]. destruct (may_leave k c s) eqn:Hm; [|done]. intros [= <-].
    destruct (Ht1 f k Hw) as (Hfn & Hka & Hrk). split; cbn.
    + intros g k'. at_fred g f; [done|]. intros Hg. destruct (Ht1 g k' Hg) as (? & ? & ?). split_and!; [done|done|].
      rewrite upd_ne; [done|]. intros ->. by specialize (Hu f g k' Hw Hg).
    + intros g h k'. at_fred g f; [done|]. at_fred h f; [done|]. apply Hu.
    + intros k' Hk'. rewrite upd_ne by lia. by apply Hf.
    + intros r. by apply leave_one.
Qed.

Lemma reachable_inv s : (0 < t)%nat -> reachable init step s -> inv s.
Proof. intros Ht. apply invariant_rule; [intros s0; by apply rounds_init_inv|intros s0 l s0'; by apply step_inv]. Qed.

(** ** Rounds *)
Fixpoint total (h : nat -> nat) (k : nat) : nat := match k with O => O | S k' => (h k' + total h k')%nat end.

Lemma total_le h k b : (forall f, (f < k)%nat -> (h f <= b)%nat) -> (total h k <= k * b)%nat.
Proof.
  induction k as [|k IH]; intros H; cbn; [lia|]. specialize (IH ltac:(intros f Hf; apply H; lia)).
  specialize (H k ltac:(lia)). lia.
Qed.

Lemma total_lt h k b f : (forall f, (f < k)%nat -> (h f <= b)%nat) -> (f < k)%nat -> (h f < b)%nat -> (total h k < k * b)%nat.
Proof.
  induction k as [|k IH]; intros H Hf Hlt; [lia|]. cbn. destruct (decide (f = k)) as [->|Hne].
  - pose proof (total_le h k b ltac:(intros g Hg; apply H; lia)). lia.
  - specialize (IH ltac:(intros g Hg; apply H; lia) ltac:(lia) Hlt). specialize (H k ltac:(lia)). lia.
Qed.

Lemma total_upd h k f : (f < k)%nat -> total (upd h f (S (h f))) k = S (total h k).
Proof.
  assert (Hsame : forall k, (k <= f)%nat -> total (upd h f (S (h f))) k = total h k).
  { induction k0 as [|k0 IH0]; intros Hk; cbn; [done|]. rewrite upd_ne by lia. by rewrite IH0 by lia. }
  induction k as [|k IH]; intros Hf; [lia|]. cbn. destruct (decide (f = k)) as [->|Hne].
  - rewrite upd_eq, Hsame by lia. lia.
  - rewrite upd_ne, IH by lia. lia.
Qed.

(** With as many threads as a batch has places. *)
Record rounds (s : state) : Prop := mkRounds {
  d_wait : forall f k, waiting s f = Some k -> arrived s f = S (completed s f) /\ (k / t)%nat = completed s f;
  d_idle : forall f, waiting s f = None -> arrived s f = completed s f;
  d_done : forall f, (completed s f * t <= arrivals s)%nat;
  d_total : total (arrived s) n = arrivals s;
  d_close : forall f g, (f < n)%nat -> (g < n)%nat -> (arrived s f <= S (arrived s g))%nat }.

Lemma rounds_apart s f g : n = t -> rounds s -> (f < n)%nat -> (g < n)%nat -> (completed s f <= arrived s g)%nat.
Proof.
  intros Hn [_ _ Hd Ht Hc] Hf Hg. destruct (decide (completed s f <= arrived s g)%nat) as [|Hlt]; [done|]. exfalso.
  pose proof (total_lt (arrived s) n (completed s f) g) as H. rewrite Ht in H. specialize (Hd f).
  assert (arrivals s < n * completed s f)%nat; [|rewrite <- Hn in Hd; lia].
  apply H; [|done|lia]. intros h Hh. specialize (Hc h g Hh Hg). lia.
Qed.

Lemma init_rounds s : init s -> rounds s.
Proof.
  intros ->. pose proof (total_le (fun _ => 0%nat) n 0 ltac:(done)). split; cbn; try done; try lia. Qed.

Lemma step_rounds s l s' : n = t -> inv s -> rounds s -> step l s = Some s' -> rounds s'.
Proof.
  intros Hn Hi Hr. pose proof Hr as [Hw Hid Hd Ht Hc]. destruct l as [f|f c]; unfold step.
  - destruct (_ && _) eqn:E; [|done]. apply andb_true_iff in E as [E1 E2]. bool_prop. intros [= <-].
    assert (Hap : forall g, (g < n)%nat -> (arrived s f <= arrived s g)%nat).
    { intros g Hg. rewrite (Hid f E2). by apply rounds_apart. }
    split; cbn.
    + intros g k. at_fred g f; [|apply Hw]. intros [= <-]. rewrite (Hid f E2). split; [done|].
      assert (Hlt : (arrivals s < S (completed s f) * t)%nat).
      { rewrite <- Ht, <- Hn, Nat.mul_comm. apply (total_lt _ _ _ f); [|done|rewrite <- (Hid f E2); lia].
        intros g Hg. rewrite <- (Hid f E2). by apply Hc. }
      symmetry. apply (Nat.div_unique _ _ _ (arrivals s - completed s f * t)); [|]; specialize (Hd f); lia.
    + intros g. at_fred g f; [done|apply Hid].
    + intros g. specialize (Hd g). lia.
    + rewrite total_upd by done. lia.
    + intros g h Hg Hh. specialize (Hc g h Hg Hh) as H1. at_fred g f; at_fred h f; try lia.
      specialize (Hap h Hh). lia.
  - destruct (waiting s f) as [k|] eqn:Hwf; [|done]. destruct (may_leave k c s) eqn:Hm; [|done]. intros [= <-].
    apply andb_true_iff in Hm as [Hm _]. bool_prop. destruct (Hw f k Hwf) as [Ha Hk]. split; cbn.
    + intros g k'. at_fred g f; [done|apply Hw].
    + intros g. at_fred g f; [done|apply Hid].
    + intros g. at_fred g f; [rewrite <- Hk; lia|apply Hd].
    + done.
    + done.
Qed.

Lemma reachable_rounds s : (0 < t)%nat -> n = t -> reachable init step s -> rounds s.
Proof.
  intros Ht Hn Hr. assert (inv s /\ rounds s) as [_ H]; [|done]. revert s Hr. apply invariant_rule.
  - intros s0 H0. split; [by apply rounds_init_inv|by apply init_rounds].
  - intros s0 l s1 [H1 H2] H3. split; [by eapply step_inv|by eapply step_rounds].
Qed.

(** What users of a barrier rely on. *)
Definition contract (s : state) : Prop :=
  (forall r, serials s r <= 1 /\ (all_left s r -> serials s r = 1)) /\
  (n = t -> forall f g, (f < n)%nat -> (g < n)%nat -> (completed s f <= arrived s g)%nat).

Lemma contract_ok s : (0 < t)%nat -> reachable init step s -> contract s.
Proof.
  intros Ht Hr. split; [apply r_one; by apply reachable_inv|]. intros Hn f g. by apply rounds_apart, reachable_rounds.
Qed.
End Rounds.
End Rounds.

(** * [FastBarrier] *)
Module FastBarrier.
Section FastBarrier.
Context (n t : nat).   (* the freds, [target] *)

(** [wait()]: before the increment, the decrement, the lock, in iteration [i]
    of the loop, at the end of the locked block, and in [suspend]. *)
Inductive pc := Idle | Add | Sub | Lock | Pop (i : nat) (park : bool) | Unlock (park : bool) | Park.

Record state := mkState {
  counter : Z;
  queue : list nat;
  lock : option nat;
  pcs : list pc;
  resumed : nat -> bool;       (* a resume is pending for a fred *)
  resumeInfo : nat -> bool;    (* its [resumeInfo] is not null *)
  popped : nat;                (* ghost: number of freds popped so far *)
  code : nat -> option bool;   (* ghost: the return code that each of them was given *)
  hist : Rounds.state }.       (* ghost: arrivals and returns *)

Definition set_pc (f : nat) (c : pc) (s : state) : state :=
  mkState (counter s) (queue s) (lock s) (<[f := c]> (pcs s)) (resumed s) (resumeInfo s) (popped s) (code s) (hist s).
Definition set_counter (c : Z) (s : state) : state :=
  mkState c (queue s) (lock s) (pcs s) (resumed s) (resumeInfo s) (popped s) (code s) (hist s).
Definition set_lock (o : option nat) (s : state) : state :=
  mkState (counter s) (queue s) o (pcs s) (resumed s) (resumeInfo s) (popped s) (code s) (hist s).
(** [queue.push], at the start of [wait]; [prepareRace] clears [resumeInfo]. *)
Definition push (f : nat) (s : state) : state :=
  mkState (counter s) (queue s ++ [f]) (lock s) (pcs s) (resumed s) (upd (resumeInfo s) f false) (popped s) (code s)
    (Rounds.arrive f (hist s)).
(** [queue.pop] *)
Definition drop_head (q : list nat) (c : bool) (s : state) : state :=
  mkState (counter s) q (lock s) (pcs s) (resumed s) (resumeInfo s) (S (popped s)) (upd (code s) (popped s) (Some c)) (hist s).
(** [next->raceResume(cf)] if [special], then [next->resume()] *)
Definition wake (next : nat) (special : bool) (s : state) : state :=
  mkState (counter s) (queue s) (lock s) (pcs s) (upd (resumed s) next true)
    (upd (resumeInfo s) next (resumeInfo s next || special)) (popped s) (code s) (hist s).
(** [wait()] returns [c] to [f]. *)
Definition return_ (f : nat) (c : bool) (s : state) : state :=
  mkState (counter s) (queue s) (lock s) (<[f := Idle]> (pcs s)) (upd (resumed s) f false) (resumeInfo s) (popped s) (code s)
    (match Rounds.waiting (hist s) f with Some k => Rounds.leave f k c (hist s) | None => hist s end).

Inductive label := Wait (f : nat) | Go (f : nat) | Spin (f : nat).

(** The body of the loop over [target]. *)
Definition notify (f i : nat) (park : bool) (s : state) : option state :=
  match queue s with
  | next :: q =>
      let '(park', s1) :=
        if decide (next = f) then (false, drop_head q true s)
        else let special := (i =? t - 1)%nat && park in (park, wake next special (drop_head q special s)) in
      Some (set_pc f (if (S i <? t)%nat then Pop (S i) park' else Unlock park') s1)
  | [] => None
  end.

Definition step (l : label) (s : state) : option state :=
  match l with
  | Wait f => match pcs s !! f with Some Idle => Some (set_pc f Add (push f s)) | _ => None end
  | Spin f =>   (* an empty pop, or a lock that is taken *)
      match pcs s !! f with Some (Pop _ _ | Lock) => Some s | _ => None end
  | Go f =>
      match pcs s !! f with
      | Some Add =>
          let c := wrap W (counter s + 1) in
          Some (set_pc f (if c mod Z.of_nat t =? 0 then Sub else Park) (set_counter c s))
      | Some Sub => Some (set_pc f Lock (set_counter (wrap W (counter s - Z.of_nat t)) s))
      | Some Lock => match lock s with None => Some (set_pc f (Pop 0 true) (set_lock (Some f) s)) | Some _ => None end
      | Some (Pop i park) => notify f i park s
      | Some (Unlock park) =>
          let s1 := set_lock None s in
          Some (if park then set_pc f Park s1 else return_ f true s1)
      | Some Park => if resumed s f then Some (return_ f (resumeInfo s f) s) else None
      | _ => None
      end
  end.

Definition init (s : state) : Prop :=
  s = mkState 0 [] None (replicate n Idle) (fun _ => false) (fun _ => false) 0 (fun _ => None) Rounds.start.

(** ** Invariant *)
Definition is_add (c : pc) : bool := match c with Add => true | _ => false end.
Definition is_sub (c : pc) : bool := match c with Sub => true | _ => false end.
Definition is_lock (c : pc) : bool := match c with Lock => true | _ => false end.
Definition is_pop (c : pc) : bool := match c with Pop _ _ => true | _ => false end.
Definition locked (c : pc) : bool := match c with Pop _ _ | Unlock _ => true | _ => false end.
(** A notifier that has found itself in the queue. *)
Definition found (c : pc) : bool := match c with Pop _ false | Unlock false => true | _ => false end.

Definition adds (s : state) : Z := Z.of_nat (Rounds.arrivals (hist s)) - cnt is_add (pcs s).
Definition batches (s : state) : nat := popped s / t.
Definition subs (s : state) : Z := Z.of_nat (batches s) + cnt is_lock (pcs s) + cnt is_pop (pcs s).
Definition specials (s : state) (l : list nat) : Z := cnt (fun k => Rounds.is_serial (code s k)) l.

(** The queue and the return codes ... *)
Record data (s : state) : Prop := mkData {
  f_len : length (pcs s) = n;
  f_queue : forall j f, queue s !! j = Some f -> Rounds.waiting (hist s) f = Some (popped s + j)%nat;
  f_pushed : (popped s + length (queue s) = Rounds.arrivals (hist s))%nat;
  f_wait : forall f, Rounds.waiting (hist s) f = None <-> pcs s !! f = Some Idle \/ pcs s !! f = None;
  f_range : forall f k, Rounds.waiting (hist s) f = Some k -> (k < Rounds.arrivals (hist s))%nat;
  f_unique : forall f g k, Rounds.waiting (hist s) f = Some k -> Rounds.waiting (hist s) g = Some k -> f = g;
  f_resumed : forall f, resumed s f = true -> exists k, Rounds.waiting (hist s) f = Some k /\ code s k = Some (resumeInfo s f);
  f_found : forall f c, pcs s !! f = Some c -> found c = true ->
    resumed s f = false /\ exists k, Rounds.waiting (hist s) f = Some k /\ code s k = Some true;
  f_popped : forall f k, Rounds.waiting (hist s) f = Some k -> (k < popped s)%nat ->
    resumed s f = true \/ exists c, pcs s !! f = Some c /\ found c = true;
  f_queued : forall f k, Rounds.waiting (hist s) f = Some k -> (popped s <= k)%nat -> resumed s f = false /\ resumeInfo s f = false;
  f_code : forall k, code s k = None <-> (popped s <= k)%nat;
  f_ret : forall k c, Rounds.ret (hist s) k = Some c -> code s k = Some c;
  f_special : forall r, (r < batches s)%nat -> specials s (seq (r * t) t) = 1 }.

(** ... and the counter, the notifiers and the lock. *)
Record counts (s : state) : Prop := mkCounts {
  f_lock : forall f, lock s = Some f <-> exists c, pcs s !! f = Some c /\ locked c = true;
  f_counter : counter s = adds s - Z.of_nat t * subs s;
  f_adds : adds s / Z.of_nat t = subs s + cnt is_sub (pcs s);
  f_batch : forall f i park, pcs s !! f = Some (Pop i park) -> (popped s mod t = i)%nat /\ (i < t)%nat /\
    specials s (seq (batches s * t) i) = Z.b2z (negb park);
  f_between : cnt is_pop (pcs s) = 0 -> (popped s mod t = 0)%nat }.

Definition inv (s : state) : Prop := data s /\ counts s.

Hypothesis t_pos : (0 < t)%nat.
Hypothesis n_word : Z.of_nat n < 2 ^ W.

Lemma fast_init_ok s : init s -> inv s.
Proof.
  intros ->. assert (Hidle : forall f c, replicate n Idle !! f = Some c -> c = Idle) by (intros f c [-> _]%lookup_replicate; done).
  assert (Hcnt : forall p : pc -> bool, p Idle = false -> cnt p (replicate n Idle) = 0) by (intros p Hp; rewrite cnt_replicate, Hp; cbn; lia).
  split; split; cbn [pcs queue hist resumed resumeInfo popped code lock counter Rounds.start Rounds.waiting Rounds.arrivals Rounds.ret]; try done.
  - apply length_replicate.
  - intros f. split; [|done]. intros _. destruct (_ !! f) as [c|] eqn:E; [left; by rewrite (Hidle f c E)|by right].
  - by intros f c ->%Hidle.
  - intros k. split; [lia|done].
  - intros r. unfold batches. cbn [popped]. rewrite Nat.Div0.div_0_l. lia.
  - intros f. split; [done|]. by intros (c & ->%Hidle & ?).
  - unfold adds, subs, batches. cbn [pcs popped hist]. rewrite !Hcnt by done. rewrite Nat.Div0.div_0_l. change (0 = 0 - Z.of_nat t * 0). lia.
  - unfold adds, subs, batches. cbn [pcs popped hist]. rewrite !Hcnt by done. rewrite Nat.Div0.div_0_l. change (0 / Z.of_nat t = 0). apply Z.div_0_l. lia.
  - by intros f i park ?%Hidle.
  - intros _. apply Nat.Div0.mod_0_l.
Qed.

(** A fred goes on without being found or returning. *)
Lemma data_pc s f c c' : data s -> pcs s !! f = Some c -> c <> Idle -> c' <> Idle -> found c = found c' -> data (set_pc f c' s).
Proof.
  intros [] Hf Hc Hc' Hfd. pose proof (lookup_lt_Some _ _ _ Hf) as Hlt.
  split; cbn [pcs queue hist resumed resumeInfo popped code lock counter set_pc]; try done.
  - by rewrite length_insert.
  - intros g. rewrite f_wait0. destruct (decide (g = f)) as [->|Hne]; [|by rewrite list_lookup_insert_ne].
    rewrite list_lookup_insert_eq, Hf by done. split; intros [[= H]|H]; congruence.
  - intros g d. destruct (decide (g = f)) as [->|Hne]; [|rewrite list_lookup_insert_ne by done; apply f_found0].
    rewrite list_lookup_insert_eq by done. intros [= <-] Hd. apply (f_found0 f c Hf). by rewrite Hfd.
  - intros g k Hg Hk. destruct (f_popped0 g k Hg Hk) as [|(d & Hd & Hfd')]; [by left|right].
    destruct (decide (g = f)) as [->|Hne]; [|exists d; by rewrite list_lookup_insert_ne].
    exists c'. rewrite list_lookup_insert_eq by done. split; [done|]. rewrite <- Hfd. congruence.
Qed.

Lemma queue_bound s : data s -> (length (queue s) <= n)%nat.
Proof.
  intros Hd. rewrite <- (f_len s Hd). assert (Hnd : NoDup (queue s)).
  { apply NoDup_alt. intros i j f Hi Hj. pose proof (f_queue s Hd i f Hi) as H1. rewrite (f_queue s Hd j f Hj) in H1. simplify_eq. lia. }
  rewrite <- (length_seq (length (pcs s)) 0). apply submseteq_length, NoDup_submseteq; [done|].
  intros f [j Hj]%list_elem_of_lookup. apply elem_of_seq. pose proof (f_queue s Hd j f Hj) as H1.
  destruct (decide (f < length (pcs s))%nat) as [|Hge]; [lia|]. exfalso.
  assert (Rounds.waiting (hist s) f = None); [|congruence]. apply (f_wait s Hd). right. apply lookup_ge_None. lia.
Qed.

(** Popped freds are accounted for by the decrements of the counter. *)
Lemma popped_bound s : counts s -> Z.of_nat (popped s) <= Z.of_nat t * subs s /\ 0 <= cnt is_sub (pcs s) /\ 0 <= cnt is_add (pcs s).
Proof.
  intros [_ _ _ Hb Hn]. split_and!; [|apply cnt_nonneg..]. unfold subs, batches.
  pose proof (Nat.div_mod_eq (popped s) t). pose proof (Nat.mod_upper_bound (popped s) t).
  pose proof (cnt_nonneg is_lock (pcs s)). pose proof (cnt_nonneg is_pop (pcs s)).
  destruct (decide (cnt is_pop (pcs s) = 0)) as [Hz|Hz]; [specialize (Hn Hz)|]; nia.
Qed.

(** The other freds' locks, batches and return codes after [f] has moved. *)
Lemma lock_same s f c c' : (forall g, lock s = Some g <-> exists c, pcs s !! g = Some c /\ locked c = true) ->
  pcs s !! f = Some c -> locked c = locked c' ->
  forall g, lock s = Some g <-> exists d, <[f := c']> (pcs s) !! g = Some d /\ locked d = true.
Proof.
  intros H Hf Hl g. rewrite H. pose proof (lookup_lt_Some _ _ _ Hf). destruct (decide (g = f)) as [->|Hne].
  - rewrite list_lookup_insert_eq by done. split; intros (d & Hd & Hx); [exists c'|exists c]; split; congruence.
  - by rewrite list_lookup_insert_ne.
Qed.

Lemma others_batch s f c c' g i park : pcs s !! f = Some c -> is_pop c' = false ->
  <[f := c']> (pcs s) !! g = Some (Pop i park) -> pcs s !! g = Some (Pop i park).
Proof.
  intros Hf Hc. pose proof (lookup_lt_Some _ _ _ Hf). destruct (decide (g = f)) as [->|Hne].
  - rewrite list_lookup_insert_eq by done. intros [= ->]. done.
  - by rewrite list_lookup_insert_ne.
Qed.

Ltac counting H :=
  unfold adds, subs, batches, specials in *;
  cbn [pcs queue hist resumed resumeInfo popped code lock counter set_pc set_counter set_lock push Rounds.arrivals Rounds.arrive Rounds.leave] in *;
  rewrite ?(cnt_insert _ _ _ _ _ H); cbn [is_add is_sub is_lock is_pop Z.b2z].

(** The quotient of the additions after [d] more of them. *)
Ltac adds_are d H :=
  match type of H with ?a / _ = _ => match goal with |- ?b / _ = _ => replace b with (a + d) by lia end end;
  rewrite ?Z.add_0_r, ?H; lia.

Lemma wait_ok s f : inv s -> pcs s !! f = Some Idle -> inv (set_pc f Add (push f s)).
Proof.
  intros [Hd Hc] Hf. pose proof (lookup_lt_Some _ _ _ Hf) as Hlt.
  assert (Hw : Rounds.waiting (hist s) f = None) by (apply (f_wait s Hd); by left).
  assert (Hnr : resumed s f = false).
  { destruct (resumed s f) eqn:E; [|done]. apply (f_resumed s Hd) in E as (k & Hk & _). congruence. }
  split.
  - destruct Hd. split; cbn [pcs queue hist resumed resumeInfo popped code lock counter set_pc push Rounds.arrivals Rounds.waiting Rounds.ret Rounds.arrive]; try done.
    + by rewrite length_insert.
    + intros j g [Hj|[Hj Hg]]%lookup_app_Some.
      * specialize (f_queue0 j g Hj). rewrite upd_ne; [done|]. intros <-. congruence.
      * apply list_lookup_singleton_Some in Hg as [Hj0 <-]. rewrite upd_eq. f_equal. lia.
    + rewrite length_app. cbn. lia.
    + intros g. destruct (decide (g = f)) as [->|Hne].
      * rewrite upd_eq, list_lookup_insert_eq by done. split; [done|]. by intros [|].
      * rewrite upd_ne, list_lookup_insert_ne by done. apply f_wait0.
    + intros g k. at_fred g f; [intros [= <-]; lia|]. intros Hk%f_range0. lia.
    + intros g h k. at_fred g f; at_fred h f; [done|intros [= <-] Hk%f_range0; lia|intros Hk%f_range0 [= <-]; lia|apply f_unique0].
    + intros g Hg. destruct (f_resumed0 g Hg) as (k & Hk & Hcd). exists k. rewrite !upd_ne by congruence. done.
    + intros g d. destruct (decide (g = f)) as [->|Hne].
      * rewrite list_lookup_insert_eq by done. by intros [= <-].
      * rewrite list_lookup_insert_ne, upd_ne by done. apply f_found0.
    + intros g k. destruct (decide (g = f)) as [->|Hne].
      * rewrite upd_eq. intros [= <-]. lia.
      * rewrite upd_ne, list_lookup_insert_ne by done. apply f_popped0.
    + intros g k. at_fred g f; [done|]. apply f_queued0.
  - pose proof (lock_same s f Idle Add (f_lock s Hc) Hf eq_refl) as Hl. destruct Hc. split; counting Hf; try lia; try done.
    + adds_are 0 f_adds0.
    + intros g i park Hg. apply (others_batch s f Idle Add) in Hg; [|done|done]. by apply (f_batch0 g).
Qed.

Lemma add_one a : (a + 1) / Z.of_nat t = if (a + 1) mod Z.of_nat t =? 0 then a / Z.of_nat t + 1 else a / Z.of_nat t.
Proof.
  pose proof (Z.div_mod a (Z.of_nat t) ltac:(lia)) as Ha. pose proof (Z.mod_pos_bound a (Z.of_nat t) ltac:(lia)) as Hb.
  destruct (Z.eqb_spec ((a + 1) mod Z.of_nat t) 0) as [H0|H0].
  - pose proof (Z.div_mod (a + 1) (Z.of_nat t) ltac:(lia)) as Ha1. nia.
  - symmetry. apply (Z.div_unique_pos _ _ _ (a mod Z.of_nat t + 1)); [|lia]. split; [lia|].
    destruct (decide (a mod Z.of_nat t + 1 = Z.of_nat t)) as [E|]; [|lia]. exfalso. apply H0.
    replace (a + 1) with ((a / Z.of_nat t + 1) * Z.of_nat t) by lia. by apply Z.mod_mul; lia.
Qed.

Lemma fast_add_ok s f : inv s -> pcs s !! f = Some Add ->
  inv (set_pc f (if wrap W (counter s + 1) mod Z.of_nat t =? 0 then Sub else Park) (set_counter (wrap W (counter s + 1)) s)).
Proof.
  intros [Hd Hc] Hf. pose proof (popped_bound s Hc) as (Hb1 & Hb2 & _). pose proof (queue_bound s Hd) as Hq.
  pose proof (cnt_lookup is_add _ _ _ Hf eq_refl) as Ha. pose proof (f_pushed s Hd) as Hp.
  pose proof (f_counter s Hc) as Hcn. pose proof (f_adds s Hc) as Had.
  assert (Hlow : Z.of_nat t * subs s <= adds s).
  { pose proof (Z.mul_div_le (adds s) (Z.of_nat t) ltac:(lia)). nia. }
  assert (Hup : adds s + 1 <= Z.of_nat (Rounds.arrivals (hist s))) by (unfold adds; lia).
  rewrite wrap_small by (unfold word; lia).
  assert (Hmod : (counter s + 1) mod Z.of_nat t = (adds s + 1) mod Z.of_nat t).
  { rewrite Hcn. replace (adds s - Z.of_nat t * subs s + 1) with (adds s + 1 + (- subs s) * Z.of_nat t) by lia. apply Z.mod_add. lia. }
  rewrite Hmod. pose proof (add_one (adds s)) as H1. split.
  - change (set_counter ?c s) with (set_counter c s). assert (Hd' : data (set_counter (counter s + 1) s)) by (destruct Hd; done).
    apply (data_pc _ f Add); try done; by destruct (_ =? 0).
  - pose proof (lock_same s f Add (if (adds s + 1) mod Z.of_nat t =? 0 then Sub else Park) (f_lock s Hc) Hf) as Hl.
    destruct Hc. destruct (_ =? 0) eqn:E; split; cbn [lock set_pc pcs set_counter]; try (by apply Hl); counting Hf; try lia; try done.
    + rewrite f_adds0 in H1. adds_are 0 H1.
    + intros g i park Hg. apply (others_batch s f Add Sub) in Hg; [|done|done]. by apply (f_batch0 g).
    + rewrite f_adds0 in H1. adds_are 0 H1.
    + intros g i park Hg. apply (others_batch s f Add Park) in Hg; [|done|done]. by apply (f_batch0 g).
Qed.

Lemma fast_sub_ok s f : inv s -> pcs s !! f = Some Sub -> inv (set_pc f Lock (set_counter (wrap W (counter s - Z.of_nat t)) s)).
Proof.
  intros [Hd Hc] Hf. pose proof (popped_bound s Hc) as (Hb1 & Hb2 & Hb3). pose proof (queue_bound s Hd) as Hq.
  pose proof (cnt_lookup is_sub _ _ _ Hf eq_refl) as Ha. pose proof (f_pushed s Hd) as Hp.
  pose proof (f_counter s Hc) as Hcn. pose proof (f_adds s Hc) as Had.
  assert (Hlow : Z.of_nat t * (subs s + 1) <= adds s).
  { pose proof (Z.mul_div_le (adds s) (Z.of_nat t) ltac:(lia)). nia. }
  assert (Hup : adds s <= Z.of_nat (Rounds.arrivals (hist s))) by (unfold adds; lia).
  rewrite wrap_small by (unfold word; lia). split.
  - assert (Hd' : data (set_counter (counter s - Z.of_nat t) s)) by (destruct Hd; done).
    by apply (data_pc _ f Sub).
  - pose proof (lock_same s f Sub Lock (f_lock s Hc) Hf eq_refl) as Hl. destruct Hc. split; counting Hf; try lia; try done.
    + adds_are 0 f_adds0.
    + intros g i park Hg. apply (others_batch s f Sub Lock) in Hg; [|done|done]. by apply (f_batch0 g).
Qed.

Lemma no_pop s : counts s -> lock s = None -> cnt is_pop (pcs s) = 0.
Proof.
  intros Hc Hl. apply cnt_none. intros g c Hg. destruct c; try done. exfalso.
  assert (lock s = Some g); [|congruence]. apply (f_lock s Hc). by eexists.
Qed.

Lemma fast_lock_ok s f : inv s -> pcs s !! f = Some Lock -> lock s = None -> inv (set_pc f (Pop 0 true) (set_lock (Some f) s)).
Proof.
  intros [Hd Hc] Hf Hl. pose proof (no_pop s Hc Hl) as H0. pose proof (lookup_lt_Some _ _ _ Hf) as Hlt. split.
  - assert (Hd' : data (set_lock (Some f) s)) by (destruct Hd; done). by apply (data_pc _ f Lock).
  - destruct Hc. split; counting Hf; try lia; try done.
    + intros g. destruct (decide (g = f)) as [->|Hne].
      * rewrite list_lookup_insert_eq by done. split; [intros _; by eexists|done].
      * rewrite list_lookup_insert_ne by done. rewrite <- f_lock0, Hl. split; [congruence|done].
    + adds_are 0 f_adds0.
    + intros g i park. destruct (decide (g = f)) as [->|Hne].
      * rewrite list_lookup_insert_eq by done. intros [= <- <-]. split_and!; [by apply f_between0|lia|done].
      * rewrite list_lookup_insert_ne by done. intros Hg.
        assert (lock s = Some g); [|congruence]. apply f_lock0. by eexists.
Qed.

(** A fred returns the code it was given. *)
Lemma return_data s f c k x : data s -> pcs s !! f = Some x -> x <> Idle -> Rounds.waiting (hist s) f = Some k -> code s k = Some c ->
  data (return_ f c s).
Proof.
  intros Hd Hf Hx Hw Hcd. pose proof (lookup_lt_Some _ _ _ Hf) as Hlt. unfold return_. rewrite Hw.
  assert (Hk : (k < popped s)%nat).
  { destruct (decide (popped s <= k)%nat) as [H|]; [|lia]. apply (f_code s Hd) in H. congruence. }
  destruct Hd. split; cbn [pcs queue hist resumed resumeInfo popped code lock counter Rounds.arrivals Rounds.waiting Rounds.ret Rounds.leave]; try done.
  - by rewrite length_insert.
  - intros j g Hj. specialize (f_queue0 j g Hj). rewrite upd_ne; [done|]. intros ->. rewrite Hw in f_queue0. simplify_eq. lia.
  - intros g. destruct (decide (g = f)) as [->|Hne].
    + rewrite upd_eq, list_lookup_insert_eq by done. naive_solver.
    + rewrite upd_ne, list_lookup_insert_ne by done. apply f_wait0.
  - intros g k'. at_fred g f; [done|]. apply f_range0.
  - intros g h k'. at_fred g f; [done|]. at_fred h f; [done|]. apply f_unique0.
  - intros g. at_fred g f; [done|]. apply f_resumed0.
  - intros g d. destruct (decide (g = f)) as [->|Hne].
    + rewrite list_lookup_insert_eq by done. by intros [= <-].
    + rewrite list_lookup_insert_ne, !upd_ne by done. apply f_found0.
  - intros g k'. destruct (decide (g = f)) as [->|Hne]; [by rewrite upd_eq|].
    rewrite !upd_ne, list_lookup_insert_ne by done. apply f_popped0.
  - intros g k'. at_fred g f; [done|]. apply f_queued0.
  - intros k' d. at_fred k' k; [congruence|]. apply f_ret0.
Qed.

Lemma return_ok s f c k : inv s -> pcs s !! f = Some Park -> Rounds.waiting (hist s) f = Some k -> code s k = Some c ->
  inv (return_ f c s).
Proof.
  intros [Hd Hc] Hf Hw Hcd. split; [by eapply return_data|].
  pose proof (lock_same s f Park Idle (f_lock s Hc) Hf eq_refl) as Hl. unfold return_. rewrite Hw.
  destruct Hc. split; cbn [Rounds.leave Rounds.arrivals hist pcs]; counting Hf; try lia; try done.
  - adds_are 0 f_adds0.
  - intros g i park Hg. apply (others_batch s f Park Idle) in Hg; [|done|done]. by apply (f_batch0 g).
Qed.

(** The lock is released: [f] suspends or returns. *)
Lemma unlock_counts s s' f park c' : counts s -> pcs s !! f = Some (Unlock park) -> (c' = Idle \/ c' = Park) ->
  lock s' = None -> pcs s' = <[f := c']> (pcs s) -> popped s' = popped s -> code s' = code s -> counter s' = counter s ->
  Rounds.arrivals (hist s') = Rounds.arrivals (hist s) -> counts s'.
Proof.
  intros Hc Hf Hc' E1 E2 E3 E4 E5 E6. pose proof (lookup_lt_Some _ _ _ Hf) as Hlt.
  assert (Hl : lock s = Some f) by (apply (f_lock s Hc); by eexists).
  assert (locked c' = false /\ is_add c' = false /\ is_sub c' = false /\ is_lock c' = false /\ is_pop c' = false) as (L1 & L2 & L3 & L4 & L5)
    by (by destruct Hc' as [-> | ->]).
  destruct Hc. split; unfold adds, subs, batches, specials in *; rewrite ?E1, ?E2, ?E3, ?E4, ?E5, ?E6;
    rewrite ?(cnt_insert _ _ _ _ _ Hf), ?L2, ?L3, ?L4, ?L5; cbn [is_add is_sub is_lock is_pop Z.b2z]; try lia; try done.
  - intros g. split; [done|]. intros (d & Hg & Hd). exfalso. destruct (decide (g = f)) as [->|Hne].
    + rewrite list_lookup_insert_eq in Hg by done. congruence.
    + rewrite list_lookup_insert_ne in Hg by done. assert (lock s = Some g); [|congruence]. apply f_lock0. by eexists.
  - adds_are 0 f_adds0.
  - intros g i p Hg. apply (others_batch s f (Unlock park) c') in Hg; [|done|done]. by apply (f_batch0 g).
Qed.

Lemma fast_unlock_ok s f park : inv s -> pcs s !! f = Some (Unlock park) ->
  inv (if park then set_pc f Park (set_lock None s) else return_ f true (set_lock None s)).
Proof.
  intros [Hd Hc] Hf. assert (Hd' : data (set_lock None s)) by (destruct Hd; done). destruct park.
  - split; [by apply (data_pc _ f (Unlock true))|]. eapply (unlock_counts s); try done. by right.
  - destruct (f_found s Hd f _ Hf eq_refl) as (_ & k & Hw & Hcd). split.
    + by eapply return_data.
    + eapply (unlock_counts s); try done; unfold return_; cbn [hist set_lock]; rewrite ?Hw; cbn; auto.
Qed.

(** *** One iteration of the loop *)

(** Where the popped fred is in its batch. *)
Lemma next_index s i : (popped s mod t = i)%nat -> (i < t)%nat ->
  popped s = (batches s * t + i)%nat /\
  (if (S i <? t)%nat then (S (popped s) / t = batches s)%nat /\ (S (popped s) mod t = S i)%nat
   else (S (popped s) / t = S (batches s))%nat /\ (S (popped s) mod t = 0)%nat).
Proof.
  intros Hm Hi. unfold batches. pose proof (Nat.div_mod_eq (popped s) t) as Hp. split; [lia|].
  destruct (Nat.ltb_spec (S i) t) as [Hlt|Hge].
  - split; symmetry; [apply (Nat.div_unique _ _ _ (S i))|apply (Nat.mod_unique _ _ (popped s / t))]; lia.
  - split; symmetry; [apply (Nat.div_unique _ _ _ 0)|apply (Nat.mod_unique _ _ (S (popped s / t)))]; lia.
Qed.

Definition code_after (s : state) (c : bool) : nat -> option bool := upd (code s) (popped s) (Some c).

Lemma specials_below s c l : (forall k, k ∈ l -> (k < popped s)%nat) ->
  cnt (fun k => Rounds.is_serial (code_after s c k)) l = specials s l.
Proof. intros H. apply cnt_ext_elem. intros k Hk. unfold code_after. rewrite upd_ne; [done|]. specialize (H k Hk). lia. Qed.

(** The special codes of the current batch, with the one just given. *)
Lemma specials_next s i c : popped s = (batches s * t + i)%nat ->
  cnt (fun k => Rounds.is_serial (code_after s c k)) (seq (batches s * t) (S i)) = specials s (seq (batches s * t) i) + Z.b2z c.
Proof.
  intros Hp. rewrite seq_S, cnt_app, specials_below by (intros k; rewrite elem_of_seq; lia).
  cbn [cnt]. rewrite <- Hp. unfold code_after. rewrite upd_eq. rewrite Rounds.is_serial_some. lia.
Qed.

(** The popped fred waits, was not resumed, and has not found itself. *)
Lemma fast_head_ok s next q : data s -> queue s = next :: q ->
  Rounds.waiting (hist s) next = Some (popped s) /\ resumed s next = false /\ resumeInfo s next = false /\
  (forall c, pcs s !! next = Some c -> found c = false).
Proof.
  intros Hd Hq. assert (Hw : Rounds.waiting (hist s) next = Some (popped s)).
  { rewrite (f_queue s Hd 0 next) by (by rewrite Hq). f_equal. lia. }
  destruct (f_queued s Hd _ _ Hw) as [H1 H2]; [done|]. split_and!; [done..|].
  intros c Hc. destruct (found c) eqn:E; [|done]. destruct (f_found s Hd _ _ Hc E) as (_ & k & Hk & Hcd).
  rewrite Hw in Hk. injection Hk as <-. assert (code s (popped s) = None) by (by apply (f_code s Hd)). congruence.
Qed.

Section Notify.
Context (s : state) (f i : nat) (park : bool) (next : nat) (q : list nat).
Hypothesis (Hd : data s) (Hc : counts s) (Hf : pcs s !! f = Some (Pop i park)) (Hq : queue s = next :: q).

(** What the loop does with [next]. *)
Definition given : bool := if decide (next = f) then true else (i =? t - 1)%nat && park.
Definition park_after : bool := if decide (next = f) then false else park.
Definition after_pop : state :=
  let s1 := if decide (next = f) then drop_head q true s else wake next given (drop_head q given s) in
  set_pc f (if (S i <? t)%nat then Pop (S i) park_after else Unlock park_after) s1.

Lemma notify_after : notify f i park s = Some after_pop.
Proof. unfold notify, after_pop, given, park_after. rewrite Hq. by case_decide. Qed.

Lemma self_park : next = f -> park = true.
Proof.
  intros ->. destruct (fast_head_ok s f q Hd Hq) as (_ & _ & _ & H). specialize (H _ Hf). by destruct park.
Qed.

Lemma after_fields : queue after_pop = q /\ popped after_pop = S (popped s) /\ code after_pop = code_after s given /\
  hist after_pop = hist s /\ lock after_pop = lock s /\ counter after_pop = counter s /\
  pcs after_pop = <[f := if (S i <? t)%nat then Pop (S i) park_after else Unlock park_after]> (pcs s).
Proof. unfold after_pop, given, code_after. case_decide; done. Qed.

Lemma after_special r : (r < S (popped s) / t)%nat -> cnt (fun k => Rounds.is_serial (code_after s given k)) (seq (r * t) t) = 1.
Proof.
  destruct (f_batch s Hc f i park Hf) as (Hm & Hi & Hsp). destruct (next_index s i Hm Hi) as [Hp Hn]. intros Hr.
  destruct (decide (r < batches s)%nat) as [Hlt|Hge].
  - rewrite specials_below; [by apply (f_special s Hd)|]. intros k. rewrite elem_of_seq. nia.
  - destruct (Nat.ltb_spec (S i) t) as [Hs|Hs]; [lia|]. destruct Hn as [Hn _].
    assert (r = batches s) as -> by lia. replace t with (S i) at 2 by lia. rewrite specials_next, Hsp by done.
    unfold given. case_decide as Hself; [by rewrite self_park|]. assert ((i =? t - 1)%nat = true) as -> by (apply Nat.eqb_eq; lia).
    by destruct park.
Qed.

Lemma after_partial : (S i < t)%nat -> cnt (fun k => Rounds.is_serial (code_after s given k)) (seq (batches s * t) (S i)) = Z.b2z (negb park_after).
Proof.
  intros Hs. destruct (f_batch s Hc f i park Hf) as (Hm & Hi & Hsp). destruct (next_index s i Hm Hi) as [Hp _].
  rewrite specials_next, Hsp by done. unfold given, park_after. case_decide as Hself; [by rewrite self_park|].
  assert ((i =? t - 1)%nat = false) as -> by (apply Nat.eqb_neq; lia). cbn. lia.
Qed.

(** The fred's own state after the iteration: whether it has found itself. *)
Definition pc_after : pc := if (S i <? t)%nat then Pop (S i) park_after else Unlock park_after.
Lemma pc_after_ok : pc_after <> Idle /\ found pc_after = negb park_after /\ locked pc_after = true /\
  is_pop pc_after = (S i <? t)%nat /\ is_add pc_after = false /\ is_sub pc_after = false /\ is_lock pc_after = false.
Proof. unfold pc_after. destruct (S i <? t)%nat, park_after; done. Qed.

Lemma after_found g c : pcs after_pop !! g = Some c -> found c = true ->
  g = f /\ next = f \/ next <> g /\ exists c0, pcs s !! g = Some c0 /\ found c0 = true.
Proof.
  destruct after_fields as (_ & _ & _ & _ & _ & _ & ->). fold pc_after. pose proof (lookup_lt_Some _ _ _ Hf) as Hlt.
  destruct (fast_head_ok s next q Hd Hq) as (_ & _ & _ & Hnf). intros Hg Hfd. destruct (decide (g = f)) as [->|Hne].
  - rewrite list_lookup_insert_eq in Hg by done. injection Hg as <-. destruct pc_after_ok as (_ & Hp & _). rewrite Hp in Hfd.
    unfold park_after in Hfd. case_decide as Hself; [by left|]. right. split; [done|]. exists (Pop i park). split; [done|].
    by destruct park.
  - rewrite list_lookup_insert_ne in Hg by done. right. split; [|by exists c]. intros <-. by rewrite (Hnf c Hg) in Hfd.
Qed.

Lemma after_resumed : resumed after_pop = (if decide (next = f) then resumed s else upd (resumed s) next true) /\
  resumeInfo after_pop = (if decide (next = f) then resumeInfo s else upd (resumeInfo s) next given).
Proof.
  destruct (fast_head_ok s next q Hd Hq) as (_ & _ & Hi & _). unfold after_pop. case_decide; [done|].
  cbn [resumed resumeInfo set_pc wake drop_head]. by rewrite Hi.
Qed.

Lemma after_data : data after_pop.
Proof.
  destruct after_fields as (Eq & Ep & Ec & Eh & _ & _ & Epc). destruct after_resumed as [Er Ei]. fold pc_after in Epc.
  destruct (fast_head_ok s next q Hd Hq) as (Hw & Hnr & Hni & Hnf). pose proof (lookup_lt_Some _ _ _ Hf) as Hlt.
  destruct pc_after_ok as (Hidle & Hfound & _).
  assert (Hcode : forall k c, code s k = Some c -> code_after s given k = Some c).
  { intros k c Hk. unfold code_after. rewrite upd_ne; [done|]. intros <-. assert (code s (popped s) = None) by (by apply (f_code s Hd)). congruence. }
  assert (Hnew : code_after s given (popped s) = Some given) by (unfold code_after; by rewrite upd_eq).
  assert (Hbusy : forall g, (exists k, Rounds.waiting (hist s) g = Some k /\ code s k <> None) -> g <> next).
  { intros g (k & Hk & Hcd) ->. rewrite Hw in Hk. injection Hk as <-. apply Hcd. by apply (f_code s Hd). }
  split; rewrite ?Eh, ?Ep, ?Ec, ?Eq; try apply Hd.
  - rewrite Epc, length_insert. apply Hd.
  - intros j g Hj. rewrite (f_queue s Hd (S j) g) by (by rewrite Hq). f_equal. lia.
  - pose proof (f_pushed s Hd) as H. rewrite Hq in H. cbn in H. lia.
  - intros g. rewrite (f_wait s Hd), Epc. destruct (decide (g = f)) as [->|Hne]; [|by rewrite list_lookup_insert_ne].
    rewrite list_lookup_insert_eq, Hf by done. naive_solver.
  - intros g Hg. rewrite Er, Ei in *. case_decide as Hself.
    + destruct (f_resumed s Hd g Hg) as (k & Hk & Hcd). exists k. split; [done|]. by apply Hcode.
    + destruct (decide (g = next)) as [->|Hne]; [exists (popped s); by rewrite upd_eq|]. rewrite upd_ne in Hg |- * by done.
      destruct (f_resumed s Hd g Hg) as (k & Hk & Hcd). exists k. split; [done|]. by apply Hcode.
  - intros g c Hg Hfd. destruct (after_found g c Hg Hfd) as [[-> Hself]|(Hne & c0 & Hg0 & Hfd0)].
    + rewrite Er. rewrite decide_True by done. split; [congruence|]. exists (popped s). split; [congruence|].
      rewrite Hnew. unfold given. by rewrite decide_True.
    + destruct (f_found s Hd g c0 Hg0 Hfd0) as (Hr & k & Hk & Hcd). split; [|exists k; split; [done|by apply Hcode]].
      rewrite Er. case_decide; [done|]. by rewrite upd_ne.
  - intros g k Hg Hk. rewrite Er, Epc. destruct (decide (k = popped s)) as [->|Hne].
    + assert (g = next) as -> by (by apply (f_unique s Hd _ _ _ Hg Hw)). case_decide as Hself.
      * right. exists pc_after. rewrite Hself, list_lookup_insert_eq by done. split; [done|]. rewrite Hfound.
        unfold park_after. by rewrite decide_True.
      * left. by rewrite upd_eq.
    + destruct (f_popped s Hd g k Hg) as [Hr|(c & Hc' & Hfd)]; [lia| |].
      * left. case_decide; [done|]. destruct (decide (g = next)) as [->|]; [by rewrite upd_eq|by rewrite upd_ne].
      * right. destruct (decide (g = f)) as [->|Hgf]; [|exists c; by rewrite list_lookup_insert_ne].
        exists pc_after. rewrite list_lookup_insert_eq by done. split; [done|]. rewrite Hfound. rewrite Hf in Hc'. injection Hc' as <-.
        unfold park_after. case_decide; [done|]. by destruct park.
  - intros g k Hg Hk. destruct (f_queued s Hd g k Hg) as [H1 H2]; [lia|]. rewrite Er, Ei. case_decide; [done|].
    rewrite !upd_ne; [done| |]; intros ->; rewrite Hw in Hg; injection Hg as <-; lia.
  - intros k. destruct (decide (k = popped s)) as [->|Hne].
    + rewrite Hnew. split; [done|lia].
    + unfold code_after. rewrite upd_ne, (f_code s Hd) by done. lia.
  - intros k c Hk. apply Hcode. by apply (f_ret s Hd).
  - intros r Hr. unfold specials, batches in *. rewrite Ep in Hr. rewrite Ec. by apply after_special.
Qed.

Lemma after_counts : counts after_pop.
Proof.
  destruct after_fields as (_ & Ep & Ec & Eh & El & Ecn & Epc). fold pc_after in Epc.
  destruct pc_after_ok as (_ & _ & Hl & Hp & H1 & H2 & H3). destruct (f_batch s Hc f i park Hf) as (Hm & Hi & _).
  destruct (next_index s i Hm Hi) as [Hpp Hn]. pose proof (lookup_lt_Some _ _ _ Hf) as Hlt.
  pose proof (cnt_lookup is_pop _ _ _ Hf eq_refl) as Hpos.
  assert (Hsub : Z.of_nat (S (popped s) / t) + cnt is_lock (<[f := pc_after]> (pcs s)) + cnt is_pop (<[f := pc_after]> (pcs s)) = subs s).
  { rewrite !(cnt_insert _ _ _ _ _ Hf), Hp, H3. unfold subs. destruct (S i <? t)%nat; destruct Hn as [-> _]; cbn; lia. }
  split; unfold adds, subs, batches, specials; rewrite ?Ep, ?Ec, ?Eh, ?El, ?Ecn, ?Epc, ?Hsub, ?(cnt_insert is_add _ _ _ _ Hf), ?(cnt_insert is_sub _ _ _ _ Hf), ?H1, ?H2.
  - apply (lock_same s f (Pop i park)); [apply Hc|done|by rewrite Hl].
  - rewrite (f_counter s Hc). unfold adds. cbn. lia.
  - pose proof (f_adds s Hc) as Ha. unfold adds in Ha. cbn [is_add is_sub Z.b2z]. adds_are 0 Ha.
  - intros g j p. destruct (decide (g = f)) as [->|Hne].
    + rewrite list_lookup_insert_eq by done. unfold pc_after. destruct (Nat.ltb_spec (S i) t) as [Hs|]; [|done].
      intros [= <- <-]. destruct Hn as [-> Hn]. split_and!; [done|done|by apply after_partial].
    + rewrite list_lookup_insert_ne by done. intros Hg. exfalso.
      assert (lock s = Some g) by (apply (f_lock s Hc); by eexists). assert (lock s = Some f) by (apply (f_lock s Hc); by eexists). congruence.
  - rewrite (cnt_insert _ _ _ _ _ Hf), Hp. cbn [is_pop Z.b2z]. intros H0. destruct (S i <? t)%nat; [cbn in H0; lia|apply Hn].
Qed.
End Notify.

Lemma fastbar_step_inv s l s' : inv s -> step l s = Some s' -> inv s'.
Proof.
  intros Hi. destruct l as [f|f|f]; unfold step.
  - destruct (pcs s !! f) as [[]|] eqn:E; try done. intros [= <-]. by apply wait_ok.
  - destruct (pcs s !! f) as [[| | | |i park|park|]|] eqn:E; try done.
    + intros [= <-]. by apply fast_add_ok.
    + intros [= <-]. by apply fast_sub_ok.
    + destruct (lock s) eqn:El; [done|]. intros [= <-]. by apply fast_lock_ok.
    + destruct Hi as [Hd Hc]. destruct (queue s) as [|next q] eqn:Hq; [unfold notify; by rewrite Hq|].
      rewrite (notify_after s f i park next q Hq). intros [= <-]. split; [by apply (after_data s f i park next q)|by apply after_counts].
    + intros [= <-]. by apply (fast_unlock_ok s f park).
    + destruct (resumed s f) eqn:Er; [|done]. intros [= <-]. destruct (f_resumed s (proj1 Hi) f Er) as (k & Hk & Hcd).
      by apply (return_ok s f _ k).
  - destruct (pcs s !! f) as [[]|]; try done; by intros [= <-].
Qed.

(** ** Refinement *)

Lemma special_le s r : inv s -> specials s (seq (r * t) t) <= 1.
Proof.
  intros [Hd Hc]. destruct (decide (r < batches s)%nat) as [Hr|Hr]; [by rewrite (f_special s Hd)|].
  assert (Hnone : forall l, (forall k, k ∈ l -> (popped s <= k)%nat) -> specials s l = 0).
  { intros l Hl. apply cnt_none. intros i x Hx%list_elem_of_lookup_2. assert (code s x = None) as -> by (apply (f_code s Hd), Hl, Hx). done. }
  pose proof (Nat.div_mod_eq (popped s) t) as Hp. pose proof (Nat.mod_upper_bound (popped s) t) as Hm. fold (batches s) in Hp.
  destruct (decide (popped s <= r * t)%nat) as [Hle|Hgt].
  { rewrite Hnone; [lia|]. intros k. rewrite elem_of_seq. lia. }
  destruct (decide (cnt is_pop (pcs s) = 0)) as [H0|H0]; [pose proof (f_between s Hc H0); nia|].
  destruct (cnt_pos is_pop (pcs s)) as (f & c & Hf & Hfc); [pose proof (cnt_nonneg is_pop (pcs s)); lia|].
  destruct c as [| | | |i park| |]; try done. destruct (f_batch s Hc f i park Hf) as (Hi & Hit & Hsp).
  assert (r = batches s) as -> by nia.
  assert (seq (batches s * t) t = seq (batches s * t) i ++ seq (batches s * t + i) (t - i)) as ->
    by (rewrite <- seq_app; f_equal; lia).
  unfold specials in *. rewrite cnt_app, Hsp, Hnone; [destruct park; cbn; lia|]. intros k. rewrite elem_of_seq. lia.
Qed.

(** A popped fred's batch is complete. *)
Lemma popped_complete s k : inv s -> (k < popped s)%nat -> (S (k / t) * t <= Rounds.arrivals (hist s))%nat.
Proof.
  intros [Hd Hc] Hk. pose proof (f_adds s Hc) as Ha. pose proof (Z.mul_div_le (adds s) (Z.of_nat t) ltac:(lia)) as Hle.
  pose proof (cnt_nonneg is_add (pcs s)). pose proof (cnt_nonneg is_sub (pcs s)). pose proof (cnt_nonneg is_lock (pcs s)).
  pose proof (Nat.div_mod_eq (popped s) t). pose proof (Nat.div_mod_eq k t). pose proof (Nat.mod_upper_bound (popped s) t).
  pose proof (Nat.mod_upper_bound k t). pose proof (cnt_nonneg is_pop (pcs s)).
  assert (Z.of_nat (S (k / t)) <= adds s / Z.of_nat t); [|unfold adds in *; nia].
  rewrite Ha. unfold subs, batches. destruct (decide (cnt is_pop (pcs s) = 0)) as [Hz|Hz]; [pose proof (f_between s Hc Hz)|]; nia.
Qed.

Lemma may_leave_ok s f k c : inv s -> Rounds.inv n t (hist s) -> Rounds.waiting (hist s) f = Some k -> code s k = Some c ->
  Rounds.may_leave t k c (hist s) = true.
Proof.
  intros Hi Hri Hw Hcd. pose proof Hi as [Hd Hc]. destruct (Rounds.r_ticket _ _ _ Hri f k Hw) as (_ & _ & Hret).
  assert (Hk : (k < popped s)%nat).
  { destruct (decide (popped s <= k)%nat) as [H|]; [|lia]. apply (f_code s Hd) in H. congruence. }
  unfold Rounds.may_leave. apply andb_true_iff. split; [apply Nat.leb_le; by apply popped_complete|].
  assert (Hin : k ∈ Rounds.batch t k) by (by apply Rounds.in_batch). destruct c.
  - apply forallb_forall. intros k' Hk'%list_elem_of_In. apply negb_true_iff, bool_decide_false. intros Hr.
    pose proof (f_ret s Hd _ _ Hr) as Hcd'. assert (k' <> k) by congruence. pose proof (special_le s (k / t) Hi) as Hle.
    assert (2 <= specials s (seq (k / t * t) t)); [|lia].
    apply (cnt_two_elem _ _ k k'); try done; by rewrite ?Hcd, ?Hcd'.
  - apply existsb_exists. destruct (decide (k / t < batches s)%nat) as [Hlt|Hge].
    + pose proof (f_special s Hd _ Hlt) as H1. destruct (cnt_pos (fun k => Rounds.is_serial (code s k)) (seq (k / t * t) t)) as (j & x & Hx & Hs).
      { unfold specials in H1. lia. }
      exists x. split; [apply list_elem_of_In; by eapply list_elem_of_lookup_2|]. unfold Rounds.is_serial in Hs. bool_prop.
      apply andb_true_iff. split; apply negb_true_iff; [apply Nat.eqb_neq; congruence|]. apply bool_decide_false. intros Hr%(f_ret s Hd). congruence.
    + pose proof (Nat.div_mod_eq (popped s) t) as Hp. pose proof (Nat.mod_upper_bound (popped s) t) as Hm. fold (batches s) in Hp.
      pose proof (Nat.div_mod_eq k t). assert (Hlast : (popped s <= k / t * t + (t - 1))%nat) by nia.
      exists (k / t * t + (t - 1))%nat. split; [apply list_elem_of_In, elem_of_seq; lia|].
      apply andb_true_iff. split; apply negb_true_iff; [apply Nat.eqb_neq; lia|]. apply bool_decide_false. intros Hr%(f_ret s Hd).
      apply (f_code s Hd) in Hlast. congruence.
Qed.

(** The call or return that a step performs. *)
Definition event (l : label) (s : state) : option Rounds.label :=
  match l with
  | Wait f => Some (Rounds.Arrive f)
  | Go f =>
      match pcs s !! f with
      | Some (Unlock false) => Some (Rounds.Leave f true)
      | Some Park => Some (Rounds.Leave f (resumeInfo s f))
      | _ => None
      end
  | Spin _ => None
  end.

Lemma fast_step_refines s l s' : inv s /\ Rounds.inv n t (hist s) -> step l s = Some s' ->
  (inv s' /\ Rounds.inv n t (hist s')) /\
  match event l s with Some b => Rounds.step n t b (hist s) = Some (hist s') | None => hist s' = hist s end.
Proof.
  intros [Hi Hri] Hs. pose proof (fastbar_step_inv s l s' Hi Hs) as Hi'. pose proof Hi as [Hd Hc].
  assert (Hev : match event l s with Some b => Rounds.step n t b (hist s) = Some (hist s') | None => hist s' = hist s end).
  { assert (Hret : forall f c k, Rounds.waiting (hist s) f = Some k -> code s k = Some c ->
      Rounds.step n t (Rounds.Leave f c) (hist s) = Some (Rounds.leave f k c (hist s))).
    { intros f c k Hw Hcd. unfold Rounds.step. by rewrite Hw, (may_leave_ok s f k c). }
    destruct l as [f|f|f]; unfold step, event in *.
    - destruct (pcs s !! f) as [[]|] eqn:E; try done. injection Hs as <-. unfold Rounds.step.
      assert (Rounds.waiting (hist s) f = None) as -> by (apply (f_wait s Hd); by left).
      pose proof (lookup_lt_Some _ _ _ E) as Hlt. rewrite (f_len s Hd) in Hlt. apply Nat.ltb_lt in Hlt. by rewrite Hlt.
    - destruct (pcs s !! f) as [[| | | |i park|park|]|] eqn:E; try done.
      + by injection Hs as <-.
      + by injection Hs as <-.
      + destruct (lock s); [done|]. by injection Hs as <-.
      + destruct (queue s) as [|next q] eqn:Hq; [unfold notify in Hs; by rewrite Hq in Hs|].
        rewrite (notify_after s f i park next q Hq) in Hs. injection Hs as <-. by destruct (after_fields s f i park next q) as (_ & _ & _ & H & _).
      + destruct park; injection Hs as <-; [done|]. destruct (f_found s Hd f _ E eq_refl) as (_ & k & Hw & Hcd).
        rewrite (Hret f true k Hw Hcd). unfold return_. cbn [hist set_lock]. by rewrite Hw.
      + destruct (resumed s f) eqn:Er; [|done]. injection Hs as <-. destruct (f_resumed s Hd f Er) as (k & Hw & Hcd).
        rewrite (Hret f _ k Hw Hcd). unfold return_. cbn [hist]. by rewrite Hw.
    - destruct (pcs s !! f) as [[]|]; try done; by injection Hs as <-. }
  split; [|done]. split; [done|]. destruct (event l s) as [b|]; [|by rewrite Hev]. by eapply Rounds.step_inv.
Qed.

Lemma fast_refines s : reachable init step s -> inv s /\ reachable Rounds.init (Rounds.step n t) (hist s).
Proof.
  intros Hr. destruct (refinement_rule init step Rounds.init (Rounds.step n t) (fun s => inv s /\ Rounds.inv n t (hist s)) hist event) with (s := s)
    as [[Hi _] Ha]; [|exact fast_step_refines|done|done].
  intros s0 H0. split; [split; [by apply fast_init_ok|]|]; rewrite H0; [by apply Rounds.rounds_init_inv|done].
Qed.

(** Nobody is left behind: when no fred can go on, fewer than [t] are waiting. *)
Lemma fast_quiescent s : inv s -> (forall f, step (Go f) s = None) ->
  (length (queue s) < t)%nat /\ forall f k, Rounds.waiting (hist s) f = Some k -> (popped s <= k)%nat.
Proof.
  intros Hi Hno. pose proof Hi as [Hd Hc]. pose proof (f_adds s Hc) as Ha. pose proof (f_pushed s Hd) as Hp.
  pose proof (popped_bound s Hc) as (Hb & Hb2 & Hb3). pose proof (Z.mul_div_le (adds s) (Z.of_nat t) ltac:(lia)) as Hle.
  assert (Hpc : forall f c, pcs s !! f = Some c -> c = Idle \/ c = Park /\ resumed s f = false \/ c = Lock /\ lock s <> None).
  { intros f c Hf. specialize (Hno f). unfold step in Hno. rewrite Hf in Hno. destruct c as [| | | |i park|park|]; try done; auto.
    - destruct (lock s) eqn:E; [|done]. right. right. done.
    - destruct (queue s) as [|next q] eqn:Hq; [|by rewrite (notify_after s f i park next q Hq) in Hno].
      exfalso. destruct (f_batch s Hc f i park Hf) as (Hm & Hit & _). pose proof (Nat.div_mod_eq (popped s) t).
      pose proof (cnt_lookup is_pop _ _ _ Hf eq_refl). pose proof (cnt_nonneg is_lock (pcs s)). cbn in Hp. unfold adds, subs, batches in *. nia.
    - destruct (resumed s f) eqn:E; [done|]. right. by left. }
  assert (Hl : lock s = None).
  { destruct (lock s) as [f|] eqn:E; [|done]. apply (f_lock s Hc) in E as (c & Hf & Hlk).
    destruct (Hpc f c Hf) as [-> |[[-> _]|[-> _]]]; done. }
  assert (H0 : forall p : pc -> bool, p Idle = false -> p Park = false -> cnt p (pcs s) = 0).
  { intros p H1 H2. apply cnt_none. intros f c Hf. destruct (Hpc f c Hf) as [-> |[[-> _]|[_ Hx]]]; done. }
  pose proof (f_between s Hc (H0 is_pop eq_refl eq_refl)) as Hm. pose proof (Nat.div_mod_eq (popped s) t) as Hpd.
  unfold subs, adds, batches in *. rewrite !H0 in * by done. split.
  - pose proof (Z.mod_pos_bound (Z.of_nat (Rounds.arrivals (hist s)) - 0) (Z.of_nat t) ltac:(lia)).
    pose proof (Z.div_mod (Z.of_nat (Rounds.arrivals (hist s)) - 0) (Z.of_nat t) ltac:(lia)). nia.
  - intros f k Hw. destruct (decide (popped s <= k)%nat) as [|Hk]; [done|]. exfalso.
    destruct (f_popped s Hd f k Hw) as [Hr|(c & Hf & Hfd)]; [lia| |].
    + destruct (pcs s !! f) as [c|] eqn:Hf; [|rewrite (proj2 (f_wait s Hd f)) in Hw; [done|by right]].
      destruct (Hpc f c Hf) as [-> |[[_ Hx]|[-> Hx]]]; [|congruence|done]. rewrite (proj2 (f_wait s Hd f)) in Hw; [done|by left].
    + destruct (Hpc f c Hf) as [-> |[[-> _]|[-> _]]]; done.
Qed.
End FastBarrier.
End FastBarrier.

(** C9. [FastBarrier]: however the counter and the queue race, the calls and returns
    are those of the abstract barrier: nobody returns before a whole batch of
    [target] calls has arrived, each batch gets exactly one special return code,
    and when [target] freds use the barrier none of them is ever a full round
    ahead of another.  Nobody is left behind: when no fred can take a step, fewer
    than [target] freds wait, all of them in the queue. *)
Theorem fast_barrier_correct n t (s : FastBarrier.state) :
  (0 < t)%nat -> Z.of_nat n < 2 ^ W -> reachable (FastBarrier.init n) (FastBarrier.step t) s ->
  reachable Rounds.init (Rounds.step n t) (FastBarrier.hist s) /\
  Rounds.contract n t (FastBarrier.hist s) /\
  ((forall f, FastBarrier.step t (FastBarrier.Go f) s = None) ->
   (length (FastBarrier.queue s) < t)%nat /\
   forall f k, Rounds.waiting (FastBarrier.hist s) f = Some k -> (FastBarrier.popped s <= k)%nat).
Proof.
  intros Ht Hn Hr. destruct (FastBarrier.fast_refines n t Ht Hn s Hr) as [Hi Ha]. split; [done|].
  split; [by apply Rounds.contract_ok|]. by apply (FastBarrier.fast_quiescent n t Ht).
Qed.

(** Two freds of three with [target] 2: fred 2 pushes first but counts last, so
    fred 1 notifies freds 2 and 0 and has to wait for the next batch. *)
Definition fast_run : list FastBarrier.label :=
  [FastBarrier.Wait 2; FastBarrier.Wait 0; FastBarrier.Go 0; FastBarrier.Wait 1; FastBarrier.Go 1; FastBarrier.Go 1; FastBarrier.Go 1;
   FastBarrier.Go 1; FastBarrier.Go 1; FastBarrier.Go 1; FastBarrier.Go 0; FastBarrier.Go 2; FastBarrier.Go 2].
Definition fast_start (n : nat) : FastBarrier.state :=
  FastBarrier.mkState 0 [] None (replicate n FastBarrier.Idle) (fun _ => false) (fun _ => false) 0 (fun _ => None) Rounds.start.

Lemma fast_barrier_correct_witness :
  let s := after (FastBarrier.step 2) (fast_start 3) fast_run in
  (length (FastBarrier.queue s) < 2)%nat /\ Rounds.serials 2 (FastBarrier.hist s) 0 <= 1 /\
  FastBarrier.queue s = [1%nat] /\ map (Rounds.ret (FastBarrier.hist s)) [0; 1]%nat = [Some false; Some true].
Proof.
  set (s := after _ _ _). assert (Hr : reachable (FastBarrier.init 3) (FastBarrier.step 2) s) by (apply run_reaches; [done|reflexivity]).
  destruct (fast_barrier_correct 3 2 s) as (_ & [Hone _] & Hq); [lia|done|exact Hr|].
  split; [apply Hq|split; [apply Hone|by split]].
  intros [|[|[|f]]]; reflexivity.
Defined.

(** * [SpinBarrier] *)
Module SpinBarrier.
Section SpinBarrier.
Context (n t : nat).

(** [wait()]: spinning with the local variables [cnt] and [tgt]. *)
Inductive pc := Idle | Spinning (cnt tgt : Z).

Record state := mkState { counter : Z; pcs : nat -> pc; hist : Rounds.state (* ghost *) }.

Definition target : Z := Z.of_nat t.
Definition wait_target (cnt : Z) : Z := wrap W (wrap W (cnt + target) - cnt mod target).
Definition must_wait (tgt counter : Z) : bool := 0 <? sword W (wrap W (tgt - counter)).

Inductive label := Wait (f : nat) | Go (f : nat).

Definition step (l : label) (s : state) : option state :=
  match l with
  | Wait f =>
      match pcs s f with
      | Idle =>
          if (f <? n)%nat then
            let cnt := counter s in
            Some (mkState (wrap W (counter s + 1)) (upd (pcs s) f (Spinning cnt (wait_target cnt))) (Rounds.arrive f (hist s)))
          else None
      | _ => None
      end
  | Go f =>
      match pcs s f with
      | Spinning cnt tgt =>
          if must_wait tgt (counter s) then Some s
          else let res := cnt =? wrap W (tgt - 1) in
               Some (mkState (counter s) (upd (pcs s) f Idle)
                 (match Rounds.waiting (hist s) f with Some k => Rounds.leave f k res (hist s) | None => hist s end))
      | Idle => None
      end
  end.

Definition init (s : state) : Prop := s = mkState 0 (fun _ => Idle) Rounds.start.

(** The counter has not come near its sign bit. *)
Definition fits (s : state) : Prop := Z.of_nat (Rounds.arrivals (hist s)) + target < 2 ^ 63.

Definition last_of (k : nat) : bool := (k mod t =? t - 1)%nat.

Record inv (s : state) : Prop := mkInv {
  s_counter : counter s = Z.of_nat (Rounds.arrivals (hist s));
  s_pc : forall f, pcs s f = match Rounds.waiting (hist s) f with
                             | Some k => Spinning (Z.of_nat k) (Z.of_nat (S (k / t) * t))
                             | None => Idle
                             end;
  s_ret : forall k c, Rounds.ret (hist s) k = Some c -> c = last_of k;
  s_rounds : Rounds.inv n t (hist s) }.

Hypothesis t_pos : (0 < t)%nat.

Lemma arrivals_grow s l s' : step l s = Some s' -> (Rounds.arrivals (hist s) <= Rounds.arrivals (hist s'))%nat.
Proof.
  destruct l as [f|f]; unfold step; destruct (pcs s f); try done.
  - destruct (f <? n)%nat; [|done]. intros [= <-]. cbn. lia.
  - destruct (must_wait _ _); intros [= <-]; [done|]. cbn. by destruct (Rounds.waiting _ _).
Qed.

Lemma next_multiple k : (k < S (k / t) * t)%nat /\ (k mod t < t)%nat /\ (k = k / t * t + k mod t)%nat.
Proof. pose proof (Nat.div_mod_eq k t). pose proof (Nat.mod_upper_bound k t). lia. Qed.

Lemma wait_target_ok k : Z.of_nat k + target < 2 ^ 63 -> wait_target (Z.of_nat k) = Z.of_nat (S (k / t) * t).
Proof.
  intros Hk. unfold wait_target, target in *. destruct (next_multiple k) as (H1 & H2 & H3).
  rewrite <- Nat2Z.inj_mod. rewrite !wrap_small; unfold word; try lia. rewrite wrap_small; unfold word; lia.
Qed.

Lemma must_wait_ok k a : Z.of_nat a + target < 2 ^ 63 -> (k < a)%nat ->
  must_wait (Z.of_nat (S (k / t) * t)) (Z.of_nat a) = (a <? S (k / t) * t)%nat.
Proof.
  intros Ha Hk. destruct (next_multiple k) as (H1 & H2 & H3). unfold must_wait, target in *.
  assert (sword W (wrap W (Z.of_nat (S (k / t) * t) - Z.of_nat a)) = Z.of_nat (S (k / t) * t) - Z.of_nat a) as ->.
  { unfold sword, wrap. destruct (Z.ltb_spec ((Z.of_nat (S (k / t) * t) - Z.of_nat a) mod 2 ^ W) (2 ^ (W - 1))) as [Hs|Hs]; Z.div_mod_to_equations; lia. }
  destruct (Nat.ltb_spec a (S (k / t) * t)); [apply Z.ltb_lt|apply Z.ltb_ge]; lia.
Qed.

Lemma serial_ok k : Z.of_nat k + target < 2 ^ 63 -> (Z.of_nat k =? wrap W (Z.of_nat (S (k / t) * t) - 1)) = last_of k.
Proof.
  intros Hk. destruct (next_multiple k) as (H1 & H2 & H3). unfold last_of, target in *. rewrite wrap_small by (unfold word; lia).
  destruct (Nat.eqb_spec (k mod t) (t - 1)); [apply Z.eqb_eq|apply Z.eqb_neq]; lia.
Qed.

(** The last of a batch is the only one that returns the special code. *)
Lemma last_leaves s k : Rounds.inv n t s -> (forall k c, Rounds.ret s k = Some c -> c = last_of k) -> Rounds.ret s k = None ->
  (S (k / t) * t <= Rounds.arrivals s)%nat -> Rounds.may_leave t k (last_of k) s = true.
Proof.
  intros Hi Hr Hk Ha. unfold Rounds.may_leave. apply andb_true_iff. split; [by apply Nat.leb_le|].
  destruct (next_multiple k) as (H1 & H2 & H3). destruct (last_of k) eqn:E.
  - apply forallb_forall. intros k' Hk'%list_elem_of_In. apply negb_true_iff, bool_decide_false. intros Hs.
    assert (k' = k); [|congruence]. apply Hr in Hs. unfold last_of in *. symmetry in Hs. bool_prop.
    apply Rounds.batch_of in Hk'; [|done]. destruct (next_multiple k') as (_ & _ & H4). lia.
  - apply existsb_exists. exists (k / t * t + (t - 1))%nat. split; [apply list_elem_of_In, elem_of_seq; lia|].
    apply andb_true_iff. split; apply negb_true_iff.
    + apply Nat.eqb_neq. unfold last_of in E. bool_prop. lia.
    + apply bool_decide_false. intros Hs%Hr. symmetry in Hs. unfold last_of in Hs. bool_prop. apply Hs.
      symmetry. apply (Nat.mod_unique _ _ (k / t)); lia.
Qed.

Definition event (l : label) (s : state) : option Rounds.label :=
  match l with
  | Wait f => Some (Rounds.Arrive f)
  | Go f =>
      match pcs s f with
      | Spinning cnt tgt => if must_wait tgt (counter s) then None else Some (Rounds.Leave f (cnt =? wrap W (tgt - 1)))
      | Idle => None
      end
  end.

Lemma spin_step s l s' : inv s -> fits s' -> step l s = Some s' ->
  inv s' /\ match event l s with Some b => Rounds.step n t b (hist s) = Some (hist s') | None => hist s' = hist s end.
Proof.
  intros Hi Hf Hs. pose proof (arrivals_grow s l s' Hs) as Hg. pose proof Hi as [Hc Hp Hr Hri]. unfold fits in Hf.
  destruct l as [f|f]; unfold step, event in *.
  - pose proof (Hp f) as Hpf. destruct (Rounds.waiting (hist s) f) as [k|] eqn:Hw; rewrite Hpf in Hs; [done|].
    destruct (f <? n)%nat eqn:Hfn; [|done]. injection Hs as <-. cbn in Hf.
    assert (Hstep : Rounds.step n t (Rounds.Arrive f) (hist s) = Some (Rounds.arrive f (hist s))) by (unfold Rounds.step; by rewrite Hfn, Hw).
    split; [|done]. split; cbn [counter pcs hist].
    + rewrite Hc. cbn. rewrite wrap_small; unfold word, target in *; lia.
    + intros g. cbn. at_fred g f; [|apply Hp]. rewrite Hc, wait_target_ok by lia. done.
    + done.
    + by eapply Rounds.step_inv.
  - pose proof (Hp f) as Hpf. destruct (Rounds.waiting (hist s) f) as [k|] eqn:Hw; rewrite Hpf in Hs |- *; [|done].
    destruct (Rounds.r_ticket _ _ _ Hri f k Hw) as (Hfn & Hka & Hret).
    rewrite Hc, must_wait_ok in * by (unfold target in *; lia). destruct (_ <? _)%nat eqn:Hmw; [by injection Hs as <-|].
    assert (Hser : (Z.of_nat k =? wrap W (Z.of_nat (S (k / t) * t) - 1)) = last_of k) by (apply serial_ok; unfold target in *; lia).
    rewrite Hser in *. injection Hs as <-. bool_prop.
    assert (Hstep : Rounds.step n t (Rounds.Leave f (last_of k)) (hist s) = Some (Rounds.leave f k (last_of k) (hist s)))
      by (unfold Rounds.step; by rewrite Hw, last_leaves).
    split; [|done]. split; cbn [counter pcs hist].
    + done.
    + intros g. cbn. at_fred g f; [done|apply Hp].
    + intros j c. cbn. at_fred j k; [congruence|apply Hr].
    + by eapply Rounds.step_inv.
Qed.

Lemma spin_refines s : reachable init step s -> fits s -> inv s /\ reachable Rounds.init (Rounds.step n t) (hist s).
Proof.
  intros Hr Hf. induction Hr as [s ->|s l s' _ IH Hs].
  - split; [|by apply reach_init]. split; try done. by apply Rounds.rounds_init_inv.
  - destruct IH as [Hi Ha]; [unfold fits in *; pose proof (arrivals_grow s l s' Hs); lia|].
    destruct (spin_step s l s' Hi Hf Hs) as [Hi' Hev]. split; [done|]. destruct (event l s); [by eapply reach_step|congruence].
Qed.
End SpinBarrier.
End SpinBarrier.

(** [SpinBarrier] implements the abstract barrier as long as its counter does not
    reach the sign bit, and nobody is left behind: when no thread can leave, fewer
    than [target] threads spin. *)
Theorem spin_barrier_correct n t (s : SpinBarrier.state) :
  (0 < t)%nat -> reachable SpinBarrier.init (SpinBarrier.step n t) s -> SpinBarrier.fits t s ->
  reachable Rounds.init (Rounds.step n t) (SpinBarrier.hist s) /\
  Rounds.contract n t (SpinBarrier.hist s) /\
  ((forall f, SpinBarrier.step n t (SpinBarrier.Go f) s = None \/ SpinBarrier.step n t (SpinBarrier.Go f) s = Some s) ->
   forall f k, Rounds.waiting (SpinBarrier.hist s) f = Some k -> (Rounds.arrivals (SpinBarrier.hist s) < S (k / t) * t)%nat).
Proof.
  intros Ht Hr Hf. destruct (SpinBarrier.spin_refines n t Ht s Hr Hf) as [[Hc Hp Hret Hri] Ha]. split; [done|].
  split; [by apply Rounds.contract_ok|]. intros Hno f k Hw. specialize (Hno f). specialize (Hp f). rewrite Hw in Hp.
  unfold SpinBarrier.step in Hno. rewrite Hp in Hno. destruct (Rounds.r_ticket _ _ _ Hri f k Hw) as (_ & Hk & _).
  rewrite Hc, SpinBarrier.must_wait_ok in Hno by (unfold SpinBarrier.fits, SpinBarrier.target in *; lia).
  destruct (_ <? _)%nat eqn:E; [by bool_prop|]. destruct Hno as [|Hno]; [done|]. injection Hno as Hno.
  apply (f_equal (fun s => SpinBarrier.pcs s f)) in Hno. cbn in Hno. rewrite upd_eq, Hp in Hno. done.
Qed.

Definition spin_start : SpinBarrier.state := SpinBarrier.mkState 0 (fun _ => SpinBarrier.Idle) Rounds.start.
Definition spin_run : list SpinBarrier.label :=
  [SpinBarrier.Wait 0; SpinBarrier.Go 0; SpinBarrier.Wait 1; SpinBarrier.Go 0; SpinBarrier.Wait 0; SpinBarrier.Go 1].

Lemma spin_barrier_correct_witness :
  let s := after (SpinBarrier.step 2 2) spin_start spin_run in
  (Rounds.arrivals (SpinBarrier.hist s) < 4)%nat /\ Rounds.serials 2 (SpinBarrier.hist s) 0 <= 1 /\
  map (Rounds.ret (SpinBarrier.hist s)) [0; 1]%nat = [Some false; Some true].
Proof.
  set (s := after _ _ _). assert (Hr : reachable SpinBarrier.init (SpinBarrier.step 2 2) s) by (apply run_reaches; [done|reflexivity]).
  destruct (spin_barrier_correct 2 2 s) as (_ & [Hone _] & Hq); [lia|exact Hr|by vm_compute|].
  split; [apply (Hq ltac:(intros [|[|f]]; [right|left|left]; reflexivity) 0%nat 2%nat eq_refl)|split; [apply Hone|reflexivity]].
Defined.

(** The comment at the loop says that it works with overflow.  It does not unless
    [target] divides [2^64]: with [target] 3, the three threads of the round in
    which the counter wraps around compute different targets; the first one
    leaves, the other two keep spinning. *)
Definition wrap_round : list SpinBarrier.label :=
  [SpinBarrier.Wait 0; SpinBarrier.Wait 1; SpinBarrier.Wait 2; SpinBarrier.Go 0; SpinBarrier.Go 1; SpinBarrier.Go 2].

Theorem spin_barrier_wraps :
  let s0 := SpinBarrier.mkState (2 ^ 64 - 1) (fun _ => SpinBarrier.Idle) Rounds.start in
  let s := after (SpinBarrier.step 3 3) s0 wrap_round in
  (2 ^ 64 - 1) mod 3 = 0 /\
  map (SpinBarrier.pcs s) [0; 1; 2]%nat = [SpinBarrier.Idle; SpinBarrier.Spinning 0 3; SpinBarrier.Spinning 1 3] /\
  SpinBarrier.counter s = 2 /\
  SpinBarrier.step 3 3 (SpinBarrier.Go 1) s = Some s /\ SpinBarrier.step 3 3 (SpinBarrier.Go 2) s = Some s.
Proof. repeat split. Qed.
