(* ===== verification/Fibres.v ===== *)
(** The life of a fibre and the part of the pthread-like interface that creates,
    joins and detaches fibres ([src/libfibre/Fibre.h], [src/libfibre/fibre.h],
    [src/runtime-glue/RuntimeFred.h]). *)
From S2P Require Import Prelude Words Freds Schedulers Sync FibreLocals.

Local Open Scope Z_scope.

(** * From the fibre's function to [delete]

    The runner executes the fibre's function, stores the result, switches away
    for the last time, and the next fibre on that processor calls [destroy]; a
    joiner executes [fibre_join], which joins twice: [join()] and the destructor. *)
Section Life.
Context (joiner : Z).   (* the address of the joining fred *)

(** [RuntimeStartFred] and [finalize]; [terminate]; in [destroy]: [stackFree],
    [done.post()] before, inside and at the end of its locked block. *)
Inductive rpc := RFunction | RTerminate | RStackFree | RPost | RLocked | RUnlock | REnd.

(** [done.wait()], the first ([second = false]) in [join()] or the second in
    [~Fibre()]: before the lock, with the lock, about to release it and suspend,
    suspended, about to lock again, before the test of the state, at the end of
    the locked block. *)
Inductive jpc :=
| JStart (second : bool) | JLocked (second : bool) | JRelease (second : bool) | JSuspended (second : bool)
| JLock (second : bool) | JTest (second : bool) | JUnlock (second : bool) | JEnd.

Inductive actor := Runner | Joiner | Detacher.
#[global] Instance actor_dec : EqDecision actor.
Proof. solve_decision. Defined.

Record life := mkLife {
  flag : Z;                  (* [done]: the union of waiter and state *)
  lock : option actor;       (* [done]'s lock *)
  result : option Z;         (* not initialised before [finalize] *)
  stack : bool;              (* the stack is mapped *)
  resumed : bool;            (* the joiner's suspension has been resumed *)
  runner : rpc; join : jpc;
  retval : option (option Z);  (* what [fibre_join] stored *)
  deleted : bool;
  bad : bool }.              (* [RABORT], or a step on a deleted fibre *)

Definition with_runner (c : rpc) (s : life) : life :=
  mkLife (flag s) (lock s) (result s) (stack s) (resumed s) c (join s) (retval s) (deleted s) (bad s || deleted s).
Definition with_join (c : jpc) (s : life) : life :=
  mkLife (flag s) (lock s) (result s) (stack s) (resumed s) (runner s) c (retval s) (deleted s) (bad s || deleted s).
Definition with_flag (w : Z) (o : option actor) (s : life) : life :=
  mkLife w o (result s) (stack s) (resumed s) (runner s) (join s) (retval s) (deleted s) (bad s).
Definition with_resumed (b : bool) (s : life) : life :=
  mkLife (flag s) (lock s) (result s) (stack s) b (runner s) (join s) (retval s) (deleted s) (bad s).
Definition finalize (r : Z) (s : life) : life :=
  mkLife (flag s) (lock s) (Some r) (stack s) (resumed s) (runner s) (join s) (retval s) (deleted s) (bad s).
Definition free_stack (s : life) : life :=
  mkLife (flag s) (lock s) (result s) false (resumed s) (runner s) (join s) (retval s) (deleted s) (bad s || negb (stack s)).
Definition store_result (s : life) : life :=
  mkLife (flag s) (lock s) (result s) (stack s) (resumed s) (runner s) (join s) (Some (result s)) (deleted s) (bad s).
Definition delete_ (s : life) : life :=
  mkLife (flag s) (lock s) (result s) (stack s) (resumed s) (runner s) (join s) (retval s) true (bad s).
Definition crash (s : life) : life :=
  mkLife (flag s) (lock s) (result s) (stack s) (resumed s) (runner s) (join s) (retval s) (deleted s) true.

(** The effect of [post]'s and [detach]'s result on the joiner. *)
Definition notify (next : option Z) (s : life) : life :=
  if decide (next = Some joiner) then with_resumed true s else s.

Inductive llabel := Return (r : Z) | Run | Join | Detach.

Definition run_step (l : llabel) (s : life) : option life :=
  match l, runner s with
  | Return r, RFunction => Some (with_runner RTerminate (finalize r s))
  | Run, RTerminate => Some (with_runner RStackFree s)
  | Run, RStackFree => Some (with_runner RPost (free_stack s))
  | Run, RPost => match lock s with None => Some (with_runner RLocked (with_flag (flag s) (Some Runner) s)) | _ => None end
  | Run, RLocked =>
      match Flag.post (flag s) with
      | Some (_, next, w) => Some (notify next (with_runner RUnlock (with_flag w (lock s) s)))
      | None => Some (crash s)
      end
  | Run, RUnlock => Some (with_runner REnd (with_flag (flag s) None s))
  | _, _ => None
  end.

Definition join_step (s : life) : option life :=
  match join s with
  | JStart b => match lock s with None => Some (with_join (JLocked b) (with_flag (flag s) (Some Joiner) s)) | _ => None end
  | JLocked b =>
      match Flag.wait_begin joiner (flag s) with
      | Some w => Some (with_join (JRelease b) (with_flag w (lock s) s))
      | None => Some (with_join (JTest b) s)
      end
  | JRelease b => Some (with_join (JSuspended b) (with_flag (flag s) None s))
  | JSuspended b => if resumed s then Some (with_join (JLock b) (with_resumed false s)) else None
  | JLock b => match lock s with None => Some (with_join (JTest b) (with_flag (flag s) (Some Joiner) s)) | _ => None end
  | JTest b => match Flag.wait_end (flag s) with Some _ => Some (with_join (JUnlock b) s) | None => Some (crash s) end
  | JUnlock false => Some (with_join (JStart true) (store_result (with_flag (flag s) None s)))
  | JUnlock true => Some (delete_ (with_join JEnd (with_flag (flag s) None s)))
  | JEnd => None
  end.

(** [fibre_detach]: the whole call, which holds the lock throughout. *)
Definition detach_step (s : life) : option life :=
  match lock s with
  | None => match Flag.detach (flag s) with
            | Some (next, w) => Some (notify next (with_flag w None s))
            | None => Some (crash s)
            end
  | Some _ => None
  end.

(** [detachable]: somebody may detach the fibre. *)
Definition life_step (detachable : bool) (l : llabel) (s : life) : option life :=
  match l with
  | Join => join_step s
  | Detach => if detachable then detach_step s else None
  | _ => run_step l s
  end.

Definition life_start : life :=
  mkLife Flag.Running None None true false RFunction (JStart false) None false false.
Definition life_init (s : life) : Prop := s = life_start.

(** ** Invariant: everything follows from where the two are *)
Definition before_post (c : rpc) : bool := match c with RUnlock | REnd => false | _ => true end.
Definition runner_locked (c : rpc) : bool := match c with RLocked | RUnlock => true | _ => false end.
Definition joiner_locked (c : jpc) : bool := match c with JLocked _ | JRelease _ | JTest _ | JUnlock _ => true | _ => false end.
(** The joiner has seen the post. *)
Definition passed (c : jpc) : bool := match c with JTest _ | JUnlock _ | JEnd => true | JStart b | JLocked b => b | _ => false end.
(** The first join has returned. *)
Definition again (c : jpc) : bool :=
  match c with
  | JStart b | JLocked b | JRelease b | JSuspended b | JLock b | JTest b | JUnlock b => b
  | JEnd => true
  end.

Definition possible (r : rpc) (j : jpc) : bool :=
  negb (runner_locked r && joiner_locked j) &&
  if before_post r then match j with JStart b | JLocked b | JRelease b | JSuspended b => negb b | _ => false end
  else match j with
       | JRelease _ => false
       | JSuspended b | JLock b => negb b
       | _ => negb (passed j) || match r with REnd => true | _ => false end
       end.

Definition flag_of (r : rpc) (j : jpc) : Z :=
  if before_post r then match j with JStart _ | JLocked _ => Flag.Running | _ => joiner end else Flag.Posted.
Definition life_of (r : rpc) (j : jpc) (v : Z) : life :=
  let res := match r with RFunction => None | _ => Some v end in
  mkLife (flag_of r j) (if runner_locked r then Some Runner else if joiner_locked j then Some Joiner else None)
    res (match r with RFunction | RTerminate | RStackFree => true | _ => false end)
    (negb (before_post r) && match j with JSuspended _ => true | _ => false end) r j
    (if again j then Some res else None) (match j with JEnd => true | _ => false end) false.

Definition life_inv (s : life) : Prop := exists r j v, possible r j = true /\ s = life_of r j v.

Hypothesis joiner_address : joiner <> Flag.Running /\ joiner <> Flag.Posted /\ joiner <> Flag.Detached.

Ltac settled v := match goal with |- exists r j u, _ /\ ?x = _ => exists (runner x), (join x), v; split; reflexivity end.

Lemma life_step_inv s l s' : life_inv s -> life_step false l s = Some s' -> life_inv s'.
Proof.
  destruct joiner_address as (H0 & H2 & H4). apply Z.eqb_neq in H0, H2, H4. intros (r & j & v & Hp & ->) Hs.
  unfold life_inv. destruct l as [v'| | |]; [| | |done].
  - destruct r, j as [[]|[]|[]|[]|[]|[]|[]|]; try done; injection Hs as <-; settled v'.
  - destruct r, j as [[]|[]|[]|[]|[]|[]|[]|]; try done; unfold life_step, run_step, life_of, flag_of, Flag.post in Hs; cbn in Hs;
      rewrite ?H0, ?H2, ?H4 in Hs; cbn in Hs; unfold notify in Hs; rewrite ?decide_True in Hs by done; cbn in Hs; try done;
      injection Hs as <-; settled v.
  - destruct r, j as [[]|[]|[]|[]|[]|[]|[]|]; try done; unfold life_step, join_step, life_of, flag_of, Flag.wait_begin, Flag.wait_end in Hs; cbn in Hs;
      rewrite ?H0, ?H2, ?H4 in Hs; cbn in Hs; try done; injection Hs as <-; settled v.
Qed.

Lemma life_reachable_inv s : reachable life_init (life_step false) s -> life_inv s.
Proof.
  apply invariant_rule; [|apply life_step_inv]. intros s0 ->. by exists RFunction, (JStart false), 0.
Qed.

(** What can still happen to the fibre and its joiner. *)
Definition joiner_moves (s : life) : bool := match join_step s with Some _ => true | None => false end.
Definition runner_moves (s : life) : bool := match run_step Run s with Some _ => true | None => false end.

(** C27. [fibre_join]: it delivers exactly the value that the fibre's function
    returned; the fibre is deleted after its stack is unmapped and after its last
    access to the object; nothing is unmapped twice, no state aborts, and while
    the function has returned and the fibre is not deleted, the fibre's end or
    the joiner can go on. *)
Theorem fibre_join_correct s :
  reachable life_init (life_step false) s ->
  bad s = false /\
  (forall r, retval s = Some r -> r = result s /\ r <> None) /\
  (deleted s = true -> runner s = REnd /\ stack s = false /\ retval s = Some (result s)) /\
  (runner s <> RFunction -> deleted s = false -> runner_moves s || joiner_moves s = true).
Proof.
  destruct joiner_address as (H0 & H2 & H4). apply Z.eqb_neq in H0, H2, H4.
  intros (r & j & v & Hp & ->)%life_reachable_inv. split; [done|]. split; [|split].
  - intros x. destruct r, j as [[]|[]|[]|[]|[]|[]|[]|]; try done; by intros [= <-].
  - by destruct r, j as [[]|[]|[]|[]|[]|[]|[]|].
  - destruct r, j as [[]|[]|[]|[]|[]|[]|[]|]; try done; intros _ _; unfold runner_moves, joiner_moves, run_step, join_step, life_of, flag_of, Flag.post, Flag.wait_begin, Flag.wait_end;
      cbn; rewrite ?H0, ?H2, ?H4; cbn; rewrite ?H0, ?H2, ?H4; done.
Qed.
End Life.

Definition join_run : list llabel :=
  [Join; Join; Join; Return 42; Run; Run; Run; Run; Run; Join; Join; Join; Join; Join; Join; Join; Join].

Lemma fibre_join_correct_witness :
  let s := after (life_step 4096 false) life_start join_run in
  retval s = Some (Some 42) /\ deleted s = true /\ stack s = false.
Proof.
  set (s := after _ _ _). assert (Hr : reachable life_init (life_step 4096 false) s) by (apply run_reaches; [done|reflexivity]).
  destruct (fibre_join_correct 4096 ltac:(split_and!; discriminate) s Hr) as (_ & _ & H & _).
  assert (deleted s = true) as Hd by (by vm_compute). destruct (H Hd) as (_ & Hs & _). split; [by vm_compute|]. by split.
Defined.

(** A fibre that has ended and not been joined can still be detached by
    [pthread_detach]; [fibre_detach] fails: the assertion in [detach] excludes
    the posted state (without assertions the state is used as the waiter). *)
Theorem detach_after_end :
  let s := after (life_step 4096 true) life_start [Return 42; Run; Run; Run; Run; Run] in
  runner s = REnd /\ flag s = Flag.Posted /\ bad (after (life_step 4096 true) s [Detach]) = true.
Proof. repeat split. Qed.

(** * Attributes and creation

    [cluster] and function pointers are addresses; an [int] argument is
    converted to [size_t] when it is stored and back when it is read. *)
Definition DefaultStackSize : Z := 65536.
Definition DefaultStackGuard : Z := 4096.
Definition DefaultPriority : Z := 1.
Definition NumPriority : Z := 3.
Definition DefaultAffinity : bool := false.

Record fibre_attr_t := mkAttr {
  cluster : Z; stackSize : Z; guardSize : Z; priority : Z; affinity : Z; detached : bool }.

Definition fibre_attr_init (CurrCluster : Z) : fibre_attr_t :=
  mkAttr CurrCluster DefaultStackSize DefaultStackGuard DefaultPriority (Z.b2z DefaultAffinity) false.

Definition fibre_attr_setcluster (c : Z) (a : fibre_attr_t) : fibre_attr_t :=
  mkAttr c (stackSize a) (guardSize a) (priority a) (affinity a) (detached a).
Definition fibre_attr_setstacksize (n : Z) (a : fibre_attr_t) : fibre_attr_t :=
  mkAttr (cluster a) n (guardSize a) (priority a) (affinity a) (detached a).
Definition fibre_attr_setguardsize (n : Z) (a : fibre_attr_t) : fibre_attr_t :=
  mkAttr (cluster a) (stackSize a) n (priority a) (affinity a) (detached a).
Definition fibre_attr_setpriority (p : Z) (a : fibre_attr_t) : fibre_attr_t :=
  mkAttr (cluster a) (stackSize a) (guardSize a) (wrap W p) (affinity a) (detached a).
Definition fibre_attr_setaffinity (x : Z) (a : fibre_attr_t) : fibre_attr_t :=
  mkAttr (cluster a) (stackSize a) (guardSize a) (priority a) (wrap W x) (detached a).
Definition fibre_attr_setdetachstate (x : Z) (a : fibre_attr_t) : fibre_attr_t :=
  mkAttr (cluster a) (stackSize a) (guardSize a) (priority a) (affinity a) (negb (x =? 0)).

Definition fibre_attr_getcluster (a : fibre_attr_t) : Z := cluster a.
Definition fibre_attr_getstacksize (a : fibre_attr_t) : Z := stackSize a.
Definition fibre_attr_getguardsize (a : fibre_attr_t) : Z := guardSize a.
Definition fibre_attr_getpriority (a : fibre_attr_t) : Z := to_int (priority a).
Definition fibre_attr_getaffinity (a : fibre_attr_t) : Z := to_int (affinity a).
Definition fibre_attr_getdetachstate (a : fibre_attr_t) : Z := Z.b2z (detached a).

(** A new fibre that has been put into a ready queue. *)
Record created := mkCreated {
  scheduler : Z; memory : FibreLocals.Fibre; c_priority : Z; c_affinity : bool; done_ : Z }.

Section Create.
Context (pagesize : Z) (mmap : Z -> Z) (CurrScheduler : Z).

(** [new Fibre(sched, size, guard)] *)
Definition new_fibre (sched size guard : Z) : option created :=
  m ← stackAlloc pagesize mmap size guard;
  Some (mkCreated sched m DefaultPriority DefaultAffinity Flag.Running).

(** [run()]: the ready queue accepts only the priorities it has. *)
Definition run (f : created) : option created := rassert (c_priority f <? NumPriority);; Some f.

Definition fibre_create (attr : option fibre_attr_t) : option created :=
  match attr with
  | None => f ← new_fibre CurrScheduler DefaultStackSize DefaultStackGuard; run f
  | Some a =>
      f ← new_fibre (cluster a) (stackSize a) (guardSize a);
      w ← (if detached a then '(_, w) ← Flag.detach (done_ f); Some w else Some (done_ f));
      run (mkCreated (scheduler f) (memory f) (priority a) (negb (affinity a =? 0)) w)
  end.
End Create.

Definition is_int (x : Z) : Prop := - 2 ^ 31 <= x < 2 ^ 31.

Lemma int_roundtrip x : is_int x -> to_int (wrap W x) = x.
Proof.
  unfold is_int, to_int, wrap. intros Hx. rewrite <- (Znumtheory.Zmod_div_mod (2 ^ 32) (2 ^ W)); [|lia|lia|by exists (2 ^ 32)].
  destruct (Z.ltb_spec (x mod 2 ^ 32) (2 ^ 31)); Z.div_mod_to_equations; lia.
Qed.

(** Every attribute is read back as it was set, also a negative [int], and the
    detach state as 0 or 1; setting one leaves the others alone.  A fibre created
    with initialised attributes is the one created without; with a stack and a
    guard of whole pages the fibre gets the cluster, the priority, the affinity
    and the detach state that were set, and the requested stack above the guard;
    a priority that does not exist, a negative one included, is rejected. *)
Theorem fibre_attr_correct a x :
  is_int x ->
  (fibre_attr_getpriority (fibre_attr_setpriority x a) = x /\ fibre_attr_getaffinity (fibre_attr_setaffinity x a) = x /\
   fibre_attr_getdetachstate (fibre_attr_setdetachstate x a) = Z.b2z (negb (x =? 0)) /\
   fibre_attr_getaffinity (fibre_attr_setpriority x a) = fibre_attr_getaffinity a /\
   fibre_attr_getpriority (fibre_attr_setaffinity x a) = fibre_attr_getpriority a) /\
  (forall p mmap s, fibre_create p mmap s (Some (fibre_attr_init s)) = fibre_create p mmap s None) /\
  (forall p mmap s size guard,
     4 <= p < W -> 0 < size -> 0 <= guard -> size mod 2 ^ p = 0 -> guard mod 2 ^ p = 0 ->
     0 < mmap (size + guard) -> mmap (size + guard) mod 2 ^ p = 0 -> mmap (size + guard) + (size + guard) < 2 ^ W ->
     let a' := fibre_attr_setpriority x (fibre_attr_setguardsize guard (fibre_attr_setstacksize size a)) in
     match fibre_create (2 ^ p) mmap s (Some a') with
     | Some f =>
         0 <= x < NumPriority /\ scheduler f = cluster a /\ c_priority f = x /\ c_affinity f = negb (affinity a =? 0) /\
         done_ f = (if detached a then Flag.Detached else Flag.Running) /\
         snd (usable guard (memory f)) - fst (usable guard (memory f)) = size
     | None => ~ 0 <= x < NumPriority
     end).
Proof.
  intros Hx. split_and!; try done.
  - by apply int_roundtrip.
  - by apply int_roundtrip.
  - intros p mmap s. unfold fibre_create, new_fibre. cbn [cluster stackSize guardSize fibre_attr_init].
    by destruct (stackAlloc p mmap DefaultStackSize DefaultStackGuard).
  - intros p mmap s size guard Hp Hs Hg Hsp Hgp Hm Hmp Hw a'.
    destruct (stackAlloc_ok p mmap size guard) as (m & Ha & Hu & _); try done.
    unfold fibre_create, new_fibre. cbn [stackSize guardSize cluster a' fibre_attr_setpriority fibre_attr_setguardsize fibre_attr_setstacksize detached priority affinity].
    rewrite Ha. cbn [mbind option_bind done_]. unfold Flag.detach. cbn.
    assert (Hpr : (wrap W x <? NumPriority) = bool_decide (0 <= x < NumPriority)).
    { unfold is_int, wrap, NumPriority in *. destruct (decide (0 <= x)).
      - rewrite Z.mod_small by lia. case_bool_decide; [apply Z.ltb_lt|apply Z.ltb_ge]; lia.
      - rewrite bool_decide_false by lia. apply Z.ltb_ge. Z.div_mod_to_equations. lia. }
    destruct (detached a); cbn; unfold run; cbn [c_priority]; rewrite Hpr; case_bool_decide as Hb; cbn [rassert mbind option_bind]; try done;
      split_and!; try done; try lia; cbn; apply wrap_small; unfold word, NumPriority in *; lia.
Qed.

Lemma fibre_attr_correct_witness :
  fibre_attr_getpriority (fibre_attr_setpriority (-1) (fibre_attr_init 8)) = -1 /\
  match fibre_create 4096 (fun _ => 65536) 8 (Some (fibre_attr_setpriority 2 (fibre_attr_init 8))) with
  | Some f => c_priority f = 2
  | None => False
  end.
Proof.
  destruct (fibre_attr_correct (fibre_attr_init 8) (-1)) as ((H & _) & _); [unfold is_int; lia|]. split; [exact H|reflexivity].
Defined.
