(* ===== verification/CApi.v ===== *)
(** Mutex attributes in the C++ interface ([src/libfibre/fibre.h]) and through
    the handles of the C interface ([src/libfibre/cfibre.cc]). *)
From S2P Require Import Prelude Words.

Local Open Scope Z_scope.

(** Memory by address; a pointer is the word at its address, an [int] the low
    half of it. *)
Definition memory := Z -> Z.
Definition read_int (m : memory) (a : Z) : Z := to_int (m a).
(** Storing an [int] keeps the upper half of the word. *)
Definition write_int (m : memory) (a x : Z) : memory := upd m a (Z.shiftl (Z.shiftr (m a) 32) 32 + x mod 2 ^ 32).

Definition nullptr : Z := 0.
Definition PTHREAD_MUTEX_RECURSIVE : Z := 1.
Definition FIBRE_MUTEX_DEFAULT : Z := 0.

(** * [fibre_mutexattr_t]: one [int] at the address of the struct *)
Definition construct_mutexattr (attr : Z) (m : memory) : memory := write_int m attr FIBRE_MUTEX_DEFAULT.
Definition fibre_mutexattr_init (attr : Z) (m : memory) : Z * memory := (0, m).
Definition fibre_mutexattr_settype (attr type : Z) (m : memory) : Z * memory := (0, write_int m attr type).
(** The result; the mutex itself is constructed in any case. *)
Definition fibre_mutex_init (attr : Z) (m : memory) : Z :=
  if negb (attr =? nullptr) && (read_int m attr =? PTHREAD_MUTEX_RECURSIVE) then -1 else 0.

(** * The C interface: a handle is a pointer to the struct; [fresh] is the
    address that [new] returns. *)
Definition cfibre_mutexattr_init (attr fresh : Z) (m : memory) : Z * memory :=
  let m1 := upd (construct_mutexattr fresh m) attr fresh in fibre_mutexattr_init (m1 attr) m1.
Definition cfibre_mutexattr_settype (attr type : Z) (m : memory) : Z * memory := fibre_mutexattr_settype (m attr) type m.
Definition cfibre_mutexattr_destroy (attr : Z) (m : memory) : Z * memory := (0, upd m attr nullptr).
(** The handle's own address is passed on as the address of the struct. *)
Definition cfibre_mutex_init (mutex attr fresh : Z) (m : memory) : Z * memory :=
  let m1 := upd m mutex fresh in (fibre_mutex_init attr m1, m1).

Lemma to_int_mod z : to_int (z mod 2 ^ 32) = to_int z.
Proof. unfold to_int. by rewrite Z.mod_mod. Qed.

Lemma to_int_signed x : - 2 ^ 31 <= x < 2 ^ 31 -> to_int x = x.
Proof.
  intros Hx. unfold to_int. destruct (Z.ltb_spec (x mod 2 ^ 32) (2 ^ 31)); Z.div_mod_to_equations; lia.
Qed.

Lemma read_write m a x : - 2 ^ 31 <= x < 2 ^ 31 -> read_int (write_int m a x) a = x.
Proof.
  intros Hx. unfold read_int, write_int. rewrite upd_eq, Z.shiftl_mul_pow2 by lia.
  rewrite <- to_int_mod, Z.add_comm, Z.mod_add, to_int_mod, to_int_mod by lia. by apply to_int_signed.
Qed.

(** In the C++ interface a recursive mutex is refused, with -1, and any other
    type is accepted.  Through the C interface the type never arrives: for a
    struct at an even address, as [new] returns them, [cfibre_mutex_init]
    returns 0 for every type, the recursive one included. *)
Theorem mutex_type a h mutex p q m type :
  - 2 ^ 31 <= type < 2 ^ 31 -> a <> 0 -> h <> p -> mutex <> h -> Z.even p = true ->
  (let m1 := snd (fibre_mutexattr_settype a type (construct_mutexattr a m)) in
   fibre_mutex_init a m1 = if type =? PTHREAD_MUTEX_RECURSIVE then -1 else 0) /\
  (let m1 := snd (cfibre_mutexattr_settype h type (snd (cfibre_mutexattr_init h p m))) in
   m1 h = p /\ read_int m1 p = type /\ fst (cfibre_mutex_init mutex h q m1) = 0).
Proof.
  intros Ht Ha Hhp Hmh Hp. split.
  - cbn. unfold fibre_mutex_init. rewrite read_write by done. apply Z.eqb_neq in Ha. unfold nullptr. rewrite Ha. cbn. by destruct (type =? _).
  - cbn. unfold cfibre_mutexattr_settype, cfibre_mutexattr_init. cbn. rewrite upd_eq.
    split; [unfold write_int; by rewrite upd_ne, upd_eq|]. split; [by apply read_write|].
    unfold fibre_mutex_init. assert (read_int (upd (write_int (upd (construct_mutexattr p m) h p) p type) mutex q) h =? PTHREAD_MUTEX_RECURSIVE = false) as ->.
    { unfold read_int, write_int. rewrite upd_ne, upd_ne, upd_eq by done. apply Z.eqb_neq. unfold to_int, PTHREAD_MUTEX_RECURSIVE.
      apply Z.even_spec in Hp as [k ->]. intros H. destruct (Z.ltb_spec (2 * k mod 2 ^ 32) (2 ^ 31)); Z.div_mod_to_equations; lia. }
    by rewrite andb_false_r.
Qed.

Lemma mutex_type_witness :
  fst (cfibre_mutex_init 32 16 96 (snd (cfibre_mutexattr_settype 16 1 (snd (cfibre_mutexattr_init 16 64 (fun _ => 0)))))) = 0.
Proof. destruct (mutex_type 8 16 32 64 96 (fun _ => 0) 1) as [_ (_ & _ & H)]; try lia; try done. Defined.
