(* ===== verification/CHandles.v ===== *)
(** The POSIX-like interface of [src/libfibre/fibre.h] and the C interface over it
    ([src/libfibre/cfibre.cc]), in which a handle is a variable that holds a
    pointer to the object.  A function of an interface is a program over the
    methods of the objects, whose results are a parameter; the C functions also
    allocate and free the objects and read and write the handles. *)
From S2P Require Import Prelude Words CApi.
Local Open Scope Z_scope.

Notation ptr := Z (only parsing).
Definition EAGAIN : Z := 11.
Definition EBUSY : Z := 16.
Definition ETIMEDOUT : Z := 110.
Definition PTHREAD_BARRIER_SERIAL_THREAD : Z := -1.

(** * Objects and methods *)
Inductive kind := KSem | KMutex | KCond | KRwlock | KBarrier | KFastmutex | KAttr | KMutexattr | KFastmutexattr | KCluster.
#[export] Instance kind_eq_dec : EqDecision kind. Proof. solve_decision. Defined.
Inductive field := Fcluster | FstackSize | FguardSize | Fpriority | Faffinity | Fdetached.
(** Times are in nanoseconds; [Cond_wait] takes the mutex it releases. *)
Inductive method :=
| Sem_ctor (value : Z) | Sem_reset (value : Z) | Sem_P | Sem_tryP | Sem_P_until (t : Z) | Sem_V | Sem_getValue
| Mutex_ctor | Mutex_reset | Mutex_acquire | Mutex_tryAcquire | Mutex_acquire_until (t : Z) | Mutex_release
| Cond_ctor | Cond_reset | Cond_wait (m : ptr) | Cond_wait_until (m : ptr) (t : Z) | Cond_signal (Broadcast : bool)
| Cond_wait_fast (m : ptr) | Cond_wait_fast_until (m : ptr) (t : Z)
| Rwlock_ctor | Rwlock_reset | Rwlock_acquireRead | Rwlock_tryAcquireRead | Rwlock_acquireRead_until (t : Z)
| Rwlock_acquireWrite | Rwlock_tryAcquireWrite | Rwlock_acquireWrite_until (t : Z) | Rwlock_release
| Barrier_ctor (target : Z) | Barrier_reset | Barrier_wait
| Fastmutex_ctor | Fastmutex_acquire | Fastmutex_tryAcquire | Fastmutex_release
| Attr_init | Attr_set (f : field) (v : Z) | Attr_get (f : field)
| Mutexattr_set (type : Z) | Mutexattr_get | Fastmutexattr_set (type : Z) | Fastmutexattr_get.
Definition kind_of (m : method) : kind :=
  match m with
  | Sem_ctor _ | Sem_reset _ | Sem_P | Sem_tryP | Sem_P_until _ | Sem_V | Sem_getValue => KSem
  | Mutex_ctor | Mutex_reset | Mutex_acquire | Mutex_tryAcquire | Mutex_acquire_until _ | Mutex_release => KMutex
  | Cond_ctor | Cond_reset | Cond_wait _ | Cond_wait_until _ _ | Cond_signal _ | Cond_wait_fast _ | Cond_wait_fast_until _ _ => KCond
  | Rwlock_ctor | Rwlock_reset | Rwlock_acquireRead | Rwlock_tryAcquireRead | Rwlock_acquireRead_until _
  | Rwlock_acquireWrite | Rwlock_tryAcquireWrite | Rwlock_acquireWrite_until _ | Rwlock_release => KRwlock
  | Barrier_ctor _ | Barrier_reset | Barrier_wait => KBarrier
  | Fastmutex_ctor | Fastmutex_acquire | Fastmutex_tryAcquire | Fastmutex_release => KFastmutex
  | Attr_init | Attr_set _ _ | Attr_get _ => KAttr
  | Mutexattr_set _ | Mutexattr_get => KMutexattr
  | Fastmutexattr_set _ | Fastmutexattr_get => KFastmutexattr
  end.
(** The other object a method uses. *)
Definition other (m : method) : option (ptr * kind) :=
  match m with
  | Cond_wait p | Cond_wait_until p _ => Some (p, KMutex)
  | Cond_wait_fast p | Cond_wait_fast_until p _ => Some (p, KFastmutex)
  | _ => None
  end.

(** * Programs *)
Inductive prog (A : Type) :=
| Ret (a : A)
| Call (p : ptr) (m : method) (k : Z -> prog A)
| Load (h : ptr) (k : Z -> prog A)
| Store (h v : ptr) (k : prog A)
| New (kd : kind) (k : ptr -> prog A)
| Delete (p : ptr) (kd : kind) (k : prog A)
| Abort.
Arguments Ret {A}. Arguments Call {A}. Arguments Load {A}. Arguments Store {A}. Arguments New {A}. Arguments Delete {A}. Arguments Abort {A}.

Fixpoint bind {A B} (x : prog A) (f : A -> prog B) : prog B :=
  match x with
  | Ret a => f a
  | Call p m k => Call p m (fun r => bind (k r) f)
  | Load h k => Load h (fun v => bind (k v) f)
  | Store h v k => Store h v (bind k f)
  | New kd k => New kd (fun p => bind (k p) f)
  | Delete p kd k => Delete p kd (bind k f)
  | Abort => Abort
  end.
#[export] Instance prog_bind : MBind prog := fun A B f x => bind x f.
Definition call (p : ptr) (m : method) : prog Z := Call p m Ret.
Definition assert (b : bool) : prog unit := if b then Ret tt else Abort.
Definition load (h : ptr) : prog ptr := Load h Ret.
Definition store (h v : ptr) : prog unit := Store h v (Ret tt).
Definition new (kd : kind) : prog ptr := New kd Ret.
Definition delete_ (p : ptr) (kd : kind) : prog unit := Delete p kd (Ret tt).

(** The return code, and what is stored through a pointer argument. *)
Definition result := (Z * list Z)%type.
Definition code (c : Z) : prog result := Ret (c, []).
(** [m ? 0 : failure], for a method that returns a boolean. *)
Definition test (p : ptr) (m : method) (failure : Z) : prog result := r ← call p m; code (if r =? 0 then failure else 0).
(** A method whose result is not used. *)
Definition simple (p : ptr) (m : method) : prog result := _ ← call p m; code 0.

(** * [fibre.h] *)
Definition fibre_attr_init (attr : ptr) := simple attr Attr_init.
Definition fibre_attr_destroy (attr : ptr) := code 0.
Definition fibre_attr_set (f : field) (attr : ptr) (v : Z) := simple attr (Attr_set f v).
Definition fibre_attr_get (f : field) (attr : ptr) : prog result := v ← call attr (Attr_get f); Ret (0, [v]).

Definition fibre_sem_init (sem : ptr) (pshared value : Z) : prog result := _ ← assert (pshared =? 0); simple sem (Sem_ctor value).
Definition fibre_sem_destroy (sem : ptr) := simple sem (Sem_reset 0).
Definition fibre_sem_wait (sem : ptr) := simple sem Sem_P.
Definition fibre_sem_trywait (sem : ptr) := test sem Sem_tryP EAGAIN.
Definition fibre_sem_timedwait (sem : ptr) (abs_timeout : Z) := test sem (Sem_P_until abs_timeout) ETIMEDOUT.
Definition fibre_sem_post (sem : ptr) := simple sem Sem_V.
Definition fibre_sem_getvalue (sem : ptr) : prog result := v ← call sem Sem_getValue; Ret (0, [v]).

Definition fibre_mutexattr_init (attr : ptr) := code 0.
Definition fibre_mutexattr_destroy (attr : ptr) := code 0.
Definition fibre_mutexattr_settype (attr : ptr) (type : Z) := simple attr (Mutexattr_set type).
(** [attr]: the read of [attr->type], when the pointer is not null. *)
Definition fibre_mutex_init (mutex : ptr) (attr : option (prog Z)) : prog result :=
  _ ← call mutex Mutex_ctor;
  match attr with
  | Some read => type ← read; code (if type =? PTHREAD_MUTEX_RECURSIVE then -1 else 0)
  | None => code 0
  end.
Definition fibre_mutex_destroy (mutex : ptr) := simple mutex Mutex_reset.
Definition fibre_mutex_lock (mutex : ptr) := simple mutex Mutex_acquire.
Definition fibre_mutex_trylock (mutex : ptr) := test mutex Mutex_tryAcquire EBUSY.
Definition fibre_mutex_timedlock (mutex : ptr) (abstime : Z) := test mutex (Mutex_acquire_until abstime) ETIMEDOUT.
Definition fibre_mutex_unlock (mutex : ptr) := simple mutex Mutex_release.

Definition fibre_cond_init (cond attr : ptr) : prog result := _ ← assert (attr =? nullptr); simple cond Cond_ctor.
Definition fibre_cond_destroy (cond : ptr) := simple cond Cond_reset.
Definition fibre_cond_wait (cond mutex : ptr) : prog result := _ ← call cond (Cond_wait mutex); simple mutex Mutex_acquire.
Definition fibre_cond_timedwait (cond mutex : ptr) (abstime : Z) : prog result :=
  r ← call cond (Cond_wait_until mutex abstime); _ ← call mutex Mutex_acquire; code (if r =? 0 then ETIMEDOUT else 0).
Definition fibre_cond_signal (cond : ptr) := simple cond (Cond_signal false).
Definition fibre_cond_broadcast (cond : ptr) := simple cond (Cond_signal true).

Definition fibre_rwlock_init (rwlock attr : ptr) : prog result := _ ← assert (attr =? nullptr); simple rwlock Rwlock_ctor.
Definition fibre_rwlock_destroy (rwlock : ptr) := simple rwlock Rwlock_reset.
Definition fibre_rwlock_rdlock (rwlock : ptr) := simple rwlock Rwlock_acquireRead.
Definition fibre_rwlock_tryrdlock (rwlock : ptr) := test rwlock Rwlock_tryAcquireRead EBUSY.
Definition fibre_rwlock_timedrdlock (rwlock : ptr) (abstime : Z) := test rwlock (Rwlock_acquireRead_until abstime) ETIMEDOUT.
Definition fibre_rwlock_wrlock (rwlock : ptr) := simple rwlock Rwlock_acquireWrite.
Definition fibre_rwlock_trywrlock (rwlock : ptr) := test rwlock Rwlock_tryAcquireWrite EBUSY.
Definition fibre_rwlock_timedwrlock (rwlock : ptr) (abstime : Z) := test rwlock (Rwlock_acquireWrite_until abstime) ETIMEDOUT.
Definition fibre_rwlock_unlock (rwlock : ptr) := simple rwlock Rwlock_release.

Definition fibre_barrier_init (barrier attr : ptr) (count : Z) : prog result := _ ← assert (attr =? nullptr); simple barrier (Barrier_ctor count).
Definition fibre_barrier_destroy (barrier : ptr) := simple barrier Barrier_reset.
Definition fibre_barrier_wait (barrier : ptr) : prog result :=
  r ← call barrier Barrier_wait; code (if r =? 0 then 0 else PTHREAD_BARRIER_SERIAL_THREAD).

Definition fibre_fastmutexattr_init (attr : ptr) := code 0.
Definition fibre_fastmutexattr_destroy (attr : ptr) := code 0.
Definition fibre_fastmutexattr_settype (attr : ptr) (type : Z) := simple attr (Fastmutexattr_set type).
Definition fibre_fastmutex_init (mutex : ptr) (attr : option (prog Z)) : prog result :=
  _ ← call mutex Fastmutex_ctor;
  match attr with
  | Some read => type ← read; code (if type =? PTHREAD_MUTEX_RECURSIVE then -1 else 0)
  | None => code 0
  end.
Definition fibre_fastmutex_destroy (mutex : ptr) := code 0.
Definition fibre_fastmutex_lock (mutex : ptr) := simple mutex Fastmutex_acquire.
Definition fibre_fastmutex_trylock (mutex : ptr) := test mutex Fastmutex_tryAcquire EBUSY.
Definition fibre_fastmutex_unlock (mutex : ptr) := simple mutex Fastmutex_release.
Definition fibre_fastcond_wait (cond mutex : ptr) : prog result := _ ← call cond (Cond_wait_fast mutex); simple mutex Fastmutex_acquire.
Definition fibre_fastcond_timedwait (cond mutex : ptr) (abstime : Z) : prog result :=
  r ← call cond (Cond_wait_fast_until mutex abstime); _ ← call mutex Fastmutex_acquire; code (if r =? 0 then ETIMEDOUT else 0).

(** * [cfibre.cc]: the arguments are the addresses of handles *)

(** [*h = new T; return init( *h )] *)
Definition create (h : ptr) (kd : kind) (init : ptr -> prog result) : prog result :=
  p ← new kd; _ ← store h p; q ← load h; init q.
(** [int ret = destroy( *h ); delete *h; *h = nullptr; return ret] *)
Definition dispose (h : ptr) (kd : kind) (destroy : ptr -> prog result) : prog result :=
  p ← load h; ret ← destroy p; q ← load h; _ ← delete_ q kd; _ ← store h nullptr; Ret ret.
Definition via (h : ptr) (f : ptr -> prog result) : prog result := p ← load h; f p.

Definition cfibre_cluster_create (cluster : ptr) := create cluster KCluster (fun _ => code 0).
Definition cfibre_cluster_destroy (cluster : ptr) := dispose cluster KCluster (fun _ => code 0).

Definition cfibre_attr_init (attr : ptr) := create attr KAttr fibre_attr_init.
Definition cfibre_attr_destroy (attr : ptr) := dispose attr KAttr fibre_attr_destroy.
Definition cfibre_attr_setcluster (attr v : ptr) := via attr (fun a => fibre_attr_set Fcluster a v).
Definition cfibre_attr_getcluster (attr : ptr) := via attr (fibre_attr_get Fcluster).
Definition cfibre_attr_setstacksize (attr : ptr) (v : Z) := via attr (fun a => fibre_attr_set FstackSize a v).
Definition cfibre_attr_getstacksize (attr : ptr) := via attr (fibre_attr_get FstackSize).
Definition cfibre_attr_setguardsize (attr : ptr) (v : Z) := via attr (fun a => fibre_attr_set FguardSize a v).
Definition cfibre_attr_getguardsize (attr : ptr) := via attr (fibre_attr_get FguardSize).
Definition cfibre_attr_setpriority (attr : ptr) (v : Z) := via attr (fun a => fibre_attr_set Fpriority a v).
Definition cfibre_attr_getpriority (attr : ptr) := via attr (fibre_attr_get Fpriority).
Definition cfibre_attr_setaffinity (attr : ptr) (v : Z) := via attr (fun a => fibre_attr_set Faffinity a v).
Definition cfibre_attr_getaffinity (attr : ptr) := via attr (fibre_attr_get Faffinity).
Definition cfibre_attr_setdetachstate (attr : ptr) (v : Z) := via attr (fun a => fibre_attr_set Fdetached a v).
Definition cfibre_attr_getdetachstate (attr : ptr) := via attr (fibre_attr_get Fdetached).

Definition cfibre_sem_init (sem : ptr) (pshared value : Z) := create sem KSem (fun s => fibre_sem_init s pshared value).
Definition cfibre_sem_destroy (sem : ptr) := dispose sem KSem fibre_sem_destroy.
Definition cfibre_sem_wait (sem : ptr) := via sem fibre_sem_wait.
Definition cfibre_sem_trywait (sem : ptr) := via sem fibre_sem_trywait.
Definition cfibre_sem_timedwait (sem : ptr) (abs_timeout : Z) := via sem (fun s => fibre_sem_timedwait s abs_timeout).
Definition cfibre_sem_post (sem : ptr) := via sem fibre_sem_post.
Definition cfibre_sem_getvalue (sem : ptr) := via sem fibre_sem_getvalue.

Definition cfibre_mutexattr_init (attr : ptr) := create attr KMutexattr fibre_mutexattr_init.
Definition cfibre_mutexattr_destroy (attr : ptr) := dispose attr KMutexattr fibre_mutexattr_destroy.
Definition cfibre_mutexattr_settype (attr : ptr) (type : Z) := via attr (fun a => fibre_mutexattr_settype a type).
(** The pointer to the handle is passed on, not the handle: its low half is read. *)
Definition type_at (attr : ptr) : prog Z := v ← load attr; Ret (to_int v).
Definition cfibre_mutex_init (mutex attr : ptr) :=
  create mutex KMutex (fun m => fibre_mutex_init m (if attr =? nullptr then None else Some (type_at attr))).
Definition cfibre_mutex_destroy (mutex : ptr) := dispose mutex KMutex fibre_mutex_destroy.
Definition cfibre_mutex_lock (mutex : ptr) := via mutex fibre_mutex_lock.
Definition cfibre_mutex_trylock (mutex : ptr) := via mutex fibre_mutex_trylock.
Definition cfibre_mutex_timedlock (mutex : ptr) (abstime : Z) := via mutex (fun m => fibre_mutex_timedlock m abstime).
Definition cfibre_mutex_unlock (mutex : ptr) := via mutex fibre_mutex_unlock.

Definition cfibre_cond_init (cond attr : ptr) := create cond KCond (fun c => fibre_cond_init c attr).
Definition cfibre_cond_destroy (cond : ptr) := dispose cond KCond fibre_cond_destroy.
Definition cfibre_cond_wait (cond mutex : ptr) := via cond (fun c => via mutex (fibre_cond_wait c)).
Definition cfibre_cond_timedwait (cond mutex : ptr) (abstime : Z) := via cond (fun c => via mutex (fun m => fibre_cond_timedwait c m abstime)).
Definition cfibre_cond_signal (cond : ptr) := via cond fibre_cond_signal.
Definition cfibre_cond_broadcast (cond : ptr) := via cond fibre_cond_broadcast.

Definition cfibre_rwlock_init (rwlock attr : ptr) := create rwlock KRwlock (fun l => fibre_rwlock_init l attr).
Definition cfibre_rwlock_destroy (rwlock : ptr) := dispose rwlock KRwlock fibre_rwlock_destroy.
Definition cfibre_rwlock_rdlock (rwlock : ptr) := via rwlock fibre_rwlock_rdlock.
Definition cfibre_rwlock_tryrdlock (rwlock : ptr) := via rwlock fibre_rwlock_tryrdlock.
Definition cfibre_rwlock_timedrdlock (rwlock : ptr) (abstime : Z) := via rwlock (fun l => fibre_rwlock_timedrdlock l abstime).
Definition cfibre_rwlock_wrlock (rwlock : ptr) := via rwlock fibre_rwlock_wrlock.
Definition cfibre_rwlock_trywrlock (rwlock : ptr) := via rwlock fibre_rwlock_trywrlock.
Definition cfibre_rwlock_timedwrlock (rwlock : ptr) (abstime : Z) := via rwlock (fun l => fibre_rwlock_timedwrlock l abstime).
Definition cfibre_rwlock_unlock (rwlock : ptr) := via rwlock fibre_rwlock_unlock.

Definition cfibre_barrier_init (barrier attr : ptr) (count : Z) := create barrier KBarrier (fun b => fibre_barrier_init b attr count).
Definition cfibre_barrier_destroy (barrier : ptr) := dispose barrier KBarrier fibre_barrier_destroy.
Definition cfibre_barrier_wait (barrier : ptr) := via barrier fibre_barrier_wait.

Definition cfibre_fastmutexattr_init (attr : ptr) := create attr KFastmutexattr fibre_fastmutexattr_init.
Definition cfibre_fastmutexattr_destroy (attr : ptr) := dispose attr KFastmutexattr fibre_fastmutexattr_destroy.
Definition cfibre_fastmutexattr_settype (attr : ptr) (type : Z) := via attr (fun a => fibre_fastmutexattr_settype a type).
Definition cfibre_fastmutex_init (mutex attr : ptr) :=
  create mutex KFastmutex (fun m => fibre_fastmutex_init m (if attr =? nullptr then None else Some (type_at attr))).
Definition cfibre_fastmutex_destroy (mutex : ptr) := dispose mutex KFastmutex fibre_fastmutex_destroy.
Definition cfibre_fastmutex_lock (mutex : ptr) := via mutex fibre_fastmutex_lock.
Definition cfibre_fastmutex_trylock (mutex : ptr) := via mutex fibre_fastmutex_trylock.
Definition cfibre_fastmutex_unlock (mutex : ptr) := via mutex fibre_fastmutex_unlock.
Definition cfibre_fastcond_wait (cond mutex : ptr) := via cond (fun c => via mutex (fibre_fastcond_wait c)).
Definition cfibre_fastcond_timedwait (cond mutex : ptr) (abstime : Z) :=
  via cond (fun c => via mutex (fun m => fibre_fastcond_timedwait c m abstime)).

(** * Execution *)

(** The variables of the program (handles), and the objects by address. *)
Record memory := mkMem { var : ptr -> Z; live : gmap ptr kind }.
Definition event := (ptr * method)%type.
Definition live_as (l : gmap ptr kind) (p : ptr) (kd : kind) : bool := bool_decide (l !! p = Some kd).
Definition callable (l : gmap ptr kind) (p : ptr) (m : method) : bool :=
  live_as l p (kind_of m) && match other m with Some (q, kd) => live_as l q kd | None => true end.

Section Execution.
(** What [new] returns, and what the [n]-th call of a method returns. *)
Context (fresh : gmap ptr kind -> ptr) (answer : nat -> Z).

(** [None]: an assertion fails, or an object is used or freed that is not there. *)
Fixpoint exec {A} (x : prog A) (m : memory) (n : nat) : option (A * memory * list event * nat) :=
  match x with
  | Ret a => Some (a, m, [], n)
  | Call p c k =>
      if callable (live m) p c then
        match exec (k (answer n)) m (S n) with
        | Some (a, m', tr, n') => Some (a, m', (p, c) :: tr, n')
        | None => None
        end
      else None
  | Load h k => exec (k (var m h)) m n
  | Store h v k => exec k (mkMem (upd (var m) h v) (live m)) n
  | New kd k => exec (k (fresh (live m))) (mkMem (var m) (<[fresh (live m) := kd]> (live m))) n
  | Delete p kd k =>
      if p =? nullptr then exec k m n
      else if live_as (live m) p kd then exec k (mkMem (var m) (delete p (live m))) n else None
  | Abort => None
  end.
End Execution.

(** * The specification: objects that are named by their handles

    What the C interface promises is the C++ interface with the handle in the
    place of the object. *)
Inductive shape :=
| Init (h : ptr) (kd : kind) (f : ptr -> prog result)
| InitWith (h : ptr) (kd : kind) (attr : ptr) (akd : kind) (f : ptr -> prog result)   (* with optional attributes *)
| Destroy (h : ptr) (kd : kind) (f : ptr -> prog result)
| Use (h : ptr) (f : ptr -> prog result)
| Use2 (h g : ptr) (f : ptr -> ptr -> prog result).

(** The functions, with two handles and two values as arguments.  The type of a
    mutex is ignored: see [cfibre_mutex_init]. *)
Definition api (h g : ptr) (x y : Z) : list (prog result * shape) :=
  [(cfibre_cluster_create h, Init h KCluster (fun _ => code 0)); (cfibre_cluster_destroy h, Destroy h KCluster (fun _ => code 0));
   (cfibre_attr_init h, Init h KAttr fibre_attr_init); (cfibre_attr_destroy h, Destroy h KAttr fibre_attr_destroy);
   (cfibre_attr_setcluster h x, Use h (fun a => fibre_attr_set Fcluster a x)); (cfibre_attr_getcluster h, Use h (fibre_attr_get Fcluster));
   (cfibre_attr_setstacksize h x, Use h (fun a => fibre_attr_set FstackSize a x)); (cfibre_attr_getstacksize h, Use h (fibre_attr_get FstackSize));
   (cfibre_attr_setguardsize h x, Use h (fun a => fibre_attr_set FguardSize a x)); (cfibre_attr_getguardsize h, Use h (fibre_attr_get FguardSize));
   (cfibre_attr_setpriority h x, Use h (fun a => fibre_attr_set Fpriority a x)); (cfibre_attr_getpriority h, Use h (fibre_attr_get Fpriority));
   (cfibre_attr_setaffinity h x, Use h (fun a => fibre_attr_set Faffinity a x)); (cfibre_attr_getaffinity h, Use h (fibre_attr_get Faffinity));
   (cfibre_attr_setdetachstate h x, Use h (fun a => fibre_attr_set Fdetached a x)); (cfibre_attr_getdetachstate h, Use h (fibre_attr_get Fdetached));
   (cfibre_sem_init h x y, Init h KSem (fun s => fibre_sem_init s x y)); (cfibre_sem_destroy h, Destroy h KSem fibre_sem_destroy);
   (cfibre_sem_wait h, Use h fibre_sem_wait); (cfibre_sem_trywait h, Use h fibre_sem_trywait);
   (cfibre_sem_timedwait h x, Use h (fun s => fibre_sem_timedwait s x)); (cfibre_sem_post h, Use h fibre_sem_post);
   (cfibre_sem_getvalue h, Use h fibre_sem_getvalue);
   (cfibre_mutexattr_init h, Init h KMutexattr fibre_mutexattr_init); (cfibre_mutexattr_destroy h, Destroy h KMutexattr fibre_mutexattr_destroy);
   (cfibre_mutexattr_settype h x, Use h (fun a => fibre_mutexattr_settype a x));
   (cfibre_mutex_init h g, InitWith h KMutex g KMutexattr (fun m => fibre_mutex_init m None)); (cfibre_mutex_destroy h, Destroy h KMutex fibre_mutex_destroy);
   (cfibre_mutex_lock h, Use h fibre_mutex_lock); (cfibre_mutex_trylock h, Use h fibre_mutex_trylock);
   (cfibre_mutex_timedlock h x, Use h (fun m => fibre_mutex_timedlock m x)); (cfibre_mutex_unlock h, Use h fibre_mutex_unlock);
   (cfibre_cond_init h x, Init h KCond (fun c => fibre_cond_init c x)); (cfibre_cond_destroy h, Destroy h KCond fibre_cond_destroy);
   (cfibre_cond_wait h g, Use2 h g fibre_cond_wait); (cfibre_cond_timedwait h g x, Use2 h g (fun c m => fibre_cond_timedwait c m x));
   (cfibre_cond_signal h, Use h fibre_cond_signal); (cfibre_cond_broadcast h, Use h fibre_cond_broadcast);
   (cfibre_rwlock_init h x, Init h KRwlock (fun l => fibre_rwlock_init l x)); (cfibre_rwlock_destroy h, Destroy h KRwlock fibre_rwlock_destroy);
   (cfibre_rwlock_rdlock h, Use h fibre_rwlock_rdlock); (cfibre_rwlock_tryrdlock h, Use h fibre_rwlock_tryrdlock);
   (cfibre_rwlock_timedrdlock h x, Use h (fun l => fibre_rwlock_timedrdlock l x)); (cfibre_rwlock_wrlock h, Use h fibre_rwlock_wrlock);
   (cfibre_rwlock_trywrlock h, Use h fibre_rwlock_trywrlock); (cfibre_rwlock_timedwrlock h x, Use h (fun l => fibre_rwlock_timedwrlock l x));
   (cfibre_rwlock_unlock h, Use h fibre_rwlock_unlock);
   (cfibre_barrier_init h x y, Init h KBarrier (fun b => fibre_barrier_init b x y)); (cfibre_barrier_destroy h, Destroy h KBarrier fibre_barrier_destroy);
   (cfibre_barrier_wait h, Use h fibre_barrier_wait);
   (cfibre_fastmutexattr_init h, Init h KFastmutexattr fibre_fastmutexattr_init);
   (cfibre_fastmutexattr_destroy h, Destroy h KFastmutexattr fibre_fastmutexattr_destroy);
   (cfibre_fastmutexattr_settype h x, Use h (fun a => fibre_fastmutexattr_settype a x));
   (cfibre_fastmutex_init h g, InitWith h KFastmutex g KFastmutexattr (fun m => fibre_fastmutex_init m None));
   (cfibre_fastmutex_destroy h, Destroy h KFastmutex fibre_fastmutex_destroy);
   (cfibre_fastmutex_lock h, Use h fibre_fastmutex_lock); (cfibre_fastmutex_trylock h, Use h fibre_fastmutex_trylock);
   (cfibre_fastmutex_unlock h, Use h fibre_fastmutex_unlock);
   (cfibre_fastcond_wait h g, Use2 h g fibre_fastcond_wait); (cfibre_fastcond_timedwait h g x, Use2 h g (fun c m => fibre_fastcond_timedwait c m x))].

Section Specification.
Context (fresh : gmap ptr kind -> ptr) (answer : nat -> Z).
(** The objects are at the addresses of their handles; the variables are not used. *)
Definition at_handles (am : gmap ptr kind) : memory := mkMem (fun _ => nullptr) am.
Definition run_spec (x : prog result) (am : gmap ptr kind) (n : nat) : option (result * list event * nat) :=
  match exec fresh answer x (at_handles am) n with Some (r, _, tr, n') => Some (r, tr, n') | None => None end.
Definition spec_init (h : ptr) (kd : kind) (f : ptr -> prog result) (am : gmap ptr kind) (n : nat) :=
  if bool_decide (am !! h = None) then
    match run_spec (f h) (<[h := kd]> am) n with Some (r, tr, n') => Some (r, <[h := kd]> am, tr, n') | None => None end
  else None.
Definition spec (s : shape) (am : gmap ptr kind) (n : nat) : option (result * gmap ptr kind * list event * nat) :=
  match s with
  | Init h kd f => spec_init h kd f am n
  | InitWith h kd attr akd f => if (attr =? nullptr) || live_as am attr akd then spec_init h kd f am n else None
  | Destroy h kd f =>
      if live_as am h kd then match run_spec (f h) am n with Some (r, tr, n') => Some (r, delete h am, tr, n') | None => None end else None
  | Use h f => match run_spec (f h) am n with Some (r, tr, n') => Some (r, am, tr, n') | None => None end
  | Use2 h g f => match run_spec (f h g) am n with Some (r, tr, n') => Some (r, am, tr, n') | None => None end
  end.
End Specification.

(** * The C interface keeps its promise *)

(** The program at pointers instead of handles. *)
Definition rename (loc : ptr -> ptr) (m : method) : method :=
  match m with
  | Cond_wait p => Cond_wait (loc p) | Cond_wait_until p t => Cond_wait_until (loc p) t
  | Cond_wait_fast p => Cond_wait_fast (loc p) | Cond_wait_fast_until p t => Cond_wait_fast_until (loc p) t
  | m => m
  end.
Definition rename_event (loc : ptr -> ptr) (e : event) : event := (loc (fst e), rename loc (snd e)).
Inductive renames (loc : ptr -> ptr) : prog result -> prog result -> Prop :=
| R_ret a : renames loc (Ret a) (Ret a)
| R_call p m k k' : (forall r, renames loc (k r) (k' r)) -> renames loc (Call p m k) (Call (loc p) (rename loc m) k')
| R_abort : renames loc Abort Abort.
(** A function that uses its argument only as the object of calls. *)
Definition natural (f : ptr -> prog result) : Prop := forall loc h, renames loc (f h) (f (loc h)).
Definition natural2 (f : ptr -> ptr -> prog result) : Prop := forall loc h g, renames loc (f h g) (f (loc h) (loc g)).
Ltac natural :=
  intros ?; intros; unfold fibre_sem_init, fibre_cond_init, fibre_rwlock_init, fibre_barrier_init; cbn; repeat match goal with
  | |- context [assert ?b] => destruct b; cbn
  | |- renames _ (Call _ _ _) (Call _ _ _) => apply R_call; intros ?; cbn
  | |- renames _ (Ret _) (Ret _) => apply R_ret
  | |- renames _ Abort Abort => apply R_abort
  | |- context [if ?b then _ else _] => destruct b
  end; first [apply R_ret | idtac].

Definition well_formed (s : shape) : Prop :=
  match s with Init _ _ f | InitWith _ _ _ _ f | Destroy _ _ f | Use _ f => natural f | Use2 _ _ f => natural2 f end.
Definition implements (c : prog result) (s : shape) : Prop :=
  match s with
  | Init h kd f => c = create h kd f
  | InitWith h kd attr akd f => exists g, c = create h kd (fun m => g m (if attr =? nullptr then None else Some (type_at attr))) /\
      (forall m, g m None = f m) /\
      (forall fresh answer m mem n, to_int (var mem attr) <> PTHREAD_MUTEX_RECURSIVE ->
         exec fresh answer (g m (Some (type_at attr))) mem n = exec fresh answer (f m) mem n)
  | Destroy h kd f => c = dispose h kd f
  | Use h f => c = via h f
  | Use2 h g f => c = via h (fun a => via g (f a))
  end.
Lemma mutex_init_type_at attr fresh answer (m : ptr) mem n : to_int (var mem attr) <> PTHREAD_MUTEX_RECURSIVE ->
  exec fresh answer (fibre_mutex_init m (Some (type_at attr))) mem n = exec fresh answer (fibre_mutex_init m None) mem n.
Proof. intros H. apply Z.eqb_neq in H. cbn. by rewrite H. Qed.
Lemma fastmutex_init_type_at attr fresh answer (m : ptr) mem n : to_int (var mem attr) <> PTHREAD_MUTEX_RECURSIVE ->
  exec fresh answer (fibre_fastmutex_init m (Some (type_at attr))) mem n = exec fresh answer (fibre_fastmutex_init m None) mem n.
Proof. intros H. apply Z.eqb_neq in H. cbn. by rewrite H. Qed.

Lemma api_ok h g x y : Forall (fun cs => well_formed (snd cs) /\ implements (fst cs) (snd cs)) (api h g x y).
Proof.
  unfold api. repeat (apply Forall_cons; split); [..|by apply Forall_nil]; cbn [fst snd well_formed implements];
    (split; [natural|try reflexivity]).
  - exists fibre_mutex_init. split_and!; [done|done|]. intros. by apply mutex_init_type_at.
  - exists fibre_fastmutex_init. split_and!; [done|done|]. intros. by apply fastmutex_init_type_at.
Qed.

(** ** Execution *)
Section Refinement.
Context (fresh : gmap ptr kind -> ptr) (answer : nat -> Z).
(** [new]: an object that is not in use yet, aligned, never at the null pointer. *)
Hypothesis fresh_ok : forall l, l !! fresh l = None /\ fresh l <> nullptr /\ Z.even (fresh l) = true.
Notation exec := (exec fresh answer).

Lemma exec_bind {A B} (x : prog A) (f : A -> prog B) m n :
  exec (bind x f) m n = match exec x m n with
                        | Some (a, m', tr, n') => match exec (f a) m' n' with Some (b, m'', tr', n'') => Some (b, m'', tr ++ tr', n'') | None => None end
                        | None => None
                        end.
Proof.
  revert m n. induction x as [a|p c k IH|h k IH|h v k IH|kd k IH|p kd k IH|]; intros m n; cbn; try done.
  - by destruct (exec (f a) m n) as [[[[? ?] ?] ?]|].
  - destruct (callable _ _ _); [|done]. rewrite IH. destruct (exec (k _) m (S n)) as [[[[a m'] tr] n']|]; [|done].
    by destruct (exec (f a) m' n') as [[[[? ?] ?] ?]|].
  - destruct (p =? nullptr); [done|]. by destruct (live_as _ _ _).
Qed.

Lemma rename_kind loc m : kind_of (rename loc m) = kind_of m.
Proof. by destruct m. Qed.
Lemma rename_other loc m : other (rename loc m) = (fun q => (loc (fst q), snd q)) <$> other m.
Proof. by destruct m. Qed.
Lemma exec_renames loc x y am m : renames loc x y -> (forall p kd, am !! p = Some kd -> live m !! loc p = Some kd) ->
  forall n r mm tr n', exec x (at_handles am) n = Some (r, mm, tr, n') ->
  mm = at_handles am /\ exec y m n = Some (r, m, map (rename_event loc) tr, n').
Proof.
  intros Hren Hl. induction Hren as [a|p c k k' _ IH|]; intros n r mm tr n'; cbn; [by intros [= <- <- <- <-]| |done].
  destruct (callable am p c) eqn:Ec; [|done]. destruct (exec (k (answer n)) (at_handles am) (S n)) as [[[[r1 m1] tr1] n1]|] eqn:E; [|done].
  intros [= <- <- <- <-]. destruct (IH _ _ _ _ _ _ E) as [-> Hy]. split; [done|].
  assert (callable (live m) (loc p) (rename loc c) = true) as ->; [|by rewrite Hy].
  apply andb_true_iff in Ec as [E1 E2]. unfold callable, live_as in *. rewrite rename_kind, rename_other.
  apply bool_decide_eq_true in E1. apply andb_true_iff. split; [by apply bool_decide_eq_true, Hl|].
  destruct (other c) as [[q kd]|]; [|done]. cbn. apply bool_decide_eq_true in E2. by apply bool_decide_eq_true, Hl.
Qed.

(** The handles in use point to the objects, one to each, and nothing leaks. *)
Record related (m : memory) (am : gmap ptr kind) : Prop := mkRelated {
  rel_live h kd : am !! h = Some kd -> live m !! var m h = Some kd;
  rel_inj h g : is_Some (am !! h) -> is_Some (am !! g) -> var m h = var m g -> h = g;
  rel_leak p kd : live m !! p = Some kd -> exists h, am !! h = Some kd /\ var m h = p;
  rel_aligned p kd : live m !! p = Some kd -> p <> nullptr /\ Z.even p = true
}.
(** Where the objects are during a call. *)
Definition place (s : shape) (m m' : memory) : ptr -> ptr := match s with Init _ _ _ | InitWith _ _ _ _ _ => var m' | _ => var m end.

Lemma related_fresh m am h kd : related m am -> am !! h = None ->
  related (mkMem (upd (var m) h (fresh (live m))) (<[fresh (live m) := kd]> (live m))) (<[h := kd]> am).
Proof.
  intros [Hlive Hinj Hleak Hal] Hh. destruct (fresh_ok (live m)) as (Hf & Hn & He). constructor; cbn.
  - intros g k. destruct (decide (g = h)) as [->|Hne]; [rewrite upd_eq, !lookup_insert_eq; by intros [= <-]|].
    rewrite lookup_insert_ne, upd_ne by done. intros Hg. apply Hlive in Hg. rewrite lookup_insert_ne; [done|]. intros E. rewrite <- E, Hf in Hg. done.
  - assert (Ho : forall g, g <> h -> is_Some (am !! g) -> var m g <> fresh (live m)).
    { intros g _ [k Hg] E. apply Hlive in Hg. by rewrite E, Hf in Hg. }
    intros g1 g2. destruct (decide (g1 = h)) as [->|H1], (decide (g2 = h)) as [->|H2]; try done;
      rewrite ?upd_eq, ?upd_ne, ?lookup_insert_eq, ?(lookup_insert_ne am h) by done; intros S1 S2 E; [by destruct (Ho g2 H2 S2)|by destruct (Ho g1 H1 S1)|by apply Hinj].
  - intros p k. destruct (decide (p = fresh (live m))) as [->|Hne].
    + rewrite lookup_insert_eq. intros [= <-]. exists h. by rewrite lookup_insert_eq, upd_eq.
    + rewrite lookup_insert_ne by done. intros Hp. destruct (Hleak p k Hp) as (g & Hg & <-). exists g.
      assert (g <> h) by (intros ->; by rewrite Hh in Hg). by rewrite lookup_insert_ne, upd_ne by done.
  - intros p k. destruct (decide (p = fresh (live m))) as [->|Hne]; [done|]. rewrite lookup_insert_ne by done. apply Hal.
Qed.
Lemma related_delete m am h kd : related m am -> am !! h = Some kd -> related (mkMem (upd (var m) h nullptr) (delete (var m h) (live m))) (delete h am).
Proof.
  intros [Hlive Hinj Hleak Hal] Hh. constructor; cbn.
  - intros g k Hg. apply lookup_delete_Some in Hg as [Hne Hg]. rewrite upd_ne by done. rewrite lookup_delete_ne; [by apply Hlive|].
    intros E. destruct Hne. apply Hinj; by eexists || done.
  - intros g1 g2 [k1 H1] [k2 H2]. apply lookup_delete_Some in H1 as [? H1], H2 as [? H2]. rewrite !upd_ne by done. apply Hinj; by eexists.
  - intros p k Hp. apply lookup_delete_Some in Hp as [Hne Hp]. destruct (Hleak p k Hp) as (g & Hg & <-). exists g.
    assert (g <> h) by (by intros ->). by rewrite lookup_delete_ne, upd_ne by done.
  - intros p k Hp. apply lookup_delete_Some in Hp as [_ Hp]. by eapply Hal.
Qed.

Lemma even_not_recursive p : Z.even p = true -> to_int p <> PTHREAD_MUTEX_RECURSIVE.
Proof.
  intros Hp. apply Z.even_spec in Hp as [k ->]. unfold to_int, PTHREAD_MUTEX_RECURSIVE. intros H.
  destruct (Z.ltb_spec (2 * k mod 2 ^ 32) (2 ^ 31)); Z.div_mod_to_equations; lia.
Qed.
Lemma run_spec_ok x y am m loc n r tr n' : renames loc x y -> (forall p kd, am !! p = Some kd -> live m !! loc p = Some kd) ->
  run_spec fresh answer x am n = Some (r, tr, n') -> exec y m n = Some (r, m, map (rename_event loc) tr, n').
Proof.
  intros Hren Hl. unfold run_spec. destruct (exec x (at_handles am) n) as [[[[r1 m1] tr1] n1]|] eqn:E; [|done]. intros [= <- <- <-].
  by destruct (exec_renames loc x y am m Hren Hl _ _ _ _ _ E).
Qed.

Lemma create_related h kd f m am n r am' tr n' : related m am -> natural f -> spec_init fresh answer h kd f am n = Some (r, am', tr, n') ->
  let m1 := mkMem (upd (var m) h (fresh (live m))) (<[fresh (live m) := kd]> (live m)) in
  exec (f (var m1 h)) m1 n = Some (r, m1, map (rename_event (var m1)) tr, n') /\ related m1 am' /\ am !! h = None.
Proof.
  intros Hrel Hf. unfold spec_init. case_bool_decide as Hh; [|done]. destruct (run_spec _ _ _ _ _) as [[[r1 tr1] n1]|] eqn:E; [|done]. intros [= <- <- <- <-].
  pose proof (related_fresh m am h kd Hrel Hh) as Hrel'. split_and!; [|done..]. eapply run_spec_ok; [apply Hf| |exact E]. apply Hrel'.
Qed.

Lemma c_call_ok c s m am n r am' tr n' : related m am -> well_formed s -> implements c s -> spec fresh answer s am n = Some (r, am', tr, n') ->
  exists m', exec c m n = Some (r, m', map (rename_event (place s m m')) tr, n') /\ related m' am'.
Proof.
  intros Hrel Hwf Hc. destruct s as [h kd f|h kd attr akd f|h kd f|h f|h g f]; cbn [well_formed implements spec place] in *.
  - subst c. intros Hs. destruct (create_related h kd f m am n r am' tr n' Hrel Hwf Hs) as (He & Hr & _). by eexists.
  - destruct Hc as (g & -> & Hnone & Hsome). destruct ((attr =? nullptr) || live_as am attr akd) eqn:Ea; [|done]. intros Hs.
    destruct (create_related h kd f m am n r am' tr n' Hrel Hwf Hs) as (He & Hr & Hh). eexists. split; [|exact Hr]. rewrite <- He. cbn.
    destruct (Z.eqb_spec attr nullptr) as [_|Hne]; [by rewrite Hnone|]. apply Hsome. cbn in Ea. apply bool_decide_eq_true in Ea.
    cbn. rewrite upd_ne by (intros ->; by rewrite Hh in Ea). apply even_not_recursive. eapply (rel_aligned m am Hrel). by apply (rel_live m am Hrel).
  - subst c. destruct (live_as am h kd) eqn:Ea; [|done]. apply bool_decide_eq_true in Ea. destruct (run_spec _ _ _ _ _) as [[[r1 tr1] n1]|] eqn:E; [|done].
    intros [= <- <- <- <-]. eexists. split; [|by apply (related_delete m am h kd)]. unfold dispose. cbn. unfold mbind, prog_bind. rewrite exec_bind.
    rewrite (run_spec_ok (f h) (f (var m h)) am m (var m) n r1 tr1 n1 (Hwf _ _) (rel_live m am Hrel) E). cbn. unfold live_as.
    apply (rel_live m am Hrel) in Ea as Hlive. destruct (rel_aligned m am Hrel _ _ Hlive) as [Hn _]. apply Z.eqb_neq in Hn as ->.
    rewrite bool_decide_true by done. by rewrite app_nil_r.
  - subst c. destruct (run_spec _ _ _ _ _) as [[[r1 tr1] n1]|] eqn:E; [|done]. intros [= <- <- <- <-]. exists m. split; [|done].
    exact (run_spec_ok (f h) (f (var m h)) am m (var m) n r1 tr1 n1 (Hwf _ _) (rel_live m am Hrel) E).
  - subst c. destruct (run_spec _ _ _ _ _) as [[[r1 tr1] n1]|] eqn:E; [|done]. intros [= <- <- <- <-]. exists m. split; [|done].
    exact (run_spec_ok (f h g) (f (var m h) (var m g)) am m (var m) n r1 tr1 n1 (Hwf _ _ _) (rel_live m am Hrel) E).
Qed.

(** ** Sequences of calls *)
Fixpoint exec_all (cs : list (prog result)) (m : memory) (n : nat) : option (list result * memory * nat) :=
  match cs with
  | [] => Some ([], m, n)
  | c :: cs =>
      match exec c m n with
      | Some (r, m, _, n) => match exec_all cs m n with Some (rs, m', n') => Some (r :: rs, m', n') | None => None end
      | None => None
      end
  end.
Fixpoint spec_all (ss : list shape) (am : gmap ptr kind) (n : nat) : option (list result * gmap ptr kind * nat) :=
  match ss with
  | [] => Some ([], am, n)
  | s :: ss =>
      match spec fresh answer s am n with
      | Some (r, am, _, n) => match spec_all ss am n with Some (rs, am', n') => Some (r :: rs, am', n') | None => None end
      | None => None
      end
  end.
Definition in_api (c : prog result) (s : shape) : Prop := exists h g x y, In (c, s) (api h g x y).
Lemma in_api_ok c s : in_api c s -> well_formed s /\ implements c s.
Proof. intros (h & g & x & y & Hin). pose proof (api_ok h g x y) as H. rewrite Forall_forall in H. by apply (H (c, s)), list_elem_of_In. Qed.

Lemma calls_ok cs ss : Forall2 in_api cs ss -> forall m am n rs am' n', related m am -> spec_all ss am n = Some (rs, am', n') ->
  exists m', exec_all cs m n = Some (rs, m', n') /\ related m' am'.
Proof.
  induction 1 as [|c s cs ss Hcs _ IH]; intros m am n rs am' n' Hrel; cbn; [intros [= <- <- <-]; by exists m|].
  destruct (spec fresh answer s am n) as [[[[r am1] tr] n1]|] eqn:E; [|done]. destruct (spec_all ss am1 n1) as [[[rs1 am2] n2]|] eqn:E2; [|done].
  intros [= <- <- <-]. destruct (in_api_ok c s Hcs) as [Hwf Himp]. destruct (c_call_ok c s m am n r am1 tr n1 Hrel Hwf Himp E) as (m1 & -> & Hrel1).
  destruct (IH m1 am1 n1 _ _ _ Hrel1 E2) as (m2 & -> & Hrel2). by exists m2.
Qed.

Lemma related_empty v : related (mkMem v ∅) ∅.
Proof. constructor; cbn; intros; by simplify_map_eq || (match goal with H : is_Some _ |- _ => destruct H; by simplify_map_eq end). Qed.
Lemma related_no_leak m am : related m am -> am = ∅ -> live m = ∅.
Proof. intros Hrel ->. apply map_empty. intros p. destruct (live m !! p) as [kd|] eqn:E; [|done]. destruct (rel_leak m ∅ Hrel p kd E) as (h & Hh & _). by simplify_map_eq. Qed.

End Refinement.

(** * A concrete allocator *)
Definition alloc (l : gmap ptr kind) : ptr := 16 * (1 + map_fold (fun k _ a => Z.max (Z.abs k) a) 0 l).
Lemma alloc_bound (l : gmap ptr kind) :
  0 <= map_fold (fun k _ a => Z.max (Z.abs k) a) 0 l /\ forall k, is_Some (l !! k) -> Z.abs k <= map_fold (fun k _ a => Z.max (Z.abs k) a) 0 l.
Proof.
  apply (map_fold_weak_ind (fun a l => 0 <= a /\ forall k, is_Some (l !! k) -> Z.abs k <= a)).
  - split; [done|]. intros k [x Hx]. by simplify_map_eq.
  - intros k x m a _ [H0 IH]. split; [lia|]. intros j [y Hj]. destruct (decide (j = k)) as [->|Hne]; [lia|].
    rewrite lookup_insert_ne in Hj by done. specialize (IH j (mk_is_Some _ _ Hj)). lia.
Qed.
Lemma alloc_ok l : l !! alloc l = None /\ alloc l <> nullptr /\ Z.even (alloc l) = true.
Proof.
  destruct (alloc_bound l) as [H0 Hb]. unfold alloc, nullptr in *. split_and!; [|lia|].
  - destruct (l !! _) eqn:E; [|done]. specialize (Hb _ (mk_is_Some _ _ E)). lia.
  - rewrite Z.even_mul. done.
Qed.

(** A semaphore and a mutex with a type, created, used and destroyed. *)
Definition demo_calls : list (prog result) :=
  [cfibre_sem_init 8 0 1; cfibre_mutexattr_init 16; cfibre_mutexattr_settype 16 PTHREAD_MUTEX_RECURSIVE; cfibre_mutex_init 24 16;
   cfibre_sem_trywait 8; cfibre_mutex_lock 24; cfibre_mutex_destroy 24; cfibre_mutexattr_destroy 16; cfibre_sem_destroy 8].
Definition demo_shapes : list shape :=
  [Init 8 KSem (fun s => fibre_sem_init s 0 1); Init 16 KMutexattr fibre_mutexattr_init;
   Use 16 (fun a => fibre_mutexattr_settype a PTHREAD_MUTEX_RECURSIVE); InitWith 24 KMutex 16 KMutexattr (fun m => fibre_mutex_init m None);
   Use 8 fibre_sem_trywait; Use 24 fibre_mutex_lock; Destroy 24 KMutex fibre_mutex_destroy;
   Destroy 16 KMutexattr fibre_mutexattr_destroy; Destroy 8 KSem fibre_sem_destroy].
Ltac api_entry := unfold in_api, api; repeat first [left; reflexivity | right].
Lemma demo_in_api : Forall2 in_api demo_calls demo_shapes.
Proof.
  unfold demo_calls, demo_shapes.
  constructor; [exists 8, 0, 0, 1; api_entry|].
  constructor; [exists 16, 0, 0, 0; api_entry|].
  constructor; [exists 16, 0, PTHREAD_MUTEX_RECURSIVE, 0; api_entry|].
  constructor; [exists 24, 16, 0, 0; api_entry|].
  constructor; [exists 8, 0, 0, 0; api_entry|].
  constructor; [exists 24, 0, 0, 0; api_entry|].
  constructor; [exists 24, 0, 0, 0; api_entry|].
  constructor; [exists 16, 0, 0, 0; api_entry|].
  constructor; [exists 8, 0, 0, 0; api_entry|].
  constructor.
Qed.

(** A semaphore that is not available is reported by the return value, not by
    [errno] with the value -1. *)
Lemma sem_trywait_code l m n : live_as (live m) (var m 8) KSem = true ->
  exists m' tr n', exec l (fun _ => 0) (cfibre_sem_trywait 8) m n = Some ((EAGAIN, []), m', tr, n').
Proof. intros H. unfold cfibre_sem_trywait, via. cbn. unfold callable. cbn. rewrite H. cbn. by eexists _, _, _. Qed.
(** A handle that was destroyed is a null pointer: a later call fails there. *)
Lemma destroyed_handle_fails l a m n : live m !! nullptr = None -> var m 8 = nullptr -> exec l a (cfibre_sem_wait 8) m n = None.
Proof. intros Hl Hv. cbn. rewrite Hv. unfold callable, live_as. cbn. rewrite bool_decide_false; [done|]. by rewrite Hl. Qed.
