(* ===== verification/Bootstrap.v ===== *)
(** The start of the library: [FibreInit] and [parselist] of
    [src/libfibre/Bootstrap.cc] and [EventScope::bootstrap] of
    [src/libfibre/EventScope.h].  Strings are lists of characters without the
    final null; the environment is a function from names to strings. *)
From Stdlib Require Import Ascii String.
From S2P Require Import Prelude Clusters.
Local Open Scope Z_scope.

(** * Characters and [atoi] *)
Definition code (c : ascii) : Z := Z.of_N (N_of_ascii c).
Definition isdigit (c : ascii) : bool := (48 <=? code c) && (code c <=? 57).
Definition isspace (c : ascii) : bool := (code c =? 32) || ((9 <=? code c) && (code c <=? 13)).
Definition comma : ascii := ","%char.
Definition dash : ascii := "-"%char.
Definition INT_MAX : Z := 2 ^ 31 - 1.

(** The digits at the front of a string, and what follows. *)
Fixpoint span_digits (s : list ascii) : list ascii * list ascii :=
  match s with
  | c :: t => if isdigit c then let '(ds, r) := span_digits t in (c :: ds, r) else ([], s)
  | [] => ([], [])
  end.
Definition value (ds : list ascii) : Z := foldl (fun a c => 10 * a + (code c - 48)) 0 ds.

Fixpoint skip_spaces (s : list ascii) : list ascii :=
  match s with c :: t => if isspace c then skip_spaces t else s | [] => [] end.
(** [atoi]: undefined, [None], when the number is not an [int]. *)
Definition atoi (s : list ascii) : option Z :=
  let '(neg, t) := match skip_spaces s with
                   | c :: t => if ascii_dec c dash then (true, t) else if ascii_dec c "+"%char then (false, t) else (false, c :: t)
                   | [] => (false, [])
                   end in
  let v := (if neg then -1 else 1) * value (fst (span_digits t)) in
  if (- INT_MAX - 1 <=? v) && (v <=? INT_MAX) then Some v else None.

(** * [parselist] *)
Inductive parse_state := NONE | NUM | DASH.
(** The list, [parserr], or undefined behaviour (a number or the end of a
    range beyond [int]). *)
Inductive outcome := Done (cpulist : list Z) | ParseErr | Undefined.

(** The loop, with the string from [l] on; [None]: out of fuel. *)
Fixpoint parse_loop (fuel : nat) (state : parse_state) (lastnum curnum : Z) (cpulist : list Z) (l : list ascii) : option outcome :=
  match l with
  | [] =>
      Some (match state with NONE => Done cpulist | NUM => Done (cpulist ++ [curnum]) | DASH => ParseErr end)
  | c :: t =>
      match fuel with
      | O => None
      | S fuel =>
          if isdigit c then
            match atoi l with
            | None => Some Undefined
            | Some curnum =>
                let l := snd (span_digits l) in
                match state with
                | NONE => parse_loop fuel NUM curnum curnum cpulist l
                | DASH =>
                    if curnum =? INT_MAX then Some Undefined
                    else parse_loop fuel NONE (Z.max lastnum (curnum + 1)) curnum
                           (cpulist ++ seqZ lastnum (curnum - lastnum + 1)) l
                | NUM => Some ParseErr
                end
            end
          else if ascii_dec c comma then
            match state with
            | NONE => parse_loop fuel NONE lastnum curnum cpulist t
            | NUM => parse_loop fuel NONE lastnum curnum (cpulist ++ [curnum]) t
            | DASH => Some ParseErr
            end
          else if ascii_dec c dash then
            match state with NUM => parse_loop fuel DASH lastnum curnum cpulist t | _ => Some ParseErr end
          else Some ParseErr
      end
  end.
Definition parselist (list : list ascii) : option outcome := parse_loop (length list) NONE 0 0 [] list.

(** * [EventScope::bootstrap] and [FibreInit] *)

(** [for (i = 0; i < workerCount && it != cpulist.end(); i++, it++)]: which
    thread is pinned to which processor. *)
Fixpoint pin_loop (tids cpulist : list Z) : list (Z * Z) :=
  match tids, cpulist with
  | t :: tids, c :: cpulist => (t, c) :: pin_loop tids cpulist
  | _, _ => []
  end.
(** How many workers the main cluster gets: [registerWorker] and [addWorkers]. *)
Definition worker_total (workerCount : Z) : Z := if 1 <? workerCount then 1 + (workerCount - 1) else 1.
(** [bootstrap], when the main cluster with its workers is [s] and the system
    identifies worker [i] by [ids i]. *)
Definition bootstrap (cpulist : list Z) (pollerCount workerCount : Z) (ids : nat -> Z) (s : Clusters.state) : option (list (Z * Z)) :=
  _ ← rassert (0 <? pollerCount);
  '(tids, _) ← getWorkerSysIDs (Z.to_nat workerCount) ids s;
  Some (pin_loop tids cpulist).

Definition environment := string -> option (list ascii).

Definition count_from (env : option (list ascii)) (count : Z) : option Z :=
  match env with
  | None => Some count
  | Some e => cnt ← atoi e; Some (if 0 <? cnt then cnt else count)
  end.
(** The arguments that [FibreInit] passes to [bootstrap]; [None]: undefined. *)
Definition FibreInit (getenv : environment) (pollerCount workerCount : Z) : option (list Z * Z * Z) :=
  pollerCount ← count_from (getenv "FibrePollerCount"%string) pollerCount;
  workerCount ← count_from (getenv "FibreWorkerCount"%string) workerCount;
  match getenv "FibreCpuSet"%string with
  | None => Some ([], pollerCount, workerCount)
  | Some e =>
      match parselist e with
      | Some (Done cpulist) =>
          Some (cpulist, pollerCount, if workerCount <? Z.of_nat (length cpulist) then Z.of_nat (length cpulist) else workerCount)
      | Some ParseErr => Some ([], pollerCount, workerCount)
      | Some Undefined | None => None
      end
  end.

(** * What [parselist] accepts *)
Definition numeral (ds : list ascii) (v : Z) : Prop := ds <> [] /\ forallb isdigit ds = true /\ value ds = v /\ v <= INT_MAX.
(** No digit in front. *)
Definition closed (s : list ascii) : Prop := match s with c :: _ => isdigit c = false | [] => True end.

(** A list of processors: numbers and ranges, separated by commas, of which
    any number may be missing or superfluous. *)
Inductive cpuset : list ascii -> list Z -> Prop :=
| set_end : cpuset [] []
| set_comma s l : cpuset s l -> cpuset (comma :: s) l
| set_last ds v : numeral ds v -> cpuset ds [v]
| set_one ds v s l : numeral ds v -> cpuset s l -> cpuset (ds ++ comma :: s) (v :: l)
| set_range ds a ds' b s l :
    numeral ds a -> numeral ds' b -> b < INT_MAX -> closed s -> cpuset s l ->
    cpuset (ds ++ dash :: ds' ++ s) (seqZ a (b - a + 1) ++ l).

Lemma span_ok s ds r : span_digits s = (ds, r) -> s = ds ++ r /\ forallb isdigit ds = true /\ closed r.
Proof.
  revert ds r. induction s as [|c s IH]; intros ds r; cbn; [by intros [= <- <-]|].
  destruct (isdigit c) eqn:Hc; [|by intros [= <- <-]]. destruct (span_digits s) as [ds' r'].
  intros [= <- <-]. destruct (IH ds' r' eq_refl) as (-> & Hd & Hr). cbn. by rewrite Hc.
Qed.

Lemma span_app ds r : forallb isdigit ds = true -> closed r -> span_digits (ds ++ r) = (ds, r).
Proof.
  intros Hd Hr. induction ds as [|c ds IH]; cbn in *.
  - destruct r as [|c r]; [done|]. cbn in *. by rewrite Hr.
  - apply andb_true_iff in Hd as [-> Hd]. by rewrite IH.
Qed.

Lemma digit_code c : isdigit c = true -> 0 <= code c - 48 <= 9.
Proof. unfold isdigit. intros Hc. bool_prop. lia. Qed.

Lemma value_nonneg_from ds a : 0 <= a -> forallb isdigit ds = true -> 0 <= foldl (fun a c => 10 * a + (code c - 48)) a ds.
Proof.
  revert a. induction ds as [|c ds IH]; intros a Ha Hd; cbn in *; [done|]. apply andb_true_iff in Hd as [Hc%digit_code Hd].
  apply IH; [lia|done].
Qed.
Lemma value_nonneg ds : forallb isdigit ds = true -> 0 <= value ds.
Proof. by apply value_nonneg_from. Qed.

Lemma digit_plain c : isdigit c = true -> isspace c = false /\ c <> dash /\ c <> "+"%char /\ c <> comma.
Proof.
  unfold isdigit, isspace. intros Hc. bool_prop. split.
  - destruct (Z.eqb_spec (code c) 32); [lia|]. destruct (Z.leb_spec 9 (code c)), (Z.leb_spec (code c) 13); cbn; lia.
  - split_and!; intros ->; vm_compute in H, H0; congruence.
Qed.

Lemma atoi_digits ds r : forallb isdigit ds = true -> ds <> [] -> closed r ->
  atoi (ds ++ r) = if value ds <=? INT_MAX then Some (value ds) else None.
Proof.
  intros Hd Hn Hr. pose proof (value_nonneg ds Hd) as Hv. destruct ds as [|c ds]; [done|].
  assert (Hc : isdigit c = true) by (cbn in Hd; by apply andb_true_iff in Hd as [? _]).
  destruct (digit_plain c Hc) as (Hs & Hm & Hp & _). unfold atoi. cbn [skip_spaces app]. rewrite Hs.
  destruct (ascii_dec c dash) as [|_]; [done|]. destruct (ascii_dec c "+"%char) as [|_]; [done|].
  rewrite app_comm_cons, span_app by done. cbn [fst]. rewrite Z.mul_1_l.
  assert (- INT_MAX - 1 <=? value (c :: ds) = true) as -> by (apply Z.leb_le; unfold INT_MAX; lia). done.
Qed.

Lemma digits_unique ds ds' r r' : forallb isdigit ds = true -> forallb isdigit ds' = true -> closed r -> closed r' ->
  ds ++ r = ds' ++ r' -> ds = ds' /\ r = r'.
Proof.
  intros Hd Hd' Hr Hr' E. pose proof (span_app ds r Hd Hr) as H1. rewrite E, span_app in H1 by done. by simplify_eq.
Qed.

Lemma comma_closed s : closed (comma :: s).
Proof. done. Qed.
Lemma dash_closed s : closed (dash :: s).
Proof. done. Qed.

(** The language after a number. *)
Lemma cpuset_digits ds r l : forallb isdigit ds = true -> ds <> [] -> closed r ->
  cpuset (ds ++ r) l <-> value ds <= INT_MAX /\
    ((r = [] /\ l = [value ds]) \/
     (exists s l', r = comma :: s /\ l = value ds :: l' /\ cpuset s l') \/
     (exists ds' s l', r = dash :: ds' ++ s /\ numeral ds' (value ds') /\ value ds' < INT_MAX /\ closed s /\
        l = seqZ (value ds) (value ds' - value ds + 1) ++ l' /\ cpuset s l')).
Proof.
  intros Hd Hn Hr. split.
  - intros Hc. remember (ds ++ r) as s eqn:Hs. destruct Hc as [|s l Hc|ds1 v Hv|ds1 v s l Hv Hc|ds1 a ds' b s l Ha Hb Hlt Hcl Hc].
    + symmetry in Hs. by apply app_nil in Hs as [? _].
    + destruct ds as [|c ds]; [done|]. cbn in Hs, Hd. by simplify_eq.
    + destruct Hv as (Hv1 & Hv2 & <- & Hv3). rewrite <- (app_nil_r ds1) in Hs.
      apply digits_unique in Hs as [-> <-]; try done. split; [done|]. by left.
    + destruct Hv as (Hv1 & Hv2 & <- & Hv3). apply digits_unique in Hs as [-> <-]; try done. split; [done|]. right. left. eauto.
    + destruct Ha as (Ha1 & Ha2 & <- & Ha3). apply digits_unique in Hs as [-> <-]; try done. split; [done|]. right. right.
      destruct Hb as (Hb1 & Hb2 & <- & Hb3). exists ds', s, l. by split_and!.
  - intros [Hv [[-> ->]|[(s & l' & -> & -> & Hc)|(ds' & s & l' & -> & Hb & Hlt & Hcl & -> & Hc)]]].
    + rewrite app_nil_r. apply set_last. by split_and!.
    + apply set_one; [by split_and!|done].
    + by apply set_range.
Qed.

Lemma cpuset_nil l : cpuset [] l <-> l = [].
Proof.
  split; [|intros ->; constructor]. intros Hc. remember [] as s eqn:Hs. destruct Hc as [|s l Hc|ds v Hv|ds v s l Hv Hc|ds a ds' b s l]; try done.
  - subst. by destruct Hv.
  - by destruct ds.
  - by destruct ds.
Qed.

Lemma cpuset_other c s l : isdigit c = false -> cpuset (c :: s) l <-> c = comma /\ cpuset s l.
Proof.
  intros Hd. split; [|intros [-> Hc]; by constructor].
  intros Hc. remember (c :: s) as t eqn:Ht. destruct Hc as [|s' l Hc|ds v Hv|ds v s' l Hv Hc|ds a ds' b s' l Ha]; try done.
  - by simplify_eq.
  - subst. destruct Hv as (_ & Hv & _). cbn in Hv. by rewrite Hd in Hv.
  - destruct Hv as (Hn & Hv & _). destruct ds as [|c' ds]; [done|]. cbn in *. simplify_eq. by rewrite Hd in Hv.
  - destruct Ha as (Hn & Hv & _). destruct ds as [|c' ds]; [done|]. cbn in *. simplify_eq. by rewrite Hd in Hv.
Qed.

(** The three ways the loop goes on after a number. *)
Lemma loop_digits fuel state last cur acc ds r : forallb isdigit ds = true -> ds <> [] -> closed r ->
  parse_loop (S fuel) state last cur acc (ds ++ r) =
    if value ds <=? INT_MAX then
      match state with
      | NONE => parse_loop fuel NUM (value ds) (value ds) acc r
      | DASH => if value ds =? INT_MAX then Some Undefined
                else parse_loop fuel NONE (Z.max last (value ds + 1)) (value ds) (acc ++ seqZ last (value ds - last + 1)) r
      | NUM => Some ParseErr
      end
    else Some Undefined.
Proof.
  intros Hd Hn Hr. pose proof (atoi_digits ds r Hd Hn Hr) as Ha. pose proof (span_app ds r Hd Hr) as Hs.
  destruct ds as [|c ds]; [done|]. assert (Hc : isdigit c = true) by (cbn in Hd; by apply andb_true_iff in Hd as [? _]).
  cbn [app] in *. cbn [parse_loop]. rewrite Hc, Ha, Hs. by destruct (_ <=? _).
Qed.

(** The loop ends, and with a list exactly if the rest of the string is in [lang]. *)
Definition parses (fuel : nat) (state : parse_state) (last cur : Z) (acc : list Z) (s : list ascii) (lang : list Z -> Prop) : Prop :=
  exists o, parse_loop fuel state last cur acc s = Some o /\ forall res, o = Done res <-> exists l, res = acc ++ l /\ lang l.
Definition parses_all (n : nat) : Prop :=
  forall fuel last cur acc s, (length s <= n)%nat -> (length s <= fuel)%nat -> parses fuel NONE last cur acc s (cpuset s).

Lemma parses_fail fuel state last cur acc s o (lang : list Z -> Prop) :
  parse_loop fuel state last cur acc s = Some o -> (forall res, o <> Done res) -> (forall l, ~ lang l) ->
  parses fuel state last cur acc s lang.
Proof.
  intros Hp Ho Hl. exists o. split; [done|]. intros res. split; [by intros ?%Ho|]. intros (l & _ & ?). by destruct (Hl l).
Qed.

(** After a number and a dash. *)
Definition range_rest (a : Z) (s : list ascii) (l : list Z) : Prop :=
  exists ds s' l', s = ds ++ s' /\ numeral ds (value ds) /\ value ds < INT_MAX /\ closed s' /\
    l = seqZ a (value ds - a + 1) ++ l' /\ cpuset s' l'.

Lemma parse_dash n fuel a cur acc s : parses_all n -> (length s <= S n)%nat -> (length s <= fuel)%nat ->
  parses fuel DASH a cur acc s (range_rest a s).
Proof.
  intros IH Hn Hf. destruct (span_digits s) as [ds r] eqn:Hs. apply span_ok in Hs as (-> & Hd & Hr).
  assert (Hno : forall ds' s', ds ++ r = ds' ++ s' -> numeral ds' (value ds') -> closed s' -> ds' = ds /\ s' = r).
  { intros ds' s' E (_ & Hd' & _) Hs'. apply digits_unique in E as [-> ->]; done. }
  destruct (decide (ds = [])) as [->|Hne].
  - assert (Hl : forall l, ~ range_rest a r l).
    { intros l (ds & s & l' & E & Hnum & _ & Hcl & _). destruct (Hno ds s E Hnum Hcl) as [-> _]. by destruct Hnum. }
    cbn [app] in *. destruct r as [|c r]; [destruct fuel; by eapply parses_fail|]. destruct fuel as [|fuel]; [cbn in Hf; lia|].
    cbn in Hr. destruct (ascii_dec c comma) as [->|Hc]; [by eapply parses_fail|].
    eapply parses_fail; [|intros res; shelve|exact Hl]. cbn [parse_loop]. rewrite Hr. destruct (ascii_dec c comma); [done|].
    destruct (ascii_dec c dash); reflexivity. Unshelve. done.
  - assert (Hlen : (1 <= length ds)%nat) by (destruct ds; [done|cbn; lia]). rewrite length_app in Hn, Hf.
    destruct fuel as [|fuel]; [lia|]. unfold parses. rewrite loop_digits by done.
    destruct (Z.leb_spec (value ds) INT_MAX) as [Hv|Hv]; [destruct (Z.eqb_spec (value ds) INT_MAX) as [He|He]|].
    + eexists. split; [reflexivity|]. intros res. split; [done|]. intros (l & _ & ds' & s & l' & E & Hnum & Hlt & Hcl & _).
      destruct (Hno ds' s E Hnum Hcl) as [-> _]. lia.
    + destruct (IH fuel (Z.max a (value ds + 1)) (value ds) (acc ++ seqZ a (value ds - a + 1)) r) as (o & Ho & Hiff); [lia|lia|].
      exists o. split; [done|]. intros res. rewrite Hiff. split.
      * intros (l & -> & Hc). eexists. rewrite <- app_assoc. split; [done|]. exists ds, r, l. split_and!; try done; by split_and! || lia.
      * intros (l & -> & ds' & s & l' & E & Hnum & Hlt & Hcl & -> & Hc). destruct (Hno ds' s E Hnum Hcl) as [-> ->].
        exists l'. by rewrite <- app_assoc.
    + eexists. split; [reflexivity|]. intros res. split; [done|]. intros (l & _ & ds' & s & l' & E & Hnum & Hlt & Hcl & _).
      destruct (Hno ds' s E Hnum Hcl) as [-> _]. lia.
Qed.

(** After a number. *)
Definition number_rest (v : Z) (r : list ascii) (l : list Z) : Prop :=
  (r = [] /\ l = [v]) \/ (exists s l', r = comma :: s /\ l = v :: l' /\ cpuset s l') \/ (exists s, r = dash :: s /\ range_rest v s l).

Lemma parse_num n fuel v acc r : parses_all n -> closed r -> (length r <= S n)%nat -> (length r <= fuel)%nat ->
  parses fuel NUM v v acc r (number_rest v r).
Proof.
  intros IH Hr Hn Hf. destruct r as [|c r].
  - destruct fuel; eexists; (split; [reflexivity|]); intros res; split.
    1, 3: intros [= <-]; eexists; split; [done|]; by left.
    1, 2: intros (l & -> & [[_ ->]|[(s & l' & ? & _)|(s & ? & _)]]); done.
  - destruct fuel as [|fuel]; [cbn in Hf; lia|]. cbn in Hr, Hn, Hf. unfold parses. cbn [parse_loop]. rewrite Hr.
    destruct (ascii_dec c comma) as [->|Hc]; [|destruct (ascii_dec c dash) as [->|Hc']].
    + destruct (IH fuel v v (acc ++ [v]) r) as (o & Ho & Hiff); [lia|lia|]. exists o. split; [done|]. intros res. rewrite Hiff. split.
      * intros (l & -> & Hl). rewrite <- app_assoc. eexists. split; [done|]. right. left. by exists r, l.
      * intros (l & -> & [[? _]|[(s & l' & [= <-] & -> & Hl)|(s & ? & _)]]); try done. exists l'. by rewrite <- app_assoc.
    + destruct (parse_dash n fuel v v acc r IH) as (o & Ho & Hiff); [lia|lia|]. exists o. split; [done|]. intros res. rewrite Hiff. split.
      * intros (l & -> & Hl). exists l. split; [done|]. right. right. by exists r.
      * intros (l & -> & [[? _]|[(s & l' & ? & _)|(s & [= <-] & Hl)]]); try done. by exists l.
    + eexists. split; [reflexivity|]. intros res. split; [done|]. intros (l & -> & [[? _]|[(s & l' & ? & _)|(s & ? & _)]]); congruence.
Qed.

Lemma parse_all_ok n : parses_all n.
Proof.
  induction n as [|n IH]; intros fuel last cur acc s Hn Hf; (destruct s as [|c s];
    [destruct fuel; eexists; (split; [reflexivity|]); intros res; setoid_rewrite cpuset_nil; split;
     [intros [= <-]; exists []; by rewrite app_nil_r|intros (l & -> & ->); by rewrite app_nil_r
     |intros [= <-]; exists []; by rewrite app_nil_r|intros (l & -> & ->); by rewrite app_nil_r]|]); [cbn in Hn; lia|].
  destruct fuel as [|fuel]; [cbn in Hf; lia|]. destruct (isdigit c) eqn:Hc.
  - destruct (span_digits (c :: s)) as [ds r] eqn:Hs. apply span_ok in Hs as (E & Hd & Hr). rewrite E in *.
    assert (Hne : ds <> []) by (intros ->; cbn in E; subst r; cbn in Hr; congruence).
    assert (Hlen : (1 <= length ds)%nat) by (destruct ds; [done|cbn; lia]). rewrite length_app in Hn, Hf.
    unfold parses. rewrite loop_digits by done. setoid_rewrite (cpuset_digits ds r _ Hd Hne Hr).
    destruct (Z.leb_spec (value ds) INT_MAX) as [Hv|Hv].
    + destruct (parse_num n fuel (value ds) acc r IH Hr) as (o & Ho & Hiff); [lia|lia|]. exists o. split; [done|]. intros res. rewrite Hiff.
      unfold number_rest, range_rest. split.
      * intros (l & -> & Hl). exists l. split; [done|]. split; [done|]. naive_solver.
      * intros (l & -> & _ & Hl). exists l. split; [done|]. destruct Hl as [?|[?|(ds' & s' & l' & ? & ?)]]; [by left|by right; left|].
        right. right. eexists. split; [done|]. eauto 10.
    + eexists. split; [reflexivity|]. intros res. split; [done|]. intros (l & _ & ? & _). lia.
  - unfold parses. cbn [parse_loop]. rewrite Hc. setoid_rewrite (cpuset_other c s _ Hc). cbn in Hn, Hf.
    destruct (ascii_dec c comma) as [->|Hne].
    + destruct (IH fuel last cur acc s) as (o & Ho & Hiff); [lia|lia|]. exists o. split; [done|]. intros res. rewrite Hiff. naive_solver.
    + destruct (ascii_dec c dash); eexists; (split; [reflexivity|]); intros res; naive_solver.
Qed.

Lemma parselist_ok s : exists o, parselist s = Some o /\ forall l, o = Done l <-> cpuset s l.
Proof.
  destruct (parse_all_ok (length s) (length s) 0 0 [] s ltac:(lia) ltac:(lia)) as (o & Ho & Hiff). exists o. split; [exact Ho|].
  intros l. rewrite Hiff. cbn. naive_solver.
Qed.

(** C35. [parselist] decides the language of processor lists: it ends, and its
    result is a list exactly when the string is in the language and denotes that
    list. *)
Theorem parselist_correct s : exists o, parselist s = Some o /\ forall l, o = Done l <-> cpuset s l.
Proof. apply parselist_ok. Qed.

Lemma count_from_pos env count cnt : 0 < count -> count_from env count = Some cnt -> 0 < cnt.
Proof.
  unfold count_from. intros Hc. destruct env as [e|]; [|by intros [= <-]]. destruct (atoi e) as [v|]; cbn; [|done].
  destruct (Z.ltb_spec 0 v); by intros [= <-].
Qed.

Lemma pin_loop_ok tids cpus : (length cpus <= length tids)%nat ->
  map snd (pin_loop tids cpus) = cpus /\ map fst (pin_loop tids cpus) = take (length cpus) tids.
Proof.
  revert tids. induction cpus as [|c cpus IH]; intros [|t tids]; cbn; try done; [lia|].
  intros Hl. destruct (IH tids) as [H1 H2]; [lia|]. by rewrite H1, H2.
Qed.

(** [FibreInit] with positive counts: the counts stay positive; the list is the
    one that FibreCpuSet denotes, or empty when it denotes none; there are at
    least as many workers as processors in the list, so that [bootstrap] pins
    one worker, each time another, to every processor of the list. *)
Theorem FibreInit_correct getenv pollerCount workerCount cpus p w ids s :
  0 < pollerCount -> 0 < workerCount -> FibreInit getenv pollerCount workerCount = Some (cpus, p, w) ->
  reachable Clusters.init Clusters.step s -> Z.of_nat (length (workers s)) = worker_total w ->
  0 < p /\ Z.of_nat (length (workers s)) = w /\ Z.of_nat (length cpus) <= w /\
  (forall e, getenv "FibreCpuSet"%string = Some e -> cpuset e cpus \/ cpus = [] /\ forall l, ~ cpuset e l) /\
  exists pins, bootstrap cpus p w ids s = Some pins /\ map snd pins = cpus /\
    map fst pins = map ids (take (length cpus) (ring s)) /\ NoDup (take (length cpus) (ring s)).
Proof.
  intros Hp Hw Hf Hr Hs. unfold FibreInit in Hf.
  destruct (count_from (getenv "FibrePollerCount"%string) pollerCount) as [p0|] eqn:Hp0; cbn in Hf; [|done].
  destruct (count_from (getenv "FibreWorkerCount"%string) workerCount) as [w0|] eqn:Hw0; cbn in Hf; [|done].
  apply count_from_pos in Hp0; [|done]. apply count_from_pos in Hw0; [|done].
  assert (H : p = p0 /\ 0 < w /\ Z.of_nat (length cpus) <= w /\
    (forall e, getenv "FibreCpuSet"%string = Some e -> cpuset e cpus \/ cpus = [] /\ forall l, ~ cpuset e l)).
  { destruct (getenv "FibreCpuSet"%string) as [e|]; [|simplify_eq; cbn; split_and!; (done || lia)].
    destruct (parselist_ok e) as (o & Ho & Hiff). rewrite Ho in Hf. destruct o as [l| |]; simplify_eq.
    - split_and!; [done| | |].
      + destruct (Z.ltb_spec w0 (Z.of_nat (length cpus))); lia.
      + destruct (Z.ltb_spec w0 (Z.of_nat (length cpus))); lia.
      + intros e' [= <-]. left. by apply Hiff.
    - cbn. split_and!; try (done || lia). intros e' [= <-]. right. split; [done|]. by intros l ?%Hiff. }
  destruct H as (-> & Hwp & Hlen & Hset).
  assert (Htot : worker_total w = w) by (unfold worker_total; destruct (Z.ltb_spec 1 w); lia).
  rewrite Htot in Hs. split_and!; try done.
  pose proof (cluster_reachable_inv s Hr) as Hi. pose proof (i_ring s Hi) as Hring.
  pose proof (Permutation_length Hring) as Hrl. rewrite length_seq in Hrl.
  unfold bootstrap. rewrite (proj2 (Z.ltb_lt 0 p0) Hp0). cbn [rassert mbind option_bind].
  rewrite (getWorkerSysIDs_correct s (Z.to_nat w) ids Hr). cbn. eexists. split; [reflexivity|].
  destruct (pin_loop_ok (map ids (take (Z.to_nat w) (ring s))) cpus) as [H1 H2].
  { rewrite length_map, length_take. lia. }
  split_and!; [done| |].
  - rewrite H2, <- firstn_map, firstn_firstn, Nat.min_l by lia. by rewrite firstn_map.
  - eapply sublist_NoDup; [by apply ring_nodup|apply sublist_take].
Qed.

(** Characters of a string constant. *)
Definition chars (s : string) : list ascii := list_ascii_of_string s.

Example parse_ranges : parselist (chars "2,4-6,,9,") = Some (Done [2; 4; 5; 6; 9]).
Proof. reflexivity. Qed.
Example parse_down : parselist (chars "5-3,1-2-3") = Some ParseErr.
Proof. reflexivity. Qed.
Example parse_large : parselist (chars "1,2147483648") = Some Undefined.
Proof. reflexivity. Qed.

Definition small_env : environment := fun n => if string_dec n "FibreCpuSet"%string then Some (chars "7,2-3") else None.

Lemma FibreInit_correct_witness :
  let s := after Clusters.step empty_cluster [AddWorker; Start 0; AddWorker; AddWorker] in
  exists pins, bootstrap [7; 2; 3] 1 3 (fun i => 100 + Z.of_nat i) s = Some pins /\ map snd pins = [7; 2; 3] /\ map fst pins = [100; 102; 101].
Proof.
  set (s := after _ _ _). assert (Hr : reachable Clusters.init Clusters.step s) by (apply run_reaches; [done|reflexivity]).
  destruct (FibreInit_correct small_env 1 1 [7; 2; 3] 1 3 (fun i => 100 + Z.of_nat i) s) as (_ & _ & _ & _ & pins & H1 & H2 & H3 & _);
    [lia|lia|reflexivity|exact Hr|reflexivity|].
  exists pins. split; [exact H1|]. split; [exact H2|]. rewrite H3. reflexivity.
Defined.
