(* ===== verification/Forks.v ===== *)
(** Forking the process: [FibreFork] of [src/libfibre/Bootstrap.cc] with
    [EventScope::preFork], [postFork] and [start] of [src/libfibre/EventScope.h]
    and their parts in [Cluster.cc], [Cluster.h] and [Poller.h], [Poller.cc]: what
    the scope must be like before, and how the child replaces the pollers whose
    descriptors it shares with its parent.

    The state is one process: the descriptor table of EventScopes, the open
    descriptors, and the pollers.  The master poller is a thread of its own, so
    [fork] can find it at any point of [LockedSemaphore::V]; the child does not
    have that thread, and keeps what it left behind. *)
From S2P Require Import Prelude Words Times Freds BlockingQueues Semaphores Stats EventScopes.
From S2P Require TimerQueues.
Local Open Scope Z_scope.

(** A result, a wait that never ends, or a failed system call or assertion. *)
Inductive outcome (A : Type) := Fin (a : A) | Stuck | Abort.
Arguments Fin {A}. Arguments Stuck {A}. Arguments Abort {A}.
Definition obind {A B} (m : outcome A) (f : A -> outcome B) : outcome B :=
  match m with Fin a => f a | Stuck => Stuck | Abort => Abort end.
Notation "x <- m ;; k" := (obind m (fun x => k)) (at level 100, m at next level, right associativity) : rt_scope.
Notation "' p <- m ;; k" := (obind m (fun x => let p := x in k)) (at level 100, p pattern, m at next level, right associativity) : rt_scope.
Local Open Scope rt_scope.

(** Where the fibre of a [PollerFibre] is: not started, before [registerPollFD],
    in [pollLoop] and ready to run, asleep in [blockPollFD]. *)
Inductive stage := Created | Starting | Looping | Asleep.
Record PollerFibre := mkPF { pollFD : Z; pollFibre : fid; at_ : stage }.
Definition set_stage (c : stage) (p : PollerFibre) : PollerFibre := mkPF (pollFD p) (pollFibre p) c.

(** The thread of the master poller in [unblock<true>(fd)]: elsewhere, holding
    the lock of the semaphore, or before [next->resume()]. *)
Inductive mpc := MElsewhere | MLocked (fd : Z) | MResume (f : fid).
#[export] Instance mpc_dec : EqDecision mpc.
Proof. solve_decision. Defined.

(** What system calls and allocations change. *)
Record kernel := mkKernel { io : world; opened : list Z; nextFibre : fid }.
Record scope := mkScope {
  k : kernel;
  timerQueue : TimerQueues.TimerQueue;
  diskCluster : bool;
  ring : list nat;                    (* the processors of the main cluster *)
  masterPoller : Z * Z;               (* pollFD and timerFD *)
  master : mpc;
  iPollVec : list PollerFibre;
  oPollVec : list PollerFibre;
  users : list Z;                     (* descriptors of the application *)
  lost : list PollerFibre             (* pollers overwritten without destruction *)
}.

Section Forks.
Context (self : Z -> ptr) (timerSelf : ptr).   (* &sync[true].bq of a descriptor, and &timerQueue.queue *)
(** The kernel's choice of a new descriptor, if there is one. *)
Context (unused : list Z -> option Z).
Context (limit : Z).                  (* on open files, RLIMIT_NOFILE *)

(** * Pollers *)
Definition open_fd (s : kernel) : outcome (Z * kernel) :=
  match unused (opened s) with
  | Some fd => Fin (fd, mkKernel (io s) (fd :: opened s) (nextFibre s))
  | None => Abort
  end.
Definition close_fd (fd : Z) (s : kernel) : kernel :=
  mkKernel (io s) (base.filter (fun x => x <> fd) (opened s)) (nextFibre s).

(** [PollerFibre(es, parent, n)]: [epoll_create1], and a fibre, not started. *)
Definition new_poller (s : kernel) : outcome (PollerFibre * kernel) :=
  '(fd, s) <- open_fd s;;
  Fin (mkPF fd (nextFibre s) Created, mkKernel (io s) (opened s) (S (nextFibre s))).

(** [sync[true]] of a descriptor. *)
Definition input_sem (fd : Z) (s : kernel) : LockedSemaphore := sync (fds (io s) fd) true.
Definition set_sem (fd : Z) (x : bool) (q : LockedSemaphore) (s : kernel) : kernel :=
  let t := fds (io s) fd in
  mkKernel (set_fd fd (mkSyncFD (upd (sync t) x q) (poller t) (blocking t) (useUring t)) (io s)) (opened s) (nextFibre s).

(** [~PollerFibre()]: [unblockPollFD], which needs the lock that thread [m] may
    have taken to its grave; then the join of the fibre, which ends when it runs
    because [pollTerminate] is set; then [~BasePoller()]. *)
Definition destroy_poller (m : mpc) (p : PollerFibre) (s : kernel) : outcome kernel :=
  let fd := pollFD p in
  if negb ((0 <=? fd) && (fd <? fdCount (io s))) then Abort
  else if decide (m = MLocked fd) then Stuck
  else
    let '(next, q) := V (self fd) true (input_sem fd s) in
    match at_ p with
    | Created => Stuck
    | Starting | Looping => Fin (close_fd fd (set_sem fd true q s))
    | Asleep => if decide (next = Some (pollFibre p)) then Fin (close_fd fd (set_sem fd true q s)) else Stuck
    end.

Fixpoint new_pollers (n : nat) (s : kernel) : outcome (list PollerFibre * kernel) :=
  match n with
  | O => Fin ([], s)
  | S n => '(p, s) <- new_poller s;; '(l, s) <- new_pollers n s;; Fin (p :: l, s)
  end.
(** [PollerFibre::start()] *)
Definition start_poller (p : PollerFibre) : PollerFibre := set_stage Starting p.

(** The loops of [Cluster::postFork]: each poller is destroyed and a new one
    made in its place. *)
Fixpoint renew (m : mpc) (l : list PollerFibre) (s : kernel) : outcome (list PollerFibre * kernel) :=
  match l with
  | [] => Fin ([], s)
  | p :: l => s <- destroy_poller m p s;; '(p, s) <- new_poller s;; '(l, s) <- renew m l s;; Fin (p :: l, s)
  end.

(** * The scope *)
Definition set_k (x : kernel) (s : scope) : scope :=
  mkScope x (timerQueue s) (diskCluster s) (ring s) (masterPoller s) (master s) (iPollVec s) (oPollVec s) (users s) (lost s).
Definition set_master (p : Z * Z) (m : mpc) (s : scope) : scope :=
  mkScope (k s) (timerQueue s) (diskCluster s) (ring s) p m (iPollVec s) (oPollVec s) (users s) (lost s).
Definition set_pollers (i o : list PollerFibre) (s : scope) : scope :=
  mkScope (k s) (timerQueue s) (diskCluster s) (ring s) (masterPoller s) (master s) i o (users s) (lost s).
Definition set_users (l : list Z) (s : scope) : scope :=
  mkScope (k s) (timerQueue s) (diskCluster s) (ring s) (masterPoller s) (master s) (iPollVec s) (oPollVec s) l (lost s).
Definition set_others (t : TimerQueues.TimerQueue) (d : bool) (r : list nat) (s : scope) : scope :=
  mkScope (k s) t d r (masterPoller s) (master s) (iPollVec s) (oPollVec s) (users s) (lost s).
Definition add_lost (l : list PollerFibre) (s : scope) : scope :=
  mkScope (k s) (timerQueue s) (diskCluster s) (ring s) (masterPoller s) (master s) (iPollVec s) (oPollVec s) (users s) (lost s ++ l).

(** [new MasterPoller]: [epoll_create1], the thread, [timerfd_create]. *)
Definition new_master (s : scope) : outcome scope :=
  '(pollFD, x) <- open_fd (k s);; '(timerFD, x) <- open_fd x;;
  Fin (set_k x (set_master (pollFD, timerFD) MElsewhere s)).
(** [delete masterPoller] *)
Definition delete_master (s : scope) : scope :=
  set_k (close_fd (fst (masterPoller s)) (close_fd (snd (masterPoller s)) (k s))) s.

(** [Cluster::startPolling]: new pollers at [oPollVec] and [iPollVec], whatever
    is there. *)
Definition startPolling (s : scope) : outcome scope :=
  '(o, x) <- new_pollers (Z.to_nat (oPollCount (io (k s)))) (k s);;
  '(i, x) <- new_pollers (Z.to_nat (iPollCount (io (k s)))) x;;
  Fin (add_lost (iPollVec s ++ oPollVec s) (set_pollers (map start_poller i) (map start_poller o) (set_k x s))).
(** [EventScope::start] *)
Definition start (s : scope) : outcome scope := s <- new_master s;; startPolling s.

(** [Cluster::postFork] *)
Definition cluster_postFork (m : mpc) (s : scope) : outcome scope :=
  '(i, x) <- renew m (iPollVec s) (k s);;
  '(o, x) <- renew m (oPollVec s) x;;
  Fin (set_pollers i o (set_k x s)).

(** [EventScope::preFork]; [main]: the caller is the main fibre. *)
Definition preFork (main : bool) (s : scope) : bool :=
  main && bool_decide (TimerQueues.queue (timerQueue s) = []) && negb (diskCluster s) && (length (ring s) =? 1)%nat &&
  EventScopes.preFork (io (k s)).
(** [EventScope::postFork], in the child; the statistics start again. *)
Definition postFork (s : scope) : outcome scope :=
  let s1 := set_k (mkKernel (set_stats EventScopeStats.reset (io (k s))) (opened (k s)) (nextFibre (k s))) s in
  s2 <- new_master (delete_master s1);;
  s3 <- cluster_postFork (master s) s2;;
  startPolling s3.

(** The process that continues with the result [ret] of [fork]. *)
Definition FibreFork (ret : Z) (main : bool) (s : scope) : option (outcome scope) :=
  rassert (preFork main s);; Some (if ret =? 0 then postFork s else Fin s).

(** * Life of a scope *)
Definition vec (input : bool) (s : scope) : list PollerFibre := if input then iPollVec s else oPollVec s.
Definition set_at (input : bool) (i : nat) (p : PollerFibre) (s : scope) : scope :=
  if input then set_pollers (<[i := p]> (iPollVec s)) (oPollVec s) s else set_pollers (iPollVec s) (<[i := p]> (oPollVec s)) s.

Inductive label :=
| Poller (input : bool) (i : nat)           (* the next step of a poller fibre *)
| Notify (input : bool) (i : nat) | Master  (* the master poller starts, or goes on with, unblock *)
| Open | Close (fd : Z)
| UserP (fd : Z) (input : bool) (f : fid) | UserV (fd : Z) (input : bool) | Register (fd : Z) (input : bool) (p : BasePoller)
| Sleep (f : fid) (t : Time) | Expire (now : Time)
| AddWorker (w : nat) | AddDisk
| Fork (main : bool).                       (* goes on in the child *)

(** [pollLoopSetup] and, of [pollLoop], the sleep in [blockPollFD]; what the loop
    polls and notifies is in Pollers. *)
Definition poller_step (input : bool) (i : nat) (s : scope) : option scope :=
  p ← vec input s !! i;
  match at_ p with
  | Starting => Some (set_at input i (set_stage Looping p) s)
  | Looping =>
      if decide (master s = MLocked (pollFD p)) then None else
      let '(r, q) := internalP (pollFibre p) (BlockingQueues.Wait true) Times.zero (input_sem (pollFD p) (k s)) in
      let s := set_k (set_sem (pollFD p) true q (k s)) s in
      Some (match r with Some _ => s | None => set_at input i (set_stage Asleep p) s end)
  | Created | Asleep => None
  end.

(** The poller with fibre [f] is in a ready queue again. *)
Definition wake (f : fid) (p : PollerFibre) : PollerFibre := if decide (pollFibre p = f) then set_stage Looping p else p.

(** [V] in two steps, with the lock and after it. *)
Definition master_step (s : scope) : option scope :=
  match master s with
  | MElsewhere => None
  | MLocked fd =>
      let '(next, q) := V (self fd) true (input_sem fd (k s)) in
      Some (set_k (set_sem fd true q (k s))
              (set_master (masterPoller s) (match next with Some f => MResume f | None => MElsewhere end) s))
  | MResume f =>
      Some (set_pollers (map (wake f) (iPollVec s)) (map (wake f) (oPollVec s)) (set_master (masterPoller s) MElsewhere s))
  end.

Definition user (fd : Z) (s : scope) : option unit := rassert (bool_decide (fd ∈ users s)).

Definition step (l : label) (s : scope) : option scope :=
  match l with
  | Poller input i => poller_step input i s
  | Notify input i =>
      p ← vec input s !! i;
      match master s with MElsewhere => Some (set_master (masterPoller s) (MLocked (pollFD p)) s) | _ => None end
  | Master => master_step s
  | Open => match open_fd (k s) with Fin (fd, x) => Some (set_k x (set_users (fd :: users s) s)) | _ => None end
  | Close fd =>
      user fd s;;
      match cleanupFD fd (io (k s)) with
      | Done _ w => Some (set_k (close_fd fd (mkKernel w (opened (k s)) (nextFibre (k s))))
                            (set_users (base.filter (fun x => x <> fd) (users s)) s))
      | _ => None
      end
  | UserP fd input f =>
      user fd s;;
      Some (set_k (set_sem fd input (internalP f (BlockingQueues.Wait true) Times.zero (sync (fds (io (k s)) fd) input)).2 (k s)) s)
  | UserV fd input => user fd s;; Some (set_k (set_sem fd input (V (self fd) true (sync (fds (io (k s)) fd) input)).2 (k s)) s)
  | Register fd input p =>
      user fd s;;
      Some (set_k (mkKernel (set_fd fd (with_poller input p (fds (io (k s)) fd)) (io (k s))) (opened (k s)) (nextFibre (k s))) s)
  | Sleep f t => Some (set_others (TimerQueues.enqueue f t (timerQueue s)) (diskCluster s) (ring s) s)
  | Expire now => Some (set_others (TimerQueues.checkExpiry timerSelf now (timerQueue s)).1 (diskCluster s) (ring s) s)
  | AddWorker w => Some (set_others (timerQueue s) (diskCluster s) (ring s ++ [w]) s)
  | AddDisk => rassert (negb (diskCluster s));; Some (set_others (timerQueue s) true (ring s) s)
  | Fork main => match FibreFork 0 main s with Some (Fin s') => Some s' | _ => None end
  end.

(** A scope before [start()]: what [bootstrap] has set up. *)
Record fresh (s : scope) : Prop := mkFresh {
  fr_fds : forall fd d, counter (sync (fds (io (k s)) fd) d) = 0 /\ nodes (bq (sync (fds (io (k s)) fd) d)) = [];
  fr_poller : forall fd d, poller (fds (io (k s)) fd) d = None;
  fr_opened : opened (k s) = users s /\ NoDup (users s) /\ forall fd, fd ∈ users s -> 0 <= fd < limit;
  fr_limit : fdCount (io (k s)) = limit;              (* [initSync] *)
  fr_none : iPollVec s = [] /\ oPollVec s = [] /\ lost s = [];
  fr_one : length (ring s) = 1%nat /\ diskCluster s = false /\ TimerQueues.queue (timerQueue s) = []
}.
Definition init (s : scope) : Prop := exists s0, fresh s0 /\ start s0 = Fin s.

(** * What the kernel guarantees *)
Hypothesis unused_ok : forall l fd, unused l = Some fd -> 0 <= fd < limit /\ fd ∉ l.
Hypothesis unused_some : forall l, (exists fd, 0 <= fd < limit /\ fd ∉ l) -> is_Some (unused l).

(** The open descriptors are those of [owned]. *)
Record kernel_ok (owned : list Z) (s : kernel) : Prop := mkKernelOk {
  ko_opened : opened s ≡ₚ owned;
  ko_nodup : NoDup owned;
  ko_range : forall fd, fd ∈ owned -> 0 <= fd < limit;
  ko_count : fdCount (io s) = limit;
  ko_counter : forall fd d, 0 <= counter (sync (fds (io s) fd) d)
}.

(** Only the semaphores of the descriptors in [l] may differ. *)
Record frame (l : list Z) (s s' : kernel) : Prop := mkFrame {
  fm_fds : forall fd, fd ∉ l -> fds (io s') fd = fds (io s) fd;
  fm_poller : forall fd, poller (fds (io s') fd) = poller (fds (io s) fd);
  fm_in : iPollCount (io s') = iPollCount (io s);
  fm_out : oPollCount (io s') = oPollCount (io s);
  fm_fibre : (nextFibre s <= nextFibre s')%nat
}.

Lemma frame_refl l s : frame l s s.
Proof. by split. Qed.
Lemma frame_trans l1 l2 s1 s2 s3 : frame l1 s1 s2 -> frame l2 s2 s3 -> frame (l1 ++ l2) s1 s3.
Proof.
  intros [H1 H2 H3 H4 H5] [G1 G2 G3 G4 G5]. split; try (congruence || lia).
  intros fd Hfd. rewrite elem_of_app in Hfd. rewrite G1, H1; tauto.
Qed.

Lemma kernel_ok_perm l l' s : l ≡ₚ l' -> kernel_ok l s -> kernel_ok l' s.
Proof.
  intros Hl [H1 H2 H3 H4 H5]. split; try done; [by rewrite H1|by rewrite <- Hl|].
  intros fd Hfd. apply H3. by rewrite Hl.
Qed.

Lemma room l : NoDup l -> Z.of_nat (length l) < limit -> exists fd, 0 <= fd < limit /\ fd ∉ l.
Proof.
  intros Hn Hl. destruct (decide (Exists (fun fd => fd ∉ l) (seqZ 0 limit))) as [He|He].
  - apply Exists_exists in He as (fd & Hfd & Hin). apply elem_of_seqZ in Hfd. exists fd. split; [lia|done].
  - exfalso. assert (Hs : seqZ 0 limit ⊆+ l).
    { apply NoDup_submseteq; [apply NoDup_seqZ|]. intros fd Hfd. destruct (decide (fd ∈ l)) as [|Hf]; [done|].
      destruct He. apply Exists_exists. by exists fd. }
    apply submseteq_length in Hs. rewrite length_seqZ in Hs. lia.
Qed.

Lemma open_fin owned s fd s' : kernel_ok owned s -> open_fd s = Fin (fd, s') ->
  s' = mkKernel (io s) (fd :: opened s) (nextFibre s) /\ fd ∉ owned /\ kernel_ok (fd :: owned) s'.
Proof.
  intros [H1 H2 H3 H4 H5] Ho. unfold open_fd in Ho. destruct (unused (opened s)) as [fd'|] eqn:Hfd; [|done]. injection Ho as -> <-.
  apply unused_ok in Hfd as [Hr Hfd]. rewrite H1 in Hfd. split_and!; [done..|].
  split; cbn; try done; [by rewrite H1|by constructor|]. intros x [->|Hx]%elem_of_cons; [done|by apply H3].
Qed.

Lemma open_ok owned s : kernel_ok owned s -> Z.of_nat (length owned) < limit ->
  exists fd, open_fd s = Fin (fd, mkKernel (io s) (fd :: opened s) (nextFibre s)) /\ fd ∉ owned /\ kernel_ok (fd :: owned) (mkKernel (io s) (fd :: opened s) (nextFibre s)).
Proof.
  intros Hk Hl. destruct (unused_some (opened s)) as [fd Hfd].
  { destruct Hk as [H1 H2 _ _ _]. apply room; by rewrite H1. }
  assert (Ho : open_fd s = Fin (fd, mkKernel (io s) (fd :: opened s) (nextFibre s))) by (unfold open_fd; by rewrite Hfd).
  exists fd. split; [done|]. by apply (open_fin _ _ _ _ Hk) in Ho as (_ & ? & ?).
Qed.

Lemma close_ok fd owned s : kernel_ok (fd :: owned) s -> kernel_ok owned (close_fd fd s).
Proof.
  intros [H1 H2 H3 H4 H5]. apply NoDup_cons in H2 as [Hfd H2]. split; cbn; try done.
  - rewrite H1, filter_cons_False by (intros []; done). rewrite filter_all; [done|]. intros x Hx ->. done.
  - intros x Hx. apply H3. by right.
Qed.

Lemma new_poller_fin owned s p s' : kernel_ok owned s -> new_poller s = Fin (p, s') ->
  exists fd, p = mkPF fd (nextFibre s) Created /\ kernel_ok (fd :: owned) s' /\ nextFibre s' = S (nextFibre s) /\ io s' = io s.
Proof.
  intros Hk. unfold new_poller. destruct (open_fd s) as [[fd s1]| |] eqn:Ho; cbn [obind]; [|done..].
  apply (open_fin _ _ _ _ Hk) in Ho as (-> & _ & Hk1). intros [= <- <-]. exists fd. split_and!; try done. destruct Hk1. by split.
Qed.

Lemma new_poller_ok owned s : kernel_ok owned s -> Z.of_nat (length owned) < limit -> exists p s', new_poller s = Fin (p, s').
Proof.
  intros Hk Hl. destruct (open_ok owned s Hk Hl) as (fd & Ho & _). unfold new_poller. rewrite Ho. cbn [obind]. eauto.
Qed.

(** * Sleeping pollers *)
Definition asleep_nodes (fd : Z) (s : kernel) : list fid := nodes (bq (input_sem fd s)).
Definition parked (m : mpc) (s : kernel) (p : PollerFibre) : Prop :=
  match at_ p with
  | Created => False
  | Starting | Looping => asleep_nodes (pollFD p) s = []
  | Asleep =>
      asleep_nodes (pollFD p) s = [pollFibre p] /\ BlockingQueues.resumes (bq (input_sem (pollFD p) s)) (pollFibre p) = nullptr /\
        m <> MResume (pollFibre p) \/
      asleep_nodes (pollFD p) s = [] /\ m = MResume (pollFibre p)
  end.
(** The master poller stands where the child can no longer wake the poller. *)
Definition left_behind (m : mpc) (p : PollerFibre) : Prop :=
  m = MLocked (pollFD p) \/ at_ p = Asleep /\ m = MResume (pollFibre p).
#[export] Instance stage_dec : EqDecision stage.
Proof. solve_decision. Defined.
#[export] Instance left_dec m p : Decision (left_behind m p).
Proof. unfold left_behind. apply _. Defined.

Lemma V_nodes s fd : nodes (bq s) = [] ->
  exists c, V (self fd) true s = (None, mkSem c (bq s)) /\ c = 1.
Proof. intros Hn. unfold V, unblock. destruct s as [c [l r]]. cbn in *. subst l. cbn. eauto. Qed.
Lemma V_one s fd f : nodes (bq s) = [f] -> BlockingQueues.resumes (bq s) f = nullptr ->
  V (self fd) true s = (Some f, mkSem (counter s) (mkBQ [] (upd (BlockingQueues.resumes (bq s)) f (self fd)))).
Proof. intros Hn Hr. unfold V, unblock. destruct s as [c [l r]]. cbn in *. subst l. cbn. by rewrite Hr. Qed.

Lemma set_sem_fds fd x q s fd' : fds (io (set_sem fd x q s)) fd' =
  if decide (fd' = fd) then let t := fds (io s) fd in mkSyncFD (upd (sync t) x q) (poller t) (blocking t) (useUring t)
  else fds (io s) fd'.
Proof. cbn. destruct (decide (fd' = fd)) as [->|Hne]; [by rewrite upd_eq|by rewrite upd_ne]. Qed.

Lemma set_sem_frame fd q s : frame [fd] s (set_sem fd true q s).
Proof.
  split; try done.
  - intros x Hx. rewrite set_sem_fds, decide_False; [done|]. intros ->. apply Hx. by left.
  - intros x. rewrite set_sem_fds. by destruct (decide (x = fd)) as [->|Hne].
Qed.
Lemma input_set fd q s : input_sem fd (set_sem fd true q s) = q.
Proof. unfold input_sem. rewrite set_sem_fds, decide_True by done. cbn [sync]. by rewrite upd_eq. Qed.
Lemma set_sem_ok owned fd x q s : 0 <= counter q -> kernel_ok owned s -> kernel_ok owned (set_sem fd x q s).
Proof.
  intros Hq [H1 H2 H3 H4 H5]. split; try done. intros fd' d. rewrite set_sem_fds. destruct (decide (fd' = fd)) as [->|Hne]; [|done].
  cbn [sync]. destruct (decide (d = x)) as [->|Hne]; [by rewrite upd_eq|by rewrite upd_ne].
Qed.
Lemma close_frame l fd s s' : frame l s s' -> frame l s (close_fd fd s').
Proof. intros [H1 H2 H3 H4 H5]. by split. Qed.

Lemma destroy_ok m p owned s : kernel_ok (pollFD p :: owned) s -> parked m s p ->
  if decide (left_behind m p) then destroy_poller m p s = Stuck
  else exists s', destroy_poller m p s = Fin s' /\ kernel_ok owned s' /\ frame [pollFD p] s s' /\ asleep_nodes (pollFD p) s' = [] /\
         nextFibre s' = nextFibre s.
Proof.
  intros Hk Hp. unfold destroy_poller.
  assert (Hr : (0 <=? pollFD p) && (pollFD p <? fdCount (io s)) = true).
  { destruct Hk as [_ _ Hr -> _]. specialize (Hr (pollFD p) ltac:(by left)). apply andb_true_iff. rewrite Z.leb_le, Z.ltb_lt. done. }
  rewrite Hr. cbn [negb]. destruct (decide (m = MLocked (pollFD p))) as [Hm|Hm].
  { rewrite decide_True by (by left). done. }
  assert (Hfin : forall q, 0 <= counter q -> nodes (bq q) = [] ->
    exists s', Fin (close_fd (pollFD p) (set_sem (pollFD p) true q s)) = Fin s' /\ kernel_ok owned s' /\ frame [pollFD p] s s' /\
      asleep_nodes (pollFD p) s' = [] /\ nextFibre s' = nextFibre s).
  { intros q Hc Hq. eexists. split_and!; [reflexivity|by apply close_ok, set_sem_ok|apply close_frame, set_sem_frame| |done].
    unfold asleep_nodes. change (nodes (bq (input_sem (pollFD p) (set_sem (pollFD p) true q s))) = []). by rewrite input_set. }
  pose proof (ko_counter _ _ Hk (pollFD p) true) as Hc. unfold parked, asleep_nodes in Hp. destruct (at_ p) eqn:Ha; [done| | |].
  1, 2: rewrite decide_False by (intros [?|[? _]]; congruence); destruct (V_nodes _ (pollFD p) Hp) as (c & -> & ->); by apply Hfin.
  destruct Hp as [(Hn & Hr' & Hm')|[Hn Hm']].
  - rewrite (V_one _ _ _ Hn Hr'). rewrite decide_False by (intros [?|[_ ?]]; congruence).
    rewrite decide_True by done. by apply Hfin.
  - destruct (V_nodes _ (pollFD p) Hn) as (c & -> & ->). rewrite decide_True by (by right). by rewrite decide_False.
Qed.

Lemma kernel_room owned s : kernel_ok owned s -> Z.of_nat (length owned) <= limit \/ limit < 0.
Proof.
  intros [_ Hn Hr _ _]. destruct (Z.le_gt_cases 0 limit); [left|by right].
  assert (Hs : owned ⊆+ seqZ 0 limit).
  { apply NoDup_submseteq; [done|]. intros fd Hfd. apply elem_of_seqZ. specialize (Hr fd Hfd). lia. }
  apply submseteq_length in Hs. rewrite length_seqZ in Hs. lia.
Qed.
Lemma kernel_space fd owned s : kernel_ok (fd :: owned) s -> Z.of_nat (length owned) < limit.
Proof.
  intros Hk. destruct (kernel_room _ _ Hk) as [Hl|Hl]; [cbn [length] in Hl; lia|].
  pose proof (ko_range _ _ Hk fd ltac:(by left)). lia.
Qed.

(** Freshly made pollers. *)
Record made (n : nat) (l : list PollerFibre) (s s' : kernel) : Prop := mkMade {
  md_length : length l = n;
  md_fibre : nextFibre s' = (nextFibre s + n)%nat;
  md_fibres : map pollFibre l = List.seq (nextFibre s) n;
  md_created : forall p, p ∈ l -> at_ p = Created
}.

Lemma made_cons n fd l s s1 s2 : nextFibre s1 = S (nextFibre s) -> made n l s1 s2 ->
  made (S n) (mkPF fd (nextFibre s) Created :: l) s s2.
Proof.
  intros H1 [H2 H3 H4 H5]. split; cbn; [by rewrite H2|lia|by rewrite H4, H1|]. by intros p [->|Hp]%elem_of_cons; [|apply H5].
Qed.

Lemma new_pollers_fin n owned s l s' : kernel_ok owned s -> new_pollers n s = Fin (l, s') ->
  kernel_ok (map pollFD l ++ owned) s' /\ io s' = io s /\ made n l s s'.
Proof.
  revert s owned l. induction n as [|n IH]; intros s owned l Hk; cbn [new_pollers].
  - intros [= <- <-]. split_and!; try done. split; cbn; try (done || lia). intros p Hp. by apply elem_of_nil in Hp.
  - destruct (new_poller s) as [[p s1]| |] eqn:Hn; cbn [obind]; [|done..].
    destruct (new_poller_fin _ _ _ _ Hk Hn) as (fd & -> & Hk1 & Hf1 & Hio1).
    destruct (new_pollers n s1) as [[l' s2]| |] eqn:Hns; cbn [obind]; [|done..]. intros [= <- <-].
    destruct (IH _ _ _ Hk1 Hns) as (Hk2 & Hio2 & Hm). split_and!; [|congruence|by apply (made_cons n fd l' s s1)].
    cbn. eapply kernel_ok_perm, Hk2. by rewrite <- Permutation_middle.
Qed.

Lemma new_pollers_ok n owned s : kernel_ok owned s -> Z.of_nat (length owned + n) <= limit ->
  exists l s', new_pollers n s = Fin (l, s').
Proof.
  revert s owned. induction n as [|n IH]; intros s owned Hk Hl; cbn [new_pollers]; [eauto|].
  destruct (new_poller_ok owned s Hk) as (p & s1 & Hn); [lia|]. rewrite Hn. cbn [obind].
  destruct (new_poller_fin _ _ _ _ Hk Hn) as (fd & _ & Hk1 & _).
  destruct (IH s1 _ Hk1) as (l & s2 & ->); [cbn [length]; lia|]. cbn [obind]. eauto.
Qed.

Lemma parked_frame m X s s' p : frame X s s' -> pollFD p ∉ X -> parked m s p -> parked m s' p.
Proof. intros [Hf _ _ _ _] Hp. unfold parked, asleep_nodes, input_sem. by rewrite Hf. Qed.
Lemma parked_io m s s' p : io s' = io s -> parked m s p -> parked m s' p.
Proof. unfold parked, asleep_nodes, input_sem. by intros ->. Qed.

Lemma frame_io X s s1 s2 : io s2 = io s1 -> (nextFibre s1 <= nextFibre s2)%nat -> frame X s s1 -> frame X s s2.
Proof. intros Hi Hn [H1 H2 H3 H4 H5]. split; rewrite ?Hi; try done. lia. Qed.

Lemma renew_ok m l owned s : kernel_ok (map pollFD l ++ owned) s -> (forall p, p ∈ l -> parked m s p) ->
  if decide (Exists (left_behind m) l) then renew m l s = Stuck
  else exists l' s', renew m l s = Fin (l', s') /\ kernel_ok (map pollFD l' ++ owned) s' /\ frame (map pollFD l) s s' /\
    (forall fd, fd ∈ map pollFD l -> asleep_nodes fd s' = []) /\ made (length l) l' s s'.
Proof.
  revert s owned. induction l as [|p l IH]; intros s owned Hk Hp; cbn [renew].
  { rewrite decide_False by (by intros ?%Exists_nil). exists [], s. split_and!; [done|done|apply frame_refl| |].
    - intros fd Hfd. by apply elem_of_nil in Hfd.
    - split; cbn; try (done || lia). intros p Hp'. by apply elem_of_nil in Hp'. }
  cbn in Hk. pose proof (destroy_ok m p _ s Hk (Hp p ltac:(by left))) as Hd.
  destruct (decide (left_behind m p)) as [Hlb|Hlb].
  { rewrite Hd. cbn. rewrite decide_True; [done|]. by apply Exists_cons_hd. }
  destruct Hd as (s1 & -> & Hk1 & Hf1 & Hn1 & Hnf1). cbn [obind].
  destruct (new_poller_ok _ s1 Hk1) as (p2 & s2 & Hnp); [by eapply kernel_space|].
  destruct (new_poller_fin _ _ _ _ Hk1 Hnp) as (fd & -> & Hk2 & Hf2 & Hio2). rewrite Hnp. cbn [obind].
  assert (Hnd : pollFD p ∉ map pollFD l).
  { pose proof (ko_nodup _ _ Hk) as Hn. apply NoDup_cons in Hn as [Hn _]. rewrite elem_of_app in Hn. tauto. }
  assert (Hpk : forall p', p' ∈ l -> parked m s2 p').
  { intros p' Hp'. apply (parked_io m s1); [done|]. eapply parked_frame; [exact Hf1| |apply Hp; by right].
    intros Hin%list_elem_of_singleton. apply Hnd. rewrite <- Hin. by apply list_elem_of_fmap_2. }
  assert (Hk2' : kernel_ok (map pollFD l ++ fd :: owned) s2) by (eapply kernel_ok_perm, Hk2; by rewrite <- Permutation_middle).
  specialize (IH s2 (fd :: owned) Hk2' Hpk).
  destruct (decide (Exists (left_behind m) l)) as [He|He].
  { rewrite IH. cbn. rewrite decide_True; [done|]. by apply Exists_cons_tl. }
  rewrite decide_False by (intros [?|?]%Exists_cons; done).
  destruct IH as (l' & s3 & -> & Hk3 & Hf3 & Hn3 & Hm3). cbn [obind]. eexists _, s3. split_and!; [reflexivity| | | |].
  - cbn. eapply kernel_ok_perm, Hk3. by rewrite <- Permutation_middle.
  - change (map pollFD (p :: l)) with ([pollFD p] ++ map pollFD l). eapply frame_trans, Hf3. apply (frame_io _ s s1); [done|lia|done].
  - intros fd' [->|Hfd]%elem_of_cons; [|by apply Hn3]. unfold asleep_nodes, input_sem in *.
    by rewrite (fm_fds _ _ _ Hf3), Hio2.
  - cbn [length]. rewrite Hnf1. eapply made_cons, Hm3. congruence.
Qed.

(** * The invariant *)
Definition pollers (s : scope) : list PollerFibre := iPollVec s ++ oPollVec s.
(** The descriptors of the runtime. *)
Definition runtime (s : scope) : list Z := [fst (masterPoller s); snd (masterPoller s)] ++ map pollFD (pollers s ++ lost s).

Record inv (s : scope) : Prop := mkInv {
  iv_kernel : kernel_ok (runtime s ++ users s) (k s);
  iv_fibres : NoDup (map pollFibre (pollers s));
  iv_below : forall p, p ∈ pollers s -> (pollFibre p < nextFibre (k s))%nat;
  iv_parked : forall p, p ∈ pollers s -> parked (master s) (k s) p;
  iv_slots : forall fd, fd ∉ users s -> fd ∉ map pollFD (pollers s) -> asleep_nodes fd (k s) = [];
  iv_master : match master s with
              | MElsewhere => True
              | MLocked fd => exists p, p ∈ pollers s /\ pollFD p = fd
              | MResume f => exists p, p ∈ pollers s /\ pollFibre p = f /\ at_ p = Asleep
              end;
  iv_lost : forall p, p ∈ lost s -> at_ p = Created;
  iv_count : length (iPollVec s) = Z.to_nat (iPollCount (io (k s))) /\ length (oPollVec s) = Z.to_nat (oPollCount (io (k s)))
}.

Lemma map_start_fd l : map pollFD (map start_poller l) = map pollFD l.
Proof. by rewrite map_map. Qed.
Lemma map_start_fibre l : map pollFibre (map start_poller l) = map pollFibre l.
Proof. by rewrite map_map. Qed.
Lemma started l p : p ∈ map start_poller l -> at_ p = Starting /\ pollFD p ∈ map pollFD l /\ pollFibre p ∈ map pollFibre l.
Proof. intros (q & -> & Hq)%list_elem_of_fmap. split_and!; [done|by apply (list_elem_of_fmap_2 pollFD) in Hq|by apply (list_elem_of_fmap_2 pollFibre) in Hq]. Qed.

(** What [startPolling] does to a scope without sleeping pollers. *)
Lemma startPolling_fin s n s' : kernel_ok (runtime s ++ users s) (k s) ->
  (forall fd, fd ∉ users s -> asleep_nodes fd (k s) = []) -> master s = MElsewhere ->
  (forall p, p ∈ pollers s ++ lost s -> at_ p = Created) ->
  n = (Z.to_nat (oPollCount (io (k s))) + Z.to_nat (iPollCount (io (k s))))%nat ->
  startPolling s = Fin s' ->
  inv s' /\ lost s' = lost s ++ pollers s /\ (forall p, p ∈ pollers s' -> at_ p = Starting) /\
    users s' = users s /\ io (k s') = io (k s) /\ master s' = MElsewhere /\ length (pollers s') = n /\
    timerQueue s' = timerQueue s /\ diskCluster s' = diskCluster s /\ ring s' = ring s.
Proof.
  intros Hk Hs Hm Hc Hn. unfold startPolling.
  destruct (new_pollers _ (k s)) as [[o x1]| |] eqn:Ho'; cbn [obind]; [|done..].
  destruct (new_pollers_fin _ _ _ _ _ Hk Ho') as (Hk1 & Hio1 & Ho).
  destruct (new_pollers _ x1) as [[i x2]| |] eqn:Hi'; cbn [obind]; [|done..].
  destruct (new_pollers_fin _ _ _ _ _ Hk1 Hi') as (Hk2 & Hio2 & Hi). intros [= <-].
  assert (Hio : io x2 = io (k s)) by congruence.
  assert (Hfib : map pollFibre (i ++ o) ≡ₚ List.seq (nextFibre (k s)) n).
  { rewrite map_app, (md_fibres _ _ _ _ Ho), (md_fibres _ _ _ _ Hi), (md_fibre _ _ _ _ Ho), Hn, seq_app. apply Permutation_app_comm. }
  assert (Hnd := ko_nodup _ _ Hk2). rewrite app_assoc in Hnd. apply NoDup_app in Hnd as (_ & Hdis & _).
  assert (Hnew : forall fd, fd ∈ map pollFD i ++ map pollFD o -> fd ∉ users s).
  { intros fd Hfd Hu. apply (Hdis fd Hfd). rewrite elem_of_app. by right. }
  assert (Hst : forall p, p ∈ map start_poller i ++ map start_poller o ->
    at_ p = Starting /\ pollFD p ∉ users s /\ pollFibre p ∈ map pollFibre (i ++ o)).
  { intros p [Hp|Hp]%elem_of_app; destruct (started _ _ Hp) as (H1 & H2 & H3); (split; [done|]); rewrite map_app, elem_of_app.
    all: split; [apply Hnew; rewrite elem_of_app; first [by left|by right]|first [by left|by right]]. }
  split; [split|].
  - eapply kernel_ok_perm, Hk2. unfold runtime, pollers. cbn [iPollVec oPollVec lost masterPoller users set_k set_pollers add_lost k].
    rewrite !map_app, !map_start_fd.
    solve_Permutation.
  - unfold pollers. cbn. rewrite <- map_app, map_start_fibre, Hfib. apply NoDup_ListNoDup, seq_NoDup.
  - intros p Hp. cbn. destruct (Hst p Hp) as (_ & _ & Hf). rewrite Hfib in Hf. apply list_elem_of_In, in_seq in Hf.
    rewrite (md_fibre _ _ _ _ Hi), (md_fibre _ _ _ _ Ho). lia.
  - intros p Hp. destruct (Hst p Hp) as (Ha & Hu & _). unfold parked. rewrite Ha. cbn. unfold asleep_nodes, input_sem. rewrite Hio. by apply Hs.
  - intros fd Hu _. cbn in *. unfold asleep_nodes, input_sem. rewrite Hio. by apply Hs.
  - cbn. by rewrite Hm.
  - cbn. intros p Hp. apply Hc. rewrite !elem_of_app in *. unfold pollers in *. rewrite elem_of_app. tauto.
  - cbn. by rewrite Hio, !length_map, (md_length _ _ _ _ Ho), (md_length _ _ _ _ Hi).
  - split_and!; try done; [by intros p Hp; apply Hst|].
    unfold pollers. cbn. rewrite length_app, !length_map, (md_length _ _ _ _ Ho), (md_length _ _ _ _ Hi). lia.
Qed.

Lemma startPolling_ok s : kernel_ok (runtime s ++ users s) (k s) ->
  Z.of_nat (length (opened (k s)) + (Z.to_nat (oPollCount (io (k s))) + Z.to_nat (iPollCount (io (k s))))) <= limit ->
  exists s', startPolling s = Fin s'.
Proof.
  intros Hk Hl. unfold startPolling. rewrite (ko_opened _ _ Hk) in Hl.
  destruct (new_pollers_ok (Z.to_nat (oPollCount (io (k s)))) _ _ Hk) as (o & x1 & Ho); [lia|]. rewrite Ho. cbn [obind].
  destruct (new_pollers_fin _ _ _ _ _ Hk Ho) as (Hk1 & _ & Hm).
  destruct (new_pollers_ok (Z.to_nat (iPollCount (io (k s)))) _ _ Hk1) as (i & x2 & ->); [|cbn [obind]; eauto].
  rewrite length_app, length_map, (md_length _ _ _ _ Hm). lia.
Qed.

(** [delete masterPoller] and a new one: as many descriptors as before. *)
Lemma renew_master_ok s : kernel_ok (runtime s ++ users s) (k s) ->
  exists p x, new_master (delete_master s) = Fin (set_k x (set_master p MElsewhere s)) /\
    kernel_ok (runtime (set_master p MElsewhere s) ++ users s) x /\ io x = io (k s) /\ nextFibre x = nextFibre (k s).
Proof.
  intros Hk. destruct s as [kk tq dk rg [a b] mm iv ov us ls]. cbn in Hk.
  set (l := map pollFD ((iv ++ ov) ++ ls) ++ us) in Hk.
  assert (Hl : kernel_ok (b :: a :: l) kk) by (eapply kernel_ok_perm, Hk; apply Permutation_swap).
  pose proof (close_ok _ _ _ (close_ok _ _ _ Hl)) as Hc.
  assert (Hr : Z.of_nat (length l) + 1 < limit) by (apply kernel_space in Hl; cbn [length] in Hl; lia).
  destruct (open_ok _ _ Hc) as (a' & Ho1 & _ & Hk1); [lia|].
  destruct (open_ok _ _ Hk1) as (b' & Ho2 & _ & Hk2); [cbn [length]; lia|].
  exists (a', b'). eexists. split_and!.
  - unfold new_master, delete_master. cbn [k set_k masterPoller fst snd]. rewrite Ho1. cbn [obind]. rewrite Ho2. reflexivity.
  - eapply kernel_ok_perm, Hk2. apply Permutation_swap.
  - done.
  - done.
Qed.

Lemma cluster_postFork_ok s m : kernel_ok (runtime s ++ users s) (k s) -> (forall p, p ∈ pollers s -> parked m (k s) p) ->
  if decide (Exists (left_behind m) (pollers s)) then cluster_postFork m s = Stuck
  else exists i o x, cluster_postFork m s = Fin (set_pollers i o (set_k x s)) /\
    kernel_ok (runtime (set_pollers i o s) ++ users s) x /\ frame (map pollFD (pollers s)) (k s) x /\
    (forall fd, fd ∈ map pollFD (pollers s) -> asleep_nodes fd x = []) /\
    length i = length (iPollVec s) /\ length o = length (oPollVec s) /\ (forall p, p ∈ i ++ o -> at_ p = Created).
Proof.
  intros Hk Hp. unfold cluster_postFork.
  set (rest := [fst (masterPoller s); snd (masterPoller s)] ++ map pollFD (lost s) ++ users s).
  assert (Hk1 : kernel_ok (map pollFD (iPollVec s) ++ map pollFD (oPollVec s) ++ rest) (k s)).
  { eapply kernel_ok_perm, Hk. unfold runtime, rest, pollers. rewrite !map_app. solve_Permutation. }
  assert (Hdis : forall fd, fd ∈ map pollFD (iPollVec s) -> fd ∉ map pollFD (oPollVec s)).
  { pose proof (ko_nodup _ _ Hk1) as Hn. apply NoDup_app in Hn as (_ & Hn & _). intros fd Hfd Ho. apply (Hn fd Hfd). rewrite elem_of_app. by left. }
  unfold pollers in *. assert (Hpi : forall p, p ∈ iPollVec s -> parked m (k s) p) by (intros p Hi; apply Hp, elem_of_app; by left).
  pose proof (renew_ok m _ _ _ Hk1 Hpi) as Hi.
  destruct (decide (Exists (left_behind m) (iPollVec s))) as [He|He].
  { rewrite Hi, decide_True; [done|]. apply Exists_app. by left. }
  destruct Hi as (i & x1 & -> & Hki & Hfi & Hni & Hmi). cbn [obind].
  assert (Hk2 : kernel_ok (map pollFD (oPollVec s) ++ map pollFD i ++ rest) x1).
  { eapply kernel_ok_perm, Hki. solve_Permutation. }
  assert (Hpo : forall p, p ∈ oPollVec s -> parked m x1 p).
  { intros p Ho. eapply parked_frame; [exact Hfi| |apply Hp, elem_of_app; by right].
    intros Hin. apply (Hdis _ Hin). by apply (list_elem_of_fmap_2 pollFD). }
  pose proof (renew_ok m _ _ _ Hk2 Hpo) as Ho.
  destruct (decide (Exists (left_behind m) (oPollVec s))) as [He'|He'].
  { rewrite Ho, decide_True; [done|]. apply Exists_app. by right. }
  rewrite decide_False by (intros [?|?]%Exists_app; done).
  destruct Ho as (o & x2 & -> & Hko & Hfo & Hno & Hmo). cbn [obind]. exists i, o, x2. split_and!; [reflexivity| | | | | |].
  - eapply kernel_ok_perm, Hko. unfold runtime, rest, pollers. cbn [iPollVec oPollVec lost masterPoller users set_pollers].
    rewrite !map_app. solve_Permutation.
  - rewrite map_app. by eapply frame_trans.
  - intros fd. rewrite map_app, elem_of_app. intros [Hfd|Hfd]; [|by apply Hno].
    unfold asleep_nodes, input_sem. rewrite (fm_fds _ _ _ Hfo) by (by apply Hdis). by apply Hni.
  - apply Hmi.
  - apply Hmo.
  - intros p [Hp'|Hp']%elem_of_app; [by apply Hmi|by apply Hmo].
Qed.

(** What the child of [fork] is like: all pollers and the master poller are new
    and open, and the pollers that [postFork] has made are lost: overwritten by
    those of [startPolling], with their descriptors open.  The application's
    descriptors are as they were. *)
Record child (s s' : scope) : Prop := mkChild {
  ch_users : users s' = users s /\ forall fd, fd ∈ users s -> fds (io (k s')) fd = fds (io (k s)) fd;
  ch_started : forall p, p ∈ pollers s' -> at_ p = Starting /\ pollFD p ∈ opened (k s') /\ asleep_nodes (pollFD p) (k s') = [];
  ch_count : length (pollers s') = length (pollers s);
  ch_master : master s' = MElsewhere /\ fst (masterPoller s') ∈ opened (k s') /\ snd (masterPoller s') ∈ opened (k s');
  ch_lost : exists l, lost s' = lost s ++ l /\ length l = length (pollers s) /\
              forall p, p ∈ l -> at_ p = Created /\ pollFD p ∈ opened (k s');
  ch_opened : length (opened (k s')) = (length (opened (k s)) + length (pollers s))%nat /\ NoDup (opened (k s'))
}.

Lemma left_master s : inv s -> Exists (left_behind (master s)) (pollers s) <-> master s <> MElsewhere.
Proof.
  intros Hi. pose proof (iv_master s Hi) as Hm. rewrite Exists_exists. split.
  - intros (p & _ & [->|[_ ->]]); done.
  - intros Hne. destruct (master s) as [|fd|f] eqn:E; [done| |].
    + destruct Hm as (p & Hp & <-). exists p. split; [done|by left].
    + destruct Hm as (p & Hp & <- & Ha). exists p. split; [done|by right].
Qed.

Lemma inv_child s s' x : inv s -> inv s' -> lost s' = lost s ++ x -> length x = length (pollers s) ->
  length (pollers s') = length (pollers s) -> users s' = users s ->
  (forall p, p ∈ pollers s' -> at_ p = Starting) -> master s' = MElsewhere ->
  (forall fd, fd ∈ users s -> fds (io (k s')) fd = fds (io (k s)) fd) -> child s s'.
Proof.
  intros Hi Hi' Hl Hx Hp Hu Hs Hm Hf. pose proof (iv_kernel s Hi) as Hk. pose proof (iv_kernel s' Hi') as Hk'.
  assert (Hrun : forall fd, fd ∈ runtime s' -> fd ∈ opened (k s')).
  { intros fd Hfd. rewrite (ko_opened _ _ Hk'), elem_of_app. by left. }
  assert (Hfd : forall p, p ∈ pollers s' ++ lost s' -> pollFD p ∈ opened (k s')).
  { intros p Hpp. apply Hrun. unfold runtime. rewrite elem_of_app. right. by apply (list_elem_of_fmap_2 pollFD). }
  split; try done.
  - intros p Hpp. pose proof (iv_parked s' Hi' p Hpp) as Hpk. unfold parked in Hpk. rewrite (Hs p Hpp) in Hpk.
    split_and!; [by apply Hs|apply Hfd, elem_of_app; by left|done].
  - split_and!; [done|apply Hrun; by left|apply Hrun; right; by left].
  - exists x. split_and!; [done..|]. intros p Hpx. assert (p ∈ lost s') by (rewrite Hl, elem_of_app; by right).
    split; [by apply (iv_lost s' Hi')|]. apply Hfd, elem_of_app. by right.
  - rewrite (ko_opened _ _ Hk), (ko_opened _ _ Hk'). split; [|by apply (ko_nodup _ _ Hk')].
    unfold runtime. rewrite !length_app, !length_map, !length_app, Hl, Hu, length_app. cbn [length]. lia.
Qed.

Lemma postFork_ok s : inv s ->
  if decide (master s = MElsewhere) then
    (Z.of_nat (length (opened (k s)) + length (pollers s)) <= limit -> exists s', postFork s = Fin s') /\
    forall s', postFork s = Fin s' -> inv s' /\ child s s'
  else postFork s = Stuck.
Proof.
  intros Hi. unfold postFork. set (s1 := set_k _ s).
  pose proof (iv_kernel s Hi) as Hk. pose proof (ko_opened _ _ Hk) as Hop.
  assert (Hk1 : kernel_ok (runtime s1 ++ users s1) (k s1)) by (destruct Hk; by split).
  destruct (renew_master_ok s1 Hk1) as (mp & x & -> & Hk2 & Hio2 & Hnf2). cbn [obind].
  set (s2 := set_k x (set_master mp MElsewhere s1)).
  assert (Hp2 : forall p, p ∈ pollers s2 -> parked (master s) (k s2) p).
  { intros p Hp. apply (parked_io _ (k s1)); [done|]. by apply (iv_parked s Hi) in Hp. }
  pose proof (cluster_postFork_ok s2 (master s) Hk2 Hp2) as Hc. change (pollers s2) with (pollers s) in Hc.
  pose proof (left_master s Hi) as Hl.
  destruct (decide (Exists (left_behind (master s)) (pollers s))) as [He|He].
  { rewrite decide_False by tauto. by rewrite Hc. }
  rewrite decide_True by (destruct (decide (master s = MElsewhere)); tauto).
  destruct Hc as (i & o & y & -> & Hk3 & Hf3 & Hn3 & Hli & Hlo & Hcr). cbn [obind].
  set (s3 := set_pollers i o (set_k y s2)).
  assert (Hslots : forall fd, fd ∉ users s -> asleep_nodes fd y = []).
  { intros fd Hu. destruct (decide (fd ∈ map pollFD (pollers s))) as [Hin|Hin]; [by apply Hn3|].
    unfold asleep_nodes, input_sem. rewrite (fm_fds _ _ _ Hf3 fd Hin). cbn [k s2 set_k]. rewrite Hio2. by apply (iv_slots s Hi). }
  assert (Hcount : Z.to_nat (iPollCount (io y)) = length (iPollVec s) /\ Z.to_nat (oPollCount (io y)) = length (oPollVec s)).
  { destruct (iv_count s Hi) as [-> ->]. rewrite (fm_in _ _ _ Hf3), (fm_out _ _ _ Hf3). cbn [k s2 set_k]. by rewrite Hio2. }
  split.
  - intros Hroom. apply startPolling_ok; [exact Hk3|]. cbn [k s3 set_pollers set_k]. destruct Hcount as [-> ->].
    rewrite Hop in Hroom. rewrite (ko_opened _ _ Hk3). etrans; [|exact Hroom]. apply inj_le.
    unfold runtime, pollers. rewrite !length_app, !length_map, !length_app. cbn in *. lia.
  - intros s' Hs. destruct (startPolling_fin s3 (length (pollers s)) s') as (Hi' & Hlost & Hst & Hus & Hio & Hm & Hlen & _); try done.
    + intros p. rewrite elem_of_app. intros [Hp|Hp]; [by apply Hcr|by apply (iv_lost s Hi)].
    + cbn [k s3 set_pollers set_k]. destruct Hcount as [-> ->]. unfold pollers. rewrite length_app. lia.
    + split; [done|]. eapply inv_child; try done.
      * unfold pollers. cbn. rewrite !length_app. cbn in Hli, Hlo. lia.
      * intros fd Hfd. rewrite Hio. cbn [k s3 set_pollers set_k]. rewrite (fm_fds _ _ _ Hf3); [cbn [k s2 set_k]; by rewrite Hio2|].
        intros Hin. pose proof (ko_nodup _ _ Hk) as Hn. apply NoDup_app in Hn as (_ & Hn & _). apply (Hn fd); [|done].
        unfold runtime. rewrite map_app, !elem_of_app. tauto.
Qed.

Lemma fork_init_inv s : init s -> inv s.
Proof.
  intros (s0 & [Hfd Hpo (Ho1 & Ho2 & Ho3) Hlim (Hi & Ho & Hlo) _] & Hst). unfold start in Hst.
  assert (Hk : kernel_ok (users s0) (k s0)) by (split; [by rewrite Ho1|done|done|done|]; intros fd d; by destruct (Hfd fd d) as [-> _]).
  destruct (new_master s0) as [s1| |] eqn:Hm; cbn [obind] in Hst; [|done..]. unfold new_master in Hm.
  destruct (open_fd (k s0)) as [[a x]| |] eqn:Hoa; cbn [obind] in Hm; [|done..]. destruct (open_fin _ _ _ _ Hk Hoa) as (-> & _ & Hka).
  destruct (open_fd _) as [[b y]| |] eqn:Hob in Hm; cbn [obind] in Hm; [|done..]. destruct (open_fin _ _ _ _ Hka Hob) as (-> & _ & Hkb).
  injection Hm as <-. eapply startPolling_fin, Hst; try done.
  - cbn in *. unfold runtime, pollers. cbn. rewrite Hi, Ho, Hlo. cbn. eapply kernel_ok_perm, Hkb. apply Permutation_swap.
  - intros fd _. unfold asleep_nodes, input_sem. cbn. by destruct (Hfd fd true) as [_ ->].
  - cbn. unfold pollers. rewrite Hi, Ho, Hlo. intros p Hp. by apply elem_of_nil in Hp.
Qed.

(** A step that opens and closes nothing. *)
Record same_shape (s s' : scope) : Prop := mkShape {
  sh_users : users s' = users s /\ lost s' = lost s /\ masterPoller s' = masterPoller s;
  sh_fd : map pollFD (pollers s') = map pollFD (pollers s);
  sh_fibre : map pollFibre (pollers s') = map pollFibre (pollers s);
  sh_length : length (iPollVec s') = length (iPollVec s) /\ length (oPollVec s') = length (oPollVec s);
  sh_kernel : opened (k s') = opened (k s) /\ nextFibre (k s') = nextFibre (k s);
  sh_count : fdCount (io (k s')) = fdCount (io (k s)) /\ iPollCount (io (k s')) = iPollCount (io (k s)) /\ oPollCount (io (k s')) = oPollCount (io (k s));
  sh_counter : forall fd d, 0 <= counter (sync (fds (io (k s')) fd) d);
  sh_fds : forall fd, fd ∉ users s -> fd ∉ map pollFD (pollers s) -> fds (io (k s')) fd = fds (io (k s)) fd
}.

Definition master_ok (s : scope) : Prop :=
  match master s with
  | MElsewhere => True
  | MLocked fd => exists p, p ∈ pollers s /\ pollFD p = fd
  | MResume f => exists p, p ∈ pollers s /\ pollFibre p = f /\ at_ p = Asleep
  end.

Lemma inv_shape s s' : inv s -> same_shape s s' -> (forall p, p ∈ pollers s' -> parked (master s') (k s') p) -> master_ok s' -> inv s'.
Proof.
  intros Hi [(Hu & Hlo & Hmp) Hfd Hfib Hlen (Ho & Hn) (Hc1 & Hc2 & Hc3) Hct Hf] Hp Hm.
  assert (Hrun : runtime s' = runtime s) by (unfold runtime; by rewrite Hmp, !map_app, Hfd, Hlo).
  destruct Hi as [[H1 H2 H3 H4 H5] Hi2 Hi3 Hi4 Hi5 Hi6 Hi7 Hi8]. split; try done.
  - rewrite Hrun, Hu. split; try done; [by rewrite Ho|by rewrite Hc1].
  - by rewrite Hfib.
  - intros p Hin%(list_elem_of_fmap_2 pollFibre). change (pollFibre <$> pollers s') with (map pollFibre (pollers s')) in Hin.
    rewrite Hfib in Hin. apply list_elem_of_fmap in Hin as (q & -> & Hq). rewrite Hn. by apply Hi3.
  - intros fd Hfu Hfp. rewrite Hu in Hfu. rewrite Hfd in Hfp. unfold asleep_nodes, input_sem. rewrite Hf by done. by apply Hi5.
  - by rewrite Hlo.
  - destruct Hlen as [-> ->]. by rewrite Hc2, Hc3.
Qed.

Lemma user_apart s fd : inv s -> fd ∈ users s -> fd ∉ map pollFD (pollers s) /\ fd ∉ runtime s.
Proof.
  intros Hi Hu. pose proof (ko_nodup _ _ (iv_kernel s Hi)) as Hn. apply NoDup_app in Hn as (_ & Hn & _).
  assert (Hr : fd ∉ runtime s) by (intros Hin; by apply (Hn fd)). split; [|done].
  intros Hin. apply Hr. unfold runtime. rewrite map_app, !elem_of_app. tauto.
Qed.

Lemma pollers_nodup s : inv s -> NoDup (map pollFD (pollers s)).
Proof.
  intros Hi. pose proof (ko_nodup _ _ (iv_kernel s Hi)) as Hn. apply NoDup_app in Hn as (Hn & _ & _). unfold runtime in Hn.
  rewrite map_app in Hn. apply NoDup_app in Hn as (_ & _ & Hn). by apply NoDup_app in Hn as (Hn & _ & _).
Qed.

(** Operations on the descriptors of the application. *)
Lemma inv_user s x : inv s -> opened x = opened (k s) /\ nextFibre x = nextFibre (k s) ->
  fdCount (io x) = fdCount (io (k s)) /\ iPollCount (io x) = iPollCount (io (k s)) /\ oPollCount (io x) = oPollCount (io (k s)) ->
  (forall fd d, 0 <= counter (sync (fds (io x) fd) d)) -> (forall fd, fd ∉ users s -> fds (io x) fd = fds (io (k s)) fd) ->
  inv (set_k x s).
Proof.
  intros Hi Ho Hc Hct Hf. apply (inv_shape s); [done| | |exact (iv_master s Hi)].
  - split; try done. intros fd Hu _. by apply Hf.
  - intros p Hp. pose proof (iv_parked s Hi p Hp) as Hpk. unfold parked, asleep_nodes, input_sem in *. cbn [k set_k]. rewrite Hf; [done|].
    intros Hu. destruct (user_apart s _ Hi Hu) as [Ha _]. apply Ha. by apply (list_elem_of_fmap_2 pollFD).
Qed.

Lemma internalP_counter f a now q : 0 <= counter q -> 0 <= counter (internalP f a now q).2.
Proof. intros Hq. unfold internalP. destruct (counter q <? 1) eqn:E; [destruct (block_suspends a now)|]; bool_prop; cbn; lia. Qed.
Lemma V_counter sf q : 0 <= counter q -> 0 <= counter (V sf true q).2.
Proof. intros Hq. unfold V. destruct (unblock sf (bq q)) as [[f|] q']; cbn; lia. Qed.

Lemma inv_set_sem s fd d q : inv s -> fd ∈ users s -> 0 <= counter q -> inv (set_k (set_sem fd d q (k s)) s).
Proof.
  intros Hi Hu Hq. pose proof (set_sem_ok _ fd d q _ Hq (iv_kernel s Hi)) as Hk. apply inv_user; try done; [apply Hk|].
  intros fd' Hn. rewrite set_sem_fds, decide_False; [done|]. by intros ->.
Qed.

(** One poller changes its stage. *)
Lemma set_at_pollers input i p p' s : vec input s !! i = Some p ->
  exists n, pollers s !! n = Some p /\ pollers (set_at input i p' s) = <[n := p']> (pollers s).
Proof.
  intros Hv. unfold pollers. destruct input; cbn in *.
  - exists i. pose proof (lookup_lt_Some _ _ _ Hv). by rewrite lookup_app_l, insert_app_l.
  - exists (length (iPollVec s) + i)%nat. by rewrite lookup_app_r, Nat.add_sub', insert_app_r by lia.
Qed.
Lemma map_insert_same {B} (f : PollerFibre -> B) l n p p' : l !! n = Some p -> f p' = f p -> map f (<[n := p']> l) = map f l.
Proof.
  intros Hl Hf. change (f <$> <[n := p']> l = f <$> l). rewrite list_fmap_insert. apply list_insert_id. by rewrite list_lookup_fmap, Hl, Hf.
Qed.
Lemma insert_others {B} (f : PollerFibre -> B) l n p p' q : NoDup (map f l) -> l !! n = Some p -> q ∈ <[n := p']> l ->
  q = p' \/ q ∈ l /\ f q <> f p.
Proof.
  intros Hn Hl (j & Hj)%list_elem_of_lookup. destruct (decide (n = j)) as [<-|Hne].
  - left. rewrite list_lookup_insert_eq in Hj by (by eapply lookup_lt_Some). congruence.
  - right. rewrite list_lookup_insert_ne in Hj by done. split; [by eapply list_elem_of_lookup_2|].
    intros Hf. apply Hne. eapply (NoDup_lookup (map f l)); [done| |]; rewrite list_lookup_fmap.
    + by rewrite Hl.
    + rewrite Hj. cbn. by rewrite Hf.
Qed.

Lemma set_at_shape input i p p' s x : inv s -> vec input s !! i = Some p -> pollFD p' = pollFD p -> pollFibre p' = pollFibre p ->
  (x = k s \/ exists q, x = set_sem (pollFD p) true q (k s) /\ 0 <= counter q) ->
  same_shape s (set_at input i p' (set_k x s)).
Proof.
  intros Hi Hv Hfd Hfib Hx. destruct (set_at_pollers input i p p' s Hv) as (n & Hn & Hps).
  assert (Hpx : pollers (set_at input i p' (set_k x s)) = pollers (set_at input i p' s)) by (by destruct input).
  pose proof (iv_kernel s Hi) as Hk.
  assert (Hk' : k (set_at input i p' (set_k x s)) = x) by (by destruct input).
  split; rewrite ?Hpx, ?Hps, ?Hk'.
  - by destruct input.
  - by eapply map_insert_same.
  - by eapply map_insert_same.
  - destruct input; cbn; by rewrite length_insert.
  - by destruct Hx as [->|(q & -> & _)].
  - by destruct Hx as [->|(q & -> & _)].
  - destruct Hx as [->|(q & -> & Hq)]; [apply Hk|]. apply (set_sem_ok _ (pollFD p) true q _ Hq Hk).
  - intros fd _ Hin. destruct Hx as [->|(q & -> & Hq)]; [done|]. rewrite set_sem_fds, decide_False; [done|].
    intros ->. apply Hin. eapply (list_elem_of_fmap_2 pollFD), list_elem_of_lookup_2, Hn.
Qed.

Lemma set_at_id input i p s : vec input s !! i = Some p -> set_at input i p s = s.
Proof. intros Hv. destruct s, input; cbn in *; by rewrite list_insert_id. Qed.
Lemma set_k_id s : set_k (k s) s = s.
Proof. by destruct s. Qed.

Lemma map_unique {B} (f : PollerFibre -> B) l p q : NoDup (map f l) -> p ∈ l -> q ∈ l -> f p = f q -> p = q.
Proof.
  intros Hnd (n & Hn)%list_elem_of_lookup (j & Hj)%list_elem_of_lookup Hf.
  assert (n = j) as ->; [|congruence]. eapply (NoDup_lookup _ n j); [exact Hnd| |]; rewrite list_lookup_fmap.
  - by rewrite Hn.
  - rewrite Hj. cbn. by rewrite Hf.
Qed.
Lemma same_fibre s p q : inv s -> p ∈ pollers s -> q ∈ pollers s -> pollFibre p = pollFibre q -> p = q.
Proof. intros Hi. apply map_unique, iv_fibres, Hi. Qed.
Lemma same_fd s p q : inv s -> p ∈ pollers s -> q ∈ pollers s -> pollFD p = pollFD q -> p = q.
Proof. intros Hi. by apply map_unique, pollers_nodup. Qed.

Lemma inv_at input i p p' s x : inv s -> vec input s !! i = Some p -> pollFD p' = pollFD p -> pollFibre p' = pollFibre p ->
  (x = k s \/ exists q, x = set_sem (pollFD p) true q (k s) /\ 0 <= counter q) ->
  at_ p <> Asleep -> parked (master s) x p' -> inv (set_at input i p' (set_k x s)).
Proof.
  intros Hi Hv Hfd Hfib Hx Ha Hp. pose proof (set_at_shape input i p p' s x Hi Hv Hfd Hfib Hx) as Hsh.
  destruct (set_at_pollers input i p p' (set_k x s) (ltac:(by destruct input))) as (n & Hn & Hps). change (pollers (set_k x s)) with (pollers s) in *.
  assert (Hm : master (set_at input i p' (set_k x s)) = master s) by (by destruct input).
  assert (Hk : k (set_at input i p' (set_k x s)) = x) by (by destruct input).
  apply (inv_shape s); [done..| |]; rewrite ?Hm, ?Hk.
  - intros q Hq. rewrite Hps in Hq. destruct (insert_others pollFD _ _ _ _ _ (pollers_nodup s Hi) Hn Hq) as [->|[Hq' Hne]]; [done|].
    pose proof (iv_parked s Hi q Hq') as Hpk. destruct Hx as [->|(sem & -> & _)]; [done|].
    eapply parked_frame; [apply set_sem_frame| |done]. by intros ?%list_elem_of_singleton.
  - pose proof (iv_master s Hi) as Hmo. unfold master_ok. rewrite Hm, Hps. destruct (master s) as [|fd|f]; [done| |].
    + destruct Hmo as (q & Hq & <-). apply (list_elem_of_fmap_2 pollFD) in Hq.
      change (pollFD <$> pollers s) with (map pollFD (pollers s)) in Hq. rewrite <- (map_insert_same _ _ n p p') in Hq by done.
      apply list_elem_of_fmap in Hq as (q' & -> & Hq'). eauto.
    + destruct Hmo as (q & (j & Hj)%list_elem_of_lookup & <- & Hq). exists q. split; [|done].
      apply (list_elem_of_lookup_2 _ j). rewrite list_lookup_insert_ne; [done|]. intros ->. congruence.
Qed.

Lemma poller_step_inv input i s s' : inv s -> poller_step input i s = Some s' -> inv s'.
Proof.
  intros Hi. unfold poller_step. destruct (vec input s !! i) as [p|] eqn:Hv; cbn [mbind option_bind]; [|done].
  destruct (set_at_pollers input i p p s Hv) as (n & Hn & _). apply list_elem_of_lookup_2 in Hn.
  pose proof (iv_parked s Hi p Hn) as Hp. unfold parked in Hp. destruct (at_ p) eqn:Ha; [done| | |done].
  - intros [= <-]. rewrite <- (set_k_id s). by apply (inv_at input i p); try (by left); rewrite ?Ha.
  - destruct (decide (master s = MLocked (pollFD p))) as [|Hm]; [done|]. unfold asleep_nodes in Hp.
    set (q := input_sem (pollFD p) (k s)) in *. pose proof (ko_counter _ _ (iv_kernel s Hi) (pollFD p) true) as Hc.
    change (0 <= counter q) in Hc. unfold internalP. destruct (counter q <? 1) eqn:Hlt; bool_prop; cbn [block_suspends]; intros [= <-].
    + apply (inv_at input i p); try done; [right; eexists; split; [reflexivity|done]|by rewrite Ha|].
      unfold parked, asleep_nodes. cbn [at_ set_stage pollFD pollFibre]. rewrite input_set. left. cbn. rewrite Hp, upd_eq. split_and!; [done..|].
      intros Hm'. pose proof (iv_master s Hi) as Hmo. rewrite Hm' in Hmo. destruct Hmo as (r & Hr & Hf & Hra).
      pose proof (same_fibre s r p Hi Hr Hn Hf). congruence.
    + rewrite <- (set_at_id input i p (set_k _ s)) by (by destruct input).
      apply (inv_at input i p); try done; [right; eexists; split; [reflexivity|cbn; lia]|by rewrite Ha|].
      unfold parked, asleep_nodes. by rewrite Ha, input_set.
Qed.

Lemma parked_master m m' s p : m <> MResume (pollFibre p) -> m' <> MResume (pollFibre p) -> parked m s p -> parked m' s p.
Proof. intros Hm Hm'. unfold parked. destruct (at_ p); try done. intros [(H1 & H2 & _)|[_ ?]]; [by left|congruence]. Qed.

Lemma notify_inv input i p s : inv s -> vec input s !! i = Some p -> master s = MElsewhere ->
  inv (set_master (masterPoller s) (MLocked (pollFD p)) s).
Proof.
  intros Hi Hv Hm. apply (inv_shape s); [done| | |].
  - split; try done. apply (iv_kernel s Hi).
  - intros q Hq. apply (parked_master (master s)); [by rewrite Hm|done|]. by apply (iv_parked s Hi).
  - exists p. split; [|done]. destruct (set_at_pollers input i p p s Hv) as (n & Hn & _). by apply list_elem_of_lookup_2 in Hn.
Qed.

Lemma wake_fd f l : map pollFD (map (wake f) l) = map pollFD l.
Proof. rewrite map_map. apply map_ext. intros p. unfold wake. by destruct (decide _). Qed.
Lemma wake_fibre f l : map pollFibre (map (wake f) l) = map pollFibre l.
Proof. rewrite map_map. apply map_ext. intros p. unfold wake. by destruct (decide _). Qed.

Lemma unlocked_inv p m q s : inv s -> master s = MLocked (pollFD p) -> p ∈ pollers s -> 0 <= counter q ->
  m = MElsewhere \/ m = MResume (pollFibre p) /\ at_ p = Asleep ->
  parked m (set_sem (pollFD p) true q (k s)) p ->
  inv (set_k (set_sem (pollFD p) true q (k s)) (set_master (masterPoller s) m s)).
Proof.
  intros Hi Hm Hp Hq Hm' Hpk. apply (inv_shape s); [done| | |].
  - split; try done; [apply (set_sem_ok _ (pollFD p) true q _ Hq (iv_kernel s Hi))|].
    intros fd _ Hin. cbn [k set_k]. rewrite set_sem_fds, decide_False; [done|]. intros ->. apply Hin. by apply (list_elem_of_fmap_2 pollFD).
  - intros r Hr. change (r ∈ pollers s) in Hr. cbn [k set_k master set_master]. destruct (decide (pollFD r = pollFD p)) as [Hfd|Hne].
    { by rewrite (same_fd s r p Hi Hr Hp Hfd). }
    eapply parked_frame; [apply set_sem_frame| |].
    + by intros ?%list_elem_of_singleton.
    + apply (parked_master (master s)); [by rewrite Hm| |by apply (iv_parked s Hi)].
      intros He. apply Hne. f_equal. apply (same_fibre s r p Hi Hr Hp). destruct Hm' as [->|[-> _]]; [done|congruence].
  - unfold master_ok. cbn [master set_k set_master]. destruct Hm' as [->|[-> Ha]]; [done|]. by exists p.
Qed.

Lemma master_step_inv s s' : inv s -> master_step s = Some s' -> inv s'.
Proof.
  intros Hi. unfold master_step. pose proof (iv_master s Hi) as Hmo. destruct (master s) as [|fd|f] eqn:Hm; [done| |].
  - destruct Hmo as (p & Hp & <-). pose proof (iv_parked s Hi p Hp) as Hpk. rewrite Hm in Hpk.
    pose proof (ko_counter _ _ (iv_kernel s Hi) (pollFD p) true) as Hc. unfold parked, asleep_nodes in Hpk.
    destruct (at_ p) eqn:Ha; [done| | |].
    1, 2: destruct (V_nodes _ (pollFD p) Hpk) as (c & -> & ->); intros [= <-]; apply (unlocked_inv p); try done; [by left|].
    1, 2: unfold parked, asleep_nodes; by rewrite Ha, input_set.
    destruct Hpk as [(Hn & Hr & _)|[_ ?]]; [|done]. rewrite (V_one _ _ _ Hn Hr). intros [= <-].
    apply (unlocked_inv p); try done; [by right|]. unfold parked, asleep_nodes. rewrite Ha, input_set. by right.
  - destruct Hmo as (p & Hp & Hf & Ha). intros [= <-].
    set (s' := set_pollers _ _ _). assert (Hps : pollers s' = map (wake f) (pollers s)) by (unfold pollers; cbn; by rewrite map_app).
    apply (inv_shape s); [done| | |done].
    + split; rewrite ?Hps, ?wake_fd, ?wake_fibre; try done; [cbn; by rewrite !length_map|apply (iv_kernel s Hi)].
    + rewrite Hps. intros q (r & -> & Hr)%list_elem_of_fmap. cbn. pose proof (iv_parked s Hi r Hr) as Hpk. rewrite Hm in Hpk. unfold wake.
      destruct (decide (pollFibre r = f)) as [He|He].
      * assert (r = p) as -> by (apply (same_fibre s r p Hi Hr Hp); congruence). unfold parked in *. rewrite Ha in Hpk. cbn.
        destruct Hpk as [(_ & _ & Hne)|[Hn _]]; [congruence|done].
      * apply (parked_master (MResume f)); [congruence|done|done].
Qed.

Lemma open_inv fd x s : inv s -> open_fd (k s) = Fin (fd, x) -> inv (set_k x (set_users (fd :: users s) s)).
Proof.
  intros Hi Ho. destruct (open_fin _ _ _ _ (iv_kernel s Hi) Ho) as (-> & Hfd & Hk). destruct Hi as [H1 H2 H3 H4 H5 H6 H7 H8].
  split; try done.
  - eapply kernel_ok_perm, Hk. cbn [users set_k set_users]. change (runtime (set_k _ (set_users _ s))) with (runtime s). solve_Permutation.
  - intros fd' Hu. cbn in Hu. apply not_elem_of_cons in Hu as [_ Hu]. by apply H5.
Qed.

Lemma reset_ok c q q' : Semaphores.reset c q = Some q' -> nodes (bq q) = [] /\ q' = mkSem c (bq q).
Proof. unfold Semaphores.reset, empty. destruct (nodes (bq q)); cbn; [by intros [= <-]|done]. Qed.

Lemma cleanup_ok fd w u w' : cleanupFD fd w = Done u w' -> nodes (bq (sync (fds w fd) true)) = [] /\
  exists t, w' = set_fd fd t w /\ (forall d, counter (sync t d) = 0) /\ nodes (bq (sync t true)) = [].
Proof.
  unfold cleanupFD, slot, check, mbnd, get. destruct (_ && _); cbn; [|done].
  destruct (Semaphores.reset 0 (sync (fds w fd) false)) as [o|] eqn:Ho; [|done]. destruct (Semaphores.reset 0 (sync (fds w fd) true)) as [i|] eqn:Hi; [|done].
  apply reset_ok in Ho as [_ ->], Hi as [Hn ->]. intros [= <- <-]. split; [done|]. eexists. split_and!; [reflexivity| |done].
  by intros [].
Qed.

Lemma close_inv fd u w s : inv s -> fd ∈ users s -> cleanupFD fd (io (k s)) = Done u w ->
  inv (set_k (close_fd fd (mkKernel w (opened (k s)) (nextFibre (k s)))) (set_users (base.filter (fun x => x <> fd) (users s)) s)).
Proof.
  intros Hi Hu Hc. destruct (cleanup_ok _ _ _ _ Hc) as (Hn & t & -> & Ht & Htn). destruct (user_apart s fd Hi Hu) as [Hap Har].
  set (x := mkKernel _ _ _). assert (Hx : inv (set_k x s)).
  { apply inv_user; try done; cbn.
    - intros fd' d. destruct (decide (fd' = fd)) as [->|Hne]; [by rewrite upd_eq, Ht|rewrite upd_ne by done; apply (ko_counter _ _ (iv_kernel s Hi))].
    - intros fd' Hne. rewrite upd_ne; [done|]. by intros ->. }
  pose proof (iv_kernel _ Hx) as Hk. destruct Hx as [_ H2 H3 H4 H5 H6 H7 H8]. split; try done.
  - apply close_ok. eapply kernel_ok_perm, Hk. change (runtime (set_k _ (set_users _ s))) with (runtime s).
    cbn [users set_k set_users]. change (runtime (set_k x s)) with (runtime s).
    assert (Hp : users s ≡ₚ fd :: base.filter (fun x => x <> fd) (users s)); [|rewrite Hp at 1; solve_Permutation].
    pose proof (ko_nodup _ _ (iv_kernel s Hi)) as Hnd. apply NoDup_app in Hnd as (_ & _ & Hnd).
    apply NoDup_Permutation; [done| |].
    + constructor; [|by apply NoDup_filter]. rewrite list_elem_of_filter. tauto.
    + intros y. rewrite elem_of_cons, list_elem_of_filter. destruct (decide (y = fd)) as [->|]; tauto.
  - intros fd' Hu'. cbn in Hu'. rewrite list_elem_of_filter in Hu'. destruct (decide (fd' = fd)) as [->|Hne].
    + intros _. unfold asleep_nodes, input_sem. cbn. by rewrite upd_eq.
    + apply H5. cbn. tauto.
Qed.

Lemma fork_step_inv l s s' : inv s -> step l s = Some s' -> inv s'.
Proof.
  intros Hi. destruct l as [input i|input i| | |fd|fd input f|fd input|fd input p|f t|now|w| |main]; cbn [step].
  - by apply poller_step_inv.
  - destruct (vec input s !! i) as [p|] eqn:Hv; cbn; [|done]. destruct (master s) eqn:Hm; [|done..]. intros [= <-]. by eapply notify_inv.
  - by apply master_step_inv.
  - destruct (open_fd (k s)) as [[fd x]| |] eqn:Ho; [|done..]. intros [= <-]. by apply open_inv.
  - unfold user. destruct (bool_decide _) eqn:Hu; cbn; [|done]. bool_prop. destruct (cleanupFD fd _) as [u w| |] eqn:Hc; [|done..].
    intros [= <-]. by eapply close_inv.
  - unfold user. destruct (bool_decide _) eqn:Hu; cbn; [|done]. bool_prop. intros [= <-]. apply inv_set_sem; [done..|].
    apply internalP_counter, (ko_counter _ _ (iv_kernel s Hi)).
  - unfold user. destruct (bool_decide _) eqn:Hu; cbn; [|done]. bool_prop. intros [= <-]. apply inv_set_sem; [done..|].
    apply V_counter, (ko_counter _ _ (iv_kernel s Hi)).
  - unfold user. destruct (bool_decide _) eqn:Hu; cbn; [|done]. bool_prop. intros [= <-]. apply inv_user; try done; cbn.
    + intros fd' d. destruct (decide (fd' = fd)) as [->|Hne]; [rewrite upd_eq; cbn|rewrite upd_ne by done]; apply (ko_counter _ _ (iv_kernel s Hi)).
    + intros fd' Hne. rewrite upd_ne; [done|]. by intros ->.
  - intros [= <-]. by destruct Hi.
  - intros [= <-]. by destruct Hi.
  - intros [= <-]. by destruct Hi.
  - destruct (negb _); cbn; [|done]. intros [= <-]. by destruct Hi.
  - unfold FibreFork. destruct (preFork main s); cbn; [|done]. pose proof (postFork_ok s Hi) as Hf. intros H.
    destruct (postFork s) as [s1| |] eqn:E; [|done..]. injection H as <-. destruct (decide _); [|done]. by apply Hf.
Qed.

Lemma fork_reachable_inv s : reachable init step s -> inv s.
Proof. apply (invariant_rule _ _ inv); [exact fork_init_inv|]. intros s1 l s2. apply fork_step_inv. Qed.

(** The conditions of [preFork]: the tests of the semaphores' values never
    fail, since a waiting fibre does not make the value negative. *)
Lemma preFork_ok s main : inv s -> preFork main s = true <->
  main = true /\ TimerQueues.queue (timerQueue s) = [] /\ diskCluster s = false /\ length (ring s) = 1%nat /\
  forall fd d, 0 <= fd < limit -> poller (fds (io (k s)) fd) d = None.
Proof.
  intros Hi. pose proof (iv_kernel s Hi) as Hk.
  assert (Hq : EventScopes.preFork (io (k s)) = true <-> forall fd d, 0 <= fd < limit -> poller (fds (io (k s)) fd) d = None).
  { unfold EventScopes.preFork. rewrite (ko_count _ _ Hk), forallb_forall. split.
    - intros H fd d Hfd. specialize (H fd). unfold quiet_fd in H. rewrite !andb_true_iff, !bool_decide_eq_true in H.
      destruct H as (((_ & _) & Hf) & Ht); [apply list_elem_of_In, elem_of_seqZ; lia|]. by destruct d.
    - intros H fd Hfd. apply list_elem_of_In, elem_of_seqZ in Hfd. unfold quiet_fd.
      rewrite !andb_true_iff, !bool_decide_eq_true, !Z.leb_le. pose proof (ko_counter _ _ Hk fd) as Hc.
      split_and!; (apply Hc || apply H; lia). }
  unfold preFork. rewrite !andb_true_iff, bool_decide_eq_true, negb_true_iff, Nat.eqb_eq, Hq. tauto.
Qed.

(** C25. [FibreFork] aborts exactly if the caller is not the main fibre, a timer
    is set, there is a disk cluster or a second worker, or a descriptor is
    registered with a poller.  Otherwise the parent goes on unchanged.  The child
    never comes back from [postFork] if the master poller was about to wake a
    poller fibre when the process forked; else, with enough descriptors left, all
    pollers of the child are new and started with open descriptors at which
    nobody waits, the application's descriptors are as they were, and for every
    poller one descriptor and one fibre more are lost. *)
Theorem FibreFork_correct s main : reachable init step s ->
  (FibreFork 0 main s = None <->
     ~ (main = true /\ TimerQueues.queue (timerQueue s) = [] /\ diskCluster s = false /\ length (ring s) = 1%nat /\
        forall fd d, 0 <= fd < limit -> poller (fds (io (k s)) fd) d = None)) /\
  (FibreFork 0 main s <> None ->
     (forall pid, pid <> 0 -> FibreFork pid main s = Some (Fin s)) /\
     if decide (master s = MElsewhere)
     then Z.of_nat (length (opened (k s)) + length (pollers s)) <= limit ->
          exists s', FibreFork 0 main s = Some (Fin s') /\ child s s'
     else FibreFork 0 main s = Some Stuck).
Proof.
  intros Hr. pose proof (fork_reachable_inv s Hr) as Hi. pose proof (preFork_ok s main Hi) as Hp. pose proof (postFork_ok s Hi) as Hf.
  unfold FibreFork. destruct (preFork main s); cbn.
  - split; [split; [done|intros Hn; destruct Hn; by apply Hp]|]. intros _. split.
    + intros pid Hpid. by apply Z.eqb_neq in Hpid as ->.
    + destruct (decide _); [|by rewrite Hf]. destruct Hf as [Hf1 Hf2]. intros Hroom. destruct (Hf1 Hroom) as [s' Hs'].
      exists s'. rewrite Hs'. split; [done|]. by apply Hf2.
  - split; [|done]. split; [|done]. intros _ Hc. by apply Hp in Hc.
Qed.
End Forks.

(** * Runs *)
Definition lowest (limit : Z) (l : list Z) : option Z := head (base.filter (fun fd => fd ∉ l) (seqZ 0 limit)).
Lemma lowest_ok limit l fd : lowest limit l = Some fd -> 0 <= fd < limit /\ fd ∉ l.
Proof.
  intros Hh. apply head_Some_elem_of in Hh. apply list_elem_of_filter in Hh as [Hl Hs]. apply elem_of_seqZ in Hs. split; [lia|done].
Qed.
Lemma lowest_some limit l : (exists fd, 0 <= fd < limit /\ fd ∉ l) -> is_Some (lowest limit l).
Proof.
  intros (fd & Hr & Hl). apply head_is_Some. intros Hn.
  assert (Hin : fd ∈ base.filter (fun fd => fd ∉ l) (seqZ 0 limit)); [|rewrite Hn in Hin; by apply elem_of_nil in Hin].
  apply list_elem_of_filter. split; [done|]. apply elem_of_seqZ. lia.
Qed.

Definition own (fd : Z) : ptr := fd + 1.
Definition fork_step : label -> scope -> option scope := step own 1 (lowest 64).

(** After [bootstrap], with the three standard descriptors. *)
Definition empty_sync : SyncFD := mkSyncFD (fun _ => mkSem 0 (mkBQ [] (fun _ => nullptr))) (fun _ => None) false false.
Definition raw_scope : scope :=
  mkScope (mkKernel (mkWorld (fun _ => empty_sync) 64 1 1 0 EventScopeStats.reset [] []) [0; 1; 2] 1%nat)
    (TimerQueues.mkTQ [] (fun _ => false) (fun _ => nullptr) [] []) false [0%nat] (0, 0) MElsewhere [] [] [0; 1; 2] [].
Definition booted : scope := match start (lowest 64) raw_scope with Fin s => s | _ => raw_scope end.

Lemma booted_init : init (lowest 64) 64 booted.
Proof.
  exists raw_scope. split; [|reflexivity]. split; try done. split_and!; [done| |].
  - apply (bool_decide_eq_true_1 _). reflexivity.
  - intros fd. cbn. rewrite !elem_of_cons, elem_of_nil. lia.
Qed.

(** The poller fibres run and go to sleep; the application opens a file. *)
Definition quiet_run : list label := [Poller true 0; Poller true 0; Poller false 0; Poller false 0; Open].
(** The master poller takes the input poller's fibre from its semaphore. *)
Definition waking_run : list label := quiet_run ++ [Notify true 0; Master].

Lemma quiet_reachable : reachable (init (lowest 64) 64) fork_step (after fork_step booted quiet_run).
Proof. apply run_reaches; [exact booted_init|by vm_compute]. Qed.
Lemma waking_reachable : reachable (init (lowest 64) 64) fork_step (after fork_step booted waking_run).
Proof. apply run_reaches; [exact booted_init|by vm_compute]. Qed.

(** A child with new pollers, and a child that is stuck. *)
Lemma FibreFork_correct_witness :
  (exists s', FibreFork own (lowest 64) 0 true (after fork_step booted quiet_run) = Some (Fin s') /\
     child (after fork_step booted quiet_run) s') /\
  FibreFork own (lowest 64) 0 true (after fork_step booted waking_run) = Some Stuck.
Proof.
  split.
  - pose proof (FibreFork_correct own 1 (lowest 64) 64 (lowest_ok 64) (lowest_some 64) _ true quiet_reachable) as [_ H].
    destruct (H ltac:(by vm_compute)) as [_ Hc]. rewrite decide_True in Hc by (by vm_compute). apply Hc. by vm_compute.
  - pose proof (FibreFork_correct own 1 (lowest 64) 64 (lowest_ok 64) (lowest_some 64) _ true waking_reachable) as [_ H].
    destruct (H ltac:(by vm_compute)) as [_ Hc]. by rewrite decide_False in Hc by (by vm_compute).
Defined.

(** Each fork makes two pollers for every one it needs, and two forks leave four
    pollers behind whose descriptors stay open. *)
Lemma fork_leaks_pollers :
  let s := after fork_step booted (quiet_run ++ [Fork true; Fork true]) in
  run fork_step (quiet_run ++ [Fork true; Fork true]) booted = Some s /\
  length (pollers s) = 2%nat /\ map pollFD (lost s) = [6; 5; 9; 8] /\ (forall fd, fd ∈ map pollFD (lost s) -> fd ∈ opened (k s)).
Proof.
  split_and!; [by vm_compute..|]. intros fd. vm_compute (map _ _). intros Hfd. vm_compute (opened _).
  rewrite !elem_of_cons, elem_of_nil in *. naive_solver.
Qed.

(** A poller fibre sleeps in its semaphore, and the test of the value passes. *)
Lemma prefork_misses_waiting :
  let s := after fork_step booted quiet_run in
  asleep_nodes 6 (k s) = [2%nat] /\ counter (input_sem 6 (k s)) = 0 /\ preFork true s = true.
Proof. split_and!; by vm_compute. Qed.

(** The master poller has taken a poller fibre out of its semaphore's queue and
    has not resumed it when the process forks: the child waits forever. *)
Lemma fork_child_stuck : FibreFork own (lowest 64) 0 true (after fork_step booted waking_run) = Some Stuck.
Proof. by vm_compute. Qed.
