(* ===== verification/HandoverManagers.v ===== *)
(** The idle manager that counts ready freds and hands them over to idle
    processors: [IdleManager] of [src/runtime/Scheduler.h] and the parts of
    [src/runtime/BaseProcessor.cc] and [BaseProcessor.h] that use it, for the
    configuration with [TESTING_GO_IDLEMANAGER] off (IdleManagers has the one for
    the default). *)
From S2P Require Import Prelude.

Local Open Scope Z_scope.

Section Handover.
Context (IdleSpinMax : nat).

(** A processor: running a fred (or its idle fred), in call [i] of
    [scheduleNonblocking] (call 0 is made by the fred that suspends, the others
    by the idle loop) before and after reading [fredCounter], in
    [scheduleBlocking], before [getReadyFred], before [block], and in [halt]. *)
Inductive ppc :=
| Run (f : option nat) | Try (i : nat) | TryCAS (i : nat) (c : Z) | Search | Get | Block | Halt.

(** A thread that resumes a fred [f] of processor [p]: before the counter,
    before [enqueueFred], before [unblock], before [nextProc->wake]. *)
Inductive upc := UIdle | UAdd (f p : nat) | UEnqueue (f p : nat) | UUnblock (f p : nat) | UWake (f next : nat).

Record state := mkState {
  fredCounter : Z;
  waitingProcs : list nat;
  waitingFreds : list nat;
  halting : nat -> bool;
  haltSem : nat -> Z;
  handoverFred : nat -> nat;
  ready : list (list nat);      (* the ready queues; their order is in Schedulers *)
  procs : list ppc;
  ext : list upc }.

Definition set_proc (p : nat) (c : ppc) (s : state) : state :=
  mkState (fredCounter s) (waitingProcs s) (waitingFreds s) (halting s) (haltSem s) (handoverFred s) (ready s) (<[p := c]> (procs s)) (ext s).
Definition set_ext (e : nat) (u : upc) (s : state) : state :=
  mkState (fredCounter s) (waitingProcs s) (waitingFreds s) (halting s) (haltSem s) (handoverFred s) (ready s) (procs s) (<[e := u]> (ext s)).
Definition add_counter (d : Z) (s : state) : state :=
  mkState (fredCounter s + d) (waitingProcs s) (waitingFreds s) (halting s) (haltSem s) (handoverFred s) (ready s) (procs s) (ext s).
Definition set_ready (v : nat) (q : list nat) (s : state) : state :=
  mkState (fredCounter s) (waitingProcs s) (waitingFreds s) (halting s) (haltSem s) (handoverFred s) (<[v := q]> (ready s)) (procs s) (ext s).
Definition set_freds (l : list nat) (s : state) : state :=
  mkState (fredCounter s) (waitingProcs s) l (halting s) (haltSem s) (handoverFred s) (ready s) (procs s) (ext s).
Definition set_waiting (l : list nat) (p : nat) (h : bool) (s : state) : state :=
  mkState (fredCounter s) l (waitingFreds s) (upd (halting s) p h) (haltSem s) (handoverFred s) (ready s) (procs s) (ext s).
Definition add_sem (p : nat) (d : Z) (s : state) : state :=
  mkState (fredCounter s) (waitingProcs s) (waitingFreds s) (halting s) (upd (haltSem s) p (haltSem s p + d)) (handoverFred s) (ready s) (procs s) (ext s).
Definition set_handover (p f : nat) (s : state) : state :=
  mkState (fredCounter s) (waitingProcs s) (waitingFreds s) (halting s) (haltSem s) (upd (handoverFred s) p f) (ready s) (procs s) (ext s).

Inductive label :=
| Resume (e f p : nat)      (* somebody resumes [f], which belongs to processor [p] *)
| Ext (e : nat)
| Suspend (p : nat)         (* the running fred suspends, or the idle fred looks again *)
| Go (p : nat) (v : nat).   (* processor [p] goes on; [v]: the ready queue that a search finds a fred in *)

(** What follows a call of [scheduleNonblocking] that returns [nullptr]. *)
Definition next_try (i : nat) : ppc := if (S i <? IdleSpinMax)%nat then Try (S i) else Get.

(** [block(proc)] under [procLock] *)
Definition block (p : nat) (s : state) : state :=
  match waitingFreds s with
  | [] => set_proc p Halt (set_waiting (p :: waitingProcs s) p true s)
  | f :: l => set_proc p (Run (Some f)) (set_freds l s)
  end.

(** [unblock(fred, nextProc)] under [procLock] *)
Definition unblock (e f p : nat) (s : state) : state :=
  match waitingProcs s with
  | [] => set_ext e UIdle (set_freds (waitingFreds s ++ [f]) s)
  | q :: l =>
      let '(next, l') := if halting s p then (p, base.filter (fun x => x <> p) (waitingProcs s)) else (q, l) in
      set_ext e (UWake f next) (set_waiting l' next false s)
  end.

(** [addReadyFred] and what [enqueueResume] does with its result *)
Definition ext_step (e : nat) (s : state) : option state :=
  match ext s !! e with
  | Some (UAdd f p) => Some (set_ext e (if 0 <? fredCounter s + 1 then UEnqueue f p else UUnblock f p) (add_counter 1 s))
  | Some (UEnqueue f p) => q ← ready s !! p; Some (set_ext e UIdle (set_ready p (q ++ [f]) s))
  | Some (UUnblock f p) => Some (unblock e f p s)
  | Some (UWake f next) => Some (set_ext e UIdle (add_sem next 1 (set_handover next f s)))
  | _ => None
  end.

Definition proc_step (p v : nat) (s : state) : option state :=
  match procs s !! p with
  | Some (Try i) => Some (set_proc p (TryCAS i (fredCounter s)) s)
  | Some (TryCAS i c) =>
      Some (if (0 <? c) && (fredCounter s =? c) then set_proc p Search (add_counter (-1) s) else set_proc p (next_try i) s)
  | Some Search =>
      match ready s !! v with
      | Some (f :: q) => Some (set_proc p (Run (Some f)) (set_ready v q s))
      | _ => Some s
      end
  | Some Get => Some (set_proc p (if 0 <? fredCounter s then Search else Block) (add_counter (-1) s))
  | Some Block => Some (block p s)
  | Some Halt => if 0 <? haltSem s p then Some (set_proc p (Run (Some (handoverFred s p))) (add_sem p (-1) s)) else None
  | _ => None
  end.

Definition count_in (f : nat) (l : list nat) : Z := cnt (fun x => bool_decide (x = f)) l.
Definition carries (f : nat) (u : upc) : bool :=
  match u with UAdd g _ | UEnqueue g _ | UUnblock g _ | UWake g _ => bool_decide (g = f) | UIdle => false end.
Definition runs (f : nat) (c : ppc) : bool := match c with Run (Some g) => bool_decide (g = f) | _ => false end.
(** Handed over to a processor that has not yet left [halt]. *)
Definition handed (f : nat) (s : state) (p : nat) : bool := (0 <? haltSem s p) && bool_decide (handoverFred s p = f).

(** The number of places where a fred is. *)
Definition located (f : nat) (s : state) : Z :=
  weight (count_in f) (ready s) + count_in f (waitingFreds s) + cnt (carries f) (ext s) + cnt (runs f) (procs s) +
  cnt (handed f s) (seq 0 (length (procs s))).

Definition step (l : label) (s : state) : option state :=
  match l with
  | Resume e f p =>
      match ext s !! e with
      | Some UIdle => if (located f s =? 0) && (p <? length (procs s))%nat then Some (set_ext e (UAdd f p) s) else None
      | _ => None
      end
  | Ext e => ext_step e s
  | Suspend p => match procs s !! p with Some (Run _) => Some (set_proc p (Try 0) s) | _ => None end
  | Go p v => proc_step p v s
  end.

Definition init (s : state) : Prop :=
  exists n m, s = mkState 0 [] [] (fun _ => false) (fun _ => 0) (fun _ => 0%nat) (replicate n []) (replicate n (Run None)) (replicate m UIdle).

(** * Invariants *)
Definition is_search (c : ppc) : bool := match c with Search => true | _ => false end.
Definition is_block (c : ppc) : bool := match c with Block => true | _ => false end.
Definition is_halt (c : ppc) : bool := match c with Halt => true | _ => false end.
Definition is_enqueue (u : upc) : bool := match u with UEnqueue _ _ => true | _ => false end.
Definition is_unblock (u : upc) : bool := match u with UUnblock _ _ => true | _ => false end.
Definition wakes (p : nat) (u : upc) : bool := match u with UWake _ q => bool_decide (q = p) | _ => false end.
Definition len (q : list nat) : Z := Z.of_nat (length q).

(** Freds that are or will be in a ready queue beyond those that a processor has
    claimed, and processors that wait beyond those that a fred is on its way to. *)
Definition surplus (s : state) : Z := weight len (ready s) + cnt is_enqueue (ext s) - cnt is_search (procs s).
Definition deficit (s : state) : Z := cnt is_block (procs s) + len (waitingProcs s) - cnt is_unblock (ext s) - len (waitingFreds s).

Record inv (s : state) : Prop := mkInv {
  h_len : length (ready s) = length (procs s);
  h_surplus : surplus s = Z.max 0 (fredCounter s);
  h_deficit : deficit s = Z.max 0 (- fredCounter s);
  h_one : waitingProcs s = [] \/ waitingFreds s = [];
  h_nodup : NoDup (waitingProcs s);
  h_sem : forall p, 0 <= haltSem s p;
  h_halt : forall p, Z.b2z (bool_decide (p ∈ waitingProcs s)) + cnt (wakes p) (ext s) + haltSem s p =
             Z.b2z (match procs s !! p with Some c => is_halt c | None => false end);
  h_halting : forall p, halting s p = bool_decide (p ∈ waitingProcs s);
  h_owner : forall e f p, ext s !! e = Some (UAdd f p) \/ ext s !! e = Some (UEnqueue f p) -> (p < length (procs s))%nat }.

Lemma len_nonneg q : 0 <= len q.
Proof. unfold len. lia. Qed.

Lemma init_handover s : init s -> inv s.
Proof.
  intros (n & m & ->). assert (Hw : weight len (replicate n []) = 0) by (induction n; cbn; [done|]; rewrite IHn; done).
  split; unfold surplus, deficit; cbn [ready procs ext fredCounter waitingProcs waitingFreds haltSem halting]; try done.
  - by rewrite !length_replicate.
  - rewrite Hw, !cnt_replicate. cbn. lia.
  - rewrite !cnt_replicate. cbn. lia.
  - by left.
  - apply NoDup_nil_2.
  - intros p. rewrite cnt_replicate, bool_decide_false by set_solver. cbn.
    destruct (replicate n (Run None) !! p) as [c|] eqn:E; [apply lookup_replicate in E as [-> _]|]; cbn; lia.
  - intros e f p [H|H]; by apply lookup_replicate in H as [? _].
Qed.

Ltac fields := cbn [ready procs ext fredCounter waitingProcs waitingFreds haltSem halting handoverFred
  set_proc set_ext add_counter set_ready set_freds set_waiting add_sem set_handover] in *.

(** A processor moves, and [fredCounter] with it. *)
Lemma proc_move_ok s p c c' d dq : inv s -> procs s !! p = Some c -> is_halt c = false -> is_halt c' = false ->
  (forall r, weight len r = weight len (ready s) + dq -> length r = length (ready s) ->
    Z.max 0 (fredCounter s + d) - Z.max 0 (fredCounter s) = dq - (Z.b2z (is_search c') - Z.b2z (is_search c)) ->
    Z.max 0 (- (fredCounter s + d)) - Z.max 0 (- fredCounter s) = Z.b2z (is_block c') - Z.b2z (is_block c) ->
    inv (mkState (fredCounter s + d) (waitingProcs s) (waitingFreds s) (halting s) (haltSem s) (handoverFred s) r (<[p := c']> (procs s)) (ext s))).
Proof.
  intros [] Hp Hc Hc' r Hr Hl H1 H2. pose proof (lookup_lt_Some _ _ _ Hp). unfold surplus, deficit in *.
  split; unfold surplus, deficit; fields; rewrite ?(cnt_insert _ _ _ _ _ Hp); try done; try lia.
  - rewrite length_insert. congruence.
  - intros q. destruct (decide (q = p)) as [->|Hne].
    + rewrite list_lookup_insert_eq, Hc' by done. specialize (h_halt0 p). rewrite Hp, Hc in h_halt0. exact h_halt0.
    + rewrite list_lookup_insert_ne by done. apply h_halt0.
  - intros e f q Hq. rewrite length_insert. by eapply h_owner0.
Qed.

Lemma proc_only s p c c' d : inv s -> procs s !! p = Some c -> is_halt c = false -> is_halt c' = false ->
  Z.max 0 (fredCounter s + d) - Z.max 0 (fredCounter s) = - (Z.b2z (is_search c') - Z.b2z (is_search c)) ->
  Z.max 0 (- (fredCounter s + d)) - Z.max 0 (- fredCounter s) = Z.b2z (is_block c') - Z.b2z (is_block c) ->
  inv (set_proc p c' (add_counter d s)).
Proof.
  intros Hi Hp Hc Hc' H1 H2. apply (proc_move_ok s p c c' d 0 Hi Hp Hc Hc' (ready s)); [lia|done|lia|done].
Qed.

Lemma same_counter s : add_counter 0 s = s.
Proof. destruct s. unfold add_counter. cbn. by rewrite Z.add_0_r. Qed.

Lemma proc_stay s p c c' : inv s -> procs s !! p = Some c -> is_halt c = false -> is_halt c' = false ->
  is_search c' = is_search c -> is_block c' = is_block c -> inv (set_proc p c' s).
Proof.
  intros Hi Hp Hc Hc' H1 H2. rewrite <- (same_counter s).
  apply (proc_only s p c c' 0); try done; rewrite ?H1, ?H2; lia.
Qed.

Lemma next_try_plain i : is_halt (next_try i) = false /\ is_search (next_try i) = false /\ is_block (next_try i) = false.
Proof. unfold next_try. by destruct (_ <? _)%nat. Qed.

Lemma search_ok s p v f q : inv s -> procs s !! p = Some Search -> ready s !! v = Some (f :: q) ->
  inv (set_proc p (Run (Some f)) (set_ready v q s)).
Proof.
  intros Hi Hp Hv. pose proof (proc_move_ok s p Search (Run (Some f)) 0 (-1) Hi Hp eq_refl eq_refl (<[v := q]> (ready s))) as H.
  rewrite Z.add_0_r in H. apply H.
  - rewrite (weight_insert _ _ _ _ _ Hv). unfold len. cbn [length]. lia.
  - by rewrite length_insert.
  - cbn. lia.
  - cbn. lia.
Qed.

Lemma block_ok s p : inv s -> procs s !! p = Some Block -> inv (block p s).
Proof.
  intros Hi Hp. pose proof (lookup_lt_Some _ _ _ Hp) as Hlt. pose proof (h_halt s Hi p) as Hhp. rewrite Hp in Hhp. cbn in Hhp.
  pose proof (cnt_nonneg (wakes p) (ext s)) as Hw. pose proof (h_sem s Hi p) as Hs.
  assert (Hnot : p ∉ waitingProcs s) by (case_bool_decide; [cbn in *; lia|done]).
  unfold block. destruct (waitingFreds s) as [|f l] eqn:Hf.
  - destruct Hi. unfold surplus, deficit in *. split; unfold surplus, deficit; fields; rewrite ?(cnt_insert _ _ _ _ _ Hp); rewrite ?Hf in *; try done.
    + by rewrite length_insert.
    + cbn. lia.
    + unfold len in *. cbn in *. lia.
    + by right.
    + by apply NoDup_cons.
    + intros q. destruct (decide (q = p)) as [->|Hne].
      * rewrite list_lookup_insert_eq, bool_decide_true by (done || by left). rewrite bool_decide_false in Hhp by done. cbn in *. lia.
      * rewrite list_lookup_insert_ne by done. rewrite <- (h_halt0 q). do 3 f_equal. apply bool_decide_ext. set_solver.
    + intros q. destruct (decide (q = p)) as [->|Hne].
      * rewrite upd_eq, bool_decide_true; [done|by left].
      * rewrite upd_ne, h_halting0 by done. apply bool_decide_ext. set_solver.
    + intros e f q. rewrite length_insert. apply h_owner0.
  - destruct Hi. unfold surplus, deficit in *. split; unfold surplus, deficit; fields; rewrite ?(cnt_insert _ _ _ _ _ Hp); rewrite ?Hf in *; try done.
    + by rewrite length_insert.
    + cbn. lia.
    + unfold len in *. cbn in *. lia.
    + left. by destruct h_one0.
    + intros q. destruct (decide (q = p)) as [->|Hne].
      * rewrite list_lookup_insert_eq by done. exact Hhp.
      * rewrite list_lookup_insert_ne by done. apply h_halt0.
    + intros e g q. rewrite length_insert. apply h_owner0.
Qed.

Lemma halt_ok s p : inv s -> procs s !! p = Some Halt -> 0 < haltSem s p -> inv (set_proc p (Run (Some (handoverFred s p))) (add_sem p (-1) s)).
Proof.
  intros Hi Hp Hs. pose proof (lookup_lt_Some _ _ _ Hp) as Hlt. pose proof (h_halt s Hi p) as Hh. rewrite Hp in Hh. cbn in Hh.
  pose proof (cnt_nonneg (wakes p) (ext s)).
  destruct Hi. unfold surplus, deficit in *. split; unfold surplus, deficit; fields; rewrite ?(cnt_insert _ _ _ _ _ Hp); cbn [is_search is_block Z.b2z]; try done; try lia.
  - by rewrite length_insert.
  - intros q. destruct (decide (q = p)) as [->|Hne]; [rewrite upd_eq; lia|by rewrite upd_ne].
  - intros q. destruct (decide (q = p)) as [->|Hne].
    + rewrite upd_eq, list_lookup_insert_eq by done. cbn. lia.
    + rewrite upd_ne, list_lookup_insert_ne by done. apply h_halt0.
  - intros e f q. rewrite length_insert. apply h_owner0.
Qed.

(** A resuming thread moves, with [fredCounter], the ready queues and the
    waiting freds. *)
Lemma ext_move_ok s e u u' d r wf : inv s -> ext s !! e = Some u -> (forall p, wakes p u' = wakes p u) ->
  length r = length (ready s) ->
  Z.max 0 (fredCounter s + d) - Z.max 0 (fredCounter s) =
    weight len r - weight len (ready s) + Z.b2z (is_enqueue u') - Z.b2z (is_enqueue u) ->
  Z.max 0 (- (fredCounter s + d)) - Z.max 0 (- fredCounter s) =
    Z.b2z (is_unblock u) - Z.b2z (is_unblock u') - len wf + len (waitingFreds s) ->
  (waitingProcs s = [] \/ wf = []) ->
  (forall f p, u' = UAdd f p \/ u' = UEnqueue f p -> (p < length (procs s))%nat) ->
  inv (mkState (fredCounter s + d) (waitingProcs s) wf (halting s) (haltSem s) (handoverFred s) r (procs s) (<[e := u']> (ext s))).
Proof.
  intros [] He Hw Hr H1 H2 H3 H4. pose proof (lookup_lt_Some _ _ _ He). unfold surplus, deficit in *.
  split; unfold surplus, deficit; fields; rewrite ?(cnt_insert _ _ _ _ _ He); try done; try lia.
  - intros p. rewrite (cnt_insert _ _ _ _ _ He), Hw. specialize (h_halt0 p). lia.
  - intros e' f p. destruct (decide (e' = e)) as [->|Hne].
    + rewrite list_lookup_insert_eq by done. intros Hq. apply (H4 f p). naive_solver.
    + rewrite list_lookup_insert_ne by done. apply h_owner0.
Qed.

Lemma handover_unblock_ok s e f p : inv s -> ext s !! e = Some (UUnblock f p) -> inv (unblock e f p s).
Proof.
  intros Hi He. pose proof (lookup_lt_Some _ _ _ He) as Hlt. unfold unblock. destruct (waitingProcs s) as [|q l] eqn:Hwp.
  - pose proof (ext_move_ok s e (UUnblock f p) UIdle 0 (ready s) (waitingFreds s ++ [f]) Hi He (fun _ => eq_refl) eq_refl) as H.
    rewrite Z.add_0_r, Hwp in H. unfold set_ext, set_freds. cbn. rewrite Hwp. apply H; try done.
    + cbn. lia.
    + unfold len. rewrite length_app. cbn. lia.
    + by left.
    + by intros ? ? [].
  - assert (Hnext : exists next l', (if halting s p then (p, base.filter (fun x => x <> p) (q :: l)) else (q, l)) = (next, l') /\
      next ∈ waitingProcs s /\ NoDup l' /\ S (length l') = length (waitingProcs s) /\ forall x, x ∈ l' <-> x ∈ waitingProcs s /\ x <> next).
    { pose proof (h_nodup s Hi) as Hnd. rewrite Hwp in *. destruct (halting s p) eqn:Hh.
      - eexists _, _. split; [done|]. rewrite (h_halting s Hi), Hwp in Hh. bool_prop. split_and!; [done|by apply NoDup_filter|by apply length_filter_out|].
        intros x. rewrite list_elem_of_filter. naive_solver.
      - eexists _, _. split; [done|]. apply NoDup_cons in Hnd as [Hq Hnd]. split_and!; [by left|done|done|]. intros x. rewrite elem_of_cons.
        split; [|naive_solver]. intros Hx. split; [by right|]. by intros ->. }
    destruct Hnext as (next & l' & -> & Hin & Hnd & Hlen & Hl').
    assert (Hnw : cnt (wakes next) (ext s) = 0 /\ haltSem s next = 0 /\ is_Some (procs s !! next)).
    { pose proof (h_halt s Hi next) as Hh. rewrite bool_decide_true in Hh by done. pose proof (cnt_nonneg (wakes next) (ext s)).
      pose proof (h_sem s Hi next). destruct (procs s !! next) as [c|]; [|cbn in Hh; lia]. destruct (is_halt c); cbn in Hh; split_and!; try lia; by eexists. }
    destruct Hi. unfold surplus, deficit in *. split; unfold surplus, deficit; fields; rewrite ?(cnt_insert _ _ _ _ _ He); cbn [is_enqueue is_unblock Z.b2z]; try done; try lia.
    + unfold len in *. lia.
    + right. destruct h_one0 as [H|H]; [rewrite H in Hin; by apply elem_of_nil in Hin|done].
    + intros x. rewrite (cnt_insert _ _ _ _ _ He). cbn [wakes Z.b2z]. rewrite <- (h_halt0 x). destruct (decide (x = next)) as [->|Hne].
      * rewrite bool_decide_false by (rewrite Hl'; naive_solver). rewrite !bool_decide_true by done. cbn. lia.
      * rewrite (bool_decide_false (next = x)) by done. rewrite (bool_decide_ext (x ∈ l') (x ∈ waitingProcs s)) by (rewrite Hl'; naive_solver). cbn. lia.
    + intros x. destruct (decide (x = next)) as [->|Hne].
      * rewrite upd_eq, bool_decide_false; [done|]. rewrite Hl'. naive_solver.
      * rewrite upd_ne, h_halting0 by done. apply bool_decide_ext. rewrite Hl'. naive_solver.
    + intros e' g x. destruct (decide (e' = e)) as [->|Hne].
      * rewrite list_lookup_insert_eq by done. by intros [|].
      * rewrite list_lookup_insert_ne by done. apply h_owner0.
Qed.

Lemma wake_ok s e f p : inv s -> ext s !! e = Some (UWake f p) -> inv (set_ext e UIdle (add_sem p 1 (set_handover p f s))).
Proof.
  intros Hi He. pose proof (lookup_lt_Some _ _ _ He) as Hlt.
  destruct Hi. unfold surplus, deficit in *. split; unfold surplus, deficit; fields; rewrite ?(cnt_insert _ _ _ _ _ He); cbn [is_enqueue is_unblock Z.b2z]; try done; try lia.
  - intros x. destruct (decide (x = p)) as [->|Hne]; [rewrite upd_eq; specialize (h_sem0 p); lia|by rewrite upd_ne].
  - intros x. rewrite (cnt_insert _ _ _ _ _ He). cbn [wakes Z.b2z]. rewrite <- (h_halt0 x). destruct (decide (x = p)) as [->|Hne].
    + rewrite upd_eq, (bool_decide_true (p = p)) by done. cbn. lia.
    + rewrite upd_ne, (bool_decide_false (p = x)) by done. cbn. lia.
  - intros e' g x. destruct (decide (e' = e)) as [->|Hne].
    + rewrite list_lookup_insert_eq by done. by intros [|].
    + rewrite list_lookup_insert_ne by done. apply h_owner0.
Qed.

Lemma handover_step_inv s l s' : inv s -> step l s = Some s' -> inv s'.
Proof.
  intros Hi. destruct l as [e f p|e|p|p v]; unfold step.
  - destruct (ext s !! e) as [[]|] eqn:He; try done. destruct (_ && _) eqn:E; [|done]. apply andb_true_iff in E as [_ Hp]. bool_prop.
    intros [= <-]. pose proof (ext_move_ok s e UIdle (UAdd f p) 0 (ready s) (waitingFreds s) Hi He (fun _ => eq_refl) eq_refl) as H.
    rewrite Z.add_0_r in H. apply H; try (cbn; lia); [apply Hi|]. intros g q [[= <- <-]|[=]]. done.
  - unfold ext_step. destruct (ext s !! e) as [[|f p|f p|f p|f p]|] eqn:He; try done.
    + intros [= <-]. assert (Hp : (p < length (procs s))%nat) by (apply (h_owner s Hi e f p); by left).
      pose proof (ext_move_ok s e (UAdd f p) (if 0 <? fredCounter s + 1 then UEnqueue f p else UUnblock f p) 1 (ready s) (waitingFreds s) Hi He) as H.
      destruct (Z.ltb_spec 0 (fredCounter s + 1)); apply H; try done; try (cbn; lia); try apply Hi;
        intros g q [[=]|[=]]; subst; done.
    + destruct (ready s !! p) as [q|] eqn:Hq; [|done]. intros [= <-].
      pose proof (ext_move_ok s e (UEnqueue f p) UIdle 0 (<[p := q ++ [f]]> (ready s)) (waitingFreds s) Hi He (fun _ => eq_refl)) as H.
      rewrite Z.add_0_r in H. apply H; try (by intros ? ? [|]); try (cbn; lia); [by rewrite length_insert| |apply Hi].
      rewrite (weight_insert _ _ _ _ _ Hq). unfold len. rewrite length_app. cbn. lia.
    + intros [= <-]. by apply handover_unblock_ok.
    + intros [= <-]. by apply wake_ok.
  - destruct (procs s !! p) as [[]|] eqn:Hp; try done. intros [= <-]. by eapply proc_stay.
  - unfold proc_step. destruct (procs s !! p) as [[f|i|i c| | | |]|] eqn:Hp; try done.
    + intros [= <-]. by eapply proc_stay.
    + intros [= <-]. destruct (next_try_plain i) as (H1 & H2 & H3). destruct (_ && _) eqn:E; [|by eapply proc_stay].
      apply andb_true_iff in E as [E1 E2]. bool_prop. eapply proc_only; [done|exact Hp|done|done|cbn; lia|cbn; lia].
    + destruct (ready s !! v) as [[|f q]|] eqn:Hv; intros [= <-]; try done. by apply search_ok.
    + intros [= <-]. destruct (Z.ltb_spec 0 (fredCounter s)); (eapply proc_only; [done|exact Hp|done|done|cbn; lia|cbn; lia]).
    + intros [= <-]. by apply block_ok.
    + destruct (Z.ltb_spec 0 (haltSem s p)); [|done]. intros [= <-]. by apply halt_ok.
Qed.

(** * No fred is lost or duplicated *)
Lemma count_in_cons f x l : count_in f (x :: l) = Z.b2z (bool_decide (x = f)) + count_in f l.
Proof. done. Qed.
Lemma count_in_app f l1 l2 : count_in f (l1 ++ l2) = count_in f l1 + count_in f l2.
Proof. apply cnt_app. Qed.

Lemma located_proc g s p c c' : procs s !! p = Some c ->
  located g (set_proc p c' s) = located g s - Z.b2z (runs g c) + Z.b2z (runs g c').
Proof.
  intros Hp. unfold located. fields. rewrite (cnt_insert _ _ _ _ _ Hp), length_insert.
  change (handed g (set_proc p c' s)) with (handed g s). lia.
Qed.
Lemma located_ext g s e u u' : ext s !! e = Some u -> located g (set_ext e u' s) = located g s - Z.b2z (carries g u) + Z.b2z (carries g u').
Proof.
  intros He. unfold located. fields. rewrite (cnt_insert _ _ _ _ _ He). change (handed g (set_ext e u' s)) with (handed g s). lia.
Qed.
Lemma located_ready g s v q q' : ready s !! v = Some q -> located g (set_ready v q' s) = located g s - count_in g q + count_in g q'.
Proof.
  intros Hv. unfold located. fields. rewrite (weight_insert _ _ _ _ _ Hv). change (handed g (set_ready v q' s)) with (handed g s). lia.
Qed.
Lemma located_freds g s l : located g (set_freds l s) = located g s - count_in g (waitingFreds s) + count_in g l.
Proof. unfold located. fields. change (handed g (set_freds l s)) with (handed g s). lia. Qed.

(** The handover to [p] changes. *)
Lemma located_handed g s s' p : (p < length (procs s))%nat -> ready s' = ready s -> waitingFreds s' = waitingFreds s -> ext s' = ext s -> procs s' = procs s ->
  (forall q, q <> p -> haltSem s' q = haltSem s q /\ handoverFred s' q = handoverFred s q) ->
  located g s' = located g s - Z.b2z (handed g s p) + Z.b2z (handed g s' p).
Proof.
  intros Hp E1 E2 E3 E4 Hq. unfold located. rewrite E1, E2, E3, E4.
  rewrite (cnt_change (handed g s) (handed g s') p); [lia|apply NoDup_seq|apply elem_of_seq; lia|].
  intros q Hne. unfold handed. by destruct (Hq q Hne) as [-> ->].
Qed.

Lemma located_wake g s e f p : inv s -> ext s !! e = Some (UWake f p) ->
  located g (set_ext e UIdle (add_sem p 1 (set_handover p f s))) = located g s.
Proof.
  intros Hi He. pose proof (h_halt s Hi p) as Hh. pose proof (h_sem s Hi p) as Hs.
  pose proof (cnt_lookup (wakes p) _ _ _ He) as Hw. cbn in Hw. rewrite bool_decide_true in Hw by done. specialize (Hw eq_refl).
  assert (Hz : haltSem s p = 0 /\ is_Some (procs s !! p)).
  { destruct (procs s !! p) as [c|]; [|cbn in Hh; destruct (bool_decide _); cbn in Hh; lia].
    split; [|by eexists]. destruct (is_halt c), (bool_decide (p ∈ waitingProcs s)); cbn in Hh; lia. }
  destruct Hz as [Hz Hp]. apply lookup_lt_is_Some in Hp.
  rewrite (located_ext g _ e (UWake f p)) by done. rewrite (located_handed g s _ p Hp); try done.
  - generalize (located g s). intros L. unfold handed, add_sem, set_handover. cbn [haltSem handoverFred carries]. rewrite !upd_eq, Hz. change (0 <? 0 + 1) with true. cbn. lia.
  - intros q Hq. unfold add_sem, set_handover. cbn [haltSem handoverFred]. by rewrite !upd_ne.
Qed.

Lemma located_halt g s p : inv s -> procs s !! p = Some Halt -> 0 < haltSem s p ->
  located g (set_proc p (Run (Some (handoverFred s p))) (add_sem p (-1) s)) = located g s.
Proof.
  intros Hi Hp Hs. pose proof (h_halt s Hi p) as Hh. rewrite Hp in Hh. cbn in Hh. pose proof (cnt_nonneg (wakes p) (ext s)).
  pose proof (lookup_lt_Some _ _ _ Hp) as Hlt.
  assert (H1 : haltSem s p = 1) by (destruct (bool_decide _); cbn in Hh; lia).
  rewrite (located_proc g _ p Halt) by done. rewrite (located_handed g s (add_sem p (-1) s) p Hlt); try done.
  - generalize (located g s). intros L. unfold handed, add_sem. cbn [haltSem handoverFred runs]. rewrite !upd_eq, H1. change (0 <? 1 + -1) with false. cbn. lia.
  - intros q Hq. unfold add_sem. cbn [haltSem handoverFred]. by rewrite !upd_ne.
Qed.

Lemma located_step g l s s' : inv s -> step l s = Some s' ->
  match l with
  | Resume e f p => located f s = 0 /\ located g s' = located g s + Z.b2z (bool_decide (f = g))
  | Suspend p => located g s' <= located g s
  | _ => located g s' = located g s
  end.
Proof.
  intros Hi. destruct l as [e f p|e|p|p v]; unfold step.
  - destruct (ext s !! e) as [[]|] eqn:He; try done. destruct (_ && _) eqn:E; [|done]. apply andb_true_iff in E as [E _]. bool_prop.
    intros [= <-]. split; [done|]. rewrite (located_ext g s e UIdle) by done. cbn. lia.
  - unfold ext_step. destruct (ext s !! e) as [[|f p|f p|f p|f p]|] eqn:He; try done.
    + intros [= <-]. rewrite (located_ext g _ e (UAdd f p)) by done. change (located g (add_counter 1 s)) with (located g s). destruct (0 <? _); cbn; lia.
    + destruct (ready s !! p) as [q|] eqn:Hq; [|done]. intros [= <-]. rewrite (located_ext g _ e (UEnqueue f p)) by done.
      rewrite (located_ready g s p q) by done. rewrite count_in_app, count_in_cons. cbn. lia.
    + intros [= <-]. unfold unblock. destruct (waitingProcs s) as [|q l].
      * rewrite (located_ext g _ e (UUnblock f p)) by done. rewrite located_freds, count_in_app, count_in_cons. cbn. lia.
      * destruct (if halting s p then _ else _) as [next l']. rewrite (located_ext g _ e (UUnblock f p)) by done.
        change (located g (set_waiting l' next false s)) with (located g s). cbn. lia.
    + intros [= <-]. by apply located_wake.
  - destruct (procs s !! p) as [[]|] eqn:Hp; try done. intros [= <-]. rewrite (located_proc g s p (Run f)) by done. destruct (runs g (Run f)); cbn; lia.
  - unfold proc_step. destruct (procs s !! p) as [[f|i|i c| | | |]|] eqn:Hp; try done.
    + intros [= <-]. rewrite (located_proc g s p (Try i)) by done. cbn. lia.
    + intros [= <-]. assert (Hn : runs g (next_try i) = false) by (unfold next_try; by destruct (_ <? _)%nat).
      destruct (_ && _); [rewrite (located_proc g _ p (TryCAS i c)) by done; change (located g (add_counter (-1) s)) with (located g s); cbn; lia|].
      rewrite (located_proc g s p (TryCAS i c)), Hn by done. cbn. lia.
    + destruct (ready s !! v) as [[|f q]|] eqn:Hv; intros [= <-]; try done.
      rewrite (located_proc g _ p Search) by done. rewrite (located_ready g s v (f :: q)) by done. rewrite count_in_cons. cbn. lia.
    + intros [= <-]. rewrite (located_proc g _ p Get) by done. change (located g (add_counter (-1) s)) with (located g s). destruct (0 <? _); cbn; lia.
    + intros [= <-]. unfold block. destruct (waitingFreds s) as [|f l] eqn:Hf.
      * rewrite (located_proc g _ p Block) by done. change (located g (set_waiting (p :: waitingProcs s) p true s)) with (located g s). cbn. lia.
      * rewrite (located_proc g _ p Block) by done. rewrite located_freds, Hf, count_in_cons. cbn. lia.
    + destruct (Z.ltb_spec 0 (haltSem s p)); [|done]. intros [= <-]. by apply located_halt.
Qed.

Definition all_inv (s : state) : Prop := inv s /\ forall g, located g s <= 1.

Lemma handover_reachable_inv s : reachable init step s -> all_inv s.
Proof.
  apply invariant_rule.
  - intros s0 H0. split; [by apply init_handover|]. intros g. destruct H0 as (n & m & ->). unfold located. fields.
    assert (Hw : weight (count_in g) (replicate n []) = 0) by (clear; induction n; cbn; [done|]; rewrite IHn; done).
    rewrite Hw, !cnt_replicate, cnt_none; [cbn; lia|]. intros i x _. unfold handed. done.
  - intros s0 l s1 [Hi Hl] Hs. split; [by eapply handover_step_inv|]. intros g. pose proof (located_step g l s0 s1 Hi Hs) as H. specialize (Hl g).
    destruct l; [|lia..]. destruct H as [H0 ->]. case_bool_decide; [subst; cbn; lia|cbn; lia].
Qed.

(** * Main theorem *)

End Handover.

(** Two processors with [IdleSpinMax] 1: processor 0 goes idle, and a fred is
    resumed while it is about to halt. *)
Definition handover_start : state := mkState 0 [] [] (fun _ => false) (fun _ => 0) (fun _ => 0%nat) [[]; []] [Run None; Run None] [UIdle].
Definition handover_run : list label :=
  [Suspend 0; Go 0 0; Go 0 0; Go 0 0; Resume 0 7 1; Ext 0; Go 0 0; Ext 0; Ext 0; Go 0 0].

